(* ===== verification/_CoqProject ===== *)
-Q . S2P
Prelude.v
Errors.v
Proto.v
Bufio.v
Queue.v
Heartbeat.v
Tracker.v
Codec.v
Inbound.v
Locate.v
Keys.v
Redis.v
GateLocator.v
Json.v
NodeLocator.v
Admission.v
EpochStore.v
Epoch.v
Prog.v
Node.v
NodeLifecycle.v
NodeSystem.v
Network.v
Outbound.v
TcpChannel.v
WsChannel.v
TcpServer.v
WsServer.v
Endpoint.v
Resolver.v
GatewaySession.v
Gateway.v
GatewaySystem.v
Broadcast.v
GateClient.v
Backends.v
Options.v
GatewayLifecycle.v
ClientOptions.v
ClientCore.v
TcpClient.v
WsClient.v
Event.v
Subscription.v
EventBus.v
Sender.v
Listener.v
Registry.v
Host.v
Serving.v
ServerEdge.v
Discovery.v
Samples.v
