(* ===== verification/Prelude.v ===== *)
(** * A verification library for the yola long-connection framework

    yola keeps the connections of game clients at gateways and runs their
    requests on nodes.  A client connects over TCP or WebSocket, authenticates
    and sends frames; its gateway binds the player to the connection in Redis
    and forwards every request to a node, chosen by a registry in etcd or by
    the binding of the player to a node; nodes and other services push
    messages back through the gateway that holds the player; gateways fan out
    events they receive on NATS.  This library is a shallow embedding of that
    code: data as records and inductive types, functions as functions,
    goroutines as step relations whose steps are the critical sections, channel
    operations and calls of the source, programs over remote calls as trees
    whose answers are given by a specification.

    ** The parts and where they are

    Foundations.  [Prelude] (record update, machine integers, reachability,
    counting lemmas, tactics, hints), [Errors] (Go errors, wrapping, joining,
    [context.Context] with its clock, [internal/contextwait]), [Proto] (the
    envelope of [api/protocol/v1]), [Prog] (programs over calls and their
    weakest preconditions).

    Frames.  [Bufio] (Go's buffered readers and writers and little-endian
    integers), [Codec] ([network/tcp/codec.go], [network/websocket/codec.go],
    [network/prepared.go]).

    One connection.  [Queue] ([internal/queue]), [Heartbeat]
    ([network/internal/heartbeat]), [Tracker] ([network/internal/request]),
    [Inbound] ([network/internal/inbound], [network/invoke.go],
    [network/internal/auth]), [Outbound] (the contract of
    [network/connection.go] as a machine), [TcpChannel] and [WsChannel] (the
    channels and their writers, which refine it), [Serving] (the read loops of
    both servers over the interface [FrameSource]), [ServerEdge] (writes,
    accepted sockets, origins, statistics, close frames).

    Transports.  [Network] (defaults, [transport.go], [internal/tlsconfig]),
    [TcpServer] and [WsServer] (options, lifecycle and connection goroutines),
    [Host] ([network/internal/host]), [Listener] ([internal/listener]),
    [ClientOptions], [ClientCore], [TcpClient], [WsClient] (the clients of both
    transports around one core).

    Locating players.  [Locate] ([locate/locator.go]), [Keys], [Redis], [Json],
    [GateLocator] and [NodeLocator] ([locate/redis]: the keys, the scripts as
    functions on a store with expiry, the client side and the encoding of
    bindings).  The script that binds a player to a gateway is kept as its
    text: it leaves a block open, so it has no meaning to model.

    Nodes.  [Admission] ([node/admission.go]), [EpochStore] (the interface of
    an epoch store, discharged by [NodeLocator]), [Epoch] ([node/epoch.go]),
    [Node] ([node/dispatch.go], [session.go], [push.go],
    [internal/clusterroute]), [NodeLifecycle] ([node/lifecycle.go]),
    [NodeSystem] (a process: its goroutines running those programs against the
    store), [Discovery] (the record a node registers of the endpoint its
    settings publish, and the gateway that resolves it).

    Gateways.  [Endpoint] ([internal/grpcendpoint], with Go's [net] and
    [netip] parsers), [Resolver] ([gateway/resolver.go], [balancer.go],
    [instance]), [Backends] ([gateway/backend.go]), [GatewaySession]
    ([gateway/session.go]), [Gateway] ([inbound.go], [delivery.go],
    [forward.go] as programs), [GatewaySystem] (a process running them),
    [Broadcast] ([gateway/broadcast.go]), [GatewayLifecycle] ([server.go],
    [lifecycle.go]), [GateClient] ([internal/gateclient]), [Options] (the
    options of gateways, nodes and senders).

    Services.  [Event], [Subscription] and [EventBus] ([event] and
    [event/nats]), [Sender] ([push/sender.go]), [Registry] ([registry/etcd],
    against the interface [Etcd] with its laws), [Samples] (settings and the
    authenticator of [examples]).

    A definition has the name of the function, method or type it models where
    that is a name here; a method that blocks is cut at its blocking points
    into definitions or constructors named after the part.

    ** What the theorems show

    Frames: what a peer writes is read back whole and in order, however the
    connection cuts the stream ([Codec], [Serving], [ServerEdge]); reading is
    bounded, and returns exactly for the readers that end or overflow.
    Connections: both channels refine one contract, report
    a final frame only when it was written last, and count what they hold
    exactly; dispatch is in order, and from the authentication on without a
    gap; servers keep
    their limits and have nothing left running after [Stop].  Players: a
    binding is removed only by its holder; the ledger of a gateway accounts for
    every binding the store reported and every removal asked for, and tells
    those whose call failed apart, which wait for their lease; a push reaches
    the connection that holds the binding, stale gateways and nodes are fenced;
    the bind script of the gateways never loads; a lease is locally valid only while the store holds the epoch, a
    handler runs only on the process that owns its route, and an epoch is given
    back only when nothing of the process can touch a player.  Discovery: a
    listing that is accepted is a faithful table, the nodes that register are
    all routed to when they share the gateway's transport and the sticky mode
    and refused otherwise, a record goes only with its lease or by its own
    registry, a pick reaches the node it names or none, connections are
    made and closed once.  Lifecycles: admission windows, stops that happen
    once, shutdowns and closes that complete, for gateways, clients, the event
    bus and the sender.  Options: what resolves is within the bounds the rest
    relies on, for every list of options.

    Invariants are proved over [reachable]; a theorem that something completes
    says that from every reachable state there are steps to the end, so no
    reachable state is stuck, and does not assume a fair scheduler.

    ** Bounds and fuel

    Integers are [Z] with the wrap-around of their width written out where the
    code relies on it ([u32], [i32], [u64], [i64]).  The loops of [Bufio] run
    on fuel that their lemmas show to be enough for every input
    ([Peek_loop_spec]: a byte is consumed in each turn).  [readBoundedFrame]
    takes its fuel as an argument, because a reader may never end: two rounds
    more than the pieces it takes are enough when it ends or overflows, and no
    fuel is when it does not ([readBoundedFrame_ends],
    [readBoundedFrame_spins]); the messages of [Serving] end, and are given
    that fuel ([readBoundedFrame_list]).  The sequence numbers of [Tracker]
    skip zero and those in use, with fuel for as many turns as there are
    requests ([Begin_returns]).  The JSON parser of [Json] has fuel for more
    calls than the text has characters, of which every call consumes one.
    Every other recursion is structural.
    Time is a number that never goes back; deadlines are compared with it.

    ** Interfaces

    [FramingLaws] (what the codec and the protobuf runtime promise),
    [FrameSource] (what a read loop reads from), [EpochStore] (what a lease
    needs of a store), [BindingJson] (the encoding of bindings, discharged by
    [Json]), [Redis] and [RedisLaws] (commands on keys with expiry), [Etcd] and
    [EtcdLaws] (leases, puts and transactions of etcd):
    the clients are proved against the class, the implementations discharge
    it, and the witnesses use concrete ones.

    ** Not modelled

    The protobuf runtime and generated code ([api/cluster], the reflection in
    [api/protocol]), gRPC, NATS, etcd, Redis, gorilla and kratos: they only
    answer, in any way their documentation allows.  Sockets, TLS records and
    the net/http server: reads, writes and closes give arbitrary results.
    [url.Parse], the Unicode tables of [EqualFold] outside ASCII and the
    interfaces of the machine are arguments.  Logging, and the memory of
    messages that must not be changed after they are sent.  Panics of a handler
    inside a read loop; panics elsewhere are steps.  The order of start and
    stop in the programs under [examples], and the separate module under
    [test]. *)

From Stdlib Require Export ZArith Lia.
From stdpp Require Export base numbers strings fin_maps gmap list.

#[global] Open Scope Z_scope.

(** ** Record update

    [r <| field := v |>] rebuilds a record with one field changed.  A record
    type declares how it is eta-expanded with one [Eta] instance. *)

Class Eta (R : Type) := eta : R → R.
Class Upd {R T : Type} (get : R → T) := upd : (T → T) → R → R.
Arguments upd {R T} get {_} f r /.

Ltac build_upd :=
  match goal with
  | |- @Upd ?R ?T ?get =>
      let f := fresh "f" in
      let r := fresh "r" in
      unfold Upd; intros f r;
      let e := constr:(@eta R _) in
      let e := eval hnf in e in
      let body := eval cbv beta in (e r) in
      let body := eval pattern (get r) in body in
      match body with
      | ?h _ => let b := eval cbv beta in (h (f (get r))) in exact b
      end
  end.
#[export] Hint Extern 0 (Upd _) => build_upd : typeclass_instances.

Declare Scope yola_scope.
Delimit Scope yola_scope with yola.
Notation "r <| p := v |>" := (upd p (λ _, v) r)
  (at level 1, left associativity, p at level 9, v at level 99) : yola_scope.
Notation "r <| p ::= f |>" := (upd p f r)
  (at level 1, left associativity, p at level 9, f at level 99) : yola_scope.
#[global] Open Scope yola_scope.

(** ** Machine integers

    Go integers are modelled by [Z]; the conversions below are the
    wrap-around of each width. *)

Definition u32 (z : Z) : Z := z `mod` 2 ^ 32.
Definition u64 (z : Z) : Z := z `mod` 2 ^ 64.
Definition i32 (z : Z) : Z := (z + 2 ^ 31) `mod` 2 ^ 32 - 2 ^ 31.
Definition i64 (z : Z) : Z := (z + 2 ^ 63) `mod` 2 ^ 64 - 2 ^ 63.

Lemma u32_range z : 0 ≤ u32 z < 2 ^ 32.
Proof. apply Z.mod_pos_bound. lia. Qed.

Lemma u64_range z : 0 ≤ u64 z < 2 ^ 64.
Proof. apply Z.mod_pos_bound. lia. Qed.

Lemma u32_small z : 0 ≤ z < 2 ^ 32 → u32 z = z.
Proof. apply Z.mod_small. Qed.

Lemma i32_small z : - 2 ^ 31 ≤ z < 2 ^ 31 → i32 z = z.
Proof. intros. unfold i32. rewrite Z.mod_small; lia. Qed.

Lemma i64_small z : - 2 ^ 63 ≤ z < 2 ^ 63 → i64 z = z.
Proof. intros. unfold i64. rewrite Z.mod_small; lia. Qed.

(** A bitwise or of disjoint ranges is a sum. *)
Lemma Z_land_shiftl_0 a b k : 0 ≤ k → 0 ≤ a < 2 ^ k → Z.land a (Z.shiftl b k) = 0.
Proof.
  intros Hk Ha. apply Z.bits_inj'. intros i Hi.
  rewrite Z.land_spec, Z.bits_0, Z.shiftl_spec by done.
  destruct (Z.lt_ge_cases i k).
  - rewrite (Z.testbit_neg_r b) by lia. apply andb_false_r.
  - rewrite <-(Z.mod_small a (2 ^ k)) by done. by rewrite Z.mod_pow2_bits_high.
Qed.

Lemma Z_lor_shiftl_add a b k : 0 ≤ k → 0 ≤ a < 2 ^ k → Z.lor a (Z.shiftl b k) = a + b * 2 ^ k.
Proof.
  intros Hk Ha. rewrite <-Z.shiftl_mul_pow2, <-Z.add_lor_land, Z_land_shiftl_0 by done. lia.
Qed.

(** Length of a list as a Go [int]. *)
Abbreviation zlen l := (Z.of_nat (length l)).

(** ** Time

    [time.Time] and [time.Duration] are nanoseconds. *)

Definition Millisecond : Z := 1000000.
Definition Second : Z := 1000 * Millisecond.
Definition Minute : Z := 60 * Second.
Definition Hour : Z := 60 * Minute.

(** ** Transition systems

    A component shared by several goroutines is a relation between states,
    one step per critical section or atomic operation. *)

Section Reach.
Context {St : Type} (init : St → Prop) (step : St → St → Prop).

Inductive reachable : St → Prop :=
| reach_init s : init s → reachable s
| reach_step s s' : reachable s → step s s' → reachable s'.

Lemma invariant_reachable (P : St → Prop) :
  (∀ s, init s → P s) →
  (∀ s s', reachable s → P s → step s s' → P s') →
  ∀ s, reachable s → P s.
Proof. intros Hi Hs s H. induction H; eauto. Qed.

Lemma reachable_rtc s s' : reachable s → rtc step s s' → reachable s'.
Proof. intros H Hr. induction Hr; eauto using reachable. Qed.

(** A step to a state that is only convertible to the one wanted. *)
Lemma reach_to s s1 s' : reachable s → step s s1 → s1 = s' → reachable s'.
Proof. intros H Hs <-. by eapply reach_step. Qed.
End Reach.

(** Extend [H : reachable init step s] by one step, proved by [tac] up to
    equations on the state. *)
Ltac reach_by H tac :=
  lazymatch type of H with
  | reachable ?init ?step ?s =>
      let H' := fresh in
      eassert (H' : step s _) by (tac; reflexivity);
      apply (reach_step init step _ _ H) in H'; cbn in H'; clear H; rename H' into H
  end.

(** ** Tactics and hints *)

Create HintDb yola.

(** Split every [if] and [match] of the goal on the scrutinee. *)
Ltac cases :=
  repeat (case_match; simplify_eq/=; try done).

(** Turn boolean tests of the context into propositions. *)
Ltac to_prop :=
  repeat match goal with
  | H : (_ && _) = true |- _ => apply andb_true_iff in H as [? ?]
  | H : (_ || _) = false |- _ => apply orb_false_iff in H as [? ?]
  | H : (_ || _) = true |- _ => apply orb_true_iff in H
  | H : (_ && _) = false |- _ => apply andb_false_iff in H
  | H : negb _ = true |- _ => apply negb_true_iff in H
  | H : negb _ = false |- _ => apply negb_false_iff in H
  | H : (_ =? _) = true |- _ => apply Z.eqb_eq in H
  | H : (_ =? _) = false |- _ => apply Z.eqb_neq in H
  | H : (_ <? _) = true |- _ => apply Z.ltb_lt in H
  | H : (_ <? _) = false |- _ => apply Z.ltb_ge in H
  | H : (_ <=? _) = true |- _ => apply Z.leb_le in H
  | H : (_ <=? _) = false |- _ => apply Z.leb_gt in H
  | H : bool_decide _ = true |- _ => apply bool_decide_eq_true in H
  | H : bool_decide _ = false |- _ => apply bool_decide_eq_false in H
  end.

#[export] Hint Resolve u32_range u64_range : yola.
#[export] Hint Constructors reachable : yola.

Lemma pair_snd {A B} (p : A * B) b : p.2 = b → p = (p.1, b).
Proof. by destruct p; intros <-. Qed.

(** ** Lists *)

Lemma prefix_app_l_intro {A} (l1 l2 l : list A) : l = l1 ++ l2 → l1 `prefix_of` l.
Proof. intros ->. by exists l2. Qed.

Lemma prefix_snoc {A} (l k : list A) x : l `prefix_of` k → l `prefix_of` k ++ [x].
Proof. intros [t ->]. exists (t ++ [x]). by rewrite app_assoc. Qed.

Lemma zlen_app {A} (l k : list A) : zlen (l ++ k) = zlen l + zlen k.
Proof. rewrite length_app. lia. Qed.

Lemma zlen_nonneg {A} (l : list A) : 0 ≤ zlen l.
Proof. lia. Qed.

#[export] Hint Resolve prefix_snoc zlen_nonneg : yola.

(** ** Sums over finite maps *)

Section MSum.
Context {K A : Type} `{Countable K} (f : A → Z).

Definition msum (m : gmap K A) : Z := map_fold (λ _ x acc, f x + acc) 0 m.

Lemma msum_empty : msum ∅ = 0.
Proof. done. Qed.

Lemma msum_insert_new k x m : m !! k = None → msum (<[k := x]> m) = f x + msum m.
Proof.
  intros Hk. unfold msum. rewrite map_fold_insert_L; [done| |done].
  intros. lia.
Qed.

Lemma msum_delete k x m : m !! k = Some x → msum (delete k m) = msum m - f x.
Proof.
  intros Hk. rewrite <-(insert_delete_id m k x) at 2 by done.
  rewrite msum_insert_new by apply lookup_delete_eq. lia.
Qed.

Lemma msum_insert k x y m : m !! k = Some x → msum (<[k := y]> m) = msum m - f x + f y.
Proof.
  intros Hk. rewrite <-insert_delete_eq, msum_insert_new by apply lookup_delete_eq.
  rewrite (msum_delete k x) by done. lia.
Qed.

Lemma msum_nonneg m : (∀ x, 0 ≤ f x) → 0 ≤ msum m.
Proof.
  intros Hf. induction m as [|j z m Hj IH] using map_ind; [done|].
  rewrite msum_insert_new by done. specialize (Hf z). lia.
Qed.

(** A positive sum has a positive term. *)
Lemma msum_pos_exists m : 0 < msum m → ∃ k x, m !! k = Some x ∧ 0 < f x.
Proof.
  induction m as [|j z m Hj IH] using map_ind; [done|]. rewrite msum_insert_new by done. intros Hs.
  destruct (Z.lt_ge_cases 0 (f z)).
  - exists j, z. by rewrite lookup_insert_eq.
  - destruct IH as (k & x & Hk & Hx); [lia|]. exists k, x. split; [|done].
    rewrite lookup_insert_ne; [done|]. intros ->. congruence.
Qed.

Lemma msum_lookup_le k x m : (∀ k x, m !! k = Some x → 0 ≤ f x) → m !! k = Some x → f x ≤ msum m.
Proof.
  revert k x. induction m as [|i y m Hi IH] using map_ind; intros k x Hpos Hk; [done|].
  rewrite msum_insert_new by done.
  assert (Hpos' : ∀ k x, m !! k = Some x → 0 ≤ f x).
  { intros j z Hj. apply (Hpos j). rewrite lookup_insert_ne; [done|]. intros ->. congruence. }
  assert (H0 : 0 ≤ msum m).
  { clear -Hpos' . induction m as [|j z m Hj IH] using map_ind; [done|]. rewrite msum_insert_new by done.
    assert (0 ≤ f z) by (apply (Hpos' j); by rewrite lookup_insert_eq).
    assert (0 ≤ msum m); [|lia]. apply IH. intros l w Hl. apply (Hpos' l).
    rewrite lookup_insert_ne; [done|]. intros ->. congruence. }
  destruct (decide (k = i)) as [->|Hne].
  - rewrite lookup_insert_eq in Hk. simplify_eq. lia.
  - rewrite lookup_insert_ne in Hk by done. specialize (IH k x Hpos' Hk).
    assert (0 ≤ f y) by (apply (Hpos i); by rewrite lookup_insert_eq). lia.
Qed.
End MSum.

Lemma msum_le {K A} `{Countable K} (f g : A → Z) (m : gmap K A) :
  (∀ x, f x ≤ g x) → msum f m ≤ msum g m.
Proof.
  intros Hf. induction m as [|j z m Hj IH] using map_ind; [done|].
  rewrite !msum_insert_new by done. specialize (Hf z). lia.
Qed.

(** Sums over lists. *)
Lemma msum_const {K A} `{Countable K} (f : A → Z) (m : gmap K A) (x : A) :
  (∀ k y, m !! k = Some y → y = x) → msum f m = f x * Z.of_nat (size m).
Proof.
  induction m as [|k y m Hk IH] using map_ind; intros Hall; [rewrite msum_empty, map_size_empty; lia|].
  rewrite msum_insert_new, map_size_insert_None by done.
  assert (y = x) as -> by (apply (Hall k); apply lookup_insert_eq).
  rewrite IH; [lia|]. intros k' z Hz. apply (Hall k'). rewrite lookup_insert_ne; [done|]. intros ->. congruence.
Qed.

(** A condition, counted. *)
Definition one (b : bool) : Z := if b then 1 else 0.

Lemma one_nonneg b : 0 ≤ one b.
Proof. by destruct b. Qed.

Definition lsum {A} (f : A → Z) (l : list A) : Z := foldr (λ x n, f x + n) 0 l.

Lemma lsum_app {A} (f : A → Z) l k : lsum f (l ++ k) = lsum f l + lsum f k.
Proof. induction l as [|x l IH]; simpl; [done|]. rewrite IH. lia. Qed.

Lemma lsum_nonneg {A} (f : A → Z) l : (∀ x, 0 ≤ f x) → 0 ≤ lsum f l.
Proof. intros Hf. induction l as [|x l IH]; simpl; [done|]. specialize (Hf x). lia. Qed.

Lemma lsum_perm {A} (f : A → Z) l k : l ≡ₚ k → lsum f l = lsum f k.
Proof. induction 1; simpl; lia. Qed.

Lemma msum_lsum {K A} `{Countable K} (f : A → Z) (m : gmap K A) : msum f m = lsum f (map_to_list m).*2.
Proof.
  induction m as [|k x m Hk IH] using map_ind; [done|]. rewrite msum_insert_new, IH by done.
  change (lsum f ((k, x) :: map_to_list m).*2 = lsum f (map_to_list (<[k := x]> m)).*2).
  apply lsum_perm. by rewrite map_to_list_insert.
Qed.

(** Occurrences of a number. *)
Definition eqz (e x : nat) : Z := one (bool_decide (x = e)).

Lemma eqz_nonneg e x : 0 ≤ eqz e x.
Proof. apply one_nonneg. Qed.

Lemma eqz_same e : eqz e e = 1.
Proof. unfold eqz. by rewrite bool_decide_true. Qed.

Lemma eqz_ne e x : x ≠ e → eqz e x = 0.
Proof. intros. unfold eqz. by rewrite bool_decide_false. Qed.

Lemma in_table_1 {K} `{Countable K} (m : gmap K nat) h e : m !! h = Some e → 1 ≤ msum (eqz e) m.
Proof.
  intros Hm. rewrite <- (eqz_same e). apply (msum_lookup_le _ h); [|done]. intros. apply eqz_nonneg.
Qed.
