(* ===== verification/Errors.v ===== *)
(** * Go errors and contexts

    Values of Go's [error] interface as trees: package-level sentinel
    variables (compared by identity), anonymous errors, gRPC statuses,
    [fmt.Errorf] with [%w] and [errors.Join].  Contexts as the timeline of
    their cancellation. *)

From S2P Require Import Prelude.

(** ** gRPC status codes *)

Inductive code :=
| OK | Canceled | Unknown | InvalidArgument | DeadlineExceeded | NotFound
| AlreadyExists | PermissionDenied | ResourceExhausted | FailedPrecondition
| Aborted | OutOfRange | Unimplemented | Internal | Unavailable | DataLoss
| Unauthenticated.

#[export] Instance code_eq_dec : EqDecision code.
Proof. solve_decision. Defined.

Definition code_Z (c : code) : Z :=
  match c with
  | OK => 0 | Canceled => 1 | Unknown => 2 | InvalidArgument => 3
  | DeadlineExceeded => 4 | NotFound => 5 | AlreadyExists => 6
  | PermissionDenied => 7 | ResourceExhausted => 8 | FailedPrecondition => 9
  | Aborted => 10 | OutOfRange => 11 | Unimplemented => 12 | Internal => 13
  | Unavailable => 14 | DataLoss => 15 | Unauthenticated => 16
  end.

(** ** Sentinels *)

Inductive sentinel :=
(* context *)
| CtxCanceled | CtxDeadlineExceeded
(* net, io *)
| NetErrClosed | IoEOF | BufioErrBufferFull | IoErrUnexpectedEOF
(* internal/queue *)
| QueueErrClosed | QueueErrFull | QueueErrNilCallback
(* network *)
| ErrConnectionClosed | ErrSendQueueFull | ErrFrameTooLarge
| ErrInvalidPreparedProto | ErrInvalidHandlerReply | ErrRequestQueueFull
(* network/tcp, network/websocket *)
| TcpErrFrameLength | TcpErrInvalidFrame | WsErrFrameLength | WsErrInvalidFrame
| ErrNilPayload | ErrInvalidHeartbeatState
| ErrAuthenticationRejected | ErrNotConnected | ErrInvalidURL
(* locate *)
| ErrGateNotFound | ErrGateConflict | ErrInvalidGateBinding | ErrInvalidGateTTL
| ErrInvalidGateLease | ErrNodeNotFound | ErrNodeConflict
| ErrInvalidNodeBinding | ErrNodeEpochNotFound | ErrNodeEpochConflict
| ErrInvalidNodeEpoch | ErrInvalidScriptResult
(* gateway *)
| ErrInvalidCredentials | ErrBroadcastUnavailable | ErrBroadcastQueueFull
| ErrInvalidPush | ErrInvalidKick | ErrConnectionMissing | ErrBindingChanged
| ErrConnectionBusy | ErrConnectionUnavailable | ErrBackendsClosed
(* internal/gateclient, internal/grpcendpoint *)
| ErrUnavailable | ErrInvalidEndpoint | ErrTransportSecurity | GrpcErrServerStopped
| GrpcErrNoSubConnAvailable
(* node *)
| ErrNodeStopped | ErrRegistrationLost | ErrNodeEpochExpired
(* push *)
| ErrSenderClosed
(* registry/etcd *)
| ErrInstanceExists
(* event *)
| EventErrClosed | EventErrInvalidContext | EventErrInvalidTopic
| EventErrInvalidHandler
(* internal/tlsconfig *)
| ErrVerificationDisabled | ErrCertificateRequired.

#[export] Instance sentinel_eq_dec : EqDecision sentinel.
Proof. solve_decision. Defined.

(** ** Error values *)

#[warnings="-register-all"]
Inductive error :=
| ESentinel (s : sentinel)
| EText (msg : string)                          (* errors.New, fmt.Errorf without %w *)
| EStatus (c : code) (msg : string)             (* status.Error *)
| ENet (timeout : bool) (msg : string)          (* a net.Error *)
| EKratos (status : Z) (reason msg : string) (cause : list error)  (* kratos errors *)
| EWrap (msg : string) (causes : list error)    (* fmt.Errorf with one or more %w *)
| EJoin (errs : list error).                    (* errors.Join *)

Coercion ESentinel : sentinel >-> error.

(** [errors.Is(err, target)] for a sentinel target. *)
Fixpoint errors_Is (e : error) (t : sentinel) : bool :=
  match e with
  | ESentinel s => bool_decide (s = t)
  | EText _ | EStatus _ _ | ENet _ _ => false
  | EWrap _ es | EJoin es | EKratos _ _ _ es => existsb (λ e, errors_Is e t) es
  end.

(** [errors.Is] of a possibly nil error. *)
Definition err_is (e : option error) (t : sentinel) : bool :=
  match e with Some e => errors_Is e t | None => false end.

Definition err_is_any (e : option error) (ts : list sentinel) : bool :=
  existsb (err_is e) ts.

(** [errors.Join]: nil operands are dropped; nil when none is left. *)
Fixpoint non_nil (es : list (option error)) : list error :=
  match es with
  | [] => []
  | Some e :: es => e :: non_nil es
  | None :: es => non_nil es
  end.

Definition errors_Join (es : list (option error)) : option error :=
  match non_nil es with
  | [] => None
  | l => Some (EJoin l)
  end.

(** [errors.As(err, &netErr) && netErr.Timeout()]: the first [net.Error] of
    the tree.  [context.DeadlineExceeded] implements [net.Error] with
    [Timeout() = true]. *)
Fixpoint as_net_timeout (e : error) : option bool :=
  match e with
  | ESentinel CtxDeadlineExceeded => Some true
  | ESentinel _ | EText _ | EStatus _ _ => None
  | ENet b _ => Some b
  | EWrap _ es | EJoin es | EKratos _ _ _ es =>
      (fix first (es : list error) : option bool :=
         match es with
         | [] => None
         | e :: es =>
             match as_net_timeout e with Some b => Some b | None => first es end
         end) es
  end.

Definition net_timeout (e : error) : bool :=
  match as_net_timeout e with Some b => b | None => false end.

(** [status.FromError]: the error is nil, or a status is found in its tree. *)
Fixpoint has_status (e : error) : bool :=
  match e with
  | EStatus _ _ | EKratos _ _ _ _ => true
  | ESentinel _ | EText _ | ENet _ _ => false
  | EWrap _ es | EJoin es => existsb has_status es
  end.

(** A value or an error: a Go result pair [(T, error)]. *)
Inductive result (A : Type) :=
| Ok (a : A)
| Err (e : error).
Arguments Ok {A} a.
Arguments Err {A} e.

Definition err_of {A} (r : result A) : option error :=
  match r with Ok _ => None | Err e => Some e end.

Definition bind {A B} (r : result A) (k : A → result B) : result B :=
  match r with Ok a => k a | Err e => Err e end.

Notation "'let*' x ':=' c 'in' k" := (bind c (λ x, k))
  (at level 10, x pattern, c at level 100, k at level 200) : yola_scope.

(** [if err != nil { return err }] *)
Definition guard_err {A} (e : option error) (k : result A) : result A :=
  match e with Some e => Err e | None => k end.

Lemma err_is_join es t : err_is (errors_Join es) t = existsb (λ e, err_is e t) es.
Proof.
  unfold errors_Join.
  assert (∀ l, existsb (λ e, errors_Is e t) (non_nil l) = existsb (λ e, err_is e t) l) as H.
  { induction l as [|[e|] l IH]; simpl; [done| by rewrite IH | done]. }
  rewrite <- H. by destruct (non_nil es).
Qed.

Lemma errors_Join_None es : errors_Join es = None ↔ Forall (λ e, e = None) es.
Proof.
  unfold errors_Join. induction es as [|[e|] es IH]; simpl.
  - split; [constructor | done].
  - split; [done|]. intros H. by inversion H.
  - rewrite IH. split; [by constructor | by inversion 1].
Qed.

(** ** Contexts

    A context is the timeline of its cancellation: the instant at which it
    is canceled, and its deadline.  [Err ctx now] is [ctx.Err()] read at
    [now]. *)

Module Ctx.
Record t := mk {
  canceled : option Z;
  deadline : option Z;
}.
#[export] Instance eta_t : Eta t := λ r, mk (canceled r) (deadline r).

Definition Background : t := mk None None.

Definition reached (o : option Z) (now : Z) : bool :=
  match o with Some d => d <=? now | None => false end.

(** The cancellation that comes first decides the error. *)
Definition Err (c : t) (now : Z) : option error :=
  match canceled c, deadline c with
  | Some k, Some d =>
      if k <? d
      then (if k <=? now then Some (ESentinel CtxCanceled) else None)
      else (if d <=? now then Some (ESentinel CtxDeadlineExceeded) else None)
  | Some k, None => if k <=? now then Some (ESentinel CtxCanceled) else None
  | None, Some d => if d <=? now then Some (ESentinel CtxDeadlineExceeded) else None
  | None, None => None
  end.

Definition min_opt (a : option Z) (b : Z) : option Z :=
  match a with Some a => Some (Z.min a b) | None => Some b end.

Definition WithDeadline (c : t) (d : Z) : t := c <| deadline := min_opt (deadline c) d |>.
Definition WithTimeout (c : t) (now d : Z) : t := WithDeadline c (now + d).
Definition WithoutCancel (c : t) : t := Background.
(** The context canceled at [at_], if it is not done earlier. *)
Definition WithCancelAt (c : t) (at_ : Z) : t := c <| canceled := min_opt (canceled c) at_ |>.

Definition done (c : t) (now : Z) : bool :=
  match Err c now with Some _ => true | None => false end.

Lemma Err_cases c now e :
  Err c now = Some e → e = ESentinel CtxCanceled ∨ e = ESentinel CtxDeadlineExceeded.
Proof. unfold Err. intros. cases; auto. Qed.

(** A done context stays done. *)
Lemma done_mono c now now' : now ≤ now' → done c now = true → done c now' = true.
Proof. unfold done, Err. intros. cases; to_prop; lia. Qed.

(** Deriving a context never postpones its end. *)
Lemma done_WithDeadline c d now : done c now = true → done (WithDeadline c d) now = true.
Proof.
  unfold done, Err, WithDeadline, min_opt. simpl. intros.
  destruct (canceled c), (deadline c); simpl in *; cases; to_prop; lia.
Qed.

Lemma done_at_deadline c d now : d ≤ now → done (WithDeadline c d) now = true.
Proof.
  unfold done, Err, WithDeadline, min_opt. simpl. intros.
  destruct (canceled c), (deadline c); simpl in *; cases; to_prop; lia.
Qed.
End Ctx.

(** ** internal/contextwait *)

(** [Done]: the channel wins over a context that is done too. *)
Definition Done (closed : bool) (ctxErr : option error) : option (option error) :=
  if closed then Some None
  else match ctxErr with Some e => Some (Some e) | None => None end.
