(* ===== verification/Proto.v ===== *)
(** * The external message envelope

    [api/protocol/v1]: the fields of [Proto], the operations and kick codes of
    [operation.go], and byte slices. *)

From S2P Require Import Prelude.
From Stdlib Require Strings.Byte.

Abbreviation byte := Byte.byte.
Abbreviation bytes := (list Byte.byte).

#[export] Instance byte_eq_dec : EqDecision byte := Byte.byte_eq_dec.

Definition byte_Z (b : byte) : Z := Z.of_N (Byte.to_N b).
Definition Z_byte (z : Z) : byte :=
  default Byte.x00 (Byte.of_N (Z.to_N (z mod 256))).

Lemma byte_Z_range b : 0 ≤ byte_Z b < 256.
Proof. unfold byte_Z. pose proof (Byte.to_N_bounded b). lia. Qed.

Lemma byte_Z_byte z : byte_Z (Z_byte z) = z mod 256.
Proof.
  unfold byte_Z, Z_byte. pose proof (Z.mod_pos_bound z 256 eq_refl).
  destruct (Byte.of_N (Z.to_N (z mod 256))) as [b|] eqn:E; simpl.
  - apply Byte.to_of_N in E. rewrite E. lia.
  - apply Byte.of_N_None_iff in E. lia.
Qed.

Lemma Z_byte_byte b : Z_byte (byte_Z b) = b.
Proof.
  unfold byte_Z, Z_byte. rewrite Z.mod_small, N2Z.id, Byte.of_to_N; [done|].
  pose proof (Byte.to_N_bounded b). lia.
Qed.

(** ** operation.go *)

Definition MaxProtoSize : Z := Z.shiftl 1 12.

Definition KickCodeSessionReplaced : Z := 1.
Definition KickCodeServerShutdown : Z := 2.

Definition OpUnspecified : Z := 0.
Definition OpAuth : Z := 1.
Definition OpAuthReply : Z := 2.
Definition OpHeartbeat : Z := 3.
Definition OpHeartbeatReply : Z := 4.
Definition OpRequest : Z := 5.
Definition OpResponse : Z := 6.
Definition OpPush : Z := 7.
Definition OpKick : Z := 8.

(** ** Messages *)

Record Proto := mkProto { Op : Z; Seq : Z; Code : Z; Cmd : Z; Body : bytes }.
#[export] Instance eta_Proto : Eta Proto := λ p,
  mkProto (Op p) (Seq p) (Code p) (Cmd p) (Body p).

#[export] Instance Proto_eq_dec : EqDecision Proto.
Proof. solve_decision. Defined.

(** The zero value [&v1.Proto{}]. *)
Definition Proto_zero : Proto := mkProto 0 0 0 0 [].
