(* ===== verification/Bufio.v ===== *)
(** * Go's bufio and encoding/binary

    The buffered reader and writer the TCP transport uses, over a connection
    that delivers its bytes in arbitrary pieces, and little-endian integers.
    Every loop runs on fuel that the lemmas show sufficient. *)

From S2P Require Import Prelude Errors Proto.

(** ** encoding/binary *)

Definition le32 (n : Z) : bytes :=
  Z_byte <$> [n; Z.shiftr n 8; Z.shiftr n 16; Z.shiftr n 24].

(** [binary.LittleEndian.Uint32] on a slice of at least four bytes. *)
Definition Uint32 (b : bytes) : Z :=
  match b with
  | b0 :: b1 :: b2 :: b3 :: _ =>
      Z.lor (byte_Z b0) (Z.lor (Z.shiftl (byte_Z b1) 8)
        (Z.lor (Z.shiftl (byte_Z b2) 16) (Z.shiftl (byte_Z b3) 24)))
  | _ => 0
  end.

Lemma length_le32 n : length (le32 n) = 4%nat.
Proof. done. Qed.

Lemma Z_lor_bytes a b c d :
  0 ≤ a < 256 → 0 ≤ b < 256 → 0 ≤ c < 256 → 0 ≤ d < 256 →
  Z.lor a (Z.lor (Z.shiftl b 8) (Z.lor (Z.shiftl c 16) (Z.shiftl d 24))) =
  a + 256 * (b + 256 * (c + 256 * d)).
Proof.
  intros. change 24 with (8 + (8 + 8)). change 16 with (8 + 8).
  rewrite <-!Z.shiftl_shiftl, <-!Z.shiftl_lor by done.
  rewrite !Z_lor_shiftl_add by (change (2 ^ 8) with 256; lia). lia.
Qed.

Lemma Uint32_le32 n rest : 0 ≤ n < 2 ^ 32 → Uint32 (le32 n ++ rest) = n.
Proof.
  intros Hn. unfold le32; simpl. rewrite !byte_Z_byte, !Z.shiftr_div_pow2 by done.
  rewrite Z_lor_bytes by (apply Z.mod_pos_bound; done).
  change (2 ^ 8) with 256. change (2 ^ 16) with 65536. change (2 ^ 24) with 16777216.
  Z.to_euclidean_division_equations. lia.
Qed.

(** ** Readers *)

(** The connection under a reader: the pieces its next reads deliver (an
    empty piece is a read of no bytes), then an error for ever. *)
Record Reader := mkReader {
  r_size : nat;                 (* length of the buffer *)
  r_buf : bytes;                (* bytes buffered and not consumed *)
  r_src : list bytes;
  r_fin : error;
  r_err : option error;
}.
#[export] Instance eta_Reader : Eta Reader := λ r,
  mkReader (r_size r) (r_buf r) (r_src r) (r_fin r) (r_err r).

Definition NewReaderSize (src : list bytes) (fin : error) (size : nat) : Reader :=
  mkReader size [] src fin None.

(** Everything the reader will ever deliver. *)
Definition remaining (r : Reader) : bytes := r_buf r ++ concat (r_src r).

(** [fill]: reads once, trying again after an empty read; [i] counts down
    from [maxConsecutiveEmptyReads]. *)
Fixpoint fill_loop (i : nat) (r : Reader) : Reader :=
  match i with
  | O => r <| r_err := Some (EText "multiple Read calls return no data or error") |>
  | S i =>
      match r_src r with
      | [] => r <| r_err := Some (r_fin r) |>
      | piece :: rest =>
          let n := (r_size r - length (r_buf r))%nat in
          let r' := r <| r_buf := r_buf r ++ take n piece |>
                      <| r_src := if decide (drop n piece = []) then rest else drop n piece :: rest |> in
          if decide (take n piece = []) then fill_loop i r' else r'
      end
  end.
Definition fill : Reader → Reader := fill_loop 100.

(** The loop of [Peek]; each pass adds a byte or sets the error. *)
Fixpoint Peek_loop (fuel n : nat) (r : Reader) : Reader :=
  match fuel with
  | O => r
  | S fuel =>
      if decide (length (r_buf r) < n ∧ length (r_buf r) < r_size r ∧ r_err r = None)%nat
      then Peek_loop fuel n (fill r) else r
  end.

Definition Peek (n : nat) (r : Reader) : Reader * result bytes :=
  let r := Peek_loop (S n) n r in
  if decide (r_size r < n)%nat then (r, Err BufioErrBufferFull)
  else if decide (length (r_buf r) < n)%nat
  then (r <| r_err := None |>, Err (default (ESentinel BufioErrBufferFull) (r_err r)))
  else (r, Ok (take n (r_buf r))).

Fixpoint Discard_loop (fuel remain : nat) (r : Reader) : Reader * option error :=
  match fuel with
  | O => (r, None)
  | S fuel =>
      let r := if decide (r_buf r = []) then fill r else r in
      let skip := (length (r_buf r) `min` remain)%nat in
      let r := r <| r_buf := drop skip (r_buf r) |> in
      if decide (remain - skip = 0)%nat then (r, None)
      else match r_err r with
           | Some e => (r <| r_err := None |>, Some e)
           | None => Discard_loop fuel (remain - skip) r
           end
  end.
Definition Discard (n : nat) (r : Reader) : Reader * option error :=
  if decide (n = 0)%nat then (r, None) else Discard_loop (S n) n r.

(** A reader over a connection that never reads nothing without an error. *)
Record reader_ok (r : Reader) : Prop := mkReaderOk {
  ok_buf : (length (r_buf r) ≤ r_size r)%nat;
  ok_src : Forall (λ piece, piece ≠ []) (r_src r);
}.

(** [r'] is [r] with more of the connection read into the buffer. *)
Record advanced (r r' : Reader) : Prop := mkAdvanced {
  adv_remaining : remaining r' = remaining r;
  adv_size : r_size r' = r_size r;
  adv_fin : r_fin r' = r_fin r;
  adv_ok : reader_ok r';
}.

Lemma advanced_refl r : reader_ok r → advanced r r.
Proof. by split. Qed.

Lemma advanced_trans r1 r2 r3 : advanced r1 r2 → advanced r2 r3 → advanced r1 r3.
Proof. intros [????] [????]. split; congruence || done. Qed.

Lemma fill_loop_end i r : r_src r = [] → fill_loop (S i) r = r <| r_err := Some (r_fin r) |>.
Proof. intros H. simpl. by rewrite H. Qed.

Lemma fill_loop_more i r :
  reader_ok r → (length (r_buf r) < r_size r)%nat → r_src r ≠ [] →
  advanced r (fill_loop (S i) r) ∧ r_err (fill_loop (S i) r) = r_err r ∧
  (length (r_buf r) < length (r_buf (fill_loop (S i) r)))%nat.
Proof.
  intros [Hb Hs] Hlt Hne. simpl.
  destruct (r_src r) as [|piece rest] eqn:E; [done|].
  apply Forall_cons in Hs as [Hp Hrest].
  set (n := (r_size r - length (r_buf r))%nat).
  assert (Hn : (0 < n)%nat) by (unfold n; lia).
  rewrite decide_False by (destruct piece, n; simpl; done || lia).
  split_and!; [split|done|]; simpl; try done.
  - unfold remaining; simpl. rewrite E. case_decide as Hd; simpl.
    + rewrite <-(take_drop n piece) at 2. rewrite Hd. by rewrite app_nil_r, <-app_assoc.
    + by rewrite <-app_assoc, (app_assoc (take n piece)), take_drop.
  - split; simpl.
    + rewrite length_app, length_take. unfold n. lia.
    + case_decide; [done|]. by constructor.
  - rewrite length_app, length_take. destruct piece; simpl in *; [done|lia].
Qed.

Lemma fill_end r : r_src r = [] → fill r = r <| r_err := Some (r_fin r) |>.
Proof. apply fill_loop_end. Qed.

Lemma fill_more r :
  reader_ok r → (length (r_buf r) < r_size r)%nat → r_src r ≠ [] →
  advanced r (fill r) ∧ r_err (fill r) = r_err r ∧ (length (r_buf r) < length (r_buf (fill r)))%nat.
Proof. apply fill_loop_more. Qed.

#[global] Opaque fill.

Lemma Peek_loop_spec fuel n r :
  reader_ok r → r_err r = None → (n ≤ r_size r)%nat → (n ≤ fuel + length (r_buf r))%nat →
  advanced r (Peek_loop fuel n r) ∧
  ((n ≤ length (r_buf (Peek_loop fuel n r)) ∧ r_err (Peek_loop fuel n r) = None)%nat ∨
   length (remaining r) < n ∧ (0 < fuel → r_err (Peek_loop fuel n r) = Some (r_fin r)))%nat.
Proof.
  revert r. induction fuel as [|fuel IH]; intros r Hr He Hn Hf; simpl.
  - split; [by apply advanced_refl|left; split; [lia|done]].
  - case_decide as Hd; [|split; [by apply advanced_refl|left; split; [|done]]].
    + destruct (decide (r_src r = [])) as [Hs|Hs].
      * assert (Hlt : (length (remaining r) < n)%nat).
        { unfold remaining. rewrite Hs. simpl. rewrite app_nil_r. lia. }
        rewrite fill_end by done.
        destruct fuel; simpl; rewrite ?decide_False by (by intros (_&_&?)); (split; [|right; done]).
        all: split; simpl; try done; split; apply Hr.
      * destruct (fill_more r Hr) as (Ha&He'&Hl); [lia|done|].
        destruct (IH (fill r)) as [IH1 IH2]; [apply Ha|congruence|rewrite (adv_size _ _ Ha); lia|lia|].
        rewrite (adv_remaining _ _ Ha), (adv_fin _ _ Ha) in IH2.
        split; [by eapply advanced_trans|].
        destruct IH2 as [?|[Hlt Hf']]; [by left|right]. split; [done|].
        intros _. apply Hf'. destruct fuel; [|lia]. simpl in *.
        rewrite <-(adv_remaining _ _ Ha) in Hlt. unfold remaining in Hlt. rewrite length_app in Hlt. lia.
    + destruct Hr as [Hb _]. destruct (decide (length (r_buf r) < n)%nat); [|lia].
      exfalso. apply Hd. split_and!; [done|lia|done].
Qed.

Lemma Peek_ok n r :
  reader_ok r → r_err r = None → (n ≤ r_size r)%nat → (n ≤ length (remaining r))%nat →
  ∃ r', Peek n r = (r', Ok (take n (remaining r))) ∧ advanced r r' ∧ r_err r' = None ∧
        (n ≤ length (r_buf r'))%nat.
Proof.
  intros Hr He Hn Hl. unfold Peek.
  destruct (Peek_loop_spec (S n) n r) as [Ha [[Hb He']|[? _]]]; try done; try lia.
  rewrite decide_False by (rewrite (adv_size _ _ Ha); lia).
  rewrite decide_False by lia. eexists. split_and!; eauto.
  rewrite <-(adv_remaining _ _ Ha). unfold remaining. by rewrite take_app_le.
Qed.

Lemma Peek_short n r :
  reader_ok r → r_err r = None → (n ≤ r_size r)%nat → (length (remaining r) < n)%nat →
  ∃ r', Peek n r = (r', Err (r_fin r)) ∧ advanced r r' ∧ r_err r' = None.
Proof.
  intros Hr He Hn Hl. unfold Peek.
  destruct (Peek_loop_spec (S n) n r) as [Ha [[Hb He']|[_ He']]]; try done; try lia.
  { exfalso. pose proof (adv_remaining _ _ Ha) as Er. unfold remaining in Er at 1.
    rewrite <-Er, length_app in Hl. lia. }
  specialize (He' (Nat.lt_0_succ _)).
  rewrite decide_False by (rewrite (adv_size _ _ Ha); lia).
  rewrite decide_True.
  - rewrite He'. simpl. eexists. split_and!; eauto. destruct Ha as [??? []]; split; simpl; try done.
  - pose proof (adv_remaining _ _ Ha) as Er. unfold remaining in Er at 1.
    rewrite <-Er, length_app in Hl. lia.
Qed.

Lemma Discard_ok n r :
  reader_ok r → r_err r = None → (n ≤ length (r_buf r))%nat →
  Discard n r = (r <| r_buf := drop n (r_buf r) |>, None).
Proof.
  intros Hr He Hn. unfold Discard. case_decide as Hd.
  - subst. rewrite drop_0. by destruct r.
  - simpl. rewrite (decide_False (P := r_buf r = [])) by (intros E; rewrite E in Hn; simpl in *; lia).
    rewrite Nat.min_r by done. rewrite decide_True by lia. done.
Qed.

(** ** Writers *)

(** The connection under a writer: what it has accepted, and how many more
    bytes it accepts before it fails, if it ever does. *)
Record Writer := mkWriter {
  w_size : nat;
  w_buf : bytes;
  w_out : bytes;
  w_room : option nat;
  w_fail : error;
  w_err : option error;
}.
#[export] Instance eta_Writer : Eta Writer := λ w,
  mkWriter (w_size w) (w_buf w) (w_out w) (w_room w) (w_fail w) (w_err w).

Definition NewWriterSize (room : option nat) (fail : error) (size : nat) : Writer :=
  mkWriter size [] [] room fail None.

(** [Write] of the connection: bytes accepted, and the error of a short write. *)
Definition conn_Write (p : bytes) (w : Writer) : Writer * nat * option error :=
  match w_room w with
  | None => (w <| w_out := w_out w ++ p |>, length p, None)
  | Some k =>
      if decide (length p ≤ k)%nat
      then (w <| w_out := w_out w ++ p |> <| w_room := Some (k - length p)%nat |>, length p, None)
      else (w <| w_out := w_out w ++ take k p |> <| w_room := Some 0%nat |>, k, Some (w_fail w))
  end.

Definition Available (w : Writer) : nat := (w_size w - length (w_buf w))%nat.

Definition Flush (w : Writer) : Writer * option error :=
  match w_err w with
  | Some e => (w, Some e)
  | None =>
      if decide (w_buf w = []) then (w, None)
      else match conn_Write (w_buf w) w with
           | (w', _, None) => (w' <| w_buf := [] |>, None)
           | (w', n, Some e) => (w' <| w_buf := drop n (w_buf w) |> <| w_err := Some e |>, Some e)
           end
  end.

Fixpoint Write_loop (fuel : nat) (p : bytes) (w : Writer) : Writer * bytes :=
  match fuel with
  | O => (w, p)
  | S fuel =>
      if decide (Available w < length p ∧ w_err w = None)%nat
      then if decide (w_buf w = [])
           then match conn_Write p w with
                | (w', n, e) => Write_loop fuel (drop n p) (w' <| w_err := e |>)
                end
           else let n := Available w in
                Write_loop fuel (drop n p) (Flush (w <| w_buf := w_buf w ++ take n p |>)).1
      else (w, p)
  end.

(** Two passes empty the buffer and write the rest; the third ends the loop. *)
Definition Write (p : bytes) (w : Writer) : Writer * option error :=
  match Write_loop 3 p w with
  | (w', rest) =>
      match w_err w' with
      | Some e => (w', Some e)
      | None => (w' <| w_buf := w_buf w' ++ rest |>, None)
      end
  end.

(** A writer over a connection that does not fail. *)
Record writer_ok (w : Writer) : Prop := mkWriterOk {
  wok_room : w_room w = None;
  wok_err : w_err w = None;
  wok_buf : (length (w_buf w) ≤ w_size w)%nat;
}.

(** What the peer will have received once the buffer is flushed. *)
Definition written (w : Writer) : bytes := w_out w ++ w_buf w.

Lemma Flush_ok w :
  writer_ok w →
  ∃ w', Flush w = (w', None) ∧ writer_ok w' ∧ written w' = written w ∧ w_buf w' = [] ∧
        w_size w' = w_size w.
Proof.
  intros [Hr He Hb]. unfold Flush, conn_Write. rewrite He. case_decide as Hd.
  - exists w. by repeat split.
  - rewrite Hr. eexists. split_and!; [done| |..]; simpl; try done.
    + split; simpl; try done; lia.
    + unfold written; simpl. by rewrite app_nil_r.
Qed.

(** [w'] has taken [p] after what [w] had. *)
Record took (w : Writer) (p : bytes) (w' : Writer) : Prop := mkTook {
  took_ok : writer_ok w';
  took_written : written w' = written w ++ p;
  took_size : w_size w' = w_size w;
}.

Lemma conn_Write_ok p w :
  writer_ok w → w_buf w = [] →
  ∃ w', conn_Write p w = (w', length p, None) ∧ took w p w' ∧ w_buf w' = [] ∧ w_err w' = None.
Proof.
  intros [Hr He Hb] Hn. unfold conn_Write. rewrite Hr. eexists. split_and!; try done.
  split; [by split| |done]. unfold written; simpl. rewrite Hn. by rewrite !app_nil_r.
Qed.

Lemma Write_loop_fits i p w :
  writer_ok w → (length p ≤ Available w)%nat → Write_loop i p w = (w, p).
Proof. intros Hw Hp. destruct i; simpl; [done|]. rewrite decide_False; [done|lia]. Qed.

Lemma copy_ok p w :
  writer_ok w → (length p ≤ Available w)%nat → took w p (w <| w_buf := w_buf w ++ p |>).
Proof.
  intros [Hr He Hb] Hp. unfold Available in Hp. split; simpl; [split; simpl|..]; try done.
  - rewrite length_app. lia.
  - unfold written; simpl. by rewrite app_assoc.
Qed.

(** Writing to an empty buffer goes straight to the connection when it does
    not fit. *)
Lemma Write_loop_empty i p w :
  writer_ok w → w_buf w = [] →
  ∃ w' rest, Write_loop (S i) p w = (w', rest) ∧ writer_ok w' ∧
    (length rest ≤ Available w')%nat ∧ written w' ++ rest = written w ++ p ∧ w_size w' = w_size w.
Proof.
  intros Hw Hn. simpl. pose proof (wok_err _ Hw) as He. case_decide as Hd.
  - rewrite decide_True by done.
    destruct (conn_Write_ok p w Hw Hn) as (w'&->&[Hok Hwr Hs]&Hn'&He'). rewrite drop_all.
    assert (E : mkWriter (w_size w') (w_buf w') (w_out w') (w_room w') (w_fail w') None = w').
    { destruct w'; simpl in *; congruence. }
    rewrite E, Write_loop_fits by (done || (simpl; lia)).
    exists w', []. rewrite app_nil_r. split_and!; simpl; auto. lia.
  - exists w, p. split_and!; auto. destruct (decide (Available w < length p)%nat); [|lia].
    exfalso. auto.
Qed.

Lemma Write_ok p w :
  writer_ok w → ∃ w', Write p w = (w', None) ∧ took w p w'.
Proof.
  intros Hw. unfold Write. pose proof (wok_buf _ Hw).
  assert (∃ w' rest, Write_loop 3 p w = (w', rest) ∧ writer_ok w' ∧
    (length rest ≤ Available w')%nat ∧ written w' ++ rest = written w ++ p ∧ w_size w' = w_size w)
    as (w'&rest&->&Hok&Hfit&Hwr&Hs).
  { destruct (decide (length p ≤ Available w)%nat) as [Hp|Hp].
    { exists w, p. rewrite Write_loop_fits by done. auto. }
    destruct (decide (w_buf w = [])) as [Hn|Hn]; [by apply Write_loop_empty|].
    remember 2%nat as i eqn:Ei. simpl.
    rewrite decide_True, decide_False by (done || (split; [lia|apply Hw])).
    pose (w0 := w <| w_buf := w_buf w ++ take (Available w) p |>).
    lazymatch goal with |- context [Flush ?x] => change x with w0 end.
    destruct (copy_ok (take (Available w) p) w Hw) as [Hok Hwr Hs]; [rewrite length_take; lia|].
    destruct (Flush_ok w0 Hok) as (w1&->&Hw1&Hwr1&Hn1&Hs1); simpl; subst i.
    destruct (Write_loop_empty 1 (drop (Available w) p) w1 Hw1 Hn1) as (w2&rest&->&?&?&E&?).
    exists w2, rest. split_and!; try done; [|simpl in *; congruence].
    rewrite E, Hwr1. change (written w0) with (written (w <| w_buf := w_buf w ++ take (Available w) p |>)).
    by rewrite Hwr, <-app_assoc, take_drop. }
  rewrite (wok_err _ Hok). destruct (copy_ok rest w' Hok Hfit) as [? E ?].
  eexists. split; [done|]. split; [done| |simpl in *; congruence]. by rewrite E.
Qed.
