(* ===== verification/Queue.v ===== *)
(** * internal/queue: the bounded callback queue

    [Queue] keeps callbacks for one worker ([Run]).  Every method body is a
    critical section of [q.mu], so a method is a function on the record; the
    worker and its callers interleave in the relation [step].  A callback is
    an element of an arbitrary type; a nil callback is [None]. *)

From S2P Require Import Prelude Errors.

Section Queue.
Context {cb : Type}.

(** A queued function: a caller's callback, or the gate [func() { <-ready }]
    that [BeginTermination] puts in front of the terminal callbacks. *)
Inductive job :=
| Task (c : cb)
| Gate.

Record Queue := mkQueue {
  capacity : Z;
  wake : bool;          (* a token is buffered in the wake channel *)
  wake_closed : bool;   (* close(q.wake) has happened *)
  tasks : list cb;
  terminals : list job;
  closed : bool;
}.
#[export] Instance eta_Queue : Eta Queue := λ q,
  mkQueue (capacity q) (wake q) (wake_closed q) (tasks q) (terminals q) (closed q).

(** [New]; [None] is the panic of a capacity that is not positive. *)
Definition New (cap : Z) : option Queue :=
  if cap <=? 0 then None else Some (mkQueue cap false false [] [] false).

Fixpoint hasNilCallback (callbacks : list (option cb)) : bool :=
  match callbacks with
  | [] => false
  | None :: _ => true
  | Some _ :: rest => hasNilCallback rest
  end.

Fixpoint present (callbacks : list (option cb)) : list cb :=
  match callbacks with
  | [] => []
  | None :: rest => present rest
  | Some c :: rest => c :: present rest
  end.

Definition SubmitBatch (callbacks : list (option cb)) (q : Queue) : Queue * option error :=
  if hasNilCallback callbacks then (q, Some (QueueErrNilCallback : error))
  else if closed q then (q, Some (QueueErrClosed : error))
  else if capacity q - zlen (tasks q) <? zlen callbacks then (q, Some (QueueErrFull : error))
  else
    let q := q <| tasks := tasks q ++ present callbacks |> in
    if 0 <? zlen callbacks then (q <| wake := true |>, None) else (q, None).

Definition Submit (fn : option cb) (q : Queue) : Queue * option error :=
  SubmitBatch [fn] q.

Definition closeWithTerminals (ts : list job) (q : Queue) : Queue * bool :=
  if closed q then (q, false)
  else (q <| closed := true |> <| tasks := [] |> <| terminals := ts |>
          <| wake_closed := true |>, true).

Definition Stop (q : Queue) : Queue := (closeWithTerminals [] q).1.

(** The function [BeginTermination] returns: nil, a direct call of the
    terminals by the caller, or [close(ready)]. *)
Inductive release :=
| NoRelease
| InvokeDirectly (ts : list cb)
| OpenGate.

Definition BeginTermination (ts : list (option cb)) (q : Queue) : Queue * release :=
  if (zlen ts =? 0) || hasNilCallback ts then (Stop q, NoRelease)
  else
    let gated := Gate :: (Task <$> present ts) in
    match closeWithTerminals gated q with
    | (q, false) => (q, InvokeDirectly (present ts))
    | (q, true) => (q, OpenGate)
    end.

(** [next]: the callback to run, the terminals, and whether the queue is closed. *)
Definition next (q : Queue) : Queue * (option cb * list job * bool) :=
  if closed q then (q <| terminals := [] |>, (None, terminals q, true))
  else match tasks q with
       | [] => (q, (None, [], false))
       | c :: rest => (q <| tasks := rest |>, (Some c, [], false))
       end.

(** ** The worker and its callers *)

(** Where [Run] stands: at the loop head, inside a callback, inside
    [invokeAll(terminals)], at [<-q.wake], or returned. *)
Inductive worker :=
| WNext
| WInvoke (c : cb)
| WTerm (rest : list job)
| WWait
| WExit.

Record sys := mkSys {
  queue : Queue;
  run : worker;
  ready : bool;          (* close(ready) has happened *)
  releasable : bool;     (* a caller holds the function that closes ready *)
  accepted : list cb;    (* callbacks of successful submissions, in order *)
  started : list cb;     (* callbacks the worker has begun, in order *)
  plan : list cb;        (* terminal callbacks fixed when the queue closed *)
  finals : list cb;      (* terminal callbacks the worker has begun *)
}.
#[export] Instance eta_sys : Eta sys := λ s,
  mkSys (queue s) (run s) (ready s) (releasable s) (accepted s) (started s)
        (plan s) (finals s).

Definition init_sys (s : sys) : Prop :=
  ∃ cap q, New cap = Some q ∧ s = mkSys q WNext false false [] [] [] [].

(** One iteration of the loop of [Run], up to the next blocking point. *)
Definition run_next (s : sys) : sys :=
  match next (queue s) with
  | (q, (Some c, _, _)) =>
      s <| queue := q |> <| run := WInvoke c |> <| started := started s ++ [c] |>
  | (q, (None, ts, true)) => s <| queue := q |> <| run := WTerm ts |>
  | (q, (None, _, false)) => s <| queue := q |> <| run := WWait |>
  end.

Inductive worker_step : sys → sys → Prop :=
| step_next s : run s = WNext → worker_step s (run_next s)
| step_return s c : run s = WInvoke c → worker_step s (s <| run := WNext |>)
| step_token s :
    run s = WWait → wake (queue s) = true →
    worker_step s (s <| queue := (queue s) <| wake := false |> |> <| run := WNext |>)
| step_wake_closed s :
    run s = WWait → wake_closed (queue s) = true → worker_step s (s <| run := WNext |>)
| step_gate s rest :
    run s = WTerm (Gate :: rest) → ready s = true → worker_step s (s <| run := WTerm rest |>)
| step_terminal s c rest :
    run s = WTerm (Task c :: rest) →
    worker_step s (s <| run := WTerm rest |> <| finals := finals s ++ [c] |>)
| step_exit s : run s = WTerm [] → worker_step s (s <| run := WExit |>).

Inductive caller_step : sys → sys → Prop :=
| step_submit s cs q err :
    SubmitBatch cs (queue s) = (q, err) →
    caller_step s (s <| queue := q |>
                     <| accepted := accepted s ++ (if err is None then present cs else []) |>)
| step_stop s : caller_step s (s <| queue := Stop (queue s) |>)
| step_begin s ts q :
    BeginTermination ts (queue s) = (q, OpenGate) →
    caller_step s (s <| queue := q |> <| releasable := true |> <| plan := present ts |>)
| step_begin_late s ts q r :
    BeginTermination ts (queue s) = (q, r) → r ≠ OpenGate →
    caller_step s (s <| queue := q |>)
| step_release s :
    releasable s = true → caller_step s (s <| ready := true |>).

Definition step (s s' : sys) : Prop := worker_step s s' ∨ caller_step s s'.

Definition reach : sys → Prop := reachable init_sys step.

(** ** Lemmas *)

Lemma hasNil_false_length callbacks :
  hasNilCallback callbacks = false → length (present callbacks) = length callbacks.
Proof. induction callbacks as [|[c|] l IH]; simpl; auto. done. Qed.

Lemma SubmitBatch_cases cs q q' err :
  SubmitBatch cs q = (q', err) →
  (is_Some err ∧ q' = q) ∨
  (err = None ∧ closed q = false ∧ closed q' = false ∧
   tasks q' = tasks q ++ present cs ∧ zlen (tasks q') ≤ capacity q ∧
   capacity q' = capacity q ∧ wake_closed q' = wake_closed q ∧
   terminals q' = terminals q ∧
   (wake q' = true ∨ (present cs = [] ∧ wake q' = wake q))).
Proof.
  unfold SubmitBatch. intros H.
  destruct (hasNilCallback cs) eqn:Hn; [simplify_eq; eauto|].
  destruct (closed q) eqn:Hc; [simplify_eq; eauto|].
  destruct (capacity q - zlen (tasks q) <? zlen cs) eqn:Hf; [simplify_eq; eauto|].
  apply hasNil_false_length in Hn. to_prop.
  right. destruct (0 <? zlen cs) eqn:Hz; simplify_eq; simpl; to_prop;
    rewrite ?Hc, ?length_app; (repeat split); try lia; auto.
  right. split; [|done]. destruct (present cs); simpl in *; [done|lia].
Qed.

Lemma close_cases ts q q' b :
  closeWithTerminals ts q = (q', b) →
  (b = false ∧ closed q = true ∧ q' = q) ∨
  (b = true ∧ closed q = false ∧ closed q' = true ∧ tasks q' = [] ∧ terminals q' = ts ∧
   capacity q' = capacity q ∧ wake_closed q' = true).
Proof.
  unfold closeWithTerminals. destruct (closed q) eqn:Hc; intros; simplify_eq; simpl; auto 10.
Qed.

(** What holds of the queue alone. *)
Definition queue_ok (q : Queue) : Prop :=
  0 < capacity q ∧ zlen (tasks q) ≤ capacity q ∧ wake_closed q = closed q ∧
  (closed q = true → tasks q = []) ∧ (closed q = false → terminals q = []).

Lemma queue_ok_submit cs q q' err :
  SubmitBatch cs q = (q', err) → queue_ok q → queue_ok q'.
Proof.
  intros H (?&?&?&?&?).
  destruct (SubmitBatch_cases _ _ _ _ H) as [[_ ->]|(?&?&?&?&?&?&?&?&?)];
    unfold queue_ok; intuition congruence.
Qed.

Lemma queue_ok_close ts q q' b :
  closeWithTerminals ts q = (q', b) → queue_ok q → queue_ok q'.
Proof.
  intros H (?&?&?&?&?).
  destruct (close_cases _ _ _ _ H) as [(_&_&->)|(?&?&Hc&Ht&?&?&?)]; unfold queue_ok; [auto|].
  rewrite Hc, Ht. simpl. repeat split; try congruence; lia.
Qed.

Lemma queue_ok_begin ts q q' r :
  BeginTermination ts q = (q', r) → queue_ok q → queue_ok q'.
Proof.
  unfold BeginTermination, Stop. intros H Hq.
  destruct ((zlen ts =? 0) || hasNilCallback ts).
  - destruct (closeWithTerminals [] q) eqn:E; simplify_eq. eauto using queue_ok_close.
  - destruct (closeWithTerminals _ q) as [? []] eqn:E; simplify_eq; eauto using queue_ok_close.
Qed.

Lemma queue_ok_next q : queue_ok q → queue_ok (next q).1.
Proof.
  unfold queue_ok, next. intros (?&Hl&?&?&?).
  destruct (closed q) eqn:Hc; simpl; [rewrite ?Hc; intuition congruence|].
  destruct (tasks q) eqn:Ht; simpl in *; rewrite ?Hc, ?Ht; intuition (try congruence; lia).
Qed.

Definition final_tasks (js : list job) : list cb :=
  omap (λ j, match j with Task c => Some c | Gate => None end) js.

Lemma final_tasks_map cs : final_tasks (Task <$> cs) = cs.
Proof. induction cs; simpl; [done|]. by f_equal. Qed.

(** The shape of a terminal list that still waits for its gate. *)
Definition gated (js : list job) (p : list cb) : Prop :=
  (js = Gate :: (Task <$> p) ∧ p ≠ []) ∨ (js = [] ∧ p = []).

(** The worker's position and the callbacks it has begun agree. *)
Definition worker_ok (s : sys) : Prop :=
  match run s with
  | WNext | WInvoke _ | WWait =>
      finals s = [] ∧
      if closed (queue s) then gated (terminals (queue s)) (plan s) else plan s = []
  | WTerm rest =>
      closed (queue s) = true ∧
      ((finals s = [] ∧ gated rest (plan s)) ∨
       (ready s = true ∧ ∃ cs, rest = Task <$> cs ∧ finals s ++ cs = plan s))
  | WExit => closed (queue s) = true ∧ finals s = plan s ∧ (finals s = [] ∨ ready s = true)
  end.

(** The callbacks begun are a prefix of the callbacks accepted; the rest of
    the accepted ones wait in [tasks] until the queue closes. *)
Definition fifo_ok (s : sys) : Prop :=
  if closed (queue s) then started s `prefix_of` accepted s
  else accepted s = started s ++ tasks (queue s).

(** No lost wake-up: a worker blocked on the wake channel finds a token or a
    closed channel as soon as there is something to do. *)
Definition wake_ok (s : sys) : Prop :=
  run s = WWait → tasks (queue s) ≠ [] → wake (queue s) = true.

Definition inv (s : sys) : Prop :=
  queue_ok (queue s) ∧ worker_ok s ∧ fifo_ok s ∧ wake_ok s.

Lemma inv_init s : init_sys s → inv s.
Proof.
  intros (cap&q&Hn&->). unfold New in Hn. destruct (cap <=? 0) eqn:Hc; simplify_eq.
  to_prop. repeat split; simpl; try done; lia.
Qed.

Lemma inv_submit s cs q err :
  SubmitBatch cs (queue s) = (q, err) → inv s →
  inv (s <| queue := q |>
         <| accepted := accepted s ++ (if err is None then present cs else []) |>).
Proof.
  intros H (Hq&Hw&Hf&Hk). pose proof (queue_ok_submit _ _ _ _ H Hq) as Hq'.
  destruct (SubmitBatch_cases _ _ _ _ H)
    as [[[e ->] ->]|(->&Hc&Hc'&Ht&_&_&_&Hterm&Hwake)].
  { rewrite app_nil_r. repeat split; auto; apply Hq. }
  split; [done|]. unfold worker_ok, fifo_ok, wake_ok in *; simpl in *.
  rewrite ?Hc', ?Hterm, ?Ht. rewrite Hc in *. split_and!.
  - by destruct (run s).
  - by rewrite Hf, app_assoc.
  - intros HW Hne. destruct Hwake as [?|[Hp Hwk]]; [done|].
    rewrite Hp, app_nil_r in Hne. rewrite Hwk. auto.
Qed.

(** Closing keeps the invariant, with the terminals as the plan. *)
Lemma inv_close s js p r q :
  closeWithTerminals js (queue s) = (q, true) → gated js p → inv s →
  inv (s <| queue := q |> <| releasable := r |> <| plan := p |>).
Proof.
  intros H Hg (Hq&Hw&Hf&Hk). pose proof (queue_ok_close _ _ _ _ H Hq) as Hq'.
  destruct (close_cases _ _ _ _ H) as [(?&_)|(_&Hc&Hc'&Ht&Hj&_&_)]; [done|].
  split; [done|]. unfold worker_ok, fifo_ok, wake_ok in *; simpl in *.
  rewrite Hc in *. rewrite Hc', Ht, Hj. split_and!.
  - destruct (run s); intuition congruence.
  - rewrite Hf. by apply prefix_app_r.
  - done.
Qed.

Lemma inv_stop s : inv s → inv (s <| queue := Stop (queue s) |>).
Proof.
  intros Hi. unfold Stop. destruct (closeWithTerminals [] (queue s)) as [q b] eqn:H. simpl.
  destruct (close_cases _ _ _ _ H) as [(->&?&->)|(->&Hc&_)].
  - destruct s; apply Hi.
  - pose proof (inv_close s [] [] (releasable s) q H (or_intror (conj eq_refl eq_refl)) Hi) as Hj.
    assert (plan s = []) as Hp.
    { destruct Hi as (_&Hw&_). unfold worker_ok in Hw. rewrite Hc in Hw.
      destruct (run s); intuition congruence. }
    destruct s; simpl in *. by subst.
Qed.

Lemma BeginTermination_OpenGate ts q q' :
  BeginTermination ts q = (q', OpenGate) →
  closeWithTerminals (Gate :: (Task <$> present ts)) q = (q', true).
Proof. unfold BeginTermination. intros. cases. Qed.

Lemma BeginTermination_some ts q q' : BeginTermination ts q = (q', OpenGate) → present ts ≠ [].
Proof.
  unfold BeginTermination. destruct (hasNilCallback ts) eqn:Hn; [by rewrite orb_true_r|].
  pose proof (hasNil_false_length _ Hn) as Hl. destruct ts; [done|]. by destruct (present _).
Qed.

Lemma BeginTermination_other ts q q' r :
  BeginTermination ts q = (q', r) → r ≠ OpenGate → q' = q ∨ q' = Stop q.
Proof.
  unfold BeginTermination. intros. cases; auto.
  match goal with H : closeWithTerminals _ _ = (_, false) |- _ =>
    apply close_cases in H as [(_&_&->)|(?&_)] end; auto. done.
Qed.

Lemma inv_caller s s' : caller_step s s' → inv s → inv s'.
Proof.
  destruct 1 as [s cs q err H|s|s ts q H|s ts q r H Hr|s H]; intros Hi.
  - by apply inv_submit.
  - by apply inv_stop.
  - pose proof (BeginTermination_some _ _ _ H). apply BeginTermination_OpenGate in H. eapply inv_close; eauto. by left.
  - destruct (BeginTermination_other _ _ _ _ H Hr) as [->| ->].
    + by destruct s.
    + by apply inv_stop.
  - destruct Hi as (?&Hw&?&?). split_and!; try done.
    unfold worker_ok in *; simpl. destruct (run s); try done.
    + destruct Hw as (?&[?|(_&?)]); auto.
    + destruct Hw as (?&?&_). auto.
Qed.

Lemma inv_next s : run s = WNext → inv s → inv (run_next s).
Proof.
  intros HW (Hq&Hw&Hf&Hk). pose proof (queue_ok_next _ Hq) as Hq'.
  unfold run_next, next, worker_ok, fifo_ok in *. rewrite HW in Hw. destruct Hw as [Hfin Hplan].
  destruct (closed (queue s)) eqn:Hc; simpl in *.
  { split; [done|]. unfold worker_ok, fifo_ok, wake_ok; simpl. rewrite Hc. split_and!; auto. done. }
  destruct (tasks (queue s)) as [|c rest] eqn:Ht; simpl in *; (split; [done|]);
    unfold worker_ok, fifo_ok, wake_ok; simpl; rewrite Hc, ?Ht, Hf; split_and!; auto; try done.
  by rewrite <- app_assoc.
Qed.

Lemma inv_worker s s' : worker_step s s' → inv s → inv s'.
Proof.
  destruct 1 as [s H|s c H|s H Ht|s H Hcl|s rest H Hr|s c rest H|s H];
    intros Hi; [by apply inv_next|..]; destruct Hi as (Hq&Hw&Hf&Hk);
    unfold inv, worker_ok, fifo_ok, wake_ok in *; rewrite H in Hw; simpl in *;
    (split; [done|]); (split; [|split; done]); try exact Hw.
  - destruct Hw as (?&[(Hfin&[[Hg ?]|[Hg ?]])|(?&cs&Hg&?)]); simplify_eq/=.
    + split; [done|]. right. split; [done|]. exists (plan s). by rewrite Hfin.
    + by destruct cs.
  - destruct Hw as (?&[(?&[[Hg ?]|[Hg ?]])|(?&[|c' cs]&Hg&Hp)]); simplify_eq/=.
    split; [done|]. right. split; [done|]. exists cs. by rewrite <- app_assoc.
  - destruct Hw as (?&[(?&[[Hg ?]|[Hg ?]])|(?&[|c' cs]&Hg&Hp)]); simplify_eq/=.
    + split_and!; [done|congruence|auto].
    + rewrite app_nil_r in Hp. auto.
Qed.

Lemma inv_reach s : reach s → inv s.
Proof.
  apply invariant_reachable; [apply inv_init|].
  intros s0 s1 _ Hi [H|H]; eauto using inv_worker, inv_caller.
Qed.

(** A closed queue whose gate is open, or that has no terminals, lets its
    worker return. *)
Lemma worker_terms s cs :
  run s = WTerm (Task <$> cs) → ∃ s', rtc worker_step s s' ∧ run s' = WExit ∧ queue s' = queue s ∧ finals s' = finals s ++ cs ∧ plan s' = plan s.
Proof.
  revert s. induction cs as [|c cs IH]; intros s Hr.
  - eexists. split; [apply rtc_once, step_exit; exact Hr|]. simpl. by rewrite app_nil_r.
  - destruct (IH (s <| run := WTerm (Task <$> cs) |> <| finals := finals s ++ [c] |>)) as (s' & H1 & H2 & H3 & H4 & H5); [done|].
    exists s'. split_and!; [|done|done|by rewrite H4; simpl; rewrite <- app_assoc|done].
    eapply rtc_l; [by apply (step_terminal s c (Task <$> cs))|done].
Qed.

Lemma worker_exits s :
  inv s → closed (queue s) = true → ready s = true ∨ plan s = [] →
  ∃ s', rtc worker_step s s' ∧ run s' = WExit ∧ finals s' = plan s ∧ plan s' = plan s.
Proof.
  intros Hi Hc Hr.
  assert (Hterm : ∀ s rest, run s = WTerm rest → inv s → ready s = true ∨ plan s = [] →
            ∃ s', rtc worker_step s s' ∧ run s' = WExit ∧ finals s' = plan s ∧ plan s' = plan s).
  { clear. intros s rest HW (_&Hw&_&_) Hr. unfold worker_ok in Hw. rewrite HW in Hw.
    destruct Hw as (_ & [[Hf [[-> Hne]|[-> Hp]]]|(Hrd & cs & -> & Hp)]).
    - destruct Hr as [Hr|?]; [|done].
      destruct (worker_terms (s <| run := WTerm (Task <$> plan s) |>) (plan s)) as (s' & H1 & H2 & _ & H4 & H5); [done|].
      exists s'. split_and!; [|done|by rewrite H4; simpl; rewrite Hf|done]. eapply rtc_l; [by apply step_gate|done].
    - destruct (worker_terms s [] HW) as (s' & H1 & H2 & _ & H4 & H5). exists s'. split_and!; [done|done|by rewrite H4, Hf, Hp|done].
    - destruct (worker_terms s cs HW) as (s' & H1 & H2 & _ & H4 & H5). exists s'. split_and!; [done|done|by rewrite H4, Hp|done]. }
  assert (Hnext : ∀ s, run s = WNext → inv s → closed (queue s) = true → ready s = true ∨ plan s = [] →
            ∃ s', rtc worker_step s s' ∧ run s' = WExit ∧ finals s' = plan s ∧ plan s' = plan s).
  { clear -Hterm. intros s HW Hi Hc Hr. pose proof (inv_next s HW Hi) as Hi'.
    assert (E : run_next s = s <| queue := (queue s) <| terminals := [] |> |> <| run := WTerm (terminals (queue s)) |>)
      by (unfold run_next, next; by rewrite Hc).
    rewrite E in Hi'. eapply Hterm in Hi' as (s' & H1 & H2 & H3 & H4); [|done|exact Hr].
    exists s'. split_and!; [|done|done|done]. eapply rtc_l; [apply step_next; exact HW|]. by rewrite E. }
  destruct (run s) as [|c|rest| |] eqn:HW.
  - by apply Hnext.
  - assert (Hst : worker_step s (s <| run := WNext |>)) by (by apply (step_return s c)).
    destruct (Hnext (s <| run := WNext |>)) as (s' & H1 & H2 & H3 & H4); [done|by eapply inv_worker|done|done|].
    exists s'. split_and!; [by eapply rtc_l|done..].
  - by eapply Hterm.
  - assert (Hst : worker_step s (s <| run := WNext |>)).
    { apply step_wake_closed; [done|]. destruct Hi as ((_&_&->&_)&_). done. }
    destruct (Hnext (s <| run := WNext |>)) as (s' & H1 & H2 & H3 & H4); [done|by eapply inv_worker|done|done|].
    exists s'. split_and!; [by eapply rtc_l|done..].
  - exists s. destruct Hi as (_&Hw&_). unfold worker_ok in Hw. rewrite HW in Hw. destruct Hw as (_ & Hw & _). by split_and!.
Qed.

(** ** Properties *)

(** The queue never holds more callbacks than its capacity, the wake
    channel is closed exactly when the queue is, and a closed queue holds no
    callback; so no send and no second close can hit a closed channel. *)
Theorem queue_bounded s :
  reach s →
  zlen (tasks (queue s)) ≤ capacity (queue s) ∧
  wake_closed (queue s) = closed (queue s) ∧
  (closed (queue s) = true → tasks (queue s) = []).
Proof. intros H. apply inv_reach in H as ((?&?&?&?&?)&_). auto. Qed.

(** Callbacks are begun in submission order and each at most once: what
    the worker has begun is a prefix of what was accepted, and while the queue
    is open the rest of it is exactly what waits. *)
Theorem queue_fifo s :
  reach s →
  started s `prefix_of` accepted s ∧
  (closed (queue s) = false → accepted s = started s ++ tasks (queue s)).
Proof.
  intros H. apply inv_reach in H as (_&_&Hf&_). unfold fifo_ok in Hf.
  destruct (closed (queue s)); [done|]. split; [|done]. rewrite Hf. by apply prefix_app_r.
Qed.

(** A batch is accepted whole or refused whole: on an error the queue is
    unchanged, on success every callback of the batch is appended in order. *)
Theorem submit_all_or_nothing cs q q' err :
  SubmitBatch cs q = (q', err) →
  match err with
  | Some _ => q' = q
  | None => closed q = false ∧ hasNilCallback cs = false ∧
            tasks q' = tasks q ++ present cs ∧ length (present cs) = length cs ∧
            zlen (tasks q') ≤ capacity q
  end.
Proof.
  intros H. pose proof H as H'. unfold SubmitBatch in H'.
  destruct (hasNilCallback cs) eqn:Hn; [simplify_eq; done|].
  destruct (SubmitBatch_cases _ _ _ _ H) as [[[e ->] ->]|(->&?&?&?&?&_)]; [done|].
  split_and!; auto using hasNil_false_length.
Qed.

(** Terminal callbacks run only after the caller released them, after the
    last ordinary callback, in order and at most once: once one of them has
    begun the gate is open, and those begun are a prefix of the plan; when
    [Run] returns all of them have run. *)
Theorem terminals_after_release s :
  reach s →
  (finals s ≠ [] → ready s = true ∧ closed (queue s) = true) ∧
  finals s `prefix_of` plan s ∧
  (run s = WExit → finals s = plan s).
Proof.
  intros H. apply inv_reach in H as (_&Hw&_). unfold worker_ok in Hw.
  destruct (run s); try (destruct Hw as [-> _]; split_and!; auto using prefix_nil; done).
  - destruct Hw as (?&[[-> _]|(?&cs&_&Hp)]); (split_and!; [done| |done]); [apply prefix_nil|].
    rewrite <- Hp. by apply prefix_app_r.
  - destruct Hw as (Hc&Hp&Hr). split_and!; [|by rewrite Hp|done].
    intros Hne. destruct Hr; done.
Qed.

(** Once the queue is closed the worker begins no further ordinary
    callback, whatever the callers do. *)
Theorem no_start_after_close s s' :
  reach s → closed (queue s) = true → step s s' →
  closed (queue s') = true ∧ started s' = started s ∧ plan s' = plan s.
Proof.
  intros _ Hc [H|H].
  - destruct H; simpl; auto. unfold run_next, next. rewrite Hc. simpl. auto.
  - destruct H as [s cs q err H|s|s ts q H|s ts q r H Hr|s H]; simpl; auto.
    + apply SubmitBatch_cases in H as [[_ ->]|(_&?&_)]; [auto|congruence].
    + unfold Stop, closeWithTerminals. rewrite Hc. auto.
    + apply BeginTermination_OpenGate, close_cases in H as [(?&_)|(_&?&_)]; congruence.
    + apply BeginTermination_other in H as [->| ->]; auto.
      unfold Stop, closeWithTerminals. rewrite Hc. auto.
Qed.

(** No lost wake-up: the worker can always move unless it has returned,
    the queue is open and empty, or the terminal gate has not been released. *)
Theorem worker_progress s :
  reach s →
  (∃ s', worker_step s s') ∨ run s = WExit ∨
  (run s = WWait ∧ closed (queue s) = false ∧ tasks (queue s) = []) ∨
  (∃ rest, run s = WTerm (Gate :: rest) ∧ ready s = false).
Proof.
  intros H. apply inv_reach in H as ((_&_&Hwc&_&_)&_&_&Hk). unfold wake_ok in Hk.
  destruct (run s) as [|c|[|[c|] rest]| |] eqn:HW; eauto using worker_step.
  - destruct (ready s) eqn:Hr; eauto 10 using worker_step.
  - destruct (closed (queue s)) eqn:Hc; [eauto using worker_step|].
    destruct (tasks (queue s)) eqn:Ht; [by auto 10|].
    left. eexists. apply step_token; [done|]. by apply Hk.
Qed.
End Queue.

(** ** Witnesses: a worker that begins one callback, then a termination *)

Module QueueExample.
Definition q0 : @Queue nat := mkQueue 2 false false [] [] false.
Definition s0 : @sys nat := mkSys q0 WNext false false [] [] [] [].
Definition s1 : @sys nat :=
  mkSys (mkQueue 2 true false [7%nat; 8%nat] [] false) WNext false false [7%nat; 8%nat] [] [] [].
Definition s2 : @sys nat :=
  mkSys (mkQueue 2 true false [8%nat] [] false) (WInvoke 7%nat) false false
    [7%nat; 8%nat] [7%nat] [] [].
Definition s3 : @sys nat :=
  mkSys (mkQueue 2 true true [] [Gate; Task 9%nat] true) (WInvoke 7%nat) false true
    [7%nat; 8%nat] [7%nat] [9%nat] [].
Definition s4 : @sys nat :=
  mkSys (mkQueue 2 true true [] [Gate; Task 9%nat] true) WNext false true
    [7%nat; 8%nat] [7%nat] [9%nat] [].

Lemma reach_s1 : reach s1.
Proof.
  eapply (reach_step _ _ s0).
  - apply reach_init. by exists 2, q0.
  - right. exact (step_submit s0 [Some 7%nat; Some 8%nat] _ None eq_refl).
Qed.

Lemma reach_s2 : reach s2.
Proof. eapply reach_step; [apply reach_s1|]. left. exact (step_next s1 eq_refl). Qed.

Lemma reach_s3 : reach s3.
Proof.
  eapply reach_step; [apply reach_s2|]. right. exact (step_begin s2 [Some 9%nat] _ eq_refl).
Qed.

Lemma step_s3_s4 : step s3 s4.
Proof. left. exact (step_return s3 7%nat eq_refl). Qed.

Lemma queue_bounded_witness : wake_closed (queue s3) = closed (queue s3).
Proof. apply (queue_bounded s3 reach_s3). Defined.

Lemma queue_fifo_witness : accepted s2 = started s2 ++ tasks (queue s2).
Proof. apply (queue_fifo s2 reach_s2). reflexivity. Defined.

Lemma submit_all_or_nothing_witness : tasks (queue s1) = tasks q0 ++ [7%nat; 8%nat].
Proof.
  apply (submit_all_or_nothing [Some 7%nat; Some 8%nat] q0 (queue s1) None). reflexivity.
Defined.

Lemma terminals_after_release_witness : finals s3 `prefix_of` plan s3.
Proof. apply (terminals_after_release s3 reach_s3). Defined.

Lemma no_start_after_close_witness : started s4 = started s3.
Proof. apply (no_start_after_close s3 s4 reach_s3 eq_refl step_s3_s4). Defined.

Lemma worker_progress_witness :
  (∃ s', worker_step s1 s') ∨ run s1 = WExit ∨
  (run s1 = WWait ∧ closed (queue s1) = false ∧ tasks (queue s1) = []) ∨
  (∃ rest, run s1 = WTerm (Gate :: rest) ∧ ready s1 = false).
Proof. apply (worker_progress s1 reach_s1). Defined.
End QueueExample.
