(* ===== verification/Heartbeat.v ===== *)
(** * network/internal/heartbeat: the client heartbeat state

    [State] is one atomic word.  The operations are given as the sequences
    of atomic loads and compare-and-swaps of the source; the relation [step]
    interleaves the three goroutines of a client that use them: the ticker
    ([heartbeatLoop]), the writer ([writeLoop]) and the reader
    ([handleIncoming]). *)

From S2P Require Import Prelude Errors.

(** The four values of the word, and the verdicts of [Tick]. *)
Inductive value := idle | queued | writing | outstanding.
Inductive TickResult := TickQueue | TickPending | TickTimeout.

#[export] Instance value_eq_dec : EqDecision value.
Proof. solve_decision. Defined.

Definition CompareAndSwap (v old new : value) : value * bool :=
  if decide (v = old) then (new, true) else (v, false).

(** One iteration of the loop of [Tick] up to its return or retry: the value
    loaded decides which swap is attempted. *)
Inductive tick_action :=
| TickReturn (r : TickResult)
| TickSwap (old new : value) (r : TickResult).

Definition Tick_load (v : value) : tick_action :=
  match v with
  | idle => TickSwap idle queued TickQueue
  | queued | writing => TickReturn TickPending
  | outstanding => TickSwap outstanding idle TickTimeout
  end.

(** [Tick] without interference between the load and the swap. *)
Definition Tick (v : value) : value * TickResult :=
  match Tick_load v with
  | TickReturn r => (v, r)
  | TickSwap old new r => ((CompareAndSwap v old new).1, r)
  end.

Definition CancelQueue (v : value) : value * bool := CompareAndSwap v queued idle.

Definition BeginWrite (v : value) : value * bool := CompareAndSwap v queued writing.

(** [FinishWrite]: a swap, and a second load when it fails. *)
Definition FinishWrite_swap (v : value) : value * bool := CompareAndSwap v writing outstanding.
Definition FinishWrite_load (v : value) : bool :=
  bool_decide (v = idle) || bool_decide (v = queued).

Definition FinishWrite (v : value) : value * bool :=
  match FinishWrite_swap v with
  | (v, true) => (v, true)
  | (v, false) => (v, FinishWrite_load v)
  end.

(** [Reply]: load, then swap of the loaded value to idle. *)
Definition Reply_load (v : value) : bool :=
  negb (negb (bool_decide (v = writing)) && negb (bool_decide (v = outstanding))).
Definition Reply (v : value) : value * bool :=
  if Reply_load v then ((CompareAndSwap v v idle).1, true) else (v, false).

(** ** The goroutines of one client *)

Inductive ticker :=
| TWait                                           (* blocked on ticker.C *)
| TLoad                                           (* in Tick, at the load *)
| TSwap (old new : value) (r : TickResult)        (* in Tick, at the swap *)
| TSend                                           (* Tick returned TickQueue *)
| TCancel                                         (* the send failed *)
| TTimeout                                        (* Tick returned TickTimeout: Close *)
| TStop.

Inductive writer :=
| WWait                                           (* blocked on outbound *)
| WBegin                                          (* holds a heartbeat frame *)
| WWrite                                          (* in writeMessage *)
| WFinish                                         (* at the swap of FinishWrite *)
| WRecheck                                        (* at the load of FinishWrite *)
| WInvalidBegin | WInvalidFinish                  (* "invalid state": Close *)
| WStop.

Inductive reader :=
| RWait                                           (* in readFrame *)
| RLoad                                           (* a heartbeat reply arrived *)
| RSwap (old : value)
| RUnexpected.                                    (* Reply returned false: Close *)

Record sys := mkSys {
  word : value;
  tick : ticker;
  wr : writer;
  rd : reader;
  frames : nat;        (* heartbeat frames waiting in outbound *)
  written : nat;       (* heartbeats completely written *)
  confirmed : nat;     (* heartbeats whose reply was taken *)
  expired : nat;       (* heartbeats judged timed out *)
}.
#[export] Instance eta_sys : Eta sys := λ s,
  mkSys (word s) (tick s) (wr s) (rd s) (frames s) (written s) (confirmed s) (expired s).

Definition init_sys (s : sys) : Prop := s = mkSys idle TWait WWait RWait 0 0 0 0.

(** Result of the switch on [Tick()] in [heartbeatLoop]. *)
Definition after_tick (r : TickResult) : ticker :=
  match r with
  | TickPending => TWait
  | TickTimeout => TTimeout
  | TickQueue => TSend
  end.

Inductive ticker_step : sys → sys → Prop :=
| tick_fires s : tick s = TWait → ticker_step s (s <| tick := TLoad |>)
| tick_load s :
    tick s = TLoad →
    ticker_step s (s <| tick := match Tick_load (word s) with
                                | TickReturn r => after_tick r
                                | TickSwap old new r => TSwap old new r
                                end |>)
| tick_swap_ok s old new r :
    tick s = TSwap old new r → CompareAndSwap (word s) old new = (new, true) →
    ticker_step s (s <| word := new |> <| tick := after_tick r |>
                     <| expired := match r with TickTimeout => S (expired s) | _ => expired s end |>)
| tick_swap_retry s old new r :
    tick s = TSwap old new r → (CompareAndSwap (word s) old new).2 = false →
    ticker_step s (s <| tick := TLoad |>)
| tick_send_ok s : tick s = TSend → ticker_step s (s <| tick := TWait |> <| frames := S (frames s) |>)
| tick_send_failed s : tick s = TSend → ticker_step s (s <| tick := TCancel |>)
| tick_cancel s :
    tick s = TCancel →
    ticker_step s (s <| word := (CancelQueue (word s)).1 |> <| tick := TStop |>).

Inductive writer_step : sys → sys → Prop :=
| write_take s n :
    wr s = WWait → frames s = S n → writer_step s (s <| frames := n |> <| wr := WBegin |>)
| write_begin s v ok :
    wr s = WBegin → BeginWrite (word s) = (v, ok) →
    writer_step s (s <| word := v |> <| wr := if ok then WWrite else WInvalidBegin |>)
| write_message s : wr s = WWrite → writer_step s (s <| wr := WFinish |> <| written := S (written s) |>)
| write_failed s : wr s = WWrite → writer_step s (s <| wr := WStop |>)
| write_finish s v ok :
    wr s = WFinish → FinishWrite_swap (word s) = (v, ok) →
    writer_step s (s <| word := v |> <| wr := if ok then WWait else WRecheck |>)
| write_recheck s :
    wr s = WRecheck →
    writer_step s (s <| wr := if FinishWrite_load (word s) then WWait else WInvalidFinish |>).

Inductive reader_step : sys → sys → Prop :=
| read_reply s : rd s = RWait → reader_step s (s <| rd := RLoad |>)
| read_load s :
    rd s = RLoad →
    reader_step s (s <| rd := if Reply_load (word s) then RSwap (word s) else RUnexpected |>)
| read_swap_ok s old :
    rd s = RSwap old → CompareAndSwap (word s) old idle = (idle, true) →
    reader_step s (s <| word := idle |> <| rd := RWait |> <| confirmed := S (confirmed s) |>)
| read_swap_retry s old :
    rd s = RSwap old → (CompareAndSwap (word s) old idle).2 = false →
    reader_step s (s <| rd := RLoad |>).

Definition step (s s' : sys) : Prop := ticker_step s s' ∨ writer_step s s' ∨ reader_step s s'.

Definition reach : sys → Prop := reachable init_sys step.

(** ** Invariant *)

(** How many goroutines or queue slots hold the queued heartbeat. *)
Definition holders (s : sys) : nat :=
  (frames s + (match tick s with TSend | TCancel => 1 | _ => 0 end) +
   (match wr s with WBegin => 1 | _ => 0 end))%nat.

Definition word_ok (s : sys) : Prop :=
  holders s = match word s with queued => 1%nat | _ => 0%nat end.

Definition writer_ok (s : sys) : Prop :=
  match wr s with
  | WWait | WBegin => word s ≠ writing
  | WWrite | WFinish => word s ≠ outstanding
  | WRecheck => word s = idle ∨ word s = queued
  | WStop => word s ≠ outstanding
  | WInvalidBegin | WInvalidFinish => False
  end.

Definition ticker_ok (s : sys) : Prop :=
  match tick s with
  | TSwap old new r =>
      (old = idle ∧ new = queued ∧ r = TickQueue) ∨
      (old = outstanding ∧ new = idle ∧ r = TickTimeout)
  | _ => True
  end.

Definition reader_ok (s : sys) : Prop :=
  match rd s with
  | RSwap old => old = writing ∨ old = outstanding
  | _ => True
  end.

(** Heartbeats whose write has begun, and the one not judged yet. *)
Definition begun (s : sys) : nat :=
  (written s + match wr s with WWrite | WStop => 1 | _ => 0 end)%nat.
Definition awaiting (s : sys) : nat :=
  match word s with writing | outstanding => 1%nat | _ => 0%nat end.

Definition count_ok (s : sys) : Prop := begun s = (confirmed s + expired s + awaiting s)%nat.

Definition inv (s : sys) : Prop :=
  word_ok s ∧ writer_ok s ∧ ticker_ok s ∧ reader_ok s ∧ count_ok s.

Ltac heartbeat_crush :=
  match goal with s : sys |- _ => destruct s end;
  unfold inv, word_ok, writer_ok, ticker_ok, reader_ok, count_ok, begun, awaiting, holders, after_tick, Tick_load,
    CancelQueue, BeginWrite, FinishWrite_swap, FinishWrite_load, Reply_load, CompareAndSwap in *;
  simpl in *; subst; simpl in *;
  repeat match goal with
  | H : _ ∧ _ |- _ => destruct H
  | H : _ ∨ _ |- _ => destruct H
  | _ => case_decide; simplify_eq/=
  end;
  repeat match goal with
  | v : value |- _ => destruct v; simpl in *
  end; simplify_eq/=;
  split_and!; try assumption; try done; try lia; repeat case_match; simplify_eq/=; auto; try done; try lia.

Lemma hb_inv_ticker s s' : ticker_step s s' → inv s → inv s'.
Proof. destruct 1; intros Hi; heartbeat_crush. Qed.

Lemma hb_inv_writer s s' : writer_step s s' → inv s → inv s'.
Proof. destruct 1; intros Hi; heartbeat_crush. Qed.

Lemma hb_inv_reader s s' : reader_step s s' → inv s → inv s'.
Proof. destruct 1; intros Hi; heartbeat_crush. Qed.

Lemma hb_inv_reach s : reach s → inv s.
Proof.
  apply invariant_reachable.
  - intros s0 ->. by repeat split.
  - intros s0 s1 _ Hi [H|[H|H]]; eauto using hb_inv_ticker, hb_inv_writer, hb_inv_reader.
Qed.

(** ** Properties *)

(** In every interleaving of the ticker, the writer and the reader, and
    whatever replies the peer sends, at most one heartbeat is queued, and
    neither [BeginWrite] nor [FinishWrite] nor [CancelQueue] ever fails: the
    two invalid-state exits of [writeLoop] are unreachable. *)
Theorem heartbeat_states_valid s :
  reach s →
  wr s ≠ WInvalidBegin ∧ wr s ≠ WInvalidFinish ∧ (frames s ≤ 1)%nat ∧
  (wr s = WBegin → (BeginWrite (word s)).2 = true) ∧
  (tick s = TCancel → (CancelQueue (word s)).2 = true).
Proof.
  intros H. apply hb_inv_reach in H as (Hw&Hwr&_&_&_).
  unfold word_ok, writer_ok, holders, BeginWrite, CancelQueue, CompareAndSwap in *.
  destruct (word s), (wr s), (tick s); try done; split_and!; try done; lia.
Qed.

(** Every heartbeat whose write began is judged exactly once: the replies
    taken plus the timeouts declared plus the one still awaited are the
    heartbeats begun. *)
Theorem heartbeat_accounting s :
  reach s → begun s = (confirmed s + expired s + awaiting s)%nat.
Proof. intros H. by apply hb_inv_reach in H as (_&_&_&_&?). Qed.

(** [Tick] declares a timeout only for a heartbeat that has been written
    completely and not answered: at that moment no heartbeat is queued and
    the writer is idle. *)
Theorem heartbeat_timeout_sound s s' :
  reach s → step s s' → tick s' = TTimeout → tick s ≠ TTimeout →
  word s = outstanding ∧ frames s = 0%nat ∧ wr s = WWait ∧ word s' = idle.
Proof.
  intros H Hs Ht Hne. apply hb_inv_reach in H as (Hw&Hwr&Htk&_&_).
  unfold word_ok, writer_ok, ticker_ok, holders in *.
  destruct Hs as [Hs|[Hs|Hs]]; destruct Hs; simpl in *; try congruence.
  - unfold Tick_load, after_tick in Ht. by destruct (word s).
  - unfold CompareAndSwap in *. rewrite H in *. case_decide; simplify_eq.
    destruct Htk as [(E&->&->)|(E&->&->)]; simpl in *; [done|]; rewrite E in *.
    destruct (wr s); try done; try (by destruct Hwr); split_and!; auto; lia.
Qed.

(** ** Witnesses *)

Module HeartbeatExample.
Definition h0 : sys := mkSys idle TWait WWait RWait 0 0 0 0.
Definition h1 : sys := mkSys outstanding (TSwap outstanding idle TickTimeout) WWait RWait 0 1 0 0.
Definition h2 : sys := mkSys idle TTimeout WWait RWait 0 1 0 1.

Lemma reach_h1 : reach h1.
Proof.
  assert (H : reachable init_sys step h0) by by apply reach_init.
  reach_by H ltac:(left; eapply tick_fires). reach_by H ltac:(left; eapply tick_load).
  reach_by H ltac:(left; eapply tick_swap_ok). reach_by H ltac:(left; eapply tick_send_ok).
  reach_by H ltac:(right; left; eapply write_take).
  reach_by H ltac:(right; left; eapply write_begin).
  reach_by H ltac:(right; left; eapply write_message).
  reach_by H ltac:(right; left; eapply write_finish).
  reach_by H ltac:(left; eapply tick_fires). reach_by H ltac:(left; eapply tick_load).
  exact H.
Qed.

Lemma step_h1_h2 : step h1 h2.
Proof. left. exact (tick_swap_ok h1 outstanding idle TickTimeout eq_refl eq_refl). Qed.

Lemma heartbeat_states_valid_witness : wr h1 ≠ WInvalidFinish.
Proof. apply (heartbeat_states_valid h1 reach_h1). Defined.

Lemma heartbeat_accounting_witness : begun h1 = (confirmed h1 + expired h1 + awaiting h1)%nat.
Proof. apply (heartbeat_accounting h1 reach_h1). Defined.

Lemma heartbeat_timeout_sound_witness : word h1 = outstanding ∧ word h2 = idle.
Proof.
  destruct (heartbeat_timeout_sound h1 h2 reach_h1 step_h1_h2) as (?&?&?&?); done.
Defined.
End HeartbeatExample.
