(* ===== verification/Tracker.v ===== *)
(** * Pending requests of a client

    [network/internal/request/tracker.go], and the way [Client.Request] and
    [Client.shutdownWith] of [network/tcp/client.go] use it.  A pending
    request is an object: the map holds its identity, [CompareAndDelete]
    compares identities.  Operations are first written as whole functions,
    then split at their atomic accesses in a step relation. *)

From S2P Require Import Prelude Errors Proto.

(** ** Data *)

Record outcome := mkOutcome { out_body : bytes; out_code : Z; out_err : option error }.

(** The result channel [done] has capacity 1; [cause] is ghost and records
    what a value was sent for. *)
Inductive cause := CResponse (r : Proto) | CFail (e : error).

Definition outcome_of (c : cause) : outcome :=
  match c with
  | CResponse r => mkOutcome (Body r) (Code r) None
  | CFail e => mkOutcome [] 0 (Some e)
  end.

Record Tracker := mkTracker { counter : Z; pending : gmap Z nat }.
#[export] Instance eta_Tracker : Eta Tracker := λ t, mkTracker (counter t) (pending t).

Definition Tracker_zero : Tracker := mkTracker 0 ∅.

(** ** sync.Map accesses *)

Definition LoadOrStore (m : gmap Z nat) (k : Z) (p : nat) : gmap Z nat * bool :=
  match m !! k with Some _ => (m, true) | None => (<[k := p]> m, false) end.

Definition LoadAndDelete (m : gmap Z nat) (k : Z) : gmap Z nat * option nat :=
  (delete k m, m !! k).

Definition CompareAndDelete (m : gmap Z nat) (k : Z) (p : nat) : gmap Z nat * bool :=
  if decide (m !! k = Some p) then (delete k m, true) else (m, false).

(** ** Sequence numbers *)

Definition mask31 : Z := Z.shiftl 1 31 - 1.

(** [t.seq.Add(1)] and the mask. *)
Definition Add1 (c : Z) : Z := u32 (c + 1).
Definition masked (c : Z) : Z := Z.land c mask31.

Fixpoint nextSequence_loop (fuel : nat) (c : Z) : option (Z * Z) :=
  match fuel with
  | O => None
  | S fuel =>
      let c := Add1 c in
      if masked c =? 0 then nextSequence_loop fuel c else Some (c, i32 (masked c))
  end.

Definition nextSequence (c : Z) : option (Z * Z) := nextSequence_loop 2 c.

(** ** Whole operations *)

Definition request_message (seq command : Z) (body : bytes) : Proto :=
  mkProto OpRequest seq 0 command body.

(** [Begin]: [p] is the address of the object the last iteration allocates. *)
Fixpoint Begin_loop (fuel : nat) (t : Tracker) (p : nat) (command : Z) (body : bytes)
  : option (Tracker * Proto * Z) :=
  match fuel with
  | O => None
  | S fuel =>
      match nextSequence (counter t) with
      | None => None
      | Some (c, seq) =>
          match LoadOrStore (pending t) seq p with
          | (_, true) => Begin_loop fuel (t <| counter := c |>) p command body
          | (m, false) => Some (mkTracker c m, request_message seq command body, seq)
          end
      end
  end.

Definition Begin (t : Tracker) (p : nat) (command : Z) (body : bytes)
  : option (Tracker * Proto * Z) :=
  Begin_loop (S (size (pending t))) t p command body.

(** [Resolve]: the new tracker, and the send on the [done] channel of the
    pending request found. *)
Definition Resolve (t : Tracker) (response : Proto) : Tracker * option (nat * cause) :=
  match LoadAndDelete (pending t) (Seq response) with
  | (m, None) => (t, None)
  | (m, Some p) => (t <| pending := m |>, Some (p, CResponse response))
  end.

(** [Fail] when nothing runs concurrently: [Range] visits every entry. *)
Fixpoint Fail_range (entries : list (Z * nat)) (t : Tracker) (e : error)
  : Tracker * list (nat * cause) :=
  match entries with
  | [] => (t, [])
  | (seq, p) :: rest =>
      match CompareAndDelete (pending t) seq p with
      | (m, true) =>
          let '(t', sent) := Fail_range rest (t <| pending := m |>) e in
          (t', (p, CFail e) :: sent)
      | (_, false) => Fail_range rest t e
      end
  end.
Definition Fail (t : Tracker) (e : error) : Tracker * list (nat * cause) :=
  Fail_range (map_to_list (pending t)) t e.

Definition Cancel (t : Tracker) (seq : Z) (p : nat) : Tracker :=
  t <| pending := (CompareAndDelete (pending t) seq p).1 |>.

(** ** Concurrent use

    [Client.Request] is Begin, send, then Cancel or Wait; the read loop calls
    Resolve, and [shutdownWith] closes [done] under the send mutex before it
    calls Fail.  A failed [LoadOrStore] publishes nothing, so one identity
    stands for the objects of all iterations of Begin. *)

Inductive caller :=
| BDraw                                     (* in nextSequence *)
| BStore                                    (* sequence drawn, before LoadOrStore *)
| BSend                                     (* registered, before c.send *)
| BCancel                                   (* send failed, before pending.Cancel *)
| BWait                                     (* in the select of Wait *)
| BTimeout                                  (* ctx.Done chosen, before CompareAndDelete *)
| BDrain                                    (* CompareAndDelete lost, receiving from done *)
| BReturn (c : cause)                       (* Wait returned this result *)
| BFailed.                                  (* returned the send or context error *)

Record req := mkReq {
  rseq : Z;
  pc : caller;
  done : list cause;        (* the buffered channel *)
  taker : option cause;     (* a goroutine that deleted the entry and will send *)
}.
#[export] Instance eta_req : Eta req := λ r, mkReq (rseq r) (pc r) (done r) (taker r).

Inductive failer := FIdle | FRange (snapshot : gmap Z nat) (e : error) | FDone.

Record sys := mkSys { tr : Tracker; reqs : gmap nat req; closed : bool; failing : failer }.
#[export] Instance eta_sys : Eta sys := λ s, mkSys (tr s) (reqs s) (closed s) (failing s).

Definition init_sys (s : sys) : Prop := s = mkSys Tracker_zero ∅ false FIdle.

Definition set_req (s : sys) (p : nat) (r : req) : sys := s <| reqs := <[p := r]> (reqs s) |>.
Definition set_pending (s : sys) (m : gmap Z nat) : sys := s <| tr := (tr s) <| pending := m |> |>.

Inductive caller_step (s : sys) (p : nat) : sys → Prop :=
| start :
    reqs s !! p = None → caller_step s p (set_req s p (mkReq 0 BDraw [] None))
| draw r :
    reqs s !! p = Some r → pc r = BDraw →
    let c := Add1 (counter (tr s)) in
    caller_step s p (set_req (s <| tr := (tr s) <| counter := c |> |>) p
      (if masked c =? 0 then r else r <| rseq := i32 (masked c) |> <| pc := BStore |>))
| store r m loaded :
    reqs s !! p = Some r → pc r = BStore →
    LoadOrStore (pending (tr s)) (rseq r) p = (m, loaded) →
    caller_step s p (set_req (set_pending s m) p (r <| pc := if loaded then BDraw else BSend |>))
| send_ok r :
    reqs s !! p = Some r → pc r = BSend → closed s = false →
    caller_step s p (set_req s p (r <| pc := BWait |>))
| send_failed r :
    reqs s !! p = Some r → pc r = BSend →
    caller_step s p (set_req s p (r <| pc := BCancel |>))
| cancel r m ok :
    reqs s !! p = Some r → pc r = BCancel →
    CompareAndDelete (pending (tr s)) (rseq r) p = (m, ok) →
    caller_step s p (set_req (set_pending s m) p (r <| pc := BFailed |>))
| ctx_done r :
    reqs s !! p = Some r → pc r = BWait →
    caller_step s p (set_req s p (r <| pc := BTimeout |>))
| timeout r m ok :
    reqs s !! p = Some r → pc r = BTimeout →
    CompareAndDelete (pending (tr s)) (rseq r) p = (m, ok) →
    caller_step s p (set_req (set_pending s m) p (r <| pc := if ok then BFailed else BDrain |>))
| receive r c rest :
    reqs s !! p = Some r → pc r = BWait ∨ pc r = BDrain → done r = c :: rest →
    caller_step s p (set_req s p (r <| done := rest |> <| pc := BReturn c |>)).

Inductive peer_step (s : sys) : sys → Prop :=
| resolve response t p c r :
    Resolve (tr s) response = (t, Some (p, c)) → reqs s !! p = Some r →
    peer_step s (set_req (s <| tr := t |>) p (r <| taker := Some c |>))
| deliver p r c :
    reqs s !! p = Some r → taker r = Some c → done r = [] →
    peer_step s (set_req s p (r <| taker := None |> <| done := [c] |>))
| close_done : closed s = false → peer_step s (s <| closed := true |>)
| fail_start e :
    closed s = true → failing s = FIdle →
    peer_step s (s <| failing := FRange (pending (tr s)) e |>)
| fail_visit snap e k p m r :
    failing s = FRange snap e → CompareAndDelete (pending (tr s)) k p = (m, true) →
    reqs s !! p = Some r →
    peer_step s (set_req (set_pending s m) p (r <| taker := Some (CFail e) |>))
| fail_end snap e :
    failing s = FRange snap e →
    (∀ k p, snap !! k = Some p → pending (tr s) !! k ≠ Some p) →
    peer_step s (s <| failing := FDone |>).

Definition step (s s' : sys) : Prop := (∃ p, caller_step s p s') ∨ peer_step s s'.
Definition reach : sys → Prop := reachable init_sys step.

(** ** Invariant *)

(** What has been sent to the request, or is about to be. *)
Definition signals (r : req) : list cause := option_list (taker r) ++ done r.

Definition cause_ok (k : Z) (c : cause) : Prop :=
  match c with CResponse x => Seq x = k | CFail _ => True end.

Definition seq_ok (k : Z) : Prop := 1 ≤ k < 2 ^ 31.

(** The request [r], with [here] telling whether the map holds it. *)
Definition pc_ok (here : Prop) (r : req) : Prop :=
  match pc r with
  | BDraw => ¬ here ∧ signals r = []
  | BStore => ¬ here ∧ signals r = [] ∧ seq_ok (rseq r)
  | BReturn c => ¬ here ∧ signals r = [] ∧ seq_ok (rseq r) ∧ cause_ok (rseq r) c
  | BCancel => seq_ok (rseq r)
  | BSend | BWait | BTimeout => (here ∨ signals r ≠ []) ∧ seq_ok (rseq r)
  | BDrain => ¬ here ∧ signals r ≠ [] ∧ seq_ok (rseq r)
  | BFailed => ¬ here
  end.

Definition req_ok (here : Prop) (r : req) : Prop :=
  (here → signals r = []) ∧ (length (signals r) ≤ 1)%nat ∧
  Forall (cause_ok (rseq r)) (signals r) ∧ pc_ok here r.

Definition waiting (r : req) : Prop := pc r = BWait ∨ pc r = BTimeout.

Definition fail_ok (closed : bool) (f : failer) (k : Z) (p : nat) (here : Prop) (r : req) : Prop :=
  match f with
  | FIdle => True
  | FRange snap _ => here → waiting r → snap !! k = Some p
  | FDone => here → ¬ waiting r
  end.

Record inv (s : sys) : Prop := mkInv {
  inv_map : ∀ k p, pending (tr s) !! k = Some p → ∃ r, reqs s !! p = Some r ∧ rseq r = k;
  inv_req : ∀ p r, reqs s !! p = Some r →
    req_ok (pending (tr s) !! rseq r = Some p) r ∧
    fail_ok (closed s) (failing s) (rseq r) p (pending (tr s) !! rseq r = Some p) r;
  inv_closed : closed s = false → failing s = FIdle;
}.

Lemma trk_inv_update s s' p r' :
  inv s → reqs s' = <[p := r']> (reqs s) → closed s' = closed s → failing s' = failing s →
  (∀ k q, q ≠ p → pending (tr s') !! k = Some q ↔ pending (tr s) !! k = Some q) →
  (∀ k, pending (tr s') !! k = Some p → rseq r' = k) →
  req_ok (pending (tr s') !! rseq r' = Some p) r' →
  fail_ok (closed s) (failing s) (rseq r') p (pending (tr s') !! rseq r' = Some p) r' →
  inv s'.
Proof.
  intros [Hm Hr Hc] Er Ec Ef Hframe Hp Hok Hf. split.
  - intros k q Hk. rewrite Er. destruct (decide (q = p)) as [->|Hq].
    + exists r'. rewrite lookup_insert_eq. eauto.
    + rewrite lookup_insert_ne by done. apply Hm, Hframe; done.
  - intros q r. rewrite Er, Ec, Ef. destruct (decide (q = p)) as [->|Hq].
    + rewrite lookup_insert_eq. intros [= <-]. done.
    + rewrite lookup_insert_ne by done. intros Hq'. destruct (Hr q r Hq') as [H1 H2].
      pose proof (Hframe (rseq r) q Hq) as Hfr. split.
      * unfold req_ok, pc_ok in *. destruct (pc r); intuition.
      * unfold fail_ok in *. destruct (failing s); intuition.
  - by rewrite Ec, Ef.
Qed.

Lemma trk_inv_here s p r k : inv s → reqs s !! p = Some r → pending (tr s) !! k = Some p → rseq r = k.
Proof. intros Hi Hr Hk. destruct (inv_map s Hi k p Hk) as (r'&?&?). congruence. Qed.

Lemma CompareAndDelete_spec m k p m' ok :
  CompareAndDelete m k p = (m', ok) →
  (∀ k' q, q ≠ p → m' !! k' = Some q ↔ m !! k' = Some q) ∧
  (∀ k', m' !! k' = Some p → m !! k' = Some p) ∧ m' !! k ≠ Some p ∧
  (if ok then m !! k = Some p else m !! k ≠ Some p).
Proof.
  unfold CompareAndDelete. case_decide as Hd; intros [= <- <-]; [|done].
  rewrite lookup_delete_eq. split_and!; try done.
  - intros k' q Hq. destruct (decide (k = k')) as [<-|]; [|by rewrite lookup_delete_ne].
    rewrite lookup_delete_eq. naive_solver.
  - intros k' Hk. by apply lookup_delete_Some in Hk as [_ ?].
Qed.

Lemma masked_range c : 0 ≤ masked c < 2 ^ 31.
Proof.
  unfold masked, mask31. rewrite Z.shiftl_1_l. change (2 ^ 31 - 1) with (Z.ones 31).
  rewrite Z.land_ones by done. apply Z.mod_pos_bound. done.
Qed.

Lemma masked_i32 c : i32 (masked c) = masked c.
Proof. pose proof (masked_range c). apply i32_small. lia. Qed.

Lemma LoadOrStore_spec m k p m' loaded :
  (∀ k', m !! k' ≠ Some p) → LoadOrStore m k p = (m', loaded) →
  (∀ k' q, q ≠ p → m' !! k' = Some q ↔ m !! k' = Some q) ∧
  (∀ k', m' !! k' = Some p → k = k') ∧ (if loaded then m' !! k ≠ Some p else m' !! k = Some p).
Proof.
  unfold LoadOrStore. intros Hp. destruct (m !! k) eqn:E; intros [= <- <-]; [naive_solver|].
  split_and!; [|intros k'; destruct (decide (k = k')) as [<-|]; [done|]|].
  - intros k' q Hq. destruct (decide (k = k')) as [<-|].
    + rewrite lookup_insert_eq. naive_solver.
    + by rewrite lookup_insert_ne.
  - rewrite lookup_insert_ne by done. intros H. by destruct (Hp k').
  - apply lookup_insert_eq.
Qed.

(** Only the program counter of [r] changes: the signals are those of [r]. *)
Ltac fold_signals r :=
  repeat match goal with
    | |- context [signals (mkReq ?a ?b (done r) (taker r))] =>
        change (signals (mkReq a b (done r) (taker r))) with (signals r)
    end.

Ltac req_start s p r Hi Hr :=
  let Hq := fresh in
  pose proof (trk_inv_here s p r) as Hh; destruct (inv_req s Hi p r Hr) as [Hq Hf];
  destruct Hq as (Hq1&Hq2&Hq3&Hq4);
  eapply (trk_inv_update s _ p); [exact Hi|simpl; reflexivity|done|done|..]; simpl;
  unfold req_ok, pc_ok, fail_ok, waiting in *.

Ltac req_crush r := simpl; fold_signals r; try case_match; intuition (eauto; congruence).

Lemma trk_inv_draw s p r :
  inv s → reqs s !! p = Some r → pc r = BDraw →
  inv (set_req (s <| tr := (tr s) <| counter := Add1 (counter (tr s)) |> |>) p
    (if masked (Add1 (counter (tr s))) =? 0 then r
     else r <| rseq := i32 (masked (Add1 (counter (tr s)))) |> <| pc := BStore |>)).
Proof.
  intros Hi Hr Hpc. req_start s p r Hi Hr; rewrite Hpc in *; [done|..].
  - intros k Hk. exfalso. apply Hq4. by rewrite (Hh k).
  - pose proof (masked_range (Add1 (counter (tr s)))).
    destruct (Z.eqb_spec (masked (Add1 (counter (tr s)))) 0); [rewrite Hpc; done|].
    simpl; fold_signals r; rewrite masked_i32. unfold seq_ok. destruct Hq4 as [Hn ->].
    split_and!; try done; try lia; try by constructor. intros Hk. apply Hn. by rewrite (Hh _ Hi Hr Hk).
  - destruct (masked _ =? 0); simpl; [rewrite Hpc|]; case_match; intuition congruence.
Qed.

Lemma trk_inv_caller s p s' : inv s → caller_step s p s' → inv s'.
Proof.
  intros Hi Hs.
  destruct Hs as [Hr|r Hr Hpc c|r m loaded Hr Hpc Hm|r Hr Hpc Hcl|r Hr Hpc|r m ok Hr Hpc Hm
                 |r Hr Hpc|r m ok Hr Hpc Hm|r c rest Hr Hpc Hd].
  - assert (∀ k, pending (tr s) !! k ≠ Some p) as Hn.
    { intros k Hk. destruct (inv_map s Hi k p Hk) as (?&?&?). congruence. }
    eapply (trk_inv_update s _ p); [exact Hi|simpl; reflexivity|done|done|done|..]; simpl.
    + intros k Hk. by destruct (Hn k).
    + split_and!; simpl; done || lia.
    + unfold fail_ok, waiting; simpl. by case_match; intuition.
  - by apply trk_inv_draw.
  - assert (∀ k, pending (tr s) !! k ≠ Some p) as Hn.
    { intros k Hk. destruct (inv_req s Hi p r Hr) as [(_&_&_&Hq) _].
      unfold pc_ok in Hq. rewrite Hpc, (trk_inv_here s p r k) in Hq by done. by destruct Hq. }
    apply LoadOrStore_spec in Hm as (Hm1&Hm2&Hm3); [|done].
    req_start s p r Hi Hr; rewrite Hpc in *; [done|by eauto|..]; destruct loaded; req_crush r.
  - pose proof (inv_closed s Hi Hcl) as Hf'.
    req_start s p r Hi Hr; rewrite Hpc, Hf' in *; [done|by eauto|..|done]. req_crush r.
  - req_start s p r Hi Hr; rewrite Hpc in *; [done|by eauto|..]; req_crush r.
  - apply CompareAndDelete_spec in Hm as (Hm1&Hm2&Hm3&Hm4).
    req_start s p r Hi Hr; rewrite Hpc in *; [done|by eauto|..]; req_crush r.
  - req_start s p r Hi Hr; rewrite Hpc in *; [done|by eauto|..]; req_crush r.
  - apply CompareAndDelete_spec in Hm as (Hm1&Hm2&Hm3&Hm4).
    req_start s p r Hi Hr; rewrite Hpc in *; [done|by eauto|..]; destruct ok; req_crush r.
  - req_start s p r Hi Hr; [done|by eauto|..|by case_match; intuition].
    assert (taker r = None ∧ rest = []) as [Ht ->].
    { unfold signals in Hq2. rewrite Hd in Hq2. destruct (taker r), rest; simpl in *; done || lia. }
    assert (signals r = [c]) as Es by (unfold signals; by rewrite Ht, Hd).
    rewrite Es in *. simpl. unfold signals; simpl; rewrite Ht; simpl.
    inversion Hq3; subst. destruct Hpc as [Hpc|Hpc]; rewrite Hpc in *;
      (split_and!; try assumption; try done; simpl; try lia; try tauto; intros Hk; discriminate (Hq1 Hk)).
Qed.

Lemma trk_inv_signal s p r t c :
  inv s → reqs s !! p = Some r → cause_ok (rseq r) c →
  CompareAndDelete (pending (tr s)) (rseq r) p = (pending t, true) →
  inv (set_req (s <| tr := t |>) p (r <| taker := Some c |>)).
Proof.
  intros Hi Hr Hc Hm. apply CompareAndDelete_spec in Hm as (Hm1&Hm2&Hm3&Hm4).
  req_start s p r Hi Hr; [done|by eauto|..|simpl; case_match; intuition].
  assert (done r = [] ∧ taker r = None) as [Ed Et].
  { specialize (Hq1 Hm4). unfold signals in Hq1. by destruct (taker r), (done r). }
  assert (Es : signals r = []) by auto. unfold signals; simpl; rewrite Ed; simpl.
  split_and!; [done|lia|by repeat constructor|].
  destruct (pc r); simpl; intuition congruence.
Qed.

Lemma trk_inv_peer s s' : inv s → peer_step s s' → inv s'.
Proof.
  intros Hi Hs. destruct Hs as [response t p c r Hres Hr|p r c Hr Ht Hd|Hc|e Hc Hf
                               |snap e k p m r Hf Hm Hr|snap e Hf Hend].
  - unfold Resolve, LoadAndDelete in Hres.
    destruct (pending (tr s) !! Seq response) as [p'|] eqn:E; simplify_eq.
    pose proof (trk_inv_here s p r _ Hi Hr E) as Es.
    apply trk_inv_signal; simpl; auto. unfold CompareAndDelete. rewrite Es, decide_True by done. done.
  - req_start s p r Hi Hr; [done|by eauto|..|simpl; case_match; intuition].
    assert (Es : signals (r <| taker := None |> <| done := [c] |>) = signals r).
    { unfold signals. by rewrite Ht, Hd. }
    simpl in Es. rewrite Es. by destruct (pc r).
  - destruct Hi as [Hm Hr Hcl]. split; simpl; [done| |done].
    intros p r Hpr. destruct (Hr p r Hpr) as [H1 H2]. split; [done|].
    by rewrite (Hcl Hc) in *.
  - destruct Hi as [Hm Hr Hcl]. split; simpl; [done| |congruence].
    intros p r Hpr. split; [by apply Hr|]. unfold fail_ok. auto.
  - pose proof Hm as Hm'. apply CompareAndDelete_spec in Hm' as (_&_&_&Hk).
    pose proof (trk_inv_here s p r k Hi Hr Hk) as <-.
    apply (trk_inv_signal s p r ((tr s) <| pending := m |>) (CFail e)); done.
  - destruct Hi as [Hm Hr Hcl]. split; simpl; [done| |].
    + intros p r Hpr. destruct (Hr p r Hpr) as [H1 H2]. split; [done|].
      unfold fail_ok in *. rewrite Hf in H2. intros Hh Hw. by apply (Hend (rseq r) p); auto.
    + intros Hc. specialize (Hcl Hc). congruence.
Qed.

Lemma trk_inv_reach s : reach s → inv s.
Proof.
  apply invariant_reachable.
  - intros s0 ->. split; simpl; [|intros ??; rewrite lookup_empty|]; done.
  - intros s0 s1 _ Hi [[p H]|H]; eauto using trk_inv_caller, trk_inv_peer.
Qed.

(** ** Sequence numbers and termination of Begin *)

Definition max_seq : Z := 2 ^ 31 - 1.

(** The [i]-th sequence number drawn after the counter [c]. *)
Definition nth_seq (c : Z) (i : nat) : Z := (masked c + Z.of_nat i) `mod` max_seq + 1.

Lemma masked_mod c : masked c = c `mod` 2 ^ 31.
Proof.
  unfold masked, mask31. rewrite Z.shiftl_1_l. change (2 ^ 31 - 1) with (Z.ones 31).
  by rewrite Z.land_ones.
Qed.

Lemma masked_Add1 c : masked (Add1 c) = if masked c =? max_seq then 0 else masked c + 1.
Proof.
  unfold Add1, u32, max_seq. rewrite !masked_mod.
  destruct (Z.eqb_spec (c `mod` 2 ^ 31) (2 ^ 31 - 1)); Z.to_euclidean_division_equations; lia.
Qed.

Lemma nth_seq_range c i : seq_ok (nth_seq c i).
Proof.
  unfold seq_ok, nth_seq. pose proof (Z.mod_pos_bound (masked c + Z.of_nat i) max_seq eq_refl).
  unfold max_seq in *. lia.
Qed.

Lemma nextSequence_spec c :
  ∃ c', nextSequence c = Some (c', nth_seq c 0) ∧ masked c' = nth_seq c 0.
Proof.
  unfold nextSequence, nth_seq; simpl. pose proof (masked_range c) as Hr.
  rewrite Z.add_0_r, !masked_i32, masked_Add1, masked_Add1, masked_Add1.
  unfold max_seq. destruct (Z.eqb_spec (masked c) (2 ^ 31 - 1)) as [E|E].
  - rewrite E. simpl. eexists. split; [reflexivity|].
    rewrite masked_Add1, masked_Add1, E. reflexivity.
  - destruct (Z.eqb_spec (masked c + 1) 0); [lia|].
    rewrite Z.mod_small by lia. eexists. split; [reflexivity|].
    rewrite masked_Add1. unfold max_seq. by destruct (Z.eqb_spec (masked c) (2 ^ 31 - 1)).
Qed.

Lemma nth_seq_shift c c' i : masked c' = nth_seq c 0 → nth_seq c' i = nth_seq c (S i).
Proof.
  unfold nth_seq. intros ->. rewrite Z.add_0_r. f_equal.
  replace (masked c `mod` max_seq + 1 + Z.of_nat i)
    with (masked c `mod` max_seq + Z.of_nat (S i)) by lia.
  apply Z.add_mod_idemp_l. done.
Qed.

Lemma nth_seq_inj c i j :
  Z.of_nat i < max_seq → Z.of_nat j < max_seq → nth_seq c i = nth_seq c j → i = j.
Proof.
  unfold nth_seq, max_seq. intros Hi Hj E. Z.to_euclidean_division_equations. nia.
Qed.

Lemma Begin_loop_None fuel t p command body :
  Begin_loop fuel t p command body = None →
  ∀ i, (i < fuel)%nat → is_Some (pending t !! nth_seq (counter t) i).
Proof.
  revert t. induction fuel as [|fuel IH]; intros t; simpl; [lia|].
  destruct (nextSequence_spec (counter t)) as (c'&->&Hc').
  unfold LoadOrStore. destruct (pending t !! nth_seq (counter t) 0) eqn:E; [|done].
  intros H i Hi. destruct i as [|i]; [by rewrite E|].
  rewrite <-(nth_seq_shift _ _ _ Hc'). apply (IH _ H). lia.
Qed.

Lemma Begin_loop_Some fuel t p command body t' msg seq :
  Begin_loop fuel t p command body = Some (t', msg, seq) →
  seq_ok seq ∧ pending t !! seq = None ∧ pending t' = <[seq := p]> (pending t) ∧
  msg = request_message seq command body.
Proof.
  revert t. induction fuel as [|fuel IH]; intros t; simpl; [done|].
  destruct (nextSequence_spec (counter t)) as (c'&->&Hc').
  unfold LoadOrStore. destruct (pending t !! nth_seq (counter t) 0) eqn:E.
  { intros H. apply (IH _ H). }
  intros [= <- <- <-]. split_and!; auto using nth_seq_range.
Qed.

Lemma many_keys (m : gmap Z nat) (f : nat → Z) (n : nat) :
  (∀ i j, (i < n)%nat → (j < n)%nat → f i = f j → i = j) →
  (∀ i, (i < n)%nat → is_Some (m !! f i)) → (n ≤ size m)%nat.
Proof.
  intros Hinj Hin. rewrite <-size_dom.
  assert (Hn : NoDup (f <$> seq 0 n)).
  { apply NoDup_fmap_2_strong; [|apply NoDup_seq].
    intros i j Hi%elem_of_seq Hj%elem_of_seq. apply Hinj; lia. }
  rewrite <-(length_seq n 0), <-(length_fmap f), <-(size_list_to_set (C:=gset Z)) by done.
  apply subseteq_size. intros k Hk. apply elem_of_list_to_set, list_elem_of_fmap in Hk as (i&->&Hi).
  apply elem_of_dom, Hin. apply elem_of_seq in Hi. lia.
Qed.

Lemma Fail_range_spec entries t e :
  NoDup entries.*1 → map_Forall (λ k p, (k, p) ∈ entries) (pending t) →
  (∀ k p, (k, p) ∈ entries → pending t !! k = Some p) →
  pending (Fail_range entries t e).1 = ∅ ∧
  (Fail_range entries t e).2 = (λ kp, (kp.2, CFail e)) <$> entries.
Proof.
  revert t. induction entries as [|[k p] rest IH]; simpl; intros t Hn Hall Hin.
  - split; [|done]. apply map_empty. intros k. apply eq_None_not_Some. intros [p Hp].
    specialize (Hall k p Hp). by apply not_elem_of_nil in Hall.
  - apply NoDup_cons in Hn as [Hk Hn].
    assert (E : CompareAndDelete (pending t) k p = (delete k (pending t), true)).
    { unfold CompareAndDelete. rewrite decide_True; [done|]. apply Hin. by left. }
    rewrite E. destruct (IH (t <| pending := delete k (pending t) |>)) as [I1 I2]; simpl in *.
    + done.
    + intros k' p' Hp'. apply lookup_delete_Some in Hp' as [Hne Hp'].
      specialize (Hall k' p' Hp'). apply elem_of_cons in Hall as [[=]|]; done.
    + intros k' p' Hin'. apply lookup_delete_Some. split; [|apply Hin; by right].
      intros <-. apply Hk, list_elem_of_fmap. by exists (k, p').
    + destruct (Fail_range rest _ e) as [t' sent]; simpl in *. by subst.
Qed.

(** ** Properties *)

(** C34: each request gets at most one result, and the one it returns is its
    own: in every interleaving the send on its result channel never blocks,
    a response handed to it has its sequence number, a sequence number in
    1..2^31-1, and once it returned nothing more is sent to it. *)
Theorem request_result_own s p r :
  reach s → reqs s !! p = Some r →
  (taker r ≠ None → done r = []) ∧ (length (done r) ≤ 1)%nat ∧
  (∀ c, pc r = BReturn c →
     1 ≤ rseq r < 2 ^ 31 ∧ taker r = None ∧ done r = [] ∧
     match c with CResponse x => Seq x = rseq r | CFail _ => True end).
Proof.
  intros Hs Hr. apply trk_inv_reach in Hs. destruct (inv_req s Hs p r Hr) as [(H1&H2&H3&H4) _].
  unfold signals in *. split_and!.
  - destruct (taker r), (done r); simpl in *; done || lia.
  - rewrite length_app in H2. lia.
  - intros c Hc. unfold pc_ok, seq_ok, signals in H4. rewrite Hc in H4.
    destruct H4 as (_&Hn&?&?). apply app_nil in Hn as [Hn ?].
    split_and!; try done; try lia. by destruct (taker r).
Qed.

(** No request is left hanging by a shutdown: once [Fail] has returned,
    every request still waiting has its result in its channel, or a goroutine
    is about to put it there. *)
Theorem shutdown_ends_requests s p r :
  reach s → failing s = FDone → reqs s !! p = Some r →
  pc r = BWait ∨ pc r = BTimeout ∨ pc r = BDrain → signals r ≠ [].
Proof.
  intros Hs Hf Hr Hpc. apply trk_inv_reach in Hs.
  destruct (inv_req s Hs p r Hr) as [(_&_&_&H4) H5].
  unfold pc_ok, fail_ok, waiting in *. rewrite Hf in H5.
  destruct Hpc as [Hpc|[Hpc|Hpc]]; rewrite Hpc in *; tauto.
Qed.

(** [Begin] returns after at most one draw more than there are pending
    requests, with an unused sequence number in 1..2^31-1, as long as fewer
    than 2^31-1 requests are pending. *)
Theorem Begin_returns t p command body :
  Z.of_nat (size (pending t)) < 2 ^ 31 - 1 →
  ∃ t' seq, Begin t p command body = Some (t', request_message seq command body, seq) ∧
    1 ≤ seq < 2 ^ 31 ∧ pending t !! seq = None ∧ pending t' = <[seq := p]> (pending t).
Proof.
  intros Hsz. unfold Begin.
  destruct (Begin_loop _ t p command body) as [[[t' msg] sq]|] eqn:E.
  - apply Begin_loop_Some in E as (?&?&?&->). eauto 10.
  - pose proof (Begin_loop_None _ _ _ _ _ E) as Hall.
    apply (many_keys _ (nth_seq (counter t))) in Hall; [lia|].
    intros i j Hi Hj. apply nth_seq_inj; unfold max_seq; lia.
Qed.

(** [Fail] running alone empties the map and sends the error once to
    each request that was pending. *)
Theorem Fail_all t e :
  pending (Fail t e).1 = ∅ ∧
  (Fail t e).2 = (λ kp, (kp.2, CFail e)) <$> map_to_list (pending t).
Proof.
  apply Fail_range_spec; [apply NoDup_fst_map_to_list| |].
  - intros k p. apply elem_of_map_to_list.
  - intros k p. apply elem_of_map_to_list.
Qed.

(** ** Witnesses *)

Module TrackerExample.
Definition answer : Proto := mkProto OpResponse 1 0 7 [].
Definition returned : req := mkReq 1 (BReturn (CResponse answer)) [] None.
Definition waiter : req := mkReq 1 BWait [] (Some (CFail NetErrClosed)).
Definition t1 : Tracker := mkTracker 1 ∅.
Definition s_returned : sys := mkSys t1 {[ 0%nat := returned ]} false FIdle.
Definition s_closed : sys := mkSys t1 {[ 0%nat := waiter ]} true FDone.

Lemma reach_waiting :
  reachable init_sys step (mkSys (mkTracker 1 {[ 1 := 0%nat ]}) {[ 0%nat := mkReq 1 BWait [] None ]} false FIdle).
Proof.
  assert (H : reachable init_sys step (mkSys Tracker_zero ∅ false FIdle)) by by apply reach_init.
  reach_by H ltac:(left; exists 0%nat; eapply start).
  reach_by H ltac:(left; exists 0%nat; eapply draw).
  reach_by H ltac:(left; exists 0%nat; eapply store).
  reach_by H ltac:(left; exists 0%nat; eapply send_ok).
  exact H.
Qed.

Lemma reach_returned : reach s_returned.
Proof.
  pose proof reach_waiting as H.
  reach_by H ltac:(right; eapply (resolve _ answer)).
  reach_by H ltac:(right; eapply (deliver _ 0%nat)).
  reach_by H ltac:(left; exists 0%nat; eapply receive; [|left|]).
  exact H.
Qed.

Lemma reach_closed : reach s_closed.
Proof.
  pose proof reach_waiting as H.
  reach_by H ltac:(right; eapply close_done).
  reach_by H ltac:(right; eapply (fail_start _ NetErrClosed)).
  reach_by H ltac:(right; eapply (fail_visit _ _ _ 1 0%nat)).
  reach_by H ltac:(right; eapply fail_end; [|intros k p _; by vm_compute]).
  exact H.
Qed.

Lemma request_result_own_witness : taker returned = None ∧ Seq answer = rseq returned.
Proof.
  destruct (request_result_own s_returned 0 returned reach_returned eq_refl) as (_&_&H).
  by destruct (H (CResponse answer) eq_refl) as (_&?&_&?).
Defined.

Lemma shutdown_ends_requests_witness : signals waiter ≠ [].
Proof.
  apply (shutdown_ends_requests s_closed 0 waiter reach_closed eq_refl eq_refl). by left.
Defined.

Lemma Begin_returns_witness :
  ∃ t' seq, Begin Tracker_zero 4 9 [] = Some (t', request_message seq 9 [], seq).
Proof.
  destruct (Begin_returns Tracker_zero 4 9 []) as (t'&seq&?&_); [done|eauto].
Defined.
End TrackerExample.
