(* ===== verification/Codec.v ===== *)
(** * Frames of the TCP and WebSocket transports

    [network/tcp/codec.go], [network/websocket/codec.go] and
    [network/prepared.go].  The protobuf runtime and the codec value are
    parameters; [FramingLaws] states what their documentation promises. *)

From S2P Require Import Prelude Errors Proto Bufio.

(** An [encoding.Codec]; [builtin] tells whether its dynamic type is the
    package's own ([protoFrameCodec], [defaultFrameCodec]). *)
Record Codec := mkCodec {
  Marshal : Proto → result bytes;
  Unmarshal : bytes → result Proto;
  builtin : bool;
}.

(** [proto.Size] and [proto.MarshalOptions{}.MarshalAppend]. *)
Record Protobuf := mkProtobuf {
  proto_Size : Proto → Z;
  proto_MarshalAppend : bytes → Proto → result bytes;
}.

Definition int32_ok (z : Z) : Prop := - 2 ^ 31 ≤ z < 2 ^ 31.
Definition Proto_ok (p : Proto) : Prop :=
  int32_ok (Op p) ∧ int32_ok (Seq p) ∧ int32_ok (Code p) ∧ int32_ok (Cmd p).

Class FramingLaws (pb : Protobuf) (c : Codec) := {
  unmarshal_marshal p b : Proto_ok p → Marshal c p = Ok b → Unmarshal c b = Ok p;
  marshal_size p b : builtin c = true → Marshal c p = Ok b → proto_Size pb p = zlen b;
  marshal_append pre p : builtin c = true →
    proto_MarshalAppend pb pre p = (let* b := Marshal c p in Ok (pre ++ b));
}.

(** ** network/tcp/codec.go *)

Module Tcp.

Definition framePrefixSize : nat := 4.
Definition defaultIOBufferSize : nat := Z.to_nat MaxProtoSize + framePrefixSize.

Definition validateFrameSize (size : Z) : option error :=
  if size =? 0 then Some (ESentinel TcpErrFrameLength)
  else if MaxProtoSize <? size then Some (ESentinel ErrFrameTooLarge)
  else None.

Section Frames.
Context (pb : Protobuf) (codec : Codec).

Definition readFrame (rr : Reader) : Reader * result Proto :=
  match Peek framePrefixSize rr with
  | (rr, Err err) => (rr, Err err)
  | (rr, Ok prefix) =>
      let length := Uint32 prefix in
      match validateFrameSize length with
      | Some sizeErr => (rr, Err sizeErr)
      | None =>
          match Discard framePrefixSize rr with
          | (rr, Some err) => (rr, Err err)
          | (rr, None) =>
              match Peek (Z.to_nat length) rr with
              | (rr, Err err) => (rr, Err err)
              | (rr, Ok body) =>
                  match Unmarshal codec body with
                  | Err e => (rr, Err (EWrap "%w: %w" [ESentinel TcpErrInvalidFrame; e]))
                  | Ok p =>
                      match Discard (Z.to_nat length) rr with
                      | (rr, Some err) => (rr, Err err)
                      | (rr, None) => (rr, Ok p)
                      end
                  end
              end
          end
      end
  end.

Definition writeFrameAppend (wr : Writer) (p : Proto) : Writer * option error :=
  let length := proto_Size pb p in
  match validateFrameSize length with
  | Some err => (wr, Some err)
  | None =>
      match (if Z.of_nat (Available wr) <? Z.of_nat framePrefixSize + length
             then Flush wr else (wr, None)) with
      | (wr, Some err) => (wr, Some err)
      | (wr, None) =>
          match proto_MarshalAppend pb (le32 length) p with
          | Err err => (wr, Some err)
          | Ok frame => Write frame wr
          end
      end
  end.

Definition writeFrame (wr : Writer) (p : Proto) : Writer * option error :=
  if builtin codec then writeFrameAppend wr p
  else match Marshal codec p with
       | Err err => (wr, Some err)
       | Ok body =>
           match validateFrameSize (zlen body) with
           | Some err => (wr, Some err)
           | None =>
               match Write (le32 (u32 (zlen body))) wr with
               | (wr, Some err) => (wr, Some err)
               | (wr, None) => Write body wr
               end
           end
       end.

Definition validateFrame (p : Proto) : option error :=
  if builtin codec then validateFrameSize (proto_Size pb p)
  else match Marshal codec p with
       | Err err => Some err
       | Ok body => validateFrameSize (zlen body)
       end.

End Frames.
End Tcp.

(** ** network/websocket/codec.go *)

Module Ws.

Definition validateFrameBody (body : bytes) : option error :=
  if zlen body =? 0 then Some (ESentinel WsErrFrameLength)
  else if MaxProtoSize <? zlen body then Some (ESentinel ErrFrameTooLarge)
  else None.

Section Frames.
Context (codec : Codec).

(** A [nil] message is [None]; Go returns the body along with the error. *)
Definition marshalFrame (p : option Proto) : bytes * option error :=
  match p with
  | None => ([], Some (ESentinel ErrNilPayload))
  | Some p =>
      match Marshal codec p with
      | Err err => ([], Some err)
      | Ok body => (body, validateFrameBody body)
      end
  end.

Definition unmarshalFrame (body : bytes) : result Proto :=
  match validateFrameBody body with
  | Some err => Err err
  | None =>
      match Unmarshal codec body with
      | Err err => Err (EWrap "%w: %w" [ESentinel WsErrInvalidFrame; err])
      | Ok p => Ok p
      end
  end.

Definition canOptimizeFrames : bool := builtin codec.

End Frames.

(** An [io.Reader], by the pieces it has to give, with the error that comes
    with the last bytes of each; there may be no end of them, and they may be
    empty without an error.  One [Read] into a buffer of [n] bytes gives the
    next piece, cut to the buffer. *)
Abbreviation io_reader := (nat → bytes * option error).

Definition Read (n : nat) (src : io_reader) : bytes * option error * io_reader :=
  let '(piece, e) := src O in
  if decide (length piece ≤ n)%nat then (piece, e, λ i, src (S i))
  else (take n piece, None, λ i, match i with O => (drop n piece, e) | S _ => src i end).

(** [readBoundedFrame] into a buffer of [cap] bytes, of which those of [read]
    are filled; [None] when it has not returned after [fuel] rounds. *)
Fixpoint readBoundedFrame_loop (fuel cap : nat) (src : io_reader) (read : bytes)
  : option (result bytes) :=
  match fuel with
  | O => None
  | S fuel =>
      if decide (length read = cap)
      then match Read 1 src with
           | (_ :: _, _, _) => Some (Err ErrFrameTooLarge)
           | ([], Some err, _) =>
               if err_is (Some err) IoEOF then Some (Ok read) else Some (Err err)
           | ([], None, src) => readBoundedFrame_loop fuel cap src read
           end
      else match Read (cap - length read) src with
           | (got, Some err, _) =>
               if err_is (Some err) IoEOF then Some (Ok (read ++ got)) else Some (Err err)
           | (got, None, src) => readBoundedFrame_loop fuel cap src (read ++ got)
           end
  end.

Definition readBoundedFrame (fuel cap : nat) (src : io_reader) : option (result bytes) :=
  readBoundedFrame_loop fuel cap src [].

(** The reader of a message that ends: its pieces, then EOF. *)
Abbreviation pieces := (list (bytes * option error)).
Definition list_reader (l : pieces) : io_reader := λ i, default ([], Some (ESentinel IoEOF)) (l !! i).

End Ws.

(** ** network/prepared.go

    The shared view of a broadcast message: [once] guards the single call of
    [proto.Marshal], whose result is kept for all connections. *)

Module Prepared.

Record preparedState := mkPreparedState { body : bytes; err : option error }.

Record PreparedProto := mkPreparedProto {
  message : option Proto;
  state : option preparedState;
  once : bool;                            (* the sync.Once has run *)
}.
#[export] Instance eta_PreparedProto : Eta PreparedProto := λ p,
  mkPreparedProto (message p) (state p) (once p).

Definition Reset (m : option Proto) (p : PreparedProto) : PreparedProto :=
  mkPreparedProto m None false.

(** [None] is the nil receiver. *)
Definition Message (p : option PreparedProto) : option Proto :=
  match p with None => None | Some p => message p end.

Section Marshal.
Context (proto_Marshal : Proto → bytes * option error).

(** The receiver after the call, and the result. *)
Definition Marshal (p : option PreparedProto) : option PreparedProto * (bytes * option error) :=
  match p with
  | None => (p, ([], Some (ESentinel ErrInvalidPreparedProto)))
  | Some pp =>
      match message pp with
      | None => (p, ([], Some (ESentinel ErrInvalidPreparedProto)))
      | Some m =>
          let pp := if once pp then pp
                    else let '(b, e) := proto_Marshal m in
                         mkPreparedProto (message pp) (Some (mkPreparedState b e)) true in
          (Some pp, match state pp with Some st => (body st, err st) | None => ([], None) end)
      end
  end.
End Marshal.
End Prepared.

(** ** TCP frames: lemmas *)

Definition frame (b : bytes) : bytes := le32 (zlen b) ++ b.

Lemma validateFrameSize_None n :
  0 ≤ n → Tcp.validateFrameSize n = None ↔ 1 ≤ n ≤ MaxProtoSize.
Proof.
  intros Hn. unfold Tcp.validateFrameSize.
  destruct (Z.eqb_spec n 0), (Z.ltb_spec MaxProtoSize n); split; intros; simplify_eq; done || lia.
Qed.

Section TcpFrames.
Context (pb : Protobuf) (codec : Codec) {laws : FramingLaws pb codec}.

(** The two paths of the writer agree: an optimised frame is the generic one. *)
Lemma writeFrame_ok wr p b :
  writer_ok wr → Marshal codec p = Ok b → 1 ≤ zlen b ≤ MaxProtoSize →
  ∃ wr', Tcp.writeFrame pb codec wr p = (wr', None) ∧ took wr (frame b) wr'.
Proof.
  intros Hw Hm Hb. unfold Tcp.writeFrame, Tcp.writeFrameAppend.
  destruct (builtin codec) eqn:Hc.
  - rewrite (marshal_size p b Hc Hm), (marshal_append _ p Hc), Hm; cbn [bind].
    change (le32 (zlen b) ++ b) with (frame b).
    rewrite (proj2 (validateFrameSize_None (zlen b) ltac:(lia)) Hb).
    destruct (Z.of_nat (Available wr) <? _).
    + destruct (Flush_ok wr Hw) as (w1&->&H1&H2&H3&H4).
      destruct (Write_ok (frame b) w1 H1) as (w2&->&[? E ?]). exists w2. split; [done|].
      split; [done| |congruence]. by rewrite E, H2.
    + by apply Write_ok.
  - rewrite Hm, (proj2 (validateFrameSize_None (zlen b) ltac:(lia)) Hb).
    assert (Hu : u32 (zlen b) = zlen b) by (apply u32_small; change MaxProtoSize with 4096 in Hb; lia).
    rewrite Hu. destruct (Write_ok (le32 (zlen b)) wr Hw) as (w1&->&[H1 E1 S1]).
    destruct (Write_ok b w1 H1) as (w2&->&[H2 E2 S2]). exists w2. split; [done|].
    split; [done| |congruence]. unfold frame. by rewrite app_assoc, <-E1.
Qed.

Lemma readFrame_ok rr p b rest :
  reader_ok rr → r_err rr = None → (Z.to_nat MaxProtoSize ≤ r_size rr)%nat → Proto_ok p →
  Marshal codec p = Ok b → 1 ≤ zlen b ≤ MaxProtoSize → remaining rr = frame b ++ rest →
  ∃ rr', Tcp.readFrame codec rr = (rr', Ok p) ∧ remaining rr' = rest ∧ reader_ok rr' ∧
         r_err rr' = None ∧ r_size rr' = r_size rr ∧ r_fin rr' = r_fin rr.
Proof.
  intros Hr He Hsz Hp Hm Hb Hrem.
  assert (Hmax : MaxProtoSize = 4096) by done. rewrite Hmax in *.
  unfold Tcp.readFrame, Tcp.framePrefixSize.
  destruct (Peek_ok 4 rr Hr He) as (r1&->&A1&E1&L1); [lia|rewrite Hrem; simpl; lia|].
  assert (Hlen : Uint32 (take 4 (remaining rr)) = zlen b).
  { rewrite Hrem. unfold frame. rewrite <-app_assoc, take_app_length' by done.
    rewrite <-(app_nil_r (le32 _)). apply Uint32_le32. lia. }
  cbv zeta. rewrite !Hlen.
  rewrite (proj2 (validateFrameSize_None (zlen b) ltac:(lia)) ltac:(lia)).
  rewrite (Discard_ok 4 r1 (adv_ok _ _ A1) E1 L1).
  set (r2 := r1 <| r_buf := _ |>).
  assert (Hr2 : remaining r2 = b ++ rest).
  { pose proof (adv_remaining _ _ A1) as Ea. rewrite Hrem in Ea. unfold r2, remaining in *; simpl.
    rewrite <-(drop_app_le (r_buf r1) (concat (r_src r1)) 4) by done. by rewrite Ea. }
  assert (Ho2 : reader_ok r2).
  { destruct (adv_ok _ _ A1). split; simpl; [rewrite length_drop; lia|done]. }
  destruct (Peek_ok (Z.to_nat (zlen b)) r2 Ho2 E1) as (r3&->&A3&E3&L3).
  { unfold r2; simpl. rewrite (adv_size _ _ A1). lia. }
  { rewrite Hr2, length_app. lia. }
  rewrite Hr2, Nat2Z.id, take_app_length, (unmarshal_marshal p b Hp Hm).
  rewrite Nat2Z.id in L3. rewrite (Discard_ok _ r3 (adv_ok _ _ A3) E3 L3).
  eexists. split; [done|]. simpl.
  pose proof (adv_remaining _ _ A3) as Ea. rewrite Hr2 in Ea.
  split_and!; try done.
  - unfold remaining in *; simpl. rewrite <-(drop_app_le _ _ _ L3), Ea. apply drop_app_length.
  - destruct (adv_ok _ _ A3). split; simpl; [rewrite length_drop; lia|done].
  - by rewrite (adv_size _ _ A3), <-(adv_size _ _ A1).
  - by rewrite (adv_fin _ _ A3), <-(adv_fin _ _ A1).
Qed.

(** Writing and reading several frames. *)
Fixpoint write_all (wr : Writer) (ps : list Proto) : Writer * option error :=
  match ps with
  | [] => (wr, None)
  | p :: ps =>
      match Tcp.writeFrame pb codec wr p with
      | (wr, Some e) => (wr, Some e)
      | (wr, None) => write_all wr ps
      end
  end.

Fixpoint read_all (n : nat) (rr : Reader) : Reader * list (result Proto) :=
  match n with
  | O => (rr, [])
  | S n => let '(rr, m) := Tcp.readFrame codec rr in
           let '(rr, ms) := read_all n rr in (rr, m :: ms)
  end.

Definition sendable (p : Proto) : Prop :=
  Proto_ok p ∧ ∃ b, Marshal codec p = Ok b ∧ 1 ≤ zlen b ≤ MaxProtoSize.

Lemma write_all_ok ps wr :
  writer_ok wr → Forall sendable ps →
  ∃ wr' bs, write_all wr ps = (wr', None) ∧ took wr (concat (frame <$> bs)) wr' ∧
    Forall2 (λ p b, Marshal codec p = Ok b ∧ 1 ≤ zlen b ≤ MaxProtoSize) ps bs.
Proof.
  revert wr. induction ps as [|p ps IH]; intros wr Hw Hps; simpl.
  - exists wr, []. split_and!; [done| |constructor]. split; [done| |done]. by rewrite app_nil_r.
  - apply Forall_cons in Hps as [(Hp&b&Hm&Hb) Hps].
    destruct (writeFrame_ok wr p b Hw Hm Hb) as (w1&->&[H1 E1 S1]).
    destruct (IH w1 H1 Hps) as (w2&bs&->&[H2 E2 S2]&Hbs).
    exists w2, (b :: bs). split_and!; [done| |by constructor].
    split; [done| |congruence].
    change (concat (frame <$> b :: bs)) with (frame b ++ concat (frame <$> bs)).
    by rewrite E2, E1, app_assoc.
Qed.

Lemma read_all_ok ps bs rr rest :
  reader_ok rr → r_err rr = None → (Z.to_nat MaxProtoSize ≤ r_size rr)%nat →
  Forall Proto_ok ps → Forall2 (λ p b, Marshal codec p = Ok b ∧ 1 ≤ zlen b ≤ MaxProtoSize) ps bs →
  remaining rr = concat (frame <$> bs) ++ rest →
  ∃ rr', read_all (length ps) rr = (rr', Ok <$> ps) ∧ remaining rr' = rest ∧ reader_ok rr' ∧
         r_err rr' = None ∧ r_size rr' = r_size rr ∧ r_fin rr' = r_fin rr.
Proof.
  intros Hr He Hsz Hps Hbs. revert rr Hr He Hsz.
  induction Hbs as [|p b ps bs [Hm Hb] Hbs IH]; intros rr Hr He Hsz Hrem; simpl; [by exists rr|].
  apply Forall_cons in Hps as [Hp Hps]. 
  change (concat (frame <$> b :: bs)) with (frame b ++ concat (frame <$> bs)) in Hrem.
  rewrite <-app_assoc in Hrem.
  destruct (readFrame_ok rr p b _ Hr He Hsz Hp Hm Hb Hrem) as (r1&->&R1&O1&E1&S1&F1).
  destruct (IH Hps r1 O1 E1 ltac:(congruence) R1) as (r2&->&R2&O2&E2&S2&F2).
  rewrite S1, F1 in *. by exists r2.
Qed.

Lemma read_all_snoc n rr :
  (read_all (S n) rr).2 = (read_all n rr).2 ++ [(Tcp.readFrame codec (read_all n rr).1).2].
Proof.
  revert rr. induction n as [|n IH]; intros rr; cbn [read_all fst snd] in *;
    [by destruct (Tcp.readFrame codec rr)|].
  destruct (Tcp.readFrame codec rr) as [r1 m1]. specialize (IH r1).
  destruct (Tcp.readFrame codec r1) as [r2 m2].
  destruct (read_all n r2) as [r3 ms], (read_all n r1); cbn [fst snd] in *. by rewrite IH.
Qed.

Lemma readFrame_end rr :
  reader_ok rr → r_err rr = None → (4 ≤ r_size rr)%nat → remaining rr = [] →
  (Tcp.readFrame codec rr).2 = Err (r_fin rr).
Proof.
  intros Hr He Hsz Hn. unfold Tcp.readFrame, Tcp.framePrefixSize.
  destruct (Peek_short 4 rr Hr He Hsz) as (r1&->&_); [rewrite Hn; simpl; lia|]. done.
Qed.

Lemma writeFrame_reject wr p e :
  Tcp.validateFrame pb codec p = Some e → Tcp.writeFrame pb codec wr p = (wr, Some e).
Proof.
  unfold Tcp.validateFrame, Tcp.writeFrame, Tcp.writeFrameAppend.
  destruct (builtin codec); [by intros ->|].
  destruct (Marshal codec p); [|by intros [= ->]]. by intros ->.
Qed.
End TcpFrames.

(** ** WebSocket messages: lemmas *)

(** The bytes of a message reader and the error that ends them. *)
Fixpoint drain (src : Ws.pieces) : bytes * error :=
  match src with
  | [] => ([], ESentinel IoEOF)
  | (piece, Some e) :: _ => (piece, e)
  | (piece, None) :: rest => let '(b, e) := drain rest in (piece ++ b, e)
  end.

Definition bounded_result (cap : nat) (data : bytes) (e : error) : result bytes :=
  if decide (cap < length data)%nat then Err ErrFrameTooLarge
  else if err_is (Some e) IoEOF then Ok data else Err e.

Lemma bounded_big cap data e :
  (cap < length data)%nat → bounded_result cap data e = Err ErrFrameTooLarge.
Proof. intros. unfold bounded_result. by rewrite decide_True. Qed.

Lemma bounded_fits cap data e :
  (length data ≤ cap)%nat →
  Some (bounded_result cap data e) =
  (if err_is (Some e) IoEOF then Some (Ok data) else Some (Err e)).
Proof.
  intros. unfold bounded_result. rewrite decide_False by lia. by destruct (err_is _ _).
Qed.

(** The bytes of the first [k] pieces, and that no error comes with them. *)
Definition next (src : Ws.io_reader) : Ws.io_reader := λ i, src (S i).
Fixpoint data (src : Ws.io_reader) (k : nat) : bytes :=
  match k with O => [] | S k => (src O).1 ++ data (next src) k end.
Definition quiet (src : Ws.io_reader) (k : nat) : Prop := ∀ i, (i < k)%nat → (src i).2 = None.

Lemma quiet_next src k : quiet src (S k) → (src O).2 = None ∧ quiet (next src) k.
Proof. intros H. split; [apply H; lia|]. intros i Hi. apply (H (S i)). lia. Qed.

(** A piece that fits is taken in one round. *)
Lemma round_fits fuel cap src read :
  (length (read ++ (src O).1) ≤ cap)%nat →
  Ws.readBoundedFrame_loop (S fuel) cap src read =
  match (src O).2 with
  | Some e => Some (bounded_result cap (read ++ (src O).1) e)
  | None => Ws.readBoundedFrame_loop fuel cap (next src) (read ++ (src O).1)
  end.
Proof.
  rewrite length_app. simpl. unfold Ws.Read. destruct (src O) as [piece e] eqn:E0; simpl. intros Hl.
  case_decide as Hc.
  - destruct piece; simpl in *; [|lia]. rewrite app_nil_r. destruct e; [|done]. by rewrite bounded_fits by lia.
  - rewrite decide_True by lia. destruct e; [|done]. by rewrite bounded_fits by (rewrite length_app; lia).
Qed.

(** One that does not is refused in two rounds. *)
Lemma round_big fuel cap src read :
  (length read ≤ cap)%nat → (cap < length (read ++ (src O).1))%nat →
  Ws.readBoundedFrame_loop (S (S fuel)) cap src read = Some (Err ErrFrameTooLarge).
Proof.
  rewrite length_app. intros Hr Hl.
  assert (Hfull : ∀ f x piece e r, length r = cap → x O = (piece, e) → piece ≠ [] →
            Ws.readBoundedFrame_loop (S f) cap x r = Some (Err ErrFrameTooLarge)).
  { intros f x piece e r Hc Hx Hp. simpl. rewrite decide_True by done. unfold Ws.Read. rewrite Hx.
    destruct piece as [|a [|b piece]]; done. }
  destruct (src O) as [piece e] eqn:E0; simpl in Hl. destruct (decide (length read = cap)) as [Hc|Hc].
  - apply (Hfull _ _ piece e); [done..|]. intros ->. simpl in Hl. lia.
  - assert (E : Ws.readBoundedFrame_loop (S (S fuel)) cap src read =
      Ws.readBoundedFrame_loop (S fuel) cap
        (λ i, match i with O => (drop (cap - length read) piece, e) | S _ => src i end) (read ++ take (cap - length read) piece)).
    { remember (S fuel) as f. simpl. rewrite decide_False by done. unfold Ws.Read. by rewrite E0, decide_False by lia. }
    rewrite E. eapply Hfull; [rewrite length_app, length_take; lia|done|].
    intros H%(f_equal length). rewrite length_drop in H. simpl in H. lia.
Qed.

Lemma readBoundedFrame_ends k fuel cap src read e :
  (length read ≤ cap)%nat → quiet src k → (src k).2 = Some e → (k + 2 ≤ fuel)%nat →
  Ws.readBoundedFrame_loop fuel cap src read = Some (bounded_result cap (read ++ data src (S k)) e).
Proof.
  revert fuel src read. induction k as [|k IH]; intros fuel src read Hr Hq He Hf; (destruct fuel as [|[|fuel]]; [lia..|]).
  all: destruct (decide (length (read ++ (src O).1) ≤ cap)%nat) as [Hl|Hl];
    [rewrite round_fits by done
    |rewrite round_big, bounded_big by (rewrite ?app_assoc, ?length_app in *; simpl; rewrite ?length_app; lia); done].
  - rewrite He. simpl. by rewrite app_nil_r.
  - apply quiet_next in Hq as [H0 Hq]. rewrite H0, (IH _ (next src)); [|done..|lia]. simpl. by rewrite <-app_assoc.
Qed.

Lemma readBoundedFrame_overflows k fuel cap src read :
  (length read ≤ cap)%nat → quiet src k → (cap < length (read ++ data src k))%nat → (k + 2 ≤ fuel)%nat →
  Ws.readBoundedFrame_loop fuel cap src read = Some (Err ErrFrameTooLarge).
Proof.
  revert fuel src read. induction k as [|k IH]; intros fuel src read Hr Hq Hb Hf.
  { simpl in Hb. rewrite app_nil_r in Hb. lia. }
  destruct fuel as [|[|fuel]]; [lia..|].
  destruct (decide (length (read ++ (src O).1) ≤ cap)%nat) as [Hl|Hl]; [|by apply round_big; [|lia]].
  apply quiet_next in Hq as [H0 Hq]. rewrite round_fits, H0 by done. apply IH; [done..| |lia].
  simpl in Hb. by rewrite <-app_assoc.
Qed.

Lemma readBoundedFrame_spins fuel cap src read :
  (∀ k, quiet src k) → (∀ k, length (read ++ data src k) ≤ cap)%nat →
  Ws.readBoundedFrame_loop fuel cap src read = None.
Proof.
  revert src read. induction fuel as [|fuel IH]; intros src read Hq Hl; [done|].
  destruct (quiet_next src 0 (Hq 1%nat)) as [H0 _]. pose proof (Hl 1%nat) as H1. simpl in H1. rewrite app_nil_r in H1.
  rewrite round_fits, H0 by done. apply IH.
  - intros k. by apply quiet_next.
  - intros k. specialize (Hl (S k)). simpl in Hl. by rewrite <-app_assoc.
Qed.

(** A reader that ends. *)
Lemma drain_reader l :
  ∃ k, (k ≤ length l)%nat ∧ quiet (Ws.list_reader l) k ∧ (Ws.list_reader l k).2 = Some (drain l).2 ∧
       data (Ws.list_reader l) (S k) = (drain l).1.
Proof.
  induction l as [|[piece [e|]] l (k & Hk & Hq & He & Hd)].
  - exists O. split_and!; [simpl; lia|intros i Hi; lia|done..].
  - exists O. split_and!; [simpl; lia|intros i Hi; lia|done|]. simpl. by rewrite app_nil_r.
  - exists (S k). cbn [drain]. destruct (drain l) as [b e]. cbn [fst snd] in *. split_and!; [cbn; lia| |exact He|].
    2: { rewrite <-Hd. done. }
    intros [|i] Hi; [done|]. apply Hq. lia.
Qed.

Lemma readBoundedFrame_list cap l fuel :
  (length l + 2 ≤ fuel)%nat →
  Ws.readBoundedFrame fuel cap (Ws.list_reader l) = Some (bounded_result cap (drain l).1 (drain l).2).
Proof.
  intros Hf. destruct (drain_reader l) as (k & Hk & Hq & He & Hd). rewrite <-Hd.
  apply (readBoundedFrame_ends k); [simpl; lia|done..|lia].
Qed.

(** ** Properties *)

(** TCP framing round trip: messages the codec encodes to 1..4096 bytes
    are read back in order and unchanged by a reader of at least 4096 bytes,
    however the connection cuts the stream and whatever the writer's buffer;
    the read after the last frame returns the connection's error. *)
Theorem tcp_frames_roundtrip pb codec (laws : FramingLaws pb codec) fail fin wsize rsize ps pieces :
  Forall (sendable codec) ps → (Z.to_nat MaxProtoSize ≤ rsize)%nat →
  Forall (λ piece, piece ≠ []) pieces →
  let w := write_all pb codec (NewWriterSize None fail wsize) ps in
  concat pieces = w_out (Flush w.1).1 →
  w.2 = None ∧ (Flush w.1).2 = None ∧
  (read_all codec (S (length ps)) (NewReaderSize pieces fin rsize)).2 = (Ok <$> ps) ++ [Err fin].
Proof.
  intros Hps Hsz Hne w Hout.
  assert (Hw : writer_ok (NewWriterSize None fail wsize)) by (split; simpl; done || lia).
  destruct (write_all_ok pb codec ps _ Hw Hps) as (w'&bs&Ew&[Hok Hwr Hs]&Hbs).
  unfold w in *. rewrite Ew in *. cbn [fst snd] in Hout |- *.
  destruct (Flush_ok w' Hok) as (w2&Ef&_&Hwr2&Hn&_). rewrite Ef in *. cbn [fst snd] in Hout |- *.
  split_and!; [done..|]. unfold written in Hwr, Hwr2. rewrite Hn, app_nil_r in Hwr2.
  rewrite Hwr2, Hwr in Hout. simpl in Hout.
  assert (Hr : reader_ok (NewReaderSize pieces fin rsize)) by (split; simpl; done || lia).
  assert (Hpo : Forall Proto_ok ps) by (eapply Forall_impl; [exact Hps|]; by intros ? []).
  destruct (read_all_ok pb codec ps bs _ [] Hr eq_refl Hsz Hpo Hbs) as (r1&Er&R1&O1&E1&S1&F1).
  { unfold remaining; simpl. by rewrite app_nil_r. }
  rewrite read_all_snoc, Er. simpl.
  rewrite readFrame_end, F1; auto. rewrite S1; simpl. change MaxProtoSize with 4096 in Hsz. lia.
Qed.

(** A message is either refused before a byte of it is written, with the
    error [validateFrame] reports, or its frame is written whole: a message
    accepted by [validateFrame] is not refused by the writer. *)
Theorem tcp_frame_whole_or_refused pb codec (laws : FramingLaws pb codec) wr p :
  writer_ok wr → (∃ b, Marshal codec p = Ok b) →
  match Tcp.validateFrame pb codec p with
  | Some e => Tcp.writeFrame pb codec wr p = (wr, Some e)
  | None => ∃ b wr', Marshal codec p = Ok b ∧ 1 ≤ zlen b ≤ MaxProtoSize ∧
                     Tcp.writeFrame pb codec wr p = (wr', None) ∧
                     written wr' = written wr ++ le32 (zlen b) ++ b
  end.
Proof.
  intros Hw [b Hm]. destruct (Tcp.validateFrame pb codec p) eqn:Hv.
  - by apply writeFrame_reject.
  - assert (Hb : 1 ≤ zlen b ≤ MaxProtoSize).
    { apply validateFrameSize_None; [lia|]. rewrite <-Hv. unfold Tcp.validateFrame.
      destruct (builtin codec) eqn:Hc; [by rewrite (marshal_size p b Hc Hm)|by rewrite Hm]. }
    destruct (writeFrame_ok pb codec wr p b Hw Hm Hb) as (wr'&?&[? ? ?]). exists b, wr'. auto.
Qed.

(** A frame whose length prefix is zero or above 4096 is refused on its
    prefix alone, and no byte of the stream is consumed. *)
Theorem tcp_bad_length_refused codec rr n rest :
  reader_ok rr → r_err rr = None → (4 ≤ r_size rr)%nat →
  0 ≤ n < 2 ^ 32 → remaining rr = le32 n ++ rest → n = 0 ∨ MaxProtoSize < n →
  ∃ rr', Tcp.readFrame codec rr =
    (rr', Err (ESentinel (if decide (n = 0) then TcpErrFrameLength else ErrFrameTooLarge))) ∧
    remaining rr' = remaining rr.
Proof.
  intros Hr He Hsz Hn Hrem Hbad. unfold Tcp.readFrame, Tcp.framePrefixSize.
  destruct (Peek_ok 4 rr Hr He Hsz) as (r1&->&A1&_); [rewrite Hrem; simpl; lia|].
  exists r1. split; [|apply A1]. rewrite Hrem, take_app_length' by done.
  rewrite <-(app_nil_r (le32 _)), Uint32_le32 by lia. unfold Tcp.validateFrameSize.
  destruct (Z.eqb_spec n 0); [by rewrite decide_True|].
  destruct (Z.ltb_spec MaxProtoSize n); [by rewrite decide_False|lia].
Qed.

(** C36: [readBoundedFrame] returns exactly for the readers that end or have
    more bytes than the buffer, and with what it should: the whole message when
    it fits and ends with EOF, the reader's error when it ends otherwise,
    [ErrFrameTooLarge] when it does not fit, after at most two rounds more than
    the pieces it takes; on a reader that gives no more than the buffer holds
    and never an error, as [io.Reader] allows, it never returns. *)
Theorem readBoundedFrame_exact cap src :
  (∀ k e fuel, quiet src k → (src k).2 = Some e → (k + 2 ≤ fuel)%nat →
     Ws.readBoundedFrame fuel cap src = Some (bounded_result cap (data src (S k)) e)) ∧
  (∀ k fuel, quiet src k → (cap < length (data src k))%nat → (k + 2 ≤ fuel)%nat →
     Ws.readBoundedFrame fuel cap src = Some (Err ErrFrameTooLarge)) ∧
  ((∀ k, quiet src k) → (∀ k, length (data src k) ≤ cap)%nat →
     ∀ fuel, Ws.readBoundedFrame fuel cap src = None).
Proof.
  split_and!.
  - intros k e fuel. apply (readBoundedFrame_ends k fuel cap src []). simpl. lia.
  - intros k fuel. apply (readBoundedFrame_overflows k fuel cap src []). simpl. lia.
  - intros Hq Hl fuel. by apply (readBoundedFrame_spins fuel cap src []).
Qed.

(** WebSocket frames round trip, and a frame [marshalFrame] accepts is
    never refused by [unmarshalFrame]. *)
Theorem ws_frame_roundtrip pb codec (laws : FramingLaws pb codec) p body :
  Proto_ok p → Ws.marshalFrame codec (Some p) = (body, None) →
  Ws.unmarshalFrame codec body = Ok p ∧ 1 ≤ zlen body ≤ MaxProtoSize.
Proof.
  intros Hp. unfold Ws.marshalFrame, Ws.unmarshalFrame.
  destruct (Marshal codec p) as [b|] eqn:Hm; [|done]. intros [= <- Hv].
  rewrite Hv, (unmarshal_marshal p b Hp Hm). split; [done|].
  unfold Ws.validateFrameBody in Hv.
  destruct (Z.eqb_spec (zlen b) 0), (Z.ltb_spec MaxProtoSize (zlen b)); try done. lia.
Qed.

(** After [Reset] to a message every call of [Marshal] returns the result
    of one encoding of that message, taken at the first call. *)
Theorem prepared_marshal_shared enc1 enc2 m pp :
  let p1 := Prepared.Marshal enc1 (Some (Prepared.Reset (Some m) pp)) in
  p1.2 = enc1 m ∧ Prepared.Marshal enc2 p1.1 = p1 ∧ Prepared.Message p1.1 = Some m.
Proof. simpl. by destruct (enc1 m). Qed.

(** ** Witnesses

    A fixed-width encoding satisfies the laws the framing relies on. *)

Module CodecExample.

Definition enc (p : Proto) : bytes :=
  le32 (u32 (Op p)) ++ le32 (u32 (Seq p)) ++ le32 (u32 (Code p)) ++ le32 (u32 (Cmd p)) ++ Body p.

Definition dec (b : bytes) : result Proto :=
  if decide (length b < 16)%nat then Err (EText "short")
  else Ok (mkProto (i32 (Uint32 b)) (i32 (Uint32 (drop 4 b))) (i32 (Uint32 (drop 8 b)))
                   (i32 (Uint32 (drop 12 b))) (drop 16 b)).

Definition fixed (builtin : bool) : Codec := mkCodec (λ p, Ok (enc p)) dec builtin.
Definition fixed_pb : Protobuf := mkProtobuf (λ p, zlen (enc p)) (λ pre p, Ok (pre ++ enc p)).

Lemma i32_u32 z : int32_ok z → i32 (u32 z) = z.
Proof. unfold int32_ok, i32, u32. intros H. Z.to_euclidean_division_equations. lia. Qed.

Lemma dec_enc p : Proto_ok p → dec (enc p) = Ok p.
Proof.
  intros (H1&H2&H3&H4). unfold dec. rewrite decide_False by (unfold enc; simpl; lia).
  change (drop 4 (enc p)) with
    (le32 (u32 (Seq p)) ++ le32 (u32 (Code p)) ++ le32 (u32 (Cmd p)) ++ Body p).
  change (drop 8 (enc p)) with (le32 (u32 (Code p)) ++ le32 (u32 (Cmd p)) ++ Body p).
  change (drop 12 (enc p)) with (le32 (u32 (Cmd p)) ++ Body p).
  change (drop 16 (enc p)) with (Body p). unfold enc.
  rewrite !Uint32_le32 by apply u32_range. rewrite !i32_u32 by done. by destruct p.
Qed.

#[export] Instance fixed_laws b : FramingLaws fixed_pb (fixed b).
Proof.
  split; simpl.
  - intros p b' Hp [= <-]. by apply dec_enc.
  - intros p b' _ [= <-]. done.
  - done.
Qed.

Definition hello : Proto := mkProto OpRequest 1 0 7 [Byte.x68; Byte.x69].

(** A reader that never gives anything, and one whose message ends. *)
Definition stalled : Ws.io_reader := λ _, ([], None).
Definition ending : Ws.io_reader := Ws.list_reader [([Byte.x01], None); ([], None); ([Byte.x02], Some (ESentinel IoEOF))].

Lemma readBoundedFrame_exact_witness :
  Ws.readBoundedFrame 9 4 ending = Some (Ok [Byte.x01; Byte.x02]) ∧ ∀ fuel, Ws.readBoundedFrame fuel 4 stalled = None.
Proof.
  split.
  - apply (proj1 (readBoundedFrame_exact 4 ending) 2%nat (ESentinel IoEOF) 9%nat); [|done|lia].
    intros [|[|i]] Hi; done || lia.
  - apply (proj2 (proj2 (readBoundedFrame_exact 4 stalled))); [done|].
    intros k. assert (E : data stalled k = []) by (induction k as [|k IH]; [done|exact IH]). rewrite E. simpl. lia.
Defined.
Definition bye : Proto := mkProto OpPush 0 0 (-3) [].

Lemma Proto_ok_hello : Proto_ok hello. Proof. repeat split; by vm_compute. Qed.

Lemma sendable_both b : Forall (sendable (fixed b)) [hello; bye].
Proof.
  repeat constructor; try (by vm_compute); by (eexists; split; [reflexivity|by vm_compute]).
Qed.

(** The stream of the two frames, cut after every third byte. *)
Fixpoint cut (fuel : nat) (l : bytes) : list bytes :=
  match fuel, l with
  | S fuel, _ :: _ => take 3 l :: cut fuel (drop 3 l)
  | _, _ => []
  end.
Definition stream : bytes :=
  w_out (Flush (write_all fixed_pb (fixed true) (NewWriterSize None NetErrClosed 8) [hello; bye]).1).1.

Lemma tcp_frames_roundtrip_witness :
  (read_all (fixed true) 3 (NewReaderSize (cut 100 stream) IoEOF Tcp.defaultIOBufferSize)).2
  = [Ok hello; Ok bye; Err (ESentinel IoEOF)].
Proof.
  apply (tcp_frames_roundtrip fixed_pb (fixed true) (fixed_laws true) NetErrClosed IoEOF 8
           Tcp.defaultIOBufferSize [hello; bye] (cut 100 stream)).
  - apply sendable_both.
  - apply Nat.leb_le. by vm_compute.
  - vm_compute. repeat constructor; discriminate.
  - by vm_compute.
Defined.

Definition wr0 : Writer := NewWriterSize None NetErrClosed 16.

Lemma tcp_frame_whole_or_refused_witness :
  ∃ wr', Tcp.writeFrame fixed_pb (fixed false) wr0 hello = (wr', None).
Proof.
  destruct (tcp_frame_whole_or_refused fixed_pb (fixed false) (fixed_laws false) wr0 hello)
    as (b&wr'&_&_&H&_).
  - split; simpl; done || lia.
  - by eexists.
  - by exists wr'.
Defined.

Definition bad_reader : Reader := NewReaderSize [le32 5000 ++ [Byte.x01]] IoEOF Tcp.defaultIOBufferSize.

Lemma tcp_bad_length_refused_witness :
  ∃ rr', Tcp.readFrame (fixed true) bad_reader = (rr', Err ErrFrameTooLarge).
Proof.
  destruct (tcp_bad_length_refused (fixed true) bad_reader 5000 [Byte.x01]) as (rr'&H&_).
  - split; simpl; [lia|by repeat constructor].
  - done.
  - apply Nat.leb_le. by vm_compute.
  - lia.
  - done.
  - by right.
  - by exists rr'.
Defined.

Lemma ws_frame_roundtrip_witness : Ws.unmarshalFrame (fixed true) (enc hello) = Ok hello.
Proof.
  apply (ws_frame_roundtrip fixed_pb (fixed true) (fixed_laws true) hello (enc hello)).
  - apply Proto_ok_hello.
  - by vm_compute.
Defined.
End CodecExample.
