(* ===== verification/Inbound.v ===== *)
(** * Inbound messages of one connection

    [network/internal/inbound/dispatcher.go], [network/invoke.go],
    [network/internal/auth/reply.go] and [network/auth_io.go]: the
    authentication barrier, the bounded FIFO of business messages with its
    single worker, and the two ends of the handler call. *)

From S2P Require Import Prelude Errors Proto.

(** ** network/invoke.go *)

Module Invoke.

(** Values of type [any] a middleware may pass or return. *)
Inductive any := AProto (p : Proto) | ANilProto | AOther.

Abbreviation handler := (Ctx.t → any → result any).

Section Invoker.
Context (Chain : handler → handler)                         (* middleware.Chain(middlewares...) *)
        (Handle : Ctx.t → Proto → result (option Proto))    (* handler.Handle *)
        (Heartbeat : option (Ctx.t → option error))         (* handler.(HeartbeatHandler) *)
        (timeout now : Z).

(** The innermost handler of the chain. *)
Definition inner : handler := λ ctx req,
  match req with
  | ANilProto | AOther => Err ErrInvalidHandlerReply
  | AProto message =>
      match Heartbeat with
      | Some beat =>
          if Op message =? OpHeartbeat
          then match beat ctx with
               | Some err => Err err
               | None => Ok (AProto (message <| Op := OpHeartbeatReply |> <| Body := [] |>))
               end
          else let* r := Handle ctx message in
               Ok (match r with Some p => AProto p | None => ANilProto end)
      | None => let* r := Handle ctx message in
                Ok (match r with Some p => AProto p | None => ANilProto end)
      end
  end.

(** The invoker [NewInvoker] returns, called at time [now]. *)
Definition NewInvoker (ctx : Ctx.t) (message : Proto) : result Proto :=
  let ctx := if 0 <? timeout then Ctx.WithTimeout ctx now timeout else ctx in
  let* reply := Chain inner ctx (AProto message) in
  match reply with
  | AProto p => Ok p
  | ANilProto | AOther => Err ErrInvalidHandlerReply
  end.
End Invoker.
End Invoke.

(** ** network/internal/auth/reply.go *)

Module Auth.

(** [ReadReply]: [reads] are the results of the successive calls of [read];
    [None] when they are used up before the loop ends. *)
Fixpoint ReadReply_loop (transport : string) (rejected : error) (limit : Z)
    (reads : list (result Proto)) (pending : list Proto) : option (result (list Proto)) :=
  match reads with
  | [] => None
  | Err err :: _ => Some (Err err)
  | Ok reply :: reads =>
      if Op reply =? OpPush
      then if limit <=? zlen pending
           then Some (Err (EText (transport +:+ ": too many pushes before authentication reply")))
           else ReadReply_loop transport rejected limit reads (pending ++ [reply])
      else if negb (Op reply =? OpAuthReply)
      then Some (Err (EText (transport +:+ ": invalid authentication response")))
      else if negb (Code reply =? 0)
      then Some (Err (EWrap "%w: code=%d" [rejected]))
      else Some (Ok pending)
  end.

Definition ReadReply (transport : string) (rejected : error) (limit : Z)
    (reads : list (result Proto)) : option (result (list Proto)) :=
  ReadReply_loop transport rejected limit reads [].

(** [network.AuthenticationIOError] at time [now]. *)
Definition AuthenticationIOError (ctx : Ctx.t) (now : Z) (err : error) : error :=
  match Ctx.Err ctx now with
  | Some cause => cause
  | None => if net_timeout err then ESentinel CtxDeadlineExceeded else err
  end.

End Auth.

(** ** network/internal/inbound/dispatcher.go *)

Module Dispatcher.

(** The read loop, which alone calls [Handle] and [Stop]. *)
Inductive reader :=
| RIdle
| RInvoke (m : Proto)                       (* unauthenticated: invoke in the read loop *)
| RReply (reply : Proto)                    (* unauthenticated: before SendProto *)
| RBeat (m : Proto)                         (* deliver of a heartbeat: invoke *)
| RBeatReply (reply : Proto)                (* deliver of a heartbeat: before SendProto *)
| RFailed (e : error)                       (* Handle returned an error *)
| RStopping                                 (* in Stop, after cancel *)
| RStopped.

(** The business goroutine [run]. *)
Inductive worker :=
| WNone
| WSelect
| WTaken (m : Proto)                        (* received, before the ctx check *)
| WInvoke (m : Proto)
| WReply (reply : Proto)
| WExited.

Record Dispatcher := mkDispatcher {
  canceled : bool;
  capacity : nat;
  requests : option (list Proto);
  rd : reader;
  wk : worker;
  conn_closed : bool;
  (* ghost *)
  accepted : list Proto;                    (* messages put in the queue, in order *)
  begun : list Proto;                       (* messages the worker invoked, in order *)
  auth_sent : bool;                         (* a successful OpAuthReply was sent *)
}.
#[export] Instance eta_Dispatcher : Eta Dispatcher := λ d,
  mkDispatcher (canceled d) (capacity d) (requests d) (rd d) (wk d) (conn_closed d)
               (accepted d) (begun d) (auth_sent d).

Definition New (capacity : nat) : Dispatcher :=
  mkDispatcher false capacity None RIdle WNone false [] [] false.

Definition authenticated (reply : Proto) : bool := (Op reply =? OpAuthReply) && (Code reply =? 0).

(** [Handle] up to its first blocking call. *)
Definition Handle (ctxErr : error) (message : Proto) (d : Dispatcher) : Dispatcher :=
  if canceled d then d <| rd := RFailed ctxErr |>
  else match requests d with
       | None => d <| rd := RInvoke message |>
       | Some q =>
           if Op message =? OpHeartbeat then d <| rd := RBeat message |>
           else if (length q <? capacity d)%nat
           then d <| requests := Some (q ++ [message]) |> <| accepted := accepted d ++ [message] |>
           else d <| rd := RFailed ErrRequestQueueFull |>
       end.

(** [Handle] after the synchronous invoke returned [r]. *)
Definition Handle_invoked (r : result Proto) (d : Dispatcher) : Dispatcher :=
  match r with
  | Err e => d <| rd := RFailed e |>
  | Ok reply => d <| rd := RReply reply |>
  end.

(** [Handle] after [SendProto] of the reply returned [sent]. *)
Definition Handle_sent (reply : Proto) (sent : option error) (d : Dispatcher) : Dispatcher :=
  match sent with
  | Some e => d <| rd := RFailed e |>
  | None =>
      if authenticated reply
      then d <| requests := Some [] |> <| wk := WSelect |> <| auth_sent := true |> <| rd := RIdle |>
      else d <| rd := RIdle |>
  end.

(** [deliver] of a heartbeat in the read loop. *)
Definition deliver_invoked (r : result Proto) (d : Dispatcher) : Dispatcher :=
  match r with
  | Err e => d <| rd := RFailed e |>
  | Ok reply => d <| rd := RBeatReply reply |>
  end.
Definition deliver_sent (sent : option error) (d : Dispatcher) : Dispatcher :=
  match sent with
  | Some e => d <| rd := RFailed e |>
  | None => d <| rd := RIdle |>
  end.

(** [Stop]: the cancellation, then the wait for [done]. *)
Definition Stop (d : Dispatcher) : Dispatcher := d <| canceled := true |> <| rd := RStopping |>.
Definition Stop_waited (d : Dispatcher) : option Dispatcher :=
  match wk d with
  | WNone | WExited => Some (d <| requests := None |> <| rd := RStopped |>)
  | _ => None
  end.

(** [run]: a message received from the queue. *)
Definition run_receive (d : Dispatcher) : option Dispatcher :=
  match wk d, requests d with
  | WSelect, Some (m :: q) => Some (d <| requests := Some q |> <| wk := WTaken m |>)
  | _, _ => None
  end.

(** [run]: the check after the receive. *)
Definition run_check (m : Proto) (d : Dispatcher) : Dispatcher :=
  if canceled d then d <| wk := WExited |>
  else d <| wk := WInvoke m |> <| begun := begun d ++ [m] |>.

(** [run]: a failed or panicking delivery cancels and closes the connection. *)
Definition run_failed (d : Dispatcher) : Dispatcher :=
  d <| canceled := true |> <| conn_closed := true |> <| wk := WExited |>.

Inductive reader_step : Dispatcher → Dispatcher → Prop :=
| s_handle d e m : rd d = RIdle → reader_step d (Handle e m d)
| s_invoked d m r : rd d = RInvoke m → reader_step d (Handle_invoked r d)
| s_sent d reply sent : rd d = RReply reply → reader_step d (Handle_sent reply sent d)
| s_beat d m r : rd d = RBeat m → reader_step d (deliver_invoked r d)
| s_beat_sent d reply sent : rd d = RBeatReply reply → reader_step d (deliver_sent sent d)
| s_stop d : rd d = RIdle ∨ (∃ e, rd d = RFailed e) → reader_step d (Stop d)
| s_stop_waited d d' : rd d = RStopping → Stop_waited d = Some d' → reader_step d d'.

Inductive worker_step : Dispatcher → Dispatcher → Prop :=
| s_run_done d : wk d = WSelect → canceled d = true → worker_step d (d <| wk := WExited |>)
| s_run_receive d d' : run_receive d = Some d' → worker_step d d'
| s_run_check d m : wk d = WTaken m → worker_step d (run_check m d)
| s_run_invoked d m reply : wk d = WInvoke m → worker_step d (d <| wk := WReply reply |>)
| s_run_sent d reply : wk d = WReply reply → worker_step d (d <| wk := WSelect |>)
| s_run_failed d : (∃ m, wk d = WInvoke m) ∨ (∃ r, wk d = WReply r) → worker_step d (run_failed d).

(** The parent context may be canceled at any time. *)
Definition step (d d' : Dispatcher) : Prop :=
  reader_step d d' ∨ worker_step d d' ∨ d' = d <| canceled := true |>.

Definition init (cap : nat) (d : Dispatcher) : Prop := d = New cap.
Definition reach (cap : nat) : Dispatcher → Prop := reachable (init cap) step.

(** *** Invariant *)

Definition queue (d : Dispatcher) : list Proto := default [] (requests d).
Definition taken (d : Dispatcher) : list Proto := match wk d with WTaken m => [m] | _ => [] end.

Record inv (cap : nat) (d : Dispatcher) : Prop := mkInv {
  i_cap : capacity d = cap;
  i_bound : (length (queue d) ≤ cap)%nat;
  (* nothing is reordered or duplicated; what an exiting worker drops comes after all it began *)
  i_order : ∃ dropped, accepted d = begun d ++ taken d ++ dropped ++ queue d ∧
              (dropped = [] ∨ wk d = WExited) ;
  (* the queue, the worker and the successful authentication exist together *)
  i_auth : match wk d with
           | WNone => auth_sent d = false ∧ requests d = None ∧ accepted d = []
           | _ => auth_sent d = true ∧ (is_Some (requests d) ∨ rd d = RStopped)
           end;
  i_sync : auth_sent d = true → match rd d with RInvoke _ | RReply _ => False | _ => True end;
  i_stopped : rd d = RStopped → (wk d = WNone ∨ wk d = WExited) ∧ canceled d = true;
  i_stopping : rd d = RStopping → canceled d = true;
}.

(** Steps of the read loop that only move its program counter. *)
Lemma disp_inv_set_rd cap d r :
  inv cap d → rd d ≠ RStopped → r ≠ RStopped → (r = RStopping → canceled d = true) →
  (match r with RInvoke _ | RReply _ => auth_sent d = false | _ => True end) →
  inv cap (d <| rd := r |>).
Proof.
  intros [H1 H2 H3 H4 H5 H6 H7] Hne Hr Hs Ha. split; simpl; try done.
  - destruct (wk d); intuition.
  - intros E. destruct r; congruence || done.
Qed.

Lemma disp_inv_handle cap d e m : inv cap d → rd d = RIdle → inv cap (Handle e m d).
Proof.
  intros Hi Hr. unfold Handle.
  destruct (canceled d) eqn:Hc; [by apply disp_inv_set_rd; try done; rewrite Hr|].
  destruct (requests d) as [q|] eqn:Eq.
  - destruct (Op m =? OpHeartbeat); [by apply disp_inv_set_rd; try done; rewrite Hr|].
    destruct (Nat.ltb_spec (length q) (capacity d)); [|by apply disp_inv_set_rd; try done; rewrite Hr].
    destruct Hi as [H1 H2 (dr&H3&H3') H4 H5 H6 H7].
    split; unfold queue, taken in *; simpl in *; try done; rewrite ?Eq in *; simpl in *.
    + rewrite length_app; simpl. lia.
    + exists dr. split; [|done]. rewrite H3, !app_assoc. done.
    + destruct (wk d); [by destruct H4 as (_&?&_)|..]; intuition eauto.
  - apply disp_inv_set_rd; try done; [by rewrite Hr|]. destruct Hi as [_ _ _ H4 _ _ _].
    destruct (wk d); [by destruct H4|..].
    all: destruct H4 as [_ [[]|]]; congruence.
Qed.

Lemma disp_inv_sent cap d reply sent :
  inv cap d → rd d = RReply reply → inv cap (Handle_sent reply sent d).
Proof.
  intros Hi Hr. unfold Handle_sent.
  assert (Ha : auth_sent d = false).
  { destruct Hi as [_ _ _ _ H5 _ _]. rewrite Hr in H5. destruct (auth_sent d); naive_solver. }
  destruct sent; [by apply disp_inv_set_rd; try done; rewrite Hr|].
  destruct (authenticated reply); [|by apply disp_inv_set_rd; try done; rewrite Hr].
  destruct Hi as [H1 H2 (dr&H3&H3') H4 H5 H6 H7].
  destruct (wk d) eqn:Ew; [|by destruct H4; congruence..]. destruct H4 as (_&Eq&Hn).
  split; unfold queue, taken in *; simpl in *; try done; try lia; [|by eauto].
  exists []. split; [|by left]. rewrite Hn, Ew, Eq in *; simpl in *.
  symmetry in H3. apply app_nil in H3 as [-> _]. done.
Qed.

Lemma disp_inv_reader_step cap d d' : inv cap d → reader_step d d' → inv cap d'.
Proof.
  intros Hi Hs. destruct Hs as [d e m Hr|d m r Hr|d reply sent Hr|d m r Hr|d reply sent Hr|d Hr
    |d d' Hr Hw].
  - by apply disp_inv_handle.
  - assert (Ha : auth_sent d = false).
    { destruct Hi as [_ _ _ _ H5 _ _]. rewrite Hr in H5. destruct (auth_sent d); naive_solver. }
    unfold Handle_invoked. destruct r; apply disp_inv_set_rd; try done; by rewrite Hr.
  - by apply disp_inv_sent.
  - unfold deliver_invoked. destruct r; apply disp_inv_set_rd; try done; by rewrite Hr.
  - unfold deliver_sent. destruct sent; apply disp_inv_set_rd; try done; by rewrite Hr.
  - unfold Stop. destruct Hi as [H1 H2 H3 H4 H5 H6 H7]. split; simpl; try done.
    destruct (wk d), Hr as [Hr|[? Hr]]; intuition congruence.
  - unfold Stop_waited in Hw. destruct Hi as [H1 H2 (dr&H3&H3') H4 H5 H6 H7].
    destruct (wk d) eqn:Ew; simplify_eq; split; unfold queue, taken in *; simpl in *; rewrite ?Ew in *;
      try done; try lia; auto.
    + exists []. split; [|by left]. destruct H4 as (_&_&Hn). rewrite Hn in H3 |- *.
      symmetry in H3. by apply app_nil in H3 as [-> _].
    + by destruct H4 as (?&_&?).
    + exists (dr ++ default [] (requests d)). split; [|by right]. by rewrite app_nil_r.
    + destruct H4; auto.
Qed.

Lemma disp_inv_worker_step cap d d' : inv cap d → worker_step d d' → inv cap d'.
Proof.
  intros Hi Hs. destruct Hs as [d Hw Hc|d d' Hw|d m Hw|d m reply Hw|d reply Hw|d Hw].
  - destruct Hi as [H1 H2 (dr&H3&H3') H4 H5 H6 H7]. rewrite Hw in *.
    split; unfold queue, taken in *; simpl in *; try done; auto.
    exists dr. split; [by rewrite Hw in H3|by right].
  - unfold run_receive in Hw. destruct Hi as [H1 H2 (dr&H3&H3') H4 H5 H6 H7].
    destruct (wk d) eqn:Ew; try done. destruct (requests d) as [[|m q]|] eqn:Eq; simplify_eq.
    destruct H3' as [->|]; [|done].
    split; unfold queue, taken in *; simpl in *; rewrite ?Ew, ?Eq in *; simpl in *; try done; try lia.
    + exists []. auto.
    + intuition eauto.
    + intros Hr. destruct (H6 Hr) as [[]]; done.
  - unfold run_check. destruct Hi as [H1 H2 (dr&H3&H3') H4 H5 H6 H7]. rewrite Hw in *.
    assert (rd d ≠ RStopped) as Hnr by (intros Hr; destruct (H6 Hr) as [[]]; done).
    destruct H3' as [->|]; [|done]. unfold taken in H3. rewrite Hw in H3.
    destruct (canceled d) eqn:Hc; split; unfold queue, taken in *; simpl in *; try done; auto.
    + exists [m]. auto.
    + exists []. split; [|by left]. by rewrite H3, <-app_assoc.
    + by rewrite Hc.
  - destruct Hi as [H1 H2 (dr&H3&H3') H4 H5 H6 H7]. rewrite Hw in *.
    split; unfold queue, taken in *; simpl in *; rewrite ?Hw in *; try done; auto.
    + exists dr. destruct H3'; [auto|done].
    + intros Hr. destruct (H6 Hr) as [[]]; done.
  - destruct Hi as [H1 H2 (dr&H3&H3') H4 H5 H6 H7]. rewrite Hw in *.
    split; unfold queue, taken in *; simpl in *; rewrite ?Hw in *; try done; auto.
    + exists dr. destruct H3'; [auto|done].
    + intros Hr. destruct (H6 Hr) as [[]]; done.
  - unfold run_failed. destruct Hi as [H1 H2 (dr&H3&H3') H4 H5 H6 H7].
    assert (Ht : taken d = []) by (unfold taken; destruct Hw as [[? ->]|[? ->]]; done).
    split; unfold queue, taken in *; simpl in *; try done; auto.
    + exists dr. rewrite Ht in H3. auto.
    + destruct Hw as [[? Hw]|[? Hw]]; by rewrite Hw in H4.
Qed.

Lemma disp_inv_reach cap d : reach cap d → inv cap d.
Proof.
  apply invariant_reachable.
  - intros d0 ->. split; unfold queue, taken; simpl; try done; [lia|]. exists []. auto.
  - intros d0 d1 _ Hi [H|[H| ->]]; [by eapply disp_inv_reader_step|by eapply disp_inv_worker_step|].
    destruct Hi as [H1 H2 H3 H4 H5 H6 H7]. split; simpl; try done. intros Hr. by split; [apply H6|].
Qed.

(** *** Properties *)

(** Business messages are invoked in the order they arrived, each at most
    once, none is lost while the worker runs, and at most [cap] of them wait. *)
Theorem dispatcher_fifo cap d :
  reach cap d →
  begun d `prefix_of` accepted d ∧ (length (queue d) ≤ cap)%nat ∧
  (wk d ≠ WExited → accepted d = begun d ++ taken d ++ queue d).
Proof.
  intros [H1 H2 (dr&H3&H3') _ _ _ _]%disp_inv_reach. split_and!; [|done|].
  - rewrite H3. by apply prefix_app_r.
  - intros Hw. destruct H3' as [->|]; done.
Qed.

(** The authentication barrier: no message enters the queue and no worker
    runs before a successful authentication reply was sent, and from then on
    the read loop itself invokes nothing but heartbeats. *)
Theorem auth_barrier cap d :
  reach cap d →
  (wk d ≠ WNone ∨ accepted d ≠ [] → auth_sent d = true) ∧
  (auth_sent d = true → ∀ m, rd d ≠ RInvoke m).
Proof.
  intros [_ _ _ H4 H5 _ _]%disp_inv_reach. split.
  - intros H. destruct (wk d); destruct H4 as [? H4]; try done. destruct H as [|H]; [done|].
    by destruct H4.
  - intros Ha m Hr. specialize (H5 Ha). by rewrite Hr in H5.
Qed.

Lemma stopped_step cap d d' :
  inv cap d → rd d = RStopped → step d d' → rd d' = RStopped ∧ begun d' = begun d.
Proof.
  intros [_ _ _ _ _ H6 _] Hr Hs. destruct (H6 Hr) as [Hw _].
  destruct Hs as [Hs|[Hs| ->]]; [destruct Hs..|done]; try congruence.
  - destruct H as [|[]]; congruence.
  - by destruct Hw; congruence.
  - unfold run_receive in *. destruct Hw as [Hw|Hw]; by rewrite Hw in *.
  - destruct Hw; congruence.
  - destruct Hw; congruence.
  - destruct Hw; congruence.
  - destruct H as [[]|[]], Hw; congruence.
Qed.

(** Once [Stop] returned, no handler call is in progress and none is ever
    begun, so the handler's Close never overlaps one. *)
Theorem stop_quiescent cap d d' :
  reach cap d → rd d = RStopped → rtc step d d' →
  begun d' = begun d ∧ (wk d' = WNone ∨ wk d' = WExited) ∧
  (∀ m, rd d' ≠ RInvoke m ∧ rd d' ≠ RBeat m).
Proof.
  intros Hd Hr Hs. induction Hs as [d|d d1 d' Hs _ IH].
  - split; [done|]. apply disp_inv_reach in Hd as [_ _ _ _ _ H6 _]. destruct (H6 Hr) as [? _].
    by rewrite Hr.
  - destruct (stopped_step cap d d1 (disp_inv_reach _ _ Hd) Hr Hs) as [Hr1 <-].
    apply IH; [by eapply reach_step|done].
Qed.

(** [Stop] cannot deadlock: while it waits, the worker can always move
    towards its exit, and when the running handler call returns it gets there. *)
Theorem stop_returns cap d :
  reach cap d → rd d = RStopping → ∃ d', rtc step d d' ∧ rd d' = RStopped.
Proof.
  intros Hd Hr. apply disp_inv_reach in Hd as [_ _ _ _ _ _ H7]. specialize (H7 Hr).
  assert (Hend : ∀ d0, rd d0 = RStopping → wk d0 = WNone ∨ wk d0 = WExited →
    ∃ d', rtc step d0 d' ∧ rd d' = RStopped).
  { intros d0 Hr0 Hw. exists (d0 <| requests := None |> <| rd := RStopped |>). split; [|done].
    apply rtc_once. left. apply s_stop_waited; [done|]. unfold Stop_waited. by destruct Hw as [->| ->]. }
  assert (Hvia : ∀ d0, worker_step d d0 → rd d0 = RStopping → wk d0 = WExited →
    ∃ d', rtc step d d' ∧ rd d' = RStopped).
  { intros d0 Hs H1 H2. destruct (Hend d0) as (d'&?&?); auto. exists d'. split; [|done].
    eapply rtc_l; [by right; left|done]. }
  destruct (wk d) eqn:Hw; try (by apply Hend; auto).
  - by eapply Hvia; [apply s_run_done|..].
  - eapply Hvia; [by eapply s_run_check|..]; unfold run_check; by rewrite H7.
  - by eapply Hvia; [apply s_run_failed; eauto|..].
  - by eapply Hvia; [apply s_run_failed; eauto|..].
Qed.

End Dispatcher.

(** ** Authentication reply *)

Lemma ReadReply_loop_spec t rej limit reads pending ps :
  Auth.ReadReply_loop t rej limit reads pending = Some (Ok ps) ↔
  ∃ more reply rest, reads = (Ok <$> more) ++ Ok reply :: rest ∧ ps = pending ++ more ∧
    Forall (λ p, Op p = OpPush) more ∧ (more = [] ∨ zlen ps ≤ limit) ∧
    Op reply = OpAuthReply ∧ Code reply = 0.
Proof.
  revert pending. induction reads as [|[reply|e] reads IH]; intros pending; simpl.
  - split; [done|]. intros (more&?&?&H&_). by destruct more.
  - destruct (Z.eqb_spec (Op reply) OpPush) as [Ep|Ep].
    + destruct (Z.leb_spec limit (zlen pending)) as [Hl|Hl].
      * split; [done|]. intros ([|m more]&r&rest&Hr&->&Hp&Hb&Ha&_); simplify_eq/=.
        { rewrite Ha in Ep. by vm_compute in Ep. }
        destruct Hb as [|Hb]; [done|]. rewrite length_app in Hb. simpl in Hb. lia.
      * rewrite IH. split.
        -- intros (more&r&rest&->&->&Hp&Hb&?&?). exists (reply :: more), r, rest.
           rewrite <-app_assoc. split_and!; try done; [by constructor|]. right.
           destruct Hb as [->|Hb]; rewrite ?length_app in *; simpl in *; lia.
        -- intros ([|m more]&r&rest&Hr&->&Hp&Hb&Ha&?); simplify_eq/=.
           { rewrite Ha in Ep. by vm_compute in Ep. }
           exists more, r, rest. rewrite <-app_assoc. apply Forall_cons in Hp as [_ Hp].
           split_and!; try done. destruct Hb; [done|by right].
    + assert (Hno : ∀ more r rest, Ok reply :: reads = (Ok <$> more) ++ Ok r :: rest →
        Forall (λ p, Op p = OpPush) more → more = [] ∧ r = reply).
      { intros [|m more] r rest Hr Hp; simplify_eq/=; [done|].
        by apply Forall_cons in Hp as [? _]. }
      destruct (Z.eqb_spec (Op reply) OpAuthReply) as [Ea|Ea]; simpl.
      * destruct (Z.eqb_spec (Code reply) 0) as [Ec|Ec]; simpl; split; try done.
        -- intros [= <-]. exists [], reply, reads. rewrite app_nil_r. by split_and!; auto.
        -- intros (more&r&rest&Hr&->&Hp&_). destruct (Hno _ _ _ Hr Hp) as [-> ->].
           by rewrite app_nil_r.
        -- intros (more&r&rest&Hr&_&Hp&_&_&Hc). destruct (Hno _ _ _ Hr Hp) as [-> ->]. done.
      * split; [done|]. intros (more&r&rest&Hr&_&Hp&_&Hc&_).
        destruct (Hno _ _ _ Hr Hp) as [-> ->]. done.
  - split; [done|]. intros ([|m more]&?&?&?&_); simplify_eq/=.
Qed.

(** The client accepts exactly the streams that are at most [limit] pushes
    followed by a successful authentication reply, and returns those pushes in
    order. *)
Theorem ReadReply_spec t rejected limit reads ps :
  Auth.ReadReply t rejected limit reads = Some (Ok ps) ↔
  ∃ reply rest, reads = (Ok <$> ps) ++ Ok reply :: rest ∧
    Forall (λ p, Op p = OpPush) ps ∧ (ps = [] ∨ zlen ps ≤ limit) ∧
    Op reply = OpAuthReply ∧ Code reply = 0.
Proof.
  unfold Auth.ReadReply. rewrite ReadReply_loop_spec. split.
  - intros (more&r&rest&?&->&?&?&?). by exists r, rest.
  - intros (r&rest&?&?&?&?&?). by exists ps, r, rest.
Qed.

(** ** Handler calls *)

(** Without middleware, a heartbeat is answered by the heartbeat handler
    alone, with its fields kept but for the operation and the body, any other
    message goes to [Handle], and a nil reply becomes an error. *)
Theorem invoker_spec Handle beat timeout now ctx message :
  let ctx' := if 0 <? timeout then Ctx.WithTimeout ctx now timeout else ctx in
  Invoke.NewInvoker (λ h, h) Handle (Some beat) timeout now ctx message =
  if Op message =? OpHeartbeat
  then match beat ctx' with
       | Some e => Err e
       | None => Ok (mkProto OpHeartbeatReply (Seq message) (Code message) (Cmd message) [])
       end
  else match Handle ctx' message with
       | Err e => Err e
       | Ok None => Err ErrInvalidHandlerReply
       | Ok (Some p) => Ok p
       end.
Proof.
  unfold Invoke.NewInvoker, Invoke.inner. simpl.
  destruct (Op message =? OpHeartbeat); [by destruct (beat _)|by destruct (Handle _ _) as [[]|]].
Qed.

(** ** Witnesses *)

Module InboundExample.
Import Dispatcher.
Definition auth_ok : Proto := mkProto OpAuthReply 0 0 0 [].
Definition req1 : Proto := mkProto OpRequest 1 0 5 [].

Definition d_queued : Dispatcher := mkDispatcher false 2 (Some [req1]) RIdle WSelect false [req1] [] true.
Definition d_stopping : Dispatcher := mkDispatcher true 2 (Some []) RStopping (WTaken req1) false [req1] [] true.
Definition d_stopped : Dispatcher := mkDispatcher true 2 None RStopped WExited false [req1] [] true.

Lemma reach_queued : reachable (init 2) step d_queued.
Proof.
  assert (H : reachable (init 2) step (New 2)) by by apply reach_init.
  reach_by H ltac:(left; eapply (s_handle _ CtxCanceled (mkProto OpAuth 0 0 0 []))).
  reach_by H ltac:(left; eapply (s_invoked _ _ (Ok auth_ok))).
  reach_by H ltac:(left; eapply (s_sent _ auth_ok None)).
  reach_by H ltac:(left; eapply (s_handle _ CtxCanceled req1)).
  exact H.
Qed.

Lemma reach_stopping : reachable (init 2) step d_stopping.
Proof.
  pose proof reach_queued as H.
  reach_by H ltac:(right; left; eapply s_run_receive).
  reach_by H ltac:(left; eapply s_stop; left).
  exact H.
Qed.

Lemma reach_stopped : reachable (init 2) step d_stopped.
Proof.
  pose proof reach_stopping as H.
  reach_by H ltac:(right; left; eapply s_run_check).
  reach_by H ltac:(left; eapply s_stop_waited).
  exact H.
Qed.

Lemma dispatcher_fifo_witness : accepted d_queued = begun d_queued ++ taken d_queued ++ queue d_queued.
Proof. apply (dispatcher_fifo 2 d_queued reach_queued). done. Defined.

Lemma auth_barrier_witness : auth_sent d_queued = true.
Proof. apply (auth_barrier 2 d_queued reach_queued). by left. Defined.

Lemma stop_quiescent_witness : begun (d_stopped <| canceled := true |>) = [].
Proof.
  apply (stop_quiescent 2 d_stopped (d_stopped <| canceled := true |>) reach_stopped eq_refl).
  apply rtc_once. right. by right.
Defined.

Lemma stop_returns_witness : ∃ d', rtc step d_stopping d' ∧ rd d' = RStopped.
Proof. apply (stop_returns 2 d_stopping reach_stopping eq_refl). Defined.
End InboundExample.
