(* ===== verification/Locate.v ===== *)
(** * Identities and bindings

    [locate/locator.go]: the binding of a player to a Gateway connection, the
    lease that carries it, and the validation of the identities that become
    keys of the location store.  Go strings are byte strings. *)

From S2P Require Import Prelude Errors.
From Stdlib Require Import Strings.Ascii.

(** ** unicode/utf8 *)

Definition char_Z (c : ascii) : Z := Z.of_N (N_of_ascii c).

Definition within (lo hi : Z) (c : ascii) : bool := (lo <=? char_Z c) && (char_Z c <=? hi).

(** The ranges of the continuation bytes a first byte calls for. *)
Definition continuation (c : ascii) : option (list (Z * Z)) :=
  let tail := (128, 191) in
  if within 0 127 c then Some []
  else if within 194 223 c then Some [tail]
  else if within 224 224 c then Some [(160, 191); tail]
  else if within 237 237 c then Some [(128, 159); tail]
  else if within 225 239 c then Some [tail; tail]
  else if within 240 240 c then Some [(144, 191); tail; tail]
  else if within 241 243 c then Some [tail; tail; tail]
  else if within 244 244 c then Some [(128, 143); tail; tail]
  else None.

Fixpoint utf8_valid (expect : list (Z * Z)) (s : string) : bool :=
  match s with
  | EmptyString => match expect with [] => true | _ => false end
  | String c s =>
      match expect with
      | (lo, hi) :: expect => within lo hi c && utf8_valid expect s
      | [] => match continuation c with
              | Some expect => utf8_valid expect s
              | None => false
              end
      end
  end.
Definition ValidString (s : string) : bool := utf8_valid [] s.

(** ** Strings *)

Abbreviation slen s := (Z.of_nat (String.length s)).

Fixpoint all_chars (p : ascii → bool) (s : string) : bool :=
  match s with EmptyString => true | String c s => p c && all_chars p s end.

(** ** locate/locator.go *)

Definition maxUIDBytes : Z := 128.

Record GateBinding := mkGateBinding {
  ServiceName : string;
  UID : string;
  GateID : string;
  GateEndpoint : string;
  ConnID : string;
  BindingToken : string;
}.
#[export] Instance eta_GateBinding : Eta GateBinding := λ b,
  mkGateBinding (ServiceName b) (UID b) (GateID b) (GateEndpoint b) (ConnID b) (BindingToken b).

#[export] Instance GateBinding_eq_dec : EqDecision GateBinding.
Proof. solve_decision. Defined.

Record GateLease := mkGateLease { Binding : GateBinding; TTL : Z }.

#[export] Instance GateLease_eq_dec : EqDecision GateLease.
Proof. solve_decision. Defined.

Definition ValidUID (uid : string) : bool :=
  (0 <? slen uid) && (slen uid <=? maxUIDBytes) && ValidString uid.

Definition service_char (c : ascii) : bool :=
  within 97 122 c || within 65 90 c || within 48 57 c ||
  (char_Z c =? 46) || (char_Z c =? 95) || (char_Z c =? 45).

Definition ValidServiceName (name : string) : bool :=
  if (slen name =? 0) || (128 <? slen name) then false else all_chars service_char name.

Definition nonempty (s : string) : bool := negb (bool_decide (s = EmptyString)).

Definition ValidGateBinding (b : GateBinding) : bool :=
  ValidUID (UID b) && ValidServiceName (ServiceName b) && nonempty (GateID b) &&
  nonempty (GateEndpoint b) && nonempty (ConnID b) && nonempty (BindingToken b).

Definition ValidNodeLocation (serviceName uid nodeID : string) : bool :=
  ValidUID uid && ValidServiceName serviceName && nonempty nodeID.

(** ** Lemmas *)

Lemma append_assoc (a b c : string) : ((a +:+ b) +:+ c = a +:+ b +:+ c)%string.
Proof.
  induction a as [|x a IH]; [reflexivity|].
  change (String x ((a +:+ b) +:+ c) = String x (a +:+ b +:+ c))%string. by rewrite IH.
Qed.

Lemma ValidServiceName_no_char c name :
  service_char c = false → ValidServiceName name = true → ∀ a b, name ≠ (a +:+ String c b)%string.
Proof.
  unfold ValidServiceName. intros Hc. case_match; [done|]. clear H. revert name.
  assert (H : ∀ a b, all_chars service_char (a +:+ String c b) = false).
  { induction a as [|d a IH]; intros b; simpl; [by rewrite Hc|]. rewrite IH. apply andb_false_r. }
  intros name Hn a b ->. by rewrite H in Hn.
Qed.

Lemma nonempty_spec s : nonempty s = true ↔ s ≠ EmptyString.
Proof. unfold nonempty. rewrite negb_true_iff, bool_decide_eq_false. done. Qed.
