(* ===== verification/Keys.v ===== *)
(** * Keys of the location store

    [gateKey] of [locate/redis/gate.go] and [nodeKey], [nodeEpochKey] of
    [locate/redis/node.go], over Go's unpadded URL-safe base64.  Different
    identities get different keys, and the three key families are disjoint. *)

From S2P Require Import Prelude Errors Locate.
From Stdlib Require Import Strings.Ascii.

(** ** encoding/base64, RawURLEncoding *)

Definition Z_char (z : Z) : ascii := ascii_of_N (Z.to_N z).

Lemma char_Z_range c : 0 ≤ char_Z c < 256.
Proof. unfold char_Z. pose proof (N_ascii_bounded c). lia. Qed.

Lemma Z_char_Z c : Z_char (char_Z c) = c.
Proof. unfold Z_char, char_Z. by rewrite N2Z.id, ascii_N_embedding. Qed.

Lemma char_Z_char z : 0 ≤ z < 256 → char_Z (Z_char z) = z.
Proof. intros. unfold Z_char, char_Z. rewrite N_ascii_embedding; lia. Qed.

Definition encodeURL : string :=
  "ABCDEFGHIJKLMNOPQRSTUVWXYZabcdefghijklmnopqrstuvwxyz0123456789-_"%string.

Definition enc6 (n : Z) : ascii := default zero (String.get (Z.to_nat n) encodeURL).

Definition dec6 (c : ascii) : Z :=
  let z := char_Z c in
  if within 65 90 c then z - 65
  else if within 97 122 c then z - 71
  else if within 48 57 c then z + 4
  else if z =? 45 then 62 else 63.

(** [EncodeToString]: three bytes to four characters, and a short last group
    without padding. *)
Fixpoint EncodeToString (s : string) : string :=
  match s with
  | EmptyString => EmptyString
  | String a EmptyString =>
      let v := Z.shiftl (char_Z a) 16 in
      String (enc6 (Z.land (Z.shiftr v 18) 63)) (String (enc6 (Z.land (Z.shiftr v 12) 63)) EmptyString)
  | String a (String b EmptyString) =>
      let v := Z.lor (Z.shiftl (char_Z a) 16) (Z.shiftl (char_Z b) 8) in
      String (enc6 (Z.land (Z.shiftr v 18) 63)) (String (enc6 (Z.land (Z.shiftr v 12) 63))
        (String (enc6 (Z.land (Z.shiftr v 6) 63)) EmptyString))
  | String a (String b (String c s)) =>
      let v := Z.lor (Z.lor (Z.shiftl (char_Z a) 16) (Z.shiftl (char_Z b) 8)) (char_Z c) in
      String (enc6 (Z.land (Z.shiftr v 18) 63)) (String (enc6 (Z.land (Z.shiftr v 12) 63))
        (String (enc6 (Z.land (Z.shiftr v 6) 63)) (String (enc6 (Z.land v 63)) (EncodeToString s))))
  end.

(** ** Keys *)

Definition gateKeyPrefix : string := "locate:gate:".
Definition nodeKeyPrefix : string := "locate:node:".
Definition nodeEpochKeyPrefix : string := "locate:node:epoch:".

Definition nul : string := String zero EmptyString.

Definition gateKey (serviceName uid : string) : string :=
  let key := EncodeToString (serviceName +:+ nul +:+ uid) in
  (gateKeyPrefix +:+ "{" +:+ key +:+ "}")%string.

Definition nodeLocationKey (prefix serviceName id : string) : string :=
  let service := EncodeToString serviceName in
  let key := EncodeToString id in
  (prefix +:+ "{" +:+ service +:+ "}:" +:+ key)%string.

Definition nodeKey (serviceName uid : string) : string :=
  nodeLocationKey nodeKeyPrefix serviceName uid.
Definition nodeEpochKey (serviceName nodeID : string) : string :=
  nodeLocationKey nodeEpochKeyPrefix serviceName nodeID.

(** ** Base64 is injective *)

Fixpoint Decode (s : string) : string :=
  match s with
  | String a (String b EmptyString) =>
      let v := dec6 a * 64 + dec6 b in String (Z_char (v / 16)) EmptyString
  | String a (String b (String c EmptyString)) =>
      let v := (dec6 a * 64 + dec6 b) * 64 + dec6 c in
      String (Z_char (v / 1024)) (String (Z_char ((v / 4) mod 256)) EmptyString)
  | String a (String b (String c (String d s))) =>
      let v := ((dec6 a * 64 + dec6 b) * 64 + dec6 c) * 64 + dec6 d in
      String (Z_char (v / 65536)) (String (Z_char ((v / 256) mod 256))
        (String (Z_char (v mod 256)) (Decode s)))
  | _ => EmptyString
  end.

Lemma dec6_enc6 n : 0 ≤ n < 64 → dec6 (enc6 n) = n.
Proof.
  intros Hn. assert (H : forallb (λ i, dec6 (enc6 (Z.of_nat i)) =? Z.of_nat i) (seq 0 64) = true)
    by by vm_compute.
  rewrite forallb_forall in H. specialize (H (Z.to_nat n)).
  rewrite Z2Nat.id in H by lia. apply Z.eqb_eq, H, in_seq. lia.
Qed.

Lemma land_63 v : Z.land v 63 = v `mod` 64.
Proof. change 63 with (Z.ones 6). by rewrite Z.land_ones. Qed.

Lemma string_ind3 (P : string → Prop) :
  P EmptyString → (∀ a, P (String a EmptyString)) → (∀ a b, P (String a (String b EmptyString))) →
  (∀ a b c s, P s → P (String a (String b (String c s)))) → ∀ s, P s.
Proof.
  intros H0 H1 H2 H3. fix IH 1. intros [|a [|b [|c s]]]; [done|by apply H1|by apply H2|].
  apply H3, IH.
Qed.

Lemma group_value a b c :
  Z.lor (Z.lor (Z.shiftl (char_Z a) 16) (Z.shiftl (char_Z b) 8)) (char_Z c) =
  char_Z a * 65536 + char_Z b * 256 + char_Z c.
Proof.
  pose proof (char_Z_range a). pose proof (char_Z_range b). pose proof (char_Z_range c).
  rewrite Z.lor_comm. change 16 with (8 + 8). rewrite <-Z.shiftl_shiftl, <-Z.shiftl_lor by done.
  rewrite (Z.lor_comm (Z.shiftl _ 8)), !Z_lor_shiftl_add by (change (2 ^ 8) with 256; lia).
  change (2 ^ 8) with 256. lia.
Qed.

Lemma digits v :
  0 ≤ v < 16777216 →
  (v / 262144) mod 64 * 64 + (v / 4096) mod 64 = v / 4096 ∧
  ((v / 262144) mod 64 * 64 + (v / 4096) mod 64) * 64 + (v / 64) mod 64 = v / 64 ∧
  (((v / 262144) mod 64 * 64 + (v / 4096) mod 64) * 64 + (v / 64) mod 64) * 64 + v mod 64 = v.
Proof.
  intros Hv. assert (H1 : v / 262144 = v / 4096 / 64) by by rewrite Zdiv.Zdiv_Zdiv.
  assert (H2 : v / 4096 = v / 64 / 64) by by rewrite Zdiv.Zdiv_Zdiv.
  pose proof (Z.div_mod (v / 4096) 64 ltac:(done)). pose proof (Z.div_mod (v / 64) 64 ltac:(done)).
  pose proof (Z.div_mod v 64 ltac:(done)).
  rewrite (Z.mod_small (v / 262144)); [lia|].
  split; [apply Z.div_pos; lia|apply Z.div_lt_upper_bound; lia].
Qed.

Lemma bytes_of_group a b c :
  0 ≤ a < 256 → 0 ≤ b < 256 → 0 ≤ c < 256 →
  let v := a * 65536 + b * 256 + c in
  0 ≤ v < 16777216 ∧ v / 65536 = a ∧ (v / 256) mod 256 = b ∧ v mod 256 = c.
Proof.
  intros Ha Hb Hc v.
  assert (H1 : v / 65536 = a) by (symmetry; apply (Z.div_unique _ _ _ (b * 256 + c)); unfold v; lia).
  assert (H2 : v / 256 = a * 256 + b) by (symmetry; apply (Z.div_unique _ _ _ c); unfold v; lia).
  assert (H3 : v mod 256 = c) by (symmetry; apply (Z.mod_unique _ _ (a * 256 + b)); unfold v; lia).
  assert (H4 : (a * 256 + b) mod 256 = b) by (symmetry; apply (Z.mod_unique _ _ a); lia).
  rewrite H2. unfold v in *. split_and!; try done; lia.
Qed.

Ltac powers :=
  change (2 ^ 6) with 64; change (2 ^ 12) with 4096; change (2 ^ 18) with 262144.

Lemma Decode_EncodeToString s : Decode (EncodeToString s) = s.
Proof.
  assert (Hz : char_Z zero = 0) by done.
  induction s as [|a|a b|a b c s IH] using string_ind3; [done|..]; simpl.
  - pose proof (group_value a zero zero) as G. rewrite Hz, Z.shiftl_0_l, !Z.lor_0_r in G.
    destruct (bytes_of_group (char_Z a) 0 0) as (Hv&Ea&_&_); [apply char_Z_range|lia..|].
    rewrite G, !land_63, !Z.shiftr_div_pow2, !dec6_enc6 by (done || apply Z.mod_pos_bound; done).
    powers. destruct (digits _ Hv) as (->&_&_).
    rewrite Zdiv.Zdiv_Zdiv by done.
    change (4096 * 16) with 65536. by rewrite Ea, Z_char_Z.
  - pose proof (group_value a b zero) as G. rewrite Hz, Z.lor_0_r in G.
    destruct (bytes_of_group (char_Z a) (char_Z b) 0) as (Hv&Ea&Eb&_); [apply char_Z_range..|lia|].
    rewrite G, !land_63, !Z.shiftr_div_pow2, !dec6_enc6 by (done || apply Z.mod_pos_bound; done).
    powers. destruct (digits _ Hv) as (_&->&_). rewrite !Zdiv.Zdiv_Zdiv by done.
    change (64 * 1024) with 65536. change (64 * 4) with 256. by rewrite Ea, Eb, !Z_char_Z.
  - destruct (bytes_of_group (char_Z a) (char_Z b) (char_Z c)) as (Hv&Ea&Eb&Ec); [apply char_Z_range..|].
    rewrite group_value, !land_63, !Z.shiftr_div_pow2, !dec6_enc6
      by (done || apply Z.mod_pos_bound; done).
    powers. destruct (digits _ Hv) as (_&_&->). by rewrite Ea, Eb, Ec, !Z_char_Z, IH.
Qed.

Lemma EncodeToString_inj s t : EncodeToString s = EncodeToString t → s = t.
Proof. intros H. rewrite <-(Decode_EncodeToString s), H. apply Decode_EncodeToString. Qed.

(** ** Keys are injective *)

Definition url_char (c : ascii) : bool :=
  within 65 90 c || within 97 122 c || within 48 57 c || (char_Z c =? 45) || (char_Z c =? 95).

Lemma enc6_url n : 0 ≤ n < 64 → url_char (enc6 n) = true.
Proof.
  intros Hn. assert (H : forallb (λ i, url_char (enc6 (Z.of_nat i))) (seq 0 64) = true)
    by by vm_compute.
  rewrite forallb_forall in H. specialize (H (Z.to_nat n)).
  rewrite Z2Nat.id in H by lia. apply H, in_seq. lia.
Qed.

Lemma EncodeToString_url s : all_chars url_char (EncodeToString s) = true.
Proof.
  induction s as [|a|a b|a b c s IH] using string_ind3; [done|..];
    cbn [EncodeToString all_chars];
    rewrite ?IH, !enc6_url by (rewrite land_63; apply Z.mod_pos_bound; done); done.
Qed.

Lemma app_string_inj (a b x y : string) (c : ascii) :
  all_chars url_char a = true → all_chars url_char b = true → url_char c = false →
  (a +:+ String c x = b +:+ String c y)%string → a = b ∧ x = y.
Proof.
  intros Ha Hb Hc. revert b Hb. induction a as [|d a IH]; intros [|e b] Hb; cbn [String.append].
  - by intros [= ->].
  - intros [= <- _]. cbn [all_chars] in Hb. by rewrite Hc in Hb.
  - intros [= -> _]. cbn [all_chars] in Ha. by rewrite Hc in Ha.
  - intros [= -> H]. cbn [all_chars] in Ha, Hb. apply andb_true_iff in Ha as [_ Ha], Hb as [_ Hb].
    by destruct (IH Ha b Hb H) as [-> ->].
Qed.

Lemma string_app_nil_inj (a b x y : string) :
  (∀ u v, a ≠ u +:+ String zero v)%string → (∀ u v, b ≠ u +:+ String zero v)%string →
  (a +:+ String zero x = b +:+ String zero y)%string → a = b ∧ x = y.
Proof.
  revert b. induction a as [|c a IH]; intros [|d b] Ha Hb; cbn [String.append].
  - by intros [= ->].
  - intros [= <- _]. by destruct (Hb EmptyString b).
  - intros [= -> _]. by destruct (Ha EmptyString a).
  - intros [= -> H]. destruct (IH b) as [-> ->]; auto.
    + intros u v ->. by apply (Ha (String d u) v).
    + intros u v ->. by apply (Hb (String d u) v).
Qed.

Lemma nodeLocationKey_inj prefix service1 id1 service2 id2 :
  nodeLocationKey prefix service1 id1 = nodeLocationKey prefix service2 id2 →
  service1 = service2 ∧ id1 = id2.
Proof.
  unfold nodeLocationKey. intros H. apply (inj (String.append prefix)) in H.
  simplify_eq/=. apply app_string_inj in H as [Ha Hb]; auto using EncodeToString_url.
  simplify_eq. by split; apply EncodeToString_inj.
Qed.

Lemma gateKey_inj service1 uid1 service2 uid2 :
  ValidServiceName service1 = true → ValidServiceName service2 = true →
  gateKey service1 uid1 = gateKey service2 uid2 → service1 = service2 ∧ uid1 = uid2.
Proof.
  intros H1 H2. assert (Hz : service_char zero = false) by done.
  unfold gateKey. intros H. apply (inj (String.append gateKeyPrefix)) in H. simplify_eq/=.
  apply app_string_inj in H as [Ha _]; auto using EncodeToString_url.
  apply EncodeToString_inj in Ha. apply string_app_nil_inj in Ha; auto using ValidServiceName_no_char.
Qed.

(** Two valid players never share a key of the location store, nor do two
    nodes, and the keys of connections, players and epochs never collide. *)
Theorem location_keys_injective service1 uid1 service2 uid2 :
  ValidServiceName service1 = true → ValidServiceName service2 = true →
  (gateKey service1 uid1 = gateKey service2 uid2 → service1 = service2 ∧ uid1 = uid2) ∧
  (nodeKey service1 uid1 = nodeKey service2 uid2 → service1 = service2 ∧ uid1 = uid2) ∧
  (nodeEpochKey service1 uid1 = nodeEpochKey service2 uid2 → service1 = service2 ∧ uid1 = uid2) ∧
  gateKey service1 uid1 ≠ nodeKey service2 uid2 ∧
  gateKey service1 uid1 ≠ nodeEpochKey service2 uid2 ∧
  nodeKey service1 uid1 ≠ nodeEpochKey service2 uid2.
Proof.
  intros H1 H2. split_and!; try done.
  - by apply gateKey_inj.
  - apply nodeLocationKey_inj.
  - apply nodeLocationKey_inj.
Qed.

Module KeysExample.
Lemma location_keys_injective_witness :
  gateKey "game" "player" = "locate:gate:{Z2FtZQBwbGF5ZXI}"%string ∧
  nodeKey "game" "a" ≠ nodeEpochKey "epoch" "b".
Proof.
  split; [by vm_compute|]. by apply (location_keys_injective "game" "a" "epoch" "b").
Defined.
End KeysExample.
