(* ===== verification/Redis.v ===== *)
(** * The Redis server

    The location store runs on a Redis server, which is not part of the
    repository: its commands are the fields of [Redis], and [RedisLaws] states
    the documented effect of each on the keys that are visible (present and
    not expired) at a server time in milliseconds.  [MapRedis] is a concrete
    server that satisfies the laws.  [locate/redis/locator.go] is the client
    side: one script call with its network faults, and the reading of its
    status. *)

From S2P Require Import Prelude Errors.

Class Redis := {
  db : Type;
  GET : Z → string → db → option string;
  PTTL : Z → string → db → Z;
  PSETEX : Z → string → Z → string → db → db;
  PEXPIRE : Z → string → Z → db → db;
  DEL : Z → string → db → db;
  SETNX : Z → string → string → Z → db → db * bool;
}.

(** A key's value and the time its lease ends, if it has one.  A key is
    expired when the time is past that end. *)
Abbreviation entry := (string * option Z)%type.

Definition at_time (now : Z) (e : option entry) : option entry :=
  match e with
  | Some (v, Some w) => if now <=? w then Some (v, Some w) else None
  | _ => e
  end.

Class RedisLaws (R : Redis) := {
  visible : db → Z → string → option entry;
  visible_later d now now' k : now ≤ now' → visible d now' k = at_time now' (visible d now k);
  visible_at d now k : at_time now (visible d now k) = visible d now k;
  visible_GET d now k : GET now k d = fst <$> visible d now k;
  visible_PTTL d now k :
    PTTL now k d = match visible d now k with
                   | None => -2 | Some (_, None) => -1 | Some (_, Some w) => w - now
                   end;
  visible_PSETEX d now k ttl v k' :
    0 < ttl → visible (PSETEX now k ttl v d) now k' =
              if decide (k' = k) then Some (v, Some (now + ttl)) else visible d now k';
  visible_PEXPIRE d now k ttl k' :
    0 < ttl → visible (PEXPIRE now k ttl d) now k' =
              if decide (k' = k)
              then (λ e : entry, (e.1, Some (now + ttl))) <$> visible d now k
              else visible d now k';
  visible_DEL d now k k' :
    visible (DEL now k d) now k' = if decide (k' = k) then None else visible d now k';
  visible_SETNX d now k v ttl k' :
    0 < ttl →
    (SETNX now k v ttl d).2 = bool_decide (visible d now k = None) ∧
    visible (SETNX now k v ttl d).1 now k' =
      if decide (k' = k ∧ visible d now k = None) then Some (v, Some (now + ttl))
      else visible d now k';
}.

(** ** A concrete server *)

Module MapRedis.

Abbreviation store := (gmap string entry).

Definition look (now : Z) (k : string) (d : store) : option entry := at_time now (d !! k).

#[export] Instance map_redis : Redis := {
  db := store;
  GET now k d := fst <$> look now k d;
  PTTL now k d := match look now k d with
                  | None => -2 | Some (_, None) => -1 | Some (_, Some w) => w - now
                  end;
  PSETEX now k ttl v d := <[k := (v, Some (now + ttl))]> d;
  PEXPIRE now k ttl d := match look now k d with
                         | Some (v, _) => <[k := (v, Some (now + ttl))]> d
                         | None => d
                         end;
  DEL now k d := delete k d;
  SETNX now k v ttl d := match look now k d with
                         | Some _ => (d, false)
                         | None => (<[k := (v, Some (now + ttl))]> d, true)
                         end;
}.

Lemma at_time_idem now e : at_time now (at_time now e) = at_time now e.
Proof. destruct e as [[v [w|]]|]; simpl; try done. destruct (now <=? w) eqn:E; simpl; by rewrite ?E. Qed.

Lemma at_time_later now now' e : now ≤ now' → at_time now' e = at_time now' (at_time now e).
Proof.
  intros Hle. destruct e as [[v [w|]]|]; simpl; try done.
  destruct (Z.leb_spec now w); simpl; [done|]. destruct (Z.leb_spec now' w); done || lia.
Qed.

Lemma look_delete now k k' d :
  look now k' (delete k d) = if decide (k' = k) then None else look now k' d.
Proof.
  unfold look. case_decide; subst; [by rewrite lookup_delete_eq|by rewrite lookup_delete_ne by done].
Qed.

Lemma look_insert now k k' v ttl d :
  0 < ttl → look now k' (<[k := (v, Some (now + ttl))]> d) =
            if decide (k' = k) then Some (v, Some (now + ttl)) else look now k' d.
Proof.
  intros Ht. unfold look. case_decide as H; subst.
  - rewrite lookup_insert_eq. simpl. destruct (Z.leb_spec now (now + ttl)); [done|lia].
  - by rewrite lookup_insert_ne by done.
Qed.

#[export, refine] Instance map_redis_laws : RedisLaws map_redis := {
  visible d now k := look now k d;
}.
Proof.
  - intros. by apply at_time_later.
  - intros. apply at_time_idem.
  - done.
  - done.
  - intros. by apply look_insert.
  - intros d now k ttl k' Ht. simpl. destruct (look now k d) as [[v w]|] eqn:E.
    + rewrite look_insert by done. by case_decide.
    + case_decide; subst; [by rewrite E|done].
  - intros. apply look_delete.
  - intros d now k v ttl k' Ht. simpl. destruct (look now k d) as [[v' w]|] eqn:E; simpl.
    + split; [done|]. rewrite decide_False by (by intros []). done.
    + split; [done|]. rewrite look_insert by done. repeat case_decide; naive_solver.
Defined.

End MapRedis.

(** ** locate/redis/locator.go *)

Definition statusOK : Z := 1.
Definition statusMissing : Z := 0.
Definition statusConflict : Z := -1.
Definition statusBadLease : Z := -2.
Definition statusInvalid : Z := -3.
Definition statusMalformed : Z := -4.
Definition statusNodeMissing : Z := -5.
Definition statusNodeConflict : Z := -6.

(** An element of a script's reply. *)
Inductive value := VInt (n : Z) | VStr (s : string).

(** [locatorError] at time [now]. *)
Definition locatorError (ctx : Ctx.t) (now : Z) (err : option error) : option error :=
  match err with
  | None => None
  | Some e =>
      if err_is err CtxCanceled || err_is err CtxDeadlineExceeded then err
      else if negb (net_timeout e) then err
      else match Ctx.Err ctx now with
           | Some cause => errors_Join [Some e; Some cause]
           | None =>
               match Ctx.deadline ctx with
               | Some deadline =>
                   if negb (now <? deadline)
                   then errors_Join [Some e; Some (ESentinel CtxDeadlineExceeded)] else err
               | None => err
               end
           end
  end.

Definition scriptStatus (values : list value) : Z :=
  match values with
  | VInt status :: _ => status
  | _ => statusMalformed
  end.

Definition ackIdempotentUnbind (status : Z) : bool :=
  (status =? statusOK) || (status =? statusMissing) || (status =? statusConflict).

(** What the network does to one call: the request or the reply may be lost;
    a lost reply leaves the effect on the server. *)
Inductive fault := Delivered | RequestLost (e : error) | ReplyLost (e : error).

Section Call.
Context `{R : Redis}.

(** A script: its text, and what it does once loaded. *)
Record Script := mkScript { text : string; run : Z → db → db * list value }.

Context (loads : string → bool)              (* whether the server's Lua compiles a text *)
        (compileError : error).

(** One call of the server at its time [now_ms], the client's clock being
    [now] when the reply is read. *)
Definition runScript (ctx : Ctx.t) (now now_ms : Z) (f : fault) (script : Script) (d : db)
  : db * result (list value) :=
  let failed err := match locatorError ctx now (Some err) with
                    | Some e => Err e | None => Ok [] end in
  match f with
  | RequestLost e => (d, failed e)
  | Delivered | ReplyLost _ =>
      let '(d', r) := if loads (text script)
                      then let '(d', values) := run script now_ms d in (d', Ok values)
                      else (d, Err compileError) in
      match f, r with
      | ReplyLost e, _ => (d', failed e)
      | _, Ok values => (d', Ok values)
      | _, Err e => (d', failed e)
      end
  end.
End Call.
