(* ===== verification/GateLocator.v ===== *)
(** * Gateway bindings in the location store

    [locate/redis/gate.go]: the Lua scripts and the operations of
    [GateLocator] around them.  The scripts that look up, renew and remove a
    binding are functions on the server.  The bind script is kept as the text
    the client sends: it leaves a block open, so it has no meaning in Lua, and
    what a server would do with a text it loads is the parameter [exec].  JSON
    is an interface between this file and its implementation; the server and
    its Lua loader are parameters. *)

From S2P Require Import Prelude Errors Locate Keys Redis.
From Stdlib Require Import Strings.Ascii.

(** ** Interfaces *)

Definition utf8_binding (b : GateBinding) : bool :=
  ValidString (ServiceName b) && ValidString (UID b) && ValidString (GateID b) &&
  ValidString (GateEndpoint b) && ValidString (ConnID b) && ValidString (BindingToken b).

(** [json.Marshal] and [json.Unmarshal] on bindings. *)
Class BindingJson := {
  json_Marshal : GateBinding → result string;
  json_Unmarshal : string → result GateBinding;
}.
Class BindingJsonLaws (J : BindingJson) := {
  marshal_total b : ∃ raw, json_Marshal b = Ok raw;
  marshal_roundtrip b raw :
    utf8_binding b = true → json_Marshal b = Ok raw → json_Unmarshal raw = Ok b;
}.

(** ** Lua chunks: which blocks are closed *)

Module Lua.

Definition word_char (c : ascii) : bool :=
  within 97 122 c || within 65 90 c || within 48 57 c || (char_Z c =? 95).

(** The words of a chunk outside its quoted strings. *)
Fixpoint words (quoted : bool) (cur : string) (s : string) : list string :=
  match s with
  | EmptyString => [cur]
  | String c s =>
      if char_Z c =? 34 then cur :: words (negb quoted) EmptyString s
      else if quoted then words quoted EmptyString s
      else if word_char c then words quoted (cur +:+ String c EmptyString) s
      else cur :: words quoted EmptyString s
  end.

Definition block_weight (w : string) : Z :=
  if bool_decide (w ∈ ["if"; "function"; "do"]%string) then 1
  else if bool_decide (w = "end")%string then -1 else 0.

(** Blocks opened by [if], [function] and [do] and not closed by [end]. *)
Definition open_blocks (s : string) : Z :=
  foldr (λ w n, block_weight w + n) 0 (words false EmptyString s).

(** A character of a plain chunk: printable ASCII or white space, and none of
    the single quote, the backslash and the hash. *)
Definition plain_char (c : ascii) : bool :=
  (within 32 126 c || (char_Z c =? 9) || (char_Z c =? 10) || (char_Z c =? 13)) &&
  negb (char_Z c =? 39) && negb (char_Z c =? 92) && negb (char_Z c =? 35).

(** What may not follow: a second dash, which starts a comment, and a bracket
    or an equals sign after [[], which open a long string. *)
Definition plain_pair (c d : ascii) : bool :=
  negb ((char_Z c =? 45) && (char_Z d =? 45)) &&
  negb ((char_Z c =? 91) && ((char_Z d =? 91) || (char_Z d =? 61))).

(** A chunk whose only strings are in double quotes, without escapes, and that
    has no comment, no shebang line and no byte code. *)
Fixpoint plain (s : string) : bool :=
  match s with
  | EmptyString => true
  | String c s' =>
      plain_char c && match s' with String d _ => plain_pair c d | EmptyString => true end && plain s'
  end.

(** The grammar of Lua 5.1: [if], [function], [do] and [end] are reserved
    words, the first three each open a block ([while] and [for] open theirs
    with [do], [elseif] opens none and [repeat] is closed by [until]), and a
    chunk that loads closes every block it opens.  In a plain chunk the
    reserved words are the words outside the double quotes. *)
Definition grammar (loads : string → bool) : Prop :=
  ∀ s, plain s = true → loads s = true → open_blocks s = 0.

End Lua.

Definition q (s : string) : string := String (ascii_of_nat 34) (s +:+ String (ascii_of_nat 34) EmptyString).
Definition lines (l : list string) : string :=
  foldr (λ s t, s +:+ String (ascii_of_nat 10) t) EmptyString l.

(** The text of [_bindGateScript]. *)
Definition bindGateScript_text : string := lines [
  EmptyString;
  "local function valid_binding(raw)";
  "  local ok, binding = pcall(cjson.decode, raw)";
  "  return ok and type(binding) == " +:+ q "table" +:+ " and";
  "    binding.service_name == ARGV[3] and binding.uid == ARGV[4] and";
  "    type(binding.gate_id) == " +:+ q "string" +:+ " and binding.gate_id ~= " +:+ q EmptyString +:+ " and";
  "    type(binding.gate_endpoint) == " +:+ q "string" +:+ " and binding.gate_endpoint ~= " +:+ q EmptyString +:+ " and";
  "    type(binding.conn_id) == " +:+ q "string" +:+ " and binding.conn_id ~= " +:+ q EmptyString +:+ " and";
  "    type(binding.binding_token) == " +:+ q "string" +:+ " and binding.binding_token ~= " +:+ q EmptyString;
  "end";
  EmptyString;
  "local current = redis.call(" +:+ q "GET" +:+ ", KEYS[1])";
  "if current then";
  "  local ttl = redis.call(" +:+ q "PTTL" +:+ ", KEYS[1])";
  "  if ttl <= 0 then return {-2} end";
  "  if not valid_binding(current) then return {-3} end";
  "redis.call(" +:+ q "PSETEX" +:+ ", KEYS[1], ARGV[1], ARGV[2])";
  "local ttl = redis.call(" +:+ q "PTTL" +:+ ", KEYS[1])";
  "if current then return {1, ARGV[2], ttl, current} end";
  "return {1, ARGV[2], ttl}"]%string.

(** ** The scripts *)

Section Scripts.
Context `{R : Redis}.

Definition locateGate_run (key : string) (now : Z) (d : db) : db * list value :=
  match GET now key d with
  | None => (d, [VInt 0])
  | Some current =>
      let ttl := PTTL now key d in
      if ttl <=? 0 then (d, [VInt (-2)]) else (d, [VInt 1; VStr current; VInt ttl])
  end.

Definition renewGateLease_run (key raw : string) (ttl : Z) (now : Z) (d : db) : db * list value :=
  match GET now key d with
  | None => (d, [VInt 0])
  | Some current =>
      if PTTL now key d <=? 0 then (d, [VInt (-2)])
      else if negb (bool_decide (current = raw)) then (d, [VInt (-1)])
      else let d := PEXPIRE now key ttl d in
           (d, [VInt 1; VStr current; VInt (PTTL now key d)])
  end.

Definition unbindGate_run (key raw : string) (now : Z) (d : db) : db * list value :=
  match GET now key d with
  | None => (d, [VInt 0])
  | Some current =>
      if PTTL now key d <=? 0 then (d, [VInt (-2)])
      else if negb (bool_decide (current = raw)) then (d, [VInt (-1)])
      else (DEL now key d, [VInt 1])
  end.
End Scripts.

(** ** Decoding replies *)

Definition maxTTLMillis : Z := (2 ^ 63 - 1) / Millisecond.
Definition leaseResultFields : nat := 3.

(** [time.Duration.Milliseconds] truncates towards zero. *)
Definition Milliseconds (d : Z) : Z := Z.quot d Millisecond.

Definition leaseMilliseconds (ttl : Z) : result Z :=
  let millis := Milliseconds ttl in
  if millis <=? 0 then Err ErrInvalidGateTTL else Ok millis.

Section Decode.
Context `{J : BindingJson}.

Definition decodeBinding (raw serviceName uid : string) : result GateBinding :=
  match json_Unmarshal raw with
  | Err _ => Err (EWrap "%w: decode stored value" [ESentinel ErrInvalidGateBinding])
  | Ok binding =>
      if negb (bool_decide (ServiceName binding = serviceName)) ||
         negb (bool_decide (UID binding = uid)) || negb (ValidGateBinding binding)
      then Err ErrInvalidGateBinding else Ok binding
  end.

Definition decodeLease (values : list value) (serviceName uid : string) : result GateLease :=
  match values with
  | [_; VStr raw; ttl] =>
      match ttl with
      | VInt ttlMillis =>
          if (ttlMillis <=? 0) || (maxTTLMillis <? ttlMillis) then Err ErrInvalidGateLease
          else let* binding := decodeBinding raw serviceName uid in
               Ok (mkGateLease binding (ttlMillis * Millisecond))
      | VStr _ => Err ErrInvalidGateLease
      end
  | _ => Err ErrInvalidScriptResult
  end.

Definition decodeLeaseResult (values : list value) (serviceName uid : string) : result GateLease :=
  let status := scriptStatus values in
  if status =? statusOK then decodeLease values serviceName uid
  else if status =? statusMissing then Err ErrGateNotFound
  else if status =? statusConflict then Err ErrGateConflict
  else if status =? statusBadLease then Err ErrInvalidGateLease
  else Err ErrInvalidScriptResult.

Definition decodeBindGateResult (values : list value) (serviceName uid : string)
  : result (GateLease * option GateBinding) :=
  if negb (length values =? leaseResultFields)%nat &&
     negb (length values =? leaseResultFields + 1)%nat
  then Err ErrInvalidScriptResult
  else let* lease := decodeLease (take leaseResultFields values) serviceName uid in
       match drop leaseResultFields values with
       | [] => Ok (lease, None)
       | VStr previousRaw :: _ =>
           let* previous := decodeBinding previousRaw serviceName uid in
           Ok (lease, Some previous)
       | VInt _ :: _ => Err ErrInvalidScriptResult
       end.
End Decode.

(** ** Operations

    [now] is the client's clock in nanoseconds, [now_ms] the server's in
    milliseconds; [exec] is what the server does with the text, KEYS and ARGV
    of a script it loaded. *)

Section Locator.
Context `{R : Redis} `{J : BindingJson}.
Context (loads : string → bool) (compileError : error).
Context (exec : string → list string → list value → Z → db → db * list value).

Record call := mkCall { ctx : Ctx.t; now : Z; now_ms : Z; net : fault }.

(** The scripts other than BindGate's are sent as they load. *)
Definition run_loaded (c : call) (run : Z → db → db * list value) (d : db) : db * result (list value) :=
  runScript (λ _, true) compileError (ctx c) (now c) (now_ms c) (net c) (mkScript EmptyString run) d.

Definition BindGate (c : call) (candidate : GateBinding) (ttl : Z) (d : db)
  : db * result (GateLease * option GateBinding) :=
  if negb (ValidGateBinding candidate) then (d, Err ErrInvalidGateBinding)
  else match leaseMilliseconds ttl with
  | Err err => (d, Err err)
  | Ok ttlMillis =>
  match json_Marshal candidate with
  | Err err => (d, Err err)
  | Ok raw =>
      let script := mkScript bindGateScript_text
        (exec bindGateScript_text [gateKey (ServiceName candidate) (UID candidate)]
           [VInt ttlMillis; VStr raw; VStr (ServiceName candidate); VStr (UID candidate)]) in
      match runScript loads compileError (ctx c) (now c) (now_ms c) (net c) script d with
      | (d, Err err) => (d, Err err)
      | (d, Ok values) =>
          let status := scriptStatus values in
          (d, if status =? statusOK
              then decodeBindGateResult values (ServiceName candidate) (UID candidate)
              else if status =? statusBadLease then Err ErrInvalidGateLease
              else if status =? statusInvalid then Err ErrInvalidGateBinding
              else Err ErrInvalidScriptResult)
      end
  end end.

Definition LocateGate (c : call) (serviceName uid : string) (d : db) : db * result GateLease :=
  if negb (ValidServiceName serviceName) || negb (ValidUID uid) then (d, Err ErrInvalidGateBinding)
  else match run_loaded c (locateGate_run (gateKey serviceName uid)) d with
       | (d, Err err) => (d, Err err)
       | (d, Ok values) => (d, decodeLeaseResult values serviceName uid)
       end.

Definition RenewGateLease (c : call) (expected : GateBinding) (ttl : Z) (d : db) : db * result GateLease :=
  if negb (ValidGateBinding expected) then (d, Err ErrInvalidGateBinding)
  else match leaseMilliseconds ttl with
  | Err err => (d, Err err)
  | Ok ttlMillis =>
  match json_Marshal expected with
  | Err err => (d, Err err)
  | Ok raw =>
      match run_loaded c (renewGateLease_run (gateKey (ServiceName expected) (UID expected)) raw ttlMillis) d with
      | (d, Err err) => (d, Err err)
      | (d, Ok values) => (d, decodeLeaseResult values (ServiceName expected) (UID expected))
      end
  end end.

Definition UnbindGate (c : call) (expected : GateBinding) (d : db) : db * option error :=
  if negb (ValidGateBinding expected) then (d, Some (ESentinel ErrInvalidGateBinding))
  else match json_Marshal expected with
  | Err err => (d, Some err)
  | Ok raw =>
      match run_loaded c (unbindGate_run (gateKey (ServiceName expected) (UID expected)) raw) d with
      | (d, Err err) => (d, Some err)
      | (d, Ok values) =>
          let status := scriptStatus values in
          (d, if ackIdempotentUnbind status then None
              else if status =? statusBadLease then Some (ESentinel ErrInvalidGateLease)
              else Some (ESentinel ErrInvalidScriptResult))
      end
  end.
End Locator.

(** ** Lemmas *)

Lemma ValidGateBinding_identity b :
  ValidGateBinding b = true → ValidServiceName (ServiceName b) = true ∧ ValidUID (UID b) = true.
Proof. unfold ValidGateBinding. rewrite !andb_true_iff. tauto. Qed.

Lemma leaseMilliseconds_Ok ttl ms : leaseMilliseconds ttl = Ok ms → 0 < ms ∧ ms = Milliseconds ttl.
Proof. unfold leaseMilliseconds. destruct (Z.leb_spec (Milliseconds ttl) 0); [done|]. intros [= <-]. auto. Qed.

Section LocatorLemmas.
Context `{R : Redis} `{RL : !RedisLaws R}.

(** A call either leaves the server alone or has the effect of the script. *)
Lemma runScript_effect loads e ctx now ms f s d :
  (runScript loads e ctx now ms f s d).1 = d ∨
  (runScript loads e ctx now ms f s d).1 = (run s ms d).1.
Proof.
  unfold runScript. destruct f; simpl; auto.
  all: destruct (loads (text s)); [destruct (run s ms d); simpl|]; auto.
Qed.

Lemma runScript_Delivered loads e ctx now ms s d :
  loads (text s) = true →
  runScript loads e ctx now ms Delivered s d = ((run s ms d).1, Ok (run s ms d).2).
Proof. intros H. unfold runScript. rewrite H. by destruct (run s ms d). Qed.

Lemma runScript_refused loads e ctx now ms f s d :
  loads (text s) = false → (runScript loads e ctx now ms f s d).1 = d ∧
  ∃ err, (runScript loads e ctx now ms f s d).2 = Err err.
Proof.
  intros H. unfold runScript. rewrite H.
  assert (Hl : ∀ err, ∃ e', locatorError ctx now (Some err) = Some e').
  { intros err. unfold locatorError. repeat case_match; simpl; eauto; simplify_eq/=; eauto. }
  destruct f; cbn [fst snd]; (split; [done|]).
  - destruct (Hl e) as [? ->]. eauto.
  - destruct (Hl e0) as [? ->]. eauto.
  - destruct (Hl e0) as [? ->]. eauto.
Qed.
End LocatorLemmas.

(** ** The store of bindings *)

Section GateStore.
Context `{R : Redis} `{RL : !RedisLaws R} `{J : BindingJson} `{JL : !BindingJsonLaws J}.

(** The entry of a binding, and the slots a locator leaves behind: empty, or
    a valid binding of that player under a lease. *)
Definition stored (b : GateBinding) (e : option entry) (w : Z) : Prop :=
  ∃ raw, json_Marshal b = Ok raw ∧ e = Some (raw, Some w).

Definition slot_ok (service uid : string) (e : option entry) : Prop :=
  e = None ∨ ∃ b w, stored b e w ∧ utf8_binding b = true ∧ ValidGateBinding b = true ∧
                    ServiceName b = service ∧ UID b = uid.

Definition slot (d : db) (ms : Z) (service uid : string) : option entry :=
  visible d ms (gateKey service uid).

Lemma marshal_inj a b raw :
  utf8_binding a = true → utf8_binding b = true →
  json_Marshal a = Ok raw → json_Marshal b = Ok raw → a = b.
Proof.
  intros Ha Hb Ma Mb. pose proof (marshal_roundtrip a raw Ha Ma).
  pose proof (marshal_roundtrip b raw Hb Mb). congruence.
Qed.

Lemma decodeBinding_marshal b raw :
  utf8_binding b = true → ValidGateBinding b = true → json_Marshal b = Ok raw →
  decodeBinding raw (ServiceName b) (UID b) = Ok b.
Proof.
  intros Hu Hv Hm. unfold decodeBinding. rewrite (marshal_roundtrip b raw Hu Hm).
  by rewrite !bool_decide_eq_true_2, Hv.
Qed.

(** Effects of the scripts on every key. *)
Lemma locateGate_run_spec key ms d :
  locateGate_run key ms d =
  (d, match visible d ms key with
      | Some (cur, Some w) => if w <=? ms then [VInt (-2)] else [VInt 1; VStr cur; VInt (w - ms)]
      | Some (cur, None) => [VInt (-2)]
      | None => [VInt 0]
      end).
Proof.
  unfold locateGate_run. rewrite visible_GET, visible_PTTL.
  destruct (visible d ms key) as [[cur [w|]]|]; simpl; try done.
  destruct (Z.leb_spec (w - ms) 0), (Z.leb_spec w ms); done || lia.
Qed.

Lemma renewGateLease_run_spec key raw ttl ms d :
  0 < ttl →
  let '(d', values) := renewGateLease_run key raw ttl ms d in
  match visible d ms key with
  | Some (cur, Some w) =>
      if w <=? ms then d' = d ∧ values = [VInt (-2)]
      else if decide (cur = raw)
      then values = [VInt 1; VStr raw; VInt ttl] ∧
           ∀ k, visible d' ms k = if decide (k = key) then Some (raw, Some (ms + ttl)) else visible d ms k
      else d' = d ∧ values = [VInt (-1)]
  | Some (cur, None) => d' = d ∧ values = [VInt (-2)]
  | None => d' = d ∧ values = [VInt 0]
  end.
Proof.
  intros Ht. unfold renewGateLease_run. rewrite visible_GET, visible_PTTL.
  destruct (visible d ms key) as [[cur [w|]]|] eqn:E; simpl; try done.
  destruct (Z.leb_spec (w - ms) 0), (Z.leb_spec w ms); try lia; [done|].
  case_bool_decide as Hc; simpl; rewrite ?decide_True, ?decide_False by done; [|done]. subst cur.
  rewrite visible_PTTL, visible_PEXPIRE, decide_True, E by done. simpl. split; [do 4 f_equal; lia|].
  intros k. rewrite visible_PEXPIRE by done. by rewrite E.
Qed.

Lemma unbindGate_run_spec key raw ms d :
  let '(d', values) := unbindGate_run key raw ms d in
  match visible d ms key with
  | Some (cur, Some w) =>
      if w <=? ms then d' = d ∧ values = [VInt (-2)]
      else if decide (cur = raw)
      then values = [VInt 1] ∧
           ∀ k, visible d' ms k = if decide (k = key) then None else visible d ms k
      else d' = d ∧ values = [VInt (-1)]
  | Some (cur, None) => d' = d ∧ values = [VInt (-2)]
  | None => d' = d ∧ values = [VInt 0]
  end.
Proof.
  unfold unbindGate_run. rewrite visible_GET, visible_PTTL.
  destruct (visible d ms key) as [[cur [w|]]|] eqn:E; simpl; try done.
  destruct (Z.leb_spec (w - ms) 0), (Z.leb_spec w ms); try lia; [done|].
  case_bool_decide as Hc; simpl; rewrite ?decide_True, ?decide_False by done; [|done].
  split; [done|]. intros k. apply visible_DEL.
Qed.
End GateStore.

(** ** Properties *)

Lemma bind_text_unbalanced : Lua.plain bindGateScript_text = true ∧ Lua.open_blocks bindGateScript_text = 1.
Proof. by vm_compute. Qed.

(** BindGate sends a text that no server loads. *)
Lemma BindGate_refused `{R : Redis} `{J : BindingJson} loads e exec c candidate ttl d :
  Lua.grammar loads → ∃ err, BindGate loads e exec c candidate ttl d = (d, Err err).
Proof.
  intros Hg. destruct bind_text_unbalanced as [Hp Hb].
  assert (Hl : loads bindGateScript_text = false).
  { destruct (loads bindGateScript_text) eqn:E; [|done]. specialize (Hg _ Hp E). lia. }
  unfold BindGate. destruct (negb (ValidGateBinding candidate)); [by eexists|].
  destruct (leaseMilliseconds ttl) as [ms|]; [|by eexists].
  destruct (json_Marshal candidate) as [raw|]; [|by eexists].
  set (script := mkScript _ _).
  destruct (runScript_refused loads e (ctx c) (now c) (now_ms c) (net c) script d Hl) as [H1 [err H2]].
  destruct (runScript _ _ _ _ _ _ _ d) as [d' r]; simpl in *. subst. by eexists.
Qed.

(** C16: [_bindGateScript] as it stands never closes [if current then]: on any
    server whose Lua follows the grammar, BindGate fails for every binding,
    TTL, network behaviour and store, and changes nothing. *)
Theorem bindGate_script_never_loads `{R : Redis} `{J : BindingJson} loads e exec c candidate ttl d :
  Lua.grammar loads →
  ∃ err, BindGate loads e exec c candidate ttl d = (d, Err err).
Proof. apply BindGate_refused. Qed.

Section GateTheorems.
Context `{R : Redis} `{RL : !RedisLaws R} `{J : BindingJson} `{JL : !BindingJsonLaws J}.

Definition delivered (ctx : Ctx.t) (now ms : Z) : call := mkCall ctx now ms Delivered.

Lemma Milliseconds_bounds ttl :
  Millisecond ≤ ttl < 2 ^ 63 → 0 < Milliseconds ttl ≤ maxTTLMillis.
Proof.
  intros Ht. unfold Milliseconds, maxTTLMillis. rewrite Z.quot_div_nonneg by (unfold Millisecond in *; lia).
  split; [apply Z.div_str_pos; unfold Millisecond in *; lia|].
  apply Z.div_le_mono; unfold Millisecond; lia.
Qed.

Lemma run_loaded_delivered e ctx now ms run d :
  run_loaded e (delivered ctx now ms) run d = ((run ms d).1, Ok (run ms d).2).
Proof. unfold run_loaded. by rewrite runScript_Delivered. Qed.

(** What LocateGate returns for a stored binding. *)
Definition located (b : GateBinding) (w t : Z) : result GateLease :=
  if t <? w then Ok (mkGateLease b ((w - t) * Millisecond))
  else if t =? w then Err ErrInvalidGateLease else Err ErrGateNotFound.

Lemma LocateGate_stored e ctx now t d b raw ms w :
  utf8_binding b = true → ValidGateBinding b = true → json_Marshal b = Ok raw →
  slot d ms (ServiceName b) (UID b) = Some (raw, Some w) → ms ≤ t → w - t ≤ maxTTLMillis →
  LocateGate e (delivered ctx now t) (ServiceName b) (UID b) d = (d, located b w t).
Proof.
  intros Hu Hv Hm Hs Ht Hmax. destruct (ValidGateBinding_identity b Hv) as [H1 H2].
  unfold LocateGate. rewrite H1, H2. simpl. rewrite run_loaded_delivered.
  rewrite locateGate_run_spec. unfold slot in Hs. rewrite (visible_later _ ms t _ Ht), Hs. simpl.
  f_equal. unfold located. destruct (Z.leb_spec t w); simpl.
  - destruct (Z.leb_spec w t), (Z.ltb_spec t w); try lia.
    + destruct (Z.eqb_spec t w); [done|lia].
    + unfold decodeLeaseResult; simpl. destruct (Z.leb_spec (w - t) 0); [lia|].
      destruct (Z.ltb_spec maxTTLMillis (w - t)); [lia|]. simpl.
      by rewrite decodeBinding_marshal.
  - destruct (Z.ltb_spec t w), (Z.eqb_spec t w); done || lia.
Qed.

Lemma decodeLease_ok b raw T :
  utf8_binding b = true → ValidGateBinding b = true → json_Marshal b = Ok raw → 0 < T ≤ maxTTLMillis →
  decodeLease [VInt 1; VStr raw; VInt T] (ServiceName b) (UID b) = Ok (mkGateLease b (T * Millisecond)).
Proof.
  intros Hu Hv Hm HT. unfold decodeLease. destruct (Z.leb_spec T 0); [lia|].
  destruct (Z.ltb_spec maxTTLMillis T); [lia|]. cbn [orb]. by rewrite decodeBinding_marshal.
Qed.

(** The holder of a binding renews it and gives it back. *)
Lemma RenewGateLease_holder e ctx now ms d b raw w ttl :
  utf8_binding b = true → ValidGateBinding b = true → json_Marshal b = Ok raw →
  slot d ms (ServiceName b) (UID b) = Some (raw, Some w) → ms < w → 0 < Milliseconds ttl ≤ maxTTLMillis →
  ∃ d', RenewGateLease e (delivered ctx now ms) b ttl d =
          (d', Ok (mkGateLease b (Milliseconds ttl * Millisecond))) ∧
        slot d' ms (ServiceName b) (UID b) = Some (raw, Some (ms + Milliseconds ttl)).
Proof.
  intros Hu Hv Hm Hs Hw HT. unfold slot in *. unfold RenewGateLease. rewrite Hv; cbn [negb].
  unfold leaseMilliseconds. destruct (Z.leb_spec (Milliseconds ttl) 0); [lia|].
  rewrite Hm, run_loaded_delivered.
  pose proof (renewGateLease_run_spec (gateKey (ServiceName b) (UID b)) raw (Milliseconds ttl) ms d
    ltac:(lia)) as Hrun. rewrite Hs in Hrun.
  destruct (renewGateLease_run _ _ _ _ _) as [d' values]. destruct (Z.leb_spec w ms); [lia|].
  rewrite decide_True in Hrun by done. destruct Hrun as [-> Hd]. exists d'. split.
  - cbn -[decodeLease]. f_equal. by apply (decodeLease_ok b raw (Milliseconds ttl)).
  - by rewrite Hd, decide_True.
Qed.

Lemma UnbindGate_holder e ctx now ms d b raw w :
  ValidGateBinding b = true → json_Marshal b = Ok raw →
  slot d ms (ServiceName b) (UID b) = Some (raw, Some w) → ms < w →
  ∃ d', UnbindGate e (delivered ctx now ms) b d = (d', None) ∧
        visible d' ms (gateKey (ServiceName b) (UID b)) = None.
Proof.
  intros Hv Hm Hs Hw. unfold slot in *. unfold UnbindGate. rewrite Hv, Hm, run_loaded_delivered; cbn [negb].
  pose proof (unbindGate_run_spec (gateKey (ServiceName b) (UID b)) raw ms d) as Hrun. rewrite Hs in Hrun.
  destruct (unbindGate_run _ _ _ _) as [d' values]. destruct (Z.leb_spec w ms); [lia|].
  rewrite decide_True in Hrun by done. destruct Hrun as [-> Hd]. exists d'. split; [done|].
  by rewrite Hd, decide_True.
Qed.

Lemma LocateGate_missing e ctx now t d b :
  ValidGateBinding b = true → visible d t (gateKey (ServiceName b) (UID b)) = None →
  LocateGate e (delivered ctx now t) (ServiceName b) (UID b) d = (d, Err ErrGateNotFound).
Proof.
  intros Hv Hn. destruct (ValidGateBinding_identity b Hv) as [H1 H2]. unfold LocateGate.
  rewrite H1, H2; cbn [negb orb]. by rewrite run_loaded_delivered, locateGate_run_spec, Hn.
Qed.

Lemma UnbindGate_missing e ctx now t d b raw :
  ValidGateBinding b = true → json_Marshal b = Ok raw →
  visible d t (gateKey (ServiceName b) (UID b)) = None →
  UnbindGate e (delivered ctx now t) b d = (d, None).
Proof.
  intros Hv Hm Hn. unfold UnbindGate. rewrite Hv, Hm, run_loaded_delivered; cbn [negb].
  pose proof (unbindGate_run_spec (gateKey (ServiceName b) (UID b)) raw t d) as Hrun.
  rewrite Hn in Hrun. destruct (unbindGate_run _ _ _ _) as [d' values]. by destruct Hrun as [-> ->].
Qed.

(** C15: the life of a lease: while a binding is stored and its lease runs,
    LocateGate finds exactly it with the time that is left; renewing it gives
    the full TTL again, which LocateGate then reports until the new lease
    ends; and once it is unbound LocateGate finds nothing, at any later time,
    and unbinding again succeeds and changes nothing. *)
Theorem gate_lease_life e ctx now ms d b raw w ttl :
  utf8_binding b = true → json_Marshal b = Ok raw → ValidGateBinding b = true →
  slot d ms (ServiceName b) (UID b) = Some (raw, Some w) → ms < w ≤ ms + maxTTLMillis →
  Millisecond ≤ ttl < 2 ^ 63 →
  (∀ ctx' now' t, ms ≤ t →
     LocateGate e (delivered ctx' now' t) (ServiceName b) (UID b) d = (d, located b w t)) ∧
  (∃ d', RenewGateLease e (delivered ctx now ms) b ttl d =
           (d', Ok (mkGateLease b (Milliseconds ttl * Millisecond))) ∧
         ∀ ctx' now' t, ms ≤ t →
           LocateGate e (delivered ctx' now' t) (ServiceName b) (UID b) d' =
             (d', located b (ms + Milliseconds ttl) t)) ∧
  (∃ d', UnbindGate e (delivered ctx now ms) b d = (d', None) ∧
         ∀ ctx' now' t, ms ≤ t →
           LocateGate e (delivered ctx' now' t) (ServiceName b) (UID b) d' = (d', Err ErrGateNotFound) ∧
           UnbindGate e (delivered ctx' now' t) b d' = (d', None)).
Proof.
  intros Hu Hm Hv Hs Hw Ht. pose proof (Milliseconds_bounds ttl Ht) as HT. split_and!.
  - intros. eapply LocateGate_stored; eauto. lia.
  - destruct (RenewGateLease_holder e ctx now ms d b raw w ttl) as (d'&E&Hd); auto; [lia..|].
    exists d'. split; [done|]. intros. eapply LocateGate_stored; eauto; lia.
  - destruct (UnbindGate_holder e ctx now ms d b raw w) as (d'&E&Hd); auto; [lia|].
    exists d'. split; [done|]. intros ctx' now' t Hle.
    assert (Hn : visible d' t (gateKey (ServiceName b) (UID b)) = None).
    { by rewrite (visible_later _ ms t _ Hle), Hd. }
    eauto using LocateGate_missing, UnbindGate_missing.
Qed.

(** How an operation for [b] may change the store at server time [ms]. *)
Definition only_own (b : GateBinding) (d d' : db) (ms : Z) : Prop :=
  ∀ k, visible d' ms k = visible d ms k ∨
       k = gateKey (ServiceName b) (UID b) ∧
       (visible d' ms k = None ∨ ∃ w, stored b (visible d' ms k) w).

Lemma only_own_refl b d ms : only_own b d d ms.
Proof. by left. Qed.

Lemma only_own_write b d d' ms e :
  (e = None ∨ ∃ w, stored b e w) →
  (∀ k, visible d' ms k = if decide (k = gateKey (ServiceName b) (UID b)) then e else visible d ms k) →
  only_own b d d' ms.
Proof. intros He Hd k. rewrite Hd. case_decide; [right|left]; auto. Qed.

(** A script changes the server only through the commands of its text, and the
    one of the bind script that writes is [PSETEX] of ARGV[2] under KEYS[1] for
    ARGV[1] milliseconds. *)
Definition writes_by_PSETEX (exec : string → list string → list value → Z → db → db * list value) : Prop :=
  ∀ key ttl raw service uid ms d, ∃ n,
    (exec bindGateScript_text [key] [VInt ttl; VStr raw; VStr service; VStr uid] ms d).1 =
    Nat.iter n (PSETEX ms key ttl raw) d.

Lemma PSETEX_iter ms key ttl raw d n : 0 < ttl →
  Nat.iter n (PSETEX ms key ttl raw) d = d ∨
  ∀ k, visible (Nat.iter n (PSETEX ms key ttl raw) d) ms k =
       if decide (k = key) then Some (raw, Some (ms + ttl)) else visible d ms k.
Proof.
  intros Ht. destruct n as [|n]; [by left|right]. induction n as [|n IH]; intros k; simpl in *;
    rewrite visible_PSETEX by done; [done|]. rewrite IH. by case_decide.
Qed.

Lemma BindGate_own loads e exec c b ttl d :
  writes_by_PSETEX exec → only_own b d (BindGate loads e exec c b ttl d).1 (now_ms c).
Proof.
  intros Hx. unfold BindGate. destruct (negb (ValidGateBinding b)); [apply only_own_refl|].
  destruct (leaseMilliseconds ttl) as [T|] eqn:ET; [|apply only_own_refl].
  apply leaseMilliseconds_Ok in ET as [HT _].
  destruct (json_Marshal b) as [raw|] eqn:Hm; [|apply only_own_refl].
  set (script := mkScript _ _). set (r := runScript _ _ _ _ _ _ _ _).
  assert (Hr : r.1 = d ∨ r.1 = (run script (now_ms c) d).1) by apply runScript_effect.
  replace (let (d', _) := r in _).1 with r.1 by (by destruct r as [? []]).
  destruct Hr as [->| ->]; [apply only_own_refl|]. unfold script; cbn [run].
  destruct (Hx (gateKey (ServiceName b) (UID b)) T raw (ServiceName b) (UID b) (now_ms c) d) as [n ->].
  destruct (PSETEX_iter (now_ms c) (gateKey (ServiceName b) (UID b)) T raw d n HT) as [->|Hd];
    [apply only_own_refl|].
  apply (only_own_write _ _ _ _ (Some (raw, Some (now_ms c + T)))); [|done]. right. do 2 eexists; eauto.
Qed.

Lemma RenewGateLease_own e c b ttl d :
  only_own b d (RenewGateLease e c b ttl d).1 (now_ms c).
Proof.
  unfold RenewGateLease. destruct (negb (ValidGateBinding b)); [apply only_own_refl|].
  destruct (leaseMilliseconds ttl) as [T|] eqn:ET; [|apply only_own_refl].
  apply leaseMilliseconds_Ok in ET as [HT _].
  destruct (json_Marshal b) as [raw|] eqn:Hm; [|apply only_own_refl].
  set (run0 := renewGateLease_run _ _ _). set (r := run_loaded _ _ _ _).
  assert (Hr : r.1 = d ∨ r.1 = (run0 (now_ms c) d).1) by apply (runScript_effect (λ _, true)).
  replace (let (d', _) := r in _).1 with r.1 by (by destruct r as [? []]).
  destruct Hr as [->| ->]; [apply only_own_refl|].
  pose proof (renewGateLease_run_spec (gateKey (ServiceName b) (UID b)) raw T (now_ms c) d HT) as Hs.
  fold run0 in Hs. destruct (run0 (now_ms c) d) as [d' values]; cbn [fst].
  assert (Hw : ∃ w, stored b (Some (raw, Some (now_ms c + T))) w) by (do 2 eexists; eauto).
  repeat case_match; destruct Hs as [Hs Hs']; subst; eauto using only_own_refl, only_own_write.
Qed.

Lemma UnbindGate_own e c b d : only_own b d (UnbindGate e c b d).1 (now_ms c).
Proof.
  unfold UnbindGate. destruct (negb (ValidGateBinding b)); [apply only_own_refl|].
  destruct (json_Marshal b) as [raw|] eqn:Hm; [|apply only_own_refl].
  set (run0 := unbindGate_run _ _). set (r := run_loaded _ _ _ _).
  assert (Hr : r.1 = d ∨ r.1 = (run0 (now_ms c) d).1) by apply (runScript_effect (λ _, true)).
  replace (let (d', _) := r in _).1 with r.1 by (by destruct r as [? []]).
  destruct Hr as [->| ->]; [apply only_own_refl|].
  pose proof (unbindGate_run_spec (gateKey (ServiceName b) (UID b)) raw (now_ms c) d) as Hs.
  fold run0 in Hs. destruct (run0 (now_ms c) d) as [d' values]; cbn [fst].
  repeat case_match; destruct Hs as [Hs Hs']; subst; eauto using only_own_refl, only_own_write.
Qed.

(** Every slot of the store is empty or holds a valid binding of its player. *)
Definition gates_ok (d : db) (ms : Z) : Prop :=
  ∀ service uid, ValidServiceName service = true → slot_ok service uid (slot d ms service uid).

Lemma only_own_gates_ok b d d' ms :
  utf8_binding b = true → ValidGateBinding b = true → only_own b d d' ms →
  gates_ok d ms → gates_ok d' ms.
Proof.
  intros Hu Hv Ho Hd service uid Hs. destruct (Ho (gateKey service uid)) as [E|[E H]].
  - unfold slot. rewrite E. by apply Hd.
  - apply gateKey_inj in E as [-> ->]; [|done|by apply ValidGateBinding_identity].
    destruct H as [H|[w H]]; [by left|right]. exists b, w. by split_and!.
Qed.

(** C11: whatever the network does, BindGate, RenewGateLease and UnbindGate
    keep the store well formed, and touch no slot but their own player's. *)
Theorem gate_store_invariant loads e exec c b ttl d :
  writes_by_PSETEX exec → utf8_binding b = true → gates_ok d (now_ms c) →
  (∀ d', d' = (BindGate loads e exec c b ttl d).1 ∨ d' = (RenewGateLease e c b ttl d).1 ∨
         d' = (UnbindGate e c b d).1 →
   gates_ok d' (now_ms c) ∧
   ∀ k, k ≠ gateKey (ServiceName b) (UID b) → visible d' (now_ms c) k = visible d (now_ms c) k).
Proof.
  intros Hg Hu Hd d' Hd'. destruct (ValidGateBinding b) eqn:Hv.
  - assert (Ho : only_own b d d' (now_ms c)).
    { destruct Hd' as [->|[->| ->]]; auto using BindGate_own, RenewGateLease_own, UnbindGate_own. }
    split; [by eapply only_own_gates_ok|]. intros k Hk. by destruct (Ho k) as [?|[? _]].
  - assert (d' = d) as ->; [|done].
    destruct Hd' as [->|[->| ->]]; unfold BindGate, RenewGateLease, UnbindGate; by rewrite Hv.
Qed.

(** C14: fencing: a connection whose binding is not the stored one can neither
    renew nor remove what is stored, whatever the network does; only the
    holder extends its lease, and unbinding leaves no entry behind. *)
Theorem stale_gate_fenced e c b ttl d raw :
  json_Marshal b = Ok raw →
  (∀ w, slot d (now_ms c) (ServiceName b) (UID b) ≠ Some (raw, w)) →
  (∀ k, visible (RenewGateLease e c b ttl d).1 (now_ms c) k = visible d (now_ms c) k) ∧
  (∀ k, visible (UnbindGate e c b d).1 (now_ms c) k = visible d (now_ms c) k) ∧
  (∀ lease, (RenewGateLease e c b ttl d).2 ≠ Ok lease).
Proof.
  intros Hm Hst. unfold slot in Hst.
  assert (Hren : ∀ T, 0 < T → ∃ n,
    renewGateLease_run (gateKey (ServiceName b) (UID b)) raw T (now_ms c) d = (d, [VInt n]) ∧ n ≤ 0).
  { intros T HT. pose proof (renewGateLease_run_spec (gateKey (ServiceName b) (UID b)) raw T (now_ms c) d HT) as Hs.
    destruct (renewGateLease_run _ _ _ _ _) as [d' values].
    repeat case_match; simplify_eq; try (by edestruct Hst); destruct Hs as [-> ->];
      eexists; (split; [reflexivity|done]). }
  split_and!.
  - unfold RenewGateLease. destruct (negb (ValidGateBinding b)); [done|].
    destruct (leaseMilliseconds ttl) as [T|] eqn:ET; [|done].
    apply leaseMilliseconds_Ok in ET as [HT _]. rewrite Hm. destruct (Hren T HT) as (n&En&_).
    unfold run_loaded, runScript; cbn [text run]. rewrite En.
    destruct (net c); cbn -[locatorError]; by repeat case_match.
  - unfold UnbindGate. destruct (negb (ValidGateBinding b)); [done|]. rewrite Hm.
    assert ((unbindGate_run (gateKey (ServiceName b) (UID b)) raw (now_ms c) d).1 = d) as Eu.
    { pose proof (unbindGate_run_spec (gateKey (ServiceName b) (UID b)) raw (now_ms c) d) as Hs.
      destruct (unbindGate_run _ _ _ _) as [d' values].
      repeat case_match; simplify_eq; try (by edestruct Hst); by destruct Hs. }
    unfold run_loaded, runScript; cbn [text run].
    destruct (unbindGate_run _ _ _ _) as [d' values]; simpl in Eu; subst.
    destruct (net c); cbn -[locatorError]; by repeat case_match.
  - intros lease. unfold RenewGateLease. destruct (negb (ValidGateBinding b)); [done|].
    destruct (leaseMilliseconds ttl) as [T|] eqn:ET; [|done].
    apply leaseMilliseconds_Ok in ET as [HT _]. rewrite Hm. destruct (Hren T HT) as (n&En&Hn).
    unfold run_loaded, runScript; cbn [text run]. rewrite En.
    assert (Hd : ∀ lease', decodeLeaseResult [VInt n] (ServiceName b) (UID b) ≠ Ok lease').
    { intros l. unfold decodeLeaseResult, scriptStatus, statusOK. by repeat case_match. }
    destruct (net c); cbn -[decodeLeaseResult locatorError]; [done|..].
    all: destruct (locatorError _ _ _); [done|]; by cbn.
Qed.

End GateTheorems.
