(* ===== verification/Json.v ===== *)
(** * Go's encoding/json on bindings

    The encoder of a struct of strings (with its escapes and its replacement
    of invalid UTF-8), and the decoder: syntax, string unquoting, field
    matching.  It implements the [BindingJson] interface the locator uses. *)

From S2P Require Import Prelude Errors Locate Keys Redis GateLocator.
From Stdlib Require Import Strings.Ascii.

Definition chr (n : nat) : ascii := ascii_of_nat n.
Definition dq : ascii := chr 34.
Definition bs : ascii := chr 92.
Definition one (c : ascii) : string := String c EmptyString.

(** ** Encoding a string *)

Definition hex_digit (n : Z) : ascii := if (n <? 10)%Z then Z_char (48 + n) else Z_char (87 + n).

Definition esc (c : ascii) : string :=
  let z := char_Z c in
  if (z =? 34) || (z =? 92) then String bs (one c)
  else if z =? 8 then String bs (one "b"%char)
  else if z =? 12 then String bs (one "f"%char)
  else if z =? 10 then String bs (one "n"%char)
  else if z =? 13 then String bs (one "r"%char)
  else if z =? 9 then String bs (one "t"%char)
  else if (z <? 32) || (z =? 60) || (z =? 62) || (z =? 38)
  then String bs (String "u"%char (String "0"%char (String "0"%char
         (String (hex_digit (z / 16)) (one (hex_digit (z mod 16)))))))
  else one c.

Definition replacement : string := String (chr 239) (String (chr 191) (one (chr 189))).
Definition bad_utf8 : string := String bs "ufffd"%string.

Definition inr (r : Z * Z) (c : ascii) : bool := within r.1 r.2 c.

(** U+2028 and U+2029. *)
Definition line_sep (c a b : ascii) : bool :=
  (char_Z c =? 226) && (char_Z a =? 128) && ((char_Z b =? 168) || (char_Z b =? 169)).

Fixpoint enc_chars (s : string) : string :=
  match s with
  | EmptyString => EmptyString
  | String c s1 =>
      match continuation c with
      | Some [] => esc c +:+ enc_chars s1
      | Some [r1] =>
          match s1 with
          | String a s2 =>
              if inr r1 a then String c (String a (enc_chars s2)) else bad_utf8 +:+ enc_chars s1
          | EmptyString => bad_utf8
          end
      | Some [r1; r2] =>
          match s1 with
          | String a (String b s3) =>
              if inr r1 a && inr r2 b
              then (if line_sep c a b
                    then String bs (String "u"%char (String "2"%char (String "0"%char (String "2"%char
                           (String (hex_digit (char_Z b - 160)) (enc_chars s3))))))
                    else String c (String a (String b (enc_chars s3))))
              else bad_utf8 +:+ enc_chars s1
          | _ => bad_utf8 +:+ enc_chars s1
          end
      | Some [r1; r2; r3] =>
          match s1 with
          | String a (String b (String e s4)) =>
              if inr r1 a && inr r2 b && inr r3 e
              then String c (String a (String b (String e (enc_chars s4))))
              else bad_utf8 +:+ enc_chars s1
          | _ => bad_utf8 +:+ enc_chars s1
          end
      | _ => bad_utf8 +:+ enc_chars s1
      end
  end.

Definition enc_string (s : string) : string := String dq (enc_chars s +:+ one dq).

(** ** Decoding a string *)

Definition hex_val (c : ascii) : option Z :=
  let z := char_Z c in
  if within 48 57 c then Some (z - 48)
  else if within 97 102 c then Some (z - 87)
  else if within 65 70 c then Some (z - 55)
  else None.

Definition hex4 (a b c d : ascii) : option Z :=
  match hex_val a, hex_val b, hex_val c, hex_val d with
  | Some a, Some b, Some c, Some d => Some (((a * 16 + b) * 16 + c) * 16 + d)
  | _, _, _, _ => None
  end.

(** UTF-8 of a code point; a lone surrogate becomes U+FFFD. *)
Definition put_rune (r : Z) : string :=
  if r <? 128 then one (Z_char r)
  else if r <? 2048 then String (Z_char (192 + r / 64)) (one (Z_char (128 + r mod 64)))
  else if (55296 <=? r) && (r <? 57344) then replacement
  else if r <? 65536
  then String (Z_char (224 + r / 4096)) (String (Z_char (128 + (r / 64) mod 64))
         (one (Z_char (128 + r mod 64))))
  else String (Z_char (240 + r / 262144)) (String (Z_char (128 + (r / 4096) mod 64))
         (String (Z_char (128 + (r / 64) mod 64)) (one (Z_char (128 + r mod 64))))).

Definition simple_escape (c : ascii) : option ascii :=
  let z := char_Z c in
  if (z =? 34) || (z =? 92) || (z =? 47) then Some c
  else if z =? 98 then Some (chr 8) else if z =? 102 then Some (chr 12)
  else if z =? 110 then Some (chr 10) else if z =? 114 then Some (chr 13)
  else if z =? 116 then Some (chr 9) else None.

Definition emit (pre : string) (r : option (string * string)) : option (string * string) :=
  match r with Some (t, rest) => Some (pre +:+ t, rest) | None => None end.

(** One character of a string literal, unquoted, and the input after it. *)
Definition dec_escape (s1 : string) : option (string * string) :=
  match s1 with
  | EmptyString => None
  | String u s2 =>
      if Ascii.eqb u "u"%char then
        match s2 with
        | String h1 (String h2 (String h3 (String h4 s6))) =>
            match hex4 h1 h2 h3 h4 with
            | None => None
            | Some r =>
                match s6 with
                | String b' (String u' (String i1 (String i2 (String i3 (String i4 s12))))) =>
                    match hex4 i1 i2 i3 i4 with
                    | Some r' =>
                        if (55296 <=? r) && (r <? 56320) && (56320 <=? r') && (r' <? 57344) &&
                           Ascii.eqb b' bs && Ascii.eqb u' "u"%char
                        then Some (put_rune (65536 + (r - 55296) * 1024 + (r' - 56320)), s12)
                        else Some (put_rune r, s6)
                    | None => Some (put_rune r, s6)
                    end
                | _ => Some (put_rune r, s6)
                end
            end
        | _ => None
        end
      else match simple_escape u with Some e => Some (one e, s2) | None => None end
  end.

Definition dec_char (c : ascii) (s1 : string) : option (string * string) :=
  match continuation c with
  | Some [] =>
      if Ascii.eqb c bs then dec_escape s1
      else if char_Z c <? 32 then None
      else Some (one c, s1)
  | Some [r1] =>
      match s1 with
      | String a s2 => if inr r1 a then Some (String c (one a), s2) else Some (replacement, s1)
      | EmptyString => Some (replacement, s1)
      end
  | Some [r1; r2] =>
      match s1 with
      | String a (String b s3) =>
          if inr r1 a && inr r2 b then Some (String c (String a (one b)), s3) else Some (replacement, s1)
      | _ => Some (replacement, s1)
      end
  | Some [r1; r2; r3] =>
      match s1 with
      | String a (String b (String e s4)) =>
          if inr r1 a && inr r2 b && inr r3 e
          then Some (String c (String a (String b (one e))), s4) else Some (replacement, s1)
      | _ => Some (replacement, s1)
      end
  | _ => Some (replacement, s1)
  end.

(** The characters of a string literal up to its closing quote, unquoted, and
    the input after it. *)
Fixpoint dec_loop (fuel : nat) (s : string) : option (string * string) :=
  match fuel, s with
  | S fuel, String c s1 =>
      if Ascii.eqb c dq then Some (EmptyString, s1)
      else match dec_char c s1 with
           | Some (t, rest) => emit t (dec_loop fuel rest)
           | None => None
           end
  | _, _ => None
  end.
Definition dec_chars (s : string) : option (string * string) := dec_loop (String.length s) s.

(** ** Values *)

#[warnings="-register-all"]
Inductive json :=
| JNull | JBool (b : bool) | JNum | JStr (s : string)
| JArr (l : list json) | JObj (l : list (string * json)).

Definition space (c : ascii) : bool :=
  let z := char_Z c in (z =? 32) || (z =? 9) || (z =? 10) || (z =? 13).

Fixpoint skip (s : string) : string :=
  match s with
  | String c s' => if space c then skip s' else s
  | EmptyString => s
  end.

Fixpoint strip (p s : string) : option string :=
  match p, s with
  | EmptyString, _ => Some s
  | String a p, String b s => if Ascii.eqb a b then strip p s else None
  | _, _ => None
  end.

Definition digit (c : ascii) : bool := within 48 57 c.

Fixpoint skip_digits (s : string) : string :=
  match s with
  | String c s' => if digit c then skip_digits s' else s
  | EmptyString => s
  end.

(** At least one digit. *)
Definition digits1 (s : string) : option string :=
  match s with String c s' => if digit c then Some (skip_digits s') else None | _ => None end.

(** The optional fraction and exponent, after the integer part. *)
Definition number_exp (s : string) : option string :=
  match s with
  | String c s' =>
      if Ascii.eqb c "e"%char || Ascii.eqb c "E"%char
      then match s' with
           | String d s'' => if Ascii.eqb d "+"%char || Ascii.eqb d "-"%char then digits1 s'' else digits1 s'
           | EmptyString => None
           end
      else Some s
  | EmptyString => Some s
  end.
Definition number_frac (s : string) : option string :=
  match s with
  | String c s' => if Ascii.eqb c "."%char
                   then match digits1 s' with Some s'' => number_exp s'' | None => None end
                   else number_exp s
  | EmptyString => Some s
  end.
Definition number (s : string) : option string :=
  let s := match s with String c s' => if Ascii.eqb c "-"%char then s' else s | _ => s end in
  match s with
  | String c s' => if Ascii.eqb c "0"%char then number_frac s'
                   else if digit c then number_frac (skip_digits s') else None
  | EmptyString => None
  end.

Definition maxNestingDepth : Z := 10000.

(** [depth] counts the open arrays and objects; the fuel is at least the
    length of the input, of which every call consumes a character. *)
Fixpoint parse_value (fuel : nat) (depth : Z) (s : string) : option (json * string) :=
  match fuel with
  | O => None
  | S fuel =>
      match skip s with
      | EmptyString => None
      | String c s1 as s0 =>
          if Ascii.eqb c dq
          then match dec_chars s1 with Some (t, rest) => Some (JStr t, rest) | None => None end
          else if Ascii.eqb c "{"%char
          then if maxNestingDepth <=? depth then None
               else match skip s1 with
                    | String d rest as s2 =>
                        if Ascii.eqb d "}"%char then Some (JObj [], rest)
                        else match parse_members fuel (depth + 1) s2 with
                             | Some (l, rest) => Some (JObj l, rest)
                             | None => None
                             end
                    | EmptyString => None
                    end
          else if Ascii.eqb c "["%char
          then if maxNestingDepth <=? depth then None
               else match skip s1 with
                    | String d rest as s2 =>
                        if Ascii.eqb d "]"%char then Some (JArr [], rest)
                        else match parse_elements fuel (depth + 1) s2 with
                             | Some (l, rest) => Some (JArr l, rest)
                             | None => None
                             end
                    | EmptyString => None
                    end
          else match strip "null"%string s0, strip "true"%string s0, strip "false"%string s0, number s0 with
               | Some rest, _, _, _ => Some (JNull, rest)
               | _, Some rest, _, _ => Some (JBool true, rest)
               | _, _, Some rest, _ => Some (JBool false, rest)
               | _, _, _, Some rest => Some (JNum, rest)
               | _, _, _, _ => None
               end
      end
  end
with parse_members (fuel : nat) (depth : Z) (s : string) : option (list (string * json) * string) :=
  match fuel with
  | O => None
  | S fuel =>
      match skip s with
      | String c s1 =>
          if negb (Ascii.eqb c dq) then None
          else match dec_chars s1 with
          | None => None
          | Some (key, s2) =>
          match skip s2 with
          | String colon s3 =>
              if negb (Ascii.eqb colon ":"%char) then None
              else match parse_value fuel depth s3 with
              | None => None
              | Some (v, s4) =>
              match skip s4 with
              | String d s5 =>
                  if Ascii.eqb d "}"%char then Some ([(key, v)], s5)
                  else if Ascii.eqb d ","%char
                  then match parse_members fuel depth s5 with
                       | Some (l, rest) => Some ((key, v) :: l, rest)
                       | None => None
                       end
                  else None
              | EmptyString => None
              end end
          | EmptyString => None
          end end
      | EmptyString => None
      end
  end
with parse_elements (fuel : nat) (depth : Z) (s : string) : option (list json * string) :=
  match fuel with
  | O => None
  | S fuel =>
      match parse_value fuel depth s with
      | None => None
      | Some (v, s1) =>
          match skip s1 with
          | String d s2 =>
              if Ascii.eqb d "]"%char then Some ([v], s2)
              else if Ascii.eqb d ","%char
              then match parse_elements fuel depth s2 with
                   | Some (l, rest) => Some (v :: l, rest)
                   | None => None
                   end
              else None
          | EmptyString => None
          end
      end
  end.

Definition parse (s : string) : option json :=
  match parse_value (64 + 2 * String.length s) 0 s with
  | Some (v, rest) => match skip rest with EmptyString => Some v | _ => None end
  | None => None
  end.

(** ** Struct fields *)

(** [foldName]: ASCII letters, the Kelvin sign and the long s fold to lower
    case; other characters do not fold to a letter of a field name. *)
Fixpoint fold_name (s : string) : string :=
  match s with
  | EmptyString => EmptyString
  | String c s1 =>
      if within 65 90 c then String (Z_char (char_Z c + 32)) (fold_name s1)
      else match s1 with
           | String a (String b s3 as s2) =>
               if (char_Z c =? 226) && (char_Z a =? 132) && (char_Z b =? 170)
               then String "k"%char (fold_name s3)
               else if (char_Z c =? 197) && (char_Z a =? 191)
               then String "s"%char (fold_name s2)
               else String c (fold_name s1)
           | String a EmptyString =>
               if (char_Z c =? 197) && (char_Z a =? 191) then one "s"%char
               else String c (fold_name s1)
           | EmptyString => one c
           end
  end.

Definition field_names : list string :=
  ["service_name"; "uid"; "gate_id"; "gate_endpoint"; "conn_id"; "binding_token"]%string.

Definition zero_binding : GateBinding :=
  mkGateBinding EmptyString EmptyString EmptyString EmptyString EmptyString EmptyString.

Definition set_field (name v : string) (b : GateBinding) : GateBinding :=
  if bool_decide (name = "service_name")%string then b <| ServiceName := v |>
  else if bool_decide (name = "uid")%string then b <| UID := v |>
  else if bool_decide (name = "gate_id")%string then b <| GateID := v |>
  else if bool_decide (name = "gate_endpoint")%string then b <| GateEndpoint := v |>
  else if bool_decide (name = "conn_id")%string then b <| ConnID := v |>
  else if bool_decide (name = "binding_token")%string then b <| BindingToken := v |>
  else b.

(** The members in order; a value of a wrong type is an error that decoding
    reports after the last member. *)
Fixpoint decode_members (l : list (string * json)) (b : GateBinding) (ok : bool) : GateBinding * bool :=
  match l with
  | [] => (b, ok)
  | (key, v) :: l =>
      let name := fold_name key in
      if bool_decide (name ∈ field_names)
      then match v with
           | JStr s => decode_members l (set_field name s b) ok
           | JNull => decode_members l b ok
           | _ => decode_members l b false
           end
      else decode_members l b ok
  end.

Definition Unmarshal (raw : string) : result GateBinding :=
  match parse raw with
  | None => Err (EText "json: syntax error")
  | Some JNull => Ok zero_binding
  | Some (JObj l) =>
      match decode_members l zero_binding true with
      | (b, true) => Ok b
      | (_, false) => Err (EText "json: cannot unmarshal value into Go struct field")
      end
  | Some _ => Err (EText "json: cannot unmarshal value into Go value")
  end.

Definition member (name v : string) : string := enc_string name +:+ String ":"%char (enc_string v).

Definition Marshal (b : GateBinding) : string :=
  (String "{"%char (member "service_name" (ServiceName b) +:+ String ","%char
    (member "uid" (UID b) +:+ String ","%char
    (member "gate_id" (GateID b) +:+ String ","%char
    (member "gate_endpoint" (GateEndpoint b) +:+ String ","%char
    (member "conn_id" (ConnID b) +:+ String ","%char
    (member "binding_token" (BindingToken b) +:+ String "}"%char EmptyString)))))))%string.

(** ** Round trip *)

(** Valid UTF-8, one code point at a time. *)
Inductive utf8 : string → Prop :=
| u0 : utf8 EmptyString
| u1 c s : continuation c = Some [] → utf8 s → utf8 (String c s)
| u2 c a s r1 : continuation c = Some [r1] → inr r1 a = true → utf8 s → utf8 (String c (String a s))
| u3 c a b s r1 r2 :
    continuation c = Some [r1; r2] → inr r1 a = true → inr r2 b = true → utf8 s →
    utf8 (String c (String a (String b s)))
| u4 c a b e s r1 r2 r3 :
    continuation c = Some [r1; r2; r3] → inr r1 a = true → inr r2 b = true → inr r3 e = true →
    utf8 s → utf8 (String c (String a (String b (String e s)))).

Lemma continuation_length c l : continuation c = Some l → (length l ≤ 3)%nat.
Proof. unfold continuation. repeat case_match; intros; simplify_eq/=; lia. Qed.

Lemma utf8_valid_cons r l s :
  utf8_valid (r :: l) s = true →
  ∃ a s', s = String a s' ∧ inr r a = true ∧ utf8_valid l s' = true.
Proof.
  destruct s as [|a s'], r as [lo hi]; simpl; [done|]. rewrite andb_true_iff. intros [? ?]. eauto.
Qed.

Lemma ValidString_utf8 s : ValidString s = true → utf8 s.
Proof.
  remember (String.length s) as n eqn:Hn. assert (String.length s ≤ n)%nat as Hle by lia. clear Hn.
  revert s Hle. induction n as [|n IH]; intros s Hle Hv.
  { destruct s; simpl in *; [constructor|lia]. }
  destruct s as [|c s]; [constructor|]. unfold ValidString in Hv; simpl in Hv, Hle.
  destruct (continuation c) as [[|r1 [|r2 [|r3 [|r4 l]]]]|] eqn:Ec; [..|done].
  - apply u1; [done|]. apply IH; [lia|done].
  - apply utf8_valid_cons in Hv as (a&s1&->&Ha&Hv). simpl in Hle.
    eapply u2; eauto. apply IH; [lia|done].
  - apply utf8_valid_cons in Hv as (a&s1&->&Ha&Hv). apply utf8_valid_cons in Hv as (b&s2&->&Hb&Hv).
    simpl in Hle. eapply u3; eauto. apply IH; [lia|done].
  - apply utf8_valid_cons in Hv as (a&s1&->&Ha&Hv). apply utf8_valid_cons in Hv as (b&s2&->&Hb&Hv).
    apply utf8_valid_cons in Hv as (e&s3&->&He&Hv).
    simpl in Hle. eapply u4; eauto. apply IH; [lia|done].
  - apply continuation_length in Ec. simpl in Ec. lia.
Qed.

Lemma dec_unicode h1 h2 h3 h4 r s :
  hex4 h1 h2 h3 h4 = Some r → r < 55296 →
  dec_char bs (String "u"%char (String h1 (String h2 (String h3 (String h4 s))))) = Some (put_rune r, s).
Proof.
  intros Hh Hr. change (dec_char bs ?x) with (dec_escape x).
  cbn [dec_escape]. change (Ascii.eqb "u" "u") with true. cbv iota. rewrite Hh.
  assert (E : (55296 <=? r) = false) by (apply Z.leb_gt; lia). rewrite E.
  destruct s as [|b' [|u' [|i1 [|i2 [|i3 [|i4 s12]]]]]]; try reflexivity.
  by destruct (hex4 i1 i2 i3 i4).
Qed.

(** Decoding what the encoder wrote for one character. *)
Definition decodes (t w : string) : Prop :=
  ∃ c u, w = String c u ∧ Ascii.eqb c dq = false ∧ ∀ rest, dec_char c (u +:+ rest) = Some (t, rest).

Lemma dec_esc c : continuation c = Some [] → decodes (one c) (esc c).
Proof.
  intros H. destruct c as [[] [] [] [] [] [] [] []]; try (vm_compute in H; discriminate H); clear H.
  all: match goal with
       | |- decodes _ (esc ?c) => let e := eval vm_compute in (esc c) in change (esc c) with e
       end.
  all: eexists _, _; split; [reflexivity|split; [reflexivity|intros rest]].
  all: first [reflexivity|etrans; [eapply dec_unicode; [vm_compute; reflexivity|done]|reflexivity]].
Qed.

Lemma dec_line_sep c a b :
  line_sep c a b = true →
  decodes (String c (String a (one b)))
    (String bs (String "u"%char (String "2"%char (String "0"%char (String "2"%char
       (one (hex_digit (char_Z b - 160)))))))).
Proof.
  unfold line_sep. rewrite !andb_true_iff, orb_true_iff, !Z.eqb_eq. intros [[Hc Ha] Hb].
  rewrite <-(Z_char_Z c), <-(Z_char_Z a), <-(Z_char_Z b), Hc, Ha.
  eexists _, _; split; [reflexivity|split; [reflexivity|intros rest]].
  destruct Hb as [Hb|Hb]; rewrite Hb;
    (etrans; [eapply dec_unicode; [vm_compute; reflexivity|done]|reflexivity]).
Qed.

Lemma dec_loop_decodes fuel t w s :
  decodes t w → (String.length (w +:+ s) ≤ fuel)%nat →
  ∃ fuel', (String.length s ≤ fuel')%nat ∧ dec_loop fuel (w +:+ s) = emit t (dec_loop fuel' s).
Proof.
  intros (c&u&->&Hq&Hd) Hf. change (String c u +:+ s)%string with (String c (u +:+ s))%string in *.
  destruct fuel as [|fuel]; [simpl in Hf; lia|]. exists fuel. simpl in Hf.
  split; [|cbn [dec_loop]; by rewrite Hq, Hd].
  assert (H : ∀ u, (String.length s ≤ String.length (u +:+ s))%nat); [|specialize (H u); lia].
  clear. induction u as [|x u IH]; [done|].
  change (String x u +:+ s)%string with (String x (u +:+ s))%string. simpl. lia.
Qed.

Lemma multibyte_not_quote c r l : continuation c = Some (r :: l) → Ascii.eqb c dq = false.
Proof. intros H. destruct (Ascii.eqb_spec c dq) as [->|]; [by vm_compute in H|done]. Qed.

Lemma decodes_copy c r l t u :
  continuation c = Some (r :: l) → t = String c u →
  (∀ rest, dec_char c (u +:+ rest) = Some (t, rest)) → decodes t (String c u).
Proof. intros Hc -> Hd. exists c, u. split_and!; [done|by eapply multibyte_not_quote|done]. Qed.

Lemma dec_enc_loop s rest fuel :
  utf8 s → (String.length (enc_chars s +:+ String dq rest) ≤ fuel)%nat →
  dec_loop fuel (enc_chars s +:+ String dq rest) = Some (s, rest).
Proof.
  intros Hs. revert fuel.
  assert (Hstep : ∀ t w s', decodes t w →
    (∀ fuel, (String.length (enc_chars s' +:+ String dq rest) ≤ fuel)%nat →
       dec_loop fuel (enc_chars s' +:+ String dq rest) = Some (s', rest)) →
    ∀ fuel, (String.length ((w +:+ enc_chars s') +:+ String dq rest) ≤ fuel)%nat →
      dec_loop fuel ((w +:+ enc_chars s') +:+ String dq rest) = Some ((t +:+ s')%string, rest)).
  { intros t w s' Hd IH fuel. rewrite append_assoc. intros Hf.
    destruct (dec_loop_decodes fuel t w _ Hd Hf) as (fuel'&Hf'&->). by rewrite IH. }
  induction Hs as [|c s Hc Hs IH|c a s r1 Hc Ha Hs IH|c a b s r1 r2 Hc Ha Hb Hs IH
                  |c a b e s r1 r2 r3 Hc Ha Hb He Hs IH]; cbn [enc_chars]; rewrite ?Hc.
  - intros [|fuel]; [simpl; lia|]. reflexivity.
  - by apply (Hstep (one c) (esc c) s); [apply dec_esc|].
  - rewrite Ha. apply (Hstep (String c (one a)) (String c (one a)) s); [|done].
    eapply decodes_copy; [done..|]. intros t. unfold dec_char. rewrite Hc. simpl. by rewrite Ha.
  - rewrite Ha, Hb; cbn [andb]. destruct (line_sep c a b) eqn:El.
    + apply (Hstep _ _ s (dec_line_sep c a b El)). done.
    + apply (Hstep (String c (String a (one b))) (String c (String a (one b))) s); [|done].
      eapply decodes_copy; [done..|]. intros t. unfold dec_char. rewrite Hc. simpl. by rewrite Ha, Hb.
  - rewrite Ha, Hb, He; cbn [andb].
    apply (Hstep (String c (String a (String b (one e)))) (String c (String a (String b (one e)))) s); [|done].
    eapply decodes_copy; [done..|]. intros t. unfold dec_char. rewrite Hc. simpl. by rewrite Ha, Hb, He.
Qed.

Lemma dec_enc_chars s rest :
  utf8 s → dec_chars (enc_chars s +:+ String dq rest) = Some (s, rest).
Proof. intros Hs. by apply dec_enc_loop. Qed.

Lemma enc_string_app s x : (enc_string s +:+ x = String dq (enc_chars s +:+ String dq x))%string.
Proof.
  unfold enc_string. change (String dq ((enc_chars s +:+ one dq) +:+ x) = String dq (enc_chars s +:+ String dq x))%string.
  by rewrite append_assoc.
Qed.

Lemma member_app name v x :
  (member name v +:+ x =
   String dq (enc_chars name +:+ String dq (String ":"%char (String dq (enc_chars v +:+ String dq x)))))%string.
Proof.
  unfold member. rewrite append_assoc, enc_string_app. do 3 f_equal.
  change (String ":"%char (enc_string v +:+ x) = String ":"%char (String dq (enc_chars v +:+ String dq x)))%string.
  by rewrite enc_string_app.
Qed.

Lemma parse_string fuel depth v x :
  utf8 v → parse_value (S fuel) depth (String dq (enc_chars v +:+ String dq x)) = Some (JStr v, x).
Proof.
  intros Hv. cbn [parse_value]. change (skip (String dq ?y)) with (String dq y). cbv iota.
  change (Ascii.eqb dq dq) with true. cbv iota. by rewrite dec_enc_chars.
Qed.

Lemma parse_member fuel depth name v x :
  utf8 name → utf8 v →
  parse_members (S (S fuel)) depth (member name v +:+ x) =
  match skip x with
  | String d s5 =>
      if Ascii.eqb d "}"%char then Some ([(name, JStr v)], s5)
      else if Ascii.eqb d ","%char
      then match parse_members (S fuel) depth s5 with
           | Some (l, rest) => Some ((name, JStr v) :: l, rest)
           | None => None
           end
      else None
  | EmptyString => None
  end.
Proof.
  intros Hn Hv. rewrite member_app. remember (S fuel) as fuel1 eqn:E1. cbn [parse_members].
  change (skip (String dq ?y)) with (String dq y). cbv iota.
  change (Ascii.eqb dq dq) with true. cbn [negb]. rewrite dec_enc_chars by done.
  change (skip (String ":"%char ?y)) with (String ":"%char y). cbv iota.
  change (Ascii.eqb ":" ":") with true. cbn [negb]. subst fuel1. by rewrite parse_string.
Qed.

Lemma parse_member_more fuel depth name v x :
  utf8 name → utf8 v →
  parse_members (S (S fuel)) depth (member name v +:+ String ","%char x) =
  match parse_members (S fuel) depth x with
  | Some (l, rest) => Some ((name, JStr v) :: l, rest)
  | None => None
  end.
Proof. intros. by rewrite parse_member. Qed.

Lemma parse_member_last fuel depth name v x :
  utf8 name → utf8 v →
  parse_members (S (S fuel)) depth (member name v +:+ String "}"%char x) = Some ([(name, JStr v)], x).
Proof. intros. by rewrite parse_member. Qed.

Definition members (b : GateBinding) : list (string * json) :=
  [("service_name", JStr (ServiceName b)); ("uid", JStr (UID b)); ("gate_id", JStr (GateID b));
   ("gate_endpoint", JStr (GateEndpoint b)); ("conn_id", JStr (ConnID b));
   ("binding_token", JStr (BindingToken b))]%string.

Lemma parse_Marshal b : utf8_binding b = true → parse (Marshal b) = Some (JObj (members b)).
Proof.
  unfold utf8_binding. rewrite !andb_true_iff. intros (((((H1&H2)&H3)&H4)&H5)&H6).
  apply ValidString_utf8 in H1, H2, H3, H4, H5, H6.
  unfold parse. set (fuel := (2 * String.length (Marshal b))%nat). change (64 + fuel)%nat with (S (S (S (61 + fuel)))).
  remember (S (S (61 + fuel))) as fuel1 eqn:E1. cbn [parse_value]. unfold Marshal.
  change (skip (String "{"%char ?y)) with (String "{"%char y). cbv iota.
  change (Ascii.eqb "{" dq) with false. change (Ascii.eqb "{" "{") with true.
  change (maxNestingDepth <=? 0) with false. cbv iota.
  rewrite member_app at 1. change (skip (String dq ?y)) with (String dq y). cbv iota.
  change (Ascii.eqb dq "}") with false. cbv iota. rewrite <-member_app.
  subst fuel1. change (61 + fuel)%nat with (S (S (S (S (S (56 + fuel)))))).
  rewrite !parse_member_more by (done || by apply ValidString_utf8).
  rewrite parse_member_last by (done || by apply ValidString_utf8). reflexivity.
Qed.

Lemma Unmarshal_Marshal b : utf8_binding b = true → Unmarshal (Marshal b) = Ok b.
Proof.
  intros H. unfold Unmarshal. rewrite parse_Marshal by done.
  unfold members, decode_members.
  change (fold_name "service_name") with "service_name"%string. change (fold_name "uid") with "uid"%string.
  change (fold_name "gate_id") with "gate_id"%string.
  change (fold_name "gate_endpoint") with "gate_endpoint"%string.
  change (fold_name "conn_id") with "conn_id"%string.
  change (fold_name "binding_token") with "binding_token"%string.
  rewrite !bool_decide_eq_true_2 by (unfold field_names; set_solver). by destruct b.
Qed.

(** ** The interface, discharged *)

#[export] Instance go_json : BindingJson := {
  json_Marshal b := Ok (Marshal b);
  json_Unmarshal raw := Unmarshal raw;
}.

#[export] Instance go_json_laws : BindingJsonLaws go_json.
Proof.
  split; simpl; [eauto|]. intros b raw Hu [= <-]. by apply Unmarshal_Marshal.
Qed.

(** ** Witnesses *)

Module GateExample.
Import MapRedis.
Definition alice : GateBinding := mkGateBinding "game" "alice" "gate-a" "grpc://10.0.0.1:9000" "conn-1" "token-1".
Definition alice2 : GateBinding := mkGateBinding "game" "alice" "gate-b" "grpc://10.0.0.2:9000" "conn-2" "token-2".
(** A Lua loader that accepts the chunks with closed blocks. *)
Definition loader (s : string) : bool := Lua.open_blocks s =? 0.
Definition compile_error : error := EText "ERR Error compiling script".
(** A server that stores ARGV[2] for whatever it is sent. *)
Definition storing (_ : string) (keys : list string) (args : list value) (ms : Z) (d : gmap string entry)
  : gmap string entry * list value :=
  match keys, args with
  | [key], VInt ttl :: VStr raw :: _ => (PSETEX ms key ttl raw d, [VInt 1])
  | _, _ => (d, [])
  end.

Definition d_alice : gmap string entry :=
  {[ gateKey "game" "alice" := (Marshal alice, Some 5000) ]}.

Lemma bindGate_script_never_loads_witness :
  ∃ err, BindGate (R := MapRedis.map_redis) loader compile_error storing
           (delivered Ctx.Background 0 1000) alice Minute ∅ = (∅, Err err).
Proof.
  apply (bindGate_script_never_loads (R := MapRedis.map_redis) loader compile_error storing
           (delivered Ctx.Background 0 1000) alice Minute ∅).
  intros s _ H. by apply Z.eqb_eq.
Defined.

Lemma gate_lease_life_witness :
  LocateGate (R := MapRedis.map_redis) compile_error (delivered Ctx.Background 0 2000) "game" "alice" d_alice =
    (d_alice, Ok (mkGateLease alice (3 * Second))).
Proof.
  destruct (gate_lease_life (R := MapRedis.map_redis) compile_error Ctx.Background 0 1000 d_alice alice
    (Marshal alice) 5000 Minute) as [H _].
  - by vm_compute.
  - done.
  - by vm_compute.
  - by vm_compute.
  - vm_compute. split; [done|by intros [=]].
  - by vm_compute.
  - change "game"%string with (ServiceName alice). change "alice"%string with (UID alice).
    rewrite (H Ctx.Background 0 2000); [by vm_compute|done].
Defined.

Lemma d_alice_ok : gates_ok (R := MapRedis.map_redis) d_alice 1000.
Proof.
  intros service uid Hs. unfold slot, slot_ok; simpl. unfold MapRedis.look, d_alice.
  destruct (decide (gateKey service uid = gateKey "game" "alice")) as [E|E].
  - apply gateKey_inj in E as [-> ->]; [|done|by vm_compute].
    right. exists alice, 5000. split_and!; try (by vm_compute).
    exists (Marshal alice). split; [done|]. by rewrite lookup_singleton_eq.
  - left. by rewrite lookup_singleton_ne.
Qed.

Lemma gate_store_invariant_witness :
  gates_ok (R := MapRedis.map_redis)
    (RenewGateLease compile_error (mkCall Ctx.Background 0 1000 (ReplyLost (ENet true "timeout"))) alice Minute d_alice).1
    1000.
Proof.
  apply (gate_store_invariant (R := MapRedis.map_redis) loader compile_error storing
           (mkCall Ctx.Background 0 1000 (ReplyLost (ENet true "timeout"))) alice Minute d_alice).
  - intros key ttl raw service uid ms d. by exists 1%nat.
  - by vm_compute.
  - apply d_alice_ok.
  - by right; left.
Defined.

Lemma stale_gate_fenced_witness :
  visible (UnbindGate (R := map_redis) compile_error (delivered Ctx.Background 0 1000) alice2 d_alice).1
    1000 (gateKey "game" "alice")
  = visible d_alice 1000 (gateKey "game" "alice").
Proof.
  apply (stale_gate_fenced (R := map_redis) compile_error (delivered Ctx.Background 0 1000)
           alice2 Minute d_alice (Marshal alice2)).
  - done.
  - intros w H. vm_compute in H. discriminate H.
Defined.
End GateExample.
