(* ===== verification/NodeLocator.v ===== *)
(** * Node bindings and process epochs in the location store

    [locate/redis/node.go]: the Lua scripts and the operations of
    [NodeLocator].  An epoch is the identity of one process of a node; its key
    is the fence every change of a player's node binding passes. *)

From S2P Require Import Prelude Errors Locate Keys Redis GateLocator.

Definition nodeBindingTTL : Z := 6 * Hour.

(** ** The scripts *)

Section Scripts.
Context `{R : Redis}.

Definition bindNode_run (epochKey key epoch nodeID : string) (ttl now : Z) (d : db) : db * list value :=
  match GET now epochKey d with
  | None => (d, [VInt 0])
  | Some e => if negb (bool_decide (e = epoch)) then (d, [VInt (-1)])
              else (PSETEX now key ttl nodeID d, [VInt 1])
  end.

Definition unbindNode_run (epochKey key epoch nodeID : string) (now : Z) (d : db) : db * list value :=
  match GET now epochKey d with
  | None => (d, [VInt 0])
  | Some e => if negb (bool_decide (e = epoch)) then (d, [VInt (-1)])
              else (if bool_decide (GET now key d = Some nodeID) then DEL now key d else d, [VInt 1])
  end.

Definition deleteIfValueMatches_run (key v : string) (now : Z) (d : db) : db * list value :=
  match GET now key d with
  | None => (d, [VInt 0])
  | Some current => if negb (bool_decide (current = v)) then (d, [VInt (-1)])
                    else (DEL now key d, [VInt 1])
  end.

Definition renewNode_run (epochKey key epoch nodeID : string) (ttl now : Z) (d : db) : db * list value :=
  match GET now epochKey d with
  | None => (d, [VInt 0])
  | Some e =>
      if negb (bool_decide (e = epoch)) then (d, [VInt (-1)])
      else match GET now key d with
           | None => (d, [VInt (-5)])
           | Some current =>
               if negb (bool_decide (current = nodeID)) then (d, [VInt (-6)])
               else (PEXPIRE now key ttl d, [VInt 1])
           end
  end.

Definition renewNodeEpoch_run (key epoch : string) (ttl now : Z) (d : db) : db * list value :=
  match GET now key d with
  | None => (d, [VInt 0])
  | Some current => if negb (bool_decide (current = epoch)) then (d, [VInt (-1)])
                    else (PEXPIRE now key ttl d, [VInt 1])
  end.
End Scripts.

Definition decodeNodeEpochResult (values : list value) : option error :=
  let status := scriptStatus values in
  if status =? statusOK then None
  else if status =? statusMissing then Some (ESentinel ErrNodeEpochNotFound)
  else if status =? statusConflict then Some (ESentinel ErrNodeEpochConflict)
  else Some (ESentinel ErrInvalidScriptResult).

Definition nodeEpochLeaseMilliseconds (serviceName nodeID epoch : string) (ttl : Z) : result Z :=
  if negb (ValidServiceName serviceName) || negb (nonempty nodeID) || negb (nonempty epoch) ||
     (ttl <? Millisecond)
  then Err ErrInvalidNodeEpoch else Ok (Milliseconds ttl).

(** ** Operations *)

Section Locator.
Context `{R : Redis} (compileError : error).

(** A plain command and its network faults. *)
Definition command {A} (c : call) (run : Z → db → db * A) (d : db) : db * result A :=
  let failed err := match locatorError (ctx c) (now c) (Some err) with
                    | Some e => Err e | None => Err err end in
  match net c with
  | RequestLost e => (d, failed e)
  | Delivered => let '(d', a) := run (now_ms c) d in (d', Ok a)
  | ReplyLost e => let '(d', _) := run (now_ms c) d in (d', failed e)
  end.

(** The three operations that run a script on a node binding. *)
Definition node_script (c : call) (run : Z → db → db * list value) (decode : list value → option error)
    (serviceName uid nodeID epoch : string) (d : db) : db * option error :=
  if negb (ValidNodeLocation serviceName uid nodeID) then (d, Some (ESentinel ErrInvalidNodeBinding))
  else if negb (nonempty epoch) then (d, Some (ESentinel ErrInvalidNodeEpoch))
  else match run_loaded compileError c run d with
       | (d, Err err) => (d, Some err)
       | (d, Ok values) => (d, decode values)
       end.

Definition BindNode (c : call) (serviceName uid nodeID epoch : string) : db → db * option error :=
  node_script c (bindNode_run (nodeEpochKey serviceName nodeID) (nodeKey serviceName uid) epoch nodeID
                   (Milliseconds nodeBindingTTL)) decodeNodeEpochResult serviceName uid nodeID epoch.

Definition RenewNode (c : call) (serviceName uid nodeID epoch : string) : db → db * option error :=
  node_script c (renewNode_run (nodeEpochKey serviceName nodeID) (nodeKey serviceName uid) epoch nodeID
                   (Milliseconds nodeBindingTTL))
    (λ values, if scriptStatus values =? statusNodeMissing then Some (ESentinel ErrNodeNotFound)
               else if scriptStatus values =? statusNodeConflict then Some (ESentinel ErrNodeConflict)
               else decodeNodeEpochResult values) serviceName uid nodeID epoch.

Definition UnbindNode (c : call) (serviceName uid nodeID epoch : string) : db → db * option error :=
  node_script c (unbindNode_run (nodeEpochKey serviceName nodeID) (nodeKey serviceName uid) epoch nodeID)
    decodeNodeEpochResult serviceName uid nodeID epoch.

Definition LocateNode (c : call) (serviceName uid : string) (d : db) : db * result string :=
  if negb (ValidServiceName serviceName) || negb (ValidUID uid) then (d, Err ErrInvalidNodeBinding)
  else match command c (λ ms d, (d, GET ms (nodeKey serviceName uid) d)) d with
       | (d, Err err) => (d, Err err)
       | (d, Ok None) => (d, Err ErrNodeNotFound)
       | (d, Ok (Some nodeID)) =>
           (d, if negb (ValidNodeLocation serviceName uid nodeID) then Err ErrInvalidNodeBinding
               else Ok nodeID)
       end.

Definition RegisterNodeEpoch (c : call) (serviceName nodeID epoch : string) (ttl : Z) (d : db)
  : db * option error :=
  match nodeEpochLeaseMilliseconds serviceName nodeID epoch ttl with
  | Err err => (d, Some err)
  | Ok ttlMillis =>
      match command c (λ ms, SETNX ms (nodeEpochKey serviceName nodeID) epoch ttlMillis) d with
      | (d, Err err) => (d, Some err)
      | (d, Ok set) => (d, if negb set then Some (ESentinel ErrNodeEpochConflict) else None)
      end
  end.

Definition RenewNodeEpoch (c : call) (serviceName nodeID epoch : string) (ttl : Z) (d : db)
  : db * option error :=
  match nodeEpochLeaseMilliseconds serviceName nodeID epoch ttl with
  | Err err => (d, Some err)
  | Ok ttlMillis =>
      match run_loaded compileError c (renewNodeEpoch_run (nodeEpochKey serviceName nodeID) epoch ttlMillis) d with
      | (d, Err err) => (d, Some err)
      | (d, Ok values) => (d, decodeNodeEpochResult values)
      end
  end.

Definition LocateNodeEpoch (c : call) (serviceName nodeID : string) (d : db) : db * result string :=
  if negb (ValidServiceName serviceName) || negb (nonempty nodeID) then (d, Err ErrInvalidNodeEpoch)
  else match command c (λ ms d, (d, GET ms (nodeEpochKey serviceName nodeID) d)) d with
       | (d, Err err) => (d, Err err)
       | (d, Ok None) => (d, Err ErrNodeEpochNotFound)
       | (d, Ok (Some epoch)) => (d, if negb (nonempty epoch) then Err ErrInvalidNodeEpoch else Ok epoch)
       end.

Definition UnregisterNodeEpoch (c : call) (serviceName nodeID epoch : string) (d : db) : db * option error :=
  if negb (ValidServiceName serviceName) || negb (nonempty nodeID) || negb (nonempty epoch)
  then (d, Some (ESentinel ErrInvalidNodeEpoch))
  else match run_loaded compileError c (deleteIfValueMatches_run (nodeEpochKey serviceName nodeID) epoch) d with
       | (d, Err err) => (d, Some err)
       | (d, Ok values) =>
           (d, if ackIdempotentUnbind (scriptStatus values) then None
               else Some (ESentinel ErrInvalidScriptResult))
       end.
End Locator.

(** ** Histories of the store *)

Inductive op :=
| OBindNode (serviceName uid nodeID epoch : string)
| ORenewNode (serviceName uid nodeID epoch : string)
| OUnbindNode (serviceName uid nodeID epoch : string)
| ORegister (serviceName nodeID epoch : string) (ttl : Z)
| ORenewEpoch (serviceName nodeID epoch : string) (ttl : Z)
| OUnregister (serviceName nodeID epoch : string).

Section History.
Context `{R : Redis} (compileError : error).

Definition exec (c : call) (o : op) (d : db) : db :=
  match o with
  | OBindNode s u n e => (BindNode compileError c s u n e d).1
  | ORenewNode s u n e => (RenewNode compileError c s u n e d).1
  | OUnbindNode s u n e => (UnbindNode compileError c s u n e d).1
  | ORegister s n e ttl => (RegisterNodeEpoch c s n e ttl d).1
  | ORenewEpoch s n e ttl => (RenewNodeEpoch compileError c s n e ttl d).1
  | OUnregister s n e => (UnregisterNodeEpoch compileError c s n e d).1
  end.

Fixpoint run_history (h : list (call * op)) (d : db) : db :=
  match h with [] => d | (c, o) :: h => run_history h (exec c o d) end.
End History.

(** The server's clock goes from [t] to [t'] over the calls of [h]. *)
Fixpoint clock (t : Z) (h : list (call * op)) (t' : Z) : Prop :=
  match h with [] => t ≤ t' | (c, _) :: h => t ≤ now_ms c ∧ clock (now_ms c) h t' end.

(** An operation of any process but the one with epoch [e] of this node. *)
Definition foreign (serviceName nodeID e : string) (o : op) : Prop :=
  match o with
  | ORenewEpoch s n e' _ | OUnregister s n e' => ¬ (s = serviceName ∧ n = nodeID ∧ e' = e)
  | _ => True
  end.

Lemma run_loaded_effect `{R : Redis} e c run d :
  (run_loaded e c run d).1 = d ∨ (run_loaded e c run d).1 = (run (now_ms c) d).1.
Proof. apply (runScript_effect (λ _, true)). Qed.

Lemma clock_le t h t' : clock t h t' → t ≤ t'.
Proof. revert t. induction h as [|[c o] h IH]; simpl; [done|]. intros t [H Hc]. apply IH in Hc. lia. Qed.

Section HistoryLemmas.
Context `{R : Redis} `{RL : !RedisLaws R} (compileError : error).

(** The store after a node binding script: only the binding's key changes, and
    only when the epoch key holds the caller's epoch. *)
Lemma node_script_effect c run decode s u n e d key epochKey :
  (∀ ms d, (run ms d).1 = d ∨
     (∃ w, visible d ms epochKey = Some (e, w)) ∧
     ∀ k, k ≠ key → visible (run ms d).1 ms k = visible d ms k) →
  let d' := (node_script compileError c run decode s u n e d).1 in
  d' = d ∨ (∃ w, visible d (now_ms c) epochKey = Some (e, w)) ∧
           ∀ k, k ≠ key → visible d' (now_ms c) k = visible d (now_ms c) k.
Proof.
  intros Hrun d'. unfold d', node_script. destruct (negb (ValidNodeLocation s u n)); [by left|].
  destruct (negb (nonempty e)); [by left|].
  pose proof (run_loaded_effect compileError c run d) as He.
  destruct (run_loaded _ _ _ _) as [d1 [values|]]; simpl in *; (destruct He as [->| ->]; [by left|apply Hrun]).
Qed.

Lemma GET_epoch d ms k e : GET ms k d = Some e → ∃ w, visible d ms k = Some (e, w).
Proof. rewrite visible_GET. destruct (visible d ms k) as [[v w]|]; simpl; intros; simplify_eq. eauto. Qed.

Lemma BindNode_effect c s u n e d :
  let d' := (BindNode compileError c s u n e d).1 in
  d' = d ∨ (∃ w, visible d (now_ms c) (nodeEpochKey s n) = Some (e, w)) ∧
           ∀ k, k ≠ nodeKey s u → visible d' (now_ms c) k = visible d (now_ms c) k.
Proof.
  apply node_script_effect. intros ms d0. unfold bindNode_run.
  destruct (GET ms (nodeEpochKey s n) d0) eqn:E; [|by left].
  case_bool_decide; subst; simpl; [right|by left]. split; [by apply GET_epoch|].
  intros k Hk. by rewrite visible_PSETEX, decide_False.
Qed.

Lemma RenewNode_effect c s u n e d :
  let d' := (RenewNode compileError c s u n e d).1 in
  d' = d ∨ (∃ w, visible d (now_ms c) (nodeEpochKey s n) = Some (e, w)) ∧
           ∀ k, k ≠ nodeKey s u → visible d' (now_ms c) k = visible d (now_ms c) k.
Proof.
  apply node_script_effect. intros ms d0. unfold renewNode_run.
  destruct (GET ms (nodeEpochKey s n) d0) eqn:E; [|by left].
  case_bool_decide; subst; simpl; [|by left]. destruct (GET ms (nodeKey s u) d0); [|by left].
  case_bool_decide; simpl; [right|by left]. split; [by apply GET_epoch|].
  intros k Hk. by rewrite visible_PEXPIRE, decide_False.
Qed.

Lemma UnbindNode_effect c s u n e d :
  let d' := (UnbindNode compileError c s u n e d).1 in
  d' = d ∨ (∃ w, visible d (now_ms c) (nodeEpochKey s n) = Some (e, w)) ∧
           ∀ k, k ≠ nodeKey s u → visible d' (now_ms c) k = visible d (now_ms c) k.
Proof.
  apply node_script_effect. intros ms d0. unfold unbindNode_run.
  destruct (GET ms (nodeEpochKey s n) d0) eqn:E; [|by left].
  case_bool_decide; subst; simpl; [|by left]. case_bool_decide; simpl; [right|by left].
  split; [by apply GET_epoch|]. intros k Hk. by rewrite visible_DEL, decide_False.
Qed.

Lemma nodeKey_epochKey s u s' n : nodeEpochKey s' n ≠ nodeKey s u.
Proof. done. Qed.

Lemma RegisterNodeEpoch_effect c s n e ttl d k :
  visible d (now_ms c) k ≠ None →
  visible (RegisterNodeEpoch c s n e ttl d).1 (now_ms c) k = visible d (now_ms c) k.
Proof.
  intros Hv. unfold RegisterNodeEpoch, nodeEpochLeaseMilliseconds.
  destruct (_ || (ttl <? Millisecond)) eqn:Ht; [done|].
  assert (0 < Milliseconds ttl) as Hms.
  { apply orb_false_iff in Ht as [_ Ht%Z.ltb_ge]. unfold Milliseconds.
    rewrite Z.quot_div_nonneg by (unfold Millisecond in *; lia).
    apply Z.div_str_pos. unfold Millisecond in *; lia. }
  destruct (visible_SETNX d (now_ms c) (nodeEpochKey s n) e (Milliseconds ttl) k Hms) as [_ E].
  rewrite decide_False in E by (intros [-> ?]; done).
  unfold command. destruct (SETNX _ _ _ _ _) as [d1 set], (net c); simpl in *; by case_match || done.
Qed.

Lemma RenewNodeEpoch_foreign c s n e' ttl d k e w :
  visible d (now_ms c) k = Some (e, w) → ¬ (nodeEpochKey s n = k ∧ e' = e) →
  visible (RenewNodeEpoch compileError c s n e' ttl d).1 (now_ms c) k = visible d (now_ms c) k.
Proof.
  intros Hv Hf. unfold RenewNodeEpoch, nodeEpochLeaseMilliseconds.
  destruct (_ || (ttl <? Millisecond)) eqn:Ht; [done|].
  assert (0 < Milliseconds ttl) as Hms.
  { apply orb_false_iff in Ht as [_ Ht%Z.ltb_ge]. unfold Milliseconds.
    rewrite Z.quot_div_nonneg by (unfold Millisecond in *; lia).
    apply Z.div_str_pos. unfold Millisecond in *; lia. }
  set (run0 := renewNodeEpoch_run _ _ _). pose proof (run_loaded_effect compileError c run0 d) as He.
  replace (let (_, _) := run_loaded compileError c run0 d in _).1 with (run_loaded compileError c run0 d).1
    by (by destruct (run_loaded _ _ _ _) as [? []]).
  destruct He as [->| ->]; [done|]. unfold run0, renewNodeEpoch_run. rewrite visible_GET.
  destruct (visible d (now_ms c) (nodeEpochKey s n)) as [[v w']|] eqn:E; simpl; [|done].
  case_bool_decide; simpl; [|done]. rewrite visible_PEXPIRE by done. case_decide; [|done].
  exfalso. apply Hf. split; congruence.
Qed.

Lemma UnregisterNodeEpoch_foreign c s n e' d k e w :
  visible d (now_ms c) k = Some (e, w) → ¬ (nodeEpochKey s n = k ∧ e' = e) →
  visible (UnregisterNodeEpoch compileError c s n e' d).1 (now_ms c) k = visible d (now_ms c) k.
Proof.
  intros Hv Hf. unfold UnregisterNodeEpoch. destruct (_ || negb (nonempty e')); [done|].
  set (run0 := deleteIfValueMatches_run _ _). pose proof (run_loaded_effect compileError c run0 d) as He.
  replace (let (_, _) := run_loaded compileError c run0 d in _).1 with (run_loaded compileError c run0 d).1
    by (by destruct (run_loaded _ _ _ _) as [? []]).
  destruct He as [->| ->]; [done|]. unfold run0, deleteIfValueMatches_run. rewrite visible_GET.
  destruct (visible d (now_ms c) (nodeEpochKey s n)) as [[v w']|] eqn:E; simpl; [|done].
  case_bool_decide; simpl; [|done]. rewrite visible_DEL. case_decide; [|done].
  exfalso. apply Hf. split; congruence.
Qed.

Lemma exec_foreign c o d s n e w :
  foreign s n e o → visible d (now_ms c) (nodeEpochKey s n) = Some (e, w) →
  visible (exec compileError c o d) (now_ms c) (nodeEpochKey s n) = Some (e, w).
Proof.
  intros Hf Hv. rewrite <-Hv. destruct o as [s' u n' e'|s' u n' e'|s' u n' e'|s' n' e' ttl|s' n' e' ttl|s' n' e']; simpl.
  - destruct (BindNode_effect c s' u n' e' d) as [->|[_ H]]; [done|]. apply H, nodeKey_epochKey.
  - destruct (RenewNode_effect c s' u n' e' d) as [->|[_ H]]; [done|]. apply H, nodeKey_epochKey.
  - destruct (UnbindNode_effect c s' u n' e' d) as [->|[_ H]]; [done|]. apply H, nodeKey_epochKey.
  - apply RegisterNodeEpoch_effect. by rewrite Hv.
  - eapply RenewNodeEpoch_foreign; [done|]. intros [E ->]. apply nodeLocationKey_inj in E as [-> ->].
    by apply Hf.
  - eapply UnregisterNodeEpoch_foreign; [done|]. intros [E ->]. apply nodeLocationKey_inj in E as [-> ->].
    by apply Hf.
Qed.

Lemma lease_kept h t t' d s n e w :
  visible d t (nodeEpochKey s n) = Some (e, Some w) → clock t h t' → t' ≤ w →
  Forall (λ co, foreign s n e co.2) h →
  visible (run_history compileError h d) t' (nodeEpochKey s n) = Some (e, Some w).
Proof.
  revert t d. induction h as [|[c o] h IH]; intros t d Hv Hc Hw Hh; simpl in *.
  - rewrite (visible_later d t t'), Hv by done. simpl. destruct (Z.leb_spec t' w); [done|lia].
  - destruct Hc as [Ht Hc]. apply Forall_cons in Hh as [Ho Hh].
    pose proof (clock_le _ _ _ Hc). eapply IH; [|done..].
    apply exec_foreign; [done|]. rewrite (visible_later d t), Hv by done. simpl.
    destruct (Z.leb_spec (now_ms c) w); [done|lia].
Qed.
End HistoryLemmas.

Section NodeTheorems.
Context `{R : Redis} `{RL : !RedisLaws R} (compileError : error).

Lemma RegisterNodeEpoch_delivered x now ms s n e ttl d :
  ValidServiceName s = true → n ≠ EmptyString → e ≠ EmptyString → Millisecond ≤ ttl →
  let d' := (RegisterNodeEpoch (delivered x now ms) s n e ttl d).1 in
  match visible d ms (nodeEpochKey s n) with
  | None => (RegisterNodeEpoch (delivered x now ms) s n e ttl d).2 = None ∧
            visible d' ms (nodeEpochKey s n) = Some (e, Some (ms + Milliseconds ttl))
  | Some _ => (RegisterNodeEpoch (delivered x now ms) s n e ttl d).2 = Some (ESentinel ErrNodeEpochConflict) ∧
              visible d' ms (nodeEpochKey s n) = visible d ms (nodeEpochKey s n)
  end.
Proof.
  intros Hs Hn He Ht. unfold RegisterNodeEpoch, nodeEpochLeaseMilliseconds. rewrite Hs.
  rewrite (proj2 (nonempty_spec n) Hn), (proj2 (nonempty_spec e) He).
  destruct (Z.ltb_spec ttl Millisecond); [lia|]. cbn [negb orb].
  assert (0 < Milliseconds ttl) as Hms.
  { unfold Milliseconds. rewrite Z.quot_div_nonneg by (unfold Millisecond in *; lia).
    apply Z.div_str_pos. unfold Millisecond in *; lia. }
  destruct (visible_SETNX d ms (nodeEpochKey s n) e (Milliseconds ttl) (nodeEpochKey s n) Hms) as [E1 E2].
  unfold command; cbn [net delivered now_ms]. destruct (SETNX _ _ _ _ _) as [d1 set]; cbn [fst snd] in *.
  subst set. destruct (visible d ms (nodeEpochKey s n)) eqn:E; cbn.
  - rewrite decide_False in E2 by (by intros [_ ?]). by rewrite E2.
  - rewrite decide_True in E2 by done. done.
Qed.

(** C12: a registered epoch is exclusive: from a successful registration until
    its lease ends, whatever operations other processes run and whatever the
    network does to them, the epoch key keeps this process's epoch, and every
    other registration of the node is refused with [ErrNodeEpochConflict]. *)
Theorem epoch_lease_exclusive x now t s n e ttl d h t' x' now' e' ttl' :
  ValidServiceName s = true → n ≠ EmptyString → e ≠ EmptyString → Millisecond ≤ ttl →
  visible d t (nodeEpochKey s n) = None →
  let d1 := (RegisterNodeEpoch (delivered x now t) s n e ttl d).1 in
  let d2 := run_history compileError h d1 in
  clock t h t' → t' ≤ t + Milliseconds ttl → Forall (λ co, foreign s n e co.2) h →
  e' ≠ EmptyString → Millisecond ≤ ttl' →
  (RegisterNodeEpoch (delivered x now t) s n e ttl d).2 = None ∧
  visible d2 t' (nodeEpochKey s n) = Some (e, Some (t + Milliseconds ttl)) ∧
  (RegisterNodeEpoch (delivered x' now' t') s n e' ttl' d2).2 = Some (ESentinel ErrNodeEpochConflict).
Proof.
  intros Hs Hn He Ht Hfree d1 d2 Hc Hw Hh He' Ht'.
  pose proof (RegisterNodeEpoch_delivered x now t s n e ttl d Hs Hn He Ht) as Hr.
  cbv zeta in Hr. rewrite Hfree in Hr. destruct Hr as [Hr1 Hr2].
  assert (Hv : visible d2 t' (nodeEpochKey s n) = Some (e, Some (t + Milliseconds ttl)))
    by (by eapply lease_kept).
  split_and!; [done..|].
  pose proof (RegisterNodeEpoch_delivered x' now' t' s n e' ttl' d2 Hs Hn He' Ht') as Hr'.
  cbv zeta in Hr'. rewrite Hv in Hr'. apply Hr'.
Qed.

(** C13: fencing of player bindings: a process whose epoch is not the stored one
    changes nothing in the store by binding, renewing or unbinding a player,
    whatever the network does, and is told so when its call is answered. *)
Theorem stale_node_fenced c s u n e d :
  (∀ w, visible d (now_ms c) (nodeEpochKey s n) ≠ Some (e, w)) →
  (BindNode compileError c s u n e d).1 = d ∧ (RenewNode compileError c s u n e d).1 = d ∧
  (UnbindNode compileError c s u n e d).1 = d ∧
  (net c = Delivered → ValidNodeLocation s u n = true → e ≠ EmptyString →
   let err := Some (ESentinel (if decide (visible d (now_ms c) (nodeEpochKey s n) = None)
                               then ErrNodeEpochNotFound else ErrNodeEpochConflict)) in
   (BindNode compileError c s u n e d).2 = err ∧ (RenewNode compileError c s u n e d).2 = err ∧
   (UnbindNode compileError c s u n e d).2 = err).
Proof.
  intros Hst. split_and!.
  - destruct (BindNode_effect compileError c s u n e d) as [?|[[w ?] _]]; [done|by destruct (Hst w)].
  - destruct (RenewNode_effect compileError c s u n e d) as [?|[[w ?] _]]; [done|by destruct (Hst w)].
  - destruct (UnbindNode_effect compileError c s u n e d) as [?|[[w ?] _]]; [done|by destruct (Hst w)].
  - intros Hnet Hv He. unfold BindNode, RenewNode, UnbindNode, node_script, run_loaded.
    rewrite Hnet, Hv, (proj2 (nonempty_spec e) He). cbn [negb]. rewrite !runScript_Delivered by done.
    unfold bindNode_run, renewNode_run, unbindNode_run; cbn [run fst snd]. rewrite visible_GET.
    destruct (visible d (now_ms c) (nodeEpochKey s n)) as [[v w]|] eqn:E; cbn [fmap option_fmap option_map fst].
    + rewrite bool_decide_eq_false_2 by (intros ->; by destruct (Hst w)). by rewrite decide_False.
    + by rewrite decide_True.
Qed.
End NodeTheorems.

Module NodeExample.
Import MapRedis.
Definition err0 : error := EText "ERR Error compiling script".
Definition call_at (t : Z) (f : fault) : call := mkCall Ctx.Background 0 t f.

(** Another process registers, binds and unregisters while the lease runs. *)
Definition others : list (call * op) :=
  [ (call_at 1500 Delivered, ORegister "game" "node-a" "epoch-b" Minute);
    (call_at 2000 (ReplyLost (ENet true "timeout")), OBindNode "game" "alice" "node-a" "epoch-b");
    (call_at 2500 Delivered, OUnregister "game" "node-a" "epoch-b") ].

Lemma epoch_lease_exclusive_witness :
  (RegisterNodeEpoch (R := map_redis) (delivered Ctx.Background 0 4000) "game" "node-a" "epoch-c" Minute
     (run_history err0 others
        (RegisterNodeEpoch (R := map_redis) (delivered Ctx.Background 0 1000) "game" "node-a" "epoch-a" Minute ∅).1)).2
  = Some (ESentinel ErrNodeEpochConflict).
Proof.
  apply (epoch_lease_exclusive (R := map_redis) err0 Ctx.Background 0 1000 "game" "node-a" "epoch-a" Minute ∅
           others 4000 Ctx.Background 0 "epoch-c" Minute).
  1-5: by vm_compute.
  - by vm_compute.
  - by vm_compute.
  - repeat constructor. intros (_&_&H). discriminate H.
  - done.
  - by vm_compute.
Defined.

Lemma stale_node_fenced_witness :
  (BindNode (R := map_redis) err0 (call_at 1000 Delivered) "game" "alice" "node-a" "epoch-b" ∅).2
  = Some (ESentinel ErrNodeEpochNotFound).
Proof.
  destruct (stale_node_fenced (R := map_redis) err0 (call_at 1000 Delivered) "game" "alice" "node-a" "epoch-b" ∅)
    as (_&_&_&H); [by vm_compute|]. by apply H.
Defined.
End NodeExample.
