(* ===== verification/Admission.v ===== *)
(** * Request admission of a node

    [node/admission.go]: the gate that opens once,
    counts admitted requests, closes for good and reports when the last
    admitted request is done.  Each method is split at its mutex sections and
    atomic accesses. *)

From S2P Require Import Prelude Errors.

Inductive phase := Pending | Open | Closed.
#[export] Instance phase_eq_dec : EqDecision phase.
Proof. solve_decision. Defined.

(** A channel that is only ever closed. *)
Inductive signal := NoChan | Waiting | Signalled.

Record requestAdmission := mkAdmission {
  state : phase;
  active : Z;
  drained : signal;
  panicked : bool;                          (* close of a closed channel *)
}.
#[export] Instance eta_admission : Eta requestAdmission := λ a,
  mkAdmission (state a) (active a) (drained a) (panicked a).

Definition zero_admission : requestAdmission := mkAdmission Pending 0 NoChan false.

(** ** Methods *)

Definition open (a : requestAdmission) : requestAdmission :=
  if decide (state a = Pending) then a <| state := Open |> else a.

Definition admit_ (a : requestAdmission) : requestAdmission * bool :=
  if decide (state a = Open) then (a <| active := active a + 1 |>, true) else (a, false).

Definition close_drained (a : requestAdmission) : requestAdmission :=
  match drained a with
  | Waiting => a <| drained := Signalled |>
  | Signalled => a <| panicked := true |>
  | NoChan => a
  end.

Definition done (a : requestAdmission) : requestAdmission :=
  let a := a <| active := active a - 1 |> in
  if active a =? 0 then close_drained a else a.

Definition close (a : requestAdmission) : requestAdmission := a <| state := Closed |>.

Definition isClosed (a : requestAdmission) : bool := bool_decide (state a = Closed).

(** The locked section of [stopAndWait]: nil at once, or wait for [drained]. *)
Definition stopAndWait_locked (a : requestAdmission) : requestAdmission * bool :=
  if active a =? 0 then (a, true)
  else (match drained a with NoChan => a <| drained := Waiting |> | _ => a end, false).

(** ** Concurrent use

    Requests are admitted, run and done; any number of goroutines may stop. *)

Inductive stopper := SClosing | SLocking | SWaiting | SReturned (err : option error).

Record sys := mkSys { adm : requestAdmission; running : Z; stoppers : gmap nat stopper }.
#[export] Instance eta_sys : Eta sys := λ s, mkSys (adm s) (running s) (stoppers s).

Definition init_sys (s : sys) : Prop := s = mkSys zero_admission 0 ∅.

Definition set_stopper (s : sys) (p : nat) (x : stopper) : sys :=
  s <| stoppers := <[p := x]> (stoppers s) |>.

Inductive step (s : sys) : sys → Prop :=
| st_open : step s (s <| adm := open (adm s) |>)
| st_admit a : admit_ (adm s) = (a, true) → step s (s <| adm := a |> <| running := running s + 1 |>)
| st_done : 0 < running s → step s (s <| adm := done (adm s) |> <| running := running s - 1 |>)
| st_close : step s (s <| adm := close (adm s) |>)
| st_stop p : stoppers s !! p = None → step s (set_stopper s p SClosing)
| st_stop_close p :
    stoppers s !! p = Some SClosing →
    step s (set_stopper (s <| adm := close (adm s) |>) p SLocking)
| st_stop_lock p a ok :
    stoppers s !! p = Some SLocking → stopAndWait_locked (adm s) = (a, ok) →
    step s (set_stopper (s <| adm := a |>) p (if ok then SReturned None else SWaiting))
| st_stop_wait p ctxErr err :
    stoppers s !! p = Some SWaiting →
    Done (match drained (adm s) with Signalled => true | _ => false end) ctxErr = Some err →
    step s (set_stopper s p (SReturned err)).

Definition reach : sys → Prop := reachable init_sys step.

(** ** Invariant *)

Definition stopper_ok (a : requestAdmission) (x : stopper) : Prop :=
  match x with
  | SClosing => True
  | SLocking => state a = Closed
  | SWaiting => state a = Closed ∧ drained a ≠ NoChan
  | SReturned None => state a = Closed ∧ active a = 0
  | SReturned (Some _) => state a = Closed
  end.

Record inv (s : sys) : Prop := mkInv {
  i_active : active (adm s) = running s ∧ 0 ≤ running s;
  i_drained : match drained (adm s) with
              | NoChan => True
              | Waiting => state (adm s) = Closed ∧ 0 < active (adm s)
              | Signalled => state (adm s) = Closed ∧ active (adm s) = 0
              end;
  i_panic : panicked (adm s) = false;
  i_stoppers : map_Forall (λ _, stopper_ok (adm s)) (stoppers s);
}.

Lemma stoppers_mono (m : gmap nat stopper) a a' :
  (∀ x, stopper_ok a x → stopper_ok a' x) →
  map_Forall (λ _, stopper_ok a) m → map_Forall (λ _, stopper_ok a') m.
Proof. intros H Hm p x Hx. apply H, (Hm p x Hx). Qed.

Lemma adm_inv_step s s' : inv s → step s s' → inv s'.
Proof.
  intros [[Ha Hr] Hd Hp Hs] Hst.
  destruct Hst as [|a Had|Hrun| |p Hn|p Hn|p a ok Hn Hl|p ctxErr err Hn Hw].
  - unfold open. destruct (decide (state (adm s) = Pending)) as [E|E]; [|by split].
    split; simpl; try done.
    + destruct (drained (adm s)); intuition congruence.
    + eapply stoppers_mono; [|done]. unfold stopper_ok; simpl. intros [| | |[]]; intuition congruence.
  - unfold admit_ in Had. case_decide as E; simplify_eq. split; simpl; try done; [lia| |].
    + destruct (drained (adm s)); intuition congruence.
    + eapply stoppers_mono; [|done]. unfold stopper_ok; simpl. intros [| | |[]]; intuition congruence.
  - unfold done; simpl. destruct (Z.eqb_spec (active (adm s) - 1) 0) as [E|E].
    + unfold close_drained; simpl.
      destruct (drained (adm s)) eqn:Ed; split; simpl; rewrite ?Ed; try done; try lia; try (intuition lia).
      all: eapply stoppers_mono; [|exact Hs]; unfold stopper_ok; simpl; intros [| | |[]];
        rewrite ?Ed; intuition (congruence || lia).
    + split; simpl; try done; [lia|..].
      * destruct (drained (adm s)); intuition lia.
      * eapply stoppers_mono; [|done]. unfold stopper_ok; simpl. intros [| | |[]]; intuition lia.
  - split; simpl; try done; [destruct (drained (adm s)); intuition|].
    eapply stoppers_mono; [|done]. unfold stopper_ok; simpl. intros [| | |[]]; intuition.
  - split; simpl; try done. by apply map_Forall_insert_2.
  - split; simpl; try done; [destruct (drained (adm s)); intuition|].
    apply map_Forall_insert_2; [done|].
    eapply stoppers_mono; [|done]. unfold stopper_ok; simpl. intros [| | |[]]; intuition.
  - pose proof (Hs p _ Hn) as Hp'; simpl in Hp'. unfold stopAndWait_locked in Hl.
    destruct (Z.eqb_spec (active (adm s)) 0) as [E|E]; simplify_eq.
    + split; simpl; try done. by apply map_Forall_insert_2.
    + destruct (drained (adm s)) eqn:Ed; split; simpl; rewrite ?Ed; try done; try (intuition; lia).
      all: apply map_Forall_insert_2; [simpl; by rewrite ?Ed|].
      all: eapply stoppers_mono; [|done]; unfold stopper_ok; simpl; intros [| | |[]]; intuition.
  - pose proof (Hs p _ Hn) as [Hc _]. split; simpl; try done. apply map_Forall_insert_2; [|done].
    unfold Done in Hw. destruct (drained (adm s)) eqn:Ed; destruct ctxErr; simplify_eq; simpl; intuition.
Qed.

Lemma adm_inv_reach s : reach s → inv s.
Proof.
  apply invariant_reachable.
  - intros s0 ->. by split.
  - intros s0 s1 _. apply adm_inv_step.
Qed.

Lemma closed_step s s' : state (adm s) = Closed → step s s' → state (adm s') = Closed.
Proof.
  intros Hc Hs. destruct Hs as [|a Had| | | | |p a ok Hn Hl|]; simpl; try done.
  - unfold open. by rewrite Hc.
  - unfold admit_ in Had. rewrite Hc in Had. done.
  - unfold done; simpl. case_match; [|done]. unfold close_drained; simpl. by destruct (drained (adm s)).
  - unfold stopAndWait_locked in Hl. case_match; simplify_eq; [done|]. by destruct (drained (adm s)).
Qed.

(** ** Properties *)

(** The drain signal is closed at most once and only when nothing runs,
    the count is the number of admitted requests still running, and a waiting
    stopper is signalled as soon as the last of them is done. *)
Theorem admission_counts s :
  reach s →
  panicked (adm s) = false ∧ active (adm s) = running s ∧ 0 ≤ running s ∧
  (drained (adm s) = Signalled → running s = 0) ∧
  (∀ p, stoppers s !! p = Some SWaiting → running s = 0 → drained (adm s) = Signalled).
Proof.
  intros Hs. apply adm_inv_reach in Hs as [[Ha Hr] Hd Hp Hst]. split_and!; try done.
  - intros E. rewrite E in Hd. lia.
  - intros p Hn H0. destruct (Hst p _ Hn) as [_ Hc]. destruct (drained (adm s)); try done. lia.
Qed.

(** Once [stopAndWait] returned nil no admitted request is running, and
    none is ever admitted again. *)
Theorem stop_means_drained s s' p :
  reach s → stoppers s !! p = Some (SReturned None) → rtc step s s' →
  running s' = 0 ∧ (admit_ (adm s')).2 = false.
Proof.
  intros Hs Hp Hr. assert (Hinv : inv s) by by apply adm_inv_reach.
  destruct (i_stoppers s Hinv p _ Hp) as [Hc H0]. destruct (i_active s Hinv) as [Ha Hr0].
  assert (running s = 0) as H00 by lia. clear Hp H0 Ha Hr0 Hinv.
  induction Hr as [s|s s1 s' Hst _ IH].
  - split; [done|]. unfold admit_. by rewrite Hc.
  - apply IH; [by eapply reach_step|by eapply closed_step|].
    destruct Hst as [|a Had| | | | | |]; simpl; try done; [|lia].
    unfold admit_ in Had. rewrite Hc in Had. done.
Qed.

(** ** Witnesses *)

Module AdmissionExample.
Definition s_busy : sys := mkSys (mkAdmission Closed 1 Waiting false) 1 {[ 0%nat := SWaiting ]}.
Definition s_drained : sys := mkSys (mkAdmission Closed 0 Signalled false) 0 {[ 0%nat := SReturned None ]}.

Lemma reach_busy : reachable init_sys step s_busy.
Proof.
  assert (H : reachable init_sys step (mkSys zero_admission 0 ∅)) by by apply reach_init.
  reach_by H ltac:(eapply st_open). reach_by H ltac:(eapply st_admit).
  reach_by H ltac:(eapply (st_stop _ 0%nat)). reach_by H ltac:(eapply (st_stop_close _ 0%nat)).
  reach_by H ltac:(eapply (st_stop_lock _ 0%nat)). exact H.
Qed.

Lemma reach_drained : reachable init_sys step s_drained.
Proof.
  pose proof reach_busy as H. reach_by H ltac:(eapply st_done).
  reach_by H ltac:(eapply (st_stop_wait _ 0%nat None None)). exact H.
Qed.

Lemma admission_counts_witness : active (adm s_busy) = running s_busy.
Proof. apply (admission_counts s_busy reach_busy). Defined.

Lemma stop_means_drained_witness : (admit_ (adm s_drained)).2 = false.
Proof. by apply (stop_means_drained s_drained s_drained 0 reach_drained). Defined.
End AdmissionExample.
