(* ===== verification/EpochStore.v ===== *)
(** * The epoch store of a node

    [epochStore] of [node/epoch.go]: the three operations a lease uses, what it
    relies on of them ([EpochStoreLaws]), and the proof that the Redis locator
    of [locate/redis/node.go] keeps that promise. *)

From S2P Require Import Prelude Errors Locate Keys Redis GateLocator NodeLocator.

(** The network never answers with the locator's own ownership errors. *)
Definition not_ownership (e : error) : Prop :=
  errors_Is e ErrNodeEpochNotFound = false ∧ errors_Is e ErrNodeEpochConflict = false.

Definition call_ok (c : call) : Prop :=
  match net c with Delivered => True | RequestLost e | ReplyLost e => not_ownership e end.

Class EpochStore := {
  es_db : Type;
  es_Register : call → string → string → string → Z → es_db → es_db * option error;
  es_Renew : call → string → string → string → Z → es_db → es_db * option error;
  es_Unregister : call → string → string → string → es_db → es_db * option error;
  (** what processes without this epoch do at a server time *)
  es_env : Z → string → string → string → es_db → es_db → Prop;
}.

Definition ownership_error (r : option error) : bool :=
  err_is r ErrNodeEpochNotFound || err_is r ErrNodeEpochConflict.

Class EpochStoreLaws (E : EpochStore) := {
  owner : es_db → Z → string → string → option entry;
  owner_later d now now' s n : now ≤ now' → owner d now' s n = at_time now' (owner d now s n);
  Register_ok c s n e ttl d :
    (es_Register c s n e ttl d).2 = None →
    owner (es_Register c s n e ttl d).1 (now_ms c) s n = Some (e, Some (now_ms c + Milliseconds ttl));
  Renew_ok c s n e ttl d :
    (es_Renew c s n e ttl d).2 = None →
    owner (es_Renew c s n e ttl d).1 (now_ms c) s n = Some (e, Some (now_ms c + Milliseconds ttl));
  Renew_any c s n e ttl d :
    owner (es_Renew c s n e ttl d).1 (now_ms c) s n = owner d (now_ms c) s n ∨
    (∃ w, owner d (now_ms c) s n = Some (e, w)) ∧
    owner (es_Renew c s n e ttl d).1 (now_ms c) s n = Some (e, Some (now_ms c + Milliseconds ttl));
  Unregister_any c s n e d :
    owner (es_Unregister c s n e d).1 (now_ms c) s n = owner d (now_ms c) s n ∨
    owner (es_Unregister c s n e d).1 (now_ms c) s n = None;
  Unregister_ok c s n e d :
    call_ok c →
    (es_Unregister c s n e d).2 = None ∨ ownership_error (es_Unregister c s n e d).2 = true →
    ∀ w, owner (es_Unregister c s n e d).1 (now_ms c) s n ≠ Some (e, w);
  env_owner ms s n e d d' w :
    es_env ms s n e d d' → owner d ms s n = Some (e, w) ↔ owner d' ms s n = Some (e, w);
}.

(** ** The Redis locator as an epoch store *)

Section Instance_.
Context `{R : Redis} `{RL : !RedisLaws R} (compileError : error).

(** An operation of a process with another epoch. *)
Definition other_epoch (serviceName nodeID e : string) (o : op) : Prop :=
  foreign serviceName nodeID e o ∧
  match o with ORegister s n e' _ => ¬ (s = serviceName ∧ n = nodeID ∧ e' = e) | _ => True end.

#[export] Instance redis_epoch_store : EpochStore := {
  es_db := db;
  es_Register := RegisterNodeEpoch;
  es_Renew := RenewNodeEpoch compileError;
  es_Unregister := UnregisterNodeEpoch compileError;
  es_env ms s n e d d' := ∃ c o, now_ms c = ms ∧ other_epoch s n e o ∧ d' = exec compileError c o d;
}.

Lemma lease_ms_pos s n e ttl ms : nodeEpochLeaseMilliseconds s n e ttl = Ok ms → ms = Milliseconds ttl ∧ 0 < ms.
Proof.
  unfold nodeEpochLeaseMilliseconds. destruct (_ || (ttl <? Millisecond)) eqn:Ht; [done|].
  intros [= <-]. split; [done|]. apply orb_false_iff in Ht as [_ Ht%Z.ltb_ge]. unfold Milliseconds.
  rewrite Z.quot_div_nonneg by (unfold Millisecond in *; lia).
  apply Z.div_str_pos. unfold Millisecond in *; lia.
Qed.

Lemma locatorError_Some x now e : ∃ e', locatorError x now (Some e) = Some e' ∧
  ∀ t, errors_Is e t = false → t ≠ CtxCanceled → t ≠ CtxDeadlineExceeded → errors_Is e' t = false.
Proof.
  unfold locatorError. destruct (_ || _); [eauto|]. destruct (negb _); [eauto|].
  destruct (Ctx.Err x now) as [cause|] eqn:Hc.
  - eexists. split; [done|]. intros t Ht H1 H2. simpl. rewrite Ht.
    apply Ctx.Err_cases in Hc as [-> | ->]; simpl; by rewrite bool_decide_eq_false_2.
  - destruct (Ctx.deadline x); [|eauto]. destruct (negb _); [|eauto].
    eexists. split; [done|]. intros t Ht H1 H2. simpl. by rewrite Ht, bool_decide_eq_false_2.
Qed.

(** A script call that was not delivered fails with the network's error. *)
Lemma run_loaded_cases c run d :
  (net c = Delivered ∧ run_loaded compileError c run d = ((run (now_ms c) d).1, Ok (run (now_ms c) d).2)) ∨
  (∃ e, (run_loaded compileError c run d).2 = Err e ∧ (call_ok c → not_ownership e)).
Proof.
  unfold run_loaded, runScript; cbn -[locatorError]. destruct (net c) as [|e|e] eqn:Hn.
  - left. split; [done|]. by destruct (run (now_ms c) d).
  - right. destruct (locatorError_Some (ctx c) (now c) e) as (e' & -> & He). exists e'. split; [done|].
    unfold call_ok. rewrite Hn. intros [??]. split; by apply He.
  - right. destruct (run (now_ms c) d). destruct (locatorError_Some (ctx c) (now c) e) as (e' & -> & He).
    exists e'. split; [done|]. unfold call_ok. rewrite Hn. intros [??]. split; by apply He.
Qed.

Lemma RegisterNodeEpoch_result c s n e ttl d :
  (RegisterNodeEpoch c s n e ttl d).2 = None →
  visible (RegisterNodeEpoch c s n e ttl d).1 (now_ms c) (nodeEpochKey s n)
  = Some (e, Some (now_ms c + Milliseconds ttl)).
Proof.
  unfold RegisterNodeEpoch. destruct (nodeEpochLeaseMilliseconds s n e ttl) as [ms|] eqn:Hl; [|done].
  apply lease_ms_pos in Hl as [-> Hms].
  destruct (visible_SETNX d (now_ms c) (nodeEpochKey s n) e (Milliseconds ttl) (nodeEpochKey s n) Hms) as [E1 E2].
  unfold command. destruct (net c) as [|e0|e0].
  - destruct (SETNX _ _ _ _ _) as [d1 set]; cbn [fst snd] in *. subst. case_bool_decide; [|done].
    intros _. by rewrite E2, decide_True.
  - by destruct (locatorError_Some (ctx c) (now c) e0) as (e' & -> & _).
  - destruct (SETNX _ _ _ _ _). by destruct (locatorError_Some (ctx c) (now c) e0) as (e' & -> & _).
Qed.

Lemma RenewNodeEpoch_result c s n e ttl d :
  let d' := (RenewNodeEpoch compileError c s n e ttl d).1 in
  (visible d' (now_ms c) (nodeEpochKey s n) = visible d (now_ms c) (nodeEpochKey s n) ∧
   (RenewNodeEpoch compileError c s n e ttl d).2 ≠ None) ∨
  (∃ w, visible d (now_ms c) (nodeEpochKey s n) = Some (e, w)) ∧
  visible d' (now_ms c) (nodeEpochKey s n) = Some (e, Some (now_ms c + Milliseconds ttl)).
Proof.
  unfold RenewNodeEpoch. destruct (nodeEpochLeaseMilliseconds s n e ttl) as [ms|] eqn:Hl; [|by left].
  apply lease_ms_pos in Hl as [-> Hms]. set (run0 := renewNodeEpoch_run _ _ _).
  assert (Hrun : (run0 (now_ms c) d).1 = d ∧ decodeNodeEpochResult (run0 (now_ms c) d).2 ≠ None ∨
    (∃ w, visible d (now_ms c) (nodeEpochKey s n) = Some (e, w)) ∧
    visible (run0 (now_ms c) d).1 (now_ms c) (nodeEpochKey s n) = Some (e, Some (now_ms c + Milliseconds ttl))).
  { unfold run0, renewNodeEpoch_run. destruct (GET _ _ _) as [v|] eqn:Hg; [|by left].
    case_bool_decide; [|by left]. subst. right. apply GET_epoch in Hg as [w Hv]. split; [by eexists|].
    cbn [negb fst]. by rewrite visible_PEXPIRE, decide_True, Hv by done. }
  destruct (run_loaded_cases c run0 d) as [[_ ->]|(err & He & _)]; cbn [fst snd].
  - destruct Hrun as [[-> Hd]|Hrun]; [by left|by right].
  - destruct (run_loaded_effect compileError c run0 d) as [Hd|Hd];
      destruct (run_loaded _ _ _ _) as [d1 r]; cbn [fst snd] in *; subst; cbn [fst snd].
    + by left.
    + destruct Hrun as [[-> _]|Hrun]; [by left|by right].
Qed.

Lemma UnregisterNodeEpoch_result c s n e d :
  let d' := (UnregisterNodeEpoch compileError c s n e d).1 in
  let k := nodeEpochKey s n in
  (visible d' (now_ms c) k = visible d (now_ms c) k ∨ visible d' (now_ms c) k = None) ∧
  (call_ok c → (UnregisterNodeEpoch compileError c s n e d).2 = None ∨
               ownership_error (UnregisterNodeEpoch compileError c s n e d).2 = true →
   ∀ w, visible d' (now_ms c) k ≠ Some (e, w)).
Proof.
  unfold UnregisterNodeEpoch. destruct (_ || negb (nonempty e)).
  { simpl. split; [by left|]. intros _ [?|?]; done. }
  set (run0 := deleteIfValueMatches_run _ _).
  assert (Hrun : ((run0 (now_ms c) d).1 = d ∨ visible (run0 (now_ms c) d).1 (now_ms c) (nodeEpochKey s n) = None) ∧
                 ∀ w, visible (run0 (now_ms c) d).1 (now_ms c) (nodeEpochKey s n) ≠ Some (e, w)).
  { unfold run0, deleteIfValueMatches_run. rewrite visible_GET.
    destruct (visible d (now_ms c) (nodeEpochKey s n)) as [[v w]|] eqn:E; cbn [fmap option_fmap option_map fst snd].
    - case_bool_decide; cbn [negb fst snd]; [rewrite visible_DEL, decide_True by done; auto|].
      split; [by left|]. intros w'. rewrite E. congruence.
    - split; [by left|]. by rewrite E. }
  destruct (run_loaded_cases c run0 d) as [[_ ->]|(err & He & Hok)]; cbn [fst snd].
  - destruct Hrun as [[->| ->] Hn]; auto.
  - destruct (run_loaded_effect compileError c run0 d) as [Hd|Hd];
      destruct (run_loaded _ _ _ _) as [d1 r]; cbn [fst snd] in *; subst; cbn [fst snd].
    all: split; [by (left + (destruct Hrun as [[->| ->] _]; auto))|].
    all: intros Hc [?|Hoe]; [done|]. all: destruct (Hok Hc) as [H1 H2]. all: unfold ownership_error in Hoe.
    all: simpl in Hoe. all: by rewrite H1, H2 in Hoe.
Qed.

(** The epoch operations touch only the key of their node. *)
Lemma script_frame c run (d : db) k A (f : db * result (list value) → A) (g : A → db) :
  (∀ x, g (f x) = x.1) → visible (run (now_ms c) d).1 (now_ms c) k = visible d (now_ms c) k →
  visible (g (f (run_loaded compileError c run d))) (now_ms c) k = visible d (now_ms c) k.
Proof. intros Hf Hr. rewrite Hf. by destruct (run_loaded_effect compileError c run d) as [-> | ->]. Qed.

Lemma RenewNodeEpoch_frame c s n e ttl d k :
  k ≠ nodeEpochKey s n →
  visible (RenewNodeEpoch compileError c s n e ttl d).1 (now_ms c) k = visible d (now_ms c) k.
Proof.
  intros Hk. unfold RenewNodeEpoch. destruct (nodeEpochLeaseMilliseconds s n e ttl) as [ms|] eqn:Hl; [|done].
  apply lease_ms_pos in Hl as [-> Hms].
  refine (script_frame c _ d k _ (λ x, match x with (d, Err err) => (d, Some err)
           | (d, Ok values) => (d, decodeNodeEpochResult values) end) fst _ _); [by intros [? []]|].
  unfold renewNodeEpoch_run. destruct (GET _ _ _); [|done]. case_bool_decide; cbn [negb fst]; [|done].
  by rewrite visible_PEXPIRE, decide_False.
Qed.

Lemma UnregisterNodeEpoch_frame c s n e d k :
  k ≠ nodeEpochKey s n →
  visible (UnregisterNodeEpoch compileError c s n e d).1 (now_ms c) k = visible d (now_ms c) k.
Proof.
  intros Hk. unfold UnregisterNodeEpoch. destruct (_ || negb (nonempty e)); [done|].
  refine (script_frame c _ d k _ (λ x, match x with (d, Err err) => (d, Some err)
           | (d, Ok values) => (d, if ackIdempotentUnbind (scriptStatus values) then None
                                   else Some (ESentinel ErrInvalidScriptResult)) end) fst _ _);
    [by intros [? []]|].
  unfold deleteIfValueMatches_run. destruct (GET _ _ _); [|done]. case_bool_decide; cbn [negb fst]; [|done].
  by rewrite visible_DEL, decide_False.
Qed.

(** Another process's operation neither takes an epoch away nor grants it. *)
Lemma exec_other_epoch c o d s n e w :
  other_epoch s n e o →
  visible d (now_ms c) (nodeEpochKey s n) = Some (e, w) ↔
  visible (exec compileError c o d) (now_ms c) (nodeEpochKey s n) = Some (e, w).
Proof.
  intros [Hf Hr]. split; [by apply exec_foreign|]. intros Hv. rewrite <-Hv. symmetry. revert Hv.
  destruct o as [s' u n' e'|s' u n' e'|s' u n' e'|s' n' e' ttl|s' n' e' ttl|s' n' e']; cbn [exec foreign] in *.
  - destruct (BindNode_effect compileError c s' u n' e' d) as [->|[_ H]]; [done|]. by rewrite H.
  - destruct (RenewNode_effect compileError c s' u n' e' d) as [->|[_ H]]; [done|]. by rewrite H.
  - destruct (UnbindNode_effect compileError c s' u n' e' d) as [->|[_ H]]; [done|]. by rewrite H.
  - unfold RegisterNodeEpoch. destruct (nodeEpochLeaseMilliseconds s' n' e' ttl) as [ms|] eqn:Hl; [|done].
    apply lease_ms_pos in Hl as [-> Hms].
    destruct (visible_SETNX d (now_ms c) (nodeEpochKey s' n') e' (Milliseconds ttl) (nodeEpochKey s n) Hms) as [_ E2].
    assert (E3 : visible (SETNX (now_ms c) (nodeEpochKey s' n') e' (Milliseconds ttl) d).1 (now_ms c) (nodeEpochKey s n)
                 = Some (e, w) → visible d (now_ms c) (nodeEpochKey s n) = Some (e, w)).
    { rewrite E2. case_decide as Hk; [|done]. intros [= -> _]. destruct Hk as [Hk _].
      apply nodeLocationKey_inj in Hk as [-> ->]. by destruct Hr. }
    clear E2. unfold command. destruct (SETNX _ _ _ _ _) as [d1 set], (net c) as [|e0|e0]; cbn [fst snd] in *.
    2-3: destruct (locatorError_Some (ctx c) (now c) e0) as (e1 & -> & _).
    all: cbn [fst]; intros Hv; rewrite Hv; symmetry; auto.
  - destruct (decide (nodeEpochKey s n = nodeEpochKey s' n')) as [Ek|Ek]; [|by rewrite RenewNodeEpoch_frame].
    apply nodeLocationKey_inj in Ek as [-> ->].
    destruct (RenewNodeEpoch_result c s' n' e' ttl d) as [[-> _]|[_ ->]]; [done|].
    intros [= -> _]. by destruct Hf.
  - destruct (decide (nodeEpochKey s n = nodeEpochKey s' n')) as [Ek|Ek]; [|by rewrite UnregisterNodeEpoch_frame].
    apply nodeLocationKey_inj in Ek as [-> ->].
    by destruct (UnregisterNodeEpoch_result c s' n' e' d) as [[->| ->] _].
Qed.

#[export, refine] Instance redis_epoch_store_laws : EpochStoreLaws redis_epoch_store := {
  owner d ms s n := visible d ms (nodeEpochKey s n);
}.
Proof.
  - intros. by apply visible_later.
  - intros c s n e ttl d. apply RegisterNodeEpoch_result.
  - intros c s n e ttl d Hr. by destruct (RenewNodeEpoch_result c s n e ttl d) as [[_ ?]|[_ ?]].
  - intros c s n e ttl d. destruct (RenewNodeEpoch_result c s n e ttl d) as [[? _]|?]; auto.
  - intros c s n e d. apply (UnregisterNodeEpoch_result c s n e d).
  - intros c s n e d. apply (UnregisterNodeEpoch_result c s n e d).
  - intros ms s n e d d' w (c & o & <- & Ho & ->). by apply exec_other_epoch.
Defined.
End Instance_.
