(* ===== verification/Epoch.v ===== *)
(** * The epoch lease of a node process

    [node/epoch.go]: the claim of a process's epoch, its renewal, the loss of
    it and its release.  A method is cut where another goroutine, the store or
    the clock can come between; times are the process's monotonic clock. *)

From S2P Require Import Prelude Errors Locate Keys Redis GateLocator EpochStore.

Definition DefaultNodeEpochTTL : Z := 30 * Second.
Definition nodeEpochRenewInterval : Z := 10 * Second.
Definition nodeEpochRPCTimeout : Z := 3 * Second.

(** [cause] is the cancellation cause of the lease's context; [done] the
    channel of the renewal goroutine: nil, open or closed. *)
Record epochLease := mkLease {
  cause : option error;
  deadline : Z;
  done : option bool;
  released : bool;
}.
#[export] Instance eta_epochLease : Eta epochLease := λ e,
  mkLease (cause e) (deadline e) (done e) (released e).

(** [context.CancelCauseFunc]: the first cause stays; a nil cause is [Canceled]. *)
Definition cancel (err : option error) (e : epochLease) : epochLease :=
  match cause e with
  | Some _ => e
  | None => e <| cause := Some (default (ESentinel CtxCanceled) err) |>
  end.

Definition newEpochLease (dl : Z) : epochLease := mkLease None dl None false.

(** A nil lease is always valid. *)
Definition valid (now : Z) (e : option epochLease) : option epochLease * option error :=
  match e with
  | None => (None, None)
  | Some e =>
      let e := if negb (now <? deadline e) then cancel (Some (ESentinel ErrNodeEpochExpired)) e else e in
      (Some e, cause e)
  end.

Definition ownership_lost (err : error) : error := EWrap "node: epoch ownership lost" [err].

Definition loseOwnership (err : error) (e : epochLease) : epochLease * option error :=
  let e := cancel (Some (ownership_lost err)) e in (e, cause e).

(** The context of a request, by its cause once [requestContext] returns;
    [parent] is the cause of the caller's context. *)
Definition requestContext (now : Z) (parent : option error) (e : option epochLease)
  : option epochLease * option error :=
  match e with
  | None => (None, parent)
  | Some _ =>
      let '(e, err) := valid now e in
      (e, match parent with Some _ => parent | None => err end)
  end.

(** [claimEpoch] after the store answered [err]; [ctxErr] is the timeout's. *)
Definition claimEpoch_finish (started now : Z) (err ctxErr : option error) : option epochLease * option error :=
  match err with
  | Some err => (None, Some (EWrap "node: register epoch" [err]))
  | None =>
      let lease := Some (newEpochLease (started + DefaultNodeEpochTTL)) in
      match ctxErr with
      | Some err => (lease, Some (EWrap "node: register epoch" [err]))
      | None => valid now lease
      end
  end.

(** ** renewOnce *)

Definition renewOnce_deadline (started : Z) (e : epochLease) : Z :=
  if started + nodeEpochRPCTimeout <? deadline e then started + nodeEpochRPCTimeout else deadline e.

(** [ctx.Err()] of the renewal's context. *)
Definition renewal_ctx_err (now renewalDeadline : Z) (e : epochLease) : option error :=
  match cause e with
  | Some _ => Some (ESentinel CtxCanceled)
  | None => if now <? renewalDeadline then None else Some (ESentinel CtxDeadlineExceeded)
  end.

(** The checks after the store answered: the error of the renewal. *)
Definition renewOnce_check (now renewalDeadline : Z) (err : option error) (e : epochLease)
  : epochLease * option error :=
  let err := match err with
             | None => if negb (now <? renewalDeadline) then Some (ESentinel CtxDeadlineExceeded) else None
             | _ => err end in
  let err := match err with None => renewal_ctx_err now renewalDeadline e | _ => err end in
  match err with
  | None => let '(e', err) := valid now (Some e) in (default e e', err)
  | _ => (e, err)
  end.

Definition renewOnce_store (started : Z) (e : epochLease) : epochLease :=
  e <| deadline := started + DefaultNodeEpochTTL |>.

Definition renewOnce_failed (err : error) (e : epochLease) : epochLease * error :=
  if ownership_error (Some err)
  then let err := ownership_lost err in (cancel (Some err) e, err)
  else (e, err).

(** ** The goroutines of a lease *)

(** The claim, made once. *)
Inductive claim_state :=
| CIdle
| CCalling (started : Z)
| CReplied (started : Z) (err : option error)
| CDone (err : option error).

(** [renewLoop] *)
Inductive rstate :=
| RNone
| RValid                                      (* renewOnce: valid *)
| RBegin                                      (* renewOnce: started, deadline *)
| RCalling (started renewalDeadline : Z)
| RReplied (started renewalDeadline : Z) (err : option error)
| RStore (started : Z)
| RSend (err : option error)                  (* results <- err *)
| RTick
| RExit.

(** [monitor] and the end of its goroutine; the flag: [ready] is not nil. *)
Inductive mstate :=
| MNone
| MSelect (ready : bool)
| MValid (ready : bool)
| MReturn (err : error)
| MJoin
| MDone.

(** A call of [stopRenewal], or of [release] when the flag is set. *)
Inductive stopper :=
| SCancel (rel : bool)
| SDone (rel : bool)                          (* read e.done *)
| SWait (rel : bool)
| SRelease (stopErr : option error)           (* release: after stopRenewal *)
| SReturned (err : option error).

Section System.
Context `{E : EpochStore}.
Context (srv : Z → Z)                         (* the server's clock (ms) at a local time *)
        (serviceName nodeID epoch : string).  (* the identity; the epoch is a fresh UUID *)

Record sys := mkSys {
  time : Z;
  store : es_db;
  claim : claim_state;
  lease : option epochLease;
  started_ : bool;                            (* start was called *)
  ready : list (option error);                (* sends on the ready channel *)
  results : list (option error);              (* results, capacity 1 *)
  renewal : rstate;
  mon : mstate;
  timer : Z;
  lost : list error;                          (* calls of onLost *)
  stoppers : gmap nat stopper;
  unregistering : bool;                       (* an unregister request was sent *)
}.
#[export] Instance eta_sys : Eta sys := λ s,
  mkSys (time s) (store s) (claim s) (lease s) (started_ s) (ready s) (results s) (renewal s) (mon s)
    (timer s) (lost s) (stoppers s) (unregistering s).

Definition init_sys (s : sys) : Prop :=
  ∃ t d, s = mkSys t d CIdle None false [] [] RNone MNone 0 [] ∅ false.

Definition at_server (s : sys) (c : call) : Prop := now_ms c = srv (time s) ∧ call_ok c.

Definition set_stopper (s : sys) (p : nat) (x : stopper) : sys :=
  s <| stoppers := <[p := x]> (stoppers s) |>.

(** claimEpoch *)
Inductive claim_step (s : sys) : sys → Prop :=
| cl_begin : claim s = CIdle → claim_step s (s <| claim := CCalling (time s) |>)
| cl_call c t0 d err :
    claim s = CCalling t0 → at_server s c →
    es_Register c serviceName nodeID epoch DefaultNodeEpochTTL (store s) = (d, err) →
    claim_step s (s <| store := d |> <| claim := CReplied t0 err |>)
| cl_finish t0 err ctxErr e err' :
    claim s = CReplied t0 err → claimEpoch_finish t0 (time s) err ctxErr = (e, err') →
    claim_step s (s <| lease := e |> <| claim := CDone err' |>).

(** start *)
Inductive start_step (s : sys) : sys → Prop :=
| sa_invalid e err :
    started_ s = false → lease s ≠ None → valid (time s) (lease s) = (e, Some err) →
    start_step s (s <| started_ := true |> <| lease := e |> <| ready := [Some err] |>)
| sa_start e :
    started_ s = false → lease s ≠ None → valid (time s) (lease s) = (Some e, None) →
    start_step s (s <| started_ := true |> <| lease := Some (e <| done := Some false |>) |>
                    <| renewal := RValid |> <| mon := MSelect true |> <| timer := deadline e |>).

(** renewLoop with renewOnce *)
Inductive renew_step (s : sys) : sys → Prop :=
| rn_valid e err :
    renewal s = RValid → valid (time s) (lease s) = (e, err) →
    renew_step s (s <| lease := e |>
                    <| renewal := match err with Some _ => RSend err | None => RBegin end |>)
| rn_begin e :
    renewal s = RBegin → lease s = Some e →
    renew_step s (s <| renewal := RCalling (time s) (renewOnce_deadline (time s) e) |>)
| rn_call c t0 rd d err :
    renewal s = RCalling t0 rd → at_server s c →
    es_Renew c serviceName nodeID epoch DefaultNodeEpochTTL (store s) = (d, err) →
    renew_step s (s <| store := d |> <| renewal := RReplied t0 rd err |>)
| rn_check_ok t0 rd err e e' :
    renewal s = RReplied t0 rd err → lease s = Some e →
    renewOnce_check (time s) rd err e = (e', None) →
    renew_step s (s <| lease := Some e' |> <| renewal := RStore t0 |>)
| rn_check_failed t0 rd err e e' err' e'' err'' :
    renewal s = RReplied t0 rd err → lease s = Some e →
    renewOnce_check (time s) rd err e = (e', Some err') → renewOnce_failed err' e' = (e'', err'') →
    renew_step s (s <| lease := Some e'' |> <| renewal := RSend (Some err'') |>)
| rn_store t0 e :
    renewal s = RStore t0 → lease s = Some e →
    renew_step s (s <| lease := Some (renewOnce_store t0 e) |> <| renewal := RSend None |>)
| rn_send err :
    renewal s = RSend err → results s = [] →
    renew_step s (s <| results := [err] |> <| renewal := RTick |>)
| rn_tick : renewal s = RTick → renew_step s (s <| renewal := RValid |>)
| rn_exit e err :
    renewal s = RTick ∨ renewal s = RSend err → lease s = Some e → cause e ≠ None →
    renew_step s (s <| renewal := RExit |>).

(** monitor *)
Definition monitor_return (s : sys) (ready_open : bool) (err : error) : sys :=
  s <| ready := ready s ++ (if ready_open then [Some err] else []) |> <| mon := MReturn err |>.

Inductive monitor_step (s : sys) : sys → Prop :=
| mo_result r err rest :
    mon s = MSelect r → results s = err :: rest →
    monitor_step s
      (let s := s <| results := rest |> in
       if r then
         let s := s <| ready := ready s ++ [err] |> in
         s <| mon := match err with Some e => MReturn e | None => MValid false end |>
       else s <| mon := MValid false |>)
| mo_timer r :
    mon s = MSelect r → timer s ≤ time s → monitor_step s (s <| mon := MValid r |>)
| mo_ctx r e :
    mon s = MSelect r → lease s = Some e → cause e ≠ None → monitor_step s (s <| mon := MValid r |>)
| mo_lost r e err :
    mon s = MValid r → valid (time s) (lease s) = (e, Some err) →
    monitor_step s (monitor_return (s <| lease := e |>) r err)
| mo_valid r e :
    mon s = MValid r → valid (time s) (lease s) = (Some e, None) →
    monitor_step s (s <| lease := Some e |> <| timer := deadline e |> <| mon := MSelect r |>)
| mo_cancel err e :
    mon s = MReturn err → lease s = Some e →
    monitor_step s (s <| lease := Some (cancel (Some err) e) |>
                      <| lost := lost s ++ (if errors_Is err CtxCanceled then [] else [err]) |>
                      <| mon := MJoin |>)
| mo_join e :
    mon s = MJoin → renewal s = RExit → lease s = Some e →
    monitor_step s (s <| lease := Some (e <| done := Some true |>) |> <| mon := MDone |>).

(** stopRenewal and release; release holds the lease's mutex from its check to
    its result. *)
Inductive stop_step (s : sys) : sys → Prop :=
| sp_call p rel :
    stoppers s !! p = None → lease s ≠ None → stop_step s (set_stopper s p (SCancel rel))
| sp_cancel p rel e :
    stoppers s !! p = Some (SCancel rel) → lease s = Some e →
    stop_step s (set_stopper (s <| lease := Some (cancel (Some (ESentinel CtxCanceled)) e) |>) p (SDone rel))
| sp_done p rel e :
    stoppers s !! p = Some (SDone rel) → lease s = Some e →
    stop_step s (set_stopper s p (match done e with
                                  | None => if rel then SRelease None else SReturned None
                                  | Some _ => SWait rel end))
| sp_wait p rel e ctxErr err :
    stoppers s !! p = Some (SWait rel) → lease s = Some e →
    Done (default false (done e)) ctxErr = Some err →
    stop_step s (set_stopper s p (if rel then SRelease err else SReturned err))
| sp_skip p stopErr e :
    stoppers s !! p = Some (SRelease stopErr) → lease s = Some e →
    stopErr ≠ None ∨ released e = true →
    stop_step s (set_stopper s p (SReturned stopErr))
| sp_release p e c d err :
    stoppers s !! p = Some (SRelease None) → lease s = Some e → released e = false → at_server s c →
    es_Unregister c serviceName nodeID epoch (store s) = (d, err) →
    stop_step s
      (let s := s <| store := d |> <| unregistering := true |> in
       if match err with None => true | Some _ => ownership_error err end
       then set_stopper (s <| lease := Some (e <| released := true |>) |>) p (SReturned None)
       else set_stopper s p (SReturned err)).

(** Time, the rest of the process, other processes, and requests of this
    process that reach the store late. *)
Inductive env_step (s : sys) : sys → Prop :=
| en_time t : time s ≤ t → env_step s (s <| time := t |>)
| en_valid e err : valid (time s) (lease s) = (e, err) → env_step s (s <| lease := e |>)
| en_lose e e' err err' :
    lease s = Some e → loseOwnership err e = (e', err') → env_step s (s <| lease := Some e' |>)
| en_other d : es_env (srv (time s)) serviceName nodeID epoch (store s) d → env_step s (s <| store := d |>)
| en_late_renew c d err :
    at_server s c → es_Renew c serviceName nodeID epoch DefaultNodeEpochTTL (store s) = (d, err) →
    env_step s (s <| store := d |>)
| en_late_unregister c d err :
    unregistering s = true → at_server s c →
    es_Unregister c serviceName nodeID epoch (store s) = (d, err) →
    env_step s (s <| store := d |>).

Inductive step (s s' : sys) : Prop :=
| st_claim : claim_step s s' → step s s'
| st_start : start_step s s' → step s s'
| st_renew : renew_step s s' → step s s'
| st_monitor : monitor_step s s' → step s s'
| st_stop : stop_step s s' → step s s'
| st_env : env_step s s' → step s s'.

Definition reach : sys → Prop := reachable init_sys step.

(** ** Control invariant: who may be where *)

Definition stopper_ok (e : epochLease) (x : stopper) : Prop :=
  match x with
  | SCancel _ => True
  | SRelease None => cause e ≠ None ∧ done e ≠ Some false
  | _ => cause e ≠ None
  end.

Definition goroutines_ok (s : sys) (e : epochLease) : Prop :=
  match done e with
  | None => mon s = MNone ∧ renewal s = RNone
  | Some false => started_ s = true ∧ mon s ≠ MNone ∧ mon s ≠ MDone ∧ renewal s ≠ RNone
  | Some true => started_ s = true ∧ cause e ≠ None ∧ mon s = MDone ∧ renewal s = RExit
  end.

Definition mon_ok (s : sys) (e : epochLease) : Prop :=
  match mon s with
  | MSelect r | MValid r => r = true → ready s = []
  | MJoin => cause e ≠ None
  | _ => True
  end.

Record lease_ctl (s : sys) (e : epochLease) : Prop := mkLeaseCtl {
  lc_claim : ∃ err, claim s = CDone err;
  lc_go : goroutines_ok s e;
  lc_stop : map_Forall (λ _, stopper_ok e) (stoppers s);
  lc_unreg : unregistering s = true → cause e ≠ None ∧ done e ≠ Some false;
  lc_rel : released e = true → unregistering s = true;
  lc_mon : mon_ok s e;
  lc_ready : (length (ready s) ≤ 1)%nat;
  lc_fresh : started_ s = false → done e = None ∧ ready s = [];
}.

Record ctl (s : sys) : Prop := mkCtl {
  c_nil : lease s = None → mon s = MNone ∧ renewal s = RNone ∧ stoppers s = ∅ ∧
                           unregistering s = false ∧ started_ s = false ∧ ready s = [];
  c_lease : ∀ e, lease s = Some e → lease_ctl s e;
}.

Lemma cancel_cases c e :
  cancel c e = e ∨ cause e = None ∧ ∃ err, cancel c e = e <| cause := Some err |>.
Proof. unfold cancel. destruct (cause e) eqn:Ec; [by left|right; eauto]. Qed.

Lemma cancel_cause c e : cause (cancel c e) ≠ None.
Proof. unfold cancel. destruct (cause e) eqn:Ec; simpl; congruence. Qed.

Lemma cancel_fields c e :
  deadline (cancel c e) = deadline e ∧ done (cancel c e) = done e ∧ released (cancel c e) = released e.
Proof. by destruct (cancel_cases c e) as [->|(_ & err & ->)]. Qed.

Lemma valid_Some now e : ∃ e', valid now (Some e) = (Some e', cause e') ∧
  (e' = e ∧ (cause e = None → now < deadline e) ∨ e' = cancel (Some (ESentinel ErrNodeEpochExpired)) e).
Proof.
  unfold valid. destruct (Z.ltb_spec now (deadline e)); simpl; eauto.
Qed.

(** A lease that is only cancelled. *)
Inductive canceled_of (e : epochLease) : epochLease → Prop :=
| co_same : canceled_of e e
| co_cancel err : cause e = None → canceled_of e (e <| cause := Some err |>).

Lemma canceled_cancel c e : canceled_of e (cancel c e).
Proof. destruct (cancel_cases c e) as [->|(? & err & ->)]; by constructor. Qed.

Lemma canceled_valid now e e' err : valid now (Some e) = (e', err) → ∃ e1, e' = Some e1 ∧ canceled_of e e1 ∧ err = cause e1.
Proof.
  intros H. destruct (valid_Some now e) as (e1 & H1 & [[-> _]| ->]); rewrite H1 in H; simplify_eq;
    eauto using co_same, canceled_cancel.
Qed.

Lemma stopper_ok_canceled e e' x : canceled_of e e' → stopper_ok e x → stopper_ok e' x.
Proof. intros []; [done|]. destruct x as [| | |[]|]; simpl; intuition. Qed.

Lemma lease_ctl_canceled s e e' :
  canceled_of e e' → lease_ctl s e → lease_ctl (s <| lease := Some e' |>) e'.
Proof.
  intros Hc [[err Hcl] Hgo Hst Hu Hr Hm Hrd Hf]. split; simpl; eauto.
  - destruct Hc; [done|]. unfold goroutines_ok in *; simpl in *. destruct (done e) as [[]|]; intuition.
  - intros p x Hx. eapply stopper_ok_canceled; [done|]. by eapply Hst.
  - destruct Hc; [done|]. intros H1. destruct (Hu H1). done.
  - destruct Hc; done.
  - destruct Hc; [done|]. unfold mon_ok in *; simpl in *. destruct (mon s); intuition.
  - destruct Hc; done.
Qed.

Lemma ctl_canceled s e e' :
  ctl s → lease s = Some e → canceled_of e e' → ctl (s <| lease := Some e' |>).
Proof.
  intros [Hn Hl] He Hc. split; simpl; [done|]. intros e1 [= <-].
  eapply lease_ctl_canceled; [done|]. by apply Hl.
Qed.

Lemma ctl_valid s e err : ctl s → valid (time s) (lease s) = (e, err) → ctl (s <| lease := e |>).
Proof.
  intros H Hv. destruct (lease s) as [e0|] eqn:He.
  - apply canceled_valid in Hv as (e1 & -> & Hc & _). by eapply ctl_canceled.
  - simpl in Hv. simplify_eq. destruct H as [Hn Hl]. split; simpl; [by rewrite He in Hn|done].
Qed.

(** The rest of a step, once its lease is in place. *)
Ltac ctl_pc H :=
  let Hn := fresh "Hn" in let Hl := fresh "Hl" in
  destruct H as [Hn Hl]; split; simpl in *; [try done; congruence|];
  let e1 := fresh "e1" in let He1 := fresh "He1" in
  intros e1 He1;
  let Hc := fresh in
  first [pose proof (Hl _ He1) as Hc | pose proof (Hl _ eq_refl) as Hc];
  destruct Hc as [[?err Hcl] Hgo Hst Hu Hr Hm Hrd Hf]; simplify_eq;
  unfold goroutines_ok, mon_ok in *; simpl in *.

Lemma ctl_claim s s' : ctl s → claim_step s s' → ctl s'.
Proof.
  intros H Hs.
  assert (Hne : ∀ x, claim s = x → (∀ err, x ≠ CDone err) → lease s = None).
  { intros x Hx Hne. destruct (lease s) as [e|] eqn:He; [|done].
    destruct (c_lease s H e He) as [[err Herr] _ _ _ _ _ _ _]. naive_solver. }
  destruct Hs as [Hc|c t0 d err Hc Hat Hr|t0 err ctxErr e err' Hc Hf].
  1-2: specialize (Hne _ Hc ltac:(done)); destruct H as [Hn Hl]; split; simpl; [done|congruence].
  specialize (Hne _ Hc ltac:(done)). destruct (c_nil s H Hne) as (Hm & Hr & Hst & Hu & Hs & Hrd).
  split; simpl; [done|]. intros e1 ->.
  assert (done e1 = None ∧ released e1 = false) as [Hd Hrel].
  { unfold claimEpoch_finish in Hf. destruct err; [done|]. destruct ctxErr; [by simplify_eq|].
    apply canceled_valid in Hf as (e2 & [= <-] & Hco & _). by destruct Hco. }
  split; simpl; rewrite ?Hst, ?Hu, ?Hrd; try done; [by eexists|..].
  - unfold goroutines_ok. by rewrite Hd.
  - by rewrite Hrel.
  - unfold mon_ok; simpl. by rewrite Hm.
  - simpl. lia.
Qed.

Lemma ctl_start s s' : ctl s → start_step s s' → ctl s'.
Proof.
  intros H Hs. destruct Hs as [e err Hnew Hne Hv|e Hnew Hne Hv].
  - pose proof (ctl_valid _ _ _ H Hv) as H1. destruct e as [e|]; [|].
    2: { destruct (lease s); [|done]. by apply canceled_valid in Hv as (? & ? & _). }
    ctl_pc H1.
    destruct (Hf Hnew) as [Hd _]. rewrite Hd in *. destruct Hgo as [-> ->].
    split; simpl; eauto; unfold goroutines_ok, mon_ok; simpl; rewrite ?Hd; try done.
  - pose proof (ctl_valid _ _ _ H Hv) as H1. destruct (lease s) as [e0|] eqn:He0; [|done].
    apply canceled_valid in Hv as (e1 & [= <-] & _ & Hce).
    ctl_pc H1.
    destruct (Hf Hnew) as [Hd Hrd0]. rewrite Hd in *. destruct Hgo as [Hm0 Hr0].
    split; simpl; eauto; unfold goroutines_ok, mon_ok; simpl; try done.
    + intros p x Hx. specialize (Hst p x Hx). destruct x as [| | |[]|]; simpl in *; intuition congruence.
    + intros Hun. destruct (Hu Hun). congruence.
Qed.

(** Changes the control invariant does not see, and changes of one goroutine. *)
Lemma ctl_frame s t d res l :
  ctl s → ctl (s <| time := t |> <| store := d |> <| results := res |> <| lost := l |>).
Proof. intros [Hn Hl]. split; [done|]. intros e He. by destruct (Hl e He). Qed.

Lemma ctl_renewal s r :
  ctl s → renewal s ≠ RNone → renewal s ≠ RExit → r ≠ RNone → ctl (s <| renewal := r |>).
Proof.
  intros [Hn Hl] H1 H2 H3. split; simpl; [intros Hx; by destruct (Hn Hx) as (_ & ? & _)|].
  intros e He. destruct (Hl e He) as [[err Hcl] Hgo Hst Hu Hr Hm Hrd Hf]. split; simpl; eauto.
  unfold goroutines_ok in *; simpl. destruct (done e) as [[]|]; intuition congruence.
Qed.

Lemma ctl_mon s m rd :
  ctl s → mon s ≠ MNone → mon s ≠ MDone → m ≠ MNone → m ≠ MDone → (length rd ≤ 1)%nat →
  (∀ e, lease s = Some e → mon_ok (s <| mon := m |> <| ready := rd |>) e) →
  ctl (s <| mon := m |> <| ready := rd |>).
Proof.
  intros H H1 H2 H3 H4 Hlen Hok. destruct H as [Hn Hl].
  split; simpl; [intros Hx; by destruct (Hn Hx)|]. intros e He. specialize (Hok e He).
  destruct (Hl e He) as [[err Hcl] Hgo Hst Hu Hr Hm Hrd Hf]. split; simpl; eauto.
  - unfold goroutines_ok in *; simpl. destruct (done e) as [[]|]; intuition congruence.
  - intros Hs. destruct (Hf Hs) as [Hd _]. unfold goroutines_ok in Hgo. rewrite Hd in Hgo. by destruct Hgo.
Qed.

Lemma renewOnce_check_spec now rd err e e' err' :
  renewOnce_check now rd err e = (e', err') →
  canceled_of e e' ∧ (err' = None → err = None ∧ cause e' = None).
Proof.
  unfold renewOnce_check. intros H.
  destruct (match _ with None => renewal_ctx_err now rd e | _ => _ end) as [err1|] eqn:E1.
  - simplify_eq. split; [constructor|done].
  - destruct (valid now (Some e)) as [o err2] eqn:Hv. apply canceled_valid in Hv as (e1 & -> & Hc & ->).
    simpl in H. simplify_eq. split; [done|]. intros Hn. split; [|done]. by destruct err.
Qed.

Lemma ctl_renew s s' : ctl s → renew_step s s' → ctl s'.
Proof.
  intros H Hs.
  destruct Hs as [e err Hr Hv|e Hr He|c t0 rd d err Hr Hat Hs|t0 rd err e e' Hr He Hc
    |t0 rd err e e' err' e2 err'' Hr He Hc Hf|t0 e Hr He|err Hr Hres|Hr|e err Hr He Hce].
  - apply (ctl_renewal (s <| lease := e |>)); simpl; try congruence; [by eapply ctl_valid|by destruct err].
  - apply ctl_renewal; congruence.
  - apply (ctl_renewal (s <| store := d |>)); simpl; try congruence. by apply (ctl_frame s (time s) d (results s) (lost s)).
  - apply (ctl_renewal (s <| lease := Some e' |>)); simpl; try congruence.
    eapply ctl_canceled; [done..|]. by eapply renewOnce_check_spec.
  - apply (ctl_renewal (s <| lease := Some e2 |>)); simpl; try congruence.
    apply renewOnce_check_spec in Hc as [Hc _].
    assert (H1 := ctl_canceled _ _ _ H He Hc). unfold renewOnce_failed in Hf. case_match; simplify_eq; [|done].
    exact (ctl_canceled (s <| lease := Some e' |>) e' _ H1 eq_refl (canceled_cancel _ _)).
  - apply (ctl_renewal (s <| lease := Some (renewOnce_store t0 e) |>)); simpl; try congruence.
    destruct H as [_ Hl]. destruct (Hl e He). split; [done|]. intros e1 [= <-]. by split.
  - apply (ctl_renewal (s <| results := [err] |>)); simpl; try congruence.
    by apply (ctl_frame s (time s) (store s) [err] (lost s)).
  - apply ctl_renewal; congruence.
  - apply ctl_renewal; [done|destruct Hr; congruence..|done].
Qed.

Lemma ctl_monitor s s' : ctl s → monitor_step s s' → ctl s'.
Proof.
  intros H Hs.
  assert (Hnone : mon s ≠ MNone → ∃ e, lease s = Some e ∧ lease_ctl s e).
  { intros Hm. destruct (lease s) as [e|] eqn:He; [|by destruct (c_nil s H He)].
    exists e. split; [done|]. by apply (c_lease s H). }
  destruct Hs as [r err rest Hm Hres|r Hm Ht|r e Hm He Hce|r e err Hm Hv|r e Hm Hv|err e Hm He|e Hm Hr He].
  - destruct Hnone as (e & He & [_ _ _ _ _ Hok Hrd _]); [congruence|].
    assert (H1 := ctl_frame s (time s) (store s) rest (lost s) H).
    unfold mon_ok in Hok. rewrite Hm in Hok.
    destruct r; simpl; [rewrite Hok by done|]; (eapply ctl_mon in H1; [exact H1|simpl; try congruence..]);
      try (by destruct err); try done; try lia.
  - destruct Hnone as (e & He & [_ _ _ _ _ Hok Hrd _]); [congruence|].
    eapply ctl_mon in H; [exact H|congruence..|done|]. intros e1 He1. unfold mon_ok in *; simpl. by rewrite Hm in Hok.
  - destruct Hnone as (e1 & He1 & [_ _ _ _ _ Hok Hrd _]); [congruence|].
    eapply ctl_mon in H; [exact H|congruence..|done|]. intros e2 He2. unfold mon_ok in *; simpl. by rewrite Hm in Hok.
  - destruct Hnone as (e1 & He1 & [_ _ _ _ _ Hok Hrd _]); [congruence|].
    assert (H1 := ctl_valid _ _ _ H Hv).
    refine (ctl_mon (s <| lease := e |>) (MReturn err) (ready s ++ (if r then [Some err] else [])) H1 _ _ _ _ _ _);
      simpl; try congruence; [|done].
    unfold mon_ok in Hok. rewrite Hm in Hok. destruct r; [by rewrite Hok|by rewrite app_nil_r].
  - destruct Hnone as (e1 & He1 & [_ _ _ _ _ Hok Hrd _]); [congruence|].
    assert (H1 := ctl_valid _ _ _ H Hv).
    assert (H2 : ctl (s <| lease := Some e |> <| timer := deadline e |>)).
    { destruct H1 as [Hn Hl]. split; [done|]. intros e2 He2. by destruct (Hl e2 He2). }
    refine (ctl_mon _ (MSelect r) (ready s) H2 _ _ _ _ Hrd _); simpl; try congruence. intros e2 He2. unfold mon_ok in *; simpl.
    by rewrite Hm in Hok.
  - assert (H1 := ctl_canceled _ _ _ H He (canceled_cancel (Some err) e)).
    apply (ctl_frame _ (time s) (store s) (results s)
             (lost s ++ (if errors_Is err CtxCanceled then [] else [err]))) in H1.
    refine (ctl_mon _ MJoin (ready s) H1 _ _ _ _ _ _); simpl; try congruence.
    + destruct Hnone as (e1 & He1 & [_ _ _ _ _ Hok Hrd _]); [congruence|done].
    + intros e1 [= <-]. unfold mon_ok; simpl. apply cancel_cause.
  - destruct Hnone as (e1 & He1 & Hc); [congruence|]. simplify_eq.
    destruct Hc as [[err Hcl] Hgo Hst Hu Hrel Hok Hrd Hf]. unfold mon_ok, goroutines_ok in *. rewrite Hm in *.
    split; [done|]. intros e2 [= <-]. split; simpl; eauto.
    + unfold goroutines_ok; simpl. destruct (done e) as [[]|]; intuition congruence.
    + intros p x Hx. specialize (Hst p x Hx). destruct x as [| | |[]|]; simpl in *; intuition congruence.
    + done.
    + intros Hs. destruct (Hf Hs) as [Hd _]. rewrite Hd in Hgo. by destruct Hgo.
Qed.

Lemma ctl_stopper s p x :
  ctl s → lease s ≠ None → (∀ e, lease s = Some e → stopper_ok e x) → ctl (set_stopper s p x).
Proof.
  intros [Hn Hl] Hne Hx. split; simpl; [done|]. intros e He.
  destruct (Hl e He) as [[err Hcl] Hgo Hst Hu Hr Hm Hrd Hf]. split; simpl; eauto.
  apply map_Forall_insert_2; [by apply Hx|done].
Qed.

Lemma ctl_unregistering s e d b :
  ctl s → lease s = Some e → cause e ≠ None → done e ≠ Some false → (released e = true → b = true) →
  ctl (s <| store := d |> <| unregistering := true |> <| lease := Some (e <| released := b |>) |>).
Proof.
  intros [Hn Hl] He Hc Hd Hb. destruct (Hl e He) as [[err Hcl] Hgo Hst Hu Hr Hm Hrd Hf].
  split; simpl; [done|]. intros e1 [= <-]. split; simpl; eauto.
Qed.

Lemma ctl_stop s s' : ctl s → stop_step s s' → ctl s'.
Proof.
  intros H Hs.
  assert (Hok : ∀ p x e, stoppers s !! p = Some x → lease s = Some e → stopper_ok e x).
  { intros p x e Hx He. exact (lc_stop s e (c_lease s H e He) p x Hx). }
  destruct Hs as [p rel Hp Hne|p rel e Hp He|p rel e Hp He|p rel e ctxErr err Hp He Hw
    |p stopErr e Hp He Hsk|p e c d err Hp He Hrel Hat Hr].
  - by apply ctl_stopper.
  - apply ctl_stopper; [|done|].
    + eapply ctl_canceled; [done..|]. apply canceled_cancel.
    + intros e1 [= <-]. apply cancel_cause.
  - specialize (Hok _ _ _ Hp He). apply ctl_stopper; [done|congruence|]. intros e1 He1. rewrite He in He1. injection He1 as <-.
    destruct (done e) eqn:Hd; [done|]. destruct rel; simpl in *; [|done]. by rewrite Hd.
  - specialize (Hok _ _ _ Hp He). apply ctl_stopper; [done|congruence|]. intros e1 He1. rewrite He in He1. injection He1 as <-.
    destruct rel, err; simpl in *; try done. split; [done|]. intros Hd. rewrite Hd in Hw. simpl in Hw.
    unfold Done in Hw. by destruct ctxErr.
  - specialize (Hok _ _ _ Hp He). apply ctl_stopper; [done|congruence|]. intros e1 He1. rewrite He in He1. injection He1 as <-.
    destruct stopErr; simpl in *; [done|]. by destruct Hok.
  - destruct (Hok _ _ _ Hp He) as [Hce Hd].
    assert (Hb : ∀ b, ctl (s <| store := d |> <| unregistering := true |> <| lease := Some (e <| released := b |>) |>)).
    { intros b. apply ctl_unregistering; [done..|]. by rewrite Hrel. }
    cbv zeta. destruct (match err with None => true | _ => _ end).
    + apply ctl_stopper; [apply (Hb true)|done|]. by intros e1 [= <-].
    + apply ctl_stopper; simpl; [|congruence|].
      * specialize (Hb false). replace (e <| released := false |>) with e in Hb by (destruct e; simpl in *; by subst).
        rewrite <-He in Hb. exact Hb.
      * intros e1 He1. by simplify_eq.
Qed.

Lemma ctl_step s s' : ctl s → step s s' → ctl s'.
Proof.
  intros H [Hs|Hs|Hs|Hs|Hs|Hs];
    [by eapply ctl_claim|by eapply ctl_start|by eapply ctl_renew|by eapply ctl_monitor|by eapply ctl_stop|].
  destruct Hs as [t Ht|e err Hv|e e' err err' He Hl|d Hd|c d err Hat Hr|c d err Hun Hat Hr].
  - by apply (ctl_frame s t (store s) (results s) (lost s)).
  - by eapply ctl_valid.
  - unfold loseOwnership in Hl. simplify_eq. eapply ctl_canceled; [done..|]. apply canceled_cancel.
  - by apply (ctl_frame s (time s) d (results s) (lost s)).
  - by apply (ctl_frame s (time s) d (results s) (lost s)).
  - by apply (ctl_frame s (time s) d (results s) (lost s)).
Qed.

Lemma ctl_reach s : reach s → ctl s.
Proof.
  apply invariant_reachable; [|intros; by eapply ctl_step].
  intros s0 (t & d & ->). by split.
Qed.

(** A lease, once there, stays. *)
Lemma lease_stays s s' : ctl s → step s s' → lease s ≠ None → lease s' ≠ None.
Proof.
  intros Hctl Hs Hl. destruct (lease s) as [e0|] eqn:He; [|done].
  assert (Hv : ∀ e err, valid (time s) (Some e0) = (e, err) → e ≠ None).
  { intros e err Hv. by apply canceled_valid in Hv as (? & -> & _). }
  destruct Hs as [Hs|Hs|Hs|Hs|Hs|Hs]; destruct Hs; simpl; rewrite ?He; try done.
  all: try (rewrite He in *; by eauto).
  all: try (repeat case_match; simpl; by rewrite ?He).
  destruct (c_lease s Hctl e0 He) as [[err0 Herr] _ _ _ _ _ _ _]. congruence.
Qed.

(** A release is on its way, or was sent. *)
Definition release_mode (x : stopper) : bool :=
  match x with SCancel rel | SDone rel | SWait rel => rel | SRelease _ => true | SReturned _ => false end.

Definition releasing (s : sys) : Prop :=
  unregistering s = true ∨ ∃ p x, stoppers s !! p = Some x ∧ release_mode x = true.

Lemma releasing_stopper s s' p x y :
  stoppers s !! p = Some x → stoppers s' = <[p := y]> (stoppers s) → unregistering s' = unregistering s →
  (release_mode y = true → release_mode x = true) → releasing s' → releasing s.
Proof.
  intros Hp Hs Hu Hxy [Hr|(q & z & Hz & Hm)]; [left; congruence|]. right. rewrite Hs in Hz.
  destruct (decide (q = p)) as [->|Hne].
  - rewrite lookup_insert_eq in Hz. simplify_eq. eauto.
  - rewrite lookup_insert_ne in Hz by done. eauto.
Qed.

Lemma releasing_step s s' :
  step s s' →
  (∀ p, stoppers s' !! p = Some (SCancel true) → stoppers s !! p = Some (SCancel true)) →
  releasing s' → releasing s.
Proof.
  intros [Hs|Hs|Hs|Hs|Hs|Hs] Hnew Hr; destruct Hs; try exact Hr.
  - destruct r; [destruct err|]; exact Hr.
  - destruct rel.
    + specialize (Hnew p). simpl in Hnew. rewrite lookup_insert_eq in Hnew. specialize (Hnew eq_refl). congruence.
    + destruct Hr as [Hr|(q & z & Hz & Hm)]; [by left|]. simpl in Hz.
      destruct (decide (q = p)) as [->|Hne]; [rewrite lookup_insert_eq in Hz; by simplify_eq|].
      rewrite lookup_insert_ne in Hz by done. right; eauto.
  - by refine (releasing_stopper s _ p _ _ H _ _ _ Hr).
  - refine (releasing_stopper s _ p _ _ H _ _ _ Hr); [reflexivity..|]. by destruct (done e), rel.
  - refine (releasing_stopper s _ p _ _ H _ _ _ Hr); [reflexivity..|]. by destruct rel.
  - by refine (releasing_stopper s _ p _ _ H _ _ _ Hr).
  - right. by exists p, (SRelease None).
Qed.

(** ** Store invariant: what the store holds for this epoch

    The server's clock never runs backwards and, over a lease, no faster than
    the process's. *)

Context `{EL : !EpochStoreLaws E}.
Hypothesis srv_mono : ∀ a b, a ≤ b → srv a ≤ srv b.
Hypothesis srv_rate : ∀ a, srv (a + DefaultNodeEpochTTL) ≤ srv a + Milliseconds DefaultNodeEpochTTL.

(** The store holds the epoch until [T]. *)
Definition covered (t : Z) (d : es_db) (T : Z) : Prop :=
  t < T → ∃ w, owner d (srv t) serviceName nodeID = Some (epoch, Some w) ∧ srv T ≤ w.

Definition unowned (t : Z) (d : es_db) : Prop :=
  ∀ w, owner d (srv t) serviceName nodeID ≠ Some (epoch, w).

Lemma covered_time t t' d T : t ≤ t' → covered t d T → covered t' d T.
Proof.
  intros Ht Hc HT. destruct Hc as (w & Ho & Hw); [lia|]. exists w. split; [|done].
  pose proof (srv_mono t t' Ht). pose proof (srv_mono t' T ltac:(lia)).
  rewrite (owner_later d (srv t)), Ho by done. simpl. destruct (Z.leb_spec (srv t') w); [done|lia].
Qed.

Lemma unowned_time t t' d : t ≤ t' → unowned t d → unowned t' d.
Proof.
  intros Ht Hu w. rewrite (owner_later d (srv t)) by by apply srv_mono. specialize (Hu w).
  destruct (owner d (srv t) serviceName nodeID) as [[v [w'|]]|]; simpl; try done. by case_match.
Qed.

Lemma covered_env t d d' T :
  es_env (srv t) serviceName nodeID epoch d d' → covered t d T → covered t d' T.
Proof.
  intros He Hc HT. destruct (Hc HT) as (w & Ho & Hw). exists w. split; [|done].
  by apply (env_owner _ _ _ _ d d' (Some w) He).
Qed.

Lemma unowned_env t d d' :
  es_env (srv t) serviceName nodeID epoch d d' → unowned t d → unowned t d'.
Proof. intros He Hu w Ho. apply (Hu w). by apply (env_owner _ _ _ _ d d' w He). Qed.

Lemma srv_until t T : T ≤ t + DefaultNodeEpochTTL → srv T ≤ srv t + Milliseconds DefaultNodeEpochTTL.
Proof. intros H. pose proof (srv_mono _ _ H). pose proof (srv_rate t). lia. Qed.

Lemma covered_renew s c d err T :
  at_server s c → es_Renew c serviceName nodeID epoch DefaultNodeEpochTTL (store s) = (d, err) →
  T ≤ time s + DefaultNodeEpochTTL →
  (err = None ∨ covered (time s) (store s) T) → covered (time s) d T.
Proof.
  intros [Hms _] Hr HT Hor Ht. pose proof (srv_until _ _ HT) as Hw.
  pose proof (Renew_any c serviceName nodeID epoch DefaultNodeEpochTTL (store s)) as Ha.
  pose proof (Renew_ok c serviceName nodeID epoch DefaultNodeEpochTTL (store s)) as Hok.
  rewrite Hr, Hms in Ha, Hok. simpl in Ha, Hok. destruct Hor as [->|Hc]; [eauto|].
  destruct (Hc Ht) as (w & Ho & Hle). destruct Ha as [Ha|[_ Ha]]; rewrite Ha; eauto.
Qed.

Lemma unowned_renew s c d err :
  at_server s c → es_Renew c serviceName nodeID epoch DefaultNodeEpochTTL (store s) = (d, err) →
  unowned (time s) (store s) → unowned (time s) d.
Proof.
  intros [Hms _] Hr Hu w. pose proof (Renew_any c serviceName nodeID epoch DefaultNodeEpochTTL (store s)) as Ha.
  rewrite Hr, Hms in Ha. simpl in Ha. destruct Ha as [->|[[w' Hw'] _]]; [apply Hu|by destruct (Hu w')].
Qed.

Lemma unowned_unregister s c d err :
  at_server s c → es_Unregister c serviceName nodeID epoch (store s) = (d, err) →
  (unowned (time s) (store s) ∨ err = None ∨ ownership_error err = true) → unowned (time s) d.
Proof.
  intros [Hms Hc] Hr Hor w.
  pose proof (Unregister_any c serviceName nodeID epoch (store s)) as Ha.
  pose proof (Unregister_ok c serviceName nodeID epoch (store s) Hc) as Hok.
  rewrite Hr, Hms in Ha, Hok. simpl in Ha, Hok.
  destruct Hor as [Hu|Hor]; [|by apply Hok]. destruct Ha as [-> | ->]; [apply Hu|done].
Qed.

Definition v_claim (s : sys) : Prop :=
  match claim s with
  | CCalling t0 => t0 ≤ time s
  | CReplied t0 err =>
      t0 ≤ time s ∧ (err = None → covered (time s) (store s) (t0 + DefaultNodeEpochTTL))
  | _ => True
  end.

Definition v_renewal (s : sys) : Prop :=
  match renewal s with
  | RCalling t0 _ => t0 ≤ time s
  | RReplied t0 _ err =>
      t0 ≤ time s ∧ (err = None → covered (time s) (store s) (t0 + DefaultNodeEpochTTL))
  | RStore t0 => t0 ≤ time s ∧ covered (time s) (store s) (t0 + DefaultNodeEpochTTL)
  | _ => True
  end.

Record v_lease (s : sys) (e : epochLease) : Prop := mkVLease {
  vl_deadline : deadline e ≤ time s + DefaultNodeEpochTTL;
  vl_covered : cause e = None → covered (time s) (store s) (deadline e);
  vl_released : released e = true → unowned (time s) (store s);
  vl_timer : ∀ r, mon s = MSelect r → timer s ≤ deadline e;
  vl_renewal : match renewal s with
               | RCalling t0 _ | RReplied t0 _ _ | RStore t0 => deadline e ≤ t0 + DefaultNodeEpochTTL
               | _ => True end;
}.

Record cov (s : sys) : Prop := mkCov {
  co_claim : v_claim s;
  co_renewal : v_renewal s;
  co_lease : ∀ e, lease s = Some e → v_lease s e;
}.

Lemma cov_canceled s e e' : cov s → lease s = Some e → canceled_of e e' → cov (s <| lease := Some e' |>).
Proof.
  intros [Hc Hr Hl] He Hco. split; [done..|]. intros e1 [= <-]. destruct (Hl e He). by destruct Hco; split.
Qed.

Lemma cov_valid s e err : cov s → valid (time s) (lease s) = (e, err) → cov (s <| lease := e |>).
Proof.
  intros H Hv. destruct (lease s) as [e0|] eqn:He.
  - apply canceled_valid in Hv as (e1 & -> & Hc & _). by eapply cov_canceled.
  - simpl in Hv. simplify_eq. by destruct H as [Hc Hr Hl].
Qed.

(** A change of the store that keeps what it holds. *)
Lemma cov_store s d :
  cov s →
  (∀ T, T ≤ time s + DefaultNodeEpochTTL → covered (time s) (store s) T → covered (time s) d T) →
  (unowned (time s) (store s) → unowned (time s) d) → cov (s <| store := d |>).
Proof.
  intros [Hc Hr Hl] Hk Hu. split.
  - unfold v_claim in *; simpl. destruct (claim s); try done. destruct Hc as [Ht Hc]. split; [done|].
    intros He. apply Hk; [lia|]. by apply Hc.
  - unfold v_renewal in *; simpl. destruct (renewal s); try done; destruct Hr as [Ht Hr]; (split; [done|]).
    + intros He. apply Hk; [lia|]. by apply Hr.
    + apply Hk; [lia|done].
  - intros e He. destruct (Hl e He). split; simpl; auto.
Qed.

(** A change of the store once the epoch is given up. *)
Lemma cov_store_quiet s d e :
  ctl s → cov s → lease s = Some e → cause e ≠ None → done e ≠ Some false →
  (unowned (time s) (store s) → unowned (time s) d) → cov (s <| store := d |>).
Proof.
  intros Hctl [Hc Hr Hl] He Hce Hd Hu. destruct (c_lease s Hctl e He) as [[err Hcl] Hgo _ _ _ _ _ _].
  unfold goroutines_ok in Hgo. split.
  - unfold v_claim; simpl. by rewrite Hcl.
  - unfold v_renewal; simpl. destruct (done e) as [[]|]; [|done|]; [destruct Hgo as (_&_&_&->)|destruct Hgo as [_ ->]]; done.
  - simpl. intros e1 He1. rewrite He in He1. injection He1 as <-. destruct (Hl e He). split; simpl; auto. done.
Qed.

Lemma cov_time s t : cov s → time s ≤ t → cov (s <| time := t |>).
Proof.
  intros [Hc Hr Hl] Ht. split.
  - unfold v_claim in *; simpl. destruct (claim s); try done; [lia|]. destruct Hc as [H1 H2]. split; [lia|].
    eauto using covered_time.
  - unfold v_renewal in *; simpl. destruct (renewal s); try done; [lia|..]; destruct Hr as [H1 H2]; (split; [lia|]);
      eauto using covered_time.
  - intros e He. destruct (Hl e He). split; simpl; eauto using covered_time, unowned_time. lia.
Qed.

(** A change of the renewal goroutine to a point that promises nothing. *)
Definition renewal_free (r : rstate) : Prop :=
  match r with RCalling _ _ | RReplied _ _ _ | RStore _ => False | _ => True end.

Lemma cov_renewal s r : cov s → renewal_free r → cov (s <| renewal := r |>).
Proof.
  intros [Hc Hr Hl] Hf. split; [done|by destruct r|]. intros e He. destruct (Hl e He). by split; destruct r.
Qed.

Lemma cov_mon s m rd res l :
  cov s → (∀ r, m ≠ MSelect r) →
  cov (s <| mon := m |> <| ready := rd |> <| results := res |> <| lost := l |>).
Proof.
  intros [Hc Hr Hl] Hm. split; [done..|]. intros e He. destruct (Hl e He). split; simpl; auto.
  intros r Hx. by destruct (Hm r).
Qed.

Lemma cov_claim s s' : cov s → ctl s → claim_step s s' → cov s'.
Proof.
  intros H Hctl Hs. destruct Hs as [Hc|c t0 d err Hc Hat Hr|t0 err ctxErr e err' Hc Hf].
  - destruct H as [_ Hr Hl]. split; [simpl; unfold v_claim; simpl; lia|done|].
    intros e He. by destruct (Hl e He).
  - assert (lease s = None ∧ renewal s = RNone) as [Hn Hrn].
    { destruct (lease s) as [e|] eqn:He.
      - destruct (c_lease s Hctl e He) as [[err0 Herr] _ _ _ _ _ _ _]. congruence.
      - by destruct (c_nil s Hctl He) as (_ & ? & _). }
    destruct H as [Ht _ _]. unfold v_claim in Ht. rewrite Hc in Ht. split; simpl.
    + unfold v_claim; simpl. split; [done|]. intros -> Hlt. destruct Hat as [Hms _].
      pose proof (Register_ok c serviceName nodeID epoch DefaultNodeEpochTTL (store s)) as Hok.
      rewrite Hr, Hms in Hok. simpl in Hok. rewrite Hok by done. eexists. split; [done|]. apply srv_until. lia.
    + unfold v_renewal; simpl. by rewrite Hrn.
    + by rewrite Hn.
  - assert (mon s = MNone ∧ renewal s = RNone) as [Hm Hrn].
    { destruct (lease s) as [e0|] eqn:He.
      - destruct (c_lease s Hctl e0 He) as [[err0 Herr] _ _ _ _ _ _ _]. congruence.
      - by destruct (c_nil s Hctl He) as (? & ? & _). }
    destruct H as [Ht _ _]. unfold v_claim in Ht. rewrite Hc in Ht. destruct Ht as [Ht Hcov].
    split; [done|by unfold v_renewal; simpl; rewrite Hrn|]. simpl. intros e1 ->.
    assert (err = None ∧ canceled_of (newEpochLease (t0 + DefaultNodeEpochTTL)) e1) as [-> Hco].
    { unfold claimEpoch_finish in Hf. destruct err; [done|]. split; [done|].
      destruct ctxErr; [simplify_eq; constructor|].
      by apply canceled_valid in Hf as (e2 & [= <-] & Hco & _). }
    specialize (Hcov eq_refl).
    destruct Hco; split; simpl; try (rewrite ?Hm, ?Hrn; done); lia.
Qed.

Lemma cov_start s s' : cov s → ctl s → start_step s s' → cov s'.
Proof.
  intros H Hctl Hs. destruct Hs as [e err Hnew Hne Hv|e Hnew Hne Hv];
    destruct (cov_valid _ _ _ H Hv) as [Hc Hr Hl]; (split; simpl in *; [done|done|]); intros e1 He1.
  - by destruct (Hl e1 He1).
  - injection He1 as <-. destruct (Hl e eq_refl). split; simpl in *; auto. done.
Qed.

Lemma cov_renew s s' : cov s → ctl s → renew_step s s' → cov s'.
Proof.
  intros H Hctl Hs.
  destruct Hs as [e err Hr Hv|e Hr He|c t0 rd d err Hr Hat Hs|t0 rd err e e' Hr He Hc
    |t0 rd err e e' err' e2 err'' Hr He Hc Hf|t0 e Hr He|err Hr Hres|Hr|e err Hr He Hce].
  - apply (cov_renewal (s <| lease := e |>)); [by eapply cov_valid|by destruct err].
  - destruct H as [Hc Hv Hl]. split; [done|unfold v_renewal; simpl; lia|]. intros e1 He1.
    destruct (Hl e1 He1). by split.
  - assert (H1 : cov (s <| store := d |>)).
    { apply cov_store; [done|..]; eauto using covered_renew, unowned_renew. }
    destruct H as [_ Hv _]. unfold v_renewal in Hv. rewrite Hr in Hv.
    destruct H1 as [Hc _ Hl]. split; [done|..].
    + unfold v_renewal; simpl. split; [done|]. intros ->. eapply covered_renew; [done..|lia|by left].
    + intros e1 He1. destruct (Hl e1 He1) as [? ? ? ? Hvr]. split; simpl in *; auto. by rewrite Hr in Hvr.
  - apply renewOnce_check_spec in Hc as [Hc Hn]. destruct Hn as [-> _]; [done|].
    destruct (cov_canceled _ _ _ H He Hc) as [H1 H2 H3]. split; [done|..].
    + unfold v_renewal in *; simpl in *. rewrite Hr in H2. destruct H2 as [Ht H2]. split; [done|]. by apply H2.
    + intros e1 He1. destruct (H3 e1 He1) as [? ? ? ? Hvr]. split; simpl in *; auto. by rewrite Hr in Hvr.
  - apply (cov_renewal (s <| lease := Some e2 |>)); [|done]. apply renewOnce_check_spec in Hc as [Hc _].
    assert (H1 := cov_canceled _ _ _ H He Hc). unfold renewOnce_failed in Hf. case_match; simplify_eq; [|done].
    exact (cov_canceled (s <| lease := Some e' |>) e' _ H1 eq_refl (canceled_cancel _ _)).
  - destruct H as [H1 H2 H3]. split; [done|done|]. simpl. intros e1 [= <-]. destruct (H3 e He) as [? ? ? Hti Hvr].
    rewrite Hr in Hvr. unfold v_renewal in H2. rewrite Hr in H2. destruct H2 as [Ht H2].
    split; simpl; auto; [lia|]. intros r Hm. specialize (Hti r Hm). lia.
  - apply (cov_renewal (s <| results := [err] |>)); [|done]. destruct H as [H1 H2 H3]. split; [done..|].
    intros e1 He1. by destruct (H3 e1 He1).
  - by apply cov_renewal.
  - by apply cov_renewal.
Qed.

Lemma cov_monitor s s' : cov s → ctl s → monitor_step s s' → cov s'.
Proof.
  intros H Hctl Hs.
  destruct Hs as [r err rest Hm Hres|r Hm Ht|r e Hm He Hce|r e err Hm Hv|r e Hm Hv|err e Hm He|e Hm Hr He].
  - destruct r; [destruct err|];
      [apply (cov_mon s (MReturn e) (ready s ++ [Some e]) rest (lost s))
      |apply (cov_mon s (MValid false) (ready s ++ [None]) rest (lost s))
      |apply (cov_mon s (MValid false) (ready s) rest (lost s))]; done.
  - by apply (cov_mon s (MValid r) (ready s) (results s) (lost s)).
  - by apply (cov_mon s (MValid r) (ready s) (results s) (lost s)).
  - apply cov_valid in Hv; [|done].
    by apply (cov_mon _ (MReturn err) (ready s ++ (if r then [Some err] else [])) (results s) (lost s)) in Hv.
  - apply cov_valid in Hv; [|done]. destruct Hv as [H1 H2 H3]. split; [done..|]. simpl in *. intros e1 [= <-].
    destruct (H3 e eq_refl). by split.
  - assert (H1 := cov_canceled _ _ _ H He (canceled_cancel (Some err) e)).
    by apply (cov_mon _ MJoin (ready s) (results s)
                (lost s ++ (if errors_Is err CtxCanceled then [] else [err]))) in H1.
  - destruct H as [H1 H2 H3]. split; [done..|]. simpl. intros e1 [= <-]. destruct (H3 e He). by split.
Qed.

Lemma cov_stopper s p x : cov s → cov (set_stopper s p x).
Proof. intros [H1 H2 H3]. split; [done..|]. intros e He. by destruct (H3 e He). Qed.

Lemma cov_stop s s' : cov s → ctl s → stop_step s s' → cov s'.
Proof.
  intros H Hctl Hs.
  destruct Hs as [p rel Hp Hne|p rel e Hp He|p rel e Hp He|p rel e ctxErr err Hp He Hw
    |p stopErr e Hp He Hsk|p e c d err Hp He Hrel Hat Hr]; try by apply cov_stopper.
  - apply cov_stopper. eapply cov_canceled; [done..|]. apply canceled_cancel.
  - destruct (lc_stop s e (c_lease s Hctl e He) p _ Hp) as [Hce Hd].
    assert (H1 : cov (s <| store := d |>)).
    { eapply cov_store_quiet; [done..|]. intros Hu. eapply unowned_unregister; [done..|]. by left. }
    assert (Hu : match err with None => true | Some _ => ownership_error err end = true → unowned (time s) d).
    { intros Hok. eapply unowned_unregister; [done..|right]. destruct err; [by right|by left]. }
    destruct H1 as [H1 H2 H3]. cbv zeta. destruct (match err with None => true | _ => _ end); apply cov_stopper.
    + split; [done..|]. simpl. intros e1 [= <-]. destruct (H3 e He). split; auto.
    + split; [done..|]. intros e1 He1. by destruct (H3 e1 He1).
Qed.

Lemma cov_step s s' : cov s → ctl s → step s s' → cov s'.
Proof.
  intros H Hctl [Hs|Hs|Hs|Hs|Hs|Hs];
    [by eapply cov_claim|by eapply cov_start|by eapply cov_renew|by eapply cov_monitor|by eapply cov_stop|].
  destruct Hs as [t Ht|e err Hv|e e' err err' He Hl|d Hd|c d err Hat Hr|c d err Hun Hat Hr].
  - by apply cov_time.
  - by eapply cov_valid.
  - unfold loseOwnership in Hl. simplify_eq. eapply cov_canceled; [done..|]. apply canceled_cancel.
  - apply cov_store; eauto using covered_env, unowned_env.
  - apply cov_store; eauto using covered_renew, unowned_renew.
  - destruct (lease s) as [e|] eqn:He.
    + destruct (lc_unreg s e (c_lease s Hctl e He) Hun). eapply cov_store_quiet; eauto using unowned_unregister.
    + destruct (c_nil s Hctl He) as (_&_&_&?&_). congruence.
Qed.

Lemma cov_reach s : reach s → cov s.
Proof.
  intros H. induction H as [s (t & d & ->)|s s' Hr IH Hs]; [by split|].
  eapply cov_step; [done|by apply ctl_reach|done].
Qed.

Lemma valid_owned s e :
  reach s → lease s = Some e → (valid (time s) (lease s)).2 = None →
  ∃ w, owner (store s) (srv (time s)) serviceName nodeID = Some (epoch, Some w) ∧ srv (deadline e) ≤ w.
Proof.
  intros Hs He Hv. destruct (co_lease s (cov_reach s Hs) e He) as [_ Hc _ _ _]. rewrite He in Hv.
  destruct (valid_Some (time s) e) as (e' & Hv' & [[-> Hlt]| ->]); rewrite Hv' in Hv; simpl in Hv.
  - by apply Hc, Hlt.
  - by destruct (cancel_cause (Some (ESentinel ErrNodeEpochExpired)) e).
Qed.

(** ** Properties *)

(** C4: fencing: while the lease a process holds is valid by its own clock, the
    store holds the process's epoch and keeps it at least until the lease's
    deadline, whatever the network, the other processes and the requests still
    on their way do; no other process can own the node meanwhile. *)
Theorem lease_fencing s e :
  reach s → lease s = Some e → (valid (time s) (lease s)).2 = None →
  ∃ w, owner (store s) (srv (time s)) serviceName nodeID = Some (epoch, Some w) ∧ srv (deadline e) ≤ w.
Proof. apply valid_owned. Qed.

(** Release is final: once a release succeeded the lease is cancelled, its
    goroutines have ended, and the store does not hold the epoch, nor can a
    request still on its way bring it back. *)
Theorem release_final s e :
  reach s → lease s = Some e → released e = true →
  cause e ≠ None ∧ (renewal s = RNone ∨ renewal s = RExit) ∧ (mon s = MNone ∨ mon s = MDone) ∧
  ∀ w, owner (store s) (srv (time s)) serviceName nodeID ≠ Some (epoch, w).
Proof.
  intros Hs He Hr. destruct (c_lease s (ctl_reach s Hs) e He) as [_ Hgo _ Hu Hrel _ _ _].
  destruct (Hu (Hrel Hr)) as [Hc Hd]. destruct (co_lease s (cov_reach s Hs) e He) as [_ _ Hun _ _].
  unfold goroutines_ok in Hgo. split; [done|]. destruct (done e) as [[]|]; [|done|].
  - destruct Hgo as (_&_&->&->). split_and!; auto. by apply Hun.
  - destruct Hgo as [-> ->]. split_and!; auto. by apply Hun.
Qed.

(** A lost lease is noticed: when the lease of a running monitor is no longer
    valid, the monitor is not blocked; within three steps it has reported the
    loss on [ready], which never takes a second value, cancelled the lease, and
    called [onLost] with the cause, unless the lease was stopped. *)
Theorem loss_noticed s e r :
  reach s → lease s = Some e → mon s = MSelect r → (valid (time s) (lease s)).2 ≠ None →
  (length (ready s) ≤ 1)%nat ∧
  ∃ s1 s2 s3 err e3, monitor_step s s1 ∧ monitor_step s1 s2 ∧ monitor_step s2 s3 ∧
    mon s3 = MJoin ∧ lease s3 = Some e3 ∧ cause e3 = Some err ∧
    ready s3 = (if r then [Some err] else ready s) ∧
    lost s3 = lost s ++ (if errors_Is err CtxCanceled then [] else [err]).
Proof.
  intros Hs He Hm Hv. destruct (c_lease s (ctl_reach s Hs) e He) as [_ _ _ _ _ Hok Hlen _].
  split; [done|]. unfold mon_ok in Hok. rewrite Hm in Hok.
  destruct (co_lease s (cov_reach s Hs) e He) as [_ _ _ Hti _]. specialize (Hti r Hm).
  assert (H1 : monitor_step s (s <| mon := MValid r |>)).
  { destruct (cause e) eqn:Hce; [apply (mo_ctx s r e); [done..|congruence]|]. apply mo_timer; [done|].
    rewrite He in Hv. simpl in Hv. destruct (Z.ltb_spec (time s) (deadline e)); simpl in Hv; [congruence|lia]. }
  rewrite He in Hv. destruct (valid_Some (time s) e) as (e' & Hv' & _). rewrite Hv' in Hv. simpl in Hv.
  destruct (cause e') as [err|] eqn:Hce; [|done]. rewrite <-He in Hv'.
  set (s2 := monitor_return (s <| mon := MValid r |> <| lease := Some e' |>) r err).
  assert (H2 : monitor_step (s <| mon := MValid r |>) s2) by by eapply mo_lost.
  pose proof (mo_cancel s2 err e' eq_refl eq_refl) as H3.
  eexists _, _, _, err, _. split; [exact H1|]. split; [exact H2|]. split; [exact H3|].
  split_and!; [done|done|..].
  - simpl. unfold cancel. by rewrite Hce.
  - simpl. destruct r; [by rewrite Hok|by rewrite app_nil_r].
  - done.
Qed.
End System.

(** ** Witnesses

    A process claims its epoch at 1 s, renews it at 11 s, and is then looked at
    20 s later; the server's clock is one hour ahead. *)

Module EpochExample.
Definition err0 : error := EText "ERR Error compiling script".
#[local] Instance es : EpochStore := redis_epoch_store (R := MapRedis.map_redis) err0.
#[local] Instance esl : EpochStoreLaws es := redis_epoch_store_laws (R := MapRedis.map_redis) (RL := MapRedis.map_redis_laws) err0.
Definition srv (t : Z) : Z := t / Millisecond + 3600000.
Definition c_at (t : Z) : call := mkCall Ctx.Background t (srv t) Delivered.
Abbreviation ereach s := (reachable init_sys (step srv "game" "node-a" "epoch-a") s).

Lemma srv_mono a b : a ≤ b → srv a ≤ srv b.
Proof. unfold srv. intros H. pose proof (Z.div_le_mono a b Millisecond ltac:(done) H). lia. Qed.

Lemma srv_rate a : srv (a + DefaultNodeEpochTTL) ≤ srv a + Milliseconds DefaultNodeEpochTTL.
Proof.
  unfold srv. change DefaultNodeEpochTTL with (30000 * Millisecond). rewrite Z.div_add by done.
  change (Milliseconds (30000 * Millisecond)) with 30000. lia.
Qed.

Definition s0 : sys := mkSys Second (∅ : MapRedis.store) CIdle None false [] [] RNone MNone 0 [] ∅ false.
Definition d_claim : es_db := (es_Register (c_at Second) "game" "node-a" "epoch-a" DefaultNodeEpochTTL ∅).1.
Definition s_claimed : sys :=
  s0 <| store := d_claim |> <| claim := CDone None |> <| lease := Some (newEpochLease (31 * Second)) |>.

Lemma claimed : ereach s_claimed.
Proof.
  eapply (reach_to _ _ (s0 <| store := d_claim |> <| claim := CReplied Second None |>));
    [|by eapply st_claim, (cl_finish _ _ _ _ _ Second None None)|reflexivity].
  eapply (reach_to _ _ (s0 <| claim := CCalling Second |>));
    [|eapply st_claim, (cl_call _ _ _ _ _ (c_at Second)); [done|done|apply pair_snd; by vm_compute]|reflexivity].
  eapply (reach_to _ _ s0); [apply reach_init; by eexists _, _|by apply st_claim, cl_begin|reflexivity].
Qed.

Definition lease_at (dl : Z) : epochLease := (newEpochLease dl) <| done := Some false |>.
Definition s_started : sys :=
  s_claimed <| started_ := true |> <| lease := Some (lease_at (31 * Second)) |>
            <| renewal := RValid |> <| mon := MSelect true |> <| timer := 31 * Second |>.

Lemma started : ereach s_started.
Proof. eapply (reach_to _ _ s_claimed); [apply claimed|by eapply st_start, sa_start|reflexivity]. Qed.

Definition d_renew : es_db := (es_Renew (c_at (11 * Second)) "game" "node-a" "epoch-a" DefaultNodeEpochTTL d_claim).1.
Definition s_calling : sys :=
  s_started <| time := 11 * Second |> <| renewal := RCalling (11 * Second) (14 * Second) |>.
Definition s_renewed : sys :=
  s_calling <| store := d_renew |> <| lease := Some (lease_at (41 * Second)) |> <| renewal := RSend None |>
            <| time := 40 * Second |>.

Lemma calling : ereach s_calling.
Proof.
  eapply (reach_to _ _ (s_started <| time := 11 * Second |> <| renewal := RBegin |>));
    [|by eapply st_renew, rn_begin|reflexivity].
  eapply (reach_to _ _ (s_started <| time := 11 * Second |>)); [|by eapply st_renew, rn_valid|reflexivity].
  eapply (reach_to _ _ s_started); [apply started|by apply st_env, (en_time _ _ _ _ _ (11 * Second))|reflexivity].
Qed.

Lemma renewed : ereach s_renewed.
Proof.
  eapply (reach_to _ _ (s_renewed <| time := 11 * Second |>));
    [|by apply st_env, (en_time _ _ _ _ _ (40 * Second))|reflexivity].
  eapply (reach_to _ _ (s_calling <| store := d_renew |> <| renewal := RStore (11 * Second) |>));
    [|by eapply st_renew, rn_store|reflexivity].
  eapply (reach_to _ _ (s_calling <| store := d_renew |> <| renewal := RReplied (11 * Second) (14 * Second) None |>));
    [|by eapply st_renew, rn_check_ok|reflexivity].
  eapply (reach_to _ _ s_calling);
    [apply calling
    |eapply st_renew, (rn_call _ _ _ _ _ (c_at (11 * Second))); [done|done|apply pair_snd; by vm_compute]|reflexivity].
Qed.

Lemma lease_fencing_witness :
  ∃ w, owner d_renew (srv (40 * Second)) "game" "node-a" = Some ("epoch-a", Some w) ∧ srv (41 * Second) ≤ w.
Proof.
  exact (lease_fencing srv "game" "node-a" "epoch-a" srv_mono srv_rate s_renewed (lease_at (41 * Second))
           renewed eq_refl eq_refl).
Defined.

(** The process stops before it serves: its epoch is given back. *)
Definition lease_stopped : epochLease :=
  mkLease (Some (ESentinel CtxCanceled)) (31 * Second) None false.
Definition d_release : es_db := (es_Unregister (c_at Second) "game" "node-a" "epoch-a" d_claim).1.
Definition s_released : sys :=
  s_claimed <| store := d_release |> <| lease := Some (lease_stopped <| released := true |>) |>
            <| stoppers := {[ 0%nat := SReturned None ]} |> <| unregistering := true |>.

Lemma released_ : ereach s_released.
Proof.
  eapply (reach_to _ _ (s_claimed <| lease := Some lease_stopped |> <| stoppers := {[ 0%nat := SRelease None ]} |>)).
  2: { eapply st_stop, (sp_release _ _ _ _ _ 0%nat lease_stopped (c_at Second)); [done..|apply pair_snd; by vm_compute]. }
  2: reflexivity.
  eapply (reach_to _ _ (s_claimed <| lease := Some lease_stopped |> <| stoppers := {[ 0%nat := SDone true ]} |>));
    [|by eapply st_stop, (sp_done _ _ _ _ _ 0%nat)|reflexivity].
  eapply (reach_to _ _ (s_claimed <| stoppers := {[ 0%nat := SCancel true ]} |>));
    [|by eapply st_stop, (sp_cancel _ _ _ _ _ 0%nat)|reflexivity].
  eapply (reach_to _ _ s_claimed); [apply claimed|by eapply st_stop, (sp_call _ _ _ _ _ 0%nat true)|reflexivity].
Qed.

Lemma release_final_witness :
  released (lease_stopped <| released := true |>) = true ∧ owner d_release (srv Second) "game" "node-a" ≠ Some ("epoch-a", None).
Proof.
  split; [done|].
  apply (release_final srv "game" "node-a" "epoch-a" srv_mono srv_rate s_released _ released_ eq_refl eq_refl).
Defined.

(** The store never answers the renewal, and the lease runs out. *)
Definition s_expired : sys := s_calling <| time := 31 * Second |>.

Lemma expired : ereach s_expired.
Proof.
  eapply (reach_to _ _ s_calling); [apply calling|by apply st_env, (en_time _ _ _ _ _ (31 * Second))|reflexivity].
Qed.

Lemma loss_noticed_witness : ∃ s1 s2 s3, monitor_step s_expired s1 ∧ monitor_step s1 s2 ∧ monitor_step s2 s3 ∧
  mon s3 = MJoin.
Proof.
  destruct (loss_noticed srv "game" "node-a" "epoch-a" srv_mono srv_rate s_expired (lease_at (31 * Second)) true
              expired eq_refl eq_refl ltac:(done)) as (_ & s1 & s2 & s3 & err & e3 & H1 & H2 & H3 & Hm & _).
  exists s1, s2, s3. done.
Defined.
End EpochExample.
