(* ===== verification/Prog.v ===== *)
(** * Handlers as programs

    A handler that talks to shared state, a store or the network is a finite
    tree of calls: each node is one call of its environment and continues with
    the answer.  [wp] is what holds at every call and at the end, for every
    answer the environment may give. *)

From S2P Require Import Prelude.

Section Prog.
Context {E : Type} {ans : E → Type}.

Inductive prog (A : Type) :=
| Ret (a : A)
| Act (e : E) (k : ans e → prog A).
Arguments Ret {A} a.
Arguments Act {A} e k.

Fixpoint pbind {A B} (p : prog A) (f : A → prog B) : prog B :=
  match p with
  | Ret a => f a
  | Act e k => Act e (λ x, pbind (k x) f)
  end.

Definition call (e : E) : prog (ans e) := Act e Ret.

(** [defer]: the deferred call runs when the body returned. *)
Definition defer {A B} (d : prog B) (p : prog A) : prog A :=
  pbind p (λ a, pbind d (λ _, Ret a)).

(** ** What an environment promises

    [rel e x g g']: the call [e] may be answered [x], taking the history [g]
    to [g']. *)

Section WP.
Context {G : Type} (pre : E → G → Prop) (rel : ∀ e, ans e → G → G → Prop).

Fixpoint wp {A} (p : prog A) (Q : A → G → Prop) (g : G) : Prop :=
  match p with
  | Ret a => Q a g
  | Act e k => pre e g ∧ ∀ x g', rel e x g g' → wp (k x) Q g'
  end.

Lemma wp_mono {A} (p : prog A) (Q Q' : A → G → Prop) g :
  (∀ a g, Q a g → Q' a g) → wp p Q g → wp p Q' g.
Proof.
  intros HQ. revert g. induction p as [a|e k IH]; intros g; simpl; [apply HQ|].
  intros [Hp H]. split; [done|]. eauto.
Qed.

Lemma wp_bind {A B} (p : prog A) (f : A → prog B) Q g :
  wp p (λ a, wp (f a) Q) g → wp (pbind p f) Q g.
Proof.
  revert g. induction p as [a|e k IH]; intros g; simpl; [done|]. intros [Hp H]. split; [done|]. eauto.
Qed.

Lemma wp_ret {A} (a : A) (Q : A → G → Prop) g : Q a g → wp (Ret a) Q g.
Proof. done. Qed.

Lemma wp_call e (Q : ans e → G → Prop) g :
  pre e g → (∀ x g', rel e x g g' → Q x g') → wp (call e) Q g.
Proof. done. Qed.

Lemma wp_defer {A B} (d : prog B) (p : prog A) Q g :
  wp p (λ a g, wp d (λ _, Q a) g) g → wp (defer d p) Q g.
Proof.
  intros H. apply wp_bind. eapply wp_mono; [|exact H]. intros a g' Hd. by apply wp_bind.
Qed.

(** One call of a program. *)
Inductive pstep {A} : prog A * G → prog A * G → Prop :=
| pstep_act e k x g g' : rel e x g g' → pstep (Act e k, g) (k x, g').

Lemma wp_step {A} (p p' : prog A) Q g g' : pstep (p, g) (p', g') → wp p Q g → wp p' Q g'.
Proof. intros Hs. inversion Hs; subst. intros [_ H]. auto. Qed.

(** At every point of every run: the next call is allowed, or the result is
    the one promised. *)
Lemma wp_run {A} (p p' : prog A) Q g g' :
  rtc pstep (p, g) (p', g') → wp p Q g → wp p' Q g'.
Proof.
  intros Hr. remember (p, g) as c eqn:Ec. remember (p', g') as c' eqn:Ec'.
  revert p g Ec. induction Hr as [c|c [p1 g1] c'' Hs _ IH]; intros p g Ec Hw.
  - simplify_eq. done.
  - subst. eapply IH; [done..|]. by eapply wp_step.
Qed.
End WP.
End Prog.

Arguments prog {E} ans A.
Arguments Ret {E ans A} a.
Arguments Act {E ans A} e k.

#[global] Arguments wp : simpl never.
#[global] Arguments pbind : simpl never.

Declare Scope prog_scope.
Delimit Scope prog_scope with prog.
Notation "'let!' x ':=' c 'in' k" := (pbind c (λ x, k))
  (at level 10, x pattern, c at level 100, k at level 200) : prog_scope.
#[global] Open Scope prog_scope.
