(* ===== verification/Node.v ===== *)
(** * Request path of a node

    [node/dispatch.go], [node/session.go], [node/push.go], [node/register.go]
    and [internal/clusterroute]: what a node does with a request from a
    Gateway, and what a business handler can do with its session.  Each entry
    point is a program over the calls it makes of the server's shared state,
    the location store, the gateways and the business code. *)

From S2P Require Import Prelude Errors Prog Proto Locate Redis.
From stdpp Require Import pretty.
#[local] Open Scope Z_scope.

(** ** internal/clusterroute *)

Record GateRoute := mkGateRoute {
  r_ServiceName : string; r_Uid : string; r_BindingToken : string;
  r_GateId : string; r_GateEndpoint : string; r_ConnId : string;
}.

Definition FromBinding (b : GateBinding) : GateRoute :=
  mkGateRoute (ServiceName b) (UID b) (BindingToken b) (GateID b) (GateEndpoint b) (ConnID b).

Definition zero_binding : GateBinding :=
  mkGateBinding EmptyString EmptyString EmptyString EmptyString EmptyString EmptyString.

Definition ToBinding (route : option GateRoute) : GateBinding :=
  match route with
  | None => zero_binding
  | Some r => mkGateBinding (r_ServiceName r) (r_Uid r) (r_GateId r) (r_GateEndpoint r)
                (r_ConnId r) (r_BindingToken r)
  end.

(** ** Identity and contexts *)

Record nodeIdentity := mkIdentity { serviceName : string; nodeID : string; epoch : string }.

Definition zero_identity : nodeIdentity := mkIdentity EmptyString EmptyString EmptyString.

(** What the node attaches to a context: the lease that cancels it, a timeout,
    the session and the command. *)
Record context := mkContext {
  leased : bool;
  timeout : option Z;
  session : option GateBinding;
  command : option Z;
}.
#[export] Instance eta_context : Eta context := λ c, mkContext (leased c) (timeout c) (session c) (command c).

Definition Background : context := mkContext false None None None.

Definition normalizeContext (c : option context) : context := default Background c.

(** [NewContext] panics on a nil session: [None]. *)
Definition NewContext (c : option context) (sess : option GateBinding) : option context :=
  match sess with
  | None => None
  | Some b => Some ((normalizeContext c) <| session := Some b |>)
  end.

Definition FromContext (c : option context) : option GateBinding := c ≫= session.

Definition CommandFromContext (c : option context) : option Z := c ≫= command.

(** ** The environment of a handler *)

Inductive gate := Requests | Deliveries.
Inductive write := WBind | WRenew | WUnbind.

Inductive eff :=
| Admit (g : gate)
| Finish (g : gate)
| Identity                                             (* s.identity.Load() *)
| Valid                                                (* s.lease.Load().valid() *)
| RequestContext (c : context)                         (* s.lease.Load().requestContext(ctx) *)
| LoseOwnership (err : error)
| FailLifecycle (err : option error)
| LocateNode (c : context) (svc uid : string)
| Write (w : write) (c : context) (svc uid node ep : string)
| LocateGate (c : context) (svc uid : string)
| GatePush (c : context) (binding : GateBinding) (cmd : Z) (msg : bytes)
| Handle (c : context) (binding : GateBinding) (cmd : Z) (body : bytes)
| HandleDisconnect (c : context) (binding : GateBinding)
(* lifecycle *)
| BeginStart                                           (* the locked section that opens Start *)
| PrepareEndpoint
| Ping
| ClaimEpoch                                           (* claimEpoch, and the store of its lease *)
| StartupError                                         (* the context of the startup *)
| IsClosed                                             (* s.requests.isClosed() *)
| PublishIdentity (id : nodeIdentity)
| ClearIdentity
| StartLease                                           (* lease.start and the wait for ready *)
| StartGRPC
| Register
| SetRegistration
| RegistrationDone
| Open
| EndStartup                                           (* cancel, close(startupDone) *)
| Fatal                                                (* context.Cause(s.fatalCtx) *)
| Select (registered : bool)
| StartCleanup (timeout : Z)
| WaitCleanup
| WaitStartup (timeout : option Z)
| Registered
| Deregister
| StopAndWait (g : gate)
| Drain
| WaitDrain
| StopRenewal
| StopNetwork
| ReleaseLease.

(** What [Start] finds when it takes the lock, and what it waits for. *)
Inductive start_state := StartClosed | StartStarted | StartStarting | StartNew.
Inductive event := RegistrationLost | FatalError | Served (err : option error).

(** The result of the business drain, or its timeout with the drain still on. *)
Inductive drain_result := Drained (err : option error) | DrainLate (err : error).

Definition ans (e : eff) : Type :=
  match e with
  | Admit _ => bool
  | Finish _ | FailLifecycle _ => unit
  | Identity => option nodeIdentity
  | Valid | LoseOwnership _ | Write _ _ _ _ _ _ | GatePush _ _ _ _ | HandleDisconnect _ _ => option error
  | RequestContext _ => context
  | LocateNode _ _ _ => result string
  | LocateGate _ _ _ => result GateLease
  | Handle _ _ _ _ => result bytes
  | BeginStart => start_state
  | PrepareEndpoint | Ping | StartupError | StartLease | StartGRPC | Register | Fatal | WaitCleanup
  | WaitStartup _ | Deregister | StopAndWait _ | WaitDrain | StopRenewal | StopNetwork | ReleaseLease => option error
  | ClaimEpoch => result nodeIdentity
  | IsClosed | RegistrationDone | Registered => bool
  | PublishIdentity _ | ClearIdentity | SetRegistration | Open | EndStartup | StartCleanup _ => unit
  | Select _ => event
  | Drain => drain_result
  end.

Abbreviation nprog := (prog ans).

(** ** Error mapping *)

Definition ctx_error (err : error) : bool :=
  errors_Is err CtxCanceled || errors_Is err CtxDeadlineExceeded.

Definition mapNodeLocatorError (err : option error) : option error :=
  match err with
  | None => None
  | Some e =>
      if ctx_error e then err
      else if errors_Is e ErrInvalidNodeBinding || errors_Is e ErrInvalidNodeEpoch
      then Some (EStatus Internal "invalid node locator state")
      else if errors_Is e ErrNodeNotFound || errors_Is e ErrNodeConflict
      then Some (EStatus Aborted "node binding changed")
      else Some (EStatus Unavailable "node locator is unavailable")
  end.

Definition mapGateLocatorError (e : error) : error :=
  if ctx_error e then e
  else if errors_Is e ErrGateNotFound then EStatus NotFound "gate binding not found"
  else if errors_Is e ErrInvalidGateBinding || errors_Is e ErrInvalidGateLease
  then EStatus Internal "invalid gate locator state"
  else EStatus Unavailable "gate locator is unavailable".

Definition mapGatePushError (err : option error) : option error :=
  match err with
  | None => None
  | Some e =>
      if ctx_error e then err
      else if has_status e then err
      else if errors_Is e ErrInvalidEndpoint || errors_Is e ErrTransportSecurity
      then Some (EStatus Internal "invalid gateway route")
      else Some (EStatus Unavailable "gateway is unavailable")
  end.

(** ** node/dispatch.go *)

Record stickyClaim := mkClaim { c_NodeID : string; c_Epoch : string }.

Record ForwardRequest := mkForwardRequest {
  f_NodeId : string; f_NodeEpoch : string; f_Route : option GateRoute; f_Command : Z; f_Body : bytes;
}.

Section Server.
Context (handlers : Z → bool)             (* a handler is registered for the command *)
        (onDisconnect : bool)             (* a disconnect handler is registered *)
        (has_locator has_directory : bool)
        (pushTimeout : Z).

Definition checkEpoch : nprog (option error) :=
  let! err := call Valid in
  match err with
  | Some e =>
      let! _ := call (FailLifecycle (Some e)) in
      Ret (Some (EStatus Unavailable "node epoch is unavailable"))
  | None => Ret None
  end.

Definition currentIdentity : nprog nodeIdentity :=
  let! identity := call Identity in Ret (default zero_identity identity).

Definition routeIdentity (binding : GateBinding) : nprog (result nodeIdentity) :=
  let! identity := currentIdentity in
  if negb (nonempty (serviceName identity)) || negb (bool_decide (serviceName identity = ServiceName binding))
  then Ret (Err (EStatus Aborted "node service mismatch"))
  else
    let! err := checkEpoch in
    Ret (match err with Some e => Err e | None => Ok identity end).

Definition checkNodeBinding (ctx : context) (gate : GateBinding) (identity : nodeIdentity) : nprog (option error) :=
  if negb has_locator then Ret (Some (EStatus Unavailable "node locator is unavailable"))
  else
    let! found := call (LocateNode ctx (ServiceName gate) (UID gate)) in
    match found with
    | Err err => Ret (mapNodeLocatorError (Some err))
    | Ok node =>
        if negb (bool_decide (node = nodeID identity))
        then Ret (Some (EStatus Aborted "node binding changed"))
        else checkEpoch
    end.

Definition fenceStickyClaim (ctx : context) (claim : stickyClaim) (binding : GateBinding) (identity : nodeIdentity)
  : nprog (option error) :=
  if xorb (nonempty (c_NodeID claim)) (nonempty (c_Epoch claim))
  then Ret (Some (EStatus InvalidArgument "invalid node claim"))
  else if negb (nonempty (c_NodeID claim)) then Ret None
  else if negb (bool_decide (nodeID identity = c_NodeID claim))
  then Ret (Some (EStatus Aborted "node binding changed"))
  else if negb (bool_decide (c_Epoch claim = epoch identity))
  then Ret (Some (EStatus Aborted "node epoch mismatch"))
  else checkNodeBinding ctx binding identity.

Definition forwardTo (ctx : context) (claim : stickyClaim) (binding : GateBinding) (cmd : Z) (body : bytes)
  : nprog (result bytes) :=
  let! ok := call (Admit Requests) in
  if negb ok then Ret (Err (EStatus Unavailable "node is draining"))
  else defer (call (Finish Requests)) (
    if negb (ValidGateBinding binding) then Ret (Err (EStatus InvalidArgument "invalid forward route"))
    else
      let! identity := routeIdentity binding in
      match identity with
      | Err err => Ret (Err err)
      | Ok identity =>
          let! ctx := call (RequestContext ctx) in
          let! err := fenceStickyClaim ctx claim binding identity in
          match err with
          | Some err => Ret (Err err)
          | None =>
              if negb (handlers cmd)
              then Ret (Err (EStatus Unimplemented ("unimplemented Command=" +:+ pretty cmd)))
              else call (Handle (ctx <| command := Some cmd |> <| session := Some binding |>) binding cmd body)
          end
      end).

Definition Forward (ctx : context) (req : option ForwardRequest) : nprog (result bytes) :=
  match req with
  | None => Ret (Err (EStatus InvalidArgument "invalid forward request"))
  | Some req =>
      forwardTo ctx (mkClaim (f_NodeId req) (f_NodeEpoch req)) (ToBinding (f_Route req)) (f_Command req) (f_Body req)
  end.

(** The request of [Disconnect] carries only a route. *)
Definition Disconnect (ctx : context) (req : option (option GateRoute)) : nprog (result bytes) :=
  match req with
  | None => Ret (Err (EStatus InvalidArgument "invalid disconnect request"))
  | Some route =>
      let binding := ToBinding route in
      if negb (ValidGateBinding binding) then Ret (Err (EStatus InvalidArgument "invalid disconnect route"))
      else
        let! identity := routeIdentity binding in
        match identity with
        | Err err => Ret (Err err)
        | Ok _ =>
            let! ok := call (Admit Requests) in
            if negb ok then Ret (Err (EStatus Unavailable "node is draining"))
            else defer (call (Finish Requests)) (
              let! ctx := call (RequestContext ctx) in
              if negb onDisconnect then Ret (Ok [])
              else
                let! err := call (HandleDisconnect (ctx <| session := Some binding |>) binding) in
                Ret (match err with Some err => Err err | None => Ok [] end))
        end
  end.

(** ** node/session.go *)

Definition validatedIdentity (binding : GateBinding) : nprog (result nodeIdentity) :=
  let! identity := currentIdentity in
  if negb (bool_decide (serviceName identity = ServiceName binding)) ||
     negb (ValidNodeLocation (serviceName identity) (UID binding) (nodeID identity))
  then Ret (Err (EStatus FailedPrecondition "node identity is unavailable"))
  else
    let! err := checkEpoch in
    Ret (match err with Some e => Err e | None => Ok identity end).

Definition handleBindingError (err : option error) : nprog (option error) :=
  match err with
  | Some e =>
      if errors_Is e ErrNodeEpochNotFound || errors_Is e ErrNodeEpochConflict then
        let! cause := call (LoseOwnership e) in
        let! _ := call (FailLifecycle cause) in
        Ret (Some (EStatus Unavailable "node epoch is unavailable"))
      else Ret (mapNodeLocatorError err)
  | None => Ret (mapNodeLocatorError None)
  end.

Definition writeBinding (w : write) (binding : GateBinding) (ctx : option context) : nprog (option error) :=
  if negb has_locator then Ret (Some (EStatus FailedPrecondition "node locator is not configured"))
  else
    let! ok := call (Admit Deliveries) in
    if negb ok then Ret (Some (EStatus Unavailable "node is stopping or stopped"))
    else defer (call (Finish Deliveries)) (
      let! identity := validatedIdentity binding in
      match identity with
      | Err err => Ret (Some err)
      | Ok identity =>
          let! ctx := call (RequestContext (normalizeContext ctx)) in
          let! err := call (Write w ctx (serviceName identity) (UID binding) (nodeID identity) (epoch identity)) in
          handleBindingError err
      end).

Definition BindNode := writeBinding WBind.
Definition RenewNode := writeBinding WRenew.
Definition UnbindNode := writeBinding WUnbind.

(** ** node/push.go *)

(** A message that is nil or not valid is [None]. *)
Definition pushToGate (ctx : context) (binding : GateBinding) (cmd : Z) (msg : bytes) : nprog (option error) :=
  if negb (ValidGateBinding binding) then Ret (Some (EStatus Internal "invalid gateway route"))
  else
    let! err := call (GatePush ctx binding cmd msg) in
    Ret (mapGatePushError err).

Definition with_timeout (c : context) : context := c <| timeout := Some pushTimeout |>.

Definition PushToUID (ctx : option context) (uid : string) (cmd : Z) (msg : option bytes) : nprog (option error) :=
  let! ok := call (Admit Deliveries) in
  if negb ok then Ret (Some (EStatus Unavailable "node is stopping or stopped"))
  else defer (call (Finish Deliveries)) (
    let! err := checkEpoch in
    match err with
    | Some err => Ret (Some err)
    | None =>
    if negb has_directory then Ret (Some (EStatus FailedPrecondition "gate locator is not configured"))
    else
    let! identity := currentIdentity in
    let svc := serviceName identity in
    if negb (ValidServiceName svc) then Ret (Some (EStatus FailedPrecondition "node is not started"))
    else if negb (ValidUID uid) then Ret (Some (EStatus InvalidArgument "invalid push target"))
    else match msg with
    | None => Ret (Some (EStatus InvalidArgument "push message is required"))
    | Some msg =>
        let! ctx := call (RequestContext (with_timeout (normalizeContext ctx))) in
        let! found := call (LocateGate ctx svc uid) in
        match found with
        | Err err => Ret (Some (mapGateLocatorError err))
        | Ok lease =>
            if (TTL lease <=? 0) || negb (bool_decide (ServiceName (Binding lease) = svc)) ||
               negb (bool_decide (UID (Binding lease) = uid))
            then Ret (Some (EStatus Internal "invalid gateway route"))
            else pushToGate ctx (Binding lease) cmd msg
        end
    end
    end).

Definition Push (binding : GateBinding) (ctx : option context) (cmd : Z) (msg : option bytes) : nprog (option error) :=
  let! ok := call (Admit Deliveries) in
  if negb ok then Ret (Some (EStatus Unavailable "node is stopping or stopped"))
  else defer (call (Finish Deliveries)) (
    let! err := checkEpoch in
    match err with
    | Some err => Ret (Some err)
    | None =>
        match msg with
        | None => Ret (Some (EStatus InvalidArgument "push message is required"))
        | Some msg =>
            let! ctx := call (RequestContext (with_timeout (normalizeContext ctx))) in
            pushToGate ctx binding cmd msg
        end
    end).

(** ** What the calls promise, and when they are allowed

    The history of a handler: the admissions it holds, the last node binding it
    read, and, when its last blocking call was a successful check of the lease,
    the owner of the node in the store at that check; whether it knows that the
    server holds its lease, and what it has seen drained. *)

Record hist := mkHist {
  held_r : Z;
  held_d : Z;
  located : option (string * string * string);
  fence : option (option entry);
  ready : bool;
  quiet_r : bool;
  quiet_d : bool;
  quiet_b : bool;
}.
#[export] Instance eta_hist : Eta hist := λ h,
  mkHist (held_r h) (held_d h) (located h) (fence h) (ready h) (quiet_r h) (quiet_d h) (quiet_b h).

Definition hist0 : hist := mkHist 0 0 None None false false false false.

Context (self : nodeIdentity)              (* the identity the server publishes *)
        (stateful : bool)                  (* the server holds a lease *)
        (drain : bool)                     (* a business drain is configured *)
        (own : option entry → Prop).       (* the store's entry of this process *)

Definition held (g : gate) (n : Z) (h : hist) : hist :=
  match g with
  | Requests => h <| held_r := held_r h + n |>
  | Deliveries => h <| held_d := held_d h + n |>
  end.

Definition blocked (h : hist) : hist := h <| fence := None |>.

Definition quiet (g : gate) (h : hist) : hist :=
  match g with Requests => h <| quiet_r := true |> | Deliveries => h <| quiet_d := true |> end.

Definition rel (e : eff) : ans e → hist → hist → Prop :=
  match e return ans e → hist → hist → Prop with
  | Admit g => λ ok h h', h' = if ok then (held g 1 h) <| ready := true |> else h
  | Finish g => λ _ h h', h' = held g (-1) h
  | Identity => λ id h h', id = None ∧ h' = h ∨ id = Some self ∧ h' = h <| ready := true |>
  | Valid => λ err h h',
      match err with
      | Some _ => h' = blocked h
      | None => ∃ o, (stateful = true → ready h = true → own o) ∧ h' = h <| fence := Some o |>
      end
  | RequestContext c => λ c' h h', h' = h ∧
      ∃ b, (stateful = true → ready h = true → b = true) ∧ c' = c <| leased := b |>
  | LoseOwnership _ | FailLifecycle _ | IsClosed | StartupError | SetRegistration | RegistrationDone | Open
  | EndStartup | Fatal | BeginStart | Registered | PublishIdentity _ | ClearIdentity | StartCleanup _ =>
      λ _ h h', h' = h
  | LocateNode _ svc uid => λ r h h',
      h' = (blocked h) <| located := match r with Ok node => Some (svc, uid, node) | Err _ => None end |>
  | ClaimEpoch => λ r h h',
      match r with
      | Ok id => id = self ∧ h' = (blocked h) <| ready := true |>
      | Err _ => h' = blocked h
      end
  | StopAndWait g => λ err h h',
      h' = match err with None => quiet g (blocked h) | Some _ => blocked h end
  | Drain => λ r h h',
      h' = match r with Drained None => (blocked h) <| quiet_b := true |> | _ => blocked h end
  | Select registered => λ ev h h', h' = blocked h ∧ (ev = RegistrationLost → registered = true)
  | Write _ _ _ _ _ _ | LocateGate _ _ _ | GatePush _ _ _ _ | Handle _ _ _ _ | HandleDisconnect _ _
  | PrepareEndpoint | Ping | StartLease | StartGRPC | Register | WaitCleanup | WaitStartup _ | Deregister
  | WaitDrain | StopRenewal | StopNetwork | ReleaseLease =>
      λ _ h h', h' = blocked h
  end.

(** The last blocking call was a check that found the lease valid. *)
Definition fenced (h : hist) : Prop := ∃ o, fence h = Some o ∧ (stateful = true → own o).

(** The sticky claim of the request, when it carries one, names this process
    and its binding in the store. *)
Definition claim_ok (claim : stickyClaim) (b : GateBinding) (h : hist) : Prop :=
  c_NodeID claim = EmptyString ∧ c_Epoch claim = EmptyString ∨
  claim = mkClaim (nodeID self) (epoch self) ∧ located h = Some (ServiceName b, UID b, nodeID self).

(** A call or handler is cancelled when the lease is lost. *)
Definition bound (c : context) : Prop := stateful = true → leased c = true.

Definition allowed (claim : stickyClaim) (e : eff) (h : hist) : Prop :=
  match e with
  | Handle c b cmd _ =>
      held_r h = 1 ∧ handlers cmd = true ∧ ValidGateBinding b = true ∧ ServiceName b = serviceName self ∧
      session c = Some b ∧ command c = Some cmd ∧ bound c ∧ fenced h ∧ claim_ok claim b h
  | HandleDisconnect c b =>
      held_r h = 1 ∧ ValidGateBinding b = true ∧ ServiceName b = serviceName self ∧
      bound c ∧ session c = Some b
  | Write _ c svc uid node ep =>
      held_d h = 1 ∧ has_locator = true ∧ mkIdentity svc node ep = self ∧ ValidNodeLocation svc uid node = true ∧
      bound c ∧ fenced h
  | LocateGate c svc uid =>
      held_d h = 1 ∧ svc = serviceName self ∧ ValidUID uid = true ∧ bound c ∧
      timeout c = Some pushTimeout ∧ fenced h
  | GatePush c b _ _ =>
      held_d h = 1 ∧ ValidGateBinding b = true ∧ bound c ∧ timeout c = Some pushTimeout
  | Admit _ => held_r h = 0 ∧ held_d h = 0
  | Finish g => match g with Requests => held_r h = 1 | Deliveries => held_d h = 1 end
  | PublishIdentity id => id = self ∧ (stateful = true → ready h = true)
  | Open => (stateful = true → ready h = true) ∧ fenced h
  | ReleaseLease => quiet_r h = true ∧ quiet_d h = true ∧ (drain = true → quiet_b h = true)
  | _ => True
  end.

(** Every admission is given back. *)
Definition returned {A} (_ : A) (h : hist) : Prop := held_r h = 0 ∧ held_d h = 0.

(** ** Verification of the entry points *)

Abbreviation nwp claim := (wp (allowed claim) rel).

(** One call: its side condition, then every answer. *)
Ltac wp_step := apply wp_call; [try done|cbn [rel]; intros ? ? ?; simplify_eq].

Ltac wp_branch :=
  lazymatch goal with
  | |- wp _ _ (if negb ?b then _ else _) _ _ => destruct b eqn:?; cbn [negb]
  | |- wp _ _ (if ?b then _ else _) _ _ => destruct b eqn:?
  | |- wp _ _ (match ?x with _ => _ end) _ _ => destruct x eqn:?
  end.

Lemma wp_checkEpoch claim Q h :
  ready h = true →
  Q (Some (EStatus Unavailable "node epoch is unavailable")) (blocked h) →
  (∀ o, (stateful = true → own o) → Q None (h <| fence := Some o |>)) →
  nwp claim checkEpoch Q h.
Proof.
  intros Hrd H1 H2. unfold checkEpoch. apply wp_bind, wp_call; [done|]. cbn [rel]. intros [e|] h' Hr.
  - apply wp_bind. wp_step. by apply wp_ret.
  - destruct Hr as (o & Ho & ->). apply wp_ret, H2. auto.
Qed.

Lemma wp_currentIdentity claim Q h :
  Q zero_identity h → Q self (h <| ready := true |>) → nwp claim currentIdentity Q h.
Proof.
  intros H1 H2. unfold currentIdentity. apply wp_bind, wp_call; [done|]. cbn [rel].
  intros id h' [[-> ->]|[-> ->]]; by apply wp_ret.
Qed.

Lemma wp_routeIdentity claim b Q h :
  (∀ e h', held_r h' = held_r h → held_d h' = held_d h → Q (Err e) h') →
  (∀ o, (stateful = true → own o) → ServiceName b = serviceName self →
   Q (Ok self) (h <| ready := true |> <| fence := Some o |>)) →
  nwp claim (routeIdentity b) Q h.
Proof.
  intros H1 H2. unfold routeIdentity. apply wp_bind, wp_currentIdentity; wp_branch; try (by apply wp_ret, H1).
  all: to_prop; try done. apply wp_bind, wp_checkEpoch; [done|by apply wp_ret, H1|]. intros o Ho. by apply wp_ret, H2.
Qed.

Lemma wp_fenceStickyClaim claim c b Q h :
  fenced h → ready h = true → located h = None →
  (∀ e h', held_r h' = held_r h → held_d h' = held_d h → Q (Some e) h') →
  (∀ h', held_r h' = held_r h → held_d h' = held_d h → fenced h' → claim_ok claim b h' → Q None h') →
  nwp claim (fenceStickyClaim c claim b self) Q h.
Proof.
  intros Hf Hrd Hl H1 H2. unfold fenceStickyClaim. wp_branch; [by apply wp_ret, H1|].
  wp_branch.
  2: { apply wp_ret, H2; try done. left. unfold nonempty in *. to_prop. destruct (c_NodeID claim), (c_Epoch claim); done. }
  wp_branch; [|by apply wp_ret, H1]. wp_branch; [|by apply wp_ret, H1]. to_prop.
  unfold checkNodeBinding. wp_branch; [|by apply wp_ret, H1]. apply wp_bind, wp_call; [done|]. cbn [rel].
  intros found h' ->. wp_branch.
  - wp_branch; [|by apply wp_ret, H1]. to_prop. subst. apply wp_checkEpoch; [done|by apply H1|].
    intros o Ho. apply H2; simpl; try done; [by exists o|]. right. split; [|done].
    destruct claim; simpl in *; congruence.
  - destruct (mapNodeLocatorError (Some e)) eqn:E; [by apply wp_ret, H1|].
    exfalso. unfold mapNodeLocatorError in E. repeat case_match; done.
Qed.

Lemma wp_forwardTo c claim b cmd body :
  nwp claim (forwardTo c claim b cmd body) returned hist0.
Proof.
  unfold forwardTo. apply wp_bind, wp_call; [done|]. cbn [rel]. intros ok h ->. wp_branch; [|by apply wp_ret].
  apply wp_defer.
  assert (Hfin : ∀ a : result bytes, ∀ h, held_r h = 1 → held_d h = 0 →
                   nwp claim (call (Finish Requests)) (λ _, returned a) h).
  { intros a h1 Hr Hd. wp_step. split; simpl; lia. }
  wp_branch; [|by apply wp_ret, Hfin].
  apply wp_bind, wp_routeIdentity; [intros e h1 ??; by apply wp_ret, Hfin|]. intros o Ho Hsvc.
  apply wp_bind, wp_call; [done|]. cbn [rel]. intros c' h' (-> & bb & Hb & ->).
  apply wp_bind, wp_fenceStickyClaim; [by exists o|done|done|intros e h1 ??; by apply wp_ret, Hfin|].
  intros h1 Hr Hd Hf Hcl. wp_branch; [|by apply wp_ret, Hfin]. apply wp_call.
  - simpl. split_and!; try done. exact (λ Hs, Hb Hs eq_refl).
  - cbn [rel]. intros r h2 ->. by apply Hfin.
Qed.

Lemma wp_finish g claim {A} (a : A) h :
  (match g with Requests => held_r h = 1 ∧ held_d h = 0
                                  | Deliveries => held_r h = 0 ∧ held_d h = 1 end) →
  nwp claim (call (Finish g)) (λ _, returned a) h.
Proof. intros H. destruct g; wp_step; try (by destruct H); split; simpl; lia. Qed.

Lemma wp_Disconnect c req claim : nwp claim (Disconnect c req) returned hist0.
Proof.
  unfold Disconnect. wp_branch; [|by apply wp_ret]. wp_branch; [|by apply wp_ret].
  apply wp_bind, wp_routeIdentity; [intros e h1 ??; by apply wp_ret|]. intros ow Ho Hsvc.
  apply wp_bind, wp_call; [done|]. cbn [rel]. intros ok h ->. wp_branch; [|by apply wp_ret].
  apply wp_defer, wp_bind, wp_call; [done|]. cbn [rel]. intros c' h' (-> & bb & Hb & ->).
  wp_branch; [|by apply wp_ret, wp_finish]. apply wp_bind, wp_call.
  - simpl. split_and!; try done. exact (λ Hs, Hb Hs eq_refl).
  - cbn [rel]. intros err h1 ->. by apply wp_ret, wp_finish.
Qed.

Lemma wp_writeBinding w b c claim : nwp claim (writeBinding w b c) returned hist0.
Proof.
  unfold writeBinding. wp_branch; [|by apply wp_ret].
  apply wp_bind, wp_call; [done|]. cbn [rel]. intros ok h ->. wp_branch; [|by apply wp_ret].
  apply wp_defer, wp_bind. unfold validatedIdentity.
  apply wp_bind, wp_currentIdentity; (wp_branch; [by apply wp_ret, wp_ret, wp_finish|]); to_prop.
  { unfold ValidNodeLocation in *. to_prop. done. }
  apply wp_bind, wp_checkEpoch; [done|by apply wp_ret, wp_ret, wp_finish|]. intros o Ho. apply wp_ret.
  apply wp_bind, wp_call; [done|]. cbn [rel]. intros c' h' (-> & bb & Hb & ->). apply wp_bind, wp_call.
  - simpl. split_and!; try done; [by destruct self|exact (λ Hs, Hb Hs eq_refl)|by exists o].
  - cbn [rel]. intros err h1 ->. unfold handleBindingError. wp_branch; [wp_branch|].
    + apply wp_bind, wp_call; [done|]. cbn [rel]. intros cs h2 ->. apply wp_bind, wp_call; [done|].
      cbn [rel]. intros _ h3 ->. by apply wp_ret, wp_finish.
    + by apply wp_ret, wp_finish.
    + by apply wp_ret, wp_finish.
Qed.

Lemma wp_pushToGate claim c b cmd msg h :
  held_r h = 0 → held_d h = 1 → bound c → timeout c = Some pushTimeout →
  nwp claim (pushToGate c b cmd msg) (λ a h, nwp claim (call (Finish Deliveries)) (λ _, returned a) h) h.
Proof.
  intros Hr Hd Hb Ht. unfold pushToGate. wp_branch; [|by apply wp_ret, wp_finish].
  apply wp_bind, wp_call; [done|]. cbn [rel]. intros err h1 ->. by apply wp_ret, wp_finish.
Qed.

Lemma wp_PushToUID c uid cmd msg claim : nwp claim (PushToUID c uid cmd msg) returned hist0.
Proof.
  unfold PushToUID. apply wp_bind, wp_call; [done|]. cbn [rel]. intros ok h ->. wp_branch; [|by apply wp_ret].
  apply wp_defer, wp_bind, wp_checkEpoch; [done|by apply wp_ret, wp_finish|]. intros o Ho.
  wp_branch; [|by apply wp_ret, wp_finish].
  apply wp_bind, wp_currentIdentity; cbv zeta; (wp_branch; [|by apply wp_ret, wp_finish]); [done|].
  wp_branch; [|by apply wp_ret, wp_finish]. wp_branch; [|by apply wp_ret, wp_finish].
  apply wp_bind, wp_call; [done|]. cbn [rel]. intros c' h' (-> & bb & Hb & ->). apply wp_bind, wp_call.
  - simpl. split_and!; try done; [exact (λ Hs, Hb Hs eq_refl)|by exists o].
  - cbn [rel]. intros r h1 ->. wp_branch; [|by apply wp_ret, wp_finish]. wp_branch; [by apply wp_ret, wp_finish|].
    apply wp_pushToGate; try done. exact (λ Hs, Hb Hs eq_refl).
Qed.

Lemma wp_Push b c cmd msg claim : nwp claim (Push b c cmd msg) returned hist0.
Proof.
  unfold Push. apply wp_bind, wp_call; [done|]. cbn [rel]. intros ok h ->. wp_branch; [|by apply wp_ret].
  apply wp_defer, wp_bind, wp_checkEpoch; [done|by apply wp_ret, wp_finish|]. intros o Ho.
  wp_branch; [|by apply wp_ret, wp_finish].
  apply wp_bind, wp_call; [done|]. cbn [rel]. intros c' h' (-> & bb & Hb & ->).
  apply wp_pushToGate; try done. exact (λ Hs, Hb Hs eq_refl).
Qed.
End Server.
