(* ===== verification/NodeLifecycle.v ===== *)
(** * Lifecycle of a node

    [node/lifecycle.go]: the start of a node, which opens the admission of
    requests only when it holds its epoch and is registered, and its one
    cleanup, which gives the epoch back only when nothing of this process can
    touch a player any more.  Programs over the same calls as the request path. *)

From S2P Require Import Prelude Errors Prog Proto Locate Redis Node.

#[local] Abbreviation call := (@Prog.call eff ans).

Section Lifecycle.
Context (has_locator : bool)                (* Stateful is configured *)
        (has_done : bool)                   (* the registrar reports the loss of its lease *)
        (drain : bool)                      (* a business drain is configured *)
        (cleanupTimeout shutdownTimeout : Z).

Definition stopAfterFailure (cause : option error) (timeout : Z) : nprog (option error) :=
  let! _ := call (StartCleanup timeout) in
  let! err := call WaitCleanup in
  Ret (errors_Join [cause; err]).

Definition Stop : nprog (option error) :=
  let! _ := call (StartCleanup shutdownTimeout) in
  call WaitCleanup.

Definition startupError : nprog (option error) :=
  let! closed := call IsClosed in
  if closed then Ret (Some (ESentinel ErrNodeStopped)) else call StartupError.

Definition claimNodeIdentity (name id : string) : nprog (result nodeIdentity) :=
  if negb has_locator then Ret (Ok (mkIdentity name id EmptyString))
  else
    let! err := call Ping in
    match err with
    | Some err => Ret (Err err)
    | None => call ClaimEpoch
    end.

(** [if err != nil { return err }] *)
Definition check (p : nprog (option error)) (k : nprog (option error)) : nprog (option error) :=
  let! err := p in match err with Some err => Ret (Some err) | None => k end.

(** The end of [start], which holds the lifecycle lock. *)
Definition start_open : nprog (option error) :=
  let! _ := call SetRegistration in
  let! closed := call IsClosed in
  if closed then Ret (Some (ESentinel ErrNodeStopped))
  else
    check (call StartupError) (
    check (call Valid) (
      let! gone := call RegistrationDone in
      if gone then Ret (Some (ESentinel ErrRegistrationLost))
      else
        let! _ := call Open in
        Ret None)).

Definition start (app : option (string * string)) : nprog (option error) :=
  match app with
  | None => Ret (Some (EText "node: application context is required"))
  | Some (name, id) =>
      if negb (ValidServiceName name) || negb (nonempty id)
      then Ret (Some (EText "node: invalid application identity"))
      else
        check (call PrepareEndpoint) (
        let! claimed := claimNodeIdentity name id in
        match claimed with
        | Err err => Ret (Some err)
        | Ok ident =>
            check startupError (
            let! _ := call (PublishIdentity ident) in
            check (let! err := call StartLease in
                   match err with Some err => Ret (Some err) | None => call Valid end) (
            check startupError (
            check (call StartGRPC) (
            check startupError (
            check (call Register)
            start_open)))))
        end)
  end.

(** One turn of the loop of [Start]; a nil channel never delivers. *)
Definition serve_turn (registered : bool) (lost : nprog (option error)) : nprog (option error) :=
  let! ev := call (Select registered) in
  match ev with
  | RegistrationLost => lost
  | FatalError =>
      let! cause := call Fatal in
      stopAfterFailure cause shutdownTimeout
  | Served serveErr =>
      let! fatal := call Fatal in
      match fatal with
      | Some _ => stopAfterFailure fatal shutdownTimeout
      | None =>
          let! closed := call IsClosed in
          if negb closed
          then stopAfterFailure (Some (default (EText "node: gRPC server stopped unexpectedly") serveErr))
                 shutdownTimeout
          else Ret (if err_is serveErr GrpcErrServerStopped then None else serveErr)
      end
  end.

Definition serve : nprog (option error) :=
  serve_turn has_done (
    let! closed := call IsClosed in
    let! _ := (if negb closed then call (FailLifecycle (Some (ESentinel ErrRegistrationLost))) else Ret tt) in
    serve_turn false (Ret None)).

Definition Start (app : option (string * string)) : nprog (option error) :=
  let! st := call BeginStart in
  match st with
  | StartClosed => Ret (Some (ESentinel ErrNodeStopped))
  | StartStarted => Ret (Some (EText "node: server is already started"))
  | StartStarting => Ret (Some (EText "node: server is already starting"))
  | StartNew =>
      let! err := start app in
      let! _ := call EndStartup in
      match err with
      | Some err =>
          let! fatal := call Fatal in
          stopAfterFailure (errors_Join [fatal; Some err]) cleanupTimeout
      | None => serve
      end
  end.

Definition is_nil (err : option error) : bool := match err with None => true | Some _ => false end.

(** A startup still running when its share of the budget is over ends later:
    what it leaves is reclaimed then. *)
Definition cleanup_late (record drained : bool) (cleanupErr : option error) : nprog (option error) :=
  let! _ := call (WaitStartup None) in
  let! lateRecord := call Registered in
  let! cleanupErr :=
    (if lateRecord && negb record
     then let! err := call Deregister in Ret (errors_Join [cleanupErr; err])
     else Ret cleanupErr) in
  let! epochErr := (if drained then call ReleaseLease else call StopRenewal) in
  let! _ := call ClearIdentity in
  Ret (errors_Join [cleanupErr; epochErr]).

Definition cleanup (timeout : Z) : nprog (option error) :=
  let! startupErr := call (WaitStartup (Some (timeout `quot` 4))) in
  let! record := call Registered in
  let! registrationErr := (if record then call Deregister else Ret None) in
  let! requestErr := call (StopAndWait Requests) in
  let! d := (if is_nil requestErr && drain
             then let! r := call Drain in
                  Ret (match r with Drained err => (err, false) | DrainLate err => (Some err, true) end)
             else Ret (None, false)) in
  let '(drainErr, lateDrain) := d in
  let! deliveryErr := call (StopAndWait Deliveries) in
  let drained := is_nil requestErr && is_nil drainErr && is_nil deliveryErr in
  let! renewalErr := (if negb drained || negb (is_nil startupErr) then call StopRenewal else Ret None) in
  let! networkErr := call StopNetwork in
  let! _ := call ClearIdentity in
  let! epochErr := (if drained && is_nil startupErr then call ReleaseLease else Ret None) in
  let cleanupErr := errors_Join [startupErr; registrationErr; requestErr; drainErr; deliveryErr;
                                 renewalErr; networkErr; epochErr] in
  let! cleanupErr := (if negb (is_nil startupErr) then cleanup_late record drained cleanupErr else Ret cleanupErr) in
  if lateDrain : bool then
    let! err := call WaitDrain in Ret (errors_Join [cleanupErr; err])
  else Ret cleanupErr.

(** ** Verification *)

Context (handlers : Z → bool) (pushTimeout : Z) (self : nodeIdentity) (own : option entry → Prop).

Abbreviation lwp claim :=
  (wp (allowed handlers has_locator pushTimeout self has_locator drain own claim) (rel self has_locator own)).

(** No lifecycle program holds an admission. *)
Definition idle (h : hist) : Prop := held_r h = 0 ∧ held_d h = 0.

(** A call whose answer changes only what the history forgets. *)
Ltac lwp_call := apply wp_call; [try done|cbn [rel]; let x := fresh "x" in intros x ? ?; simplify_eq; try destruct x].

Ltac lwp_branch :=
  lazymatch goal with
  | |- wp _ _ (if negb ?b then _ else _) _ _ => destruct b eqn:?; cbn [negb]
  | |- wp _ _ (if ?b then _ else _) _ _ => destruct b eqn:?
  | |- wp _ _ (match ?x with _ => _ end) _ _ => destruct x eqn:?
  end.

Lemma wp_check claim p k (Q : option error → hist → Prop) h :
  lwp claim p (λ err h, match err with Some err => Q (Some err) h | None => lwp claim k Q h end) h →
  lwp claim (check p k) Q h.
Proof.
  intros H. unfold check. apply wp_bind. eapply wp_mono; [|exact H]. intros [err|] h'; [|done]. apply wp_ret.
Qed.

Lemma wp_startupError claim (Q : option error → hist → Prop) h :
  (∀ err, Q err h) → lwp claim startupError Q h.
Proof.
  intros H. unfold startupError. apply wp_bind, wp_call; [done|]. cbn [rel]. intros c h' ->.
  lwp_branch; [by apply wp_ret|]. apply wp_call; [done|]. cbn [rel]. by intros err h' ->.
Qed.

Lemma wp_stopAfterFailure claim cause t h : idle h → lwp claim (stopAfterFailure cause t) returned h.
Proof.
  intros Hi. unfold stopAfterFailure. apply wp_bind, wp_call; [done|]. cbn [rel]. intros _ h' ->.
  apply wp_bind, wp_call; [done|]. cbn [rel]. intros err h' ->. by apply wp_ret.
Qed.

Lemma wp_Stop claim : lwp claim Stop returned hist0.
Proof.
  unfold Stop. apply wp_bind, wp_call; [done|]. cbn [rel]. intros _ h' ->. apply wp_call; [done|]. cbn [rel].
  by intros err h' ->.
Qed.

Lemma wp_start_open claim h :
  idle h → (has_locator = true → ready h = true) → lwp claim start_open (λ _, idle) h.
Proof.
  intros Hi Hr. unfold start_open. apply wp_bind, wp_call; [done|]. cbn [rel]. intros _ h' ->.
  apply wp_bind, wp_call; [done|]. cbn [rel]. intros c h' ->. lwp_branch; [by apply wp_ret|].
  apply wp_check, wp_call; [done|]. cbn [rel]. intros [err|] h' ->; [done|].
  apply wp_check, wp_call; [done|]. cbn [rel]. intros [err|] h' Hv; [by subst|]. destruct Hv as (o & Ho & ->).
  apply wp_bind, wp_call; [done|]. cbn [rel]. intros g h' ->. lwp_branch; [by apply wp_ret|].
  apply wp_bind, wp_call; [|cbn [rel]; intros _ h' ->; by apply wp_ret].
  simpl. split; [done|]. exists o. auto.
Qed.

Lemma wp_start claim app h :
  (has_locator = false → ∀ name id, app = Some (name, id) → self = mkIdentity name id EmptyString) →
  idle h → lwp claim (start app) (λ _, idle) h.
Proof.
  intros Hself Hi. unfold start. destruct app as [[name id]|]; [|by apply wp_ret]. lwp_branch; [by apply wp_ret|].
  apply wp_check, wp_call; [done|]. cbn [rel]. intros [err|] h' ->; [done|].
  assert (Hok : ∀ h, idle h → (has_locator = true → ready h = true) →
    lwp claim (check startupError (let! _ := call (PublishIdentity self) in
      check (let! err := call StartLease in match err with Some err => Ret (Some err) | None => call Valid end) (
      check startupError (check (call StartGRPC) (check startupError (check (call Register) start_open)))))) (λ _, idle) h).
  { clear h Hi Hself. intros h Hi Hr. apply wp_check, wp_startupError. intros [err|]; [done|].
    apply wp_bind, wp_call; [done|]. cbn [rel]. intros _ h' ->.
    apply wp_check, wp_bind, wp_call; [done|]. cbn [rel]. intros [err|] h' ->; [by apply wp_ret|].
    apply wp_call; [done|]. cbn [rel]. intros [err|] h' Hv; [by subst|]. destruct Hv as (o & Ho & ->).
    apply wp_check, wp_startupError. intros [err|]; [done|].
    apply wp_check, wp_call; [done|]. cbn [rel]. intros [err|] h' ->; [done|].
    apply wp_check, wp_startupError. intros [err|]; [done|].
    apply wp_check, wp_call; [done|]. cbn [rel]. intros [err|] h' ->; [done|]. by apply wp_start_open. }
  unfold claimNodeIdentity. apply wp_bind. destruct has_locator eqn:Hl; cbn [negb].
  - apply wp_bind, wp_call; [done|]. cbn [rel]. intros [err|] h' ->; [by apply wp_ret, wp_ret|].
    apply wp_call; [done|]. cbn [rel]. intros [id'|err] h' Hr; [|by subst; apply wp_ret].
    destruct Hr as [-> ->]. by apply Hok.
  - apply wp_ret. rewrite <-(Hself eq_refl name id eq_refl). by apply Hok.
Qed.

Lemma wp_serve_turn claim registered lost h :
  idle h → (∀ h, idle h → registered = true → lwp claim lost returned h) →
  lwp claim (serve_turn registered lost) returned h.
Proof.
  intros Hi Hl. unfold serve_turn. apply wp_bind, wp_call; [done|]. cbn [rel]. intros [| |serveErr] h' [-> Hev].
  - by apply Hl, Hev.
  - apply wp_bind, wp_call; [done|]. cbn [rel]. intros cause h' ->. by apply wp_stopAfterFailure.
  - apply wp_bind, wp_call; [done|]. cbn [rel]. intros fatal h' ->. lwp_branch; [by apply wp_stopAfterFailure|].
    apply wp_bind, wp_call; [done|]. cbn [rel]. intros closed h' ->.
    lwp_branch; [by apply wp_ret|by apply wp_stopAfterFailure].
Qed.

Lemma wp_serve claim h : idle h → lwp claim serve returned h.
Proof.
  intros Hi. apply wp_serve_turn; [done|]. clear h Hi. intros h Hi _.
  apply wp_bind, wp_call; [done|]. cbn [rel]. intros closed h' ->. apply wp_bind.
  assert (Hk : lwp claim (serve_turn false (Ret None)) returned h) by by apply wp_serve_turn.
  lwp_branch; [by apply wp_ret|]. apply wp_call; [done|]. cbn [rel]. by intros _ h' ->.
Qed.

Lemma wp_Start claim app :
  (has_locator = false → ∀ name id, app = Some (name, id) → self = mkIdentity name id EmptyString) →
  lwp claim (Start app) returned hist0.
Proof.
  intros Hself. unfold Start. apply wp_bind, wp_call; [done|]. cbn [rel]. intros st h' ->.
  lwp_branch; try by apply wp_ret.
  apply wp_bind. eapply wp_mono; [|by apply wp_start]. intros err h Hi. apply wp_bind, wp_call; [done|].
  cbn [rel]. intros _ h' ->. lwp_branch; [|by apply wp_serve].
  apply wp_bind, wp_call; [done|]. cbn [rel]. intros fatal h' ->. by apply wp_stopAfterFailure.
Qed.

(** What a cleanup has drained. *)
Definition drained_ok (h : hist) : Prop :=
  quiet_r h = true ∧ quiet_d h = true ∧ (drain = true → quiet_b h = true).

Lemma wp_cleanup_late claim record drained cleanupErr h :
  idle h → (drained = true → drained_ok h) → lwp claim (cleanup_late record drained cleanupErr) (λ _, idle) h.
Proof.
  intros Hi Hd. unfold cleanup_late. apply wp_bind, wp_call; [done|]. cbn [rel]. intros _ h' ->.
  apply wp_bind, wp_call; [done|]. cbn [rel]. intros late h' ->. apply wp_bind.
  assert (Hk : ∀ err h, idle h → (drained = true → drained_ok h) →
    lwp claim (let! epochErr := (if drained then call ReleaseLease else call StopRenewal) in
               let! _ := call ClearIdentity in Ret (errors_Join [err; epochErr])) (λ _, idle) h).
  { clear h Hi Hd. intros err h Hi Hd. apply wp_bind.
    destruct drained; (apply wp_call; [try done; by apply Hd|]); cbn [rel]; intros epochErr h' ->;
      (apply wp_bind, wp_call; [done|]); cbn [rel]; intros _ h' ->; by apply wp_ret. }
  lwp_branch; [|by apply wp_ret, Hk].
  apply wp_bind, wp_call; [done|]. cbn [rel]. intros err h' ->. by apply wp_ret, Hk.
Qed.

Lemma wp_cleanup_end claim startupErr record lateDrain drained (f : option error → option error → option error) h :
  idle h → (drained = true → drained_ok h) →
  lwp claim (let! networkErr := call StopNetwork in
    let! _ := call ClearIdentity in
    let! epochErr := (if drained && is_nil startupErr then call ReleaseLease else Ret None) in
    let! cleanupErr := (if negb (is_nil startupErr)
                        then cleanup_late record drained (f networkErr epochErr)
                        else Ret (f networkErr epochErr)) in
    if lateDrain : bool then
      let! err := call WaitDrain in Ret (errors_Join [cleanupErr; err])
    else Ret cleanupErr) returned h.
Proof.
  intros Hi Hd. apply wp_bind, wp_call; [done|]. cbn [rel]. intros networkErr h' ->.
  apply wp_bind, wp_call; [done|]. cbn [rel]. intros _ h' ->. apply wp_bind.
  assert (Hk : ∀ err h, idle h → (drained = true → drained_ok h) →
    lwp claim (let! cleanupErr := (if negb (is_nil startupErr) then cleanup_late record drained err else Ret err) in
      if lateDrain : bool then let! err := call WaitDrain in Ret (errors_Join [cleanupErr; err])
      else Ret cleanupErr) returned h).
  { clear h Hi Hd. intros err h Hi Hd. apply wp_bind.
    assert (He : ∀ err h, idle h → lwp claim
      (if lateDrain then let! err' := call WaitDrain in Ret (errors_Join [err; err']) else Ret err) returned h).
    { clear h Hi Hd. intros err' h Hi. lwp_branch; [|by apply wp_ret].
      apply wp_bind, wp_call; [done|]. cbn [rel]. intros e h' ->. by apply wp_ret. }
    lwp_branch; [by apply wp_ret, He|].
    eapply wp_mono; [|by apply wp_cleanup_late]. intros; by apply He. }
  lwp_branch; [|by apply wp_ret, Hk]. to_prop. apply wp_call; [by apply Hd|]. cbn [rel]. intros e h' ->. by apply Hk.
Qed.

Lemma wp_cleanup claim t : lwp claim (cleanup t) returned hist0.
Proof.
  unfold cleanup. apply wp_bind, wp_call; [done|]. cbn [rel]. intros startupErr h ->.
  apply wp_bind, wp_call; [done|]. cbn [rel]. intros record h ->. apply wp_bind.
  assert (Hk : ∀ registrationErr h, idle h → lwp claim (
    let! requestErr := call (StopAndWait Requests) in
    let! d := (if is_nil requestErr && drain
               then let! r := call Drain in
                    Ret (match r with Drained err => (err, false) | DrainLate err => (Some err, true) end)
               else Ret (None, false)) in
    let '(drainErr, lateDrain) := d in
    let! deliveryErr := call (StopAndWait Deliveries) in
    let drained := is_nil requestErr && is_nil drainErr && is_nil deliveryErr in
    let! renewalErr := (if negb drained || negb (is_nil startupErr) then call StopRenewal else Ret None) in
    let! networkErr := call StopNetwork in
    let! _ := call ClearIdentity in
    let! epochErr := (if drained && is_nil startupErr then call ReleaseLease else Ret None) in
    let cleanupErr := errors_Join [startupErr; registrationErr; requestErr; drainErr; deliveryErr;
                                   renewalErr; networkErr; epochErr] in
    let! cleanupErr := (if negb (is_nil startupErr) then cleanup_late record drained cleanupErr
                        else Ret cleanupErr) in
    if lateDrain : bool then let! err := call WaitDrain in Ret (errors_Join [cleanupErr; err])
    else Ret cleanupErr) returned h).
  { intros registrationErr h Hi. apply wp_bind, wp_call; [done|]. cbn [rel]. intros requestErr h1 Hr.
    apply wp_bind.
    (* after the drain: what is known of it *)
    set (Q := λ (d : option error * bool) h2, idle h2 ∧
      (requestErr = None → quiet_r h2 = true) ∧ (requestErr = None → d.1 = None → drain = true → quiet_b h2 = true)).
    apply (wp_mono _ _ _ Q).
    - intros [drainErr lateDrain] h2 (Hi2 & Hq & Hb). simpl in *. apply wp_bind, wp_call; [done|]. cbn [rel].
      intros deliveryErr h3 Hd. cbv zeta.
      assert (Hdr : idle h3 ∧ (is_nil requestErr && is_nil drainErr && is_nil deliveryErr = true → drained_ok h3)).
      { destruct deliveryErr; simpl in Hd; subst h3; split; try done; [by rewrite andb_false_r|].
        intros Hall. to_prop. destruct requestErr, drainErr; try done. repeat split; simpl; auto. }
      destruct Hdr as [Hi3 Hdr]. apply wp_bind.
      lwp_branch; [apply wp_call; [done|]; cbn [rel]; intros renewalErr h4 ->|apply wp_ret].
      all: by eapply (wp_cleanup_end _ _ _ _ _ (λ n e, errors_Join [_; _; _; _; _; _; n; e])).
    - assert (Hi1 : idle h1 ∧ (requestErr = None → quiet_r h1 = true)) by (subst h1; by destruct requestErr).
      destruct Hi1 as [Hi1 Hq1]. lwp_branch.
      + to_prop. apply wp_bind, wp_call; [done|]. cbn [rel]. intros r h2 Hr2. apply wp_ret. unfold Q.
        by destruct r as [[e|]|e]; simpl in *; subst h2.
      + apply wp_ret. unfold Q. split_and!; simpl; try done. intros -> _ Hdr. by rewrite Hdr in *. }
  lwp_branch; [|by apply wp_ret, Hk]. apply wp_call; [done|]. cbn [rel]. intros e h ->. by apply Hk.
Qed.
End Lifecycle.
