(* ===== verification/NodeSystem.v ===== *)
(** * A node as a whole

    The server of [node/server.go] and [node/lifecycle.go]: its shared state,
    what each call of the programs of [Node] and [NodeLifecycle] does to it and
    to the epoch lease, and the system of all requests, session calls, starts,
    stops and the cleanup of one process over the lease of [Epoch]. *)

From S2P Require Import Prelude Errors Prog Proto Locate Redis GateLocator Admission EpochStore Epoch Node NodeLifecycle.

(** ** The server's shared state *)

Inductive lifecycleState := StNew | StStarting | StStarted.
#[export] Instance lifecycleState_eq_dec : EqDecision lifecycleState.
Proof. solve_decision. Defined.

Record Server := mkServer {
  requests : requestAdmission;
  deliveries : requestAdmission;
  lstate : lifecycleState;
  startupDone : option bool;                  (* nil, open or closed *)
  startupCanceled : bool;
  fatal : option error;                       (* cause of fatalCtx *)
  published : option nodeIdentity;
  registration : bool;
  serving : bool;                             (* health status *)
  cleanup_once : option Z;                    (* cleanupOnce, with the timeout *)
}.
#[export] Instance eta_Server : Eta Server := λ s,
  mkServer (requests s) (deliveries s) (lstate s) (startupDone s) (startupCanceled s) (fatal s)
    (published s) (registration s) (serving s) (cleanup_once s).

Definition NewServer : Server :=
  mkServer zero_admission zero_admission StNew None false None None false false None.

Definition beginStopping (s : Server) : Server :=
  let s := s <| requests := Admission.close (requests s) |> <| serving := false |> in
  match startupDone s with Some _ => s <| startupCanceled := true |> | None => s end.

Definition startCleanup (timeout : Z) (s : Server) : Server :=
  let s := beginStopping s in
  match cleanup_once s with Some _ => s | None => s <| cleanup_once := Some timeout |> end.

(** [fatalCancel]: the first cause stays. *)
Definition fatalCancel (err : option error) (s : Server) : Server :=
  match fatal s with
  | Some _ => s
  | None => s <| fatal := Some (default (ESentinel CtxCanceled) err) |>
  end.

Definition failLifecycle (cleanupTimeout shutdownTimeout : Z) (err : option error) (s : Server) : Server :=
  let s := beginStopping s in
  let s := s <| deliveries := Admission.close (deliveries s) |> in
  let s := fatalCancel err s in
  startCleanup (if decide (lstate s = StStarted) then shutdownTimeout else cleanupTimeout) s.

Definition begin_start (s : Server) : Server * start_state :=
  if Admission.isClosed (requests s) then (s, StartClosed)
  else match lstate s with
       | StStarted => (s, StartStarted)
       | StStarting => (s, StartStarting)
       | StNew => (s <| startupDone := Some false |> <| lstate := StStarting |>, StartNew)
       end.

Definition open_server (s : Server) : Server :=
  s <| lstate := StStarted |> <| deliveries := Admission.open (deliveries s) |>
    <| requests := Admission.open (requests s) |> <| serving := true |>.

Definition admission (g : gate) (s : Server) : requestAdmission :=
  match g with Requests => requests s | Deliveries => deliveries s end.

Definition set_admission (g : gate) (a : requestAdmission) (s : Server) : Server :=
  match g with Requests => s <| requests := a |> | Deliveries => s <| deliveries := a |> end.

(** ** node/register.go

    [None] is a panic. *)

Definition registering (s : Server) : bool :=
  bool_decide (lstate s = StNew) && negb (Admission.isClosed (requests s)).

Definition RegisterRawHandler {H} (s : Server) (cmd : Z) (handler : option H) (hs : gmap Z H) : option (gmap Z H) :=
  match handler with
  | None => None
  | Some h =>
      if negb (registering s) then None
      else match hs !! cmd with
           | Some _ => None
           | None => Some (<[cmd := h]> hs)
           end
  end.

Definition OnDisconnect {H} (s : Server) (handler : option H) : option (option H) :=
  if negb (registering s) then None else Some handler.

(** [unary]: the protobuf runtime and the middleware chain are parameters; a
    reply that is no valid message is [None]. *)
Definition unary {Req Rep} (Unmarshal : bytes → result Req) (next : context → Req → result (option Rep))
    (Marshal : Rep → result bytes) (ctx : context) (body : bytes) : result bytes :=
  match Unmarshal body with
  | Err err => Err (EKratos 400 "INVALID_REQUEST" "decode request" [err])
  | Ok request =>
      match next ctx request with
      | Err err => Err err
      | Ok None => Err (EKratos 500 "INVALID_REPLY" "invalid reply" [])
      | Ok (Some message) =>
          match Marshal message with
          | Err err => Err (EKratos 500 "INVALID_REPLY" "encode reply" [err])
          | Ok replyBody => Ok replyBody
          end
      end
  end.

(** ** The system *)

Section System.
Context `{E : EpochStore} `{EL : !EpochStoreLaws E}.
Context (srv : Z → Z) (self : nodeIdentity) (stateful : bool).
Context (handlers : Z → bool) (onDisconnect has_directory has_done drain : bool)
        (pushTimeout cleanupTimeout shutdownTimeout : Z).

Abbreviation epoch_step := (Epoch.step srv (serviceName self) (nodeID self) (epoch self)).

(** The owner of the node in the store, now. *)
Definition owner_now (ep : Epoch.sys) : option entry :=
  owner (Epoch.store ep) (srv (Epoch.time ep)) (serviceName self) (nodeID self).

(** What a call does to the lease and the server. *)
Definition act (e : eff) : ans e → Epoch.sys → Server → Epoch.sys → Server → Prop :=
  match e return ans e → Epoch.sys → Server → Epoch.sys → Server → Prop with
  | Admit g => λ ok ep s ep' s', ep' = ep ∧
      s' = set_admission g (Admission.admit_ (admission g s)).1 s ∧ ok = (Admission.admit_ (admission g s)).2
  | Finish g => λ _ ep s ep' s', ep' = ep ∧ s' = set_admission g (Admission.done (admission g s)) s
  | Identity => λ id ep s ep' s', ep' = ep ∧ s' = s ∧ id = published s
  | Valid => λ err ep s ep' s', s' = s ∧
      ∃ l, Epoch.valid (Epoch.time ep) (Epoch.lease ep) = (l, err) ∧ ep' = ep <| Epoch.lease := l |>
  | RequestContext c => λ c' ep s ep' s', s' = s ∧
      (∃ l err, Epoch.requestContext (Epoch.time ep) None (Epoch.lease ep) = (l, err) ∧
                ep' = ep <| Epoch.lease := l |>) ∧
      c' = c <| leased := leased c || bool_decide (is_Some (Epoch.lease ep)) |>
  | LoseOwnership err => λ cs ep s ep' s', s' = s ∧
      ∃ e e', Epoch.lease ep = Some e ∧ Epoch.loseOwnership err e = (e', cs) ∧
              ep' = ep <| Epoch.lease := Some e' |>
  | FailLifecycle err => λ _ ep s ep' s', ep' = ep ∧ s' = failLifecycle cleanupTimeout shutdownTimeout err s
  | Write _ _ _ _ _ _ => λ _ ep s ep' s', s' = s ∧
      ∃ d, es_env (srv (Epoch.time ep)) (serviceName self) (nodeID self) (epoch self) (Epoch.store ep) d ∧
           ep' = ep <| Epoch.store := d |>
  | ClaimEpoch => λ r ep s ep' s', ep' = ep ∧ s' = s ∧
      match r with Ok id => id = self ∧ Epoch.lease ep ≠ None | Err _ => True end
  | BeginStart => λ st ep s ep' s', ep' = ep ∧ (s', st) = begin_start s
  | IsClosed => λ b ep s ep' s', ep' = ep ∧ s' = s ∧ b = Admission.isClosed (requests s)
  | PublishIdentity id => λ _ ep s ep' s', ep' = ep ∧ s' = s <| published := Some id |>
  | ClearIdentity => λ _ ep s ep' s', ep' = ep ∧ s' = s <| published := None |>
  | SetRegistration => λ _ ep s ep' s', ep' = ep ∧ s' = s <| registration := true |>
  | Open => λ _ ep s ep' s', ep' = ep ∧ s' = open_server s
  | EndStartup => λ _ ep s ep' s', ep' = ep ∧
      s' = s <| startupDone := Some true |> <| startupCanceled := true |>
  | Fatal => λ err ep s ep' s', ep' = ep ∧ s' = s ∧ err = fatal s
  | Select registered => λ ev ep s ep' s', ep' = ep ∧ s' = s ∧
      match ev with
      | RegistrationLost => registered = true
      | FatalError => fatal s ≠ None
      | Served _ => True
      end
  | StartCleanup t => λ _ ep s ep' s', ep' = ep ∧ s' = startCleanup t s
  | WaitStartup t => λ err ep s ep' s', ep' = ep ∧ s' = s ∧ (err = None ∨ t = None → startupDone s ≠ Some false)
  | Registered => λ b ep s ep' s', ep' = ep ∧ s' = s ∧ b = registration s
  | StopAndWait g => λ err ep s ep' s', ep' = ep ∧
      s' = set_admission g (Admission.close (admission g s)) s ∧
      (err = None → Admission.active (admission g s) = 0)
  | ReleaseLease => λ _ ep s ep' s', s' = s ∧
      match Epoch.lease ep with
      | None => ep' = ep
      | Some _ => ∃ p, Epoch.stoppers ep !! p = None ∧ ep' = Epoch.set_stopper ep p (Epoch.SCancel true)
      end
  | LocateNode _ _ _ | LocateGate _ _ _ | GatePush _ _ _ _ | Handle _ _ _ _ | HandleDisconnect _ _
  | PrepareEndpoint | Ping | StartupError | StartLease | StartGRPC | Register | RegistrationDone
  | WaitCleanup | Deregister | Drain | WaitDrain | StopRenewal | StopNetwork =>
      λ _ ep s ep' s', ep' = ep ∧ s' = s
  end.

(** The history a call leaves; [o] is the owner of the node at the call. *)
Definition record (o : option entry) (e : eff) : ans e → hist → hist :=
  match e return ans e → hist → hist with
  | Admit g => λ ok h, if ok then (held g 1 h) <| ready := true |> else h
  | Finish g => λ _ h, held g (-1) h
  | Identity => λ id h, match id with Some _ => h <| ready := true |> | None => h end
  | Valid => λ err h, match err with Some _ => blocked h | None => h <| fence := Some o |> end
  | LocateNode _ svc uid => λ r h,
      (blocked h) <| located := match r with Ok node => Some (svc, uid, node) | Err _ => None end |>
  | ClaimEpoch => λ r h, match r with Ok _ => (blocked h) <| ready := true |> | Err _ => blocked h end
  | StopAndWait g => λ err h, match err with None => quiet g (blocked h) | Some _ => blocked h end
  | Drain => λ r h, match r with Drained None => (blocked h) <| quiet_b := true |> | _ => blocked h end
  | RequestContext _ | LoseOwnership _ | FailLifecycle _ | IsClosed | StartupError | SetRegistration
  | RegistrationDone | Open | EndStartup | Fatal | BeginStart | Registered | PublishIdentity _ | ClearIdentity
  | StartCleanup _ => λ _ h, h
  | _ => λ _ h, blocked h
  end.

Record thread := mkThread { claim_of : stickyClaim; body : nprog unit; hist_of : hist }.

Record node := mkNode {
  ep : Epoch.sys;
  server : Server;
  threads : gmap nat thread;
  cleaning : bool;                           (* the cleanup goroutine was started *)
}.
#[export] Instance eta_node : Eta node := λ n, mkNode (ep n) (server n) (threads n) (cleaning n).

Definition run {A} (p : nprog A) : nprog unit := pbind p (λ _, Ret tt).

Definition no_claim : stickyClaim := mkClaim EmptyString EmptyString.

(** What a goroutine of the process may run. *)
Inductive entry_point : stickyClaim → nprog unit → Prop :=
| ep_forward c req :
    entry_point (match req with Some r => mkClaim (f_NodeId r) (f_NodeEpoch r) | None => no_claim end)
      (run (Forward handlers stateful c req))
| ep_disconnect c req : entry_point no_claim (run (Disconnect onDisconnect c req))
| ep_write w b c : entry_point no_claim (run (writeBinding stateful w b c))
| ep_push_uid c uid cmd msg : entry_point no_claim (run (PushToUID has_directory pushTimeout c uid cmd msg))
| ep_push b c cmd msg : entry_point no_claim (run (Push pushTimeout b c cmd msg))
| ep_start app :
    (stateful = false → ∀ name id, app = Some (name, id) → self = mkIdentity name id EmptyString) →
    entry_point no_claim (run (Start stateful has_done cleanupTimeout shutdownTimeout app))
| ep_stop : entry_point no_claim (run (Stop shutdownTimeout)).

Definition init_node (n : node) : Prop :=
  Epoch.init_sys (ep n) ∧ server n = NewServer ∧ threads n = ∅ ∧ cleaning n = false.

Inductive step (n : node) : node → Prop :=
| no_epoch ep' :
    stateful = true → epoch_step (ep n) ep' →
    (∀ p, Epoch.stoppers ep' !! p = Some (Epoch.SCancel true) →
          Epoch.stoppers (ep n) !! p = Some (Epoch.SCancel true)) →
    step n (n <| ep := ep' |>)
| no_spawn p claim prog :
    threads n !! p = None → entry_point claim prog →
    step n (n <| threads := <[p := mkThread claim prog hist0]> (threads n) |>)
| no_cleanup p t :
    threads n !! p = None → cleaning n = false → cleanup_once (server n) = Some t →
    step n (n <| threads := <[p := mkThread no_claim (run (cleanup drain t)) hist0]> (threads n) |>
              <| cleaning := true |>)
| no_act p claim e k x h ep' s' :
    threads n !! p = Some (mkThread claim (Act e k) h) →
    act e x (ep n) (server n) ep' s' →
    step n (n <| ep := ep' |> <| server := s' |>
              <| threads := <[p := mkThread claim (k x) (record (owner_now ep') e x h)]> (threads n) |>).

Definition reach : node → Prop := reachable init_node step.

(** ** Executable runs

    [perform] answers a call when the answer given is one it may have, so that a
    run is a list of goroutines and answers. *)

Inductive answer :=
| ANo                                      (* no answer, or nil *)
| AYes
| AErr (err : error)
| AStr (v : string)
| AId (id : nodeIdentity).

Definition answer_err (a : answer) : option (option error) :=
  match a with ANo => Some None | AErr e => Some (Some e) | _ => None end.

Definition perform (e : eff) : answer → Epoch.sys → Server → option (ans e * Epoch.sys * Server) :=
  match e return answer → Epoch.sys → Server → option (ans e * Epoch.sys * Server) with
  | Admit g => λ _ ep s, Some ((Admission.admit_ (admission g s)).2, ep,
                               set_admission g (Admission.admit_ (admission g s)).1 s)
  | Finish g => λ _ ep s, Some (tt, ep, set_admission g (Admission.done (admission g s)) s)
  | Identity => λ _ ep s, Some (published s, ep, s)
  | Valid => λ _ ep s, let v := Epoch.valid (Epoch.time ep) (Epoch.lease ep) in
                       Some (v.2, ep <| Epoch.lease := v.1 |>, s)
  | RequestContext c => λ _ ep s,
      let v := Epoch.requestContext (Epoch.time ep) None (Epoch.lease ep) in
      Some (c <| leased := leased c || bool_decide (is_Some (Epoch.lease ep)) |>, ep <| Epoch.lease := v.1 |>, s)
  | FailLifecycle err => λ _ ep s, Some (tt, ep, failLifecycle cleanupTimeout shutdownTimeout err s)
  | LocateNode _ _ _ => λ a ep s, match a with AStr v => Some (Ok v, ep, s) | AErr e => Some (Err e, ep, s) | _ => None end
  | ClaimEpoch => λ a ep s,
      match a, Epoch.lease ep with
      | AErr e, _ => Some (Err e, ep, s)
      | AYes, Some _ => Some (Ok self, ep, s)
      | _, _ => None
      end
  | BeginStart => λ _ ep s, Some ((begin_start s).2, ep, (begin_start s).1)
  | IsClosed => λ _ ep s, Some (Admission.isClosed (requests s), ep, s)
  | PublishIdentity id => λ _ ep s, Some (tt, ep, s <| published := Some id |>)
  | ClearIdentity => λ _ ep s, Some (tt, ep, s <| published := None |>)
  | SetRegistration => λ _ ep s, Some (tt, ep, s <| registration := true |>)
  | Open => λ _ ep s, Some (tt, ep, open_server s)
  | EndStartup => λ _ ep s, Some (tt, ep, s <| startupDone := Some true |> <| startupCanceled := true |>)
  | Fatal => λ _ ep s, Some (fatal s, ep, s)
  | StartCleanup t => λ _ ep s, Some (tt, ep, startCleanup t s)
  | WaitStartup t => λ _ ep s, match startupDone s with Some false => None | _ => Some (None, ep, s) end
  | Registered => λ _ ep s, Some (registration s, ep, s)
  | StopAndWait g => λ _ ep s,
      if Admission.active (admission g s) =? 0
      then Some (None, ep, set_admission g (Admission.close (admission g s)) s) else None
  | ReleaseLease => λ a ep s,
      match answer_err a, Epoch.lease ep with
      | Some err, Some _ =>
          match Epoch.stoppers ep !! 0%nat with
          | None => Some (err, Epoch.set_stopper ep 0 (Epoch.SCancel true), s)
          | Some _ => None
          end
      | Some err, None => Some (err, ep, s)
      | None, _ => None
      end
  | PrepareEndpoint | Ping | StartupError | StartLease | StartGRPC | Register
  | WaitCleanup | Deregister | WaitDrain | StopRenewal | StopNetwork => λ a ep s,
      match answer_err a with Some err => Some (err, ep, s) | None => None end
  | RegistrationDone => λ a ep s, match a with AYes => Some (true, ep, s) | ANo => Some (false, ep, s) | _ => None end
  | Drain => λ a ep s, match answer_err a with Some err => Some (Drained err, ep, s) | None => None end
  | _ => λ _ _ _, None
  end.

Fixpoint execute (script : list (nat * answer)) (n : node) : option node :=
  match script with
  | [] => Some n
  | (p, a) :: script =>
      match threads n !! p with
      | Some (mkThread claim (Act e k) h) =>
          match perform e a (ep n) (server n) with
          | Some (x, ep', s') =>
              execute script
                (mkNode ep' s' (<[p := mkThread claim (k x) (record (owner_now ep') e x h)]> (threads n)) (cleaning n))
          | None => None
          end
      | _ => None
      end
  end.

Lemma perform_act e a ep0 s x ep1 s' : perform e a ep0 s = Some (x, ep1, s') → act e x ep0 s ep1 s'.
Proof.
  destruct e; simpl; intros H; try done; repeat case_match; simplify_eq; try done.
  - split; [done|]. eexists. split; [apply surjective_pairing|done].
  - split_and!; [done| |done]. eexists _, _. split; [apply surjective_pairing|done].
  - split; [done|]. symmetry. apply surjective_pairing.
  - split_and!; try done. intros _. by apply Z.eqb_eq.
  - split; [done|]. eauto.
Qed.

Lemma execute_reach script n n' : reach n → execute script n = Some n' → reach n'.
Proof.
  revert n. induction script as [|[p a] script IH]; intros n Hr Hx; simpl in Hx; [by simplify_eq|].
  destruct (threads n !! p) as [[claim [|e k] h]|] eqn:Hp; try done.
  destruct (perform e a (ep n) (server n)) as [[[x ep'] s']|] eqn:Hpf; [|done].
  eapply IH; [|exact Hx]. eapply reach_to; [exact Hr|by eapply no_act, perform_act|reflexivity].
Qed.

(** ** What calls change *)

Definition same_gate (g g' : gate) : bool :=
  match g, g' with Requests, Requests | Deliveries, Deliveries => true | _, _ => false end.

Definition held_of (g : gate) (h : hist) : Z := match g with Requests => held_r h | Deliveries => held_d h end.
Definition quiet_of (g : gate) (h : hist) : bool := match g with Requests => quiet_r h | Deliveries => quiet_d h end.

(** The admissions a call takes or gives back. *)
Definition delta (g : gate) (e : eff) : ans e → Z :=
  match e return ans e → Z with
  | Admit g' => λ ok, if same_gate g g' && ok then 1 else 0
  | Finish g' => λ _, if same_gate g g' then -1 else 0
  | _ => λ _, 0
  end.

(** The call shows that the server has its lease. *)
Definition shows_ready (e : eff) : ans e → bool :=
  match e return ans e → bool with
  | Admit _ => λ ok, ok
  | Identity => λ id, match id with Some _ => true | None => false end
  | ClaimEpoch => λ r, match r with Ok _ => true | Err _ => false end
  | _ => λ _, false
  end.

(** The call shows that an admission is drained. *)
Definition shows_quiet (g : gate) (e : eff) : ans e → bool :=
  match e return ans e → bool with
  | StopAndWait g' => λ err, same_gate g g' && match err with None => true | Some _ => false end
  | _ => λ _, false
  end.

Definition opens (e : eff) : bool := match e with Open => true | _ => false end.

(** Case analysis on the call, its answer and the admissions involved. *)
Ltac by_call e x :=
  destruct e; simpl in *;
  repeat match goal with
         | g : gate |- _ => destruct g; simpl in *
         end;
  try (by auto); try lia;
  destruct x; simpl in *; repeat case_match; simpl in *; try (by auto); try lia.

Lemma held_record g o e x h : held_of g (record o e x h) = held_of g h + delta g e x.
Proof. by_call e x. Qed.

Lemma ready_record o e x h : ready (record o e x h) = true → ready h = true ∨ shows_ready e x = true.
Proof. by_call e x. Qed.

Lemma quiet_record g o e x h :
  quiet_of g (record o e x h) = true → quiet_of g h = true ∨ shows_quiet g e x = true.
Proof. by_call e x. Qed.

Abbreviation state_of g s := (Admission.state (admission g s)).
Abbreviation active_of g s := (Admission.active (admission g s)).

(** *** Functions of the server and its admissions *)

Lemma done_active a : Admission.active (Admission.done a) = Admission.active a - 1 ∧
  Admission.state (Admission.done a) = Admission.state a.
Proof.
  unfold Admission.done; simpl. case_match; [|done]. unfold Admission.close_drained; simpl.
  by destruct (Admission.drained a).
Qed.

Lemma admit_effect a :
  (Admission.admit_ a).2 = true ∧ Admission.state a = Admission.Open ∧
    Admission.active (Admission.admit_ a).1 = Admission.active a + 1 ∧ Admission.state (Admission.admit_ a).1 = Admission.Open
  ∨ (Admission.admit_ a).2 = false ∧ (Admission.admit_ a).1 = a.
Proof. unfold Admission.admit_. case_decide; simpl; auto. Qed.

Lemma open_effect a :
  Admission.active (Admission.open a) = Admission.active a ∧
  (Admission.state a = Closed → Admission.state (Admission.open a) = Closed).
Proof. unfold Admission.open. case_decide; simpl; [|done]. split; [done|congruence]. Qed.

Lemma beginStopping_admission g s :
  active_of g (beginStopping s) = active_of g s ∧
  (state_of g s = Closed → state_of g (beginStopping s) = Closed) ∧
  (state_of g (beginStopping s) = Admission.Open → state_of g s = Admission.Open) ∧ published (beginStopping s) = published s.
Proof. unfold beginStopping. destruct g; simpl; destruct (startupDone s); simpl; done. Qed.

Lemma startCleanup_admission g t s :
  active_of g (startCleanup t s) = active_of g s ∧
  (state_of g s = Closed → state_of g (startCleanup t s) = Closed) ∧
  (state_of g (startCleanup t s) = Admission.Open → state_of g s = Admission.Open) ∧ published (startCleanup t s) = published s.
Proof.
  pose proof (beginStopping_admission g s) as H. unfold startCleanup.
  destruct (cleanup_once (beginStopping s)); destruct g; done.
Qed.

Lemma failLifecycle_admission g t1 t2 err s :
  active_of g (failLifecycle t1 t2 err s) = active_of g s ∧
  (state_of g s = Closed → state_of g (failLifecycle t1 t2 err s) = Closed) ∧
  (state_of g (failLifecycle t1 t2 err s) = Admission.Open → state_of g s = Admission.Open) ∧
  published (failLifecycle t1 t2 err s) = published s.
Proof.
  unfold failLifecycle. set (s1 := beginStopping s).
  pose proof (beginStopping_admission g s) as H1. fold s1 in H1.
  set (s2 := fatalCancel err (s1 <| deliveries := Admission.close (deliveries s1) |>)).
  assert (H2 : active_of g s2 = active_of g s1 ∧ (state_of g s1 = Closed → state_of g s2 = Closed) ∧
               (state_of g s2 = Admission.Open → state_of g s1 = Admission.Open) ∧ published s2 = published s1).
  { unfold s2, fatalCancel. destruct (fatal _); destruct g; simpl; done. }
  set (t := if decide _ then _ else _). pose proof (startCleanup_admission g t s2) as H3.
  destruct H1 as (?&?&?&?), H2 as (?&?&?&?), H3 as (?&?&?&?). split_and!; auto; congruence.
Qed.

Lemma set_admission_same g a s : admission g (set_admission g a s) = a.
Proof. by destruct g. Qed.

Lemma set_admission_other g g' a s : same_gate g g' = false → admission g (set_admission g' a s) = admission g s.
Proof. by destruct g, g'. Qed.

Lemma same_gate_eq g g' : same_gate g g' = true → g = g'.
Proof. by destruct g, g'. Qed.

Lemma set_admission_published g a s : published (set_admission g a s) = published s.
Proof. by destruct g. Qed.

(** *** What a call does to the admissions and to the published identity *)

Definition server_effect (e : eff) (x : ans e) (s s' : Server) (g : gate) : Prop :=
  active_of g s' = active_of g s + delta g e x ∧
  (state_of g s = Closed → state_of g s' = Closed) ∧
  (state_of g s' = Admission.Open → state_of g s = Admission.Open ∨ opens e = true) ∧
  (delta g e x = 1 → state_of g s = Admission.Open) ∧
  (shows_quiet g e x = true → state_of g s' = Closed ∧ active_of g s' = 0).

Lemma effect_same e x s g :
  delta g e x = 0 → shows_quiet g e x = false → server_effect e x s s g.
Proof. intros Hd Hq. unfold server_effect. rewrite Hd, Hq. split_and!; auto; lia || done. Qed.

Lemma effect_admission e x s s' g :
  delta g e x = 0 → shows_quiet g e x = false →
  active_of g s' = active_of g s → (state_of g s = Closed → state_of g s' = Closed) →
  (state_of g s' = Admission.Open → state_of g s = Admission.Open) →
  server_effect e x s s' g.
Proof. intros Hd Hq Ha Hc Ho. unfold server_effect. rewrite Hd, Hq. split_and!; auto; lia || done. Qed.

Lemma act_server e x ep0 s ep1 s' g : act e x ep0 s ep1 s' → server_effect e x s s' g.
Proof.
  intros Ha. destruct e; cbn [act] in Ha.
  (* calls that leave the server alone *)
  all: try (destruct Ha as [_ ->]; by apply effect_same).
  all: try (destruct Ha as [-> _]; by apply effect_same).
  all: try (destruct Ha as (_ & -> & _); by apply effect_same).
  - destruct Ha as (_ & -> & ->). destruct (same_gate g g0) eqn:Eg.
    + apply same_gate_eq in Eg as ->. unfold server_effect. rewrite set_admission_same.
      destruct (admit_effect (admission g0 s)) as [(E1 & E2 & E3 & E4)|[E1 E2]]; rewrite ?E1, ?E2, ?E3, ?E4;
        destruct g0; simpl; split_and!; auto; (lia || done).
    + unfold server_effect. rewrite set_admission_other by done. simpl. rewrite Eg. simpl. split_and!; auto; lia || done.
  - destruct Ha as (_ & ->). destruct (done_active (admission g0 s)) as [D1 D2]. destruct (same_gate g g0) eqn:Eg.
    + apply same_gate_eq in Eg as ->. unfold server_effect. rewrite set_admission_same, D1, D2.
      destruct g0; simpl; split_and!; auto; (lia || done).
    + unfold server_effect. rewrite set_admission_other by done. simpl. rewrite Eg. simpl. split_and!; auto; lia || done.
  - destruct Ha as (_ & ->). apply effect_admission; [done..| | |]; apply failLifecycle_admission.
  - destruct Ha as (_ & Eb). unfold begin_start in Eb. repeat case_match; simplify_eq; try by apply effect_same.
    by apply effect_admission; destruct g.
  - destruct Ha as (_ & ->). by apply effect_admission; destruct g.
  - destruct Ha as (_ & ->). by apply effect_admission; destruct g.
  - destruct Ha as (_ & ->). by apply effect_admission; destruct g.
  - destruct Ha as (_ & ->).
    destruct (open_effect (admission g s)) as [O1 O2]. unfold server_effect.
    destruct g; simpl in *; split_and!; auto; (lia || done).
  - destruct Ha as (_ & ->). by apply effect_admission; destruct g.
  - destruct Ha as (_ & ->). apply effect_admission; [done..| | |]; apply startCleanup_admission.
  - destruct Ha as (_ & -> & Hn). destruct (same_gate g g0) eqn:Eg.
    + apply same_gate_eq in Eg as ->. unfold server_effect. rewrite set_admission_same.
      destruct g0; simpl in *; split_and!; auto; try lia; try done; destruct x; simpl; (done || auto).
    + unfold server_effect. rewrite set_admission_other by done. simpl. rewrite Eg. simpl. split_and!; auto; lia || done.
Qed.

(** The published identity changes only when it is published or cleared. *)
Lemma act_published e x ep0 s ep1 s' :
  act e x ep0 s ep1 s' →
  published s' = published s ∨ published s' = None ∨ ∃ id, e = PublishIdentity id ∧ published s' = Some id.
Proof.
  intros Ha. destruct e; cbn [act] in Ha.
  all: try (destruct Ha as [_ ->]; by left).
  all: try (destruct Ha as [-> _]; by left).
  all: try (destruct Ha as (_ & -> & _); by left).
  - destruct Ha as (_ & -> & _). left. apply set_admission_published.
  - destruct Ha as (_ & ->). left. apply set_admission_published.
  - destruct Ha as (_ & ->). left. apply (failLifecycle_admission Requests).
  - destruct Ha as (_ & Eb). unfold begin_start in Eb. repeat case_match; simplify_eq; by left.
  - destruct Ha as (_ & ->). right; right. eauto.
  - destruct Ha as (_ & ->). right; by left.
  - destruct Ha as (_ & ->). left. apply (startCleanup_admission Requests).
  - destruct Ha as (_ & -> & _). left. apply set_admission_published.
Qed.

(** ** What a call does to the lease *)

Abbreviation epoch_reach := (Epoch.reach srv (serviceName self) (nodeID self) (epoch self)).

Lemma act_epoch e x ep0 s ep1 s' :
  act e x ep0 s ep1 s' → epoch_reach ep0 →
  epoch_reach ep1 ∧ (Epoch.lease ep0 ≠ None → Epoch.lease ep1 ≠ None) ∧
  (Epoch.releasing ep1 → Epoch.releasing ep0 ∨ e = ReleaseLease).
Proof.
  intros Ha Hr.
  assert (Hstep : ∀ ep2, epoch_step ep0 ep2 → epoch_reach ep2 ∧ (Epoch.lease ep0 ≠ None → Epoch.lease ep2 ≠ None)).
  { intros ep2 Hs. split; [by eapply reach_step|]. intros Hl. eapply Epoch.lease_stays; [|done..].
    by eapply Epoch.ctl_reach. }
  destruct e; cbn [act] in Ha.
  all: try (destruct Ha as [-> _]; by auto).
  all: try (destruct Ha as (_ & -> & _); by auto).
  - destruct Ha as (_ & l & Hv & ->). destruct (Hstep (ep0 <| Epoch.lease := l |>)); [|by auto].
    eapply Epoch.st_env, Epoch.en_valid. exact Hv.
  - destruct Ha as (_ & (l & err & Hv & ->) & _).
    destruct (Hstep (ep0 <| Epoch.lease := l |>)); [|by auto].
    unfold Epoch.requestContext in Hv. destruct (Epoch.lease ep0) as [e|] eqn:He.
    + destruct (Epoch.valid (Epoch.time ep0) (Some e)) as [l' err'] eqn:Hv'. simplify_eq.
      eapply Epoch.st_env, Epoch.en_valid. rewrite He. exact Hv'.
    + simplify_eq. eapply Epoch.st_env, (Epoch.en_valid _ _ _ _ _ None None). by rewrite He.
  - destruct Ha as (_ & e & e' & He & Hl & ->). destruct (Hstep (ep0 <| Epoch.lease := Some e' |>)); [|by auto].
    by eapply Epoch.st_env, Epoch.en_lose.
  - destruct Ha as (_ & d & Hd & ->). destruct (Hstep (ep0 <| Epoch.store := d |>)); [|by auto].
    by eapply Epoch.st_env, Epoch.en_other.
  - destruct Ha as (_ & Hp). destruct (Epoch.lease ep0) as [e|] eqn:He; [|subst; by auto].
    destruct Hp as (p & Hp & ->). destruct (Hstep (Epoch.set_stopper ep0 p (Epoch.SCancel true))); [|by auto].
    eapply Epoch.st_stop, Epoch.sp_call; [done|congruence].
Qed.

(** ** Invariant of a node *)

Hypothesis srv_mono : ∀ a b, a ≤ b → srv a ≤ srv b.
Hypothesis srv_rate : ∀ a, srv (a + Epoch.DefaultNodeEpochTTL) ≤ srv a + Milliseconds Epoch.DefaultNodeEpochTTL.

(** The store's entry of this process. *)
Definition owned (o : option entry) : Prop := ∃ w, o = Some (epoch self, Some w).

Abbreviation node_rel := (rel self stateful owned).
Abbreviation node_allowed claim := (allowed handlers stateful pushTimeout self stateful drain owned claim).

Definition gate_open (s : Server) : Prop := ∃ g, state_of g s = Admission.Open.

Record thread_ok (n : node) (th : thread) : Prop := mkThreadOk {
  to_wp : wp (node_allowed (claim_of th)) node_rel (body th) returned (hist_of th);
  to_held : ∀ g, 0 ≤ held_of g (hist_of th) ≤ 1;
  to_ready : ready (hist_of th) = true → stateful = true → Epoch.lease (ep n) ≠ None;
  to_quiet : ∀ g, quiet_of g (hist_of th) = true → state_of g (server n) = Closed ∧ active_of g (server n) = 0;
}.

Record ninv (n : node) : Prop := mkNinv {
  ni_epoch : epoch_reach (ep n);
  ni_lease : stateful = true → gate_open (server n) ∨ published (server n) ≠ None → Epoch.lease (ep n) ≠ None;
  ni_published : published (server n) = None ∨ published (server n) = Some self;
  ni_threads : ∀ p th, threads n !! p = Some th → thread_ok n th;
  ni_active : ∀ g, active_of g (server n) = msum (λ th, held_of g (hist_of th)) (threads n);
  ni_releasing : Epoch.releasing (ep n) → ∀ g, state_of g (server n) = Closed ∧ active_of g (server n) = 0;
}.

(** The calls keep their promises. *)
Lemma act_rel n e x h ep' s' :
  ninv n → (ready h = true → stateful = true → Epoch.lease (ep n) ≠ None) →
  act e x (ep n) (server n) ep' s' → node_rel e x h (record (owner_now ep') e x h).
Proof.
  intros Hi Hrd Ha. destruct e; cbn [rel record]; cbn [act] in Ha; try done.
  - destruct Ha as (_ & _ & ->). destruct (ni_published n Hi) as [E1|E1]; rewrite E1; auto.
  - destruct x; [done|]. eexists. split; [|done]. intros Hst Hr. specialize (Hrd Hr Hst).
    destruct Ha as (_ & l & Hv & ->). destruct (Epoch.lease (ep n)) as [e|] eqn:He; [|done].
    destruct (Epoch.valid_owned srv (serviceName self) (nodeID self) (epoch self) srv_mono srv_rate (ep n) e)
      as (w & Hw & _); [by apply ni_epoch|done|by rewrite He, Hv|]. by exists w.
  - destruct Ha as (_ & _ & ->). split; [done|]. eexists. split; [|done]. intros Hst Hr.
    rewrite bool_decide_eq_true_2; [apply orb_true_r|]. specialize (Hrd Hr Hst).
    destruct (Epoch.lease (ep n)); [done|done].
  - destruct Ha as (_ & _ & Hr). destruct x; [|done]. by destruct Hr as [-> _].
  - destruct Ha as (_ & _ & Hev). split; [done|]. by intros ->.
Qed.

Lemma entry_wp claim prog : entry_point claim prog → wp (node_allowed claim) node_rel prog returned hist0.
Proof.
  assert (Hrun : ∀ A (p : nprog A) c, wp (node_allowed c) node_rel p returned hist0 →
                 wp (node_allowed c) node_rel (run p) returned hist0).
  { intros A p c Hp. apply wp_bind. eapply wp_mono; [|exact Hp]. intros a h Ha. by apply wp_ret. }
  intros []; apply Hrun.
  - destruct req as [r|]; [apply wp_forwardTo|by apply wp_ret].
  - apply wp_Disconnect.
  - apply wp_writeBinding.
  - apply wp_PushToUID.
  - apply wp_Push.
  - by apply wp_Start.
  - apply wp_Stop.
Qed.

Lemma cleanup_wp t : wp (node_allowed no_claim) node_rel (run (cleanup drain t)) returned hist0.
Proof. apply wp_bind. eapply wp_mono; [|apply wp_cleanup]. intros a h Ha. by apply wp_ret. Qed.

Lemma ninv_spawn n p claim prog b :
  ninv n → threads n !! p = None → wp (node_allowed claim) node_rel prog returned hist0 →
  ninv (n <| threads := <[p := mkThread claim prog hist0]> (threads n) |> <| cleaning := b |>).
Proof.
  intros [Hep Hl Hp Ht Ha Hr] Hn Hw. split; simpl; auto.
  - intros q th Hq. destruct (decide (q = p)) as [->|Hne].
    + rewrite lookup_insert_eq in Hq. simplify_eq. split; simpl; try done; intros []; done.
    + rewrite lookup_insert_ne in Hq by done. destruct (Ht q th Hq). by split.
  - intros g. rewrite msum_insert_new by done. rewrite Ha. by destruct g.
Qed.

Lemma ninv_epoch n ep' :
  ninv n → epoch_step (ep n) ep' →
  (∀ p, Epoch.stoppers ep' !! p = Some (Epoch.SCancel true) →
        Epoch.stoppers (ep n) !! p = Some (Epoch.SCancel true)) →
  ninv (n <| ep := ep' |>).
Proof.
  intros [Hep Hl Hp Ht Ha Hr] Hs Hnew.
  assert (Hst : Epoch.lease (ep n) ≠ None → Epoch.lease ep' ≠ None).
  { intros H. eapply Epoch.lease_stays; [|done..]. by eapply Epoch.ctl_reach. }
  split; simpl; auto.
  - by eapply reach_step.
  - intros q th Hq. destruct (Ht q th Hq). split; simpl; auto.
  - intros Hrel. apply Hr. by eapply Epoch.releasing_step.
Qed.

Lemma held_nonneg n g : ninv n → ∀ p th, threads n !! p = Some th → 0 ≤ held_of g (hist_of th).
Proof. intros Hi p th Hp. apply (to_held n th (ni_threads n Hi p th Hp)). Qed.

(** An admission is taken only by a goroutine that holds none, and given back
    only by one that holds it. *)
Lemma delta_allowed claim g e x h :
  node_allowed claim e h → 0 ≤ held_of g h ≤ 1 →
  0 ≤ held_of g h + delta g e x ≤ 1 ∧ (delta g e x = -1 → held_of g h = 1) ∧ (-1 ≤ delta g e x ≤ 1).
Proof.
  intros Ha Hh. destruct e; simpl in *; try (split_and!; lia).
  - destruct Ha. destruct g, g0; simpl in *; try destruct x; simpl; lia.
  - destruct g, g0; simpl in *; lia.
Qed.

(** A drained admission stays drained. *)
Lemma drained_stable n claim e k x h p s' g :
  ninv n → threads n !! p = Some (mkThread claim (Act e k) h) → node_allowed claim e h →
  server_effect e x (server n) s' g →
  state_of g (server n) = Closed ∧ active_of g (server n) = 0 → state_of g s' = Closed ∧ active_of g s' = 0.
Proof.
  intros Hi Hp Hal (Ha & Hc & _ & Ho & _) [Hcl H0]. split; [auto|].
  destruct (delta_allowed claim g e x h Hal (to_held n _ (ni_threads n Hi p _ Hp) g)) as (_ & Hm & Hd).
  pose proof (msum_lookup_le (λ th, held_of g (hist_of th)) p _ (threads n) (held_nonneg n g Hi) Hp) as Hle.
  rewrite <-(ni_active n Hi g) in Hle. simpl in Hle.
  destruct (decide (delta g e x = 1)) as [E1|E1]; [specialize (Ho E1); congruence|].
  destruct (decide (delta g e x = -1)) as [E2|E2]; [specialize (Hm E2); lia|]. lia.
Qed.

Lemma ninv_lease_act n claim e k x h p ep' s' :
  ninv n → threads n !! p = Some (mkThread claim (Act e k) h) → node_allowed claim e h →
  act e x (ep n) (server n) ep' s' → stateful = true →
  gate_open s' ∨ published s' ≠ None ∨ shows_ready e x = true → Epoch.lease (ep n) ≠ None.
Proof.
  intros Hi Hp Hal Ha Hst Hor. pose proof (to_ready n _ (ni_threads n Hi p _ Hp)) as Hrd. simpl in Hrd.
  pose proof (ni_lease n Hi Hst) as Hl. destruct Hor as [[g Hg]|[Hpub|Hsh]].
  - destruct (act_server e x _ _ _ _ g Ha) as (_ & _ & Ho & _). destruct (Ho Hg) as [Ho'|Hop].
    + apply Hl. left. by exists g.
    + destruct e; try done. destruct Hal as [Hal _]. auto.
  - destruct (act_published e x _ _ _ _ Ha) as [E1|[E1|(id & -> & E1)]]; [|done|].
    + apply Hl. right. congruence.
    + destruct Hal as [_ Hal]. auto.
  - destruct e; simpl in *; try done.
    + destruct Ha as (_ & -> & ->). apply Hl. left. exists g.
      destruct (admit_effect (admission g (server n))) as [(_ & ? & _)|[E1 _]]; [done|congruence].
    + destruct Ha as (_ & _ & ->). apply Hl. right. by destruct (published (server n)).
    + destruct Ha as (_ & _ & Hr). destruct x; [|done]. by destruct Hr.
Qed.

Lemma ninv_act n p claim e k x h ep' s' :
  ninv n → threads n !! p = Some (mkThread claim (Act e k) h) → act e x (ep n) (server n) ep' s' →
  ninv (n <| ep := ep' |> <| server := s' |>
          <| threads := <[p := mkThread claim (k x) (record (owner_now ep') e x h)]> (threads n) |>).
Proof.
  intros Hi Hp Ha. destruct (ni_threads n Hi p _ Hp) as [[Hal Hk] Hheld Hrd Hq]; simpl in *.
  destruct (act_epoch e x _ _ _ _ Ha (ni_epoch n Hi)) as (Hep & Hmono & Hrel).
  pose proof (λ g, act_server e x _ _ _ _ g Ha) as Hse.
  pose proof (λ g, drained_stable n claim e k x h p s' g Hi Hp Hal (Hse g)) as Hst.
  pose proof (ninv_lease_act n claim e k x h p ep' s' Hi Hp Hal Ha) as Hlease.
  split; simpl.
  - done.
  - intros Hs Hor. apply Hmono, Hlease; tauto.
  - destruct (act_published e x _ _ _ _ Ha) as [->|[->|(id & -> & ->)]]; [apply (ni_published n Hi)|by left|].
    destruct Hal as [-> _]. by right.
  - intros q th Hq'. destruct (decide (q = p)) as [->|Hne].
    + rewrite lookup_insert_eq in Hq'. injection Hq' as <-. split; simpl.
      * apply Hk. by eapply (act_rel n).
      * intros g. rewrite held_record. by apply (delta_allowed claim).
      * intros Hr Hs. apply ready_record in Hr as [Hr|Hr]; apply Hmono; [auto|]. apply Hlease; auto.
      * intros g Hr. apply quiet_record in Hr as [Hr|Hr]; [by apply Hst, Hq|]. by apply (Hse g).
    + rewrite lookup_insert_ne in Hq' by done. destruct (ni_threads n Hi q th Hq') as [H1 H2 H3 H4].
      split; simpl; auto.
  - intros g. destruct (Hse g) as [Hact _]. rewrite Hact, (ni_active n Hi g).
    rewrite (msum_insert _ p _ _ _ Hp). simpl. rewrite held_record. lia.
  - intros Hr g. destruct (Hrel Hr) as [Hr'| ->]; [by apply Hst, (ni_releasing n Hi)|].
    apply Hst, Hq. destruct Hal as (? & ? & _). by destruct g.
Qed.

Lemma ninv_reach n : reach n → ninv n.
Proof.
  apply invariant_reachable.
  - intros n0 (He & Hs & Ht & _). split; rewrite ?Hs, ?Ht.
    + by apply reach_init.
    + intros _ [[[] Hg]|Hp]; done.
    + by left.
    + intros p th Hp. by rewrite lookup_empty in Hp.
    + by intros [].
    + destruct He as (t & d & Ee). rewrite Ee. intros [Hr|(p & y & Hy & _)]; [done|].
      simpl in Hy. by rewrite lookup_empty in Hy.
  - intros n1 n2 _ Hi [ep' Hst Hs Hnew|p claim prog Hn Hen|p t Hn Hc Ho|p claim e k x h ep' s' Hp Ha].
    + by apply ninv_epoch.
    + apply (ninv_spawn n1 p claim prog (cleaning n1)); [done..|by apply entry_wp].
    + apply ninv_spawn; [done..|apply cleanup_wp].
    + by apply ninv_act.
Qed.

(** ** Properties *)

(** C1: a request runs its handler only on the process that owns its route: the
    request is admitted, its binding is valid and for this service, the
    handler's context carries the session and the command and ends with the
    lease, and the last thing checked before it, after every store read, was
    the lease, at which point the store held this process's epoch.  A request
    with a sticky claim names this node and epoch, and the player was bound to
    this node. *)
Theorem handler_fenced n p claim c b cmd bd k h :
  reach n → threads n !! p = Some (mkThread claim (Act (Handle c b cmd bd) k) h) →
  held_r h = 1 ∧ 0 < active_of Requests (server n) ∧
  handlers cmd = true ∧ ValidGateBinding b = true ∧ ServiceName b = serviceName self ∧
  session c = Some b ∧ command c = Some cmd ∧ (stateful = true → leased c = true) ∧
  (∃ o, fence h = Some o ∧ (stateful = true → ∃ w, o = Some (epoch self, Some w))) ∧
  (c_NodeID claim = EmptyString ∧ c_Epoch claim = EmptyString ∨
   claim = mkClaim (nodeID self) (epoch self) ∧ located h = Some (ServiceName b, UID b, nodeID self)).
Proof.
  intros Hr Hp. apply ninv_reach in Hr as Hi.
  destruct (ni_threads n Hi p _ Hp) as [[(H1 & H2 & H3 & H4 & H5 & H6 & H7 & H8 & H9) _] _ _ _].
  split; [done|]. split; [|by split_and!].
  pose proof (msum_lookup_le (λ th, held_of Requests (hist_of th)) p _ (threads n) (held_nonneg n Requests Hi) Hp).
  rewrite <-(ni_active n Hi Requests) in *. simpl in *. lia.
Qed.

(** C3: the epoch is given back only when nothing of the process can touch a
    player any more: from the moment a release starts, both admissions are
    closed and drained for good, and no goroutine holds one: no handler, no
    binding write and no push runs. *)
Theorem release_drained n :
  reach n → Epoch.releasing (ep n) →
  (∀ g, state_of g (server n) = Closed ∧ active_of g (server n) = 0) ∧
  ∀ p th, threads n !! p = Some th → held_r (hist_of th) = 0 ∧ held_d (hist_of th) = 0.
Proof.
  intros Hr Hrel. apply ninv_reach in Hr as Hi. pose proof (ni_releasing n Hi Hrel) as Hq. split; [done|].
  assert (H0 : ∀ g p th, threads n !! p = Some th → held_of g (hist_of th) = 0).
  { intros g p th Hp. destruct (Hq g) as [_ Ha]. rewrite (ni_active n Hi g) in Ha.
    pose proof (msum_lookup_le (λ th, held_of g (hist_of th)) p th (threads n) (held_nonneg n g Hi) Hp).
    pose proof (held_nonneg n g Hi p th Hp). simpl in *. lia. }
  intros p th Hp. split; [apply (H0 Requests p th Hp)|apply (H0 Deliveries p th Hp)].
Qed.
End System.

(** ** Witnesses

    A stateful node claims its epoch and starts; a request with a sticky claim
    arrives; later the node stops. *)

Module NodeExample.
Import Epoch.EpochExample.
#[local] Existing Instance es.
#[local] Existing Instance esl.

Definition me : nodeIdentity := mkIdentity "game" "node-a" "epoch-a".
Definition handlers (cmd : Z) : bool := cmd =? 7.
Abbreviation nstep := (step srv me true handlers false false false false Second Second (10 * Second)).
Abbreviation nreach n := (reachable init_node nstep n).
Abbreviation nexecute := (execute srv me Second (10 * Second)).

Definition n0 : node := mkNode s0 NewServer ∅ false.
Definition n_claimed : node := mkNode s_claimed NewServer ∅ false.

Lemma node_claimed : nreach n_claimed.
Proof.
  eapply (reach_to _ _ (mkNode (s0 <| store := d_claim |> <| claim := CReplied Second None |>) NewServer ∅ false)).
  2: { eapply no_epoch; [done|by eapply st_claim, (cl_finish _ _ _ _ _ Second None None)|done]. }
  2: reflexivity.
  eapply (reach_to _ _ (mkNode (s0 <| claim := CCalling Second |>) NewServer ∅ false)).
  2: { eapply no_epoch; [done
         |eapply st_claim, (cl_call _ _ _ _ _ (c_at Second)); [done|done|apply pair_snd; by vm_compute]|done]. }
  2: reflexivity.
  eapply (reach_to _ _ n0).
  - apply reach_init. split_and!; [by eexists _, _|done..].
  - eapply no_epoch; [done|by apply st_claim, cl_begin|done].
  - reflexivity.
Qed.

Definition spawn (p : nat) (th : thread) (n : node) : node :=
  mkNode (ep n) (server n) (<[p := th]> (threads n)) (cleaning n).

Definition answers (p : nat) (l : list answer) : list (nat * answer) := (λ a, (p, a)) <$> l.

Definition start_thread : thread :=
  mkThread no_claim (run (Start true false Second (10 * Second) (Some ("game", "node-a")))) hist0.
Definition start_script : list (nat * answer) :=
  answers 0 [ANo; ANo; ANo; AYes; ANo; ANo; ANo; ANo; ANo; ANo; ANo; ANo; ANo; ANo; ANo; ANo; ANo; ANo; ANo; ANo; ANo; ANo].

Definition b_alice : GateBinding := mkGateBinding "game" "alice" "gate-1" "grpc://g1:9000" "c1" "t1".
Definition request : ForwardRequest := mkForwardRequest "node-a" "epoch-a" (Some (FromBinding b_alice)) 7 [].
Definition forward_thread : thread :=
  mkThread (mkClaim "node-a" "epoch-a") (run (Forward handlers true Background (Some request))) hist0.
Definition forward_script : list (nat * answer) :=
  answers 1 [ANo; ANo; ANo; ANo; AStr "node-a"; ANo].

Definition get (n : option node) : node := default n0 n.
Definition n_started : node := get (nexecute start_script (spawn 0 start_thread n_claimed)).
Definition n_handling : node := get (nexecute forward_script (spawn 1 forward_thread n_started)).

Lemma execute_get script n : nreach n → is_Some (nexecute script n) → nreach (get (nexecute script n)).
Proof. intros Hr [n' Hx]. rewrite Hx. by eapply execute_reach. Qed.

Lemma some_true {A} (o : option A) : bool_decide (is_Some o) = true → is_Some o.
Proof. apply bool_decide_eq_true. Qed.

Abbreviation nentry := (entry_point me true handlers false false false Second Second (10 * Second)).

Lemma spawn_reach n p claim prog :
  nreach n → bool_decide (is_Some (threads n !! p)) = false → nentry claim prog →
  nreach (spawn p (mkThread claim prog hist0) n).
Proof.
  intros Hr Hp He. eapply reach_to; [exact Hr|eapply no_spawn; [|exact He]|reflexivity].
  apply bool_decide_eq_false in Hp. by apply eq_None_not_Some.
Qed.

Lemma node_started : nreach n_started.
Proof.
  apply execute_get; [|apply some_true; by vm_compute].
  apply spawn_reach; [apply node_claimed|by vm_compute|by apply ep_start].
Qed.

Lemma node_handling : nreach n_handling.
Proof.
  apply (execute_get forward_script (spawn 1 forward_thread n_started)); [|apply some_true; by vm_compute].
  apply spawn_reach; [apply node_started|by vm_compute|].
  exact (ep_forward _ _ _ _ _ _ _ _ _ Background (Some request)).
Qed.

(** The next call of a goroutine, when it is a handler. *)
Definition at_handler (n : node) (p : nat) : bool :=
  match threads n !! p with
  | Some (mkThread _ (Act (Handle _ _ _ _) _) _) => true
  | _ => false
  end.

Lemma at_handler_inv n p :
  at_handler n p = true →
  ∃ claim c b cmd bd k h, threads n !! p = Some (mkThread claim (Act (Handle c b cmd bd) k) h).
Proof.
  unfold at_handler. destruct (threads n !! p) as [[claim [|e k] h]|]; try done. destruct e; try done. eauto 10.
Qed.

Lemma handler_fenced_witness :
  ∃ h w, at_handler n_handling 1 = true ∧ fence h = Some (Some ("epoch-a", Some w)).
Proof.
  assert (Hh : at_handler n_handling 1 = true) by by vm_compute.
  destruct (at_handler_inv _ _ Hh) as (claim & c & b & cmd & bd & k & h & Hp).
  destruct (handler_fenced srv me true handlers false false false false Second Second (10 * Second)
              srv_mono srv_rate n_handling 1 claim c b cmd bd k h node_handling Hp)
    as (_ & _ & _ & _ & _ & _ & _ & _ & (o & Ho & Hw) & _).
  destruct (Hw eq_refl) as [w Hw']. exists h, w. split; [exact Hh|]. rewrite Ho, Hw'. reflexivity.
Defined.

(** The node stops: requests and deliveries drain, and the epoch is released. *)
Definition stop_thread : thread := mkThread no_claim (run (Stop (10 * Second))) hist0.
Definition n_stopping : node := get (nexecute (answers 2 [ANo]) (spawn 2 stop_thread n_started)).
Definition cleanup_thread : thread := mkThread no_claim (run (cleanup false (10 * Second))) hist0.
Definition n_cleaning : node :=
  mkNode (ep n_stopping) (server n_stopping) (<[3%nat := cleanup_thread]> (threads n_stopping)) true.
Definition n_releasing : node := get (nexecute (answers 3 [ANo; ANo; ANo; ANo; ANo; ANo; ANo; ANo]) n_cleaning).

Lemma clean_reach n p t :
  nreach n → bool_decide (is_Some (threads n !! p)) = false → cleaning n = false →
  cleanup_once (server n) = Some t →
  nreach (mkNode (ep n) (server n) (<[p := mkThread no_claim (run (cleanup false t)) hist0]> (threads n)) true).
Proof.
  intros Hr Hp Hc Ho. eapply reach_to; [exact Hr|eapply no_cleanup; [|done|exact Ho]|reflexivity].
  apply bool_decide_eq_false in Hp. by apply eq_None_not_Some.
Qed.

Lemma node_stopping : nreach n_stopping.
Proof.
  apply (execute_get (answers 2 [ANo]) (spawn 2 stop_thread n_started)); [|apply some_true; by vm_compute].
  apply spawn_reach; [apply node_started|by vm_compute|apply ep_stop].
Qed.

Lemma node_releasing : nreach n_releasing.
Proof.
  apply (execute_get (answers 3 [ANo; ANo; ANo; ANo; ANo; ANo; ANo; ANo]) n_cleaning); [|apply some_true; by vm_compute].
  apply (clean_reach n_stopping 3 (10 * Second)); [apply node_stopping|by vm_compute..].
Qed.

Lemma is_releasing n p :
  match Epoch.stoppers (ep n) !! p with Some (SCancel true) => true | _ => false end = true →
  Epoch.releasing (ep n).
Proof.
  destruct (Epoch.stoppers (ep n) !! p) as [[[]| | | |]|] eqn:Hp; try done. intros _.
  right. by exists p, (SCancel true).
Qed.

Lemma release_drained_witness : state (admission Requests (server n_releasing)) = Closed.
Proof.
  assert (Hrel : Epoch.releasing (ep n_releasing)) by (apply (is_releasing _ 0); by vm_compute).
  destruct (release_drained srv me true handlers false false false false Second Second (10 * Second)
              srv_mono srv_rate n_releasing node_releasing Hrel) as [Hg _].
  exact (proj1 (Hg Requests)).
Defined.
End NodeExample.
