(* ===== verification/Network.v ===== *)
(** * What the transports share

    TLS constraints (internal/tlsconfig), the defaults and the Kratos
    transporter of package network, and the per-address connection counts both
    servers keep. *)

From S2P Require Import Prelude Errors.

(** ** internal/tlsconfig *)

(** The fields of [tls.Config] the checks read. *)
Record tlsConfig := mkTls {
  InsecureSkipVerify : bool;
  Certificates : nat;                       (* len(config.Certificates) *)
  GetCertificate : bool;                    (* non-nil callbacks *)
  GetConfigForClient : bool;
}.

Definition ValidateClient (config : option tlsConfig) : option error :=
  match config with
  | Some c => if InsecureSkipVerify c then Some (ESentinel ErrVerificationDisabled) else None
  | None => None
  end.

Definition ValidateServer (config : option tlsConfig) : option error :=
  match ValidateClient config with
  | Some err => Some err
  | None =>
      match config with
      | Some c =>
          if (Certificates c =? 0)%nat && negb (GetCertificate c) && negb (GetConfigForClient c)
          then Some (ESentinel ErrCertificateRequired) else None
      | None => None
      end
  end.

(** ** network/defaults.go *)

Definition DefaultSendQueueSize : nat := 32.
Definition DefaultRequestQueueSize : Z := 8.
Definition DefaultMaxConnLimit : Z := 10000.
Definition DefaultMaxConnPerIP : Z := 100.
Definition DefaultHandshakeTimeout : Z := 15 * Second.
Definition DefaultHandlerTimeout : Z := 3 * Second.
Definition DefaultWriteTimeout : Z := 10 * Second.

(** ** network/transport.go *)

(** [strings.ToLower] on an ASCII key. *)
Definition lower_char (c : Ascii.ascii) : Ascii.ascii :=
  let n := Ascii.N_of_ascii c in
  if ((65 <=? n) && (n <=? 90))%N then Ascii.ascii_of_N (n + 32) else c.

Fixpoint ToLower (s : string) : string :=
  match s with
  | EmptyString => EmptyString
  | String c s => String (lower_char c) (ToLower s)
  end.

Module Header.
Definition headerCarrier := gmap string (list string).

Definition Values (key : string) (c : headerCarrier) : list string := default [] (c !! ToLower key).

Definition Get (key : string) (c : headerCarrier) : string :=
  match Values key c with [] => EmptyString | v :: _ => v end.

Definition Set_ (key value : string) (c : headerCarrier) : headerCarrier := <[ToLower key := [value]]> c.

Definition Add (key value : string) (c : headerCarrier) : headerCarrier :=
  let key := ToLower key in <[key := default [] (c !! key) ++ [value]]> c.

Definition Keys (c : headerCarrier) : list string := (map_to_list c).*1.
End Header.

Inductive kind := KindTCP | KindWebSocket.

Record Transport := mkTransport {
  Kind : kind;
  Endpoint : string;
  reqHeader : Header.headerCarrier;
  replyHeader : Header.headerCarrier;
}.

Definition NewTransport (k : kind) (endpoint remoteIP connectionID : string) : Transport :=
  mkTransport k endpoint
    (<["remote_ip" := [remoteIP]]> {["conn_id" := [connectionID]]}) ∅.

(** The fields of [url.URL] an endpoint uses. *)
Record URL := mkURL { Scheme : string; Host : string; Path : string }.

(** ** Connections per address

    [connectionsPerIP] of both servers, an [int32] per address that has a
    connection. *)

Section PerIP.
Implicit Types (per : gmap string Z).

(** [m[ip]], [m[ip]++] and the release: an entry that would reach 0 is deleted. *)
Definition perip_get (ip : string) per : Z := default 0 (per !! ip).
Definition perip_incr (ip : string) per : gmap string Z := <[ip := i32 (perip_get ip per + 1)]> per.
Definition perip_decr (ip : string) per : gmap string Z :=
  if perip_get ip per =? 1 then delete ip per else <[ip := i32 (perip_get ip per - 1)]> per.

Context {A : Type} (addr : A → string).

(** The connections of a table that come from [ip]. *)
Definition from_ip (ip : string) (x : A) : Z := if decide (addr x = ip) then 1 else 0.
Definition count_ip (ip : string) (m : gmap nat A) : Z := msum (from_ip ip) m.

(** The counts are exact, and no address without a connection is kept. *)
Definition perip_ok per (m : gmap nat A) : Prop :=
  ∀ ip, per !! ip = (if count_ip ip m =? 0 then None else Some (count_ip ip m)).

Lemma from_ip_nonneg ip x : 0 ≤ from_ip ip x.
Proof. unfold from_ip. case_decide; lia. Qed.

Lemma count_ip_nonneg ip m : 0 ≤ count_ip ip m.
Proof. apply msum_nonneg, from_ip_nonneg. Qed.

Lemma perip_get_ok per m ip : perip_ok per m → perip_get ip per = count_ip ip m.
Proof. intros H. unfold perip_get. rewrite H. destruct (Z.eqb_spec (count_ip ip m) 0); simpl; lia. Qed.

Lemma perip_ok_empty : perip_ok ∅ ∅.
Proof. intros ip. unfold count_ip. rewrite msum_empty. done. Qed.

Lemma count_ip_insert ip k x m :
  m !! k = None → count_ip ip (<[k := x]> m) = (if decide (addr x = ip) then 1 else 0) + count_ip ip m.
Proof. intros H. unfold count_ip. by rewrite msum_insert_new. Qed.

Lemma count_ip_delete ip k x m :
  m !! k = Some x → count_ip ip (delete k m) = count_ip ip m - (if decide (addr x = ip) then 1 else 0).
Proof. intros H. unfold count_ip. by rewrite (msum_delete _ k x). Qed.

Lemma count_ip_pos k x m : m !! k = Some x → 1 ≤ count_ip (addr x) m.
Proof.
  intros Hk. pose proof (msum_lookup_le (from_ip (addr x)) k x m) as Hle.
  unfold from_ip at 2 in Hle. rewrite decide_True in Hle by done. apply Hle; [|done].
  intros. apply from_ip_nonneg.
Qed.

Lemma perip_ok_incr per m k x :
  perip_ok per m → m !! k = None → count_ip (addr x) m < 2 ^ 31 - 1 →
  perip_ok (perip_incr (addr x) per) (<[k := x]> m).
Proof.
  intros H Hk Hb ip. unfold perip_incr. rewrite (perip_get_ok per m), count_ip_insert by done.
  pose proof (count_ip_nonneg (addr x) m) as H0. rewrite i32_small by lia.
  destruct (decide (addr x = ip)) as [<-|Hne].
  - rewrite lookup_insert_eq. destruct (Z.eqb_spec (1 + count_ip (addr x) m) 0); [lia|]. f_equal. lia.
  - rewrite lookup_insert_ne by done. apply H.
Qed.

Lemma perip_ok_decr per m k x :
  perip_ok per m → m !! k = Some x → count_ip (addr x) m < 2 ^ 31 →
  perip_ok (perip_decr (addr x) per) (delete k m).
Proof.
  intros H Hk Hb ip. unfold perip_decr. rewrite (perip_get_ok per m), (count_ip_delete _ k x) by done.
  pose proof (count_ip_pos k x m Hk) as H1.
  destruct (decide (addr x = ip)) as [<-|Hne].
  - destruct (Z.eqb_spec (count_ip (addr x) m) 1) as [->|Hn].
    + by rewrite lookup_delete_eq.
    + rewrite lookup_insert_eq, i32_small by lia.
      destruct (Z.eqb_spec (count_ip (addr x) m - 1) 0); [lia|done].
  - rewrite Z.sub_0_r. destruct (count_ip (addr x) m =? 1);
      [rewrite lookup_delete_ne by done|rewrite lookup_insert_ne by done]; apply H.
Qed.
End PerIP.
