(* ===== verification/Outbound.v ===== *)
(** * The outbound contract of a connection (network/connection.go)

    What [network.Connection] promises about the frames a connection accepts,
    independently of the transport: [SendProto] accepts a frame in order,
    [CloseWithProto] accepts a last one and ends the connection after it, and
    the peer sees a prefix of what was accepted.  TcpChannel and WsChannel
    refine this machine. *)

From S2P Require Import Prelude.

Section Outbound.
Context {A : Type}.

Inductive phase := Open | Closing | Sealed.

(** [accepted]: the frames the connection took, in order, each marked with
    whether it is the one of [CloseWithProto]; [delivered]: those written. *)
Record outbound := mkOutbound {
  ph : phase;
  accepted : list (A * bool);
  delivered : list (A * bool);
}.
#[export] Instance eta_outbound : Eta outbound := λ o,
  mkOutbound (ph o) (accepted o) (delivered o).

Inductive ostep (o : outbound) : outbound → Prop :=
| os_accept x :
    ph o ≠ Sealed → ostep o (o <| accepted := accepted o ++ [(x, false)] |>)
| os_close :
    ph o = Open → ostep o (o <| ph := Closing |>)
| os_seal x :
    ph o = Closing → ostep o (o <| ph := Sealed |> <| accepted := accepted o ++ [(x, true)] |>)
| os_deliver x :
    delivered o ++ [x] `prefix_of` accepted o → ostep o (o <| delivered := delivered o ++ [x] |>).

Definition oinit (o : outbound) : Prop := o = mkOutbound Open [] [].

Definition oreach : outbound → Prop := reachable oinit ostep.

(** ** What the contract gives *)

Definition finals (l : list (A * bool)) : list (A * bool) := filter (λ x, x.2 = true) l.

Lemma finals_app l k : finals (l ++ k) = finals l ++ finals k.
Proof. apply filter_app. Qed.

Record oinv (o : outbound) : Prop := mkOinv {
  oi_prefix : delivered o `prefix_of` accepted o;
  oi_open : ph o ≠ Sealed → finals (accepted o) = [];
  oi_sealed : ph o = Sealed → ∃ l x, accepted o = l ++ [(x, true)] ∧ finals l = [];
}.

Lemma oinv_reach o : oreach o → oinv o.
Proof.
  apply invariant_reachable.
  - intros o0 ->. by split.
  - intros o0 o1 _ [Hp Ho Hs] Hst. destruct Hst as [x Hph|Hph|x Hph|x Hpre]; split; simpl; try done.
    + by apply prefix_snoc.
    + intros _. by rewrite finals_app, Ho.
    + intros _. apply Ho. by rewrite Hph.
    + by apply prefix_snoc.
    + intros _. exists (accepted o0), x. split; [done|]. apply Ho. by rewrite Hph.
Qed.

(** A written last frame is the last thing accepted and the last thing written. *)
Lemma final_delivered_last o x :
  oreach o → (x, true) ∈ delivered o →
  ∃ l, delivered o = l ++ [(x, true)] ∧ accepted o = delivered o ∧ finals l = [].
Proof.
  intros Ho Hx. destruct (oinv_reach o Ho) as [[t Ht] Hopen Hs].
  assert (Hin : (x, true) ∈ finals (accepted o)).
  { apply list_elem_of_filter. split; [done|]. rewrite Ht. by apply elem_of_app; left. }
  destruct (ph o) eqn:Eph.
  1,2: by rewrite Hopen in Hin; [apply elem_of_nil in Hin|].
  destruct (Hs eq_refl) as (l & y & Hl & Hfin).
  destruct t as [|z t _] using rev_ind.
  - rewrite app_nil_r in Ht. exists l. rewrite <-Ht, Hl. split_and!; try done.
    rewrite Hl, finals_app, Hfin in Hin. apply list_elem_of_singleton in Hin. by simplify_eq.
  - rewrite app_assoc, Hl in Ht. apply app_inj_tail in Ht as [Hlt _].
    assert (Hd : (x, true) ∈ finals l).
    { apply list_elem_of_filter. split; [done|]. rewrite Hlt. by apply elem_of_app; left. }
    rewrite Hfin in Hd. by apply elem_of_nil in Hd.
Qed.

(** Steps between states given by their fields. *)
Lemma close_step l d : ostep (mkOutbound Open l d) (mkOutbound Closing l d).
Proof. by refine (os_close (mkOutbound Open l d) _). Qed.

Lemma accept_step p x l d : p ≠ Sealed → ostep (mkOutbound p l d) (mkOutbound p (l ++ [(x, false)]) d).
Proof. intros H. by refine (os_accept (mkOutbound p l d) x _). Qed.

Lemma seal_step x l d : ostep (mkOutbound Closing l d) (mkOutbound Sealed (l ++ [(x, true)]) d).
Proof. by refine (os_seal (mkOutbound Closing l d) x _). Qed.

Lemma deliver_step p x l d : d ++ [x] `prefix_of` l → ostep (mkOutbound p l d) (mkOutbound p l (d ++ [x])).
Proof. intros H. by refine (os_deliver (mkOutbound p l d) x _). Qed.

(** A machine whose steps are steps of the contract, or invisible, only
    reaches states of the contract. *)
Lemma refines_reach {St} (init : St → Prop) (step : St → St → Prop) (abs : St → outbound) :
  (∀ s, init s → oinit (abs s)) →
  (∀ s s', reachable init step s → step s s' → rtc ostep (abs s) (abs s')) →
  ∀ s, reachable init step s → oreach (abs s).
Proof.
  intros Hi Hs. apply (invariant_reachable _ _ (λ s, oreach (abs s))).
  - intros s H. by apply reach_init, Hi.
  - intros s s' Hr H Hst. eapply reachable_rtc; [exact H|by apply Hs].
Qed.
End Outbound.

Arguments outbound : clear implicits.
