(* ===== verification/TcpChannel.v ===== *)
(** * The send side of a TCP connection (network/tcp/channel.go)

    Any number of goroutines call [push], [reply], [closeWithProto] and
    [close] on a channel while one writer ([dispatchTCP] of
    network/tcp/server_connection.go) takes frames off its queue.  A call is a
    thread with a program counter; [exec] runs it from one critical section,
    atomic operation or select to the next, and the choice of a ready select
    case is an argument.  An update of a counter that only [SendStats] reads
    belongs to the step before or after it. *)

From S2P Require Import Prelude Errors Proto Bufio Codec Outbound.

Record channelEvent := mkEvent { proto : Proto; done : option nat (* owner of the chan error *) }.

#[export] Instance channelEvent_eq_dec : EqDecision channelEvent.
Proof. solve_decision. Defined.

(** A Go channel that is only ever closed is the number of times [close] was
    called on it: the second close panics.  [readers] counts the holders of
    [mu.RLock]; a section under [mu.Lock] is one step that needs it to be 0. *)
Record channel := mkChannel {
  outbound : list channelEvent;
  capacity : nat;
  closing : Z;
  stop : Z;
  canceled : bool;                          (* cancel() was called *)
  readers : Z;
  replyWG : Z;
  closed : bool;
  stopped : bool;
  writerErr : option error;
  pendingPayloadBytes : Z;
  queueDropped : Z;
}.
#[export] Instance eta_channel : Eta channel := λ c,
  mkChannel (outbound c) (capacity c) (closing c) (stop c) (canceled c) (readers c) (replyWG c)
    (closed c) (stopped c) (writerErr c) (pendingPayloadBytes c) (queueDropped c).

Definition newChannel (queueSize : nat) : channel :=
  mkChannel [] queueSize 0 0 false 0 0 false false None 0 0.

Definition size (p : Proto) : Z := zlen (Body p).

Definition full (c : channel) : bool := (capacity c <=? length (outbound c))%nat.

Definition add_pending (n : Z) (c : channel) : channel :=
  c <| pendingPayloadBytes := pendingPayloadBytes c + n |>.

Definition send (e : channelEvent) (c : channel) : channel :=
  c <| outbound := outbound c ++ [e] |>.

(** ** Sections of the methods *)

Definition stopLocked (c : channel) : channel :=
  let c := if closed c then c else c <| closed := true |> <| closing := closing c + 1 |> in
  if stopped c then c else c <| stopped := true |> <| stop := stop c + 1 |>.

(** [close]: the locked section and the call of [cancel]. *)
Definition close (c : channel) : channel := (stopLocked c) <| canceled := true |>.

Definition isClosed (c : channel) : bool := closed c.

Definition finishWriter (err : option error) (c : channel) : channel :=
  (stopLocked (c <| writerErr := err |>)) <| canceled := true |>.

Definition writerError (c : channel) : error :=
  match writerErr c with Some err => err | None => ESentinel ErrConnectionClosed end.

(** [next]: the frame taken, [None] when [stop] is what the select saw. *)
Definition next (seeStop : bool) (c : channel) : option (channel * option channelEvent) :=
  if seeStop then if 0 <? stop c then Some (c, None) else None
  else match outbound c with
       | e :: rest => Some (add_pending (- size (proto e)) (c <| outbound := rest |>), Some e)
       | [] => None
       end.

(** ** Calls *)

Inductive call :=
| CPush (p : Proto)
| CReply (ctx : nat) (p : Proto)
| CCloseWith (ctx : nat) (p : Proto)
| CClose.

Inductive pc :=
| Entry                                     (* before validateFrame *)
| Locking                                   (* before taking mu *)
| Select                                    (* in the select of the method *)
| WaitReplies                               (* closeWithProto: replyWG.Wait() *)
| WaitClosed                                (* waitClosed *)
| FinalPoll | FinalSelect | FinalRepoll (contextDone : bool)      (* waitFinal *)
| CloseThen (err : error)                   (* close(); return err *)
| WriterError                               (* return writerError() *)
| Returned (err : option error).

(** The case a select takes; [Default] when it has a default and takes it. *)
Inductive choice := Send | CtxDone | Closed | Result | Default.

Section Exec.
Context (validateFrame : Proto → option error).

(** [ctxErr]: the error of each context, once done.  [result]: what the
    writer sent on the call's own [done] channel.  The outcome is the new
    channel, the new program counter and the frame accepted. *)
Section One.
Context (ctxErr : nat → option error) (result : option (option error)) (self : nat).

Definition outcome : Type := option (channel * pc * option channelEvent).

Definition goto (c : channel) (k : pc) : outcome := Some (c, k, None).

(** A step that needs [mu.Lock]. *)
Definition locked (c : channel) (k : outcome) : outcome := if readers c =? 0 then k else None.

Definition validated (c : channel) (p : Proto) : outcome :=
  goto c (match validateFrame p with Some err => Returned (Some err) | None => Locking end).

Definition push (p : Proto) (k : pc) (c : channel) : outcome :=
  match k with
  | Entry => validated c p
  | Locking =>
      if closed c then goto c (Returned (Some (ESentinel ErrConnectionClosed)))
      else goto (add_pending (size p) (c <| readers := readers c + 1 |>)) Select
  | Select =>
      let leave := c <| readers := readers c - 1 |> in
      if full c
      then goto (add_pending (- size p) leave <| queueDropped := queueDropped c + 1 |>)
             (Returned (Some (ESentinel ErrSendQueueFull)))
      else Some (send (mkEvent p None) leave, Returned None, Some (mkEvent p None))
  | _ => None
  end.

Definition waitClosed (ctx : nat) (sel : choice) (c : channel) : outcome :=
  match sel with
  | Closed => if 0 <? stop c then goto c (Returned (Some (ESentinel ErrConnectionClosed))) else None
  | CtxDone => match ctxErr ctx with Some err => goto c (Returned (Some err)) | None => None end
  | _ => None
  end.

Definition reply (ctx : nat) (p : Proto) (k : pc) (sel : choice) (c : channel) : outcome :=
  match k with
  | Entry => validated c p
  | Locking =>
      locked c (if closed c then goto c WaitClosed
                else goto (add_pending (size p) (c <| replyWG := replyWG c + 1 |>)) Select)
  | Select =>
      let leave := c <| replyWG := replyWG c - 1 |> in
      match sel with
      | Send => if full c then None
                else Some (send (mkEvent p None) leave, Returned None, Some (mkEvent p None))
      | CtxDone => match ctxErr ctx with
                   | Some err => goto (add_pending (- size p) leave) (Returned (Some err))
                   | None => None
                   end
      | Closed => if 0 <? closing c then goto (add_pending (- size p) leave) WaitClosed else None
      | _ => None
      end
  | WaitClosed => waitClosed ctx sel c
  | _ => None
  end.

Definition waitFinal (ctx : nat) (k : pc) (sel : choice) (c : channel) : outcome :=
  match k, sel, result with
  | (FinalPoll | FinalSelect | FinalRepoll _), Result, Some err => goto c (Returned err)
  | FinalPoll, Default, None => goto c FinalSelect
  | FinalSelect, CtxDone, _ => match ctxErr ctx with Some _ => goto c (FinalRepoll true) | None => None end
  | FinalSelect, Closed, _ => if 0 <? stop c then goto c (FinalRepoll false) else None
  | FinalRepoll true, Default, None =>
      match ctxErr ctx with Some err => goto c (CloseThen err) | None => None end
  | FinalRepoll false, Default, None => goto c WriterError
  | _, _, _ => None
  end.

Definition closeWithProto (ctx : nat) (p : Proto) (k : pc) (sel : choice) (c : channel) : outcome :=
  match k with
  | Entry => validated c p
  | Locking =>
      locked c (if closed c then goto c (Returned (Some (ESentinel ErrConnectionClosed)))
                else goto (c <| closed := true |> <| closing := closing c + 1 |>) WaitReplies)
  | WaitReplies => if replyWG c =? 0 then goto (add_pending (size p) c) Select else None
  | Select =>
      match sel with
      | Send => if full c then None
                else let e := mkEvent p (Some self) in Some (send e c, FinalPoll, Some e)
      | CtxDone => match ctxErr ctx with
                   | Some err => goto (add_pending (- size p) c) (CloseThen err)
                   | None => None
                   end
      | Closed => if 0 <? stop c then goto (add_pending (- size p) c) WriterError else None
      | _ => None
      end
  | CloseThen err => locked c (goto (close c) (Returned (Some err)))
  | WriterError => goto c (Returned (Some (writerError c)))
  | _ => waitFinal ctx k sel c
  end.

Definition exec (f : call) (k : pc) (sel : choice) (c : channel) : outcome :=
  match f with
  | CPush p => push p k c
  | CReply ctx p => reply ctx p k sel c
  | CCloseWith ctx p => closeWithProto ctx p k sel c
  | CClose => match k with Entry => locked c (goto (close c) (Returned None)) | _ => None end
  end.
End One.

(** ** The writer (dispatchTCP) *)

Inductive writer :=
| WNext                                     (* before next() *)
| WWrite (e : channelEvent)                 (* in writeTCPEvent *)
| WFinish (err : option error)              (* conn.Close() and finishWriter *)
| WExit (err : option error).

Record sys := mkSys {
  ch : channel;
  thr : gmap nat (call * pc);
  wr : writer;
  results : gmap nat (option error);        (* sent on the [done] channels *)
  ctxs : gmap nat error;                    (* contexts that are done *)
  accepted : list channelEvent;             (* frames put into [outbound], in order *)
  written : list channelEvent;              (* frames written without an error *)
}.
#[export] Instance eta_sys : Eta sys := λ s,
  mkSys (ch s) (thr s) (wr s) (results s) (ctxs s) (accepted s) (written s).

(** The loop body once [writeTCPEvent] returned [err]. *)
Definition wrote (e : channelEvent) (err : option error) (s : sys) : sys :=
  let s := match err with Some _ => s | None => s <| written := written s ++ [e] |> end in
  let s := match done e with Some i => s <| results := <[i := err]> (results s) |> | None => s end in
  s <| wr := match err, done e with None, None => WNext | _, _ => WFinish err end |>.

Inductive writer_step (s : sys) : sys → Prop :=
| ws_next b c e :
    wr s = WNext → next b (ch s) = Some (c, e) →
    writer_step s (s <| ch := c |> <| wr := match e with Some e => WWrite e | None => WFinish None end |>)
| ws_write e err :
    wr s = WWrite e → writer_step s (wrote e err s)
| ws_finish err :
    wr s = WFinish err → readers (ch s) = 0 →
    writer_step s (s <| ch := finishWriter err (ch s) |> <| wr := WExit err |>).

Inductive step (s : sys) : sys → Prop :=
| s_call i f :
    thr s !! i = None → step s (s <| thr := <[i := (f, Entry)]> (thr s) |>)
| s_exec i f k sel c' k' out :
    thr s !! i = Some (f, k) →
    exec (λ n, ctxs s !! n) (results s !! i) i f k sel (ch s) = Some (c', k', out) →
    step s (s <| ch := c' |> <| thr := <[i := (f, k')]> (thr s) |>
              <| accepted := accepted s ++ option_list out |>)
| s_writer s' : writer_step s s' → step s s'
| s_ctx n err :
    ctxs s !! n = None → step s (s <| ctxs := <[n := err]> (ctxs s) |>).

Definition init_sys (n : nat) (s : sys) : Prop := s = mkSys (newChannel n) ∅ WNext ∅ ∅ [] [].

Definition reach (n : nat) : sys → Prop := reachable (init_sys n) step.

(** ** Invariant *)

(** What a thread holds: bytes counted as pending, the read lock, a slot of
    [replyWG], the right to seal the channel. *)
Definition pend (t : call * pc) : Z :=
  match t with
  | (CPush p, Select) | (CReply _ p, Select) | (CCloseWith _ p, Select) => size p
  | _ => 0
  end.
Definition pushing (t : call * pc) : Z := match t with (CPush _, Select) => 1 | _ => 0 end.
Definition replying (t : call * pc) : Z := match t with (CReply _ _, Select) => 1 | _ => 0 end.
Definition sealing (t : call * pc) : Z := match t with (CCloseWith _ _, Select) => 1 | _ => 0 end.
Definition closer (t : call * pc) : Z :=
  match t with (CCloseWith _ _, (WaitReplies | Select)) => 1 | _ => 0 end.

Definition final (e : channelEvent) : Z := match done e with Some _ => 1 | None => 0 end.

(** The counters are the sums of what the threads hold, [close] is called
    once on each channel, no push is under way once closed, one call at most
    seals, and when it does no reply is under way. *)
Definition counters (c : channel) (m : gmap nat (call * pc)) (acc : list channelEvent) : Prop :=
  readers c = msum pushing m ∧ replyWG c = msum replying m ∧
  pendingPayloadBytes c = lsum (size ∘ proto) (outbound c) + msum pend m ∧
  (length (outbound c) ≤ capacity c)%nat ∧
  closing c = (if closed c then 1 else 0) ∧ stop c = (if stopped c then 1 else 0) ∧
  (stopped c = true → closed c = true) ∧ (closed c = true → readers c = 0) ∧
  lsum final acc + msum closer m ≤ (if closed c then 1 else 0) ∧
  (0 < lsum final acc + msum sealing m → replyWG c = 0).

Definition fifo (s : sys) : Prop :=
  match wr s with
  | WNext => accepted s = written s ++ outbound (ch s)
  | WWrite e => accepted s = written s ++ e :: outbound (ch s)
  | _ => written s `prefix_of` accepted s
  end.

(** The final frames belong to their callers, and a nil result says that the
    frame was written. *)
Definition reported (s : sys) (i : nat) : Prop := ∃ e, e ∈ written s ∧ done e = Some i.

Record inv (s : sys) : Prop := mkInv {
  i_counters : counters (ch s) (thr s) (accepted s);
  i_fifo : fifo s;
  i_owner : ∀ e i, e ∈ accepted s → done e = Some i →
              ∃ ctx k, thr s !! i = Some (CCloseWith ctx (proto e), k);
  i_result : ∀ i, results s !! i = Some None → reported s i;
  i_returned : ∀ i ctx p, thr s !! i = Some (CCloseWith ctx p, Returned None) → reported s i;
}.

Lemma pend_nonneg t : 0 ≤ pend t.
Proof. destruct t as [[] []]; simpl; unfold size; lia. Qed.
Lemma pushing_nonneg t : 0 ≤ pushing t.
Proof. destruct t as [[] []]; simpl; lia. Qed.
Lemma replying_nonneg t : 0 ≤ replying t.
Proof. destruct t as [[] []]; simpl; lia. Qed.
Lemma sealing_closer t : 0 ≤ sealing t ≤ closer t.
Proof. destruct t as [[] []]; simpl; lia. Qed.
Lemma closer_nonneg t : 0 ≤ closer t.
Proof. pose proof (sealing_closer t). lia. Qed.
Lemma tcp_sealing_nonneg t : 0 ≤ sealing t.
Proof. pose proof (sealing_closer t). lia. Qed.
Lemma tcp_final_nonneg e : 0 ≤ final e.
Proof. unfold final. case_match; lia. Qed.

(** What one thread contributes to the sums is at most the sums. *)
Lemma shares (m : gmap nat (call * pc)) i t :
  m !! i = Some t →
  pend t ≤ msum pend m ∧ pushing t ≤ msum pushing m ∧ replying t ≤ msum replying m ∧
  sealing t ≤ msum sealing m ∧ closer t ≤ msum closer m.
Proof.
  intros Hi. split_and!; apply msum_lookup_le with i; try done; intros;
    first [apply pend_nonneg|apply pushing_nonneg|apply replying_nonneg|apply tcp_sealing_nonneg|apply closer_nonneg].
Qed.

Lemma sums_nonneg (m : gmap nat (call * pc)) :
  0 ≤ msum pend m ∧ 0 ≤ msum pushing m ∧ 0 ≤ msum replying m ∧ 0 ≤ msum sealing m ∧ 0 ≤ msum closer m.
Proof.
  split_and!; apply msum_nonneg; intros;
    first [apply pend_nonneg|apply pushing_nonneg|apply replying_nonneg|apply tcp_sealing_nonneg|apply closer_nonneg].
Qed.

Lemma full_false c : full c = false → (length (outbound c) < capacity c)%nat.
Proof. unfold full. intros H. by apply Nat.leb_gt. Qed.

(** Split an equation [exec ... = Some _] into the branches that exist. *)
Ltac open_exec H :=
  unfold exec, push, reply, closeWithProto, waitFinal, waitClosed, validated, locked, goto in H;
  repeat first
    [ match type of H with
      | context [match ?x with _ => _ end] => destruct x eqn:?
      end
    | progress simplify_eq/= ].

Lemma tcp_counters_exec cx r i f k sel c m acc c' k' out :
  counters c m acc → m !! i = Some (f, k) → exec cx r i f k sel c = Some (c', k', out) →
  counters c' (<[i := (f, k')]> m) (acc ++ option_list out).
Proof.
  intros (Hr & Hw & Hp & Hb & Hc & Hs & Hst & Hnp & Hcl & Hnr) Hi He.
  pose proof (shares m i _ Hi) as (S1 & S2 & S3 & S4 & S5).
  pose proof (sums_nonneg m) as (N1 & N2 & N3 & N4 & N5).
  pose proof (lsum_nonneg final acc tcp_final_nonneg) as N6.
  assert (N7 : msum sealing m ≤ msum closer m) by (apply msum_le; apply sealing_closer).
  unfold counters. rewrite !(msum_insert _ i (f, k)), lsum_app by done.
  destruct f as [p|ctx p|ctx p|], k; simpl in He, S1, S2, S3, S4, S5; try done.
  all: open_exec He.
  all: unfold close, stopLocked, send, add_pending in *; simpl in *; to_prop.
  all: match goal with c : channel |- _ => destruct (closed c) eqn:Ec, (stopped c) eqn:Es; simpl in *; rewrite ?Ec, ?Es; simpl; rewrite ?Ec, ?Es end.
  all: rewrite ?lsum_app, ?length_app; simpl.
  all: repeat match goal with H : full _ = false |- _ => apply full_false in H end.
  all: try specialize (Hnp eq_refl); try specialize (Hst eq_refl).
  all: unfold final in *; simpl in *.
  all: split_and!; intros; try done; try lia.
Qed.

Lemma counters_call c m acc i f :
  counters c m acc → m !! i = None → counters c (<[i := (f, Entry)]> m) acc.
Proof.
  intros H Hi. unfold counters in *. rewrite !msum_insert_new by done. destruct f; simpl; exact H.
Qed.

Lemma counters_next b c m acc c' e :
  counters c m acc → next b c = Some (c', e) → counters c' m acc.
Proof.
  unfold next, counters, add_pending. intros Hc Hn. destruct b; [by case_match; simplify_eq|].
  destruct (outbound c) as [|e0 rest] eqn:Eo; simplify_eq/=. intuition lia.
Qed.

Lemma counters_stop err c m acc :
  counters c m acc → readers c = 0 → counters (finishWriter err c) m acc.
Proof.
  unfold counters, finishWriter, stopLocked. intros Hc Hr.
  destruct (closed c) eqn:Ec, (stopped c) eqn:Es; simpl; rewrite ?Ec, ?Es; simpl; intuition lia.
Qed.

(** What a step of a call does to the queue and to the closed flag. *)
Inductive effect (self : nat) (f : call) (k : pc) (c c' : channel) : option channelEvent → Prop :=
| eff_none :
    closed c' = closed c ∨ closed c = false ∧ closed c' = true → effect self f k c c' None
| eff_send p :
    closed c' = closed c → pushing (f, k) = 1 ∨ replying (f, k) = 1 →
    effect self f k c c' (Some (mkEvent p None))
| eff_final ctx p :
    closed c' = closed c → f = CCloseWith ctx p → sealing (f, k) = 1 →
    effect self f k c c' (Some (mkEvent p (Some self))).

Lemma tcp_exec_effect cx r i f k sel c c' k' out :
  exec cx r i f k sel c = Some (c', k', out) →
  effect i f k c c' out ∧ outbound c' = outbound c ++ option_list out.
Proof.
  intros He. destruct f as [p|ctx p|ctx p|], k; simpl in He; try done.
  all: open_exec He.
  all: unfold close, stopLocked, send, add_pending.
  all: repeat match goal with |- context [if ?b then _ else _] => destruct b eqn:? end.
  all: split; [econstructor; simpl; eauto|simpl; by rewrite ?app_nil_r].
Qed.

(** [closeWithProto] returns nil only what the writer reported. *)
Lemma exec_reports cx r i ctx p k sel c c' out :
  exec cx r i (CCloseWith ctx p) k sel c = Some (c', Returned None, out) → r = Some None.
Proof. intros He. destruct k; simpl in He; try done. all: open_exec He; done. Qed.

(** A call that is over takes no step. *)
Lemma exec_returned cx r i f err sel c : exec cx r i f (Returned err) sel c = None.
Proof. by destruct f. Qed.

Lemma owner_call (acc : list channelEvent) (m : gmap nat (call * pc)) i f k k' :
  m !! i = Some (f, k) →
  (∀ e j, e ∈ acc → done e = Some j → ∃ ctx k, m !! j = Some (CCloseWith ctx (proto e), k)) →
  ∀ e j, e ∈ acc → done e = Some j →
    ∃ ctx k, <[i := (f, k')]> m !! j = Some (CCloseWith ctx (proto e), k).
Proof.
  intros Hi Ho e j He Hd. destruct (Ho e j He Hd) as (ctx & k0 & Hj).
  destruct (decide (j = i)) as [->|Hne].
  - exists ctx, k'. rewrite lookup_insert_eq. by simplify_eq.
  - exists ctx, k0. by rewrite lookup_insert_ne.
Qed.

Lemma tcp_inv_call s i f :
  inv s → thr s !! i = None → inv (s <| thr := <[i := (f, Entry)]> (thr s) |>).
Proof.
  intros [Hc Hf Ho Hres Hret] Hi. split; simpl; try done.
  - by apply counters_call.
  - intros e j He Hd. destruct (Ho e j He Hd) as (ctx & k & Hj). exists ctx, k.
    rewrite lookup_insert_ne; [done|]. intros ->. congruence.
  - intros j ctx p Hj. apply lookup_insert_Some in Hj as [[_ ?]|[_ Hj]]; [done|by eapply Hret].
Qed.

Lemma tcp_inv_exec s i f k sel c' k' out :
  inv s → thr s !! i = Some (f, k) →
  exec (λ n, ctxs s !! n) (results s !! i) i f k sel (ch s) = Some (c', k', out) →
  inv (s <| ch := c' |> <| thr := <[i := (f, k')]> (thr s) |> <| accepted := accepted s ++ option_list out |>).
Proof.
  intros [Hc Hf Ho Hres Hret] Hi He. destruct (tcp_exec_effect _ _ _ _ _ _ _ _ _ _ He) as [Heff Hout].
  split; simpl; try done.
  - by eapply tcp_counters_exec.
  - unfold fifo in *; simpl. rewrite Hout.
    destruct (wr s); [by rewrite Hf, app_assoc|by rewrite Hf, <-app_assoc|..].
    all: destruct Hf as [t ->]; rewrite <-app_assoc; by eexists.
  - intros e j [Hin|Hin]%elem_of_app Hd; [by eapply (owner_call (accepted s))|].
    destruct Heff as [|p|ctx p _ -> _]; simpl in Hin.
    1: by apply elem_of_nil in Hin.
    all: apply list_elem_of_singleton in Hin as ->; simplify_eq/=.
    exists ctx, k'. by rewrite lookup_insert_eq.
  - intros j ctx p Hj. apply lookup_insert_Some in Hj as [[-> ?]|[_ Hj]]; [|by eapply Hret].
    simplify_eq. apply Hres. by eapply exec_reports.
Qed.

Lemma tcp_reported_mono s s' i : written s `prefix_of` written s' → reported s i → reported s' i.
Proof. intros [t Ht] (e & He & Hd). exists e. rewrite Ht. split; [by apply elem_of_app; left|done]. Qed.

Lemma inv_wrote s e err : inv s → wr s = WWrite e → inv (wrote e err s).
Proof.
  intros [Hc Hf Ho Hres Hret] Hw.
  assert (Hpre : written s `prefix_of` written (wrote e err s)).
  { unfold wrote. destruct err, (done e); simpl; try done; by apply prefix_app_r. }
  assert (Hsame : ch (wrote e err s) = ch s ∧ thr (wrote e err s) = thr s ∧ accepted (wrote e err s) = accepted s).
  { unfold wrote. by destruct err, (done e). }
  destruct Hsame as (Ech & Eth & Eac). split; rewrite ?Ech, ?Eth, ?Eac; try done.
  - unfold fifo in *. rewrite Hw in Hf. rewrite Ech, Eac. rewrite Hf.
    unfold wrote. destruct err, (done e); simpl; rewrite <-?app_assoc; try done; try (by eexists).
    all: apply prefix_app; by eexists.
  - intros j Hj. unfold wrote in Hj |- *. destruct err as [err|], (done e) as [d|] eqn:Ed; simpl in *.
    + apply lookup_insert_Some in Hj as [[_ ?]|[_ Hj]]; [done|by apply Hres].
    + by apply Hres.
    + apply lookup_insert_Some in Hj as [[-> _]|[_ Hj]].
      * exists e. split; [|done]. simpl. apply elem_of_app. right. by apply list_elem_of_singleton.
      * eapply tcp_reported_mono; [|by apply Hres]. by apply prefix_app_r.
    + eapply tcp_reported_mono; [|by apply Hres]. by apply prefix_app_r.
  - intros j ctx p Hj. eapply tcp_reported_mono; [exact Hpre|by eapply Hret].
Qed.

Lemma tcp_inv_writer s s' : inv s → writer_step s s' → inv s'.
Proof.
  intros Hinv Hst. destruct Hst as [b c e Hw Hn|e err Hw|err Hw Hr].
  - destruct Hinv as [Hc Hf Ho Hres Hret]. split; simpl; try done; [by eapply counters_next|].
    unfold fifo in *; simpl. rewrite Hw in Hf. unfold next in Hn. destruct b.
    + case_match; simplify_eq. by eexists.
    + destruct (outbound (ch s)) as [|e0 rest]; simplify_eq/=. done.
  - by apply inv_wrote.
  - destruct Hinv as [Hc Hf Ho Hres Hret]. split; simpl; try done; [by apply counters_stop|].
    unfold fifo in *; simpl. by rewrite Hw in Hf.
Qed.

Lemma chan_inv_reach n s : reach n s → inv s.
Proof.
  apply invariant_reachable.
  - intros s0 ->. split; try done; simpl.
    + unfold counters; simpl. rewrite !msum_empty. split_and!; try done; simpl; lia.
    + by intros e j He%elem_of_nil.
  - intros s0 s1 _ Hinv Hst. destruct Hst as [i f Hi|i f k sel c' k' out Hi He|s1 Hw|m err Hm].
    + by apply tcp_inv_call.
    + by eapply tcp_inv_exec.
    + by eapply tcp_inv_writer.
    + by destruct Hinv; split.
Qed.

(** ** Refinement of the outbound contract *)

Definition mark (e : channelEvent) : Proto * bool :=
  (proto e, match done e with Some _ => true | None => false end).

Definition abs_phase (s : sys) : phase :=
  if 0 <? lsum final (accepted s) then Sealed else if closed (ch s) then Closing else Open.

Definition abs (s : sys) : Outbound.outbound Proto :=
  mkOutbound (abs_phase s) (mark <$> accepted s) (mark <$> written s).

Lemma abs_wrote s e err : inv s → wr s = WWrite e → rtc ostep (abs s) (abs (wrote e err s)).
Proof.
  intros Hinv Hw. pose proof (i_fifo s Hinv) as Hf. unfold fifo in Hf. rewrite Hw in Hf.
  destruct err as [err|].
  - replace (abs (wrote e (Some err) s)) with (abs s); [done|]. unfold wrote. by destruct (done e).
  - apply rtc_once.
    replace (abs (wrote e None s)) with
      (mkOutbound (abs_phase s) (mark <$> accepted s) ((mark <$> written s) ++ [mark e])).
    + apply deliver_step. rewrite Hf, fmap_app. simpl. apply prefix_app. by eexists.
    + unfold abs, wrote. destruct (done e); simpl; by rewrite fmap_app.
Qed.

Lemma tcp_abs_exec s i f k sel c' k' out :
  inv s → thr s !! i = Some (f, k) →
  exec (λ n, ctxs s !! n) (results s !! i) i f k sel (ch s) = Some (c', k', out) →
  rtc ostep (abs s) (abs (s <| ch := c' |> <| thr := <[i := (f, k')]> (thr s) |>
                            <| accepted := accepted s ++ option_list out |>)).
Proof.
  intros Hinv Hi He. destruct (tcp_exec_effect _ _ _ _ _ _ _ _ _ _ He) as [Heff _].
  pose proof (shares _ _ _ Hi) as (_ & S2 & S3 & S4 & S5).
  destruct (i_counters s Hinv) as (Hr & Hw & _ & _ & _ & _ & _ & Hnp & Hcl & Hnr).
  pose proof (sums_nonneg (thr s)) as (N1 & N2 & N3 & N4 & N5).
  pose proof (lsum_nonneg final (accepted s) tcp_final_nonneg) as N6.
  destruct Heff as [Hc|p Hc Hk|ctx p Hc -> Hk]; unfold abs, abs_phase; simpl.
  - rewrite app_nil_r. destruct Hc as [->|[Ho ->]]; [done|].
    rewrite Ho in *. replace (lsum final (accepted s)) with 0 by lia. simpl.
    apply rtc_once. apply close_step.
  - assert (H0 : lsum final (accepted s) = 0).
    { destruct Hk; [|lia]. destruct (closed (ch s)); [|lia]. rewrite Hnp in Hr by done. lia. }
    rewrite lsum_app, H0, Hc, fmap_app. simpl. apply rtc_once.
    apply accept_step. by destruct (closed (ch s)).
  - destruct (closed (ch s)) eqn:Ec; [|destruct k; simpl in *; lia].
    assert (H0 : lsum final (accepted s) = 0) by (destruct k; simpl in *; lia).
    rewrite lsum_app, H0, fmap_app. simpl. apply rtc_once. apply seal_step.
Qed.

Lemma tcp_abs_step n s s' : reach n s → step s s' → rtc ostep (abs s) (abs s').
Proof.
  intros Hs Hst. apply chan_inv_reach in Hs as Hinv.
  destruct Hst as [i f Hi|i f k sel c' k' out Hi He|s1 Hw|m err Hm]; try done.
  - by eapply tcp_abs_exec.
  - destruct Hw as [b c e Hw Hn|e err Hw|err Hw Hr].
    + unfold next in Hn. destruct b; [by case_match; simplify_eq|].
      by destruct (outbound (ch s)) as [|e0 rest]; simplify_eq/=.
    + by apply abs_wrote.
    + unfold abs, abs_phase; simpl. unfold finishWriter, stopLocked. simpl.
      destruct (closed (ch s)) eqn:Ec; simpl.
      1: destruct (stopped (ch s)); simpl; by rewrite ?Ec.
      replace (lsum final (accepted s)) with 0.
      * destruct (stopped (ch s)); simpl; apply rtc_once;
          apply close_step.
      * destruct (i_counters s Hinv) as (_ & _ & _ & _ & _ & _ & _ & _ & Hcl & _). rewrite Ec in Hcl.
        pose proof (sums_nonneg (thr s)). pose proof (lsum_nonneg final (accepted s) tcp_final_nonneg). lia.
Qed.

Lemma tcp_abs_reach n s : reach n s → oreach (abs s).
Proof.
  apply refines_reach.
  - by intros s0 ->.
  - intros s0 s1. apply tcp_abs_step.
Qed.

Lemma unmarked (l : list channelEvent) : finals (mark <$> l) = [] → Forall (λ e, done e = None) l.
Proof.
  intros H. rewrite Forall_forall. intros e He. destruct (done e) eqn:Ed; [|done].
  assert (Hin : mark e ∈ finals (mark <$> l)).
  { apply list_elem_of_filter. split; [by unfold mark; rewrite Ed|by apply list_elem_of_fmap_2]. }
  rewrite H in Hin. by apply elem_of_nil in Hin.
Qed.

Lemma fifo_prefix s : inv s → written s `prefix_of` accepted s.
Proof.
  intros [_ Hf _ _ _]. unfold fifo in Hf. destruct (wr s); try done; rewrite Hf; by eexists.
Qed.

(** ** Properties *)

(** C7: the TCP channel refines the outbound contract: whatever the callers and
    the writer do, every step of the implementation is a step of the contract
    machine or invisible in it. *)
Theorem tcp_channel_refines n s s' :
  reach n s → step s s' → oreach (abs s) ∧ rtc ostep (abs s) (abs s').
Proof. intros Hs Hst. split; [by eapply tcp_abs_reach|by eapply tcp_abs_step]. Qed.

(** [closeWithProto] returns nil only if its frame was written, and then
    that frame is the last one accepted and the last one on the wire. *)
Theorem tcp_close_reports n s i ctx p :
  reach n s → thr s !! i = Some (CCloseWith ctx p, Returned None) →
  ∃ l, written s = l ++ [mkEvent p (Some i)] ∧ accepted s = written s ∧ Forall (λ e, done e = None) l.
Proof.
  intros Hs Hi. apply chan_inv_reach in Hs as Hinv. pose proof (tcp_abs_reach n s Hs) as Ha.
  destruct (i_returned s Hinv i ctx p Hi) as (e & He & Hd).
  assert (Hin : (proto e, true) ∈ delivered (abs s)).
  { replace (proto e, true) with (mark e) by by unfold mark; rewrite Hd. by apply list_elem_of_fmap_2. }
  destruct (final_delivered_last _ _ Ha Hin) as (l & Hl & Hac & Hfin). simpl in Hl, Hac.
  apply fmap_app_inv in Hl as (l1 & l2 & -> & Hl2 & Hw). apply unmarked in Hfin.
  destruct l2 as [|e2 [|]]; try done.
  assert (e = e2) as <-.
  { rewrite Hw in He. apply elem_of_app in He as [He|He]; [|by apply list_elem_of_singleton in He].
    rewrite Forall_forall in Hfin. rewrite (Hfin e He) in Hd. done. }
  assert (Hacw : accepted s = written s).
  { destruct (fifo_prefix s Hinv) as [t Ht]. rewrite Ht in Hac |- *. apply (f_equal length) in Hac.
    rewrite !length_fmap, length_app in Hac. destruct t; [apply app_nil_r|simpl in Hac; lia]. }
  destruct (i_owner s Hinv e i) as (ctx' & k & Ht); [by rewrite Hacw|done|]. rewrite Hi in Ht. simplify_eq.
  exists l1. rewrite Hacw, Hw. destruct e as [p d]. simpl in Hd |- *. by rewrite Hd.
Qed.

(** The published send statistics are exact: the pending bytes are those
    of the queued frames and of the senders in a select, never negative, the
    queue never exceeds its capacity, and neither [closing] nor [stop] is
    closed twice. *)
Theorem tcp_pending_exact n s :
  reach n s →
  pendingPayloadBytes (ch s) = lsum (size ∘ proto) (outbound (ch s)) + msum pend (thr s) ∧
  0 ≤ pendingPayloadBytes (ch s) ∧ (length (outbound (ch s)) ≤ capacity (ch s))%nat ∧
  0 ≤ closing (ch s) ≤ 1 ∧ 0 ≤ stop (ch s) ≤ 1 ∧ 0 ≤ replyWG (ch s).
Proof.
  intros Hs. apply chan_inv_reach in Hs as Hinv.
  destruct (i_counters s Hinv) as (_ & Hw & Hp & Hb & Hc & Hst & _).
  pose proof (sums_nonneg (thr s)) as (N1 & _ & N3 & _).
  assert (0 ≤ lsum (size ∘ proto) (outbound (ch s))) by (apply lsum_nonneg; intros; simpl; unfold size; lia).
  split_and!; try done; try lia; destruct (closed (ch s)), (stopped (ch s)); lia.
Qed.

(** [closeWithProto] is not held up by blocked replies: while it waits for
    them, either it can go on or some reply still in its select can leave
    through [closing], which lowers the count it waits for. *)
Theorem tcp_close_progress n s i ctx p :
  reach n s → thr s !! i = Some (CCloseWith ctx p, WaitReplies) →
  (∃ s', step s s' ∧ thr s' !! i = Some (CCloseWith ctx p, Select)) ∨
  (∃ s' j ctx' p', step s s' ∧ thr s' !! j = Some (CReply ctx' p', WaitClosed) ∧
     replyWG (ch s') = replyWG (ch s) - 1 ∧ 0 ≤ replyWG (ch s')).
Proof.
  intros Hs Hi. apply chan_inv_reach in Hs as Hinv.
  destruct (i_counters s Hinv) as (_ & Hw & _ & _ & Hc & _ & _ & _ & Hcl & _).
  pose proof (shares _ _ _ Hi) as (_ & _ & _ & _ & S5). simpl in S5.
  pose proof (sums_nonneg (thr s)) as (_ & _ & N3 & _).
  pose proof (lsum_nonneg final (accepted s) tcp_final_nonneg) as N6.
  destruct (closed (ch s)) eqn:Ec; [|lia].
  destruct (Z.eqb_spec (replyWG (ch s)) 0) as [E|E].
  - left. eexists. split.
    + eapply (s_exec s i _ _ Default); [done|]. simpl. by rewrite E.
    + simpl. by rewrite lookup_insert_eq.
  - right. assert (Hpos : 0 < msum replying (thr s)) by lia.
    apply msum_pos_exists in Hpos as (j & [[] []] & Hj & Hr); simpl in Hr; try lia.
    eexists _, j, _, _. split.
    + eapply (s_exec s j _ _ Closed); [done|]. simpl. by rewrite Hc.
    + simpl. rewrite lookup_insert_eq. split_and!; [done|lia|lia].
Qed.
End Exec.

(** ** Witnesses

    A reply blocked on a full queue of one frame, a caller closing with a
    last frame, and the writer. *)

Module TcpChannelExample.
Definition ok (p : Proto) : option error := None.
Definition hello : Proto := mkProto OpPush 1 0 7 [].
Definition kick : Proto := mkProto OpKick 0 KickCodeServerShutdown 0 [].
Definition start : sys := mkSys (newChannel 1) ∅ WNext ∅ ∅ [] [].

Ltac go H i sel :=
  let H' := fresh in
  lazymatch type of H with
  | reach ?v ?n ?s =>
      eassert (H' : step v s _) by (eapply (s_exec v s i _ _ sel); [reflexivity|reflexivity]);
      apply (reach_step _ _ _ _ H) in H'; cbn in H'; clear H; rename H' into H;
      change (reachable (init_sys n) (step v)) with (reach v n) in H
  end.
Ltac take H tac :=
  let H' := fresh in
  lazymatch type of H with
  | reach ?v ?n ?s =>
      eassert (H' : step v s _) by (tac; reflexivity);
      apply (reach_step _ _ _ _ H) in H'; cbn in H'; clear H; rename H' into H;
      change (reachable (init_sys n) (step v)) with (reach v n) in H
  end.

(** The frame of call 0 queued, reply 1 in its select, close 2 waiting for it. *)
Definition blocked : sys :=
  mkSys (mkChannel [mkEvent hello None] 1 1 0 false 0 1 true false None 0 0)
    (<[2%nat := (CCloseWith 0 kick, WaitReplies)]>
      (<[1%nat := (CReply 0 hello, Select)]> {[0%nat := (CPush hello, Returned None)]}))
    WNext ∅ ∅ [mkEvent hello None] [].

Lemma reach_blocked : reach ok 1 blocked.
Proof.
  assert (H : reach ok 1 start) by by apply reach_init.
  take H ltac:(eapply (s_call ok _ 0 (CPush hello))).
  go H 0%nat Default. go H 0%nat Default. go H 0%nat Send.
  take H ltac:(eapply (s_call ok _ 1 (CReply 0 hello))). go H 1%nat Default. go H 1%nat Default.
  take H ltac:(eapply (s_call ok _ 2 (CCloseWith 0 kick))). go H 2%nat Default. go H 2%nat Default.
  exact H.
Qed.

Definition ended : sys :=
  mkSys (mkChannel [] 1 1 0 false 0 0 true false None 0 0)
    {[2%nat := (CCloseWith 0 kick, Returned None)]}
    (WFinish None) {[2%nat := None]} ∅ [mkEvent kick (Some 2%nat)] [mkEvent kick (Some 2%nat)].

Lemma tcp_reach_ended : reach ok 1 ended.
Proof.
  assert (H : reach ok 1 start) by by apply reach_init.
  take H ltac:(eapply (s_call ok _ 2 (CCloseWith 0 kick))).
  go H 2%nat Default. go H 2%nat Default. go H 2%nat Default. go H 2%nat Send.
  take H ltac:(eapply s_writer, (ws_next _ false)). take H ltac:(eapply s_writer, (ws_write _ _ None)).
  go H 2%nat Result. exact H.
Qed.

Lemma tcp_channel_refines_witness : oreach (abs blocked).
Proof.
  apply (tcp_channel_refines ok 1 blocked (blocked <| ctxs := {[0%nat := ESentinel CtxCanceled]} |>) reach_blocked).
  by apply (s_ctx ok blocked 0).
Defined.

Lemma tcp_close_reports_witness : ∃ l, written ended = l ++ [mkEvent kick (Some 2%nat)].
Proof.
  destruct (tcp_close_reports ok 1 ended 2 0 kick tcp_reach_ended) as (l & Hl & _); [reflexivity|].
  by exists l.
Defined.

Lemma tcp_pending_exact_witness : 0 ≤ pendingPayloadBytes (ch blocked).
Proof. apply (tcp_pending_exact ok 1 blocked reach_blocked). Defined.

Lemma tcp_close_progress_witness : replyWG (ch blocked) = 1 ∧ ∃ s', step ok blocked s'.
Proof.
  split; [reflexivity|].
  destruct (tcp_close_progress ok 1 blocked 2 0 kick reach_blocked) as [(s' & H & _)|(s' & j & c & p & H & _)];
    [reflexivity|by exists s'|by exists s'].
Defined.
End TcpChannelExample.
