(* ===== verification/WsChannel.v ===== *)
(** * A WebSocket channel (network/websocket/channel.go)

    Callers of [SendProto], [SendPrepared], [CloseWithProto] and [Close], the
    callback registered on the channel's context, the users of its heartbeat
    state and the writer goroutine share one channel.  A call is a thread,
    run by [exec] from one critical section, atomic operation, call on the
    socket or select to the next. *)

From S2P Require Import Prelude Errors Proto Heartbeat Codec Outbound.

Record outboundFrame := mkFrame {
  body : bytes;
  payloadBytes : Z;
  heartbeat : bool;
  done : option nat;                        (* owner of the chan error *)
}.

(** [ctxErr] is [ch.ctx.Err()]; [writerDone] counts the calls of [close] on
    that Go channel; [closeFrames] counts the close control frames written. *)
Record Channel := mkChannel {
  outbound : list outboundFrame;
  capacity : nat;
  ctxErr : option error;
  hb : Heartbeat.value;
  closed : bool;
  connOnce : bool;
  connErr : option error;
  connClosed : bool;
  closeFrames : Z;
  writerErr : option error;
  writerDone : Z;
  pendingPayloadBytes : Z;
  queueDropped : Z;
}.
#[export] Instance eta_Channel : Eta Channel := λ c,
  mkChannel (outbound c) (capacity c) (ctxErr c) (hb c) (closed c) (connOnce c) (connErr c) (connClosed c)
    (closeFrames c) (writerErr c) (writerDone c) (pendingPayloadBytes c) (queueDropped c).

Definition newChannel (n : nat) (ctx : option error) : Channel :=
  mkChannel [] n ctx Heartbeat.idle false false None false 0 None 0 0 0.

Definition full (c : Channel) : bool := (capacity c <=? length (outbound c))%nat.

Definition add_pending (n : Z) (c : Channel) : Channel :=
  c <| pendingPayloadBytes := pendingPayloadBytes c + n |>.

Definition send (f : outboundFrame) (c : Channel) : Channel := c <| outbound := outbound c ++ [f] |>.

(** ** Closing

    The pieces of [closeWithReason], [abort], [finishWriter] and
    [closeOnContext], each one step; [e] is what the socket's [Close]
    returns. *)

Inductive op := MarkClosed | CloseConnection | ConnClose | Cancel.

Definition markClosed (c : Channel) : Channel := c <| closed := true |>.

(** The body of [connOnce.Do] runs for the first caller only. *)
Definition closeConnection (e : option error) (c : Channel) : Channel * option error :=
  if connOnce c then (c, connErr c)
  else (c <| connOnce := true |> <| closeFrames := closeFrames c + 1 |>
          <| connErr := e |> <| connClosed := true |>, e).

Definition cancel (c : Channel) : Channel :=
  match ctxErr c with Some _ => c | None => c <| ctxErr := Some (ESentinel CtxCanceled) |> end.

Definition do_op (o : op) (e : option error) (c : Channel) : Channel * option error :=
  match o with
  | MarkClosed => (markClosed c, None)
  | CloseConnection => closeConnection e c
  | ConnClose => (c <| connClosed := true |>, e)
  | Cancel => (cancel c, None)
  end.

Definition closeWithReason : list op := [MarkClosed; CloseConnection; Cancel].
Definition abort : list op := [MarkClosed; ConnClose; Cancel].
Definition closeOnContext : list op := [MarkClosed; ConnClose].

Definition writerError (c : Channel) : error :=
  match writerErr c with Some err => err | None => ESentinel ErrConnectionClosed end.

(** ** Calls *)

Inductive call :=
| CEnqueue (payload : Z) (beat : bool) (encoded : bytes * option error)      (* enqueueFrame *)
| CCloseWith (ctx : nat) (p : option Proto)
| CClose
| COnContext.

Inductive pc :=
| Entry
| Locking (b : bytes)                       (* CloseWithProto: before sendMu.Lock() *)
| Select (b : bytes)
| FinalPoll | FinalSelect | FinalDone | FinalCtx    (* waitFinal *)
| Ops (l : list op) (err joined : option error)     (* closing; then return the error *)
| Returned (err : option error).

Inductive choice := Send | CtxDone | WriterDone | Result | Default.

(** The public send operations as calls: [inl] is an error returned at once. *)
Section Sends.
Context (codec : Codec) (proto_Marshal : Proto → bytes * option error).

Definition enqueueProto (p : option Proto) (beat : bool) : error + call :=
  match p with
  | None => inl (ESentinel ErrNilPayload)
  | Some m => inr (CEnqueue (zlen (Body m)) beat (Ws.marshalFrame codec p))
  end.

Definition SendProto (p : option Proto) : error + call := enqueueProto p false.

Definition sendHeartbeat : error + call := enqueueProto (Some (Proto_zero <| Op := OpHeartbeat |>)) true.

(** The closure encodes the prepared message and checks the size; how often
    [Marshal] really encodes is the matter of Codec. *)
Definition SendPrepared (message : option Prepared.PreparedProto) : error + call :=
  match message with
  | None => inl (ESentinel ErrNilPayload)
  | Some _ =>
      match Prepared.Message message with
      | None => inl (ESentinel ErrNilPayload)
      | Some p =>
          if Ws.canOptimizeFrames codec
          then inr (CEnqueue (zlen (Body p)) false
                      (match (Prepared.Marshal proto_Marshal message).2 with
                       | (_, Some err) => ([], Some err)
                       | (b, None) => (b, Ws.validateFrameBody b)
                       end))
          else SendProto (Some p)
      end
  end.
End Sends.

Section Exec.
Context (codec : Codec).

Section One.
Context (ctxErrs : nat → option error) (result : option (option error)) (self : nat).

Definition outcome : Type := option (Channel * pc * option outboundFrame).

Definition goto (c : Channel) (k : pc) : outcome := Some (c, k, None).

(** [enqueueFrame], all of it under [sendMu]. *)
Definition enqueueFrame (payload : Z) (beat : bool) (encoded : bytes * option error) (c : Channel) : outcome :=
  if closed c then goto c (Returned (Some (ESentinel ErrConnectionClosed)))
  else if full c
  then goto (c <| queueDropped := queueDropped c + 1 |>) (Returned (Some (ESentinel ErrSendQueueFull)))
  else match encoded with
       | (_, Some err) => goto c (Returned (Some err))
       | (b, None) =>
           let f := mkFrame b payload beat None in
           Some (send f (add_pending payload c), Returned None, Some f)
       end.

Definition payload_of (p : option Proto) : Z := match p with Some m => zlen (Body m) | None => 0 end.

Definition ctx_abort (ctx : nat) (c : Channel) : outcome :=
  match ctxErrs ctx with Some err => goto c (Ops abort None (Some err)) | None => None end.

Definition waitFinal (ctx : nat) (k : pc) (sel : choice) (c : Channel) : outcome :=
  match k, sel, result with
  | (FinalPoll | FinalSelect | FinalDone | FinalCtx), Result, Some err => goto c (Returned err)
  | FinalPoll, Default, None => goto c FinalSelect
  | FinalSelect, WriterDone, _ => if 0 <? writerDone c then goto c FinalDone else None
  | FinalSelect, CtxDone, _ => match ctxErrs ctx with Some _ => goto c FinalCtx | None => None end
  | FinalDone, Default, None => goto c (Returned (Some (writerError c)))
  | FinalCtx, Default, None => ctx_abort ctx c
  | _, _, _ => None
  end.

Definition CloseWithProto (ctx : nat) (p : option Proto) (k : pc) (sel : choice) (c : Channel) : outcome :=
  match k with
  | Entry =>
      match Ws.marshalFrame codec p with
      | (_, Some err) => goto c (Returned (Some err))
      | (b, None) => goto c (Locking b)
      end
  | Locking b =>
      if closed c then goto c (Returned (Some (ESentinel ErrConnectionClosed)))
      else goto (add_pending (payload_of p) (c <| closed := true |>)) (Select b)
  | Select b =>
      match sel with
      | Send => if full c then None
                else let f := mkFrame b (payload_of p) false (Some self) in
                     Some (send f c, FinalPoll, Some f)
      | WriterDone =>
          if 0 <? writerDone c
          then goto (add_pending (- payload_of p) c) (Returned (Some (writerError c))) else None
      | CtxDone => ctx_abort ctx (add_pending (- payload_of p) c)
      | _ => None
      end
  | _ => waitFinal ctx k sel c
  end.

(** [sockErr]: what the socket's [Close] returns if this step calls it. *)
Definition exec (f : call) (k : pc) (sel : choice) (sockErr : option error) (c : Channel) : outcome :=
  match k with
  | Ops (o :: l) err joined =>
      let r := do_op o sockErr c in
      goto r.1 (Ops l (match r.2 with Some e => Some e | None => err end) joined)
  | Ops [] err joined =>
      goto c (Returned (match joined with Some e => errors_Join [Some e; err] | None => err end))
  | _ =>
      match f with
      | CEnqueue payload beat encoded =>
          match k with Entry => enqueueFrame payload beat encoded c | _ => None end
      | CCloseWith ctx p => CloseWithProto ctx p k sel c
      | CClose => match k with Entry => goto c (Ops closeWithReason None None) | _ => None end
      | COnContext => match k with Entry => goto c (Ops closeOnContext None None) | _ => None end
      end
  end.
End One.

(** ** The writer (writeLoop, writeOutbound, finishWriter) *)

Inductive wop :=
| WOp (o : op)
| WReport (i : nat)                         (* frame.done <- writeErr *)
| WPublish.                                 (* writerErr = err; close(writerDone) *)

Inductive writer :=
| WLoop
| WBegin (f : outboundFrame)                (* heartbeat.BeginWrite() *)
| WWrite (f : outboundFrame)                (* writeMessage *)
| WSwap (f : outboundFrame)                 (* heartbeat.FinishWrite(), the swap *)
| WLoad (f : outboundFrame)                 (* ... and the load after a failed swap *)
| WOps (l : list wop) (err : option error)
| WExit.

Definition finishWriter : list wop := (WOp <$> [MarkClosed; CloseConnection; Cancel]) ++ [WPublish].

(** [writeLoop] once [writeOutbound] returned [err]. *)
Definition afterWrite (f : outboundFrame) (err : option error) : writer :=
  match done f, err with
  | Some i, _ => WOps ((WOp <$> closeWithReason) ++ WReport i :: finishWriter) err
  | None, None => WLoop
  | None, Some _ => WOps ((WOp <$> closeWithReason) ++ finishWriter) err
  end.

Record sys := mkSys {
  ch : Channel;
  thr : gmap nat (call * pc);
  wr : writer;
  results : gmap nat (option error);
  ctxs : gmap nat error;
  accepted : list outboundFrame;
  written : list outboundFrame;
}.
#[export] Instance eta_sys : Eta sys := λ s,
  mkSys (ch s) (thr s) (wr s) (results s) (ctxs s) (accepted s) (written s).

(** A heartbeat frame that cannot enter or leave the writing state. *)
Definition badHeartbeat : option error := Some (ESentinel ErrInvalidHeartbeatState).

Inductive writer_step (s : sys) : sys → Prop :=
| ws_done err :
    wr s = WLoop → ctxErr (ch s) = Some err → writer_step s (s <| wr := WOps finishWriter (Some err) |>)
| ws_next f rest :
    wr s = WLoop → outbound (ch s) = f :: rest →
    writer_step s (s <| ch := add_pending (- payloadBytes f) ((ch s) <| outbound := rest |>) |>
                     <| wr := if heartbeat f then WBegin f else WWrite f |>)
| ws_begin f v ok :
    wr s = WBegin f → Heartbeat.BeginWrite (hb (ch s)) = (v, ok) →
    writer_step s (s <| ch := (ch s) <| hb := v |> |>
                     <| wr := if ok then WWrite f else afterWrite f badHeartbeat |>)
| ws_fail f err :
    wr s = WWrite f → writer_step s (s <| wr := afterWrite f (Some err) |>)
| ws_write f :
    wr s = WWrite f →
    writer_step s (s <| written := written s ++ [f] |>
                     <| wr := if heartbeat f then WSwap f else afterWrite f None |>)
| ws_swap f v ok :
    wr s = WSwap f → Heartbeat.FinishWrite_swap (hb (ch s)) = (v, ok) →
    writer_step s (s <| ch := (ch s) <| hb := v |> |>
                     <| wr := if ok then afterWrite f None else WLoad f |>)
| ws_load f :
    wr s = WLoad f →
    writer_step s (s <| wr := afterWrite f (if Heartbeat.FinishWrite_load (hb (ch s)) then None
                                            else badHeartbeat) |>)
| ws_op o l err sockErr c e :
    wr s = WOps (WOp o :: l) err → do_op o sockErr (ch s) = (c, e) →
    writer_step s (s <| ch := c |>
                     <| wr := WOps l (match o with CloseConnection => errors_Join [err; e] | _ => err end) |>)
| ws_report i l err :
    wr s = WOps (WReport i :: l) err →
    writer_step s (s <| results := <[i := err]> (results s) |> <| wr := WOps l err |>)
| ws_publish l err :
    wr s = WOps (WPublish :: l) err →
    writer_step s (s <| ch := (ch s) <| writerErr := err |> <| writerDone := writerDone (ch s) + 1 |> |>
                     <| wr := WExit |>).

(** The ticker and the reader of a client move the heartbeat state. *)
Definition beats (v v' : Heartbeat.value) : Prop :=
  v' = (Heartbeat.Tick v).1 ∨ v' = (Heartbeat.CancelQueue v).1 ∨ v' = (Heartbeat.Reply v).1.

Inductive step (s : sys) : sys → Prop :=
| s_call i f :
    thr s !! i = None → (f = COnContext → ctxErr (ch s) ≠ None) →
    step s (s <| thr := <[i := (f, Entry)]> (thr s) |>)
| s_exec i f k sel sockErr c' k' out :
    thr s !! i = Some (f, k) →
    exec (λ n, ctxs s !! n) (results s !! i) i f k sel sockErr (ch s) = Some (c', k', out) →
    step s (s <| ch := c' |> <| thr := <[i := (f, k')]> (thr s) |>
              <| accepted := accepted s ++ option_list out |>)
| s_writer s' : writer_step s s' → step s s'
| s_beat v : beats (hb (ch s)) v → step s (s <| ch := (ch s) <| hb := v |> |>)
| s_parent err :
    ctxErr (ch s) = None → step s (s <| ch := (ch s) <| ctxErr := Some err |> |>)
| s_ctx n err :
    ctxs s !! n = None → step s (s <| ctxs := <[n := err]> (ctxs s) |>).

Definition init_sys (n : nat) (s : sys) : Prop :=
  ∃ e, s = mkSys (newChannel n e) ∅ WLoop ∅ ∅ [] [].

Definition reach (n : nat) : sys → Prop := reachable (init_sys n) step.

(** ** Invariant *)

Definition pend (t : call * pc) : Z :=
  match t with (CCloseWith _ p, Select _) => payload_of p | _ => 0 end.
Definition sealing (t : call * pc) : Z := match t with (CCloseWith _ _, Select _) => 1 | _ => 0 end.
Definition final (f : outboundFrame) : Z := match done f with Some _ => 1 | None => 0 end.

Definition publishing (w : writer) : Prop :=
  match w with WExit => False | WOps l _ => ∃ k, l = k ++ [WPublish] ∧ WPublish ∉ k | _ => True end.

(** One call at most seals, its bytes and the queued ones are the pending
    ones, one close frame is written, and [writerDone] is closed once. *)
Definition counters (c : Channel) (m : gmap nat (call * pc)) (acc : list outboundFrame) : Prop :=
  pendingPayloadBytes c = lsum payloadBytes (outbound c) + msum pend m ∧
  (length (outbound c) ≤ capacity c)%nat ∧
  lsum final acc + msum sealing m ≤ (if closed c then 1 else 0) ∧
  closeFrames c = (if connOnce c then 1 else 0).

Definition fifo (s : sys) : Prop :=
  match wr s with
  | WLoop | WSwap _ | WLoad _ => accepted s = written s ++ outbound (ch s)
  | WBegin f | WWrite f => accepted s = written s ++ f :: outbound (ch s)
  | WOps _ _ | WExit => written s `prefix_of` accepted s
  end.

Definition reported (s : sys) (i : nat) : Prop := ∃ f, f ∈ written s ∧ done f = Some i.

(** A closing call keeps its encoded frame, fails when it aborts, and returns
    nil only when its frame was written. *)
Definition thread_ok (written : Prop) (t : call * pc) : Prop :=
  match t with
  | (CCloseWith _ p, (Locking b | Select b)) => Ws.marshalFrame codec p = (b, None)
  | (CCloseWith _ _, Ops _ _ None) => False
  | (CCloseWith _ _, Returned None) => written
  | _ => True
  end.

(** What the writer is about to report, it wrote. *)
Definition reports (s : sys) : Prop :=
  match wr s with
  | WSwap f | WLoad f => f ∈ written s
  | WOps l None => ∀ i, WReport i ∈ l → reported s i
  | _ => True
  end.

Record inv (s : sys) : Prop := mkInv {
  i_counters : counters (ch s) (thr s) (accepted s);
  i_done : writerDone (ch s) = (match wr s with WExit => 1 | _ => 0 end) ∧ (wr s ≠ WExit → publishing (wr s));
  i_fifo : fifo s;
  i_owner : ∀ f i, f ∈ accepted s → done f = Some i →
              ∃ ctx p k, thr s !! i = Some (CCloseWith ctx p, k) ∧ Ws.marshalFrame codec p = (body f, None);
  i_reports : reports s;
  i_result : ∀ i, results s !! i = Some None → reported s i;
  i_threads : ∀ i t, thr s !! i = Some t → thread_ok (reported s i) t;
}.

Lemma ws_sealing_nonneg t : 0 ≤ sealing t.
Proof. destruct t as [[] []]; simpl; lia. Qed.
Lemma ws_final_nonneg f : 0 ≤ final f.
Proof. unfold final. case_match; lia. Qed.

(** Split an equation [exec ... = Some _] into the branches that exist. *)
Ltac open_exec H :=
  unfold exec, enqueueFrame, CloseWithProto, waitFinal, ctx_abort, goto in H;
  repeat first
    [ match type of H with
      | context [match ?x with _ => _ end] => destruct x eqn:?
      end
    | progress simplify_eq/= ].

Lemma do_op_frame o e c :
  let c' := (do_op o e c).1 in
  outbound c' = outbound c ∧ capacity c' = capacity c ∧ pendingPayloadBytes c' = pendingPayloadBytes c ∧
  writerDone c' = writerDone c ∧ hb c' = hb c ∧
  (closed c' = closed c ∨ closed c = false ∧ closed c' = true) ∧
  (closeFrames c = (if connOnce c then 1 else 0) → closeFrames c' = (if connOnce c' then 1 else 0)).
Proof.
  destruct o; simpl; unfold markClosed, closeConnection, cancel.
  - split_and!; try done. simpl. destruct (closed c); auto.
  - destruct (connOnce c) eqn:E; simpl; rewrite ?E; split_and!; auto; lia.
  - split_and!; auto.
  - destruct (ctxErr c); split_and!; auto.
Qed.

(** What a step of a call does to the queue and to the closed flag. *)
Inductive effect (self : nat) (f : call) (k : pc) (c c' : Channel) : option outboundFrame → Prop :=
| eff_none :
    closed c' = closed c ∨ closed c = false ∧ closed c' = true → effect self f k c c' None
| eff_final ctx p b :
    closed c' = closed c → f = CCloseWith ctx p → k = Select b →
    effect self f k c c' (Some (mkFrame b (payload_of p) false (Some self)))
| eff_send g :
    closed c = false → closed c' = false → done g = None → effect self f k c c' (Some g).

Lemma ws_exec_effect cx r i f k sel e c c' k' out :
  exec cx r i f k sel e c = Some (c', k', out) →
  effect i f k c c' out ∧ outbound c' = outbound c ++ option_list out ∧ writerDone c' = writerDone c.
Proof.
  intros He. destruct k as [| | | | | | |[|o l] err joined|]; simpl in He.
  8:{ unfold goto in He. simplify_eq/=. rewrite app_nil_r. split; [constructor; by left|done]. }
  8:{ unfold goto in He. simplify_eq. pose proof (do_op_frame o e c) as (-> & _ & _ & -> & _ & Hc & _).
      simpl. rewrite app_nil_r. by split; [constructor|]. }
  all: destruct f; simpl in He; try done; open_exec He.
  all: unfold send, add_pending; simpl; rewrite ?app_nil_r.
  all: split_and!; try done; econstructor; simpl; eauto.
Qed.

Lemma exec_thread_ok (rep : Prop) cx r i f k sel e c c' k' out :
  exec cx r i f k sel e c = Some (c', k', out) → (r = Some None → rep) →
  thread_ok rep (f, k) → thread_ok rep (f, k').
Proof.
  intros He Hr Hok. destruct f as [| ctx p| |]; try done.
  destruct k as [| | | | | | |[|o l] err joined|]; simpl in He, Hok; open_exec He; simpl in *; auto.
  all: repeat case_match; simplify_eq/=; auto; done.
Qed.

Lemma ws_counters_exec cx r i f k sel e c m acc c' k' out :
  counters c m acc → m !! i = Some (f, k) → exec cx r i f k sel e c = Some (c', k', out) →
  counters c' (<[i := (f, k')]> m) (acc ++ option_list out).
Proof.
  intros (Hp & Hb & Hs & Hf) Hi He.
  pose proof (msum_nonneg sealing m ws_sealing_nonneg) as N1.
  pose proof (lsum_nonneg final acc ws_final_nonneg) as N2.
  unfold counters. rewrite !(msum_insert _ i (f, k)), lsum_app by done.
  destruct k as [| | | | | | |[|o l] err joined|]; simpl in He.
  8:{ unfold goto in He. simplify_eq. destruct f; simpl; split_and!; try done; lia. }
  8:{ unfold goto in He. simplify_eq. pose proof (do_op_frame o e c) as (-> & -> & -> & _ & _ & Hc & Hfr).
      destruct f; simpl; split_and!; auto; try lia.
      all: destruct Hc as [->|[Hc1 ->]]; [lia|rewrite Hc1 in Hs; lia]. }
  all: destruct f; simpl in He; try done; open_exec He.
  all: unfold send, add_pending; simpl; rewrite ?lsum_app, ?length_app; simpl.
  all: repeat match goal with H : full _ = false |- _ => apply Nat.leb_gt in H end.
  all: unfold final in *; simpl in *.
  all: try match goal with H : closed ?c = _ |- _ => rewrite ?H in *; simpl in * end.
  all: split_and!; try done; try lia.
Qed.

Lemma ws_inv_call s i f :
  inv s → thr s !! i = None → inv (s <| thr := <[i := (f, Entry)]> (thr s) |>).
Proof.
  intros [Hc Hd Hf Ho Hrep Hres Hth] Hi. split; simpl; try done.
  - unfold counters in *. rewrite !msum_insert_new by done. by destruct f.
  - intros g j Hg Hj. destruct (Ho g j Hg Hj) as (ctx & p & k & Hk & Hm). exists ctx, p, k.
    rewrite lookup_insert_ne; [done|]. intros ->. congruence.
  - intros j t Hj. apply lookup_insert_Some in Hj as [[_ <-]|[_ Hj]]; [by destruct f|by apply Hth].
Qed.

Lemma ws_inv_exec s i f k sel e c' k' out :
  inv s → thr s !! i = Some (f, k) →
  exec (λ n, ctxs s !! n) (results s !! i) i f k sel e (ch s) = Some (c', k', out) →
  inv (s <| ch := c' |> <| thr := <[i := (f, k')]> (thr s) |> <| accepted := accepted s ++ option_list out |>).
Proof.
  intros [Hc Hd Hf Ho Hrep Hres Hth] Hi He.
  destruct (ws_exec_effect _ _ _ _ _ _ _ _ _ _ _ He) as (Heff & Hout & Hwd).
  split; simpl; try done.
  - by eapply ws_counters_exec.
  - by rewrite Hwd.
  - unfold fifo in *; simpl. rewrite Hout.
    destruct (wr s); try (by rewrite Hf, <-app_assoc).
    all: destruct Hf as [t ->]; rewrite <-app_assoc; by eexists.
  - intros g j [Hin|Hin]%elem_of_app Hj.
    + destruct (Ho g j Hin Hj) as (ctx & p & k0 & Hk & Hm). destruct (decide (j = i)) as [->|Hne].
      * exists ctx, p, k'. rewrite lookup_insert_eq. by simplify_eq.
      * exists ctx, p, k0. by rewrite lookup_insert_ne.
    + destruct Heff as [|ctx p b _ -> ->|h _ _ Hh]; simpl in Hin; [by apply elem_of_nil in Hin|..].
      all: apply list_elem_of_singleton in Hin as ->; simplify_eq/=.
      exists ctx, p, k'. rewrite lookup_insert_eq. split; [done|]. apply (Hth _ _ Hi).
  - intros j t Hj. apply lookup_insert_Some in Hj as [[-> <-]|[_ Hj]]; [|by apply (Hth j)].
    eapply exec_thread_ok; [exact He|apply Hres|by apply Hth].
Qed.

Lemma ws_reported_mono s s' i : written s `prefix_of` written s' → reported s i → reported s' i.
Proof. intros [t Ht] (e & He & Hd). exists e. rewrite Ht. split; [by apply elem_of_app; left|done]. Qed.

Lemma thread_ok_mono (P Q : Prop) t : (P → Q) → thread_ok P t → thread_ok Q t.
Proof. destruct t as [[] []]; simpl; auto; repeat case_match; auto. Qed.

(** The writer's own step keeps the invariant when it keeps its own part. *)
Lemma inv_writer_frame s s' :
  inv s → thr s' = thr s → accepted s' = accepted s → written s `prefix_of` written s' →
  counters (ch s') (thr s) (accepted s) →
  writerDone (ch s') = (match wr s' with WExit => 1 | _ => 0 end) → (wr s' ≠ WExit → publishing (wr s')) →
  fifo s' → reports s' → (∀ i, results s' !! i = Some None → reported s' i) → inv s'.
Proof.
  intros [Hc Hd Hf Ho Hrep Hres Hth] Eth Eac Hpre Hc' Hd' Hp' Hf' Hrep' Hres'.
  split; rewrite ?Eth, ?Eac; try done.
  intros i t Hi. eapply thread_ok_mono; [|by apply Hth]. by apply ws_reported_mono.
Qed.

Lemma finish_publishing l err :
  WPublish ∉ l → publishing (WOps (l ++ finishWriter) err).
Proof.
  intros Hl. exists (l ++ (WOp <$> [MarkClosed; CloseConnection; Cancel])). unfold finishWriter.
  rewrite app_assoc. split; [done|]. rewrite elem_of_app. intros [?|Hin]; [done|].
  apply list_elem_of_fmap in Hin as (o & ? & _). done.
Qed.

Lemma afterWrite_ok f err :
  afterWrite f err ≠ WExit ∧ publishing (afterWrite f err).
Proof.
  unfold afterWrite. destruct (done f) as [i|], err; (split; [done|]); try exact I.
  all: try apply (finish_publishing (WOp <$> closeWithReason)).
  1,2: change (WReport i :: finishWriter) with ([WReport i] ++ finishWriter); rewrite app_assoc;
    apply finish_publishing.
  all: unfold closeWithReason; simpl; rewrite !not_elem_of_cons; split_and!; try done; apply not_elem_of_nil.
Qed.

(** What [afterWrite] will report. *)
Lemma afterWrite_reports s f err :
  wr s = afterWrite f err → (err = None → f ∈ written s) → reports s.
Proof.
  intros Hw Hf. unfold reports. rewrite Hw. unfold afterWrite.
  destruct (done f) as [i|] eqn:Ed, err; try done.
  intros j Hj. exists f. split; [by apply Hf|].
  unfold closeWithReason, finishWriter in Hj. simpl in Hj.
  repeat (apply elem_of_cons in Hj as [Hj|Hj]; [by simplify_eq|]). by apply elem_of_nil in Hj.
Qed.

Lemma afterWrite_fifo s f err :
  wr s = afterWrite f err →
  (err = None → accepted s = written s ++ outbound (ch s)) → written s `prefix_of` accepted s → fifo s.
Proof.
  intros Hw H1 H2. unfold fifo. rewrite Hw. unfold afterWrite. destruct (done f), err; auto.
Qed.

Lemma afterWrite_done f err : (match afterWrite f err with WExit => 1 | _ => 0 end) = 0.
Proof. unfold afterWrite. by destruct (done f), err. Qed.

Lemma counters_hb c m acc v : counters c m acc → counters (c <| hb := v |>) m acc.
Proof. done. Qed.

Lemma counters_op o e c m acc : counters c m acc → counters (do_op o e c).1 m acc.
Proof.
  intros (Hp & Hb & Hs & Hf). pose proof (do_op_frame o e c) as (Eo & Eca & Ep & _ & _ & Hc & Hfr).
  unfold counters. rewrite Eo, Eca, Ep. split_and!; auto.
  destruct Hc as [->|[Hc1 ->]]; [done|rewrite Hc1 in Hs; lia].
Qed.

Lemma reports_tail s s' o l err e :
  reports s → wr s = WOps (WOp o :: l) err → written s' = written s →
  wr s' = WOps l (match o with CloseConnection => errors_Join [err; e] | _ => err end) → reports s'.
Proof.
  unfold reports. intros Hrep Hw Ew ->. rewrite Hw in Hrep.
  destruct err as [err|]; [destruct o; [done| |done..]; simpl; by destruct e|].
  assert (Hl : ∀ i, WReport i ∈ l → reported s' i).
  { intros i Hi. apply (ws_reported_mono s); [by rewrite Ew|]. apply Hrep. by apply elem_of_cons; right. }
  destruct o; try done. by destruct e.
Qed.

Lemma publishing_tail w l err e : publishing (WOps (w :: l) err) → w ≠ WPublish → publishing (WOps l e).
Proof.
  intros (k & Hk & Hn) Hw. destruct k as [|w' k]; simplify_eq/=.
  exists k. split; [done|]. intros Hin. apply Hn. by apply elem_of_cons; right.
Qed.

(** The steps that write a frame. *)
Lemma inv_writer_write s s' : inv s → writer_step s s' → (∀ l err, wr s ≠ WOps l err) → inv s'.
Proof.
  intros Hinv Hst Hno. pose proof Hinv as [Hc [Hd _] Hf Ho Hrep Hres Hth].
  pose proof Hf as Hff. unfold fifo in Hff. unfold reports in Hrep.
  destruct Hst as [err Hw He|f rest Hw Hq|f v ok Hw Hb|f err Hw|f Hw|f v ok Hw Hb|f Hw|o l err se c e Hw _|i l err Hw|l err Hw];
    try (by destruct (Hno _ _ Hw)); rewrite Hw in Hd, Hff, Hrep.
  - apply (inv_writer_frame s); simpl; try done.
    + intros _. apply (finish_publishing [] None), not_elem_of_nil.
    + unfold fifo; simpl. rewrite Hff. by eexists.
  - apply (inv_writer_frame s); simpl; try done.
    + destruct Hc as (Hp & Hb & Hs & Hfr). rewrite Hq in Hp, Hb. unfold counters; simpl in *.
      split_and!; try done; lia.
    + by destruct (heartbeat f).
    + by destruct (heartbeat f).
    + unfold fifo; simpl. rewrite Hq in Hff. by destruct (heartbeat f).
    + unfold reports; simpl. by destruct (heartbeat f).
  - apply (inv_writer_frame s); simpl; try done.
    + rewrite Hd. destruct ok; [done|]. by rewrite afterWrite_done.
    + intros _. destruct ok; [done|]. apply afterWrite_ok.
    + destruct ok; [done|]. eapply afterWrite_fifo; [done|done|]. simpl. rewrite Hff. by eexists.
    + destruct ok; [done|]. by eapply afterWrite_reports.
  - apply (inv_writer_frame s); simpl; try done.
    + by rewrite afterWrite_done.
    + intros _. apply afterWrite_ok.
    + eapply afterWrite_fifo; [done|done|]. simpl. rewrite Hff. by eexists.
    + by eapply afterWrite_reports.
  - assert (Hin : f ∈ written s ++ [f]) by (apply elem_of_app; right; by apply list_elem_of_singleton).
    apply (inv_writer_frame s); simpl; try done.
    + by apply prefix_app_r.
    + destruct (heartbeat f); [done|]. by rewrite afterWrite_done.
    + intros _. destruct (heartbeat f); [done|]. apply afterWrite_ok.
    + destruct (heartbeat f); [unfold fifo; simpl; by rewrite Hff, <-app_assoc|].
      eapply afterWrite_fifo; simpl; [done|intros _; by rewrite Hff, <-app_assoc|].
      rewrite Hff. apply prefix_app. by eexists.
    + destruct (heartbeat f); [done|]. by eapply afterWrite_reports.
    + intros i Hi. apply (ws_reported_mono s); [|by apply Hres]. by apply prefix_app_r.
  - apply (inv_writer_frame s); simpl; try done.
    + rewrite Hd. destruct ok; [|done]. by rewrite afterWrite_done.
    + intros _. destruct ok; [|done]. apply afterWrite_ok.
    + destruct ok; [|done]. eapply afterWrite_fifo; [done|done|]. simpl. rewrite Hff. by eexists.
    + destruct ok; [|done]. by eapply afterWrite_reports.
  - apply (inv_writer_frame s); simpl; try done.
    + by rewrite afterWrite_done.
    + intros _. apply afterWrite_ok.
    + eapply afterWrite_fifo; [done|done|]. simpl. rewrite Hff. by eexists.
    + by eapply afterWrite_reports.
Qed.

Lemma ws_inv_writer s s' : inv s → writer_step s s' → inv s'.
Proof.
  intros Hinv Hst. destruct (wr s) as [| | | | |l0 err0|] eqn:Ew.
  1-5,7: apply (inv_writer_write s s' Hinv Hst); intros; by rewrite Ew.
  pose proof Hinv as [Hc [Hd Hpub] Hf Ho Hrep Hres Hth]. unfold fifo in Hf.
  destruct Hst as [err Hw He|f rest Hw Hq|f v ok Hw Hb|f err Hw|f Hw|f v ok Hw Hb|f Hw|o l err se c e Hw Hop|i l err Hw|l err Hw];
    rewrite Ew in *; try discriminate Hw; injection Hw as -> ->.
  - apply (f_equal fst) in Hop as Ec. simpl in Ec. subst c.
    apply (inv_writer_frame s); simpl; try done.
    + by apply counters_op.
    + pose proof (do_op_frame o se (ch s)) as (_ & _ & _ & -> & _). done.
    + intros _. apply (publishing_tail (WOp o) l err None); [by apply Hpub|done].
    + by eapply reports_tail.
  - apply (inv_writer_frame s); simpl; try done.
    + intros _. apply (publishing_tail (WReport i) l err None); [by apply Hpub|done].
    + unfold reports in *; simpl. rewrite Ew in Hrep. destruct err; [done|].
      intros j Hj. apply Hrep. by apply elem_of_cons; right.
    + intros j Hj. apply lookup_insert_Some in Hj as [[-> ->]|[_ Hj]]; [|by apply Hres].
      unfold reports in Hrep. rewrite Ew in Hrep. apply Hrep. by apply elem_of_cons; left.
  - apply (inv_writer_frame s); simpl; try done. by rewrite Hd.
Qed.

Lemma ws_inv_reach n s : reach n s → inv s.
Proof.
  apply invariant_reachable.
  - intros s0 [e ->]. split; try done; simpl.
    + unfold counters; simpl. rewrite !msum_empty. split_and!; try done; simpl; lia.
    + by intros e0 j He%elem_of_nil.
  - intros s0 s1 _ Hinv Hst.
    destruct Hst as [i f Hi _|i f k sel e c' k' out Hi He|s1 Hw|v Hv|err He|m err Hm].
    + by apply ws_inv_call.
    + by eapply ws_inv_exec.
    + by eapply ws_inv_writer.
    + by destruct Hinv; split.
    + by destruct Hinv; split.
    + by destruct Hinv; split.
Qed.

(** ** Refinement of the outbound contract *)

Definition mark (f : outboundFrame) : bytes * bool :=
  (body f, match done f with Some _ => true | None => false end).

Definition abs_phase (s : sys) : phase :=
  if 0 <? lsum final (accepted s) then Sealed else if closed (ch s) then Closing else Open.

Definition abs (s : sys) : Outbound.outbound bytes :=
  mkOutbound (abs_phase s) (mark <$> accepted s) (mark <$> written s).

(** Closing is the only change of the abstract state a closing step makes. *)
Lemma abs_closing s s' :
  inv s → accepted s' = accepted s → written s' = written s →
  closed (ch s') = closed (ch s) ∨ closed (ch s) = false ∧ closed (ch s') = true →
  rtc ostep (abs s) (abs s').
Proof.
  intros Hinv Ea Ew Hc. unfold abs, abs_phase. rewrite Ea, Ew. destruct Hc as [->|[Hc ->]]; [done|].
  destruct (i_counters s Hinv) as (_ & _ & Hs & _). rewrite Hc in *.
  pose proof (msum_nonneg sealing (thr s) ws_sealing_nonneg).
  pose proof (lsum_nonneg final (accepted s) ws_final_nonneg).
  replace (lsum final (accepted s)) with 0 by lia. apply rtc_once, close_step.
Qed.

Lemma ws_abs_exec s i f k sel e c' k' out :
  inv s → thr s !! i = Some (f, k) →
  exec (λ n, ctxs s !! n) (results s !! i) i f k sel e (ch s) = Some (c', k', out) →
  rtc ostep (abs s) (abs (s <| ch := c' |> <| thr := <[i := (f, k')]> (thr s) |>
                            <| accepted := accepted s ++ option_list out |>)).
Proof.
  intros Hinv Hi He. destruct (ws_exec_effect _ _ _ _ _ _ _ _ _ _ _ He) as (Heff & _ & _).
  destruct (i_counters s Hinv) as (_ & _ & Hs & _).
  pose proof (msum_nonneg sealing (thr s) ws_sealing_nonneg) as N1.
  pose proof (lsum_nonneg final (accepted s) ws_final_nonneg) as N2.
  destruct Heff as [Hc|ctx p b Hc -> ->|g Ho Hc Hg].
  - apply abs_closing; simpl; try done. apply app_nil_r.
  - assert (S1 : 1 ≤ msum sealing (thr s)).
    { apply (msum_lookup_le sealing i _ _) in Hi; [exact Hi|]. intros. apply ws_sealing_nonneg. }
    unfold abs, abs_phase; simpl. rewrite Hc. destruct (closed (ch s)) eqn:Ec; [|lia].
    rewrite lsum_app, fmap_app. replace (lsum final (accepted s)) with 0 by lia. simpl.
    apply rtc_once, seal_step.
  - rewrite Ho in Hs. unfold abs, abs_phase; simpl. rewrite Hc, Ho, lsum_app, fmap_app.
    replace (lsum final (accepted s)) with 0 by lia. simpl.
    assert (mark g = (body g, false)) as -> by (unfold mark; by rewrite Hg).
    replace (final g) with 0 by (unfold final; by rewrite Hg).
    by apply rtc_once, accept_step.
Qed.

Lemma abs_writer s s' : inv s → writer_step s s' → rtc ostep (abs s) (abs s').
Proof.
  intros Hinv Hst. pose proof (i_fifo s Hinv) as Hf. unfold fifo in Hf.
  destruct Hst as [err Hw He|f rest Hw Hq|f v ok Hw Hb|f err Hw|f Hw|f v ok Hw Hb|f Hw|o l err se c e Hw Hop|i l err Hw|l err Hw];
    try (apply abs_closing; simpl; auto; done).
  - rewrite Hw in Hf. unfold abs; simpl. rewrite fmap_app. apply rtc_once, deliver_step.
    rewrite Hf, fmap_app. simpl. apply prefix_app. by eexists.
  - apply abs_closing; simpl; try done. apply (f_equal fst) in Hop as Ec. simpl in Ec. subst c. apply do_op_frame.
Qed.

Lemma ws_abs_step n s s' : reach n s → step s s' → rtc ostep (abs s) (abs s').
Proof.
  intros Hs Hst. apply ws_inv_reach in Hs as Hinv.
  destruct Hst as [i f Hi _|i f k sel e c' k' out Hi He|s1 Hw|v Hv|err He|m err Hm]; try done.
  - by eapply ws_abs_exec.
  - by apply abs_writer.
Qed.

Lemma ws_abs_reach n s : reach n s → oreach (abs s).
Proof.
  apply refines_reach.
  - by intros s0 [e ->].
  - intros s0 s1. apply ws_abs_step.
Qed.

(** ** Properties *)

(** C8: the WebSocket channel refines the same outbound contract as the TCP
    one, with encoded frames. *)
Theorem ws_channel_refines n s s' :
  reach n s → step s s' → oreach (abs s) ∧ rtc ostep (abs s) (abs s').
Proof. intros Hs Hst. split; [by eapply ws_abs_reach|by eapply ws_abs_step]. Qed.

(** [CloseWithProto] returns nil only if the encoding of its message was
    written as the last frame of the connection, after every frame accepted
    before it. *)
Theorem ws_close_reports n s i ctx p :
  reach n s → thr s !! i = Some (CCloseWith ctx p, Returned None) →
  ∃ l b, Ws.marshalFrame codec p = (b, None) ∧ (mark <$> written s) = l ++ [(b, true)] ∧
    mark <$> accepted s = mark <$> written s ∧ finals l = [].
Proof.
  intros Hs Hi. apply ws_inv_reach in Hs as Hinv. pose proof (ws_abs_reach n s Hs) as Ha.
  destruct (i_threads s Hinv i _ Hi) as (f & Hf & Hd).
  assert (Hin : (body f, true) ∈ delivered (abs s)).
  { replace (body f, true) with (mark f) by (unfold mark; by rewrite Hd). by apply list_elem_of_fmap_2. }
  destruct (final_delivered_last _ _ Ha Hin) as (l & Hl & Hac & Hfin).
  destruct (i_owner s Hinv f i) as (ctx' & p' & k & Ht & Hm); [|done|].
  { assert (Hpre : written s `prefix_of` accepted s).
    { pose proof (i_fifo s Hinv) as H. unfold fifo in H. destruct (wr s); try done; rewrite H; by eexists. }
    destruct Hpre as [t ->]. by apply elem_of_app; left. }
  rewrite Hi in Ht. simplify_eq. by exists l, (body f).
Qed.

(** The published send statistics are exact: pending bytes are those of the
    queued frames and of a closing call in its select, the queue stays within
    its capacity, one close frame at most is sent, and [writerDone] is closed
    once, when the writer ends. *)
Theorem ws_pending_exact n s :
  reach n s →
  pendingPayloadBytes (ch s) = lsum payloadBytes (outbound (ch s)) + msum pend (thr s) ∧
  (length (outbound (ch s)) ≤ capacity (ch s))%nat ∧ 0 ≤ closeFrames (ch s) ≤ 1 ∧
  (writerDone (ch s) = 1 ↔ wr s = WExit) ∧ 0 ≤ writerDone (ch s) ≤ 1.
Proof.
  intros Hs. apply ws_inv_reach in Hs as Hinv. destruct (i_counters s Hinv) as (Hp & Hb & _ & Hf).
  destruct (i_done s Hinv) as [Hd _]. rewrite Hd, Hf. split_and!; try done.
  1,2: destruct (connOnce (ch s)); lia.
  - by destruct (wr s).
  - destruct (wr s); lia.
  - destruct (wr s); lia.
Qed.

End Exec.

(** ** Witnesses *)

Module WsChannelExample.
(** A codec that sends the command of a message as one byte. *)
Definition byteCodec : Codec :=
  mkCodec (λ p, Ok [Z_byte (Cmd p)])
    (λ b, match b with [x] => Ok (mkProto 0 0 0 (byte_Z x) []) | _ => Err (EText "bad frame") end) false.
Definition hello : Proto := mkProto OpPush 1 0 7 [].
Definition kick : Proto := mkProto OpKick 0 KickCodeServerShutdown 8 [].
Definition start : sys := mkSys (newChannel 2 None) ∅ WLoop ∅ ∅ [] [].
Definition enqueue (p : Proto) : call :=
  match SendProto byteCodec (Some p) with inr c => c | inl _ => CClose end.

Ltac take H tac :=
  let H' := fresh in
  lazymatch type of H with
  | reach ?v ?n ?s =>
      eassert (H' : step v s _) by (tac; try discriminate; reflexivity);
      apply (reach_step _ _ _ _ H) in H'; cbn in H'; clear H; rename H' into H;
      change (reachable (init_sys n) (step v)) with (reach v n) in H
  end.
Ltac go H i sel := take H ltac:(eapply (s_exec _ _ i _ _ sel None)).

(** A pushed frame and the last frame written, the caller told so. *)
Definition frame_hello : outboundFrame := mkFrame [Z_byte 7] 0 false None.
Definition frame_kick : outboundFrame := mkFrame [Z_byte 8] 0 false (Some 1%nat).
Definition ended : sys :=
  mkSys (mkChannel [] 2 (Some (ESentinel CtxCanceled)) Heartbeat.idle true true None true 1 None 0 0 0)
    (<[1%nat := (CCloseWith 0 (Some kick), Returned None)]> {[0%nat := (enqueue hello, Returned None)]})
    (WOps finishWriter None) {[1%nat := None]} ∅ [frame_hello; frame_kick] [frame_hello; frame_kick].

Lemma ws_reach_ended : reach byteCodec 2 ended.
Proof.
  assert (H : reach byteCodec 2 start) by (apply reach_init; by eexists).
  take H ltac:(eapply (s_call _ _ 0 (enqueue hello))). go H 0%nat Send.
  take H ltac:(eapply (s_call _ _ 1 (CCloseWith 0 (Some kick)))).
  go H 1%nat Default. go H 1%nat Default. go H 1%nat Send.
  take H ltac:(eapply s_writer, ws_next). take H ltac:(eapply s_writer, ws_write).
  take H ltac:(eapply s_writer, ws_next). take H ltac:(eapply s_writer, ws_write).
  do 3 take H ltac:(eapply s_writer, (ws_op _ _ _ _ None)).
  take H ltac:(eapply s_writer, ws_report). go H 1%nat Result.
  exact H.
Qed.

Lemma ws_channel_refines_witness : oreach (abs ended).
Proof.
  apply (ws_channel_refines byteCodec 2 ended (ended <| ctxs := {[0%nat := ESentinel CtxCanceled]} |>) ws_reach_ended).
  by apply (s_ctx byteCodec ended 0).
Defined.

Lemma ws_close_reports_witness : ∃ l, mark <$> written ended = l ++ [([Z_byte 8], true)].
Proof.
  destruct (ws_close_reports byteCodec 2 ended 1 0 (Some kick) ws_reach_ended) as (l & b & Hb & Hl & _);
    [reflexivity|]. exists l. injection Hb as <-. exact Hl.
Defined.

Lemma ws_pending_exact_witness : 0 ≤ closeFrames (ch ended) ≤ 1.
Proof. apply (ws_pending_exact byteCodec 2 ended ws_reach_ended). Defined.
End WsChannelExample.
