(* ===== verification/TcpServer.v ===== *)
(** * The TCP server (network/tcp/server.go, server_options.go, server_connection.go)

    Configuration and the methods under [lifecycleMu] as functions; the accept
    loop, the connection goroutines with their writers and the callers of
    [Stop] as a transition system over one server.  The listener, the socket
    and the connection handler answer; the outcome of [host.Extract] is an
    argument where the code calls it. *)

From S2P Require Import Prelude Errors Proto Bufio Codec Network.

(** ** Configuration (server_options.go) *)

Record serverConfig := mkConfig {
  network : string;
  address : string;
  advertiseHost : string;
  tls : option tlsConfig;
  codec : option Codec;
  middlewares : list nat;
  timeout : Z;
  handshakeTimeout : Z;
  heartbeatTimeout : Z;
  writeTimeout : Z;
  maxConnLimit : Z;                         (* int32 *)
  maxConnPerIP : Z;                         (* int32 *)
  requestQueueSize : Z;
}.
#[export] Instance eta_serverConfig : Eta serverConfig := λ c,
  mkConfig (network c) (address c) (advertiseHost c) (tls c) (codec c) (middlewares c) (timeout c)
    (handshakeTimeout c) (heartbeatTimeout c) (writeTimeout c) (maxConnLimit c) (maxConnPerIP c)
    (requestQueueSize c).

Definition defaultHeartbeatTimeout : Z := 15 * Second.

Definition defaultConfig (defaultCodec : Codec) : serverConfig :=
  mkConfig "tcp" ":3101" EmptyString None (Some defaultCodec) [] DefaultHandlerTimeout
    DefaultHandshakeTimeout defaultHeartbeatTimeout DefaultWriteTimeout DefaultMaxConnLimit
    DefaultMaxConnPerIP DefaultRequestQueueSize.

Definition endpointScheme (c : serverConfig) : string :=
  match tls c with Some _ => "tcps" | None => "tcp" end.

(** ** The server *)

(** [cancel] is nil before [Start], then whether it was called; [serveDone]
    counts the closes of that channel; a listener and a connection are known
    by a number. *)
Record Server := mkServer {
  config : serverConfig;
  cancel : option bool;
  lis : option nat;
  endpoint : option URL;
  stopped : bool;
  serveDone : Z;
  conns : gmap nat string;
  connectionsPerIP : gmap string Z;
  connWG : Z;
  handler : option nat;
}.
#[export] Instance eta_Server : Eta Server := λ s,
  mkServer (config s) (cancel s) (lis s) (endpoint s) (stopped s) (serveDone s) (conns s)
    (connectionsPerIP s) (connWG s) (handler s).

(** The options, in the order of the file. *)
Module Options.
Implicit Type s : Server.
Definition Network (v : string) s := s <| config := (config s) <| network := v |> |>.
Definition Address (v : string) s := s <| config := (config s) <| address := v |> |>.
Definition AdvertiseHost (v : string) s := s <| config := (config s) <| advertiseHost := v |> |>.
Definition Endpoint (v : option URL) s := s <| endpoint := v |>.
Definition Listener (v : option nat) s := s <| lis := v |>.
Definition TLSConfig (v : option tlsConfig) s := s <| config := (config s) <| tls := v |> |>.
Definition Codec (v : option Codec) s := s <| config := (config s) <| codec := v |> |>.
Definition Middleware (v : list nat) s :=
  s <| config := (config s) <| middlewares := middlewares (config s) ++ v |> |>.
Definition Timeout (v : Z) s := s <| config := (config s) <| timeout := v |> |>.
Definition RequestQueueSize (v : Z) s := s <| config := (config s) <| requestQueueSize := v |> |>.
Definition MaxConnLimit (v : Z) s := s <| config := (config s) <| maxConnLimit := v |> |>.
Definition MaxConnPerIP (v : Z) s := s <| config := (config s) <| maxConnPerIP := v |> |>.
Definition HandshakeTimeout (v : Z) s := s <| config := (config s) <| handshakeTimeout := v |> |>.
Definition HeartbeatTimeout (v : Z) s := s <| config := (config s) <| heartbeatTimeout := v |> |>.
Definition WriteTimeout (v : Z) s := s <| config := (config s) <| writeTimeout := v |> |>.
End Options.

Definition NewServer (defaultCodec : Codec) (opts : list (Server → Server)) : Server :=
  foldl (λ s o, o s)
    (mkServer (defaultConfig defaultCodec) None None None false 0 ∅ ∅ 0 None) opts.

Definition validateConfig (s : Server) : option error :=
  let c := config s in
  match codec c with
  | None => Some (EText "tcp: codec is required")
  | Some _ =>
      if timeout c <? 0 then Some (EText "tcp: handler timeout cannot be negative")
      else if requestQueueSize c <=? 0 then Some (EText "tcp: request queue size must be positive")
      else if maxConnLimit c <=? 0 then Some (EText "tcp: connection limit must be positive")
      else if maxConnPerIP c <=? 0 then Some (EText "tcp: per-IP connection limit must be positive")
      else if handshakeTimeout c <=? 0 then Some (EText "tcp: handshake timeout must be positive")
      else if heartbeatTimeout c <=? 0 then Some (EText "tcp: heartbeat timeout must be positive")
      else if writeTimeout c <=? 0 then Some (EText "tcp: write timeout must be positive")
      else match ValidateServer (tls c) with
           | Some err => Some (EWrap "tcp: %w" [err])
           | None =>
               match endpoint s with
               | None => None
               | Some e =>
                   if negb (bool_decide (Scheme e = endpointScheme c)) || bool_decide (Host e = EmptyString)
                   then Some (EText "tcp: endpoint must use %s:// with a host") else None
               end
           end
  end.

(** ** Methods under [lifecycleMu] *)

(** [listen] and [extract] answer [net.Listen] and [host.Extract]; the list is
    of the listeners closed on the way. *)
Section Prepare.
Context (listen : result nat) (extract : result string).

Definition listenAndEndpoint (s : Server) : Server * option error * list nat :=
  let created := match lis s with Some _ => false | None => true end in
  match (match lis s with Some l => Ok l | None => listen end) with
  | Err err => (s, Some err, [])
  | Ok l =>
      let s := s <| lis := Some l |> in
      match endpoint s with
      | Some _ => (s, None, [])
      | None =>
          match extract with
          | Err err => if created then (s <| lis := None |>, Some err, [l]) else (s, Some err, [])
          | Ok addr =>
              (s <| endpoint := Some (mkURL (endpointScheme (config s)) addr EmptyString) |>, None, [])
          end
      end
  end.

Definition prepare (s : Server) : Server * option error * list nat :=
  match handler s with
  | None => (s, Some (EText "tcp: connection handler is required"), [])
  | Some _ => match validateConfig s with
              | Some err => (s, Some err, [])
              | None => listenAndEndpoint s
              end
  end.

Definition started (s : Server) : bool := match cancel s with Some _ => true | None => false end.

Definition SetHandler (h : option nat) (s : Server) : Server * option error :=
  match h with
  | None => (s, Some (EText "tcp: connection handler is required"))
  | Some _ =>
      if started s || stopped s then (s, Some (EText "tcp: server cannot set handler after start"))
      else match handler s with
           | Some _ => (s, Some (EText "tcp: connection handler is already set"))
           | None => (s <| handler := h |>, None)
           end
  end.

Definition BeforeStart (s : Server) : Server * option error * list nat :=
  if started s || stopped s then (s, Some (EText "tcp: server cannot be prepared"), [])
  else prepare s.

Definition Endpoint (s : Server) : Server * result URL * list nat :=
  if stopped s then (s, Err (EText "tcp: server is stopped"), [])
  else match validateConfig s with
       | Some err => (s, Err err, [])
       | None =>
           match listenAndEndpoint s with
           | (s, Some err, closed) => (s, Err err, closed)
           | (s, None, closed) =>
               (s, match endpoint s with Some e => Ok e | None => Err (EText "nil endpoint") end, closed)
           end
       end.

(** The locked section of [Start]: an error, or the listener to accept on. *)
Definition Start_enter (s : Server) : Server * option error * list nat :=
  if started s || stopped s then (s, Some (EText "tcp: server cannot be started"), [])
  else match prepare s with
       | (s, Some err, closed) => (s, Some err, closed)
       | (s, None, closed) => (s <| cancel := Some false |>, None, closed)
       end.
End Prepare.

(** The locked section of [Stop]: the listener to close, and [started]. *)
Definition Stop_enter (s : Server) : Server * option nat * bool :=
  if stopped s then (s, None, started s)
  else (s <| stopped := true |> <| cancel := (λ _, true) <$> cancel s |> <| lis := None |>, lis s, started s).

(** [finishServing] up to [closeConnections]. *)
Definition finishServing_enter (s : Server) : Server * option nat :=
  (s <| stopped := true |> <| cancel := (λ _, true) <$> cancel s |> <| lis := None |>, lis s).

(** The snapshot of [closeConnections]. *)
Definition closeConnections (s : Server) : gset nat := dom (conns s).

Definition trackConnection (conn : nat) (remoteIP : string) (s : Server) : Server * bool :=
  if stopped s || (maxConnLimit (config s) <=? i32 (Z.of_nat (size (conns s))))
     || (maxConnPerIP (config s) <=? perip_get remoteIP (connectionsPerIP s))
  then (s, false)
  else (s <| conns := <[conn := remoteIP]> (conns s) |>
          <| connectionsPerIP := perip_incr remoteIP (connectionsPerIP s) |>
          <| connWG := connWG s + 1 |>, true).

Definition untrackConnection (conn : nat) (s : Server) : Server :=
  let remoteIP := default EmptyString (conns s !! conn) in
  s <| conns := delete conn (conns s) |>
    <| connectionsPerIP := perip_decr remoteIP (connectionsPerIP s) |>.

(** ** The goroutines *)

(** [Start]: accepting, then the stages of [finishServing] with the error of
    the accept loop. *)
Inductive serving :=
| NotServing
| Accepting (l : nat)
| Finishing (err : option error)            (* before finishServing's lock *)
| ClosingAll (err : option error)           (* listener closed; before the snapshot *)
| WaitingAll (err : option error)           (* connWG.Wait() *)
| Served (err : option error).

(** [serveAcceptedTCP] and [serveTCP]: the handler's [Open]; reading; the
    deferred calls, last first. *)
Inductive conn_state :=
| Opening                                   (* in handler.Open *)
| Opened                                    (* Open returned nil; stopHandshake next *)
| Reading                                   (* readTCPMessages, writer running *)
| HandlerClosing                            (* deferred handler.Close *)
| Untracking                                (* deferred untrackConnection *)
| Releasing.                                (* deferred connWG.Done *)

Inductive stopper :=
| TEnter
| TClose (l : option nat) (running : bool)  (* lis.Close(), closeConnections *)
| TWait (closeErr : option error) (running : bool)
| TReturned (running : bool) (err : option error).

Record sys := mkSys {
  srv : Server;
  loop : serving;
  gor : gmap nat conn_state;                (* connection goroutines *)
  wrs : gset nat;                           (* writer goroutines *)
  stops : gmap nat stopper;
  closedConns : gset nat;                   (* sockets closed by the server *)
  opened : gset nat;                        (* Open returned nil *)
  handlerClosed : gset nat;                 (* handler.Close was called *)
}.
#[export] Instance eta_sys : Eta sys := λ s,
  mkSys (srv s) (loop s) (gor s) (wrs s) (stops s) (closedConns s) (opened s) (handlerClosed s).

Definition set_conn (c : nat) (x : conn_state) (s : sys) : sys := s <| gor := <[c := x]> (gor s) |>.

(** Where the error of the accept loop is reported from [Start]. *)
Definition accept_result (err : error) : option error :=
  if errors_Is err NetErrClosed then None else Some err.

Inductive loop_step (s : sys) : sys → Prop :=
| l_start listen extract sv l closed :
    Start_enter listen extract (srv s) = (sv, None, closed) → lis sv = Some l →
    loop_step s (s <| srv := sv |> <| loop := Accepting l |>)
| l_refused listen extract sv err closed :
    Start_enter listen extract (srv s) = (sv, Some err, closed) → loop_step s (s <| srv := sv |>)
| l_accept l c ip sv ok :
    loop s = Accepting l → gor s !! c = None → conns (srv s) !! c = None → c ∉ wrs s → c ∉ opened s →
    trackConnection c ip (srv s) = (sv, ok) →
    loop_step s (if ok then set_conn c Opening (s <| srv := sv |>)
                 else s <| closedConns := closedConns s ∪ {[c]} |>)
| l_error l err :
    loop s = Accepting l → loop_step s (s <| loop := Finishing (accept_result err) |>)
| l_finish err sv l :
    loop s = Finishing err → finishServing_enter (srv s) = (sv, l) →
    loop_step s (s <| srv := sv |> <| loop := ClosingAll err |>)
| l_close err :
    loop s = ClosingAll err →
    loop_step s (s <| closedConns := closedConns s ∪ closeConnections (srv s) |> <| loop := WaitingAll err |>)
| l_wait err :
    loop s = WaitingAll err → connWG (srv s) = 0 →
    loop_step s (s <| srv := (srv s) <| serveDone := serveDone (srv s) + 1 |> |> <| loop := Served err |>).

(** A panic in [Open], in the handler or in its [Close] unwinds through the
    deferred calls to the recover of [serveAcceptedTCP]. *)
Inductive conn_step (s : sys) : sys → Prop :=
| c_open_err c : gor s !! c = Some Opening → conn_step s (set_conn c Untracking s)
| c_open_ok c :
    gor s !! c = Some Opening → conn_step s (set_conn c Opened (s <| opened := opened s ∪ {[c]} |>))
| c_handshake c :                           (* stopHandshake() is true: the writer starts *)
    gor s !! c = Some Opened →
    conn_step s (set_conn c Reading (s <| srv := (srv s) <| connWG := connWG (srv s) + 1 |> |>
                                       <| wrs := wrs s ∪ {[c]} |>))
| c_expired c : gor s !! c = Some Opened → conn_step s (set_conn c HandlerClosing s)
| c_read c : gor s !! c = Some Reading → conn_step s (set_conn c HandlerClosing s)
| c_closed c :
    gor s !! c = Some HandlerClosing →
    conn_step s (set_conn c Untracking (s <| handlerClosed := handlerClosed s ∪ {[c]} |>
                                          <| closedConns := closedConns s ∪ {[c]} |>))
| c_untrack c :
    gor s !! c = Some Untracking →
    conn_step s (set_conn c Releasing (s <| srv := untrackConnection c (srv s) |>))
| c_done c :
    gor s !! c = Some Releasing →
    conn_step s (s <| srv := (srv s) <| connWG := connWG (srv s) - 1 |> |> <| gor := delete c (gor s) |>)
| c_writer c :
    c ∈ wrs s →
    conn_step s (s <| srv := (srv s) <| connWG := connWG (srv s) - 1 |> |> <| wrs := wrs s ∖ {[c]} |>).

Inductive stop_step (s : sys) : sys → Prop :=
| t_call i : stops s !! i = None → stop_step s (s <| stops := <[i := TEnter]> (stops s) |>)
| t_enter i sv l running :
    stops s !! i = Some TEnter → Stop_enter (srv s) = (sv, l, running) →
    stop_step s (s <| srv := sv |> <| stops := <[i := TClose l running]> (stops s) |>)
| t_close i l running closeErr :
    stops s !! i = Some (TClose l running) →
    stop_step s (s <| closedConns := closedConns s ∪ closeConnections (srv s) |>
                   <| stops := <[i := TWait (match l with Some _ => closeErr | None => None end) running]> (stops s) |>)
| t_wait i closeErr running ctxErr err :
    stops s !! i = Some (TWait closeErr running) →
    (if running then Done (0 <? serveDone (srv s)) ctxErr else Some None) = Some err →
    stop_step s (s <| stops := <[i := TReturned running
                     (match err, closeErr with
                      | Some e, _ => Some e
                      | None, Some e => if errors_Is e NetErrClosed then None else Some e
                      | None, None => None
                      end)]> (stops s) |>).

Inductive step (s : sys) : sys → Prop :=
| s_loop s' : loop_step s s' → step s s'
| s_conn s' : conn_step s s' → step s s'
| s_stop s' : stop_step s s' → step s s'
| s_handler h sv err :
    SetHandler h (srv s) = (sv, err) → step s (s <| srv := sv |>)
| s_before listen extract sv err closed :
    BeforeStart listen extract (srv s) = (sv, err, closed) → step s (s <| srv := sv |>)
| s_endpoint listen extract sv r closed :
    Endpoint listen extract (srv s) = (sv, r, closed) → step s (s <| srv := sv |>).

(** A server as [NewServer] leaves it. *)
Definition fresh (sv : Server) : Prop :=
  cancel sv = None ∧ stopped sv = false ∧ serveDone sv = 0 ∧ conns sv = ∅ ∧
  connectionsPerIP sv = ∅ ∧ connWG sv = 0 ∧ handler sv = None ∧
  maxConnLimit (config sv) < 2 ^ 31 ∧ maxConnPerIP (config sv) < 2 ^ 31.

Definition init_sys (s : sys) : Prop :=
  fresh (srv s) ∧ loop s = NotServing ∧ gor s = ∅ ∧ wrs s = ∅ ∧ stops s = ∅ ∧
  closedConns s = ∅ ∧ opened s = ∅ ∧ handlerClosed s = ∅.

Definition reach : sys → Prop := reachable init_sys step.

(** ** Invariant *)

Definition tracked (x : conn_state) : bool := match x with Releasing => false | _ => true end.
Definition active (x : conn_state) : bool :=
  match x with Opened | Reading | HandlerClosing => true | _ => false end.

(** The connection table: counts within the limits and exact per address. *)
Record table_ok (sv : Server) : Prop := mkTableOk {
  t_int32 : maxConnLimit (config sv) < 2 ^ 31 ∧ maxConnPerIP (config sv) < 2 ^ 31;
  t_total : conns sv ≠ ∅ → Z.of_nat (size (conns sv)) ≤ maxConnLimit (config sv);
  t_perip : perip_ok id (connectionsPerIP sv) (conns sv);
  t_limit : ∀ ip, 0 < count_ip id ip (conns sv) → count_ip id ip (conns sv) ≤ maxConnPerIP (config sv);
}.

Definition conn_ok (s : sys) (c : nat) : Prop :=
  (is_Some (conns (srv s) !! c) ↔ ∃ x, gor s !! c = Some x ∧ tracked x = true) ∧
  (c ∈ opened s ↔ c ∈ handlerClosed s ∨ ∃ x, gor s !! c = Some x ∧ active x = true) ∧
  (c ∈ handlerClosed s → ∀ x, gor s !! c = Some x → active x = false) ∧
  (c ∈ wrs s → c ∈ opened s ∧ gor s !! c ≠ Some Opening ∧ gor s !! c ≠ Some Opened) ∧
  (gor s !! c = Some Opening → c ∉ opened s).

Definition loop_ok (s : sys) : Prop :=
  match loop s with
  | NotServing => cancel (srv s) = None ∧ gor s = ∅ ∧ wrs s = ∅ ∧ serveDone (srv s) = 0
  | Accepting _ | Finishing _ => cancel (srv s) ≠ None ∧ serveDone (srv s) = 0
  | ClosingAll _ | WaitingAll _ => cancel (srv s) ≠ None ∧ stopped (srv s) = true ∧ serveDone (srv s) = 0
  | Served _ => cancel (srv s) ≠ None ∧ stopped (srv s) = true ∧ gor s = ∅ ∧ wrs s = ∅ ∧ serveDone (srv s) = 1
  end.

Definition stop_ok (s : sys) (t : stopper) : Prop :=
  match t with
  | TEnter => True
  | TClose _ r | TWait _ r => stopped (srv s) = true ∧ (r = false → cancel (srv s) = None)
  | TReturned r err =>
      stopped (srv s) = true ∧ (r = false → cancel (srv s) = None) ∧
      (r = true → err = None → serveDone (srv s) = 1)
  end.

Record inv (s : sys) : Prop := mkInv {
  i_table : table_ok (srv s);
  i_wg : connWG (srv s) = Z.of_nat (size (gor s)) + Z.of_nat (size (wrs s));
  i_conns : ∀ c, conn_ok s c;
  i_loop : loop_ok s;
  i_stops : ∀ i t, stops s !! i = Some t → stop_ok s t;
}.

(** The configuration and start-up methods leave the connections alone. *)
Definition same_core (a b : Server) : Prop :=
  config b = config a ∧ stopped b = stopped a ∧ serveDone b = serveDone a ∧ conns b = conns a ∧
  connectionsPerIP b = connectionsPerIP a ∧ connWG b = connWG a.

Lemma listenAndEndpoint_core li ex s s' e cl :
  listenAndEndpoint li ex s = (s', e, cl) → same_core s s' ∧ cancel s' = cancel s.
Proof.
  unfold listenAndEndpoint. intros H. repeat case_match; simplify_eq; by repeat split.
Qed.

Lemma prepare_core li ex s s' e cl :
  prepare li ex s = (s', e, cl) → same_core s s' ∧ cancel s' = cancel s.
Proof.
  unfold prepare. intros H. repeat case_match; simplify_eq; try (by repeat split).
  by eapply listenAndEndpoint_core.
Qed.

Lemma inv_core s sv :
  inv s → same_core (srv s) sv → cancel sv = cancel (srv s) → inv (s <| srv := sv |>).
Proof.
  intros [Ht Hw Hc Hl Hs] (Ecfg & Est & Esd & Eco & Epi & Ewg) Eca. split; simpl.
  - destruct Ht as [H1 H2 H3 H4]. split; rewrite ?Ecfg, ?Eco, ?Epi; done.
  - by rewrite Ewg.
  - intros c. specialize (Hc c). unfold conn_ok in *; simpl. by rewrite Eco.
  - unfold loop_ok in *; simpl. by rewrite Eca, Est, Esd.
  - intros i t Hi. specialize (Hs i t Hi). unfold stop_ok in *; simpl. by rewrite Eca, Est, Esd.
Qed.

Lemma size_conns_i32 sv : table_ok sv → i32 (Z.of_nat (size (conns sv))) = Z.of_nat (size (conns sv)).
Proof.
  intros [[H1 _] H2 _ _]. apply i32_small. destruct (decide (conns sv = ∅)) as [E|E].
  - rewrite E, map_size_empty. lia.
  - specialize (H2 E). lia.
Qed.

Lemma table_track c ip sv sv' ok :
  table_ok sv → conns sv !! c = None → trackConnection c ip sv = (sv', ok) → table_ok sv'.
Proof.
  intros Ht Hc Htr. pose proof (size_conns_i32 sv Ht) as Hsz. destruct Ht as [[H1 H1'] H2 H3 H4].
  unfold trackConnection in Htr. rewrite Hsz, (perip_get_ok id _ _ ip H3) in Htr.
  case_match eqn:E; simplify_eq; [by split|]. to_prop.
  pose proof (count_ip_nonneg id ip (conns sv)).
  split; simpl; try done.
  - intros _. rewrite map_size_insert_None by done. lia.
  - apply (perip_ok_incr id _ _ c ip); [done|done|]. change (id ip) with ip. lia.
  - intros ip'. rewrite (count_ip_insert id) by done. change (id ip) with ip.
    destruct (decide (ip = ip')) as [<-|Hne]; [lia|]. rewrite !Z.add_0_l. apply H4.
Qed.

Lemma table_untrack c ip sv :
  table_ok sv → conns sv !! c = Some ip → table_ok (untrackConnection c sv).
Proof.
  intros [[H1 H1'] H2 H3 H4] Hc. unfold untrackConnection. rewrite Hc. simpl.
  pose proof (count_ip_pos id c ip (conns sv) Hc) as Hp. change (id ip) with ip in Hp.
  split; simpl; try done.
  - intros _. rewrite map_size_delete_Some by (by rewrite Hc).
    assert (conns sv ≠ ∅) as Hne by (intros E; by rewrite E, lookup_empty in Hc).
    specialize (H2 Hne). assert (size (conns sv) ≠ 0%nat); [|lia]. by apply map_size_non_empty_iff.
  - apply (perip_ok_decr id _ _ c ip); [done|done|]. change (id ip) with ip.
    specialize (H4 ip). lia.
  - intros ip'. rewrite (count_ip_delete id _ c ip) by done. change (id ip) with ip.
    specialize (H4 ip'). case_decide; lia.
Qed.

(** [conn_ok] after a step of connection [c] only. *)
Ltac conn_cases Hc c Hi :=
  let c' := fresh "c'" in
  intros c'; specialize (Hc c'); unfold conn_ok in *; simpl;
  rewrite ?elem_of_union, ?elem_of_difference, ?elem_of_singleton;
  destruct (decide (c' = c)) as [->|];
    [rewrite ?Hi in Hc; rewrite ?lookup_insert_eq, ?lookup_delete_eq, ?Hi
    |rewrite ?lookup_insert_ne, ?lookup_delete_ne by done];
  naive_solver.

(** Where a goroutine runs, serving began and has not ended. *)
Lemma loop_keep s s' :
  loop_ok s → (∃ c x, gor s !! c = Some x) ∨ (∃ c, c ∈ wrs s) → loop s' = loop s → cancel (srv s') = cancel (srv s) →
  stopped (srv s') = stopped (srv s) → serveDone (srv s') = serveDone (srv s) → loop_ok s'.
Proof.
  intros Hl Hrun El E1 E2 E3. unfold loop_ok in *. rewrite El, E1, E2, E3.
  destruct (loop s); try done; exfalso; destruct Hrun as [(c & x & Hc)|[c Hc]].
  - destruct Hl as (_ & Hg & _). by rewrite Hg, lookup_empty in Hc.
  - destruct Hl as (_ & _ & Hg & _). by rewrite Hg in Hc.
  - destruct Hl as (_ & _ & Hg & _). by rewrite Hg, lookup_empty in Hc.
  - destruct Hl as (_ & _ & _ & Hg & _). by rewrite Hg in Hc.
Qed.

Lemma inv_conn s s' : inv s → conn_step s s' → inv s'.
Proof.
  intros Hinv Hst. pose proof Hinv as [Ht Hw Hc Hl Hs].
  destruct Hst as [c Hi|c Hi|c Hi|c Hi|c Hi|c Hi|c Hi|c Hi|c Hi].
  all: split; simpl; try done;
    try (apply (loop_keep s); simpl; eauto; done);
    try (rewrite map_size_insert_Some by (by rewrite Hi); done).
  - conn_cases Hc c Hi.
  - conn_cases Hc c Hi.
  - destruct Ht. by split.
  - rewrite map_size_insert_Some by (by rewrite Hi).
    assert (c ∉ wrs s) by (destruct (Hc c) as (_ & _ & _ & H & _); intros Hin; by apply H in Hin as (_ & _ & []) ).
    rewrite size_union by set_solver. rewrite size_singleton. lia.
  - conn_cases Hc c Hi.
  - conn_cases Hc c Hi.
  - conn_cases Hc c Hi.
  - conn_cases Hc c Hi.
  - destruct (Hc c) as ([_ H] & _). destruct H as [ip Hip]; [eauto|]. by eapply table_untrack.
  - conn_cases Hc c Hi.
  - destruct Ht. by split.
  - rewrite map_size_delete_Some by (by rewrite Hi). assert (size (gor s) ≠ 0%nat); [|lia].
    apply map_size_non_empty_iff. intros E. by rewrite E, lookup_empty in Hi.
  - conn_cases Hc c Hi.
  - destruct Ht. by split.
  - rewrite size_difference by set_solver. rewrite size_singleton.
    assert (size (wrs s) ≠ 0%nat); [|lia]. apply size_non_empty_iff. set_solver.
  - intros c'. specialize (Hc c'). unfold conn_ok in *; simpl. rewrite elem_of_difference. naive_solver.
Qed.

Lemma Start_enter_spec li ex s s' e cl :
  Start_enter li ex s = (s', e, cl) →
  same_core s s' ∧ (e = None → cancel s = None ∧ stopped s = false ∧ cancel s' = Some false) ∧
  (e ≠ None → cancel s' = cancel s).
Proof.
  unfold Start_enter. intros H. destruct (started s || stopped s) eqn:E.
  - simplify_eq. by repeat split.
  - apply orb_false_iff in E as [E1 E2]. unfold started in E1.
    destruct (prepare li ex s) as [[s1 [err|]] cl1] eqn:Ep; simplify_eq.
    + by destruct (prepare_core _ _ _ _ _ _ Ep).
    + destruct (prepare_core _ _ _ _ _ _ Ep) as [(? & ? & ? & ? & ? & ?) Hc].
      split; [by repeat split|]. split; [|done]. intros _. split_and!; try done. by destruct (cancel s).
Qed.

Lemma inv_accept s l c ip sv :
  inv s → loop s = Accepting l → gor s !! c = None → conns (srv s) !! c = None → c ∉ wrs s → c ∉ opened s →
  trackConnection c ip (srv s) = (sv, true) → inv (set_conn c Opening (s <| srv := sv |>)).
Proof.
  intros Hinv Hl Hg Hn Hw Ho Ht. pose proof Hinv as [Htab Hwg Hc Hlo Hs].
  pose proof (table_track _ _ _ _ _ Htab Hn Ht) as Htab'.
  unfold trackConnection in Ht. case_match; simplify_eq. split; simpl; try done.
  - rewrite map_size_insert_None by done. lia.
  - intros c'. specialize (Hc c'). unfold conn_ok in *; simpl. destruct (decide (c' = c)) as [->|].
    + rewrite ?lookup_insert_eq. rewrite Hg in Hc. split_and!; naive_solver.
    + rewrite !lookup_insert_ne by done. naive_solver.
  - unfold loop_ok in *; simpl. by rewrite Hl in *.
Qed.

Lemma inv_finish s err sv l :
  inv s → loop s = Finishing err → finishServing_enter (srv s) = (sv, l) →
  inv (s <| srv := sv |> <| loop := ClosingAll err |>).
Proof.
  intros Hinv Hl Hf. pose proof Hinv as [[] Hw Hc Hlo Hs]. unfold finishServing_enter in Hf. simplify_eq.
  unfold loop_ok in Hlo. rewrite Hl in Hlo. split; simpl; try done.
  - unfold loop_ok; simpl. destruct (cancel (srv s)); naive_solver.
  - intros i t Hi. specialize (Hs i t Hi). unfold stop_ok in *; simpl. destruct t; try done.
    all: destruct (cancel (srv s)); naive_solver.
Qed.

Lemma inv_loop s s' : inv s → loop_step s s' → inv s'.
Proof.
  intros Hinv Hst. pose proof Hinv as [Htab Hwg Hc Hlo Hs].
  destruct Hst as [li ex sv l cl Hst Hlis|li ex sv err cl Hst|l c ip sv ok Hl Hg Hn Hw Ho Ht|l err Hl|err sv l Hl Hf|err Hl|err Hl Hz].
  - destruct (Start_enter_spec _ _ _ _ _ _ Hst) as (Hcore & Hok & _). destruct (Hok eq_refl) as (E1 & E2 & E3).
    assert (Hinv' : inv (s <| srv := sv <| cancel := cancel (srv s) |> |>)).
    { by apply inv_core; [|destruct Hcore as (? & ? & ? & ? & ? & ?); repeat split|]. }
    destruct Hcore as (Ecfg & Est & Esd & Eco & Epi & Ewg).
    pose proof Hinv' as [[] Hw' Hc' Hl' Hs']. split; try done.
    + unfold loop_ok in *; simpl in *. rewrite E3. destruct (loop s); naive_solver.
    + intros i t Hi. specialize (Hs' i t Hi). unfold stop_ok in *; simpl in *.
      rewrite Est, E2 in *. destruct t; naive_solver.
  - destruct (Start_enter_spec _ _ _ _ _ _ Hst) as (Hcore & _ & Hca). apply inv_core; auto.
  - destruct ok; [by eapply inv_accept|]. by split.
  - split; simpl; try done. unfold loop_ok in *; simpl. by rewrite Hl in Hlo.
  - by eapply inv_finish.
  - split; simpl; try done. unfold loop_ok in *; simpl. by rewrite Hl in Hlo.
  - unfold loop_ok in Hlo. rewrite Hl in Hlo. destruct Hlo as (E1 & E2 & E3).
    assert (gor s = ∅ ∧ wrs s = ∅) as [Hg Hw].
    { split; [apply map_size_empty_inv|apply leibniz_equiv, size_empty_inv]; lia. }
    split; simpl; try done; [by destruct Htab| |].
    + unfold loop_ok; simpl. split_and!; try done. lia.
    + intros i t Hi. specialize (Hs i t Hi). unfold stop_ok in *; simpl. destruct t; naive_solver lia.
Qed.

Lemma inv_stop_call s s' : inv s → stop_step s s' → inv s'.
Proof.
  intros Hinv Hst. pose proof Hinv as [Htab Hwg Hc Hlo Hs].
  destruct Hst as [i Hi|i sv l r Hi He|i l r ce Hi|i ce r cx err Hi Hd].
  - split; simpl; try done. intros j t Hj. apply lookup_insert_Some in Hj as [[_ <-]|[_ Hj]]; [done|by apply (Hs j)].
  - unfold Stop_enter in He. destruct (stopped (srv s)) eqn:Est; simplify_eq.
    + split; simpl; try done. intros j t Hj. apply lookup_insert_Some in Hj as [[_ <-]|[_ Hj]]; [|by apply (Hs j)].
      simpl. split; [done|]. unfold started. by destruct (cancel (srv s)).
    + assert (Hloop : loop_ok (s <| srv := (srv s) <| stopped := true |> <| cancel := (λ _, true) <$> cancel (srv s) |> <| lis := None |> |>)).
      { unfold loop_ok in *; simpl. destruct (cancel (srv s)), (loop s); naive_solver. }
      split; simpl; try done; [by destruct Htab|].
      intros j t Hj. apply lookup_insert_Some in Hj as [[_ <-]|[_ Hj]].
      * simpl. split; [done|]. unfold started. by destruct (cancel (srv s)).
      * specialize (Hs j t Hj). unfold stop_ok in *; simpl. destruct t; destruct (cancel (srv s)); naive_solver.
  - split; simpl; try done. intros j t Hj. apply lookup_insert_Some in Hj as [[_ <-]|[_ Hj]]; [|by apply (Hs j)].
    apply (Hs i _ Hi).
  - split; simpl; try done. intros j t Hj. apply lookup_insert_Some in Hj as [[_ <-]|[_ Hj]]; [|by apply (Hs j)].
    destruct (Hs i _ Hi) as [H1 H2]. simpl. split_and!; try done. intros -> He.
    unfold Done in Hd. destruct (0 <? serveDone (srv s)) eqn:E; simpl in Hd.
    + unfold loop_ok in Hlo. to_prop. destruct (loop s); lia.
    + destruct cx; simplify_eq.
Qed.

Lemma srv_inv_reach s : reach s → inv s.
Proof.
  apply invariant_reachable.
  - intros [sv lp g w st cl op hc] ((E1 & E2 & E3 & E4 & E5 & E6 & E7 & E8 & E9) & H); simpl in *.
    destruct H as (-> & -> & -> & -> & -> & -> & ->). split; simpl; try done.
    + by split; rewrite ?E4, ?E5.
    + intros c. unfold conn_ok; simpl. rewrite E4, !lookup_empty. set_solver.
  - intros s0 s1 _ Hinv Hst. destruct Hst as [s1 Hs|s1 Hs|s1 Hs|h sv err Hh|li ex sv err cl Hb|li ex sv r cl He].
    + by eapply inv_loop.
    + by eapply inv_conn.
    + by eapply inv_stop_call.
    + unfold SetHandler in Hh. apply inv_core; [done| |]; repeat case_match; simplify_eq; by repeat split.
    + unfold BeforeStart in Hb. case_match; simplify_eq; [by apply inv_core|].
      destruct (prepare_core _ _ _ _ _ _ Hb). by apply inv_core.
    + unfold Endpoint in He. repeat case_match; simplify_eq; try (by apply inv_core).
      all: match goal with H : listenAndEndpoint _ _ _ = _ |- _ =>
             destruct (listenAndEndpoint_core _ _ _ _ _ _ H); by apply inv_core end.
Qed.

(** ** Properties *)

(** C37: at every moment the number of connections and the number from each
    address are within the configured limits, and [connectionsPerIP] holds the
    exact count for the addresses that have one and nothing else. *)
Theorem tcp_connection_limits s :
  reach s →
  (conns (srv s) ≠ ∅ → Z.of_nat (size (conns (srv s))) ≤ maxConnLimit (config (srv s))) ∧
  (∀ ip, perip_get ip (connectionsPerIP (srv s)) = count_ip id ip (conns (srv s)) ∧
         (connectionsPerIP (srv s) !! ip = None ↔ count_ip id ip (conns (srv s)) = 0) ∧
         (0 < count_ip id ip (conns (srv s)) →
          count_ip id ip (conns (srv s)) ≤ maxConnPerIP (config (srv s)))) ∧
  (∀ c, is_Some (conns (srv s) !! c) → is_Some (gor s !! c)).
Proof.
  intros Hs. apply srv_inv_reach in Hs as [[H1 H2 H3 H4] _ Hc _ _]. split_and!; try done.
  - intros ip. split_and!; [by apply (perip_get_ok id)| |by apply H4].
    rewrite H3. by destruct (Z.eqb_spec (count_ip id ip (conns (srv s))) 0).
  - intros c Hi. destruct (Hc c) as ([H _] & _). destruct (H Hi) as (x & Hx & _). by exists x.
Qed.

Lemma returned_stays s s' i r :
  rtc step s s' → stops s !! i = Some (TReturned r None) → stops s' !! i = Some (TReturned r None).
Proof.
  intros Hr. induction Hr as [|s s1 s2 Hst _ IH]; [done|]. intros Hi. apply IH.
  destruct Hst as [s1 Hs|s1 Hs|s1 Hs|h sv err Hh|li ex sv err cl Hb|li ex sv r0 cl He]; simpl; try done.
  - destruct Hs; simpl; try done. by destruct ok.
  - by destruct Hs.
  - destruct Hs as [j Hj|j sv l r0 Hj _|j l r0 ce Hj|j ce r0 cx err Hj _]; simpl;
      (rewrite lookup_insert_ne; [done|]; intros ->; congruence).
Qed.

(** C9: once [Stop] returned nil no connection goroutine and no writer runs,
    every connection whose [Open] succeeded had its [Close] called, and this
    stays so whatever is called afterwards. *)
Theorem tcp_stop_drains s s' i r :
  reach s → stops s !! i = Some (TReturned r None) → rtc step s s' →
  gor s' = ∅ ∧ wrs s' = ∅ ∧ conns (srv s') = ∅ ∧ connectionsPerIP (srv s') = ∅ ∧
  ∀ c, c ∈ opened s' → c ∈ handlerClosed s'.
Proof.
  intros Hs Hi Hr. pose proof (returned_stays _ _ _ _ Hr Hi) as Hi'.
  assert (Hs' : reach s') by by eapply reachable_rtc. clear Hs Hi Hr.
  apply srv_inv_reach in Hs' as [Ht _ Hc Hl Hst].
  pose proof (Hst i _ Hi') as (_ & H2 & H3).
  assert (gor s' = ∅ ∧ wrs s' = ∅) as [Hg Hw].
  { unfold loop_ok in Hl. destruct r; [specialize (H3 eq_refl eq_refl)|specialize (H2 eq_refl)];
      destruct (loop s'); naive_solver lia. }
  assert (Hco : conns (srv s') = ∅).
  { apply map_empty. intros c. destruct (conns (srv s') !! c) eqn:E; [|done].
    destruct (Hc c) as ([H _] & _). destruct H as (x & Hx & _); [by eexists|]. by rewrite Hg, lookup_empty in Hx. }
  split_and!; try done.
  - destruct Ht as [_ _ Hp _]. apply map_empty. intros ip. rewrite Hp, Hco. unfold count_ip. by rewrite msum_empty.
  - intros c Ho. destruct (Hc c) as (_ & [H _] & _). destruct (H Ho) as [?|(x & Hx & _)]; [done|].
    by rewrite Hg, lookup_empty in Hx.
Qed.

(** ** Witnesses

    A server that takes one connection, is stopped and drains. *)

Module TcpServerExample.
Definition anyCodec : Codec := mkCodec (λ _, Ok []) (λ _, Ok Proto_zero) false.
Definition sv0 : Server := NewServer anyCodec [Options.MaxConnLimit 1].
Definition idle : sys := mkSys sv0 NotServing ∅ ∅ ∅ ∅ ∅ ∅.

Ltac take H tac :=
  let H' := fresh in
  lazymatch type of H with
  | reach ?s =>
      eassert (H' : step s _) by (tac; first [reflexivity|set_solver]);
      apply (reach_step _ _ _ _ H) in H'; cbn in H'; clear H; rename H' into H;
      change (reachable init_sys step) with reach in H
  end.

Definition url : URL := mkURL "tcp" "10.0.0.1:3101" EmptyString.
Definition sv_of (cancel : option bool) (lis : option nat) (stopped : bool) (done : Z) conns per wg : Server :=
  mkServer (config sv0) cancel lis (Some url) stopped done conns per wg (Some 0%nat).

(** One connection being read. *)
Definition busy : sys :=
  mkSys (sv_of (Some false) (Some 5%nat) false 0 {[1%nat := "10.0.0.2"]} {["10.0.0.2" := 1]} 2)
    (Accepting 5) {[1%nat := Reading]} {[1%nat]} ∅ ∅ {[1%nat]} ∅.

Lemma reach_busy_server : reach busy.
Proof.
  assert (H : reach idle) by by apply reach_init.
  take H ltac:(eapply (s_handler _ (Some 0%nat))).
  take H ltac:(eapply s_loop, (l_start _ (Ok 5%nat) (Ok "10.0.0.1:3101"))).
  take H ltac:(eapply s_loop, (l_accept _ 5 1 "10.0.0.2")).
  take H ltac:(eapply s_conn, (c_open_ok _ 1)).
  take H ltac:(eapply s_conn, (c_handshake _ 1)).
  exact H.
Qed.

Definition drained : sys :=
  mkSys (sv_of (Some true) None true 1 ∅ ∅ 0) (Served None) ∅ ∅
    {[7%nat := TReturned true None]} {[1%nat]} {[1%nat]} {[1%nat]}.

Lemma reach_drained_server : reach drained.
Proof.
  pose proof reach_busy_server as H. unfold busy in H.
  take H ltac:(eapply s_stop, (t_call _ 7)). take H ltac:(eapply s_stop, (t_enter _ 7)).
  take H ltac:(eapply s_stop, (t_close _ 7 _ _ None)).
  take H ltac:(eapply s_loop, (l_error _ _ (ESentinel NetErrClosed))).
  take H ltac:(eapply s_loop, l_finish).
  take H ltac:(eapply s_conn, (c_read _ 1)). take H ltac:(eapply s_conn, (c_closed _ 1)).
  take H ltac:(eapply s_conn, (c_untrack _ 1)). take H ltac:(eapply s_conn, (c_done _ 1)).
  take H ltac:(eapply s_conn, (c_writer _ 1)).
  take H ltac:(eapply s_loop, l_close). take H ltac:(eapply s_loop, l_wait).
  take H ltac:(eapply s_stop, (t_wait _ 7 None true None None)).
  exact H.
Qed.

Lemma tcp_connection_limits_witness : Z.of_nat (size (conns (srv busy))) ≤ maxConnLimit (config (srv busy)).
Proof. apply (tcp_connection_limits busy reach_busy_server). by intros H%(f_equal size). Defined.

Lemma tcp_stop_drains_witness : 1%nat ∈ handlerClosed drained.
Proof.
  apply (tcp_stop_drains drained drained 7 true reach_drained_server); [reflexivity|constructor|].
  reflexivity.
Defined.
End TcpServerExample.
