(* ===== verification/WsServer.v ===== *)
(** * The WebSocket server (network/websocket/server.go, server_options.go, config.go, server_connection.go)

    The shape of TcpServer: configuration and locked methods as functions, the
    HTTP requests that become connections and the callers of [Stop] as a
    transition system.  A request reserves a place before the upgrade and
    commits its channel after it; [net/http] and gorilla only answer. *)

From S2P Require Import Prelude Errors Proto Codec Network.

(** ** Configuration (config.go, server_options.go) *)

Record ChannelConfig := mkChannelConfig { WriteTimeout : Z; ReadDeadline : Z; SendQueueSize : Z }.

Definition DefaultReadDeadline : Z := 60 * Second.
Definition DefaultMaxHeaderBytes : Z := Z.shiftl 16 10.

Definition defaultChannelConfig : ChannelConfig :=
  mkChannelConfig DefaultWriteTimeout DefaultReadDeadline (Z.of_nat DefaultSendQueueSize).

Definition validate (c : option ChannelConfig) : option error :=
  match c with
  | None => Some (EText "websocket: channel config is required")
  | Some c =>
      if WriteTimeout c <=? 0 then Some (EText "websocket: channel write timeout must be positive")
      else if ReadDeadline c <=? 0 then Some (EText "websocket: channel read deadline must be positive")
      else if SendQueueSize c <=? 0 then Some (EText "websocket: channel send queue size must be positive")
      else None
  end.

Record serverConfig := mkConfig {
  network : string;
  address : string;
  advertiseHost : string;
  path : string;
  tls : option tlsConfig;
  codec : option Codec;
  middlewares : list nat;
  timeout : Z;
  allowedOrigins : gset string;
  handshakeTimeout : Z;
  maxHeaderBytes : Z;
  channel : option ChannelConfig;
  maxConnLimit : Z;                         (* int32 *)
  maxConnPerIP : Z;                         (* int32 *)
  requestQueueSize : Z;
}.
#[export] Instance eta_serverConfig : Eta serverConfig := λ c,
  mkConfig (network c) (address c) (advertiseHost c) (path c) (tls c) (codec c) (middlewares c) (timeout c)
    (allowedOrigins c) (handshakeTimeout c) (maxHeaderBytes c) (channel c) (maxConnLimit c) (maxConnPerIP c)
    (requestQueueSize c).

Definition defaultConfig (defaultCodec : Codec) : serverConfig :=
  mkConfig "tcp" ":3102" EmptyString "/" None (Some defaultCodec) [] DefaultHandlerTimeout ∅
    DefaultHandshakeTimeout DefaultMaxHeaderBytes (Some defaultChannelConfig) DefaultMaxConnLimit
    DefaultMaxConnPerIP DefaultRequestQueueSize.

Definition endpointScheme (c : serverConfig) : string :=
  match tls c with Some _ => "wss" | None => "ws" end.

(** [url.ParseRequestURI] keeps a path as it is: ["*"], or rooted and free of
    control bytes, of a query and of percent escapes. *)
Fixpoint plain_path (s : string) : bool :=
  match s with
  | EmptyString => true
  | String c s =>
      let n := Ascii.N_of_ascii c in
      negb ((n <? 32) || (n =? 127) || (n =? 63) || (n =? 37))%N && plain_path s
  end.

Definition validPath (path : string) : bool :=
  bool_decide (path = "*") || match path with String c _ => (Ascii.N_of_ascii c =? 47)%N && plain_path path | _ => false end.

(** ** The server *)

(** [channels] is [None] once [closeChannels] set it to nil; [connDone] counts
    the closes of that channel. *)
Record Server := mkServer {
  config : serverConfig;
  cancel : option bool;
  stopped : bool;
  lis : option nat;
  endpoint : option URL;
  channels : option (gset nat);
  connectionsPerIP : gmap string Z;
  connCount : Z;
  connWG : Z;
  connWaitOnce : bool;
  connDone : Z;
  handler : option nat;
}.
#[export] Instance eta_Server : Eta Server := λ s,
  mkServer (config s) (cancel s) (stopped s) (lis s) (endpoint s) (channels s) (connectionsPerIP s)
    (connCount s) (connWG s) (connWaitOnce s) (connDone s) (handler s).

Module Options.
Implicit Type s : Server.
Definition Network (v : string) s := s <| config := (config s) <| network := v |> |>.
Definition Address (v : string) s := s <| config := (config s) <| address := v |> |>.
Definition AdvertiseHost (v : string) s := s <| config := (config s) <| advertiseHost := v |> |>.
Definition Path (v : string) s := s <| config := (config s) <| path := v |> |>.
Definition AllowedOrigins (v : list string) s :=
  s <| config := (config s) <| allowedOrigins := list_to_set v |> |>.
Definition Endpoint (v : option URL) s := s <| endpoint := v |>.
Definition Listener (v : option nat) s := s <| lis := v |>.
Definition TLSConfig (v : option tlsConfig) s := s <| config := (config s) <| tls := v |> |>.
Definition Codec (v : option Codec) s := s <| config := (config s) <| codec := v |> |>.
Definition Middleware (v : list nat) s :=
  s <| config := (config s) <| middlewares := middlewares (config s) ++ v |> |>.
Definition Timeout (v : Z) s := s <| config := (config s) <| timeout := v |> |>.
Definition RequestQueueSize (v : Z) s := s <| config := (config s) <| requestQueueSize := v |> |>.
Definition MaxConnLimit (v : Z) s := s <| config := (config s) <| maxConnLimit := v |> |>.
Definition MaxConnPerIP (v : Z) s := s <| config := (config s) <| maxConnPerIP := v |> |>.
Definition ServerChannelConfig (v : option ChannelConfig) s := s <| config := (config s) <| channel := v |> |>.
Definition HandshakeTimeout (v : Z) s := s <| config := (config s) <| handshakeTimeout := v |> |>.
Definition MaxHeaderBytes (v : Z) s := s <| config := (config s) <| maxHeaderBytes := v |> |>.
End Options.

Definition NewServer (defaultCodec : Codec) (opts : list (Server → Server)) : Server :=
  foldl (λ s o, o s)
    (mkServer (defaultConfig defaultCodec) None false None None (Some ∅) ∅ 0 0 false 0 None) opts.

Definition validateConfig (s : Server) : option error :=
  let c := config s in
  if negb (validPath (path c)) then Some (EText "websocket: invalid path")
  else match codec c with
  | None => Some (EText "websocket: codec is required")
  | Some _ =>
      match validate (channel c) with
      | Some err => Some err
      | None =>
          if maxConnLimit c <=? 0 then Some (EText "websocket: connection limit must be positive")
          else if maxConnPerIP c <=? 0 then Some (EText "websocket: per-IP connection limit must be positive")
          else if handshakeTimeout c <=? 0 then Some (EText "websocket: handshake timeout must be positive")
          else if maxHeaderBytes c <=? 0 then Some (EText "websocket: max header bytes must be positive")
          else if timeout c <? 0 then Some (EText "websocket: handler timeout cannot be negative")
          else if requestQueueSize c <=? 0 then Some (EText "websocket: request queue size must be positive")
          else match ValidateServer (tls c) with
               | Some err => Some (EWrap "websocket: %w" [err])
               | None =>
                   match endpoint s with
                   | None => None
                   | Some e =>
                       if negb (bool_decide (Scheme e = endpointScheme c)) || bool_decide (Host e = EmptyString)
                       then Some (EText "websocket: endpoint must use %s:// with a host")
                       else if negb (bool_decide (Network.Path e = path c))
                       then Some (EText "websocket: endpoint path must match server path") else None
                   end
               end
      end
  end.

(** ** Methods under [lifecycleMu] *)

Definition started (s : Server) : bool := match cancel s with Some _ => true | None => false end.

Section Prepare.
Context (listen : result nat) (extract : result string).

Definition listenAndEndpoint (s : Server) : Server * option error * list nat :=
  let created := match lis s with Some _ => false | None => true end in
  match (match lis s with Some l => Ok l | None => listen end) with
  | Err err => (s, Some err, [])
  | Ok l =>
      let s := s <| lis := Some l |> in
      match endpoint s with
      | Some _ => (s, None, [])
      | None =>
          match extract with
          | Err err => if created then (s <| lis := None |>, Some err, [l]) else (s, Some err, [])
          | Ok addr =>
              (s <| endpoint := Some (mkURL (endpointScheme (config s)) addr (path (config s))) |>, None, [])
          end
      end
  end.

Definition prepare (s : Server) : Server * option error * list nat :=
  match handler s with
  | None => (s, Some (EText "websocket: connection handler is required"), [])
  | Some _ => match validateConfig s with
              | Some err => (s, Some err, [])
              | None => listenAndEndpoint s
              end
  end.

Definition SetHandler (h : option nat) (s : Server) : Server * option error :=
  match h with
  | None => (s, Some (EText "websocket: connection handler is required"))
  | Some _ =>
      if started s || stopped s then (s, Some (EText "websocket: server cannot set handler after start"))
      else match handler s with
           | Some _ => (s, Some (EText "websocket: connection handler is already set"))
           | None => (s <| handler := h |>, None)
           end
  end.

Definition BeforeStart (s : Server) : Server * option error * list nat :=
  if started s || stopped s then (s, Some (EText "websocket: server cannot be prepared"), [])
  else prepare s.

Definition Endpoint (s : Server) : Server * result URL * list nat :=
  if stopped s then (s, Err (EText "websocket: server is stopped"), [])
  else match validateConfig s with
       | Some err => (s, Err err, [])
       | None =>
           match listenAndEndpoint s with
           | (s, Some err, closed) => (s, Err err, closed)
           | (s, None, closed) =>
               (s, match endpoint s with Some e => Ok e | None => Err (EText "nil endpoint") end, closed)
           end
       end.

Definition Start_enter (s : Server) : Server * option error * list nat :=
  if started s || stopped s then (s, Some (EText "websocket: server cannot be started"), [])
  else match prepare s with
       | (s, Some err, closed) => (s, Some err, closed)
       | (s, None, closed) => (s <| cancel := Some false |>, None, closed)
       end.
End Prepare.

Definition Stop_enter (s : Server) : Server * option nat :=
  let s' := if stopped s then s else s <| stopped := true |> <| cancel := (λ _, true) <$> cancel s |> in
  (s' <| lis := None |>, lis s).

Definition finishServing_enter (s : Server) : Server :=
  s <| stopped := true |> <| lis := None |> <| cancel := (λ _, true) <$> cancel s |>.

(** [closeChannels]: the channels to close. *)
Definition closeChannels (s : Server) : Server * gset nat :=
  (s <| channels := None |>, default ∅ (channels s)).

Definition reserveConnection (remoteIP : string) (s : Server) : Server * bool :=
  if stopped s || (maxConnLimit (config s) <=? connCount s)
     || (maxConnPerIP (config s) <=? perip_get remoteIP (connectionsPerIP s))
  then (s, false)
  else (s <| connCount := i32 (connCount s + 1) |>
          <| connectionsPerIP := perip_incr remoteIP (connectionsPerIP s) |>
          <| connWG := connWG s + 1 |>, true).

(** The channel is committed under its id; a write to the nil map would panic. *)
Definition commitConnection (conn : nat) (s : Server) : option (Server * bool) :=
  if stopped s then Some (s, false)
  else match channels s with
       | Some m => Some (s <| channels := Some (m ∪ {[conn]}) |>, true)
       | None => None
       end.

(** [releaseConnection] up to the unlock; [connWG.Done] follows. *)
Definition releaseConnection (remoteIP : string) (conn : option nat) (s : Server) : Server :=
  let s := match conn with
           | Some c => s <| channels := (λ m, m ∖ {[c]}) <$> channels s |>
           | None => s
           end in
  s <| connectionsPerIP := perip_decr remoteIP (connectionsPerIP s) |> <| connCount := i32 (connCount s - 1) |>.

(** ** The goroutines *)

(** [handleConnections] and [serveWebsocket] of a request that was given a place. *)
Inductive req_state :=
| Upgrading
| Committing
| Opening | Opened | Reading | HandlerClosing
| WaitWriter                                (* closeWithReason, then <-ch.writerDone *)
| Releasing (committed : bool)
| Finishing.                                (* connWG.Done() *)

Inductive serving := NotServing | Serving | Ending (err : option error) | Draining (err : option error)
| Served (err : option error).

(** The goroutine of [connWaitOnce]. *)
Inductive waiter := NoWaiter | Waiting | Waited.

Inductive stopper :=
| TEnter
| TShutdown (l : option nat)
| TConns (stopErr : option error)           (* stopConnections *)
| TWait (stopErr : option error)
| TReturned (err : option error).

Record sys := mkSys {
  srv : Server;
  loop : serving;
  reqs : gmap nat (string * req_state);     (* the requests that hold a place *)
  wait : waiter;
  stops : gmap nat stopper;
  taken : gset nat;                         (* channels [closeChannels] closes *)
  opened : gset nat;
  handlerClosed : gset nat;
}.
#[export] Instance eta_sys : Eta sys := λ s,
  mkSys (srv s) (loop s) (reqs s) (wait s) (stops s) (taken s) (opened s) (handlerClosed s).

Definition set_req (c : nat) (ip : string) (x : req_state) (s : sys) : sys :=
  s <| reqs := <[c := (ip, x)]> (reqs s) |>.

(** [stopConnections] before its wait: close the channels, start the waiter once. *)
Definition stopConnections (s : sys) : sys :=
  let (sv, l) := closeChannels (srv s) in
  s <| srv := sv <| connWaitOnce := true |> |> <| taken := taken s ∪ l |>
    <| wait := if connWaitOnce sv then wait s else Waiting |>.

Inductive loop_step (s : sys) : sys → Prop :=
| l_start listen extract sv closed :
    Start_enter listen extract (srv s) = (sv, None, closed) →
    loop_step s (s <| srv := sv |> <| loop := Serving |>)
| l_refused listen extract sv err closed :
    Start_enter listen extract (srv s) = (sv, Some err, closed) → loop_step s (s <| srv := sv |>)
| l_return err serverClosed :               (* Serve returned *)
    loop s = Serving → loop_step s (s <| loop := Ending (if serverClosed : bool then None else err) |>)
| l_finish err :
    loop s = Ending err →
    loop_step s (stopConnections (s <| srv := finishServing_enter (srv s) |>) <| loop := Draining err |>)
| l_wait err :
    loop s = Draining err → 0 < connDone (srv s) → loop_step s (s <| loop := Served err |>)
| l_waiter :
    wait s = Waiting → connWG (srv s) = 0 →
    loop_step s (s <| srv := (srv s) <| connDone := connDone (srv s) + 1 |> |> <| wait := Waited |>).

Inductive req_step (s : sys) : sys → Prop :=
| r_reserve c ip sv ok :                    (* a request reaches handleConnections *)
    loop s ≠ NotServing → reqs s !! c = None → c ∉ opened s → c ∉ taken s → c ∉ default ∅ (channels (srv s)) →
    reserveConnection ip (srv s) = (sv, ok) →
    req_step s (if ok then set_req c ip Upgrading (s <| srv := sv |>) else s)
| r_upgrade c ip (ok : bool) :
    reqs s !! c = Some (ip, Upgrading) →
    req_step s (set_req c ip (if ok then Committing else Releasing false) s)
| r_commit c ip sv ok :
    reqs s !! c = Some (ip, Committing) → commitConnection c (srv s) = Some (sv, ok) →
    req_step s (set_req c ip (if ok then Opening else Releasing false) (s <| srv := sv |>))
| r_open_err c ip : reqs s !! c = Some (ip, Opening) → req_step s (set_req c ip WaitWriter s)
| r_open_ok c ip :
    reqs s !! c = Some (ip, Opening) → req_step s (set_req c ip Opened (s <| opened := opened s ∪ {[c]} |>))
| r_handshake c ip (ok : bool) :
    reqs s !! c = Some (ip, Opened) → req_step s (set_req c ip (if ok then Reading else HandlerClosing) s)
| r_read c ip : reqs s !! c = Some (ip, Reading) → req_step s (set_req c ip HandlerClosing s)
| r_closed c ip :
    reqs s !! c = Some (ip, HandlerClosing) →
    req_step s (set_req c ip WaitWriter (s <| handlerClosed := handlerClosed s ∪ {[c]} |>))
| r_writer c ip : reqs s !! c = Some (ip, WaitWriter) → req_step s (set_req c ip (Releasing true) s)
| r_release c ip b :
    reqs s !! c = Some (ip, Releasing b) →
    req_step s (set_req c ip Finishing (s <| srv := releaseConnection ip (if b : bool then Some c else None) (srv s) |>))
| r_done c ip :
    reqs s !! c = Some (ip, Finishing) →
    req_step s (s <| srv := (srv s) <| connWG := connWG (srv s) - 1 |> |> <| reqs := delete c (reqs s) |>).

Inductive stop_step (s : sys) : sys → Prop :=
| t_call i : stops s !! i = None → stop_step s (s <| stops := <[i := TEnter]> (stops s) |>)
| t_enter i sv l :
    stops s !! i = Some TEnter → Stop_enter (srv s) = (sv, l) →
    stop_step s (s <| srv := sv |> <| stops := <[i := TShutdown l]> (stops s) |>)
| t_shutdown i l stopErr :
    stops s !! i = Some (TShutdown l) → stop_step s (s <| stops := <[i := TConns stopErr]> (stops s) |>)
| t_conns i stopErr :
    stops s !! i = Some (TConns stopErr) →
    stop_step s (stopConnections s <| stops := <[i := TWait stopErr]> (stops s) |>)
| t_wait i stopErr ctxErr err serverClosed :
    stops s !! i = Some (TWait stopErr) → Done (0 <? connDone (srv s)) ctxErr = Some err →
    stop_step s (s <| stops := <[i := TReturned (match err with
                                                 | Some e => Some e
                                                 | None => if serverClosed : bool then None else stopErr
                                                 end)]> (stops s) |>).

Inductive step (s : sys) : sys → Prop :=
| s_loop s' : loop_step s s' → step s s'
| s_req s' : req_step s s' → step s s'
| s_stop s' : stop_step s s' → step s s'
| s_handler h sv err :
    SetHandler h (srv s) = (sv, err) → step s (s <| srv := sv |>)
| s_before listen extract sv err closed :
    BeforeStart listen extract (srv s) = (sv, err, closed) → step s (s <| srv := sv |>)
| s_endpoint listen extract sv r closed :
    Endpoint listen extract (srv s) = (sv, r, closed) → step s (s <| srv := sv |>).

Definition fresh (sv : Server) : Prop :=
  cancel sv = None ∧ stopped sv = false ∧ channels sv = Some ∅ ∧ connectionsPerIP sv = ∅ ∧ connCount sv = 0 ∧
  connWG sv = 0 ∧ connWaitOnce sv = false ∧ connDone sv = 0 ∧
  maxConnLimit (config sv) < 2 ^ 31 ∧ maxConnPerIP (config sv) < 2 ^ 31.

Definition init_sys (s : sys) : Prop :=
  fresh (srv s) ∧ loop s = NotServing ∧ reqs s = ∅ ∧ wait s = NoWaiter ∧ stops s = ∅ ∧
  taken s = ∅ ∧ opened s = ∅ ∧ handlerClosed s = ∅.

Definition reach : sys → Prop := reachable init_sys step.

(** ** Invariant *)

Definition place (r : string * req_state) : option string :=
  match r with (_, Finishing) => None | (ip, _) => Some ip end.

(** The requests that hold a place, with their address. *)
Definition places (s : sys) : gmap nat string := omap place (reqs s).

Definition committed (x : req_state) : bool :=
  match x with Opening | Opened | Reading | HandlerClosing | WaitWriter => true | Releasing b => b | _ => false end.
Definition active (x : req_state) : bool :=
  match x with Opened | Reading | HandlerClosing => true | _ => false end.

Record table_ok (sv : Server) (m : gmap nat string) : Prop := mkTableOk {
  t_int32 : maxConnLimit (config sv) < 2 ^ 31 ∧ maxConnPerIP (config sv) < 2 ^ 31;
  t_count : connCount sv = Z.of_nat (size m);
  t_total : m ≠ ∅ → Z.of_nat (size m) ≤ maxConnLimit (config sv);
  t_perip : perip_ok id (connectionsPerIP sv) m;
  t_limit : ∀ ip, 0 < count_ip id ip m → count_ip id ip m ≤ maxConnPerIP (config sv);
}.

Definition req_ok (s : sys) (c : nat) : Prop :=
  (∀ ip x, reqs s !! c = Some (ip, x) → committed x = true → c ∈ default ∅ (channels (srv s)) ∨ c ∈ taken s) ∧
  (c ∈ opened s ↔ c ∈ handlerClosed s ∨ ∃ ip x, reqs s !! c = Some (ip, x) ∧ active x = true).

Definition wait_ok (s : sys) : Prop :=
  connDone (srv s) = (match wait s with Waited => 1 | _ => 0 end) ∧
  connWaitOnce (srv s) = (match wait s with NoWaiter => false | _ => true end) ∧
  (stopped (srv s) = false → wait s = NoWaiter ∧ channels (srv s) ≠ None) ∧
  (wait s ≠ NoWaiter → channels (srv s) = None) ∧
  (wait s = Waited → reqs s = ∅) ∧
  (loop s = NotServing → reqs s = ∅ ∧ cancel (srv s) = None).

Definition stop_ok (s : sys) (t : stopper) : Prop :=
  match t with
  | TEnter => True
  | TShutdown _ | TConns _ => stopped (srv s) = true
  | TWait _ => wait s ≠ NoWaiter
  | TReturned err => err = None → wait s = Waited
  end.

Record inv (s : sys) : Prop := mkInv {
  i_table : table_ok (srv s) (places s);
  i_wg : connWG (srv s) = Z.of_nat (size (reqs s));
  i_reqs : ∀ c, req_ok s c;
  i_wait : wait_ok s;
  i_stops : ∀ i t, stops s !! i = Some t → stop_ok s t;
}.

Definition same_core (a b : Server) : Prop :=
  config b = config a ∧ stopped b = stopped a ∧ channels b = channels a ∧
  connectionsPerIP b = connectionsPerIP a ∧ connCount b = connCount a ∧ connWG b = connWG a ∧
  connWaitOnce b = connWaitOnce a ∧ connDone b = connDone a.

Lemma ws_listenAndEndpoint_core li ex s s' e cl :
  listenAndEndpoint li ex s = (s', e, cl) → same_core s s' ∧ cancel s' = cancel s.
Proof. unfold listenAndEndpoint. intros H. repeat case_match; simplify_eq; by repeat split. Qed.

Lemma ws_prepare_core li ex s s' e cl :
  prepare li ex s = (s', e, cl) → same_core s s' ∧ cancel s' = cancel s.
Proof.
  unfold prepare. intros H. repeat case_match; simplify_eq; try (by repeat split).
  by eapply ws_listenAndEndpoint_core.
Qed.

Lemma ws_inv_core s sv lp :
  inv s → same_core (srv s) sv → (lp = NotServing → loop s = NotServing ∧ cancel sv = cancel (srv s)) →
  inv (s <| srv := sv |> <| loop := lp |>).
Proof.
  intros [Ht Hw Hc Hl Hs] (E1 & E2 & E3 & E4 & E5 & E6 & E7 & E8) El. split; simpl.
  - destruct Ht. by split; rewrite ?E1, ?E4, ?E5.
  - by rewrite E6.
  - intros c. specialize (Hc c). unfold req_ok in *; simpl. by rewrite E3.
  - unfold wait_ok in *; simpl. rewrite E2, E3, E7, E8. naive_solver congruence.
  - intros i t Hi. specialize (Hs i t Hi). unfold stop_ok in *; simpl. by rewrite E2.
Qed.

Lemma table_reserve c ip sv sv' m :
  table_ok sv m → m !! c = None → reserveConnection ip sv = (sv', true) → table_ok sv' (<[c := ip]> m).
Proof.
  intros [[H1 H1'] Hn H2 H3 H4] Hc Hr. unfold reserveConnection in Hr.
  rewrite Hn, (perip_get_ok id _ _ ip H3) in Hr. case_match eqn:E; simplify_eq. to_prop.
  pose proof (count_ip_nonneg id ip m). split; simpl; try done.
  - rewrite map_size_insert_None by done. rewrite i32_small by lia. lia.
  - intros _. rewrite map_size_insert_None by done. lia.
  - apply (perip_ok_incr id _ _ c ip); [done|done|]. change (id ip) with ip. lia.
  - intros ip'. rewrite (count_ip_insert id) by done. change (id ip) with ip.
    destruct (decide (ip = ip')) as [<-|Hne]; [lia|]. rewrite !Z.add_0_l. apply H4.
Qed.

Lemma table_release c ip ch sv m :
  table_ok sv m → m !! c = Some ip → table_ok (releaseConnection ip ch sv) (delete c m).
Proof.
  intros [[H1 H1'] Hn H2 H3 H4] Hc. unfold releaseConnection.
  pose proof (count_ip_pos id c ip m Hc) as Hp. change (id ip) with ip in Hp.
  assert (Hne : m ≠ ∅) by (intros E; by rewrite E, lookup_empty in Hc).
  specialize (H2 Hne). assert (Hz : size m ≠ 0%nat) by by apply map_size_non_empty_iff.
  assert (Hcount : i32 (connCount sv - 1) = Z.of_nat (size (delete c m))).
  { rewrite map_size_delete_Some by (by rewrite Hc). rewrite i32_small by lia. lia. }
  split.
  - by destruct ch.
  - by destruct ch.
  - intros _. rewrite map_size_delete_Some by (by rewrite Hc). destruct ch; simpl; lia.
  - replace (connectionsPerIP _) with (perip_decr ip (connectionsPerIP sv)) by by destruct ch.
    apply (perip_ok_decr id _ _ c ip); [done|done|]. change (id ip) with ip. specialize (H4 ip). lia.
  - intros ip'. rewrite (count_ip_delete id _ c ip) by done. change (id ip) with ip.
    specialize (H4 ip'). destruct ch; simpl; case_decide; lia.
Qed.

Lemma places_set s c ip x : x ≠ Finishing → places (set_req c ip x s) = <[c := ip]> (places s).
Proof. intros Hx. unfold places, set_req; simpl. erewrite omap_insert_Some; [done|]. by destruct x. Qed.

Lemma places_lookup s c ip x : reqs s !! c = Some (ip, x) → x ≠ Finishing → places s !! c = Some ip.
Proof. intros Hc Hx. unfold places. rewrite lookup_omap, Hc. simpl. by destruct x. Qed.

Lemma places_move s c ip x y :
  reqs s !! c = Some (ip, y) → x ≠ Finishing → y ≠ Finishing → places (set_req c ip x s) = places s.
Proof. intros Hc Hx Hy. rewrite places_set by done. apply insert_id. by eapply places_lookup. Qed.

Lemma places_finish s c ip : places (set_req c ip Finishing s) = delete c (places s).
Proof. unfold places, set_req; simpl. by rewrite omap_insert_None. Qed.

(** A step that only moves one request on, without its channel. *)
Lemma inv_req_move s c ip x y op hc :
  inv s → reqs s !! c = Some (ip, y) → x ≠ Finishing → y ≠ Finishing → (committed x = true → committed y = true) →
  opened s ⊆ op → handlerClosed s ⊆ hc → (∀ d, d ≠ c → d ∈ op → d ∈ opened s) → (∀ d, d ≠ c → d ∈ hc → d ∈ handlerClosed s) →
  (c ∈ op ↔ c ∈ hc ∨ active x = true) →
  inv (set_req c ip x (s <| opened := op |> <| handlerClosed := hc |>)).
Proof.
  intros [Ht Hw Hc Hl Hs] Hi Hx Hy Hcom So Sh Ho Hh Hact. split; simpl; try done.
  - change (places _) with (places (set_req c ip x s)). by rewrite (places_move s c ip x y).
  - rewrite map_size_insert_Some by (by rewrite Hi). done.
  - intros d. pose proof (Hc d) as (H1 & H2). unfold req_ok; simpl. destruct (decide (d = c)) as [->|Hne].
    + rewrite lookup_insert_eq. split; [naive_solver|]. rewrite Hact. naive_solver.
    + rewrite lookup_insert_ne by done. split; [done|]. specialize (So d). specialize (Sh d).
      specialize (Ho d Hne). specialize (Hh d Hne). naive_solver.
  - unfold wait_ok in *; simpl. destruct Hl as (? & ? & ? & ? & H5 & H6). split_and!; try done.
    + intros E. rewrite H5 in Hi by done. by rewrite lookup_empty in Hi.
    + intros E. destruct (H6 E) as [Hz _]. rewrite Hz in Hi. by rewrite lookup_empty in Hi.
Qed.

Lemma inv_reserve s c ip sv :
  inv s → loop s ≠ NotServing → reqs s !! c = None → c ∉ opened s →
  reserveConnection ip (srv s) = (sv, true) → inv (set_req c ip Upgrading (s <| srv := sv |>)).
Proof.
  intros Hinv Hl Hg Ho Hr. pose proof Hinv as [Ht Hw Hc Hlo Hs].
  assert (Hp : places s !! c = None) by (unfold places; by rewrite lookup_omap, Hg).
  pose proof (table_reserve c ip _ _ _ Ht Hp Hr) as Ht'.
  unfold reserveConnection in Hr. destruct (stopped (srv s)) eqn:Est; simpl in Hr; [done|].
  case_match; simplify_eq. split; simpl; try done.
  - by rewrite places_set.
  - rewrite map_size_insert_None by done. lia.
  - intros d. specialize (Hc d). unfold req_ok in *; simpl. destruct (decide (d = c)) as [->|].
    + rewrite lookup_insert_eq. rewrite Hg in Hc. naive_solver.
    + rewrite lookup_insert_ne by done. naive_solver.
  - unfold wait_ok in *; simpl. destruct Hlo as (H1 & H2 & H3 & H4 & H5 & H6). destruct (H3 Est) as [Hnw Hch].
    rewrite Est, Hnw in *. split_and!; done.
Qed.

Lemma inv_commit s c ip sv ok :
  inv s → reqs s !! c = Some (ip, Committing) → commitConnection c (srv s) = Some (sv, ok) →
  inv (set_req c ip (if ok then Opening else Releasing false) (s <| srv := sv |>)).
Proof.
  intros Hinv Hi Hco. pose proof Hinv as [Ht Hw Hc Hlo Hs]. unfold commitConnection in Hco.
  destruct (stopped (srv s)) eqn:Est; simplify_eq.
  - pose proof (inv_req_move s c ip (Releasing false) Committing (opened s) (handlerClosed s) Hinv Hi) as H.
    apply H; try done. destruct (Hc c) as [_ ->]. rewrite Hi. naive_solver.
  - destruct (channels (srv s)) as [m|] eqn:Em; simplify_eq.
    pose proof Hlo as (H1 & H2 & H3 & H4 & H5 & H6). destruct (H3 Est) as [Hnw _].
    split; simpl; try done.
    + change (places _) with (places (set_req c ip Opening s)). rewrite (places_move s c ip Opening Committing) by done.
      destruct Ht. by split.
    + rewrite map_size_insert_Some by (by rewrite Hi). done.
    + intros d. specialize (Hc d). unfold req_ok in *; simpl. rewrite Em in Hc. simpl in Hc.
      destruct (decide (d = c)) as [->|].
      * rewrite lookup_insert_eq. rewrite Hi in Hc. set_solver.
      * rewrite lookup_insert_ne by done. set_solver.
    + unfold wait_ok; simpl. rewrite Hnw in *. split_and!; try done.
      intros E. destruct (H6 E) as [Hz _]. rewrite Hz in Hi. by rewrite lookup_empty in Hi.
Qed.

Lemma inv_release s c ip b :
  inv s → reqs s !! c = Some (ip, Releasing b) →
  inv (set_req c ip Finishing (s <| srv := releaseConnection ip (if b then Some c else None) (srv s) |>)).
Proof.
  intros Hinv Hi. pose proof Hinv as [Ht Hw Hc Hlo Hs].
  set (sv := releaseConnection ip (if b then Some c else None) (srv s)).
  assert (Hch : channels sv = channels (srv s) ∨ channels sv = (λ m, m ∖ {[c]}) <$> channels (srv s)).
  { unfold sv, releaseConnection. destruct b; simpl; auto. }
  assert (Hrest : stopped sv = stopped (srv s) ∧ connWG sv = connWG (srv s) ∧ cancel sv = cancel (srv s) ∧
                  connDone sv = connDone (srv s) ∧ connWaitOnce sv = connWaitOnce (srv s)) by by destruct b.
  destruct Hrest as (E1 & E2 & E3 & E4 & E5).
  assert (Htab : table_ok sv (delete c (places s))) by (apply table_release; [done|by eapply places_lookup]).
  clearbody sv. split; simpl; try done.
  - change (places _) with (places (set_req c ip Finishing s)). by rewrite places_finish.
  - rewrite map_size_insert_Some by (by rewrite Hi). by rewrite E2.
  - intros d. specialize (Hc d). unfold req_ok in *; simpl. destruct (decide (d = c)) as [->|].
    + rewrite lookup_insert_eq. rewrite Hi in Hc. naive_solver.
    + rewrite lookup_insert_ne by done. destruct Hc as [Ha Hb]. split; [|done].
      intros ip' x Hx Hcm. specialize (Ha ip' x Hx Hcm).
      destruct Hch as [->| ->]; [done|]. destruct (channels (srv s)); set_solver.
  - unfold wait_ok in *; simpl. rewrite E1, E3, E4, E5. destruct Hlo as (H1 & H2 & H3 & H4 & H5 & H6).
    split_and!; try done.
    + intros E. destruct (H3 E). split; [done|]. destruct Hch as [->| ->]; [done|]. by destruct (channels (srv s)).
    + intros E. destruct Hch as [->| ->]; [by apply H4|]. by rewrite H4.
    + intros E. rewrite H5 in Hi by done. by rewrite lookup_empty in Hi.
    + intros E. destruct (H6 E) as [Hz _]. rewrite Hz in Hi. by rewrite lookup_empty in Hi.
  - intros i t Ht'. specialize (Hs i t Ht'). unfold stop_ok in *; simpl. by rewrite E1.
Qed.

Lemma inv_req s s' : inv s → req_step s s' → inv s'.
Proof.
  intros Hinv Hst. pose proof Hinv as [Ht Hw Hc Hlo Hs].
  destruct Hst as [c ip sv ok Hl Hg Ho _ _ Hr|c ip ok Hi|c ip sv ok Hi Hco|c ip Hi|c ip Hi|c ip ok Hi|c ip Hi|c ip Hi|c ip Hi|c ip b Hi|c ip Hi].
  - destruct ok; [by apply inv_reserve|done].
  - pose proof (inv_req_move s c ip (if ok then Committing else Releasing false) Upgrading (opened s) (handlerClosed s) Hinv Hi) as H.
    apply H; try (by destruct ok). destruct (Hc c) as [_ ->]. rewrite Hi. destruct ok; naive_solver.
  - by eapply inv_commit.
  - pose proof (inv_req_move s c ip WaitWriter Opening (opened s) (handlerClosed s) Hinv Hi) as H.
    apply H; try done. destruct (Hc c) as [_ ->]. rewrite Hi. naive_solver.
  - pose proof (inv_req_move s c ip Opened Opening (opened s ∪ {[c]}) (handlerClosed s) Hinv Hi) as H.
    apply H; try done; set_solver.
  - pose proof (inv_req_move s c ip (if ok then Reading else HandlerClosing) Opened (opened s) (handlerClosed s) Hinv Hi) as H.
    apply H; try (by destruct ok). destruct (Hc c) as [_ ->]. rewrite Hi. destruct ok; naive_solver.
  - pose proof (inv_req_move s c ip HandlerClosing Reading (opened s) (handlerClosed s) Hinv Hi) as H.
    apply H; try done. destruct (Hc c) as [_ ->]. rewrite Hi. naive_solver.
  - pose proof (inv_req_move s c ip WaitWriter HandlerClosing (opened s) (handlerClosed s ∪ {[c]}) Hinv Hi) as H.
    apply H; try done; set_solver.
  - pose proof (inv_req_move s c ip (Releasing true) WaitWriter (opened s) (handlerClosed s) Hinv Hi) as H.
    apply H; try done. destruct (Hc c) as [_ ->]. rewrite Hi. naive_solver.
  - by apply inv_release.
  - assert (Hz : size (reqs s) ≠ 0%nat).
    { apply map_size_non_empty_iff. intros E. by rewrite E, lookup_empty in Hi. }
    assert (Hp : omap place (delete c (reqs s)) = places s).
    { unfold places. rewrite omap_delete, delete_id; [done|]. by rewrite lookup_omap, Hi. }
    split; simpl; try done.
    + unfold places; simpl. rewrite Hp. by destruct Ht.
    + rewrite map_size_delete_Some by (by rewrite Hi). lia.
    + intros d. specialize (Hc d). unfold req_ok in *; simpl. destruct (decide (d = c)) as [->|].
      * rewrite lookup_delete_eq. rewrite Hi in Hc. naive_solver.
      * rewrite lookup_delete_ne by done. naive_solver.
    + unfold wait_ok in *; simpl. destruct Hlo as (H1 & H2 & H3 & H4 & H5 & H6). split_and!; try done.
      * intros E. rewrite H5 by done. apply delete_empty.
      * intros E. destruct (H6 E) as [-> ?]. split; [apply delete_empty|done].
Qed.

(** [stopConnections] once admission is closed. *)
Lemma inv_stopConnections s : inv s → stopped (srv s) = true → inv (stopConnections s) ∧ wait (stopConnections s) ≠ NoWaiter.
Proof.
  intros [Ht Hw Hc Hlo Hs] Hst. pose proof Hlo as (H1 & H2 & H3 & H4 & H5 & H6).
  unfold stopConnections; simpl. split.
  - split; simpl; try done.
    + by destruct Ht.
    + intros c. specialize (Hc c). unfold req_ok in *; simpl. set_solver.
    + unfold wait_ok; simpl. rewrite Hst, H1, H2. destruct (wait s); naive_solver.
    + intros i t Hi. specialize (Hs i t Hi). unfold stop_ok in *; simpl. rewrite H2. destruct t, (wait s); naive_solver.
  - rewrite H2. by destruct (wait s).
Qed.

Lemma ws_Start_enter_spec li ex s s' e cl :
  Start_enter li ex s = (s', e, cl) → same_core s s' ∧ (e ≠ None → cancel s' = cancel s).
Proof.
  unfold Start_enter. intros H. destruct (started s || stopped s) eqn:E.
  - simplify_eq. by repeat split.
  - destruct (prepare li ex s) as [[s1 [err|]] cl1] eqn:Ep; simplify_eq;
      destruct (ws_prepare_core _ _ _ _ _ _ Ep) as [(? & ? & ? & ? & ? & ? & ? & ?) ?]; by repeat split.
Qed.

Lemma inv_stopped s sv :
  inv s → same_core ((srv s) <| stopped := true |>) sv → (cancel (srv s) = None → cancel sv = None) →
  inv (s <| srv := sv |>).
Proof.
  intros [Ht Hw Hc Hl Hs] (E1 & E2 & E3 & E4 & E5 & E6 & E7 & E8) Eca. simpl in *. split; simpl.
  - destruct Ht. by split; rewrite ?E1, ?E4, ?E5.
  - by rewrite E6.
  - intros c. specialize (Hc c). unfold req_ok in *; simpl. by rewrite E3.
  - unfold wait_ok in *; simpl. rewrite E2, E3, E7, E8. naive_solver.
  - intros i t Hi. specialize (Hs i t Hi). unfold stop_ok in *; simpl. rewrite E2. destruct t; naive_solver.
Qed.

Lemma ws_inv_loop s s' : inv s → loop_step s s' → inv s'.
Proof.
  intros Hinv Hst. pose proof Hinv as [Ht Hw Hc Hlo Hs].
  destruct Hst as [li ex sv cl Hst|li ex sv err cl Hst|err b Hl|err Hl|err Hl Hd|Hwt Hz].
  - destruct (ws_Start_enter_spec _ _ _ _ _ _ Hst) as [Hcore _]. by apply ws_inv_core.
  - destruct (ws_Start_enter_spec _ _ _ _ _ _ Hst) as [Hcore Hca].
    apply (ws_inv_core s sv (loop s)); [done|done|]. intros. split; [done|by apply Hca].
  - apply (ws_inv_core s (srv s)); [done|by repeat split|done].
  - destruct (inv_stopConnections (s <| srv := finishServing_enter (srv s) |>)) as [Hi _]; [|done|].
    + apply inv_stopped; [done|by repeat split|]. simpl. by intros ->.
    + by apply (ws_inv_core _ (srv (stopConnections (s <| srv := finishServing_enter (srv s) |>))) (Draining err)) in Hi.
  - by apply (ws_inv_core s (srv s)).
  - pose proof Hlo as (H1 & H2 & H3 & H4 & H5 & H6). rewrite Hwt in *.
    assert (Hr : reqs s = ∅) by (apply map_size_empty_inv; lia).
    split; simpl; try done.
    + by destruct Ht.
    + unfold wait_ok; simpl. rewrite H1. split_and!; try done; [naive_solver|]. intros _. by apply H4.
    + intros i t Hi. specialize (Hs i t Hi). unfold stop_ok in *; simpl. rewrite Hwt in Hs. destruct t; naive_solver.
Qed.

Lemma ws_inv_stop s s' : inv s → stop_step s s' → inv s'.
Proof.
  intros Hinv Hst.
  assert (Hput : ∀ s i t, inv s → stop_ok s t → inv (s <| stops := <[i := t]> (stops s) |>)).
  { intros s0 i t [Ht Hw Hc Hlo Hs] Hok. split; try done.
    intros j t' Hj. simpl in Hj. apply lookup_insert_Some in Hj as [[_ <-]|[_ Hj]]; [done|by apply (Hs j)]. }
  destruct Hst as [i Hi|i sv l Hi He|i l se Hi|i se Hi|i se cx err b Hi Hd].
  - by apply Hput.
  - assert (Hsv : inv (s <| srv := sv |>) ∧ stopped sv = true).
    { unfold Stop_enter in He. destruct (stopped (srv s)) eqn:Est; simplify_eq.
      - split; [|done]. apply inv_stopped; [done| |done]. unfold same_core; simpl. by rewrite Est.
      - split; [|done]. apply inv_stopped; [done|by repeat split|]. simpl. by intros ->. }
    destruct Hsv as [H1 H2]. exact (Hput (s <| srv := sv |>) i (TShutdown l) H1 H2).
  - apply Hput; [done|]. apply (i_stops s Hinv i _ Hi).
  - destruct (inv_stopConnections s Hinv) as [H1 H2]; [apply (i_stops s Hinv i _ Hi)|].
    exact (Hput (stopConnections s) i (TWait se) H1 H2).
  - apply Hput; [done|]. simpl. intros He. destruct err; [done|].
    pose proof (i_wait s Hinv) as (H1 & _). unfold Done in Hd.
    rewrite H1 in Hd. destruct (wait s); [by destruct cx..|done].
Qed.

Lemma ws_srv_inv_reach s : reach s → inv s.
Proof.
  apply invariant_reachable.
  - intros [sv lp g w st ta op hc] ((E1 & E2 & E3 & E4 & E5 & E6 & E7 & E8 & E9 & E10) & H); simpl in *.
    destruct H as (-> & -> & -> & -> & -> & -> & ->). split; simpl; try done.
    + by split; rewrite ?E4, ?E5.
    + intros c. unfold req_ok; simpl. rewrite lookup_empty. set_solver.
    + unfold wait_ok; simpl. rewrite E3. naive_solver.
  - intros s0 s1 _ Hinv Hst. destruct Hst as [s1 Hs|s1 Hs|s1 Hs|h sv err Hh|li ex sv err cl Hb|li ex sv r cl He].
    + by eapply ws_inv_loop.
    + by eapply inv_req.
    + by eapply ws_inv_stop.
    + unfold SetHandler in Hh. apply (ws_inv_core s0 sv (loop s0)); [done| |]; repeat case_match; simplify_eq; by repeat split.
    + unfold BeforeStart in Hb. case_match; simplify_eq; [by apply (ws_inv_core s0 (srv s0) (loop s0))|].
      destruct (ws_prepare_core _ _ _ _ _ _ Hb). by apply (ws_inv_core s0 sv (loop s0)).
    + assert (Hcore : same_core (srv s0) sv ∧ cancel sv = cancel (srv s0)).
      { unfold Endpoint in He. repeat case_match; simplify_eq; try (by repeat split).
        all: by eapply ws_listenAndEndpoint_core. }
      destruct Hcore. by apply (ws_inv_core s0 sv (loop s0)).
Qed.

(** ** Properties *)

(** [connCount] is the number of requests that hold a place, within the
    limit, the per-address counts are exact and within theirs, and committing
    a channel never writes to the map [closeChannels] dropped. *)
Theorem ws_connection_limits s :
  reach s →
  connCount (srv s) = Z.of_nat (size (places s)) ∧
  (places s ≠ ∅ → connCount (srv s) ≤ maxConnLimit (config (srv s))) ∧
  (∀ ip, perip_get ip (connectionsPerIP (srv s)) = count_ip id ip (places s) ∧
         (connectionsPerIP (srv s) !! ip = None ↔ count_ip id ip (places s) = 0) ∧
         (0 < count_ip id ip (places s) → count_ip id ip (places s) ≤ maxConnPerIP (config (srv s)))) ∧
  (∀ c, commitConnection c (srv s) ≠ None).
Proof.
  intros Hs. apply ws_srv_inv_reach in Hs as [[H1 H2 H3 H4 H5] _ _ (_ & _ & Hw & _) _]. split_and!; try done.
  - intros Hne. rewrite H2. by apply H3.
  - intros ip. split_and!; [by apply (perip_get_ok id)| |by apply H5].
    rewrite H4. by destruct (Z.eqb_spec (count_ip id ip (places s)) 0).
  - intros c. unfold commitConnection. destruct (stopped (srv s)); [done|].
    destruct (Hw eq_refl) as [_ Hc]. by destruct (channels (srv s)).
Qed.

Lemma ws_returned_stays s s' i :
  rtc step s s' → stops s !! i = Some (TReturned None) → stops s' !! i = Some (TReturned None).
Proof.
  intros Hr. induction Hr as [|s s1 s2 Hst _ IH]; [done|]. intros Hi. apply IH.
  destruct Hst as [s1 Hs|s1 Hs|s1 Hs|h sv err Hh|li ex sv err cl Hb|li ex sv r0 cl He]; simpl; try done.
  - by destruct Hs.
  - destruct Hs; simpl; try done. by destruct ok.
  - destruct Hs; simpl; (rewrite lookup_insert_ne; [done|]; intros ->; congruence).
Qed.

(** C10: once [Stop] returned nil no request holds a place, every connection
    whose [Open] succeeded had its [Close] called, and this stays so. *)
Theorem ws_stop_drains s s' i :
  reach s → stops s !! i = Some (TReturned None) → rtc step s s' →
  reqs s' = ∅ ∧ connCount (srv s') = 0 ∧ channels (srv s') = None ∧ connDone (srv s') = 1 ∧
  ∀ c, c ∈ opened s' → c ∈ handlerClosed s'.
Proof.
  intros Hs Hi Hr. pose proof (ws_returned_stays _ _ _ Hr Hi) as Hi'.
  assert (Hs' : reach s') by by eapply reachable_rtc. clear Hs Hi Hr.
  apply ws_srv_inv_reach in Hs' as [Ht _ Hc (H1 & _ & _ & H4 & H5 & _) Hst].
  pose proof (Hst i _ Hi' eq_refl) as Hw. rewrite Hw in *. specialize (H5 eq_refl).
  split_and!; try done.
  - rewrite (t_count _ _ Ht). unfold places. by rewrite H5.
  - by apply H4.
  - intros c Ho. destruct (Hc c) as (_ & [H _]). destruct (H Ho) as [?|(ip & x & Hx & _)]; [done|].
    by rewrite H5, lookup_empty in Hx.
Qed.

(** ** Witnesses *)

Module WsServerExample.
Definition anyCodec : Codec := mkCodec (λ _, Ok []) (λ _, Ok Proto_zero) false.
Definition sv0 : Server := NewServer anyCodec [Options.MaxConnLimit 1; Options.Path "/ws"].
Definition idle : sys := mkSys sv0 NotServing ∅ NoWaiter ∅ ∅ ∅ ∅.

Ltac take H tac :=
  let H' := fresh in
  lazymatch type of H with
  | reach ?s =>
      eassert (H' : step s _) by (tac; first [reflexivity|discriminate|set_solver]);
      apply (reach_step _ _ _ _ H) in H'; cbn in H'; clear H; rename H' into H;
      change (reachable init_sys step) with reach in H
  end.

Definition url : URL := mkURL "ws" "10.0.0.1:3102" "/ws".
Definition busy : sys :=
  mkSys (mkServer (config sv0) (Some false) false (Some 5%nat) (Some url) (Some {[1%nat]}) {["10.0.0.2" := 1]} 1 1 false 0 (Some 0%nat))
    Serving {[1%nat := ("10.0.0.2", Reading)]} NoWaiter ∅ ∅ {[1%nat]} ∅.

Lemma reach_busy_ws : reach busy.
Proof.
  assert (H : reach idle) by by apply reach_init.
  take H ltac:(eapply (s_handler _ (Some 0%nat))).
  take H ltac:(eapply s_loop, (l_start _ (Ok 5%nat) (Ok "10.0.0.1:3102"))).
  take H ltac:(eapply s_req, (r_reserve _ 1 "10.0.0.2")).
  take H ltac:(eapply s_req, (r_upgrade _ 1 _ true)). take H ltac:(eapply s_req, (r_commit _ 1)).
  take H ltac:(eapply s_req, (r_open_ok _ 1)). take H ltac:(eapply s_req, (r_handshake _ 1 _ true)).
  exact H.
Qed.

Definition drained : sys :=
  mkSys (mkServer (config sv0) (Some true) true None (Some url) None ∅ 0 0 true 1 (Some 0%nat))
    Serving ∅ Waited {[7%nat := TReturned None]} {[1%nat]} {[1%nat]} {[1%nat]}.

Lemma reach_drained_ws : reach drained.
Proof.
  pose proof reach_busy_ws as H. unfold busy in H.
  take H ltac:(eapply s_stop, (t_call _ 7)). take H ltac:(eapply s_stop, (t_enter _ 7)).
  take H ltac:(eapply s_stop, (t_shutdown _ 7 _ None)). take H ltac:(eapply s_stop, (t_conns _ 7)).
  take H ltac:(eapply s_req, (r_read _ 1)). take H ltac:(eapply s_req, (r_closed _ 1)).
  take H ltac:(eapply s_req, (r_writer _ 1)). take H ltac:(eapply s_req, (r_release _ 1)).
  take H ltac:(eapply s_req, (r_done _ 1)). take H ltac:(eapply s_loop, l_waiter).
  take H ltac:(eapply s_stop, (t_wait _ 7 None None None true)).
  exact H.
Qed.

Lemma ws_connection_limits_witness : connCount (srv busy) ≤ maxConnLimit (config (srv busy)).
Proof. apply (ws_connection_limits busy reach_busy_ws). by intros H%(f_equal size). Defined.

Lemma ws_stop_drains_witness : 1%nat ∈ handlerClosed drained.
Proof.
  apply (ws_stop_drains drained drained 7 reach_drained_ws); [reflexivity|constructor|]. reflexivity.
Defined.
End WsServerExample.
