(* ===== verification/Endpoint.v ===== *)
(** * Advertised gRPC endpoints

    [internal/grpcendpoint/endpoint.go]: which endpoint a service publishes for
    its listen address, and which published endpoints a caller accepts.  The
    packages net, net/netip, strconv, strings and unicode are written out as
    far as the file uses them.  [url.Parse] is an argument of [Host]. *)

From S2P Require Import Prelude Errors Locate.
From Stdlib Require Import Strings.Ascii.

Local Open Scope char_scope.
Local Open Scope Z_scope.

(** ** strings *)

Fixpoint IndexByte (c : ascii) (s : string) : option nat :=
  match s with
  | EmptyString => None
  | String d s => if Ascii.eqb d c then Some 0%nat else S <$> IndexByte c s
  end.

Fixpoint LastIndexByte (c : ascii) (s : string) : option nat :=
  match s with
  | EmptyString => None
  | String d s =>
      match LastIndexByte c s with
      | Some i => Some (S i)
      | None => if Ascii.eqb d c then Some 0%nat else None
      end
  end.

Definition has (c : ascii) (s : string) : bool := match IndexByte c s with Some _ => true | None => false end.

(** [s[:n]], [s[n:]] and [s[n]]. *)
Fixpoint stake (n : nat) (s : string) : string :=
  match n, s with S n, String c s => String c (stake n s) | _, _ => EmptyString end.

Fixpoint sdrop (n : nat) (s : string) : string :=
  match n, s with S n, String _ s => sdrop n s | O, s => s | _, EmptyString => EmptyString end.

Definition char_at (n : nat) (s : string) : option ascii :=
  match sdrop n s with String c _ => Some c | EmptyString => None end.

(** [strings.ContainsAny] for ASCII [chars]. *)
Fixpoint ContainsAny (s chars : string) : bool :=
  match s with EmptyString => false | String c s => has c chars || ContainsAny s chars end.

(** ** unicode *)

Definition RuneError : Z := 65533.

(** The first rune of a byte string and the number of its bytes after the
    first one. *)
Definition first_rune (c : ascii) (s : string) : Z * nat :=
  let low := λ c, Z.land (char_Z c) 63 in
  let bad := (RuneError, 0%nat) in
  let inr := λ '(lo, hi) c, within lo hi c in
  match continuation c, s with
  | Some [], _ => (char_Z c, 0%nat)
  | Some [r1], String a _ =>
      if inr r1 a then (Z.lor (Z.shiftl (Z.land (char_Z c) 31) 6) (low a), 1%nat) else bad
  | Some [r1; r2], String a (String b _) =>
      if inr r1 a && inr r2 b
      then (Z.lor (Z.shiftl (Z.land (char_Z c) 15) 12) (Z.lor (Z.shiftl (low a) 6) (low b)), 2%nat) else bad
  | Some [r1; r2; r3], String a (String b (String d _)) =>
      if inr r1 a && inr r2 b && inr r3 d
      then (Z.lor (Z.shiftl (Z.land (char_Z c) 7) 18)
              (Z.lor (Z.shiftl (low a) 12) (Z.lor (Z.shiftl (low b) 6) (low d))), 3%nat) else bad
  | _, _ => bad
  end.

(** The runes a [range] over the string yields. *)
Fixpoint runes (skip : nat) (s : string) : list Z :=
  match s, skip with
  | EmptyString, _ => []
  | String _ s, S skip => runes skip s
  | String c s, O => let '(r, n) := first_rune c s in r :: runes n s
  end.

Definition IsSpace (r : Z) : bool :=
  ((9 <=? r) && (r <=? 13)) || (r =? 32) || (r =? 133) || (r =? 160) || (r =? 5760) ||
  ((8192 <=? r) && (r <=? 8202)) || (r =? 8232) || (r =? 8233) || (r =? 8239) || (r =? 8287) || (r =? 12288).

Definition IsControl (r : Z) : bool := ((0 <=? r) && (r <=? 31)) || ((127 <=? r) && (r <=? 159)).

(** ** strconv *)

Definition digit (c : ascii) : option Z := if within 48 57 c then Some (char_Z c - 48) else None.

Fixpoint decimal (acc : Z) (s : string) : option Z :=
  match s with
  | EmptyString => Some acc
  | String c s => match digit c with Some d => decimal (10 * acc + d) s | None => None end
  end.

(** [strconv.ParseUint(s, 10, 16)] *)
Definition ParseUint16 (s : string) : option Z :=
  if nonempty s then
    match decimal 0 s with Some n => if n <=? 65535 then Some n else None | None => None end
  else None.

(** ** net/netip *)

(** [parseIPv4Fields]: the fields read so far (in reverse), the value and the
    number of digits of the current one. *)
Fixpoint ipv4_fields (fields : list Z) (val : Z) (digLen : nat) (s : string) : option (list Z) :=
  match s with
  | EmptyString => if (length fields =? 3)%nat && negb (digLen =? 0)%nat then Some (rev (val :: fields)) else None
  | String c s =>
      match digit c with
      | Some d =>
          if (digLen =? 1)%nat && (val =? 0) then None
          else let val := 10 * val + d in if 255 <? val then None else ipv4_fields fields val (S digLen) s
      | None =>
          if Ascii.eqb c "." then
            if (digLen =? 0)%nat || (length fields =? 3)%nat then None else ipv4_fields (val :: fields) 0 0 s
          else None
      end
  end.
Definition parseIPv4 (s : string) : option (list Z) := ipv4_fields [] 0 0 s.

Definition hex (c : ascii) : option Z :=
  if within 48 57 c then Some (char_Z c - 48)
  else if within 97 102 c then Some (char_Z c - 87)
  else if within 65 70 c then Some (char_Z c - 55) else None.

(** The hexadecimal digits at the head, at most four: their number, their
    value and what follows. *)
Fixpoint hex_group (off : nat) (acc : Z) (s : string) : option (nat * Z * string) :=
  match s with
  | String c s' =>
      match hex c with
      | Some d => if (3 <? off)%nat then None else hex_group (S off) (16 * acc + d) s'
      | None => Some (off, acc, s)
      end
  | EmptyString => Some (off, acc, s)
  end.

(** The loop of [parseIPv6]: the bytes read so far, the place of the ellipsis
    and what is left to read; eight groups at most. *)
Fixpoint ipv6_groups (left_ : nat) (ip : list Z) (ellipsis : option nat) (s : string)
  : option (list Z * option nat * string) :=
  match left_ with
  | O => Some (ip, ellipsis, s)
  | S left_ =>
      match hex_group 0 0 s with
      | None | Some (O, _, _) => None
      | Some (_, acc, rest) =>
          match rest with
          | String "." _ =>
              if (bool_decide (ellipsis = None) && negb (length ip =? 12)%nat) || (16 <? length ip + 4)%nat then None
              else match parseIPv4 s with Some f => Some (ip ++ f, ellipsis, EmptyString) | None => None end
          | _ =>
              let ip := ip ++ [Z.shiftr acc 8; Z.land acc 255] in
              match rest with
              | EmptyString => Some (ip, ellipsis, EmptyString)
              | String ":" EmptyString => None
              | String ":" (String ":" rest) =>
                  match ellipsis, rest with
                  | Some _, _ => None
                  | None, EmptyString => Some (ip, Some (length ip), EmptyString)
                  | None, _ => ipv6_groups left_ ip (Some (length ip)) rest
                  end
              | String ":" rest => ipv6_groups left_ ip ellipsis rest
              | _ => None
              end
          end
      end
  end.

(** The sixteen bytes once the ellipsis is expanded. *)
Definition expand (ip : list Z) (ellipsis : option nat) : option (list Z) :=
  if (length ip <? 16)%nat then
    match ellipsis with
    | None => None
    | Some e => Some (take e ip ++ replicate (16 - length ip) 0 ++ drop e ip)
    end
  else match ellipsis with Some _ => None | None => Some ip end.

Definition parseIPv6_addr (s : string) : option (list Z) :=
  match s with
  | String ":" (String ":" EmptyString) => Some (replicate 16 0)
  | _ =>
      let r := match s with
               | String ":" (String ":" s) => ipv6_groups 8 [] (Some 0%nat) s
               | _ => ipv6_groups 8 [] None s
               end in
      match r with
      | Some (ip, ellipsis, EmptyString) => expand ip ellipsis
      | _ => None
      end
  end.

(** An address with its zone. *)
Inductive Addr := Addr4 (fields : list Z) | Addr6 (ip : list Z) (zone : string).

Definition parseIPv6 (s : string) : option Addr :=
  match IndexByte "%" s with
  | None => (λ ip, Addr6 ip EmptyString) <$> parseIPv6_addr s
  | Some i =>
      let zone := sdrop (S i) s in
      if nonempty zone then (λ ip, Addr6 ip zone) <$> parseIPv6_addr (stake i s) else None
  end.

(** [netip.ParseAddr]: the first of ".", ":" and "%" decides. *)
Fixpoint parse_addr (all s : string) : option Addr :=
  match s with
  | EmptyString => None
  | String "." _ => Addr4 <$> parseIPv4 all
  | String ":" _ => parseIPv6 all
  | String "%" _ => None
  | String _ s => parse_addr all s
  end.
Definition ParseAddr (s : string) : option Addr := parse_addr s s.

(** ** net *)

(** [net.ParseIP]: sixteen bytes, an IPv4 address in its mapped form. *)
Definition v4InV6Prefix : list Z := replicate 10 0 ++ [255; 255].

Definition ParseIP (s : string) : option (list Z) :=
  match ParseAddr s with
  | Some (Addr4 f) => Some (v4InV6Prefix ++ f)
  | Some (Addr6 ip zone) => if nonempty zone then None else Some ip
  | None => None
  end.

Definition To4 (ip : list Z) : option (list Z) :=
  if bool_decide (take 12 ip = v4InV6Prefix) then Some (drop 12 ip) else None.

Definition IsLoopback (ip : list Z) : bool :=
  match To4 ip with
  | Some ip4 => bool_decide (head ip4 = Some 127)
  | None => bool_decide (ip = replicate 15 0 ++ [1])
  end.

Definition addrErr (why : string) : result (string * string) := Err (ENet false why).

Definition SplitHostPort (hostport : string) : result (string * string) :=
  match LastIndexByte ":" hostport with
  | None => addrErr "missing port in address"
  | Some i =>
      let finish host j k :=
        if has "[" (sdrop j hostport) then addrErr "unexpected '[' in address"
        else if has "]" (sdrop k hostport) then addrErr "unexpected ']' in address"
        else Ok (host, sdrop (S i) hostport) in
      match hostport with
      | String "[" _ =>
          match IndexByte "]" hostport with
          | None => addrErr "missing ']' in address"
          | Some e =>
              if (S e =? String.length hostport)%nat then addrErr "missing port in address"
              else if (S e =? i)%nat then finish (sdrop 1 (stake e hostport)) 1%nat (S e)
              else if bool_decide (char_at (S e) hostport = Some ":") then addrErr "too many colons in address"
              else addrErr "missing port in address"
          end
      | _ =>
          let host := stake i hostport in
          if has ":" host then addrErr "too many colons in address" else finish host 0%nat 0%nat
      end
  end.

Definition JoinHostPort (host port : string) : string :=
  (if has ":" host then "[" +:+ host +:+ "]:" +:+ port else host +:+ ":" +:+ port)%string.

(** ** internal/grpcendpoint *)

(** The fields of [url.URL] the package reads. *)
Record URL := mkURL {
  Scheme : string;
  Opaque_ : string;
  User : option string;
  Host_ : string;
  Path : string;
  RawPath : string;
  ForceQuery : bool;
  RawQuery : string;
  Fragment : string;
}.

Definition url_of (scheme host : string) : URL :=
  mkURL scheme EmptyString None host EmptyString EmptyString false EmptyString EmptyString.

(** [endpointError] *)
Definition invalidError (message : string) : error := EWrap message [ESentinel ErrInvalidEndpoint].
Definition transportError (wantScheme : string) : error :=
  EWrap ("gRPC endpoint must use " +:+ wantScheme +:+ ":// with a host")%string [ESentinel ErrTransportSecurity].

Definition scheme (secure : bool) : string := if secure then "grpcs" else "grpc".

Definition isLoopback (host : string) : bool :=
  if bool_decide (host = "localhost"%string) then true
  else match ParseIP host with Some address => IsLoopback address | None => false end.

Definition validHost (host : string) : bool :=
  match ParseAddr host with
  | Some _ => true
  | None =>
      if ContainsAny host "%@/?#[]:\" then false
      else negb (existsb (λ r, IsSpace r || IsControl r) (runes 0 host))
  end.

Definition validate (endpoint : URL) : option error :=
  if negb (nonempty (Host_ endpoint)) then Some (invalidError "gRPC endpoint host is required")
  else if bool_decide (User endpoint ≠ None) || nonempty (Path endpoint) || nonempty (RawPath endpoint) ||
          nonempty (RawQuery endpoint) || ForceQuery endpoint || nonempty (Fragment endpoint) ||
          nonempty (Opaque_ endpoint)
  then Some (invalidError "gRPC endpoint must not include userinfo, path, query, or fragment")
  else match SplitHostPort (Host_ endpoint) with
       | Err _ => Some (invalidError "invalid gRPC endpoint host")
       | Ok (host, port) =>
           if negb (nonempty host) || negb (validHost host) then Some (invalidError "invalid gRPC endpoint host")
           else match ParseUint16 port with
                | Some n => if n =? 0 then Some (invalidError "invalid gRPC endpoint port") else None
                | None => Some (invalidError "invalid gRPC endpoint port")
                end
       end.

Definition Validate (endpoint : option URL) (secure : bool) : option error :=
  match endpoint with
  | None => Some (invalidError "gRPC endpoint is required")
  | Some u =>
      if negb (bool_decide (Scheme u = "grpc"%string)) && negb (bool_decide (Scheme u = "grpcs"%string))
      then Some (invalidError "invalid gRPC endpoint scheme")
      else let wantScheme := scheme secure in
           if negb (bool_decide (Scheme u = wantScheme)) then Some (transportError wantScheme) else validate u
  end.

Definition Advertise (listenAddress advertiseHost : string) (secure : bool) : result URL :=
  match SplitHostPort listenAddress with
  | Err err => Err (EWrap "invalid listen address: %w" [err])
  | Ok (listenHost, port) =>
      match ParseUint16 port with
      | None | Some 0 => Err (EText "invalid listen port")
      | Some _ =>
          if isLoopback listenHost && negb (isLoopback advertiseHost)
          then Err (EText "loopback listen host cannot advertise non-loopback host")
          else let endpoint := url_of (scheme secure) (JoinHostPort advertiseHost port) in
               match Validate (Some endpoint) secure with
               | Some err => Err err
               | None => Ok endpoint
               end
      end
  end.

Definition Resolve (endpoint : option URL) (listenAddress advertiseHost : string) (secure : bool)
  : result (option URL) :=
  match endpoint with
  | Some _ =>
      match Validate endpoint secure with Some err => Err err | None => Ok endpoint end
  | None =>
      if negb (nonempty advertiseHost) then Ok None
      else if negb (nonempty listenAddress) then Err (EText "address is required when advertise host is set")
      else match Advertise listenAddress advertiseHost secure with Ok u => Ok (Some u) | Err err => Err err end
  end.

Definition Host (Parse : string → result URL) (raw : string) (secure : bool) : result string :=
  match Parse raw with
  | Err _ => Err (invalidError "parse gRPC endpoint")
  | Ok endpoint =>
      match Validate (Some endpoint) secure with Some err => Err err | None => Ok (Host_ endpoint) end
  end.

(** ** Lemmas *)

Lemma has_String c d s : has c (String d s) = Ascii.eqb d c || has c s.
Proof. unfold has. simpl. destruct (Ascii.eqb d c); [done|]. by destruct (IndexByte c s). Qed.

Lemma has_app c a b : has c (a +:+ b)%string = has c a || has c b.
Proof.
  induction a as [|d a IH]; [done|]. change (String d a +:+ b)%string with (String d (a +:+ b)%string).
  by rewrite !has_String, IH, orb_assoc.
Qed.

Lemma has_IndexByte c s : has c s = false → IndexByte c s = None.
Proof. unfold has. by destruct (IndexByte c s). Qed.

Lemma LastIndexByte_none c s : has c s = false → LastIndexByte c s = None.
Proof.
  induction s as [|d s IH]; [done|]. rewrite has_String, orb_false_iff. intros [Hd Hs]. simpl. by rewrite IH, Hd.
Qed.

Lemma LastIndexByte_app c a b :
  has c b = false → LastIndexByte c (a +:+ String c b)%string = Some (String.length a).
Proof.
  intros Hb. induction a as [|d a IH]; simpl; [by rewrite LastIndexByte_none, Ascii.eqb_refl by done|].
  change (a +:+ String c b)%string with (String.append a (String c b)) in IH. by rewrite IH.
Qed.

Lemma IndexByte_app c a b :
  has c a = false → IndexByte c (a +:+ String c b)%string = Some (String.length a).
Proof.
  induction a as [|d a IH]; simpl; [by rewrite Ascii.eqb_refl|]. rewrite has_String, orb_false_iff. intros [-> Ha].
  change (a +:+ String c b)%string with (String.append a (String c b)) in IH. by rewrite IH.
Qed.

Lemma sdrop_app a b : sdrop (String.length a) (a +:+ b)%string = b.
Proof. induction a as [|d a IH]; [by destruct b|]. exact IH. Qed.

Lemma stake_app a b : stake (String.length a) (a +:+ b)%string = a.
Proof. induction a as [|d a IH]; [by destruct b|]. exact (f_equal (String d) IH). Qed.

Lemma length_app (a b : string) :
  String.length (a +:+ b)%string = (String.length a + String.length b)%nat.
Proof. induction a as [|d a IH]; [done|]. exact (f_equal S IH). Qed.

Lemma sdrop_S c n s : sdrop (S n) (String c s) = sdrop n s.
Proof. done. Qed.

Lemma char_at_app a c b : char_at (String.length a) (a +:+ String c b)%string = Some c.
Proof. unfold char_at. by rewrite sdrop_app. Qed.

(** A host that does not start with "[" is split at the last colon. *)
Lemma split_plain host port :
  has ":" host = false → has "[" host = false → has "]" host = false →
  has ":" port = false → has "[" port = false → has "]" port = false →
  SplitHostPort (host +:+ String ":" port)%string = Ok (host, port).
Proof.
  intros H1 H2 H3 P1 P2 P3. unfold SplitHostPort. rewrite LastIndexByte_app by done.
  set (hp := (host +:+ String ":" port)%string).
  assert (Hplain : has ":" (stake (String.length host) hp) = false ∧ has "[" hp = false ∧ has "]" hp = false ∧
                   stake (String.length host) hp = host ∧ sdrop (S (String.length host)) hp = port).
  { subst hp. rewrite stake_app, !has_app, !has_String, H2, H3, P2, P3. repeat split; try done.
    clear. induction host as [|d a IH]; [done|]. exact IH. }
  destruct Hplain as (E1 & E2 & E3 & E4 & E5).
  assert (Hne : ∀ r, hp ≠ String "[" r) by (intros r Hr; rewrite Hr, has_String in E2; done).
  assert (Hgoal : (let host0 := stake (String.length host) hp in
           if has ":" host0 then addrErr "too many colons in address"
           else if has "[" (sdrop 0 hp) then addrErr "unexpected '[' in address"
                else if has "]" (sdrop 0 hp) then addrErr "unexpected ']' in address"
                     else Ok (host0, sdrop (S (String.length host)) hp)) = Ok (host, port)).
  { cbv zeta. rewrite E1. change (sdrop 0 hp) with hp. rewrite E2, E3, E4, E5. done. }
  clearbody hp. destruct hp as [|d r]; [exact Hgoal|].
  destruct d as [[] [] [] [] [] [] [] []]; try exact Hgoal. exfalso. by eapply Hne.
Qed.

(** A bracketed host is what is between the brackets. *)
Lemma split_bracketed host port :
  has "[" host = false → has "]" host = false →
  has ":" port = false → has "[" port = false → has "]" port = false →
  SplitHostPort (String "[" (host +:+ String "]" (String ":" port)))%string = Ok (host, port).
Proof.
  intros H2 H3 P1 P2 P3. unfold SplitHostPort.
  assert (EL : LastIndexByte ":" (String "[" (host +:+ String "]" (String ":" port))) = Some (S (S (String.length host)))).
  { change (String "[" (host +:+ String "]" (String ":" port)))%string
      with ((String "[" host) +:+ String "]" (String ":" port))%string.
    change (String "]" (String ":" port)) with ("]" +:+ String ":" port)%string.
    rewrite <- append_assoc, LastIndexByte_app by done. rewrite length_app. simpl. f_equal. lia. }
  rewrite EL. cbv zeta.
  assert (EI : IndexByte "]" (String "[" (host +:+ String "]" (String ":" port))) = Some (S (String.length host))).
  { cbn [IndexByte]. change (Ascii.eqb "[" "]") with false. cbv iota. by rewrite IndexByte_app. }
  rewrite EI. cbn [String.length]. rewrite !length_app. cbn [String.length].
  destruct (Nat.eqb_spec (S (S (String.length host))) (S (String.length host + S (S (String.length port))))); [lia|].
  rewrite Nat.eqb_refl, !sdrop_S. cbn [stake].
  rewrite stake_app. change (sdrop 0 (host +:+ String "]" (String ":" port)))%string
    with (host +:+ String "]" (String ":" port))%string.
  assert (ED : ∀ k, sdrop (k + String.length host) (host +:+ String "]" (String ":" port))%string
               = sdrop k (String "]" (String ":" port))).
  { intros k. clear. rewrite Nat.add_comm. induction host as [|d a IH]; [done|]. exact IH. }
  pose proof (ED 1%nat) as E1. pose proof (ED 2%nat) as E2. cbn [Nat.add] in E1, E2. rewrite E1, E2. rewrite has_app, H2, !has_String, P2. cbn [sdrop]. rewrite has_String, P3. done.
Qed.

Lemma split_join host port :
  has "[" host = false → has "]" host = false →
  has ":" port = false → has "[" port = false → has "]" port = false →
  SplitHostPort (JoinHostPort host port) = Ok (host, port).
Proof.
  intros. unfold JoinHostPort. destruct (has ":" host) eqn:E; [by apply split_bracketed|by apply split_plain].
Qed.

Lemma decimal_plain c n s m : digit c = None → decimal n s = Some m → has c s = false.
Proof.
  intros Hc. revert n. induction s as [|d s IH]; intros n H; [done|]. simpl in H.
  destruct (digit d) eqn:Ed; [|done]. rewrite has_String, (IH _ H), orb_false_r.
  destruct (Ascii.eqb_spec d c); [by subst; rewrite Hc in Ed|done].
Qed.

Lemma decimal_nonneg n s m : 0 ≤ n → decimal n s = Some m → 0 ≤ m.
Proof.
  revert n. induction s as [|d s IH]; intros n Hn H; simpl in H; [by simplify_eq|].
  unfold digit in H. destruct (within 48 57 d) eqn:Ed; [|done]. unfold within in Ed. to_prop. eapply IH; [|done]. lia.
Qed.

(** A port is a decimal number of sixteen bits. *)
Lemma ParseUint16_ok s n :
  ParseUint16 s = Some n → 0 ≤ n ≤ 65535 ∧ ∀ c, digit c = None → has c s = false.
Proof.
  unfold ParseUint16. destruct (nonempty s); [|done]. destruct (decimal 0 s) as [m|] eqn:E; [|done].
  destruct (Z.leb_spec m 65535); [|done]. intros [= ->]. split.
  - split; [by eapply decimal_nonneg|lia].
  - intros c Hc. by eapply decimal_plain.
Qed.

(** What a valid endpoint is. *)
Record valid_endpoint (secure : bool) (u : URL) : Prop := mkValid {
  ve_scheme : Scheme u = scheme secure;
  ve_host : ∃ host port n, SplitHostPort (Host_ u) = Ok (host, port) ∧ host ≠ EmptyString ∧ validHost host = true ∧
              ParseUint16 port = Some n ∧ 1 ≤ n ≤ 65535;
  ve_bare : User u = None ∧ Path u = EmptyString ∧ RawPath u = EmptyString ∧ RawQuery u = EmptyString ∧
            ForceQuery u = false ∧ Fragment u = EmptyString ∧ Opaque_ u = EmptyString;
}.

Lemma nonempty_false s : nonempty s = false ↔ s = EmptyString.
Proof. unfold nonempty. rewrite negb_false_iff, bool_decide_eq_true. done. Qed.

Lemma nonempty_true s : nonempty s = true ↔ s ≠ EmptyString.
Proof. unfold nonempty. rewrite negb_true_iff, bool_decide_eq_false. done. Qed.

Lemma scheme_known secure : scheme secure = "grpc"%string ∨ scheme secure = "grpcs"%string.
Proof. destruct secure; auto. Qed.

Lemma validate_spec u :
  validate u = None ↔
  (∃ host port n, SplitHostPort (Host_ u) = Ok (host, port) ∧ host ≠ EmptyString ∧ validHost host = true ∧
     ParseUint16 port = Some n ∧ 1 ≤ n ≤ 65535) ∧
  User u = None ∧ Path u = EmptyString ∧ RawPath u = EmptyString ∧ RawQuery u = EmptyString ∧
  ForceQuery u = false ∧ Fragment u = EmptyString ∧ Opaque_ u = EmptyString.
Proof.
  unfold validate. split.
  - intros H. destruct (nonempty (Host_ u)); [|done]. simpl in H.
    match type of H with (if ?b then _ else _) = _ => destruct b eqn:Eb; [done|] end.
    rewrite !orb_false_iff, !nonempty_false, bool_decide_eq_false in Eb.
    destruct Eb as [[[[[[Hu ?] ?] ?] ?] ?] ?]. apply dec_stable in Hu.
    destruct (SplitHostPort (Host_ u)) as [[host port]|] eqn:Es; [|done].
    destruct (nonempty host) eqn:En; [|done]. destruct (validHost host) eqn:Ev; [|done]. simpl in H.
    destruct (ParseUint16 port) as [n|] eqn:Ep; [|done]. destruct (Z.eqb_spec n 0); [done|].
    split; [|done]. exists host, port, n. apply nonempty_true in En. apply ParseUint16_ok in Ep as ?. repeat split; try done; lia.
  - intros [(host & port & n & Es & Hn & Hv & Hp & Hr) (-> & -> & -> & -> & -> & -> & ->)].
    assert (nonempty (Host_ u) = true) as -> by (apply nonempty_true; intros E; rewrite E in Es; done).
    rewrite Es. apply nonempty_true in Hn. rewrite Hn, Hv, Hp. simpl. destruct (Z.eqb_spec n 0); [lia|done].
Qed.

Lemma Validate_spec u secure : Validate (Some u) secure = None ↔ valid_endpoint secure u.
Proof.
  unfold Validate. split.
  - intros H. match type of H with (if ?b then _ else _) = _ => destruct b; [done|] end. cbv zeta in H.
    destruct (bool_decide_reflect (Scheme u = scheme secure)); [|done]. simpl in H.
    apply validate_spec in H as [? ?]. by split.
  - intros [Hs Hh Hb]. rewrite Hs.
    assert (negb (bool_decide (scheme secure = "grpc"%string)) && negb (bool_decide (scheme secure = "grpcs"%string)) = false)
      as -> by (by destruct secure). cbv zeta. rewrite (bool_decide_true (scheme secure = _)) by done. simpl.
    by apply validate_spec.
Qed.

Lemma ParseUint16_split host port n :
  has "[" host = false → has "]" host = false → ParseUint16 port = Some n →
  SplitHostPort (JoinHostPort host port) = Ok (host, port).
Proof. intros H1 H2 Hp. apply ParseUint16_ok in Hp as [_ Hp]. by apply split_join; try apply Hp. Qed.

Lemma Advertise_ok listenAddress advertiseHost secure u :
  Advertise listenAddress advertiseHost secure = Ok u →
  ∃ listenHost port n,
    SplitHostPort listenAddress = Ok (listenHost, port) ∧ ParseUint16 port = Some n ∧
    (isLoopback listenHost = true → isLoopback advertiseHost = true) ∧
    u = url_of (scheme secure) (JoinHostPort advertiseHost port) ∧ valid_endpoint secure u.
Proof.
  unfold Advertise. destruct (SplitHostPort listenAddress) as [[lh port]|]; [|done]. intros H.
  destruct (ParseUint16 port) as [n|] eqn:Ep; [|done].
  assert (H' : (if isLoopback lh && negb (isLoopback advertiseHost)
     then Err (EText "loopback listen host cannot advertise non-loopback host")
     else match Validate (Some (url_of (scheme secure) (JoinHostPort advertiseHost port))) secure with
          | Some err => Err err
          | None => Ok (url_of (scheme secure) (JoinHostPort advertiseHost port))
          end) = Ok u) by (by destruct n). clear H.
  destruct (isLoopback lh && negb (isLoopback advertiseHost)) eqn:El; [done|].
  destruct (Validate _ secure) eqn:Ev; [done|]. simplify_eq. apply Validate_spec in Ev.
  exists lh, port, n. split_and!; try done. intros Hl. rewrite Hl in El. simpl in El. by apply negb_false_iff in El.
Qed.

Lemma Resolve_ok endpoint listenAddress advertiseHost secure u :
  Resolve endpoint listenAddress advertiseHost secure = Ok (Some u) → valid_endpoint secure u.
Proof.
  unfold Resolve. destruct endpoint as [v|].
  - destruct (Validate (Some v) secure) eqn:Ev; [done|]. intros [= <-]. by apply Validate_spec.
  - destruct (negb (nonempty advertiseHost)); [done|]. destruct (negb (nonempty listenAddress)); [done|].
    destruct (Advertise _ _ _) as [v|] eqn:Ea; [|done]. intros [= <-]. by apply Advertise_ok in Ea as (?&?&?&?&?&?&?&?).
Qed.

(** What a service advertises is what its callers dial.  The endpoint
    derived from the listen address names the advertised host with the port of
    the listener, which is a port other services can reach; a listener on the
    loopback device never advertises another host; a caller with the same
    transport security that parses the endpoint dials exactly that host and
    port, and a caller with the other one is refused with
    [ErrTransportSecurity]. *)
Theorem advertised_dialled Parse raw listenAddress advertiseHost secure u :
  Advertise listenAddress advertiseHost secure = Ok u → Parse raw = Ok u →
  has "[" advertiseHost = false → has "]" advertiseHost = false →
  ∃ listenHost port n,
    SplitHostPort listenAddress = Ok (listenHost, port) ∧ ParseUint16 port = Some n ∧ 1 ≤ n ≤ 65535 ∧
    (isLoopback listenHost = true → isLoopback advertiseHost = true) ∧
    Host Parse raw secure = Ok (JoinHostPort advertiseHost port) ∧
    SplitHostPort (JoinHostPort advertiseHost port) = Ok (advertiseHost, port) ∧
    (∃ err, Host Parse raw (negb secure) = Err err ∧ errors_Is err ErrTransportSecurity = true).
Proof.
  intros Ha Hp H1 H2. apply Advertise_ok in Ha as (lh & port & n & Es & En & Hl & -> & Hv).
  pose proof (ParseUint16_split _ _ _ H1 H2 En) as Ej.
  assert (Hn : 1 ≤ n ≤ 65535).
  { destruct Hv as [_ (h & p & m & Es' & _ & _ & Em & Hm) _]. simpl in Es'. rewrite Ej in Es'.
    injection Es' as <- <-. rewrite En in Em. by injection Em as <-. }
  exists lh, port, n. split_and!; try done; try apply Hn.
  - unfold Host. rewrite Hp. apply Validate_spec in Hv. by rewrite Hv.
  - unfold Host. rewrite Hp. by destruct secure; eexists.
Qed.

(** A caller never dials anything but a host and a port: an accepted
    endpoint has the scheme of the caller's transport, a non-empty host that
    is an address or free of separators, blanks and control characters, a
    non-zero port, and no user, path, query or fragment. *)
Theorem dialled_endpoint_valid Parse raw secure h :
  Host Parse raw secure = Ok h → ∃ u, Parse raw = Ok u ∧ Host_ u = h ∧ valid_endpoint secure u.
Proof.
  unfold Host. destruct (Parse raw) as [u|]; [|done]. destruct (Validate (Some u) secure) eqn:Ev; [done|].
  intros [= <-]. exists u. split_and!; [done..|]. by apply Validate_spec.
Qed.

Module EndpointExample.

(** Enough of [url.Parse] for the endpoints below. *)
Definition Parse (raw : string) : result URL :=
  if bool_decide (raw = "grpc://192.0.2.1:9010"%string) then Ok (url_of "grpc" "192.0.2.1:9010")
  else if bool_decide (raw = "grpc://[fe80::1%25eth0]:9010"%string) then Ok (url_of "grpc" "[fe80::1%eth0]:9010")
  else Err (EText "first path segment in URL cannot contain colon").

(** The cases of endpoint_test.go. *)
Example advertise_cases :
  Advertise "0.0.0.0:9010" "192.0.2.1" false = Ok (url_of "grpc" "192.0.2.1:9010") ∧
  Advertise "0.0.0.0:9010" "192.0.2.1" true = Ok (url_of "grpcs" "192.0.2.1:9010") ∧
  Advertise "0.0.0.0:0" "192.0.2.1" false = Err (EText "invalid listen port") ∧
  Advertise "127.0.0.1:9010" "192.0.2.1" false = Err (EText "loopback listen host cannot advertise non-loopback host") ∧
  Advertise "[::1]:9010" "localhost" false = Ok (url_of "grpc" "localhost:9010") ∧
  Validate (Some (url_of "grpc" "host%zone:9010")) false = Some (invalidError "invalid gRPC endpoint host") ∧
  Host Parse "grpc://[fe80::1%25eth0]:9010" false = Ok "[fe80::1%eth0]:9010"%string.
Proof. vm_compute. done. Qed.

Lemma advertised_dialled_witness :
  ∃ listenHost port n,
    SplitHostPort "0.0.0.0:9010" = Ok (listenHost, port) ∧ ParseUint16 port = Some n ∧ 1 ≤ n ≤ 65535 ∧
    (isLoopback listenHost = true → isLoopback "192.0.2.1" = true) ∧
    Host Parse "grpc://192.0.2.1:9010" false = Ok (JoinHostPort "192.0.2.1" port) ∧
    SplitHostPort (JoinHostPort "192.0.2.1" port) = Ok ("192.0.2.1"%string, port) ∧
    (∃ err, Host Parse "grpc://192.0.2.1:9010" (negb false) = Err err ∧ errors_Is err ErrTransportSecurity = true).
Proof. by eapply (advertised_dialled Parse _ _ _ false (url_of "grpc" "192.0.2.1:9010")); vm_compute. Defined.

Lemma dialled_endpoint_valid_witness :
  ∃ u, Parse "grpc://192.0.2.1:9010" = Ok u ∧ Host_ u = "192.0.2.1:9010"%string ∧ valid_endpoint false u.
Proof. by apply (dialled_endpoint_valid Parse _ false); vm_compute. Defined.

End EndpointExample.
