(* ===== verification/Resolver.v ===== *)
(** * Node services: discovery and routing

    [instance/metadata.go], [gateway/resolver.go], [gateway/balancer.go] and
    the state of a backend ([backendState] of [gateway/backend.go]): what the
    instances a registry lists mean for a gateway, how a resolver publishes
    them, and how a pick finds a node.  The registry, the gRPC client
    connection and the weighted selector only answer.  Proved: a snapshot
    pairs node ids and hosts one to one and lists every instance, the sticky
    mode of a service never changes under a running gateway, and a call that
    names a node reaches that node or none. *)

From S2P Require Import Prelude Errors Locate Endpoint.
From Stdlib Require Import Strings.Ascii.

(** ** instance/metadata.go *)

Definition StickyMetadataKey : string := "sticky".

Definition StickyMetadata : gmap string string := {[StickyMetadataKey := "true"]}.

Definition IsSticky (metadata : gmap string string) : result bool :=
  match metadata !! StickyMetadataKey with
  | None => Ok false
  | Some value =>
      if decide (value = "true"%string) then Ok true
      else if decide (value = "false"%string) then Ok false
      else Err (EText "instance: invalid sticky metadata")
  end.

(** The fields of [registry.ServiceInstance] and [resolver.Address] in use. *)
Record ServiceInstance := mkInstance {
  ID : string;
  Name : string;
  Metadata : gmap string string;
  Endpoints : list string;
}.

Record Address := mkAddress { Addr : string; service : ServiceInstance }.

(** ** gateway/backend.go: the state a resolver publishes *)

Record backendSnapshot := mkSnapshot { available : bool; sticky : bool; hostByNodeID : gmap string string }.

Definition noSnapshot : backendSnapshot := mkSnapshot false false ∅.

(** [backendState]: an atomic pointer. *)
Definition backendState : Type := option backendSnapshot.

Definition load (s : backendState) : backendSnapshot := default noSnapshot s.

Definition mode (s : backendState) : bool * bool :=
  match s with None => (false, false) | Some snapshot => (sticky snapshot, true) end.

(** The second half of [markUnavailable], which found [old]. *)
Definition markUnavailable (old : backendSnapshot) : backendState := Some (mkSnapshot false (sticky old) ∅).

(** ** gateway/resolver.go *)

Record backendIdentities := mkIdentities {
  hostByNodeID_ : gmap string string;
  nodeIDByHost : gmap string string;
}.

(** [previous, exists := m[k]; exists && previous != v] *)
Definition differs (m : gmap string string) (k v : string) : bool :=
  match m !! k with Some previous => negb (bool_decide (previous = v)) | None => false end.

Definition add (nodeID host : string) (i : backendIdentities) : result backendIdentities :=
  if negb (nonempty nodeID) then Ok i
  else if differs (hostByNodeID_ i) nodeID host
  then Err (EText "gateway: node service has duplicate NodeID with different endpoints")
  else if differs (nodeIDByHost i) host nodeID
  then Err (EText "gateway: node service endpoint belongs to multiple NodeIDs")
  else Ok (mkIdentities (<[nodeID := host]> (hostByNodeID_ i)) (<[host := nodeID]> (nodeIDByHost i))).

Section Resolver.
Context (Parse : string → result URL).   (* url.Parse *)

Definition resolveBackendInstance (service : ServiceInstance) (secure : bool) : result (bool * string) :=
  match IsSticky (Metadata service) with
  | Err err => Err (EWrap "gateway: node service: %w" [err])
  | Ok sticky =>
      match Endpoints service with
      | [endpoint] =>
          match Host Parse endpoint secure with
          | Err err =>
              if negb (errors_Is err ErrTransportSecurity) then Err (EText "gateway: node service has no gRPC endpoint")
              else Err (EText (if secure then "gateway: node service has no grpcs:// endpoint for configured transport"
                               else "gateway: node service has no grpc:// endpoint for configured transport"))
          | Ok host =>
              if sticky && negb (nonempty (ID service))
              then Err (EText "gateway: sticky node service has an empty NodeID")
              else Ok (sticky, host)
          end
      | _ => Err (EText "gateway: node service must have exactly one gRPC endpoint")
      end
  end.

(** The variables of the loop of [resolveBackendInstances]. *)
Record loop := mkLoop {
  seen : gset string;
  addresses : list Address;
  identities : backendIdentities;
  stickySoFar : bool;
  found : bool;
}.

Definition one_instance (serviceName : string) (secure : bool) (service : option ServiceInstance) (l : loop)
  : result loop :=
  match service with
  | None => Ok l
  | Some service =>
      if negb (bool_decide (Name service = serviceName)) then Ok l
      else match resolveBackendInstance service secure with
           | Err err => Err err
           | Ok (currentSticky, host) =>
               if found l && negb (Bool.eqb (stickySoFar l) currentSticky)
               then Err (EText "gateway: node service has conflicting sticky metadata")
               else match add (ID service) host (identities l) with
                    | Err err => Err err
                    | Ok ids =>
                        if bool_decide (host ∈ seen l) then Ok (mkLoop (seen l) (addresses l) ids currentSticky true)
                        else Ok (mkLoop ({[host]} ∪ seen l) (addresses l ++ [mkAddress host service]) ids currentSticky true)
                    end
           end
  end.

Fixpoint instances_loop (serviceName : string) (secure : bool) (instances : list (option ServiceInstance)) (l : loop)
  : result loop :=
  match instances with
  | [] => Ok l
  | service :: instances =>
      match one_instance serviceName secure service l with
      | Ok l => instances_loop serviceName secure instances l
      | Err err => Err err
      end
  end.

Definition resolveBackendInstances (serviceName : string) (instances : list (option ServiceInstance)) (secure : bool)
  : result (backendSnapshot * list Address) :=
  match instances_loop serviceName secure instances (mkLoop ∅ [] (mkIdentities ∅ ∅) false false) with
  | Err err => Err err
  | Ok l => Ok (mkSnapshot (negb (bool_decide (addresses l = []))) (stickySoFar l) (hostByNodeID_ (identities l)), addresses l)
  end.

(** ** The soundness of a snapshot *)

(** The instances of the service in a listing. *)
Definition of_service (serviceName : string) (instances : list (option ServiceInstance)) (v : ServiceInstance) : Prop :=
  Some v ∈ instances ∧ Name v = serviceName.

Record loop_inv (secure : bool) (P : ServiceInstance → Prop) (l : loop) : Prop := mkLoopInv {
  li_all : ∀ v, P v → ∃ h, resolveBackendInstance v secure = Ok (stickySoFar l, h) ∧ h ∈ Addr <$> addresses l ∧
             (ID v ≠ EmptyString → hostByNodeID_ (identities l) !! ID v = Some h);
  li_found : found l = false → ∀ v, ¬ P v;
  li_addr : ∀ a, a ∈ addresses l → P (service a) ∧ resolveBackendInstance (service a) secure = Ok (stickySoFar l, Addr a);
  li_nodup : NoDup (Addr <$> addresses l);
  li_seen : ∀ h, h ∈ seen l ↔ h ∈ Addr <$> addresses l;
  li_ids : ∀ n h, hostByNodeID_ (identities l) !! n = Some h ↔ nodeIDByHost (identities l) !! h = Some n;
  li_id : ∀ n h, hostByNodeID_ (identities l) !! n = Some h →
            n ≠ EmptyString ∧ ∃ v b, P v ∧ ID v = n ∧ resolveBackendInstance v secure = Ok (b, h);
}.

Lemma differs_false m k v : differs m k v = false → ∀ p, m !! k = Some p → p = v.
Proof. unfold differs. intros H p Hp. rewrite Hp in H. apply negb_false_iff, bool_decide_eq_true in H. done. Qed.

Lemma add_spec n h i i' :
  add n h i = Ok i' → (∀ n h, hostByNodeID_ i !! n = Some h ↔ nodeIDByHost i !! h = Some n) →
  (∀ n h, hostByNodeID_ i' !! n = Some h ↔ nodeIDByHost i' !! h = Some n) ∧
  (∀ m g, hostByNodeID_ i' !! m = Some g ↔ hostByNodeID_ i !! m = Some g ∨ n ≠ EmptyString ∧ m = n ∧ g = h).
Proof.
  unfold add. intros H Hi. destruct (nonempty n) eqn:En; simpl in H.
  - destruct (differs _ _ _) eqn:E1; [done|]. destruct (differs (nodeIDByHost i) _ _) eqn:E2; [done|]. simplify_eq/=.
    apply nonempty_true in En. pose proof (differs_false _ _ _ E1) as D1. pose proof (differs_false _ _ _ E2) as D2.
    split; intros m g.
    + destruct (decide (m = n)) as [->|Hm].
      * rewrite lookup_insert_eq. destruct (decide (g = h)) as [->|Hg]; [by rewrite lookup_insert_eq|].
        rewrite lookup_insert_ne by done. split; [by intros [= ?]|]. intros Hn%Hi. by apply D1 in Hn.
      * rewrite lookup_insert_ne by done. destruct (decide (g = h)) as [->|Hg].
        -- rewrite lookup_insert_eq. split; [intros Hn%Hi; by apply D2 in Hn|]. by intros [= ?].
        -- rewrite lookup_insert_ne by done. apply Hi.
    + destruct (decide (m = n)) as [->|Hm].
      * rewrite lookup_insert_eq. split; [intros [= ->]; by right|]. intros [Hn|(_ & _ & ->)]; [|done]. by apply D1 in Hn as ->.
      * rewrite lookup_insert_ne by done. naive_solver.
  - simplify_eq. apply nonempty_false in En. naive_solver.
Qed.

Lemma loop_inv_ext secure (P Q : ServiceInstance → Prop) l : (∀ v, P v ↔ Q v) → loop_inv secure P l → loop_inv secure Q l.
Proof.
  intros HPQ [I1 I2 I3 I4 I5 I6 I7]. split; try done.
  - intros v Hv%HPQ. by apply I1.
  - intros Hf v Hv%HPQ. by eapply I2.
  - intros a Ha. destruct (I3 a Ha) as [Hp ?]. split; [by apply HPQ|done].
  - intros n h Hn. destruct (I7 n h Hn) as (? & v & b & Hp & ?). split; [done|]. exists v, b. by rewrite <- HPQ.
Qed.

Lemma one_instance_inv serviceName secure o P l l' :
  one_instance serviceName secure o l = Ok l' → loop_inv secure P l →
  loop_inv secure (λ v, P v ∨ o = Some v ∧ Name v = serviceName) l'.
Proof.
  unfold one_instance. intros H Hl.
  destruct o as [v|]; [|simplify_eq; eapply loop_inv_ext; [|done]; naive_solver].
  destruct (bool_decide_reflect (Name v = serviceName)) as [Hn|Hn]; simpl in H;
    [|simplify_eq; eapply loop_inv_ext; [|done]; naive_solver].
  destruct Hl as [I1 I2 I3 I4 I5 I6 I7].
  destruct (resolveBackendInstance v secure) as [[b h]|] eqn:Er; [|done].
  destruct (found l && negb (Bool.eqb (stickySoFar l) b)) eqn:Ef; [done|].
  assert (Hb : ∀ w, P w → stickySoFar l = b).
  { intros w Hw. destruct (found l) eqn:Efo; [|by apply I2 in Hw]. simpl in Ef. by apply negb_false_iff, eqb_prop in Ef. }
  destruct (add (ID v) h (identities l)) as [ids|] eqn:Ea; [|done]. apply add_spec in Ea as [A1 A2]; [|done].
  assert (Ha : ∃ as_, l' = mkLoop (seen l') as_ ids b true ∧ (∀ g, g ∈ seen l' ↔ g ∈ Addr <$> as_) ∧ NoDup (Addr <$> as_) ∧
                 (∀ g, g ∈ Addr <$> as_ ↔ g ∈ Addr <$> addresses l ∨ g = h) ∧
                 (∀ a, a ∈ as_ → a ∈ addresses l ∨ a = mkAddress h v)).
  { destruct (bool_decide_reflect (h ∈ seen l)) as [Hs|Hs]; simplify_eq; eexists; (split; [reflexivity|]); simpl.
    - split_and!; try done; [|naive_solver]. intros g. split; [by left|]. intros [?| ->]; [done|by apply I5].
    - rewrite fmap_app. simpl. split_and!.
      + intros g. rewrite elem_of_union, elem_of_singleton, elem_of_app, I5, list_elem_of_singleton. naive_solver.
      + apply NoDup_app. split; [done|]. split; [|apply NoDup_singleton]. intros g Hg ->%list_elem_of_singleton. by apply Hs, I5.
      + intros g. by rewrite elem_of_app, list_elem_of_singleton.
      + intros a. by rewrite elem_of_app, list_elem_of_singleton. }
  destruct Ha as (as_ & -> & S1 & S2 & S3 & S4). split; simpl.
  - intros w [Hw|[[= <-] _]].
    + destruct (I1 w Hw) as (g & Hg & Hin & Hid). rewrite (Hb w Hw) in Hg. exists g. split_and!; [done|by apply S3; left|].
      intros ?. apply A2. left. by apply Hid.
    + exists h. split_and!; [done|by apply S3; right|]. intros ?. apply A2. by right.
  - done.
  - intros a Hin%S4. destruct Hin as [Hin| ->]; [|by split; [right|]].
    destruct (I3 a Hin) as [Hp Hr]. split; [by left|]. by rewrite (Hb _ Hp) in Hr.
  - done.
  - done.
  - done.
  - intros n g Hg%A2. destruct Hg as [Hg|(Hne & -> & ->)].
    + destruct (I7 n g Hg) as (? & w & b' & ? & ? & ?). split; [done|]. exists w, b'. naive_solver.
    + split; [done|]. exists v, b. naive_solver.
Qed.

Lemma instances_loop_inv serviceName secure instances P l l' :
  instances_loop serviceName secure instances l = Ok l' → loop_inv secure P l →
  loop_inv secure (λ v, P v ∨ of_service serviceName instances v) l'.
Proof.
  revert P l. induction instances as [|o instances IH]; intros P l H Hl; simpl in H.
  - simplify_eq. eapply loop_inv_ext; [|done]. intros v. unfold of_service. rewrite elem_of_nil. naive_solver.
  - destruct (one_instance _ _ _ l) as [l1|] eqn:E1; [|done]. apply one_instance_inv with (P := P) in E1; [|done].
    eapply loop_inv_ext; [|by eapply IH]. intros v. unfold of_service. rewrite elem_of_cons. naive_solver.
Qed.

Lemma resolved_inv serviceName instances secure snapshot as_ :
  resolveBackendInstances serviceName instances secure = Ok (snapshot, as_) →
  ∃ l, loop_inv secure (of_service serviceName instances) l ∧ as_ = addresses l ∧
    snapshot = mkSnapshot (negb (bool_decide (addresses l = []))) (stickySoFar l) (hostByNodeID_ (identities l)).
Proof.
  unfold resolveBackendInstances. destruct (instances_loop _ _ _ _) as [l|] eqn:El; [|done]. intros [= <- <-].
  exists l. split; [|done]. eapply loop_inv_ext; [|eapply (instances_loop_inv _ _ _ (λ _, False)); [done|]]; [naive_solver|].
  split; simpl; try done; [by intros _ v []|by intros a ?%elem_of_nil|constructor|..].
  all: set_solver.
Qed.

Lemma sticky_has_id v secure h : resolveBackendInstance v secure = Ok (true, h) → ID v ≠ EmptyString.
Proof.
  unfold resolveBackendInstance. intros H. repeat case_match; simplify_eq/=. intros E. rewrite E in *. done.
Qed.

(** In a sticky service a node id and its host are those of one address. *)
Lemma sticky_exact serviceName instances secure snapshot as_ :
  resolveBackendInstances serviceName instances secure = Ok (snapshot, as_) → sticky snapshot = true →
  ∀ n h, hostByNodeID snapshot !! n = Some h ↔ ∃ a, a ∈ as_ ∧ Addr a = h ∧ ID (service a) = n.
Proof.
  intros H Hs n h. apply resolved_inv in H as (l & [I1 I2 I3 I4 I5 I6 I7] & -> & ->). simpl in *.
  assert (Hid : ∀ a, a ∈ addresses l → hostByNodeID_ (identities l) !! ID (service a) = Some (Addr a)).
  { intros a Ha. destruct (I3 a Ha) as [Hp Hr]. destruct (I1 _ Hp) as (g & Hg & _ & Hi). rewrite Hr in Hg. simplify_eq.
    apply Hi. rewrite Hs in Hr. by eapply sticky_has_id. }
  split.
  - intros Hn. destruct (I7 n h Hn) as (_ & v & b & Hp & Hv & Hr). destruct (I1 v Hp) as (g & Hg & Hin & _).
    rewrite Hr in Hg. simplify_eq. apply list_elem_of_fmap in Hin as (a & -> & Ha). exists a. split_and!; [done..|].
    apply I6 in Hn. specialize (Hid a Ha). apply I6 in Hid. rewrite Hn in Hid. by simplify_eq.
  - intros (a & Ha & <- & <-). by apply Hid.
Qed.

(** What discovery lists becomes a faithful table, or nothing at all.  In
    an accepted listing every instance of the service has one endpoint, valid
    for the gateway's transport, and the same sticky mode; the addresses are
    the hosts of these instances, each once; no two node ids share a host; and
    in a sticky service the table of node ids is exactly that of the
    addresses the balancer gets. *)
Theorem snapshot_sound serviceName instances secure snapshot as_ :
  resolveBackendInstances serviceName instances secure = Ok (snapshot, as_) →
  (available snapshot = true ↔ ∃ v, of_service serviceName instances v) ∧
  NoDup (Addr <$> as_) ∧
  (∀ v, of_service serviceName instances v →
     ∃ h, resolveBackendInstance v secure = Ok (sticky snapshot, h) ∧ h ∈ Addr <$> as_) ∧
  (∀ a, a ∈ as_ → of_service serviceName instances (service a)) ∧
  (∀ n m h, hostByNodeID snapshot !! n = Some h → hostByNodeID snapshot !! m = Some h → n = m) ∧
  (sticky snapshot = true →
     ∀ n h, hostByNodeID snapshot !! n = Some h ↔ ∃ a, a ∈ as_ ∧ Addr a = h ∧ ID (service a) = n).
Proof.
  intros H. pose proof (sticky_exact _ _ _ _ _ H) as Hs.
  apply resolved_inv in H as (l & [I1 I2 I3 I4 I5 I6 I7] & -> & ->). simpl in *. split_and!; try done.
  - rewrite negb_true_iff, bool_decide_eq_false. split.
    + intros Hne. destruct (addresses l) as [|a as_] eqn:Ea; [done|]. exists (service a). apply I3. left.
    + intros [v Hv] Hn. destruct (I1 v Hv) as (h & _ & Hin & _). rewrite Hn in Hin. by apply elem_of_nil in Hin.
  - intros v Hv. destruct (I1 v Hv) as (h & ? & ? & _). by exists h.
  - intros a Ha. by apply I3.
  - intros n m h Hn%I6 Hm%I6. rewrite Hn in Hm. by simplify_eq.
Qed.
End Resolver.

(** *** Build *)

Definition TrimPrefix (prefix : ascii) (s : string) : string :=
  match s with String c r => if Ascii.eqb c prefix then r else s | EmptyString => s end.

(** [strings.EqualFold] with an ASCII [t]: the runes that fold to ASCII letters. *)
Definition fold_rune (r : Z) : Z :=
  if (65 <=? r) && (r <=? 90) then r + 32 else if r =? 383 then 115 else if r =? 8490 then 107 else r.
Definition EqualFold (s t : string) : bool :=
  bool_decide (fold_rune <$> runes 0 s = fold_rune <$> runes 0 t).

(** Credentials by their security protocol. *)
Record BuildOptions := mkBuild { DialCreds : option string; CredsBundle : option (option string) }.

Definition secureTransport (opts : BuildOptions) : bool :=
  let creds := match DialCreds opts, CredsBundle opts with
               | None, Some transport => transport
               | creds, _ => creds
               end in
  match creds with Some protocol => negb (EqualFold protocol "insecure") | None => false end.

Record backendResolver := mkResolver { serviceName : string; secure : bool }.

Definition Build (path : string) (opts : BuildOptions) : result backendResolver :=
  let serviceName := TrimPrefix "/" path in
  if ValidServiceName serviceName then Ok (mkResolver serviceName (secureTransport opts))
  else Err (EText "gateway: invalid node service").

(** *** The watch of a resolver

    A resolver runs [watch] in its own goroutine.  gRPC may close a resolver
    and build another for the same backend, so several can be at work on one
    [backendState]: every atomic operation on it is a step of its own. *)

(** What [markUnavailable] and the empty state are for: an empty listing, or a
    listing refused with an error that is then reported. *)
Definition cause : Type := option error.

Inductive pc :=
| PLoop                                     (* for r.ctx.Err() == nil *)
| PWatch                                    (* discovery.Watch *)
| PNext                                     (* consume: watcher.Next *)
| PMode (snapshot : backendSnapshot) (addresses : list Address)
| PMark (err : cause)                       (* markUnavailable: Load *)
| PMarked (old : backendSnapshot) (err : cause)
| PClear (err : cause)                      (* UpdateState(resolver.State{}) *)
| PReport (err : error)                     (* reject: ReportError *)
| PPush (snapshot : backendSnapshot) (addresses : list Address)
| PStore (snapshot : backendSnapshot)
| PStop (err : error)                       (* watcher.Stop *)
| PReportWatch (err : error)
| PRetry (err : error)
| PTimer
| PDone.

(** [clientState]: the addresses the connection accepted last, for each
    resolver; [reported]: the errors reported to it. *)
Record world := mkWorld {
  state : backendState;
  watchers : gmap nat (backendResolver * pc);
  cancelled : gset nat;
  clientState : gmap nat (list Address);
  reported : list (nat * error);
}.
#[export] Instance eta_world : Eta world := λ w,
  mkWorld (state w) (watchers w) (cancelled w) (clientState w) (reported w).

Definition goes (i : nat) (r : backendResolver) (p : pc) (w : world) : world := w <| watchers := <[i := (r, p)]> (watchers w) |>.

Section Watch.
Context (Parse : string → result URL) (service : string).

(** [update] up to its first effect. *)
Definition resolved (r : backendResolver) (instances : list (option ServiceInstance)) : pc :=
  match resolveBackendInstances Parse (serviceName r) instances (secure r) with
  | Err err => PMark (Some err)
  | Ok (snapshot, addresses) => PMode snapshot addresses
  end.

(** After [r.state.mode()]. *)
Definition decided (st : backendState) (snapshot : backendSnapshot) (addresses : list Address) : pc :=
  let '(sticky_, initialized) := mode st in
  if initialized && available snapshot && negb (Bool.eqb (sticky snapshot) sticky_)
  then PMark (Some (EText "gateway: node service changed sticky mode; restart Gateway to apply"))
  else if bool_decide (addresses = []) then PMark None
  else PPush snapshot addresses.

Inductive resolver_step (i : nat) (r : backendResolver) (w : world) : pc → world → Prop :=
| r_loop : i ∉ cancelled w → resolver_step i r w PLoop (goes i r PWatch w)
| r_exit : i ∈ cancelled w → resolver_step i r w PLoop (goes i r PDone w)
| r_watch : resolver_step i r w PWatch (goes i r PNext w)
| r_watch_err err :
    resolver_step i r w PWatch (goes i r (PRetry err) (w <| reported := (i, err) :: reported w |>))
| r_next instances : resolver_step i r w PNext (goes i r (resolved r instances) w)
| r_next_err err : resolver_step i r w PNext (goes i r (PStop err) w)
| r_mode snapshot as_ : resolver_step i r w (PMode snapshot as_) (goes i r (decided (state w) snapshot as_) w)
| r_mark err :
    resolver_step i r w (PMark err) (goes i r (match state w with Some old => PMarked old err | None => PClear err end) w)
| r_marked old err :
    resolver_step i r w (PMarked old err) (goes i r (PClear err) (w <| state := markUnavailable old |>))
| r_clear err :
    resolver_step i r w (PClear err)
      (goes i r (match err with Some err => PReport err | None => PNext end) (w <| clientState := <[i := []]> (clientState w) |>))
| r_report err : resolver_step i r w (PReport err) (goes i r PNext (w <| reported := (i, err) :: reported w |>))
| r_push snapshot as_ :
    resolver_step i r w (PPush snapshot as_)
      (goes i r (PStore snapshot) (w <| clientState := <[i := as_]> (clientState w) |>))
| r_push_err snapshot as_ err : resolver_step i r w (PPush snapshot as_) (goes i r (PMark (Some err)) w)
| r_store snapshot : resolver_step i r w (PStore snapshot) (goes i r PNext (w <| state := Some snapshot |>))
| r_stop err :
    resolver_step i r w (PStop err)
      (goes i r (if errors_Is err CtxCanceled || bool_decide (i ∈ cancelled w) then PRetry err else PReportWatch err) w)
| r_report_watch err :
    resolver_step i r w (PReportWatch err) (goes i r (PRetry err) (w <| reported := (i, err) :: reported w |>))
| r_retry err :
    resolver_step i r w (PRetry err)
      (goes i r (if errors_Is err CtxCanceled || bool_decide (i ∈ cancelled w) then PDone else PTimer) w)
| r_timer : resolver_step i r w PTimer (goes i r PLoop w)
| r_timer_done : i ∈ cancelled w → resolver_step i r w PTimer (goes i r PDone w).

Inductive wstep (w : world) : world → Prop :=
| w_build i path opts r :
    watchers w !! i = None → Build path opts = Ok r → serviceName r = service → wstep w (goes i r PLoop w)
| w_run i r p w' : watchers w !! i = Some (r, p) → resolver_step i r w p w' → wstep w w'
| w_close i : wstep w (w <| cancelled := {[i]} ∪ cancelled w |>).

(** [connectBackend] stored the first snapshot before it made the connection. *)
Definition listed (snapshot : backendSnapshot) (as_ : list Address) : Prop :=
  ∃ instances secure, resolveBackendInstances Parse service instances secure = Ok (snapshot, as_).

Definition winit (w : world) : Prop :=
  ∃ snapshot as_, listed snapshot as_ ∧ available snapshot = true ∧ w = mkWorld (Some snapshot) ∅ ∅ ∅ [].

Definition wreach : world → Prop := reachable winit wstep.

(** ** Invariant *)

(** What a watcher carries towards the state. *)
Definition carries (b : bool) (p : pc) : Prop :=
  match p with
  | PMode snapshot as_ => listed snapshot as_
  | PMarked old _ => sticky old = b
  | PPush snapshot as_ => listed snapshot as_ ∧ sticky snapshot = b ∧ as_ ≠ []
  | PStore snapshot => sticky snapshot = b ∧ ∃ as_, listed snapshot as_ ∧ as_ ≠ []
  | _ => True
  end.

Record winv (b : bool) (w : world) : Prop := mkWinv {
  wi_state : ∃ snapshot, state w = Some snapshot ∧ sticky snapshot = b ∧
    (snapshot = mkSnapshot false b ∅ ∨ available snapshot = true ∧ ∃ as_, listed snapshot as_);
  wi_watch : ∀ i r p, watchers w !! i = Some (r, p) → serviceName r = service ∧ carries b p;
}.

Lemma listed_available snapshot as_ : listed snapshot as_ → available snapshot = negb (bool_decide (as_ = [])).
Proof. intros (instances & sec & H). by apply resolved_inv in H as (l & _ & -> & ->). Qed.

Lemma goes_watch b i r p w j r' p' :
  (∀ i r p, watchers w !! i = Some (r, p) → serviceName r = service ∧ carries b p) →
  serviceName r = service → carries b p →
  watchers (goes i r p w) !! j = Some (r', p') → serviceName r' = service ∧ carries b p'.
Proof. intros H ? ?. simpl. rewrite lookup_insert_Some. intros [[_ [= <- <-]]|[_ ?]]; [done|by eapply H]. Qed.

(** Once stored, a mode is kept by what every watcher decides. *)
Lemma decided_carries b st snapshot as_ :
  (∃ old, st = Some old ∧ sticky old = b) → listed snapshot as_ → carries b (decided st snapshot as_).
Proof.
  intros (old & -> & Ho) Hl. unfold decided. simpl. pose proof (listed_available _ _ Hl) as Ha. rewrite Ho.
  destruct (available snapshot) eqn:Eav; simpl.
  - destruct (Bool.eqb (sticky snapshot) b) eqn:Eb; simpl; [|done]. apply eqb_prop in Eb.
    case_bool_decide; [done|]. done.
  - case_bool_decide; [done|]. done.
Qed.

Lemma winv_step b w w' : winv b w → wstep w w' → winv b w'.
Proof.
  intros [Hst Hw] Hs. inversion Hs as [i path opts r Hi Hb Hr|i r p w1 Hi Hp|i]; subst; clear Hs.
  - split; [done|]. intros j r' p'. by eapply goes_watch.
  - destruct (Hw _ _ _ Hi) as [Hr Hc].
    inversion Hp; subst; clear Hp; (split; [try done|intros j r' p'; eapply goes_watch; simpl in *; try done]).
    all: repeat case_match; simpl in *; try done.
    + unfold resolved. destruct (resolveBackendInstances _ _ _ _) as [[snapshot as_]|] eqn:E; simpl; [|done].
      rewrite Hr in E. by eexists _, _.
    + apply decided_carries; [|done]. destruct Hst as (o & ? & ? & _). by exists o.
    + destruct Hst as (o & Ho & ? & _). by simplify_eq.
    + eexists. split_and!; [done|simpl; done|]. left. by rewrite Hc.
    + destruct Hc as (? & ? & ?). split; [done|]. by exists as_.
    + destruct Hc as (Hb & as_ & Hl & Hne). eexists. split_and!; [done|done|]. right. split; [|by exists as_].
      rewrite (listed_available _ _ Hl). apply negb_true_iff. by apply bool_decide_eq_false.
  - split; [done|]. done.
Qed.

Lemma wreach_inv w : wreach w → ∃ b, winv b w.
Proof.
  intros H. enough (∃ b, winv b w) as [b Hb] by (by exists b).
  revert w H. apply invariant_reachable.
  - intros w (snapshot & as_ & Hl & Ha & ->). exists (sticky snapshot). split; [|done].
    exists snapshot. split_and!; [done..|]. right. split; [done|by exists as_].
  - intros w w' _ [b Hb] Hs. exists b. by eapply winv_step.
Qed.

Lemma winv_star b w w' : winv b w → rtc wstep w w' → winv b w'.
Proof. intros Hw Hs. induction Hs as [|w w1 w2 Hs _ IH]; [done|]. apply IH. by eapply winv_step. Qed.

(** A service keeps its routing mode under a running gateway, whatever
    discovery lists and however resolvers overlap: from any moment on the
    published snapshot has the same sticky mode, and it is either a listing
    that was accepted as a whole or marked unavailable and empty. *)
Theorem sticky_mode_stable w w' :
  wreach w → rtc wstep w w' →
  ∃ old new, state w = Some old ∧ state w' = Some new ∧ sticky new = sticky old ∧
    (new = mkSnapshot false (sticky old) ∅ ∨ available new = true ∧ ∃ as_, listed new as_).
Proof.
  intros Hr Hs. apply wreach_inv in Hr as [b Hb]. pose proof (winv_star _ _ _ Hb Hs) as Hb'.
  destruct (wi_state _ _ Hb) as (old & Eo & So & _). destruct (wi_state _ _ Hb') as (new & En & Sn & Hn).
  exists old, new. rewrite Sn, So. done.
Qed.
End Watch.

(** ** gateway/balancer.go *)

(** A ready connection with the address it is for; the instance behind it may
    be missing from its attributes. *)
Record ReadySC := mkReady { r_conn : nat; r_addr : string; r_service : option ServiceInstance }.

(** [exact] by node id; the nodes of the selector are the ready connections. *)
Record backendPicker := mkPicker { nodes : list nat; exact_ : gmap string nat }.

Definition put_exact (ready : ReadySC) (m : gmap string nat) : gmap string nat :=
  match r_service ready with
  | Some service => if nonempty (ID service) then <[ID service := r_conn ready]> m else m
  | None => m
  end.

(** [Build]: no picker but an error picker without ready connections.  The
    connections come in the order a Go map is ranged over. *)
Definition buildPicker (ready : list ReadySC) : option backendPicker :=
  match ready with
  | [] => None
  | _ => Some (mkPicker (r_conn <$> ready) (foldl (λ m r, put_exact r m) ∅ ready))
  end.

(** [Pick]; the context carries the node id, empty when it has none.  [select]
    is what the weighted selector answers for its nodes. *)
Definition withNodeID (ctx nodeID : string) : string := if nonempty nodeID then nodeID else ctx.

Definition Pick (select : list nat → result nat) (ctx : string) (p : option backendPicker) : result nat :=
  match p with
  | None => Err (ESentinel GrpcErrNoSubConnAvailable)
  | Some p =>
      if nonempty ctx then
        match exact_ p !! ctx with
        | None => Err (ESentinel GrpcErrNoSubConnAvailable)
        | Some conn => Ok conn
        end
      else select (nodes p)
  end.

Lemma foldl_exact ready m n c :
  foldl (λ m r, put_exact r m) m ready !! n = Some c →
  m !! n = Some c ∨ ∃ r v, r ∈ ready ∧ r_conn r = c ∧ r_service r = Some v ∧ ID v = n.
Proof.
  revert m. induction ready as [|r ready IH]; intros m H; simpl in H; [by left|].
  apply IH in H as [H|(r' & v & ? & ? & ? & ?)]; [|right; exists r', v; split_and!; try done; by right].
  unfold put_exact in H. destruct (r_service r) as [v|] eqn:Ev; [|by left]. destruct (nonempty (ID v)); [|by left].
  apply lookup_insert_Some in H as [[<- <-]|[_ ?]]; [|by left]. right. exists r, v. split_and!; try done. left.
Qed.

Lemma foldl_exact_some ready m n :
  (is_Some (m !! n) ∨ ∃ r v, r ∈ ready ∧ r_service r = Some v ∧ ID v = n ∧ n ≠ EmptyString) →
  is_Some (foldl (λ m r, put_exact r m) m ready !! n).
Proof.
  revert m. induction ready as [|r ready IH]; intros m H; simpl.
  - destruct H as [?|(r & v & ?%elem_of_nil & _)]; done.
  - apply IH. destruct H as [H|(r' & v & [->|Hin]%elem_of_cons & Hv & Hn & Hne)].
    + left. unfold put_exact. repeat case_match; try done. apply lookup_insert_is_Some'. by right.
    + left. unfold put_exact. rewrite Hv, Hn. apply nonempty_true in Hne as ->. by rewrite lookup_insert_eq.
    + right. by exists r', v.
Qed.

(** A call for a node reaches that node or none.  With a node id in its
    context a pick answers a ready connection whose instance has that id, and
    refuses with [ErrNoSubConnAvailable] exactly when there is no such
    connection: it never falls back to another node.  When the ready
    connections are for addresses of a sticky snapshot, the one picked is for
    the host the snapshot names. *)
Theorem pick_reaches_node Parse service instances secure snapshot as_ select ready nodeID :
  resolveBackendInstances Parse service instances secure = Ok (snapshot, as_) → sticky snapshot = true →
  (∀ r, r ∈ ready → ∃ a, a ∈ as_ ∧ r_addr r = Addr a ∧ r_service r = Some (Resolver.service a)) →
  nodeID ≠ EmptyString →
  match Pick select (withNodeID EmptyString nodeID) (buildPicker ready) with
  | Ok conn => ∃ r, r ∈ ready ∧ r_conn r = conn ∧ hostByNodeID snapshot !! nodeID = Some (r_addr r)
  | Err err => err = ESentinel GrpcErrNoSubConnAvailable ∧
               ∀ r, r ∈ ready → hostByNodeID snapshot !! nodeID ≠ Some (r_addr r)
  end.
Proof.
  intros H Hs Hready Hn. pose proof (sticky_exact _ _ _ _ _ _ H Hs) as Hex.
  assert (Hhost : ∀ r a, r_addr r = Addr a → a ∈ as_ → r_service r = Some (Resolver.service a) →
                   hostByNodeID snapshot !! nodeID = Some (r_addr r) → ID (Resolver.service a) = nodeID).
  { intros r a Ea Ha _ Hh. assert (Hh' : hostByNodeID snapshot !! ID (Resolver.service a) = Some (r_addr r)) by (apply Hex; by exists a).
    destruct (resolved_inv _ _ _ _ _ _ H) as (l & [_ _ _ _ _ I6 _] & -> & ->). simpl in *.
    apply I6 in Hh, Hh'. rewrite Hh in Hh'. by simplify_eq. }
  unfold withNodeID. apply nonempty_true in Hn as Hn'. rewrite Hn'. destruct ready as [|r0 ready]; simpl.
  { split; [done|]. by intros r ?%elem_of_nil. }
  rewrite Hn'. change (foldl _ _ ready) with (foldl (λ m r, put_exact r m) ∅ (r0 :: ready)).
  destruct (foldl _ ∅ _ !! nodeID) as [conn|] eqn:E.
  - apply foldl_exact in E as [?|(r & v & Hr & <- & Hv & <-)]; [done|]. exists r. split_and!; [done..|].
    destruct (Hready r Hr) as (a & Ha & Ea & Es). rewrite Hv in Es. simplify_eq. apply Hex. by exists a.
  - split; [done|]. intros r Hr Hh. destruct (Hready r Hr) as (a & Ha & Ea & Es).
    eapply eq_None_not_Some; [exact E|]. apply foldl_exact_some. right. exists r, (Resolver.service a).
    split_and!; try done. by eapply Hhost.
Qed.

Module ResolverExample.
Definition Parse (raw : string) : result URL :=
  if bool_decide (raw = "grpc://n1:9000"%string) then Ok (url_of "grpc" "n1:9000")
  else if bool_decide (raw = "grpc://n2:9000"%string) then Ok (url_of "grpc" "n2:9000")
  else Err (EText "first path segment in URL cannot contain colon").

Definition n1 : ServiceInstance := mkInstance "node-1" "game" StickyMetadata ["grpc://n1:9000"%string].
Definition n2 : ServiceInstance := mkInstance "node-2" "game" StickyMetadata ["grpc://n2:9000"%string].
Definition other : ServiceInstance := mkInstance "chat-1" "chat" ∅ ["grpc://n1:9000"%string].
Definition listing : list (option ServiceInstance) := [Some n1; None; Some other; Some n2; Some n1].

Definition a1 : Address := mkAddress "n1:9000" n1.
Definition a2 : Address := mkAddress "n2:9000" n2.
Definition snap : backendSnapshot := mkSnapshot true true {["node-1" := "n1:9000"; "node-2" := "n2:9000"]}.

Lemma listing_resolved : resolveBackendInstances Parse "game" listing false = Ok (snap, [a1; a2]).
Proof. vm_compute. reflexivity. Qed.

(** Two instances that claim one node id are refused. *)
Example duplicate_id :
  resolveBackendInstances Parse "game" [Some n1; Some (mkInstance "node-1" "game" StickyMetadata ["grpc://n2:9000"%string])] false
  = Err (EText "gateway: node service has duplicate NodeID with different endpoints").
Proof. vm_compute. reflexivity. Qed.

Lemma snapshot_sound_witness :
  (available snap = true ↔ ∃ v, of_service "game" listing v) ∧
  NoDup (Addr <$> [a1; a2]) ∧
  (∀ v, of_service "game" listing v →
     ∃ h, resolveBackendInstance Parse v false = Ok (sticky snap, h) ∧ h ∈ Addr <$> [a1; a2]) ∧
  (∀ a, a ∈ [a1; a2] → of_service "game" listing (service a)) ∧
  (∀ n m h, hostByNodeID snap !! n = Some h → hostByNodeID snap !! m = Some h → n = m) ∧
  (sticky snap = true →
     ∀ n h, hostByNodeID snap !! n = Some h ↔ ∃ a, a ∈ [a1; a2] ∧ Addr a = h ∧ ID (service a) = n).
Proof. apply (snapshot_sound Parse "game" listing false). apply listing_resolved. Defined.

(** A resolver sees the service drop its sticky metadata and refuses it. *)
Definition plain : ServiceInstance := mkInstance "node-1" "game" ∅ ["grpc://n1:9000"%string].
Definition w0 : world := mkWorld (Some snap) ∅ ∅ ∅ [].
Definition rs : backendResolver := mkResolver "game" false.

Lemma w0_reach : wreach Parse "game" w0.
Proof. apply reach_init. exists snap, [a1; a2]. split_and!; [|done..]. exists listing, false. apply listing_resolved. Qed.

Definition refused : error := EText "gateway: node service changed sticky mode; restart Gateway to apply".

Definition w9 : world :=
  mkWorld (Some (mkSnapshot false true ∅)) {[5%nat := (rs, PNext)]} ∅ {[5%nat := []]} [(5%nat, refused)].

Lemma w0_w9 : rtc (wstep Parse "game") w0 w9.
Proof.
  eapply rtc_l; [eapply (w_build _ _ _ 5 "/game" (mkBuild (Some "insecure"%string) None)); by vm_compute|].
  eapply rtc_l; [eapply (w_run _ _ _ 5); [done|apply r_loop; set_solver]|].
  eapply rtc_l; [eapply (w_run _ _ _ 5); [done|apply r_watch]|].
  eapply rtc_l; [eapply (w_run _ _ _ 5); [done|apply (r_next _ _ _ _ [Some plain])]|].
  eapply rtc_l; [eapply (w_run _ _ _ 5); [vm_compute; reflexivity|apply r_mode]|].
  eapply rtc_l; [eapply (w_run _ _ _ 5); [vm_compute; reflexivity|apply r_mark]|].
  eapply rtc_l; [eapply (w_run _ _ _ 5); [vm_compute; reflexivity|apply r_marked]|].
  eapply rtc_l; [eapply (w_run _ _ _ 5); [vm_compute; reflexivity|apply r_clear]|].
  eapply rtc_l; [eapply (w_run _ _ _ 5); [vm_compute; reflexivity|apply r_report]|].
  match goal with |- rtc _ ?w _ => replace w with w9; [apply rtc_refl|vm_compute; reflexivity] end.
Qed.

Lemma sticky_mode_stable_witness :
  ∃ old new, state w0 = Some old ∧ state w9 = Some new ∧ sticky new = sticky old ∧
    (new = mkSnapshot false (sticky old) ∅ ∨ available new = true ∧ ∃ as_, listed Parse "game" new as_).
Proof. apply (sticky_mode_stable Parse "game" w0 w9 w0_reach w0_w9). Defined.

(** Node 2 is not ready: a call for it is not sent to node 1. *)
Definition ready : list ReadySC := [mkReady 7 "n1:9000" (Some n1)].

Lemma pick_reaches_node_witness :
  match Pick (λ _, Ok 7%nat) (withNodeID EmptyString "node-2") (buildPicker ready) with
  | Ok conn => ∃ r, r ∈ ready ∧ r_conn r = conn ∧ hostByNodeID snap !! "node-2"%string = Some (r_addr r)
  | Err err => err = ESentinel GrpcErrNoSubConnAvailable ∧
               ∀ r, r ∈ ready → hostByNodeID snap !! "node-2"%string ≠ Some (r_addr r)
  end.
Proof.
  apply (pick_reaches_node Parse "game" listing false snap [a1; a2]); [apply listing_resolved|done| |done].
  intros r ->%list_elem_of_singleton. exists a1. split_and!; [left|done|done].
Defined.
End ResolverExample.
