(* ===== verification/GatewaySession.v ===== *)
(** * Sessions of a Gateway (gateway/session.go)

    The registry of client connections and the session of each: its one
    authentication, its binding in the location store and the local end of
    that lease.  Each function is one section under [mu] or [bindingMu]; a
    session is known by a number, as the code knows it by pointer. *)

From S2P Require Import Prelude Errors Proto Locate Node.

(** ** session *)

(** [conn] is the identity of the connection value; [authTimer] is non-nil. *)
Record session := mkSession {
  conn : nat;
  connID : string;
  authTimer : bool;
  authDeadline : Z;
  authAttempted : bool;
  binding : GateBinding;
  leaseDeadline : Z;                        (* 0 is the zero time *)
}.
#[export] Instance eta_session : Eta session := λ s,
  mkSession (conn s) (connID s) (authTimer s) (authDeadline s) (authAttempted s) (binding s) (leaseDeadline s).

Definition newSession (now : Z) (conn : nat) (connID : string) (authTimeout : Z) : session :=
  mkSession conn connID true (now + authTimeout) false zero_binding 0.

Definition leaseValidLocked (now : Z) (s : session) : bool :=
  ValidGateBinding (binding s) && (now <? leaseDeadline s).

Definition authenticated (now : Z) (s : session) : bool := leaseValidLocked now s.

(** The callback of [authTimer]: close the connection unless authenticated. *)
Definition authExpired (now : Z) (s : session) : bool := negb (authenticated now s).

Definition beginAuthentication (s : session) : session * bool :=
  if authAttempted s then (s, false) else (s <| authAttempted := true |>, true).

Definition canAuthenticate (ctxErr : option error) (now : Z) (s : session) : bool :=
  match ctxErr with None => now <? authDeadline s | Some _ => false end.

Definition finishAuthentication (now : Z) (lease : GateLease) (boundAt : Z) (s : session) : session * bool :=
  let deadline := boundAt + TTL lease in
  if negb (now <? authDeadline s) || negb (now <? deadline) then (s, false)
  else (s <| binding := Binding lease |> <| leaseDeadline := deadline |> <| authTimer := false |>, true).

Definition route (now : Z) (s : session) : GateBinding * bool := (binding s, leaseValidLocked now s).

Definition heartbeatRoute (now interval : Z) (s : session) : GateBinding * bool * bool :=
  let valid := leaseValidLocked now s in
  (binding s, valid, valid && negb (now + interval <? leaseDeadline s)).

Definition finishHeartbeat (expected : GateBinding) (renewedAt ttl : Z) (s : session) : session :=
  if decide (binding s = expected) then s <| leaseDeadline := renewedAt + ttl |> else s.

Definition detachForClose (s : session) : session * GateBinding :=
  (s <| authTimer := false |> <| binding := zero_binding |> <| leaseDeadline := 0 |>, binding s).

Definition holds_now (now : Z) (expected : GateBinding) (s : session) : bool :=
  bool_decide (binding s = expected) && (now <? leaseDeadline s).

Definition detachForKick (now : Z) (expected : GateBinding) (s : session) : session * bool :=
  if holds_now now expected s then (s <| binding := zero_binding |> <| leaseDeadline := 0 |>, true)
  else (s, false).

(** Whether [sendIfCurrent] and [sendIfAuthenticated] hand the message to the
    connection. *)
Definition sendIfCurrent (now : Z) (expected : GateBinding) (s : session) : bool := holds_now now expected s.
Definition sendIfAuthenticated (now : Z) (s : session) : bool := leaseValidLocked now s.

(** ** sessionRegistry *)

(** [byConnID] is [None] once [takeAll] set it to nil; [authentications] is
    the count of the wait group. *)
Record sessionRegistry := mkRegistry {
  byConnID : option (gmap string nat);
  accepting : bool;
  authentications : Z;
}.
#[export] Instance eta_registry : Eta sessionRegistry := λ r,
  mkRegistry (byConnID r) (accepting r) (authentications r).

Definition newRegistry : sessionRegistry := mkRegistry (Some ∅) false 0.

Section Registry.
Implicit Types (r : sessionRegistry) (sid : nat).

(** [add] registers the session the caller allocated. *)
Definition add (sid : nat) (connID : string) r : sessionRegistry * option error :=
  match accepting r, byConnID r with
  | true, Some m =>
      match m !! connID with
      | Some _ => (r, Some (EText "duplicate connection"))
      | None => (r <| byConnID := Some (<[connID := sid]> m) |>, None)
      end
  | _, _ => (r, Some (EText "gateway is unavailable"))
  end.

(** A lookup in a nil map finds nothing. *)
Definition get (connID : string) r : option nat := byConnID r ≫= (.!! connID).

Definition registered (sid : nat) (s : session) r : bool := bool_decide (get (connID s) r = Some sid).

Definition admitAuthentication (ctxErr : option error) (now : Z) sid (s : session) r : sessionRegistry * bool :=
  if negb (accepting r) || negb (registered sid s r) || negb (canAuthenticate ctxErr now s) then (r, false)
  else (r <| authentications := authentications r + 1 |>, true).

Definition commitAuthentication (ctxErr : option error) (now now' : Z) sid (lease : GateLease) (boundAt : Z)
    r (s : session) : session * bool :=
  if negb (registered sid s r) || negb (canAuthenticate ctxErr now s) then (s, false)
  else finishAuthentication now' lease boundAt s.

(** The session of [connID] is removed if it is the one of this connection. *)
Definition remove (connID : string) (c : nat) (heap : gmap nat session) r : sessionRegistry * option nat :=
  match byConnID r, get connID r with
  | Some m, Some sid =>
      match heap !! sid with
      | Some s => if decide (conn s = c) then (r <| byConnID := Some (delete connID m) |>, Some sid) else (r, None)
      | None => (r, None)
      end
  | _, _ => (r, None)
  end.

Definition takeAll r : sessionRegistry * list nat :=
  match byConnID r with
  | None => (r, [])
  | Some m => (r <| byConnID := None |>, (map_to_list m).*2)
  end.

Definition snapshot r : list nat := match byConnID r with Some m => (map_to_list m).*2 | None => [] end.

Definition openAdmission r : sessionRegistry := r <| accepting := true |>.
Definition closeAdmission r : sessionRegistry := r <| accepting := false |>.
Definition isAccepting r : bool := accepting r.
End Registry.

(** ** Facts about one session *)

(** A message is handed over only for the exact binding the session holds. *)
Lemma send_exact now b s : sendIfCurrent now b s = true → binding s = b ∧ now < leaseDeadline s.
Proof. unfold sendIfCurrent, holds_now. intros H. to_prop. done. Qed.

(** After a detach nothing is sent under any valid binding. *)
Lemma detached_silent now s b :
  0 ≤ now → (detachForClose s).1.(leaseDeadline) = 0 ∧ sendIfCurrent now b (detachForClose s).1 = false ∧
  sendIfAuthenticated now (detachForClose s).1 = false.
Proof.
  intros Hn. unfold sendIfCurrent, sendIfAuthenticated, holds_now, leaseValidLocked; simpl.
  replace (now <? 0) with false by (symmetry; apply Z.ltb_ge; lia). by rewrite !andb_false_r.
Qed.

(** A committed lease ends no later than the one the store granted. *)
Lemma finish_deadline now lease boundAt s s' :
  finishAuthentication now lease boundAt s = (s', true) →
  binding s' = Binding lease ∧ leaseDeadline s' = boundAt + TTL lease ∧ now < leaseDeadline s' ∧
  now < authDeadline s.
Proof. unfold finishAuthentication. intros H. case_match eqn:E; simplify_eq. to_prop. done. Qed.
