(* ===== verification/Gateway.v ===== *)
(** * Request path of a Gateway

    [gateway/inbound.go], [gateway/delivery.go], [gateway/forward.go],
    [gateway/backend.go] (routing) and the session drain of
    [gateway/lifecycle.go] as programs over the calls they make of the session
    registry, the location store, the connections and the nodes. *)

From S2P Require Import Prelude Errors Resolver Prog Proto Locate Node GatewaySession.

(** The context a call runs under: the caller's, the one with the session's
    authentication deadline, and those with RPC, renewal and cleanup budgets. *)
Inductive ctx := Caller | AuthCtx | RpcCtx | RenewCtx | Cleanup.

Inductive mutex := HandlerMu | HeartbeatMu.

(** gateway/backend.go: a chosen route. *)
Record nodeRoute := mkRoute { r_binding : GateBinding; r_nodeID : string; r_epoch : string }.

Inductive eff :=
(* sessions *)
| Add (c : nat) (connID : string)
| Get (connID : string)
| Accepting
| Lock (m : mutex) (sid : nat)
| Unlock (m : mutex) (sid : nat)
| BeginAuth (sid : nat)
| AdmitAuth (sid : nat)
| CommitAuth (sid : nat) (lease : GateLease) (boundAt : Z)
| AuthDone
| PastDeadline (sid : nat)                  (* !time.Now().Before(sess.authDeadline) *)
| Remove (connID : string) (c : nat)
| RemoveConnOf (sid : nat)                  (* remove(sess.conn) *)
| DetachClose (sid : nat)
| DetachKick (sid : nat) (b : GateBinding)
| Send (sid : nat) (b : GateBinding) (msg : Proto)
| RouteOf (sid : nat) (now : Z)
| HeartbeatRoute (sid : nat) (now interval : Z)
| FinishHeartbeat (sid : nat) (b : GateBinding) (renewedAt ttl : Z)
(* surroundings *)
| Now
| CtxErr (c : ctx)
| Uuid
| ConnIDOf (sid : nat)
| RemoteIP
| Authenticate (c : ctx) (svc : string) (token : bytes) (remoteIP : string)
| CloseConn (c : nat)
| CloseSess (sid : nat)
| CloseWith (c : ctx) (sid : nat) (p : Proto)
(* the location store *)
| Bind (c : ctx) (b : GateBinding) (ttl : Z)
| Renew (c : ctx) (b : GateBinding) (ttl : Z)
| Unbind (c : ctx) (b : GateBinding)
| LocateNode (c : ctx) (svc uid : string)
| LocateNodeEpoch (c : ctx) (svc node : string)
(* nodes and other gateways *)
| Backend (c : ctx) (svc : string)          (* b.get(ctx, svc) and state.load() *)
| NodeForward (c : ctx) (node : string) (req : ForwardRequest)
| NodeDisconnect (c : ctx) (node : string) (route : GateRoute)
| KickRemote (c : ctx) (b : GateBinding) (code : Z).

Definition ans (e : eff) : Type :=
  match e with
  | Add _ _ | CtxErr _ | CloseConn _ | CloseSess _ | CloseWith _ _ _ | Unbind _ _
  | NodeDisconnect _ _ _ | KickRemote _ _ _ => option error
  | Get _ | Remove _ _ | RemoveConnOf _ => option nat
  | Accepting | BeginAuth _ | AdmitAuth _ | CommitAuth _ _ _ | DetachKick _ _ | PastDeadline _ => bool
  | Lock _ _ | Unlock _ _ | AuthDone | FinishHeartbeat _ _ _ _ => unit
  | DetachClose _ => GateBinding
  | Send _ _ _ => bool * option error
  | RouteOf _ _ => GateBinding * bool
  | HeartbeatRoute _ _ _ => GateBinding * bool * bool
  | Now => Z
  | Uuid | ConnIDOf _ | RemoteIP => string
  | Authenticate _ _ _ _ | LocateNode _ _ _ | LocateNodeEpoch _ _ _ => result string
  | Bind _ _ _ => result (GateLease * option GateBinding)
  | Renew _ _ _ => result GateLease
  | Backend _ _ => result backendSnapshot
  | NodeForward _ _ _ => result bytes
  end.

Abbreviation gprog := (prog ans).

(** ** Error mapping *)

Definition locateStatusCode (err : error) : code :=
  if errors_Is err ErrGateNotFound || errors_Is err ErrGateConflict then Aborted
  else if errors_Is err CtxCanceled then Canceled
  else if errors_Is err CtxDeadlineExceeded then DeadlineExceeded
  else if errors_Is err ErrInvalidGateBinding || errors_Is err ErrInvalidGateLease ||
          errors_Is err ErrInvalidGateTTL then Internal
  else Unavailable.

Definition forwardStatusCode (err : error) : code :=
  if errors_Is err CtxCanceled then Canceled
  else if errors_Is err CtxDeadlineExceeded then DeadlineExceeded
  else if errors_Is err ErrInvalidNodeBinding || errors_Is err ErrInvalidNodeEpoch then Internal
  else if errors_Is err ErrNodeEpochNotFound || errors_Is err ErrNodeEpochConflict then Aborted
  else Unavailable.

Definition rpcError (err : error) : error :=
  if errors_Is err ErrInvalidPush then EStatus InvalidArgument "invalid push"
  else if errors_Is err ErrInvalidKick then EStatus InvalidArgument "invalid kick"
  else if errors_Is err ErrConnectionMissing then EStatus NotFound "connection not found"
  else if errors_Is err ErrBindingChanged then EStatus Aborted "gate binding changed"
  else if errors_Is err ErrConnectionBusy then EStatus ResourceExhausted "connection queue is full"
  else if errors_Is err ErrFrameTooLarge then EStatus ResourceExhausted "network: frame too large"
  else if errors_Is err ErrConnectionUnavailable then EStatus Unavailable "connection is unavailable"
  else EStatus Internal "gateway RPC failed".

Section Server.
Context (kratosCode : Z → code)                          (* the gRPC code of a Kratos error *)
        (decodeAuth : bytes → result (string * bytes))  (* proto.Unmarshal into ClientAuthReq *)
        (protoSize : Proto → Z)                          (* proto.Size *)
        (id endpoint : string)                           (* s.identity *)
        (leaseTTL : Z).

(** [status.Code] of a gRPC error: the first status of the tree. *)
Fixpoint as_status (err : error) : option code :=
  match err with
  | EStatus c _ => Some c
  | EKratos status _ _ _ => Some (kratosCode status)
  | ESentinel _ | EText _ | ENet _ _ => None
  | EWrap _ es | EJoin es =>
      (fix first (es : list error) : option code :=
         match es with
         | [] => None
         | e :: es => match as_status e with Some c => Some c | None => first es end
         end) es
  end.

Definition status_code (err : error) : code := default Unknown (as_status err).

Definition validExternalFrame (msg : Proto) : bool := protoSize msg <=? MaxProtoSize.

Definition ownsBinding (b : GateBinding) : bool :=
  bool_decide (GateID b = id) && bool_decide (GateEndpoint b = endpoint).

(** ** gateway/backend.go: routing *)

Definition resolveNode (c : ctx) (b : GateBinding) : gprog (result nodeRoute) :=
  let! err := call (CtxErr c) in
  match err with
  | Some err => Ret (Err err)
  | None =>
      let! found := call (Backend c (ServiceName b)) in
      match found with
      | Err err => Ret (Err err)
      | Ok snapshot =>
          if negb (available snapshot) then Ret (Err (EText "gateway: node service is unavailable"))
          else if negb (sticky snapshot) then Ret (Ok (mkRoute b EmptyString EmptyString))
          else
            let! node := call (LocateNode c (ServiceName b) (UID b)) in
            match node with
            | Err err =>
                if errors_Is err ErrNodeNotFound then Ret (Ok (mkRoute b EmptyString EmptyString))
                else Ret (Err err)
            | Ok nodeID =>
                if negb (ValidNodeLocation (ServiceName b) (UID b) nodeID)
                then Ret (Err (ESentinel ErrInvalidNodeBinding))
                else match hostByNodeID snapshot !! nodeID with
                     | None => Ret (Err (EText "gateway: node is unavailable"))
                     | Some _ => Ret (Ok (mkRoute b nodeID EmptyString))
                     end
            end
      end
  end.

Definition resolveForward (c : ctx) (b : GateBinding) : gprog (result nodeRoute) :=
  let! r := resolveNode c b in
  match r with
  | Err err => Ret (Err err)
  | Ok route =>
      if negb (nonempty (r_nodeID route)) then Ret (Ok route)
      else
        let! epoch := call (LocateNodeEpoch c (ServiceName b) (r_nodeID route)) in
        match epoch with
        | Err err => Ret (Err err)
        | Ok epoch => Ret (Ok (mkRoute (r_binding route) (r_nodeID route) epoch))
        end
  end.

Definition route_forward (c : ctx) (r : nodeRoute) (cmd : Z) (body : bytes) : gprog (result bytes) :=
  call (NodeForward c (r_nodeID r)
          (mkForwardRequest (r_nodeID r) (r_epoch r) (Some (FromBinding (r_binding r))) cmd body)).

Definition route_disconnect (c : ctx) (r : nodeRoute) : gprog (option error) :=
  call (NodeDisconnect c (r_nodeID r) (FromBinding (r_binding r))).

(** ** gateway/forward.go *)

Definition reply (msg : Proto) (op : Z) (c : code) (body : bytes) : Proto :=
  msg <| Op := op |> <| Code := code_Z c |> <| Body := body |>.

Definition forward (sid : nat) (msg : Proto) : gprog Proto :=
  let! now := call Now in
  let! r := call (RouteOf sid now) in
  match r with
  | (_, false) =>
      let! _ := call (CloseSess sid) in
      Ret (reply msg OpResponse Unauthenticated [])
  | (b, true) =>
      let! route := resolveForward RpcCtx b in
      match route with
      | Err err => Ret (reply msg OpResponse (forwardStatusCode err) [])
      | Ok route =>
          let! res := route_forward RpcCtx route (Cmd msg) (Body msg) in
          match res with
          | Err err => Ret (reply msg OpResponse (status_code err) [])
          | Ok body =>
              let msg := reply msg OpResponse OK body in
              if validExternalFrame msg then Ret msg
              else Ret (reply msg OpResponse ResourceExhausted [])
          end
      end
  end.

Definition notifyDisconnect (c : ctx) (b : GateBinding) : gprog unit :=
  let! r := resolveNode c b in
  match r with
  | Err _ => Ret tt
  | Ok route => let! _ := route_disconnect c route in Ret tt
  end.

(** ** gateway/delivery.go *)

(** Failures are only logged. *)
Definition unbindGate (c : ctx) (b : GateBinding) : gprog unit :=
  let! _ := call (Unbind c b) in Ret tt.

Definition push (b : GateBinding) (msg : Proto) : gprog (option error) :=
  if negb (ValidGateBinding b) || negb (Op msg =? OpPush) || negb (ownsBinding b)
  then Ret (Some (ESentinel ErrInvalidPush))
  else if negb (validExternalFrame msg) then Ret (Some (ESentinel ErrFrameTooLarge))
  else
    let! sess := call (Get (ConnID b)) in
    match sess with
    | None => Ret (Some (ESentinel ErrConnectionMissing))
    | Some sid =>
        let! r := call (Send sid b msg) in
        match r with
        | (false, _) => Ret (Some (ESentinel ErrBindingChanged))
        | (true, None) => Ret None
        | (true, Some err) =>
            Ret (Some (if errors_Is err ErrFrameTooLarge then ESentinel ErrFrameTooLarge
                       else if errors_Is err ErrSendQueueFull then ESentinel ErrConnectionBusy
                       else ESentinel ErrConnectionUnavailable))
        end
    end.

Definition kick (b : GateBinding) (code : Z) : gprog (option error) :=
  if negb (ValidGateBinding b) || negb (ownsBinding b) || (code =? 0)
  then Ret (Some (ESentinel ErrInvalidKick))
  else
    let! sess := call (Get (ConnID b)) in
    match sess with
    | None => Ret None
    | Some sid =>
        let! ok := call (DetachKick sid b) in
        if negb ok then Ret None
        else
          let! _ := call (RemoveConnOf sid) in
          let! err := call (CloseWith Cleanup sid (mkProto OpKick 0 code 0 [])) in
          let! _ := (match err with Some _ => call (CloseSess sid) | None => Ret None end) in
          let! _ := unbindGate Cleanup b in
          Ret None
    end.

(** The RPC service; a nil request is [None]. *)
Definition Push (req : option (option GateRoute * Z * bytes)) : gprog (option error) :=
  match req with
  | None => Ret (Some (EStatus InvalidArgument "invalid push request"))
  | Some (route, cmd, body) =>
      let! err := push (ToBinding route) (mkProto OpPush 0 0 cmd body) in
      Ret (rpcError <$> err)
  end.

Definition Kick (req : option (option GateRoute * Z)) : gprog (option error) :=
  match req with
  | None => Ret (Some (EStatus InvalidArgument "invalid kick request"))
  | Some (route, code) =>
      let! err := kick (ToBinding route) code in
      Ret (rpcError <$> err)
  end.

(** ** gateway/inbound.go *)

Definition Open (c : nat) (connID : string) : gprog (option error) := call (Add c connID).

Definition Close (c : nat) (connID : string) : gprog unit :=
  let! sess := call (Remove connID c) in
  match sess with
  | None => Ret tt
  | Some sid =>
      let! b := call (DetachClose sid) in
      if negb (ValidGateBinding b) then Ret tt
      else
        let! _ := unbindGate Cleanup b in
        notifyDisconnect Cleanup b
  end.

Definition authenticateUID (svc : string) (token : bytes) : gprog (result string) :=
  let! remoteIP := call RemoteIP in
  let! r := call (Authenticate AuthCtx svc token remoteIP) in
  match r with
  | Err err =>
      Ret (Err (if errors_Is err ErrInvalidCredentials then EStatus Unauthenticated "authentication failed"
                else if errors_Is err CtxCanceled then EStatus Canceled "context canceled"
                else if errors_Is err CtxDeadlineExceeded then EStatus DeadlineExceeded "context deadline exceeded"
                else EStatus Unavailable "authentication unavailable"))
  | Ok uid =>
      if negb (ValidUID uid) then Ret (Err (EStatus Unauthenticated "authentication failed")) else Ret (Ok uid)
  end.

Definition authenticationFenceCode (sid : nat) : gprog code :=
  let! err := call (CtxErr AuthCtx) in
  if err_is err CtxDeadlineExceeded then Ret DeadlineExceeded
  else
    let! late := call (PastDeadline sid) in
    if negb late then
      let! err := call (CtxErr AuthCtx) in
      Ret (match err with Some _ => Canceled | None => Aborted end)
    else Ret DeadlineExceeded.

Definition kickPrevious (previous : GateBinding) : gprog unit :=
  if decide (GateID previous = id)
  then let! _ := kick previous KickCodeSessionReplaced in Ret tt
  else let! _ := call (KickRemote Cleanup previous KickCodeSessionReplaced) in Ret tt.

(** From the admission on; the reply code. *)
Definition authenticate_bind (sid : nat) (b : GateBinding) : gprog code :=
  let! ok := call (AdmitAuth sid) in
  if negb ok then authenticationFenceCode sid
  else defer (call AuthDone) (
    let! boundAt := call Now in
    let! r := call (Bind AuthCtx b leaseTTL) in
    match r with
    | Err err => Ret (locateStatusCode err)
    | Ok (lease, previous) =>
        let! ok := call (CommitAuth sid lease boundAt) in
        if negb ok then
          let! c := authenticationFenceCode sid in
          let! _ := unbindGate Cleanup (Binding lease) in
          Ret c
        else
          match previous with
          | None => Ret OK
          | Some previous =>
              if decide (previous = Binding lease) then Ret OK
              else let! _ := kickPrevious previous in Ret OK
          end
    end).

Definition authenticate (sid : nat) (msg : Proto) : gprog Proto :=
  let body := Body msg in
  let done c := reply msg OpAuthReply c [] in
  let! connID := call (ConnIDOf sid) in
  let! ok := call Accepting in
  if negb ok then Ret (done Unauthenticated)
  else match decodeAuth body with
  | Err _ => Ret (done Unauthenticated)
  | Ok (svc, token) =>
      if negb (ValidServiceName svc) then Ret (done Unauthenticated)
      else
        let! r := authenticateUID svc token in
        match r with
        | Err err => Ret (done (status_code err))
        | Ok uid =>
            let! token := call Uuid in
            let! c := authenticate_bind sid (mkGateBinding svc uid id endpoint connID token) in
            Ret (done c)
        end
  end.

Definition heartbeat (sid : nat) : gprog (option error) :=
  let! now := call Now in
  let! r := call (HeartbeatRoute sid now (leaseTTL `quot` 2)) in
  match r with
  | (_, false, _) =>
      let! _ := call (CloseSess sid) in
      Ret (Some (EStatus Aborted "session lease expired"))
  | (_, true, false) => Ret None
  | (b, true, true) =>
      let! r := call (Renew RenewCtx b leaseTTL) in
      match r with
      | Ok lease =>
          let! _ := call (FinishHeartbeat sid b now (TTL lease)) in
          Ret None
      | Err err =>
          match locateStatusCode err with
          | Aborted =>
              let! _ := call (CloseSess sid) in Ret (Some (EStatus Aborted "session binding changed"))
          | Internal =>
              let! _ := call (CloseSess sid) in Ret (Some (EStatus Internal "invalid Gate location state"))
          | Canceled => Ret (Some (EStatus Canceled "context canceled"))
          | _ => Ret None
          end
      end
  end.

Definition Heartbeat (connID : string) : gprog (option error) :=
  let! sess := call (Get connID) in
  match sess with
  | None => Ret (Some (EText "connection is not registered"))
  | Some sid =>
      let! _ := call (Lock HeartbeatMu sid) in
      defer (call (Unlock HeartbeatMu sid)) (heartbeat sid)
  end.

Definition Handle (c : nat) (connID : string) (msg : Proto) : gprog (result Proto) :=
  if Op msg =? OpHeartbeat then
    let! err := Heartbeat connID in
    Ret (match err with
         | Some err => Err err
         | None => Ok (msg <| Op := OpHeartbeatReply |> <| Body := [] |>)
         end)
  else
    let! sess := call (Get connID) in
    match sess with
    | None => Ret (Err (EText "connection is not registered"))
    | Some sid =>
        let! _ := call (Lock HandlerMu sid) in
        defer (call (Unlock HandlerMu sid)) (
          if Op msg =? OpAuth then
            let! ok := call (BeginAuth sid) in
            if negb ok then
              let! _ := call (CloseConn c) in Ret (Err (EText "authentication already attempted"))
            else let! msg := authenticate sid msg in Ret (Ok msg)
          else if Op msg =? OpRequest then
            let! msg := forward sid msg in Ret (Ok msg)
          else
            let! _ := call (CloseConn c) in Ret (Err (EText "unsupported client operation")))
    end.

(** ** gateway/lifecycle.go: drainSession *)

Definition drainSession (sid : nat) : gprog unit :=
  let! b := call (DetachClose sid) in
  let! _ := call (CloseWith Cleanup sid (mkProto OpKick 0 KickCodeServerShutdown 0 [])) in
  let! _ := call (CloseSess sid) in
  if negb (ValidGateBinding b) then Ret tt
  else
    let! late := call (CtxErr Cleanup) in
    match late with
    | Some _ => Ret tt
    | None =>
        let! _ := unbindGate Cleanup b in
        let! late := call (CtxErr Cleanup) in
        match late with
        | Some _ => Ret tt
        | None => notifyDisconnect Cleanup b
        end
    end.

(** ** What the calls promise, and when they are allowed

    The history of a goroutine: the binding it must still give back to the
    store, the session whose only authentication it runs, the session it took
    out of the registry and must detach, the one it detached for a kick, the
    authentications it counts for, the locks it holds, the token it drew, the
    valid binding it read, and the last node location and epoch it read. *)

Record hist := mkHist {
  owned : option GateBinding;
  begun : option nat;
  todo : option nat;
  spent : option nat;
  auths : Z;
  uuid : option string;
  holdH : option nat;
  holdB : option nat;
  routed : option GateBinding;
  located : option (string * string * string);
  epoched : option (string * string * string);
  expired : bool;                           (* a cleanup context was found done *)
}.
#[export] Instance eta_hist : Eta hist := λ h,
  mkHist (owned h) (begun h) (todo h) (spent h) (auths h) (uuid h) (holdH h) (holdB h) (routed h)
    (located h) (epoched h) (expired h).

Definition hist0 : hist := mkHist None None None None 0 None None None None None None false.

Definition hold (m : mutex) (h : hist) : option nat := match m with HandlerMu => holdH h | HeartbeatMu => holdB h end.
Definition set_hold (m : mutex) (v : option nat) (h : hist) : hist :=
  match m with HandlerMu => h <| holdH := v |> | HeartbeatMu => h <| holdB := v |> end.

(** The history after a call and its answer. *)
Definition record (e : eff) : ans e → hist → hist :=
  match e return ans e → hist → hist with
  | Lock m sid => λ _ h, set_hold m (Some sid) h
  | Unlock m _ => λ _ h, set_hold m None h
  | BeginAuth sid => λ ok h, if ok then h <| begun := Some sid |> else h
  | AdmitAuth _ => λ ok h, if ok then h <| auths := auths h + 1 |> else h
  | AuthDone => λ _ h, h <| auths := auths h - 1 |>
  | CommitAuth _ _ _ => λ ok h, if ok then h <| owned := None |> <| begun := None |> else h
  | Remove _ _ => λ r h, match r with Some sid => h <| todo := Some sid |> | None => h end
  | DetachClose _ => λ b h,
      h <| todo := None |> <| owned := if decide (b = zero_binding) then None else Some b |>
  | DetachKick sid b => λ ok h, if ok then h <| owned := Some b |> <| spent := Some sid |> else h
  | RouteOf _ _ => λ r h, h <| routed := if r.2 then Some r.1 else None |>
  | CtxErr Cleanup => λ r h, match r with Some _ => h <| expired := true |> | None => h end
  | Uuid => λ t h, h <| uuid := Some t |>
  | Bind _ b _ => λ r h, match r with Ok _ => h <| owned := Some b |> <| uuid := None |> | Err _ => h <| uuid := None |> end
  | Unbind _ _ => λ _ h, h <| owned := None |>
  | LocateNode _ svc uid => λ r h,
      h <| located := match r with Ok node => Some (svc, uid, node) | Err _ => None end |>
  | LocateNodeEpoch _ svc node => λ r h,
      h <| epoched := match r with Ok ep => Some (svc, node, ep) | Err _ => None end |>
  | _ => λ _ h, h
  end.

(** What the surroundings promise of an answer: the store binds what it was
    given, valid, and a connection belongs to one session. *)
Definition promised (e : eff) : ans e → Prop :=
  match e return ans e → Prop with
  | Bind _ b _ => λ r, match r with Ok (lease, _) => Binding lease = b ∧ ValidGateBinding b = true | Err _ => True end
  | Remove _ c => λ r, match r with Some sid => sid = c | None => True end
  | DetachClose _ => λ b, b = zero_binding ∨ ValidGateBinding b = true
  | RouteOf _ _ => λ r, r.2 = true → ValidGateBinding r.1 = true
  | _ => λ _, True
  end.

Definition rel (e : eff) (x : ans e) (h h' : hist) : Prop := h' = record e x h ∧ promised e x.

Definition claim_ok (svc uid : string) (req : ForwardRequest) (h : hist) : Prop :=
  f_NodeId req = EmptyString ∧ f_NodeEpoch req = EmptyString ∨
  located h = Some (svc, uid, f_NodeId req) ∧ epoched h = Some (svc, f_NodeId req, f_NodeEpoch req).

Definition allowed (e : eff) (h : hist) : Prop :=
  match e with
  | Lock m _ => hold m h = None
  | Unlock m sid => hold m h = Some sid
  | BeginAuth sid => holdH h = Some sid ∧ begun h = None
  | AdmitAuth sid => begun h = Some sid ∧ auths h = 0
  | AuthDone => auths h = 1
  | Bind c b ttl =>
      c = AuthCtx ∧ begun h ≠ None ∧ auths h = 1 ∧ owned h = None ∧ uuid h = Some (BindingToken b) ∧
      ownsBinding b = true ∧ ttl = leaseTTL
  | Uuid => uuid h = None
  | CommitAuth sid lease _ => begun h = Some sid ∧ owned h = Some (Binding lease)
  | Remove _ _ => todo h = None ∧ owned h = None
  | DetachClose sid => todo h = Some sid ∧ owned h = None
  | DetachKick _ b => owned h = None ∧ ValidGateBinding b = true ∧ ownsBinding b = true
  | RemoveConnOf sid => spent h = Some sid
  | Unbind c b => c = Cleanup ∧ owned h = Some b
  | Send _ b msg =>
      ValidGateBinding b = true ∧ ownsBinding b = true ∧ Op msg = OpPush ∧ validExternalFrame msg = true
  | NodeForward _ node req =>
      ∃ b, routed h = Some b ∧ ValidGateBinding b = true ∧ f_Route req = Some (FromBinding b) ∧
           f_NodeId req = node ∧ claim_ok (ServiceName b) (UID b) req h
  | _ => True
  end.

(** At the end nothing is owed: no session to detach, no authentication
    counted, no lock, no binding; only a drain may leave a binding to expire,
    when its budget is spent. *)
Definition settled (drain : bool) (h : hist) : Prop :=
  todo h = None ∧ auths h = 0 ∧ holdH h = None ∧ holdB h = None ∧
  (owned h = None ∨ drain = true ∧ expired h = true).

Definition returned {A} (drain : bool) (_ : A) (h : hist) : Prop := settled drain h.

(** ** Verification of the entry points *)

Abbreviation gwp := (wp allowed rel).

Ltac gstep := apply wp_call; [try done|intros ? ? [-> ?]; cbn [record promised] in *].
Ltac gbranch :=
  lazymatch goal with
  | |- wp _ _ (if negb ?b then _ else _) _ _ => destruct b eqn:?; cbn [negb]
  | |- wp _ _ (if ?b then _ else _) _ _ => destruct b eqn:?
  | |- wp _ _ (match ?x with _ => _ end) _ _ => destruct x eqn:?
  end.

Ltac settle := unfold returned, settled; simpl; split_and!; auto; congruence.

(** What routing leaves alone. *)
Definition debts (h : hist) :=
  (owned h, begun h, todo h, spent h, auths h, uuid h, holdH h, holdB h, routed h).

Ltac undebt H := unfold debts in H; simpl in H; injection H; clear H; intros.

Lemma wp_ctx c Q h :
  (∀ r h', debts h' = debts h → (c ≠ Cleanup → h' = h) → Q r h') → gwp (call (CtxErr c)) Q h.
Proof. intros HQ. gstep. apply HQ; destruct c; try done; first [by case_match|by intros []]. Qed.

Lemma wp_resolveNode c b Q h :
  (∀ e h', debts h' = debts h → Q (Err e) h') →
  (∀ route h', debts h' = debts h → r_binding route = b → r_epoch route = EmptyString →
     r_nodeID route = EmptyString ∨ located h' = Some (ServiceName b, UID b, r_nodeID route) → Q (Ok route) h') →
  gwp (resolveNode c b) Q h.
Proof.
  intros H1 H2. unfold resolveNode. apply wp_bind, wp_ctx. intros r h' Hd _. gbranch; [by apply wp_ret, H1|].
  apply wp_bind. gstep. gbranch; [|by apply wp_ret, H1]. gbranch; [|by apply wp_ret, H1].
  gbranch; [|by apply wp_ret, H2; auto]. apply wp_bind. gstep. gbranch.
  - gbranch; [|by apply wp_ret, H1]. gbranch; [apply wp_ret, H2; auto|by apply wp_ret, H1].
  - gbranch; [apply wp_ret, H2; auto|by apply wp_ret, H1].
Qed.

Lemma wp_notifyDisconnect c b Q h :
  (∀ h', debts h' = debts h → Q tt h') → gwp (notifyDisconnect c b) Q h.
Proof.
  intros HQ. unfold notifyDisconnect. apply wp_bind, wp_resolveNode; [intros; by apply wp_ret, HQ|].
  intros route h' Hd _ _ _. apply wp_bind. gstep. by apply wp_ret, HQ.
Qed.

Lemma wp_unbindGate b Q h :
  owned h = Some b → Q tt (h <| owned := None |>) → gwp (unbindGate Cleanup b) Q h.
Proof. intros Ho HQ. unfold unbindGate. apply wp_bind. gstep. by apply wp_ret. Qed.

Lemma wp_forward sid msg Q h :
  (∀ m h', debts (h' <| routed := routed h |>) = debts h → Q m h') → gwp (forward sid msg) Q h.
Proof.
  intros HQ. unfold forward. apply wp_bind. gstep. apply wp_bind. gstep. destruct x0 as [b [|]]; simpl in *.
  - apply wp_bind. unfold resolveForward. apply wp_bind, wp_resolveNode.
    + intros e h' Hd. apply wp_ret, wp_ret, HQ. unfold debts in *; simpl in *. congruence.
    + intros route h' Hd Hb He Hl. unfold debts in Hd; simpl in Hd. simplify_eq. gbranch.
      * apply wp_bind. gstep. gbranch; [|apply wp_ret, wp_ret, HQ; unfold debts; simpl; congruence].
        apply wp_ret. apply wp_bind, wp_call.
        { exists (r_binding route). simpl. split_and!; auto. right. destruct Hl as [Hl|Hl]; [|done].
          rewrite Hl in *. done. }
        intros ? ? [-> _]. cbn [record].
        gbranch; [gbranch|]; apply wp_ret, HQ; unfold debts; simpl; congruence.
      * apply wp_ret. apply wp_bind, wp_call.
        { exists (r_binding route). simpl. split_and!; auto. left. rewrite He. unfold nonempty in *.
          by destruct (r_nodeID route). }
        intros ? ? [-> _]. cbn [record].
        gbranch; [gbranch|]; apply wp_ret, HQ; unfold debts; simpl; congruence.
  - apply wp_bind. gstep. by apply wp_ret, HQ.
Qed.

Lemma wp_push b msg Q h : (∀ r, Q r h) → gwp (push b msg) Q h.
Proof.
  intros HQ. unfold push. gbranch; [by apply wp_ret|]. to_prop. gbranch; [|by apply wp_ret].
  apply wp_bind. gstep. gbranch; [|by apply wp_ret]. apply wp_bind. gstep.
  destruct x0 as [[|] [|]]; by apply wp_ret.
Qed.

Lemma wp_kick b code Q h :
  owned h = None → (∀ r h', debts (h' <| spent := spent h |>) = debts h → Q r h') → gwp (kick b code) Q h.
Proof.
  intros Ho HQ. unfold kick. gbranch; [by apply wp_ret, HQ|]. to_prop.
  apply wp_bind. gstep. gbranch; [|by apply wp_ret, HQ].
  apply wp_bind. gstep. gbranch; [|by apply wp_ret, HQ].
  apply wp_bind. gstep. apply wp_bind. gstep.
  apply wp_bind. gbranch; [gstep|apply wp_ret].
  all: apply wp_bind, wp_unbindGate; [done|]; apply wp_ret, HQ; unfold debts; simpl; congruence.
Qed.

Lemma wp_fenceCode sid Q h : (∀ c, Q c h) → gwp (authenticationFenceCode sid) Q h.
Proof.
  intros HQ. unfold authenticationFenceCode. apply wp_bind, wp_ctx. intros r h' _ Hh. rewrite Hh by done.
  gbranch; [by apply wp_ret|]. apply wp_bind. gstep. gbranch; [by apply wp_ret|].
  apply wp_bind, wp_ctx. intros r' h'' _ Hh'. rewrite Hh' by done. by apply wp_ret.
Qed.

(** What the authentication hands back: nothing owned, nothing counted. *)
Definition authed (h h' : hist) : Prop :=
  owned h' = None ∧ auths h' = 0 ∧ todo h' = todo h ∧ holdH h' = holdH h ∧ holdB h' = holdB h.

Lemma wp_authenticate_bind sid b Q h :
  begun h = Some sid → auths h = 0 → owned h = None → uuid h = Some (BindingToken b) → ownsBinding b = true →
  (∀ c h', authed h h' → Q c h') → gwp (authenticate_bind sid b) Q h.
Proof.
  intros Hb Ha Ho Hu Hown HQ. unfold authenticate_bind. apply wp_bind. gstep. gbranch.
  2: { apply wp_fenceCode. intros c. by apply HQ. }
  apply wp_defer.
  assert (Hend : ∀ c h', owned h' = None → auths h' = 1 → todo h' = todo h → holdH h' = holdH h → holdB h' = holdB h →
    wp allowed rel (call AuthDone) (λ _, Q c) h').
  { intros c h' H1 H2 H3 H4 H5. gstep. apply HQ. unfold authed; simpl. split_and!; try done. lia. }
  apply wp_bind. gstep. apply wp_bind, wp_call.
  { simpl. split_and!; try done; [by rewrite Hb|lia]. }
  intros r ? [-> Hp]. cbn [record promised] in *. destruct r as [[lease previous]|err].
  2: { apply wp_ret, Hend; simpl; try done. lia. }
  destruct Hp as [Hlb Hv]. apply wp_bind, wp_call; [simpl; by rewrite Hlb|]. intros ok ? [-> _]. cbn [record]. gbranch.
  - gbranch; [|apply wp_ret, Hend; simpl; try done; lia].
    gbranch; [apply wp_ret, Hend; simpl; try done; lia|].
    apply wp_bind. unfold kickPrevious. gbranch.
    + apply wp_bind, wp_kick; [done|]. intros r h' Hd. apply wp_ret, wp_ret.
      undebt Hd. apply Hend; try congruence. lia.
    + apply wp_bind. gstep. apply wp_ret, wp_ret, Hend; simpl; try done; lia.
  - apply wp_bind, wp_fenceCode. intros c. apply wp_bind, wp_unbindGate; [simpl; by rewrite Hlb|].
    apply wp_ret, Hend; simpl; try done; lia.
Qed.

Lemma wp_authenticate sid msg Q h :
  begun h = Some sid → auths h = 0 → owned h = None → uuid h = None →
  (∀ m h', authed h h' → Q m h') → gwp (authenticate sid msg) Q h.
Proof.
  intros Hb Ha Ho Hu HQ. unfold authenticate. apply wp_bind. gstep. apply wp_bind. gstep.
  gbranch; [|by apply wp_ret, HQ]. gbranch; [|by apply wp_ret, HQ]. gbranch. gbranch; [|by apply wp_ret, HQ].
  apply wp_bind. unfold authenticateUID. apply wp_bind. gstep. apply wp_bind. gstep. gbranch.
  - gbranch; apply wp_ret; [|by apply wp_ret, HQ].
    apply wp_bind. gstep. apply wp_bind, wp_authenticate_bind; simpl; try done.
    { unfold ownsBinding; simpl. by rewrite !bool_decide_true. }
    intros c h' Hau. apply wp_ret, HQ. exact Hau.
  - apply wp_ret. by apply wp_ret, HQ.
Qed.

Lemma wp_heartbeat sid Q h : (∀ r, Q r h) → gwp (heartbeat sid) Q h.
Proof.
  intros HQ. unfold heartbeat. apply wp_bind. gstep. apply wp_bind. gstep. destruct x0 as [[b [|]] [|]].
  - apply wp_bind. gstep. gbranch; [apply wp_bind; gstep; by apply wp_ret|].
    gbranch; try (by apply wp_ret); apply wp_bind; gstep; by apply wp_ret.
  - by apply wp_ret.
  - apply wp_bind. gstep. by apply wp_ret.
  - apply wp_bind. gstep. by apply wp_ret.
Qed.

Lemma wp_Heartbeat connID Q h :
  holdB h = None → (∀ r h', debts h' = debts h → Q r h') → gwp (Heartbeat connID) Q h.
Proof.
  intros Hh HQ. unfold Heartbeat. apply wp_bind. gstep. gbranch; [|by apply wp_ret, HQ].
  apply wp_bind. gstep. apply wp_defer, wp_heartbeat. intros r. gstep. apply HQ. unfold debts; simpl. congruence.
Qed.

Lemma wp_Handle c connID msg : gwp (Handle c connID msg) (returned false) hist0.
Proof.
  unfold Handle. gbranch.
  - apply wp_bind, wp_Heartbeat; [done|]. intros r h Hd. apply wp_ret.
    undebt Hd. settle.
  - apply wp_bind. gstep. gbranch; [|apply wp_ret; settle].
    apply wp_bind. gstep. apply wp_defer.
    assert (Hend : ∀ (r : result Proto) h', owned h' = None → auths h' = 0 → todo h' = None →
      holdH h' = Some n → holdB h' = None → wp allowed rel (call (Unlock HandlerMu n)) (λ _, returned false r) h').
    { intros r h' H1 H2 H3 H4 H5. gstep. settle. }
    gbranch; [|gbranch].
    + apply wp_bind. gstep. gbranch; [|apply wp_bind; gstep; by apply wp_ret, Hend].
      apply wp_bind, wp_authenticate; try done. intros m h' (? & ? & ? & ? & ?). by apply wp_ret, Hend.
    + apply wp_bind, wp_forward. intros m h' Hd. undebt Hd.
      by apply wp_ret, Hend.
    + apply wp_bind. gstep. by apply wp_ret, Hend.
Qed.

Lemma zero_invalid : ValidGateBinding zero_binding = false.
Proof. done. Qed.

Lemma wp_Close c connID : gwp (Close c connID) (returned false) hist0.
Proof.
  unfold Close. apply wp_bind. gstep. gbranch; [|apply wp_ret; settle].
  apply wp_bind. gstep. gbranch.
  - destruct (decide (x0 = zero_binding)) as [->|Hz]; [by rewrite zero_invalid in *|].
    apply wp_bind, wp_unbindGate; [done|].
    apply wp_notifyDisconnect. intros h' Hd. undebt Hd.
    settle.
  - apply wp_ret. unfold returned, settled; simpl. split_and!; try done. left.
    by destruct H0 as [->|H0].
Qed.

Lemma wp_drainSession sid : gwp (drainSession sid) (returned true) (hist0 <| todo := Some sid |>).
Proof.
  unfold drainSession. apply wp_bind. gstep. apply wp_bind. gstep. apply wp_bind. gstep. gbranch.
  - destruct (decide (x = zero_binding)) as [->|Hz]; [by rewrite zero_invalid in *|].
    apply wp_bind. gstep. gbranch; [apply wp_ret; settle|].
    apply wp_bind, wp_unbindGate; [done|].
    apply wp_bind. gstep. gbranch; [apply wp_ret; settle|].
    apply wp_notifyDisconnect. intros h' Hd. undebt Hd.
    settle.
  - apply wp_ret. unfold returned, settled; simpl. split_and!; try done. left.
    by destruct H as [->|H].
Qed.

Lemma wp_Push_rpc req : gwp (Push req) (returned false) hist0.
Proof.
  unfold Push. gbranch; [|apply wp_ret; settle].
  destruct p as [[route cmd] body]. apply wp_bind, wp_push. intros r. apply wp_ret. settle.
Qed.

Lemma wp_Kick req : gwp (Kick req) (returned false) hist0.
Proof.
  unfold Kick. gbranch; [|apply wp_ret; settle].
  destruct p as [route code]. apply wp_bind, wp_kick; [done|]. intros r h' Hd. apply wp_ret.
  undebt Hd. settle.
Qed.

Lemma wp_Open c connID : gwp (Open c connID) (returned false) hist0.
Proof. unfold Open. gstep. settle. Qed.

Lemma wp_Heartbeat_entry connID : gwp (Heartbeat connID) (returned false) hist0.
Proof.
  apply wp_Heartbeat; [done|]. intros r h' Hd. undebt Hd.
  settle.
Qed.

End Server.
