(* ===== verification/GatewaySystem.v ===== *)
(** * A Gateway at work

    The programs of Gateway run by any number of goroutines over one registry
    of sessions, with connections coming and going, the clock advancing and the
    server shutting down ([beginShutdown], [quiesce] and [takeAll] of
    gateway/lifecycle.go).  What is proved is about the whole system: no
    binding is lost or given back twice, no push reaches a session that does
    not hold the binding, and no binding is made once shutdown has waited for
    the authentications. *)

From S2P Require Import Prelude Errors Resolver Prog Proto Locate Node GatewaySession Gateway.

Section System.
Context (kratosCode : Z → code) (decodeAuth : bytes → result (string * bytes)) (protoSize : Proto → Z)
        (id endpoint : string) (leaseTTL authTimeout : Z).

(** ** Shared state *)

(** [locksH] and [locksB]: sessions whose [handlerMu] and [heartbeatMu] are
    held; [drawn]: the uuids drawn.  The ledger of the gateway's bindings:
    [bound], those the store reported bound; [doubtful], those of a call that
    returned an error, which the store may have made if only the reply was
    lost; [unbound], those the gateway asked the store to remove, and
    [refused], those of them for which the store returned an error, so that
    they may still be there until their lease ends. *)
Record world := mkWorld {
  reg : sessionRegistry;
  heap : gmap nat session;
  now : Z;
  locksH : gset nat;
  locksB : gset nat;
  drawn : gset string;
  bound : list GateBinding;
  doubtful : list GateBinding;
  unbound : list GateBinding;
  refused : list GateBinding;
}.
#[export] Instance eta_world : Eta world := λ w,
  mkWorld (reg w) (heap w) (now w) (locksH w) (locksB w) (drawn w) (bound w) (doubtful w) (unbound w) (refused w).

Definition put (sid : nat) (se : session) (w : world) : world := w <| heap := <[sid := se]> (heap w) |>.

Definition locks (m : mutex) (w : world) : gset nat := match m with HandlerMu => locksH w | HeartbeatMu => locksB w end.
Definition set_locks (m : mutex) (l : gset nat) (w : world) : world :=
  match m with HandlerMu => w <| locksH := l |> | HeartbeatMu => w <| locksB := l |> end.

(** What a call does.  [Open] is called once per connection value, and a
    session is known by the number of its connection. *)
Definition act (e : eff) : ans e → world → world → Prop :=
  match e return ans e → world → world → Prop with
  | Add c cid => λ err w w', heap w !! c = None ∧ err = (add c cid (reg w)).2 ∧
      w' = match (add c cid (reg w)).2 with
           | None => put c (newSession (now w) c cid authTimeout) (w <| reg := (add c cid (reg w)).1 |>)
           | Some _ => w
           end
  | Get cid => λ r w w', r = get cid (reg w) ∧ w' = w
  | Accepting => λ ok w w', ok = isAccepting (reg w) ∧ w' = w
  | Lock m sid => λ _ w w', (sid ∉ locks m w) ∧ w' = set_locks m (locks m w ∪ {[sid]}) w
  | Unlock m sid => λ _ w w', w' = set_locks m (locks m w ∖ {[sid]}) w
  | BeginAuth sid => λ ok w w', ∃ se, heap w !! sid = Some se ∧ ok = (beginAuthentication se).2 ∧
      w' = put sid (beginAuthentication se).1 w
  | AdmitAuth sid => λ ok w w', ∃ se ctxErr, heap w !! sid = Some se ∧
      ok = (admitAuthentication ctxErr (now w) sid se (reg w)).2 ∧
      w' = w <| reg := (admitAuthentication ctxErr (now w) sid se (reg w)).1 |>
  | CommitAuth sid lease boundAt => λ ok w w', ∃ se ctxErr t, heap w !! sid = Some se ∧ now w ≤ t ∧
      ok = (commitAuthentication ctxErr (now w) t sid lease boundAt (reg w) se).2 ∧
      w' = put sid (commitAuthentication ctxErr (now w) t sid lease boundAt (reg w) se).1 (w <| now := t |>)
  | AuthDone => λ _ w w', w' = w <| reg := (reg w) <| authentications := authentications (reg w) - 1 |> |>
  | PastDeadline sid => λ b w w', (∃ se, heap w !! sid = Some se ∧ b = negb (now w <? authDeadline se)) ∧ w' = w
  | Remove cid c => λ r w w', r = (remove cid c (heap w) (reg w)).2 ∧
      w' = w <| reg := (remove cid c (heap w) (reg w)).1 |>
  | RemoveConnOf sid => λ r w w', ∃ se, heap w !! sid = Some se ∧
      r = (remove (connID se) (conn se) (heap w) (reg w)).2 ∧
      w' = w <| reg := (remove (connID se) (conn se) (heap w) (reg w)).1 |>
  | DetachClose sid => λ b w w', (sid ∉ locksH w) ∧ (sid ∉ locksB w) ∧
      ∃ se, heap w !! sid = Some se ∧ b = (detachForClose se).2 ∧ w' = put sid (detachForClose se).1 w
  | DetachKick sid b => λ ok w w', ∃ se, heap w !! sid = Some se ∧
      ok = (detachForKick (now w) b se).2 ∧ w' = put sid (detachForKick (now w) b se).1 w
  | Send sid b msg => λ r w w', (∃ se, heap w !! sid = Some se ∧ r.1 = sendIfCurrent (now w) b se) ∧ w' = w
  | RouteOf sid t => λ r w w', (∃ se, heap w !! sid = Some se ∧ r = route t se) ∧ w' = w
  | HeartbeatRoute sid t iv => λ r w w', (∃ se, heap w !! sid = Some se ∧ r = heartbeatRoute t iv se) ∧ w' = w
  | FinishHeartbeat sid b at_ ttl => λ _ w w', ∃ se, heap w !! sid = Some se ∧
      w' = put sid (finishHeartbeat b at_ ttl se) w
  | Now => λ t w w', t = now w ∧ w' = w
  | ConnIDOf sid => λ s w w', (∃ se, heap w !! sid = Some se ∧ s = connID se) ∧ w' = w
  | Uuid => λ t w w', (t ∉ drawn w) ∧ w' = w <| drawn := drawn w ∪ {[t]} |>
  | Bind c b ttl => λ r w w',
      match r with
      | Ok (lease, _) => Binding lease = b ∧ ValidGateBinding b = true ∧ w' = w <| bound := b :: bound w |>
      | Err _ => w' = w <| doubtful := b :: doubtful w |>
      end
  | Unbind c b => λ err w w',
      w' = w <| unbound := b :: unbound w |>
             <| refused := match err with Some _ => b :: refused w | None => refused w end |>
  | _ => λ _ w w', w' = w
  end.

(** ** The system *)

Record thread := mkThread { draining : bool; body : gprog unit; hist_of : hist }.

Record gate := mkGate {
  wd : world;
  threads : gmap nat thread;
  shut : bool;                              (* shutdown began *)
  todrain : gset nat;                       (* sessions taken by [takeAll], not yet drained *)
}.
#[export] Instance eta_gate : Eta gate := λ g, mkGate (wd g) (threads g) (shut g) (todrain g).

Definition run {A} (p : gprog A) : gprog unit := pbind p (λ _, Ret tt).

Inductive entry_point : gprog unit → Prop :=
| ep_open c cid : entry_point (run (Open c cid))
| ep_close c cid : entry_point (run (Close c cid))
| ep_handle c cid msg : entry_point (run (Handle kratosCode decodeAuth protoSize id endpoint leaseTTL c cid msg))
| ep_heartbeat cid : entry_point (run (Heartbeat leaseTTL cid))
| ep_push req : entry_point (run (Push protoSize id endpoint req))
| ep_kick req : entry_point (run (Kick id endpoint req)).

Definition init_gate (g : gate) : Prop :=
  ∃ t, 0 ≤ t ∧ g = mkGate (mkWorld newRegistry ∅ t ∅ ∅ ∅ [] [] [] []) ∅ false ∅.

Definition admission_to (b : bool) (w : world) : world :=
  w <| reg := if b then openAdmission (reg w) else closeAdmission (reg w) |>.

Inductive step (g : gate) : gate → Prop :=
| g_spawn p prog :
    threads g !! p = None → entry_point prog →
    step g (g <| threads := <[p := mkThread false prog hist0]> (threads g) |>)
| g_act p d e k x h w' :
    threads g !! p = Some (mkThread d (Act e k) h) → act e x (wd g) w' →
    step g (g <| wd := w' |> <| threads := <[p := mkThread d (k x) (record e x h)]> (threads g) |>)
| g_time t : now (wd g) ≤ t → step g (g <| wd := (wd g) <| now := t |> |>)
| g_open : shut g = false → step g (g <| wd := admission_to true (wd g) |>)
| g_shut : step g (g <| wd := admission_to false (wd g) |> <| shut := true |>)
| g_take :
    shut g = true →
    step g (g <| wd := (wd g) <| reg := (takeAll (reg (wd g))).1 |> |>
              <| todrain := todrain g ∪ list_to_set (takeAll (reg (wd g))).2 |>)
| g_drain p sid :
    threads g !! p = None → sid ∈ todrain g →
    step g (g <| threads := <[p := mkThread true (run (drainSession sid)) (hist0 <| todo := Some sid |>)]> (threads g) |>
              <| todrain := todrain g ∖ {[sid]} |>).

Definition reach : gate → Prop := reachable init_gate step.

(** ** Invariant *)

Definition tsum (f : hist → Z) (m : gmap nat thread) : Z := msum (λ t, f (hist_of t)) m.

Definition begins (sid : nat) (h : hist) : Z := one (bool_decide (begun h = Some sid)).
Definition owns (b : GateBinding) (h : hist) : Z := one (bool_decide (owned h = Some b)).
Definition pends (t : string) (h : hist) : Z := one (bool_decide (uuid h = Some t)).
Definition holds (b : GateBinding) (se : session) : Z := one (bool_decide (binding se = b)).

Definition cnt (b : GateBinding) (l : list GateBinding) : Z := lsum (λ x, one (bool_decide (x = b))) l.
Definition tcnt (t : string) (l : list GateBinding) : Z := lsum (λ x, one (bool_decide (BindingToken x = t))) l.

Definition nz (o : option session) : Z :=
  match o with Some se => one (negb (bool_decide (binding se = zero_binding))) | None => 0 end.
Definition att (o : option session) : Z := match o with Some se => one (authAttempted se) | None => 0 end.

Definition is_registered (w : world) (sid : nat) (se : session) : Prop := get (connID se) (reg w) = Some sid.

Record ginv (g : gate) : Prop := mkGinv {
  gi_heap : ∀ sid se, heap (wd g) !! sid = Some se →
              conn se = sid ∧ (binding se = zero_binding ∨ ValidGateBinding (binding se) = true);
  gi_reg : ∀ cid sid, get cid (reg (wd g)) = Some sid → ∃ se, heap (wd g) !! sid = Some se ∧ connID se = cid;
  gi_once : ∀ sid, tsum (begins sid) (threads g) + nz (heap (wd g) !! sid) ≤ att (heap (wd g) !! sid);
  gi_count : ∀ b, b ≠ zero_binding →
              cnt b (bound (wd g)) =
              cnt b (unbound (wd g)) + msum (holds b) (heap (wd g)) + tsum (owns b) (threads g);
  gi_token : ∀ t, tcnt t (bound (wd g)) + tcnt t (doubtful (wd g)) + tsum (pends t) (threads g) ≤ one (bool_decide (t ∈ drawn (wd g)));
  gi_placed : ∀ sid se, heap (wd g) !! sid = Some se → binding se ≠ zero_binding →
              is_registered (wd g) sid se ∨ sid ∈ todrain g ∨
              ∃ p t, threads g !! p = Some t ∧ todo (hist_of t) = Some sid;
  gi_spent : ∀ p t sid, threads g !! p = Some t → spent (hist_of t) = Some sid →
              nz (heap (wd g) !! sid) = 0 ∧ att (heap (wd g) !! sid) = 1 ∧ tsum (begins sid) (threads g) = 0;
  gi_auths : authentications (reg (wd g)) = tsum auths (threads g);
  gi_thread : ∀ p t, threads g !! p = Some t →
              0 ≤ auths (hist_of t) ∧ ∀ b, owned (hist_of t) = Some b → ValidGateBinding b = true;
  gi_shut : shut g = true → accepting (reg (wd g)) = false;
  gi_wp : ∀ p t, threads g !! p = Some t →
              wp (allowed protoSize id endpoint leaseTTL) rel (body t) (returned (draining t)) (hist_of t);
}.

(** *** Sums over the threads *)

Lemma tsum_insert f m p t t' :
  m !! p = Some t → tsum f (<[p := t']> m) = tsum f m - f (hist_of t) + f (hist_of t').
Proof. intros H. unfold tsum. by rewrite (msum_insert _ p t). Qed.

Lemma tsum_new f m p t : m !! p = None → tsum f (<[p := t]> m) = f (hist_of t) + tsum f m.
Proof. intros H. unfold tsum. by rewrite msum_insert_new. Qed.

Lemma tsum_nonneg f m : (∀ h, 0 ≤ f h) → 0 ≤ tsum f m.
Proof. intros H. apply msum_nonneg. intros. apply H. Qed.

Lemma tsum_le f m p t : (∀ h, 0 ≤ f h) → m !! p = Some t → f (hist_of t) ≤ tsum f m.
Proof. intros Hf Hp. apply (msum_lookup_le (λ t, f (hist_of t)) p t); [|done]. intros. apply Hf. Qed.

Lemma cnt_nonneg b l : 0 ≤ cnt b l.
Proof. apply lsum_nonneg. intros. apply one_nonneg. Qed.

Lemma tcnt_nonneg t l : 0 ≤ tcnt t l.
Proof. apply lsum_nonneg. intros. apply one_nonneg. Qed.

Lemma cnt_tcnt b l : cnt b l ≤ tcnt (BindingToken b) l.
Proof.
  induction l as [|x l IH]; simpl; [done|].
  destruct (decide (x = b)) as [->|Hne]; [rewrite !bool_decide_true by done; simpl; lia|].
  rewrite (bool_decide_false (x = b)) by done. pose proof (one_nonneg (bool_decide (BindingToken x = BindingToken b))).
  simpl. lia.
Qed.

Lemma cnt_elem b l : b ∈ l ↔ 1 ≤ cnt b l.
Proof.
  induction l as [|x l IH]; simpl; [split; [by intros ?%elem_of_nil|lia]|].
  rewrite elem_of_cons, IH. pose proof (cnt_nonneg b l).
  destruct (decide (x = b)) as [->|Hne]; [rewrite bool_decide_true by done|rewrite bool_decide_false by done]; simpl.
  - split; [lia|auto].
  - split; [intros [?|?]; [congruence|lia]|intros; right; lia].
Qed.

(** The obligations of a thread that a step must account for. *)
Definition core (h : hist) := (owned h, begun h, todo h, spent h, auths h, uuid h).

Lemma todo_keep (m : gmap nat thread) p t t' sid :
  m !! p = Some t → (todo (hist_of t) = Some sid → todo (hist_of t') = Some sid) →
  (∃ p0 t0, m !! p0 = Some t0 ∧ todo (hist_of t0) = Some sid) →
  ∃ p0 t0, <[p := t']> m !! p0 = Some t0 ∧ todo (hist_of t0) = Some sid.
Proof.
  intros Hp Hk (p0 & t0 & H0 & Ht). destruct (decide (p0 = p)) as [->|Hne].
  - exists p, t'. rewrite lookup_insert_eq. simplify_eq. auto.
  - exists p0, t0. by rewrite lookup_insert_ne.
Qed.

(** A step of thread [p] to [t'] in the world [w]. *)
Section Move.
Context (g : gate) (p : nat) (t t' : thread) (w : world).
Context (Hg : ginv g) (Hp : threads g !! p = Some t).
Context (Hwp : wp (allowed protoSize id endpoint leaseTTL) rel (body t') (returned (draining t')) (hist_of t')).

Let g' : gate := g <| wd := w |> <| threads := <[p := t']> (threads g) |>.

Lemma wp_all : ∀ q u, threads g' !! q = Some u →
  wp (allowed protoSize id endpoint leaseTTL) rel (body u) (returned (draining u)) (hist_of u).
Proof.
  intros q u Hq. unfold g' in Hq; simpl in Hq. apply lookup_insert_Some in Hq as [[_ <-]|[_ Hq]]; [exact Hwp|by apply (gi_wp g Hg q)].
Qed.

Let h : hist := hist_of t.
Let h' : hist := hist_of t'.
Let hp : gmap nat session := heap (wd g).

(** What a step has to show: the change of each side of the invariant. *)
Record moves : Prop := mkMoves {
  mv_heap : ∀ sid se, heap w !! sid = Some se →
    conn se = sid ∧ (binding se = zero_binding ∨ ValidGateBinding (binding se) = true);
  mv_reg : ∀ cid sid, get cid (reg w) = Some sid → ∃ se, heap w !! sid = Some se ∧ connID se = cid;
  mv_once : ∀ sid, begins sid h' - begins sid h + nz (heap w !! sid) - nz (hp !! sid) ≤
    att (heap w !! sid) - att (hp !! sid);
  mv_count : ∀ b, b ≠ zero_binding →
    cnt b (bound w) - cnt b (bound (wd g)) =
    cnt b (unbound w) - cnt b (unbound (wd g)) + msum (holds b) (heap w) - msum (holds b) hp + owns b h' - owns b h;
  mv_token : ∀ x, tcnt x (bound w) - tcnt x (bound (wd g)) + tcnt x (doubtful w) - tcnt x (doubtful (wd g)) + pends x h' - pends x h ≤
    one (bool_decide (x ∈ drawn w)) - one (bool_decide (x ∈ drawn (wd g)));
  mv_placed : ∀ sid se, heap w !! sid = Some se → binding se ≠ zero_binding →
    is_registered w sid se ∨ todo h' = Some sid ∨
    (todo h = Some sid → todo h' = Some sid) ∧
    ∃ se0, hp !! sid = Some se0 ∧ binding se0 ≠ zero_binding ∧ (is_registered (wd g) sid se0 → is_registered w sid se);
  mv_spent : ∀ sid, nz (hp !! sid) = 0 → att (hp !! sid) = 1 → tsum (begins sid) (threads g) = 0 →
    nz (heap w !! sid) = 0 ∧ att (heap w !! sid) = 1 ∧ begins sid h' = begins sid h;
  mv_spent' : ∀ sid, spent h' = Some sid → spent h = Some sid ∨
    nz (heap w !! sid) = 0 ∧ att (heap w !! sid) = 1 ∧
    tsum (begins sid) (threads g) - begins sid h + begins sid h' = 0;
  mv_auths : authentications (reg w) - authentications (reg (wd g)) = auths h' - auths h;
  mv_thread : 0 ≤ auths h' ∧ ∀ b, owned h' = Some b → ValidGateBinding b = true;
  mv_shut : accepting (reg w) = accepting (reg (wd g));
}.

Lemma ginv_move : moves → ginv g'.
Proof.
  intros M. pose proof wp_all as Hall. destruct Hg as [H1 H2 H3 H4 H5 H6 H7 H8 H9 H10 H11].
  destruct M as [M1 M2 M3 M4 M5 M6 M7 M7' M8 M9 M10].
  split; simpl; try done.
  - intros sid. rewrite (tsum_insert _ _ p t) by done. specialize (H3 sid). specialize (M3 sid).
    unfold h, h', hp in M3. lia.
  - intros b Hz. rewrite (tsum_insert _ _ p t) by done. specialize (H4 b Hz). specialize (M4 b Hz).
    unfold h, h', hp in M4. lia.
  - intros x. rewrite (tsum_insert _ _ p t) by done. specialize (H5 x). specialize (M5 x).
    unfold h, h' in M5. lia.
  - intros sid se Hs Hz. destruct (M6 sid se Hs Hz) as [?|[Ht|[Hk (se0 & Hs0 & Hz0 & Hr)]]]; auto.
    + right; right. exists p, t'. by rewrite lookup_insert_eq.
    + destruct (H6 sid se0 Hs0 Hz0) as [?|[?|?]]; auto. right; right. by apply (todo_keep _ p t).
  - intros q u sid Hq Hs. rewrite (tsum_insert _ _ p t) by done.
    assert (Hor : (∃ q0 u0, threads g !! q0 = Some u0 ∧ spent (hist_of u0) = Some sid) ∨
                  nz (heap w !! sid) = 0 ∧ att (heap w !! sid) = 1 ∧
                  tsum (begins sid) (threads g) - begins sid h + begins sid h' = 0).
    { apply lookup_insert_Some in Hq as [[_ <-]|[_ Hq]]; [|left; eauto].
      destruct (M7' sid Hs) as [?|?]; [left; eauto|by right]. }
    destruct Hor as [(q0 & u0 & Hq0 & Hs0)|Hn]; [|exact Hn].
    destruct (H7 q0 u0 sid Hq0 Hs0) as (A1 & A2 & A3). destruct (M7 sid A1 A2 A3) as (B1 & B2 & B3).
    unfold h, h' in B3. split_and!; [done|done|lia].
  - rewrite (tsum_insert _ _ p t) by done. unfold h, h' in M8. lia.
  - intros q u Hq. apply lookup_insert_Some in Hq as [[_ <-]|[_ Hq]]; [exact M9|by apply (H9 q)].
  - intros Hsh. rewrite M10. by apply H10.
Qed.

(** A call that leaves the heap alone. *)
Record moves_reg : Prop := mkMovesReg {
  mr_heap : heap w = heap (wd g);
  mr_begun : begun h' = begun h;
  mr_reg : ∀ cid sid, get cid (reg w) = Some sid → get cid (reg (wd g)) = Some sid;
  mr_count : ∀ b, b ≠ zero_binding →
    cnt b (bound w) - cnt b (bound (wd g)) =
    cnt b (unbound w) - cnt b (unbound (wd g)) + owns b h' - owns b h;
  mr_token : ∀ x, tcnt x (bound w) - tcnt x (bound (wd g)) + tcnt x (doubtful w) - tcnt x (doubtful (wd g)) + pends x h' - pends x h ≤
    one (bool_decide (x ∈ drawn w)) - one (bool_decide (x ∈ drawn (wd g)));
  mr_placed : ∀ sid se, hp !! sid = Some se → binding se ≠ zero_binding →
    (todo h = Some sid → todo h' = Some sid) ∧
    (is_registered (wd g) sid se → is_registered w sid se ∨ todo h' = Some sid);
  mr_spent : spent h' = spent h;
  mr_auths : authentications (reg w) - authentications (reg (wd g)) = auths h' - auths h;
  mr_thread : 0 ≤ auths h' ∧ ∀ b, owned h' = Some b → ValidGateBinding b = true;
  mr_shut : accepting (reg w) = accepting (reg (wd g));
}.

Lemma ginv_move_reg : moves_reg → ginv g'.
Proof.
  intros [M1 M2 M3 M4 M5 M6 M7 M8 M9 M10]. apply ginv_move.
  assert (Hb : ∀ sid, begins sid h' = begins sid h) by (intros; unfold begins; by rewrite M2).
  split; rewrite ?M1; try done.
  - apply (gi_heap g Hg).
  - intros cid sid Hc. by apply (gi_reg g Hg), M3.
  - intros sid. rewrite Hb. unfold hp. lia.
  - intros b Hz. rewrite (M4 b Hz). unfold hp. lia.
  - intros sid se Hs Hz. destruct (M6 sid se Hs Hz) as [Ht Hr].
    destruct (decide (get (connID se) (reg (wd g)) = Some sid)) as [Hd|Hd]; [destruct (Hr Hd); auto|].
    right; right. split; [done|]. exists se. split_and!; [done..|]. by intros ?%Hd.
  - rewrite M7. auto.
Qed.

(** Calls that change neither the obligations nor the state they concern. *)
Lemma ginv_neutral :
  core h' = core h → reg w = reg (wd g) → heap w = heap (wd g) → drawn w = drawn (wd g) →
  bound w = bound (wd g) → doubtful w = doubtful (wd g) → unbound w = unbound (wd g) → ginv g'.
Proof.
  intros Hcore E1 E2 E3 E4 E6 E5. unfold core in Hcore. injection Hcore as C1 C2 C3 C4 C5 C6.
  apply ginv_move_reg. split; unfold owns, pends, is_registered; rewrite ?E1, ?E2, ?E3, ?E4, ?E5, ?E6, ?C1, ?C2, ?C3, ?C4, ?C5, ?C6; try done.
  - intros. lia.
  - intros. lia.
  - auto.
  - lia.
  - by apply (gi_thread g Hg p).
Qed.

(** A call on one session of the heap. *)
Record moves_put (sid : nat) (se se' : session) : Prop := mkMovesPut {
  mp_world : heap w = <[sid := se']> hp ∧ reg w = reg (wd g) ∧ drawn w = drawn (wd g) ∧
    bound w = bound (wd g) ∧ doubtful w = doubtful (wd g) ∧ unbound w = unbound (wd g);
  mp_old : hp !! sid = Some se;
  mp_conn : conn se' = conn se ∧ connID se' = connID se;
  mp_valid : binding se' = zero_binding ∨ ValidGateBinding (binding se') = true;
  mp_other : ∀ x, x ≠ sid → begins x h' = begins x h ∧ (todo h = Some x → todo h' = Some x);
  mp_once : begins sid h' - begins sid h + nz (Some se') - nz (Some se) ≤ att (Some se') - att (Some se);
  mp_count : ∀ b, b ≠ zero_binding → holds b se' + owns b h' = holds b se + owns b h;
  mp_same : uuid h' = uuid h ∧ auths h' = auths h;
  mp_placed : binding se' ≠ zero_binding →
    is_registered (wd g) sid se' ∨ binding se ≠ zero_binding ∧ (todo h = Some sid → todo h' = Some sid);
  mp_spent : nz (Some se) = 0 → att (Some se) = 1 → tsum (begins sid) (threads g) = 0 →
    nz (Some se') = 0 ∧ att (Some se') = 1 ∧ begins sid h' = begins sid h;
  mp_spent' : ∀ x, spent h' = Some x → spent h = Some x ∨
    x = sid ∧ nz (Some se') = 0 ∧ att (Some se') = 1 ∧ tsum (begins sid) (threads g) - begins sid h + begins sid h' = 0;
  mp_owned : ∀ b, owned h' = Some b → ValidGateBinding b = true;
}.

Lemma ginv_move_put sid se se' : moves_put sid se se' → ginv g'.
Proof.
  intros [(M1 & Hr & D1 & D2 & D4 & D3) M2 [M3 M3'] M4 M5 M6 M7 [M8 M8'] M9 M10 M11 M12]. apply ginv_move.
  assert (Hat : heap w !! sid = Some se') by (rewrite M1; apply lookup_insert_eq).
  assert (Hne : ∀ x, x ≠ sid → heap w !! x = hp !! x) by (intros; rewrite M1; by apply lookup_insert_ne).
  pose proof (gi_heap g Hg sid se M2) as [Hc _].
  split; rewrite ?Hr; try done.
  - intros x sx Hx. destruct (decide (x = sid)) as [->|Hn]; [|rewrite Hne in Hx by done; by apply (gi_heap g Hg)].
    rewrite Hat in Hx. simplify_eq. split; [congruence|done].
  - intros cid x Hx. destruct (gi_reg g Hg cid x Hx) as (sx & Hsx & Hcid).
    destruct (decide (x = sid)) as [->|Hn]; [exists se'|exists sx; by rewrite Hne].
    split; [done|]. unfold hp in M2. congruence.
  - intros x. destruct (decide (x = sid)) as [->|Hn]; [by rewrite Hat, M2|].
    rewrite Hne, (proj1 (M5 x Hn)) by done. lia.
  - intros b Hz. rewrite M1, D2, D3, (msum_insert _ sid se) by done.
    specialize (M7 b Hz). unfold hp. lia.
  - intros x. unfold pends. rewrite M8, D1, D2, D4. lia.
  - intros x sx Hx Hz. destruct (decide (x = sid)) as [->|Hn].
    + rewrite Hat in Hx. simplify_eq. unfold is_registered. rewrite Hr.
      destruct (M9 Hz) as [?|[Hz0 Hk]]; [by left|]. right; right. split; [done|]. exists se. by rewrite M3'.
    + rewrite Hne in Hx by done. right; right. split; [apply (M5 x Hn)|]. exists sx. unfold is_registered. by rewrite Hr.
  - intros x A1 A2 A3. destruct (decide (x = sid)) as [->|Hn].
    + rewrite Hat. rewrite M2 in A1, A2. by apply M10.
    + rewrite Hne by done. split_and!; [done|done|]. by apply M5.
  - intros x Hx. destruct (M11 x Hx) as [?|(-> & ?)]; [by left|right]. by rewrite Hat.
  - rewrite M8'. lia.
  - rewrite M8'. split; [by apply (gi_thread g Hg p)|done].
Qed.
End Move.

(** *** The calls *)

Lemma one_false b : one b = 0 ↔ b = false.
Proof. by destruct b. Qed.

Lemma valid_nonzero b : ValidGateBinding b = true → b ≠ zero_binding.
Proof. intros H ->. by rewrite zero_invalid in H. Qed.

Lemma owns_none b h : owned h = None → owns b h = 0.
Proof. intros H. unfold owns. by rewrite H. Qed.

Lemma owns_some b c h : owned h = Some c → owns b h = one (bool_decide (c = b)).
Proof. intros H. unfold owns. rewrite H. f_equal. apply bool_decide_ext. split; congruence. Qed.

Lemma begins_some sid h : begun h = Some sid → begins sid h = 1.
Proof. intros H. unfold begins. by rewrite H, bool_decide_true. Qed.

Lemma begins_other sid x h : begun h = None ∨ begun h = Some sid → x ≠ sid → begins x h = 0.
Proof. intros [H|H] Hn; unfold begins; rewrite H; by rewrite bool_decide_false by congruence. Qed.

Lemma begins_none x h : begun h = None → begins x h = 0.
Proof. intros H. unfold begins. by rewrite H. Qed.

Lemma begins_nonneg sid h : 0 ≤ begins sid h.
Proof. apply one_nonneg. Qed.

Section Calls.
Context (g : gate) (p : nat).
Context (Hg : ginv g).

(** The session whose authentication a goroutine runs has no binding. *)
Lemma begun_fresh t sid se :
  threads g !! p = Some t → begun (hist_of t) = Some sid → heap (wd g) !! sid = Some se →
  binding se = zero_binding ∧ authAttempted se = true ∧ tsum (begins sid) (threads g) = 1.
Proof.
  intros Hp Hb Hs. pose proof (gi_once g Hg sid) as Ho. rewrite Hs in Ho.
  pose proof (tsum_le (begins sid) (threads g) p t (begins_nonneg sid) Hp) as Hle.
  rewrite (begins_some sid) in Hle by done. simpl in Ho.
  pose proof (one_nonneg (negb (bool_decide (binding se = zero_binding)))).
  destruct (authAttempted se); simpl in Ho; [|lia].
  assert (one (negb (bool_decide (binding se = zero_binding))) = 0) as H0%one_false by lia.
  to_prop. split_and!; [done|done|lia].
Qed.

(** A session with a binding has spent its authentication. *)
Lemma bound_attempted sid se :
  heap (wd g) !! sid = Some se → binding se ≠ zero_binding →
  authAttempted se = true ∧ tsum (begins sid) (threads g) = 0.
Proof.
  intros Hs Hz. pose proof (gi_once g Hg sid) as Ho. rewrite Hs in Ho. simpl in Ho.
  rewrite bool_decide_false in Ho by done. simpl in Ho.
  pose proof (tsum_nonneg (begins sid) (threads g) (begins_nonneg sid)).
  destruct (authAttempted se); simpl in Ho; [split; [done|lia]|lia].
Qed.

Context (t t' : thread) (w : world) (Hp : threads g !! p = Some t).
Context (Hwp : wp (allowed protoSize id endpoint leaseTTL) rel (body t') (returned (draining t')) (hist_of t')).

Abbreviation moved := (g <| wd := w |> <| threads := <[p := t']> (threads g) |>).

Definition called (e : eff) (x : ans e) : Prop :=
  act e x (wd g) w ∧ allowed protoSize id endpoint leaseTTL e (hist_of t) ∧ hist_of t' = record e x (hist_of t).

Lemma put_same sid se : heap (wd g) !! sid = Some se → put sid se (wd g) = wd g.
Proof. intros H. unfold put. rewrite insert_id by done. by destruct (wd g). Qed.

Ltac neutral := apply (ginv_neutral g p t t' _ Hg Hp Hwp); match goal with H : hist_of _ = _ |- _ => rewrite ?H end; done.

Lemma ok_add c cid err : called (Add c cid) err → ginv moved.
Proof.
  intros ((Hc & -> & Hw) & _ & Hh). destruct (add c cid (reg (wd g))) as [r' [e|]] eqn:Ea; simpl in *; [subst; neutral|].
  assert (∃ m, byConnID (reg (wd g)) = Some m ∧ m !! cid = None ∧ r' = (reg (wd g)) <| byConnID := Some (<[cid := c]> m) |>)
    as (m & Hm & Hcid & ->).
  { unfold add in Ea. repeat case_match; simplify_eq; eauto. }
  clear Ea. apply (ginv_move g p t t' w Hg Hp Hwp).
  set (fresh := newSession (now (wd g)) c cid authTimeout) in *.
  assert (Hget : ∀ k, get k (reg w) = if decide (k = cid) then Some c else get k (reg (wd g))).
  { intros k. subst w. unfold get; simpl. rewrite Hm; simpl. case_decide as Hk; subst;
      [apply lookup_insert_eq|by apply lookup_insert_ne]. }
  assert (Hat : heap w !! c = Some fresh) by (subst w; apply lookup_insert_eq).
  assert (Hne : ∀ x, x ≠ c → heap w !! x = heap (wd g) !! x) by (intros; subst w; by apply lookup_insert_ne).
  split; rewrite ?Hh; try done.
  - intros sid se Hs. destruct (decide (sid = c)) as [->|Hn];
      [rewrite Hat in Hs; simplify_eq; by auto|rewrite Hne in Hs by done; by apply (gi_heap g Hg)].
  - intros k sid. rewrite Hget. case_decide as Hk; [intros; simplify_eq; by eauto|].
    intros (se & Hs & Hk')%(gi_reg g Hg). exists se. rewrite Hne by congruence. done.
  - intros sid. destruct (decide (sid = c)) as [->|Hn]; [rewrite Hat, Hc|rewrite Hne by done]; simpl; lia.
  - intros b Hz. subst w; simpl. rewrite msum_insert_new by done. unfold holds at 1; simpl.
    rewrite bool_decide_false by done. simpl. lia.
  - intros x. subst w; simpl. lia.
  - intros sid se Hs Hz. destruct (decide (sid = c)) as [->|Hn]; [rewrite Hat in Hs; by simplify_eq|].
    rewrite Hne in Hs by done. right; right. split; [done|]. exists se. split_and!; [done..|].
    unfold is_registered. rewrite Hget. case_decide as Hk; [|done].
    rewrite Hk. unfold get. rewrite Hm. simpl. by rewrite Hcid.
  - intros sid A1 A2 A3. destruct (decide (sid = c)) as [->|Hn]; [by rewrite Hc in A2|]. by rewrite Hne.
  - auto.
  - subst w; simpl; lia.
  - by apply (gi_thread g Hg p).
  - by subst w.
Qed.

Lemma ok_begin sid ok : called (BeginAuth sid) ok → ginv moved.
Proof.
  intros ((se & Hs & -> & Hw) & [_ Hb] & Hh). unfold beginAuthentication in *.
  destruct (authAttempted se) eqn:Ea; simpl in *; [rewrite put_same in Hw by done; subst; neutral|].
  pose proof (gi_once g Hg sid) as Ho. rewrite Hs in Ho. simpl in Ho. rewrite Ea in Ho. simpl in Ho.
  pose proof (tsum_nonneg (begins sid) (threads g) (begins_nonneg sid)).
  pose proof (one_nonneg (negb (bool_decide (binding se = zero_binding)))).
  assert (one (negb (bool_decide (binding se = zero_binding))) = 0) as H1%one_false by lia. to_prop.
  subst w.
  apply (ginv_move_put g p t t' _ Hg Hp Hwp sid se (se <| authAttempted := true |>)).
  split; rewrite ?Hh; simpl; try done; auto.
  - intros x Hx. split; [|done]. rewrite (begins_none x (hist_of t)) by done.
    apply (begins_other sid); [by right|done].
  - rewrite (begins_none sid (hist_of t)), (begins_some sid) by done. rewrite Ea. simpl. lia.
  - by rewrite Ea.
  - by apply (gi_thread g Hg p).
Qed.

Lemma ok_admit sid ok : called (AdmitAuth sid) ok → ginv moved.
Proof.
  intros ((se & ce & Hs & -> & Hw) & [_ Ha] & Hh). unfold admitAuthentication in *.
  destruct (_ || _ || _); simpl in *; [subst w; neutral|].
  apply (ginv_move_reg g p t t' w Hg Hp Hwp). split; rewrite ?Hh; subst w; simpl; try done.
  - intros; unfold owns; simpl; lia.
  - intros; unfold pends; simpl; lia.
  - auto.
  - lia.
  - split; [lia|]. by apply (gi_thread g Hg p).
Qed.

Lemma ok_done x : called AuthDone x → ginv moved.
Proof.
  intros (Hw & Ha & Hh). simpl in *.
  apply (ginv_move_reg g p t t' w Hg Hp Hwp). split; rewrite ?Hh; subst w; simpl; try done.
  - intros; unfold owns; simpl; lia.
  - intros; unfold pends; simpl; lia.
  - auto.
  - lia.
  - split; [lia|]. by apply (gi_thread g Hg p).
Qed.

Lemma ok_commit sid lease boundAt ok : called (CommitAuth sid lease boundAt) ok → ginv moved.
Proof.
  intros ((se & ce & tm & Hs & _ & -> & Hw) & [Hb Ho] & Hh). unfold commitAuthentication in *.
  assert (Hsame : w = put sid se ((wd g) <| now := tm |>) → hist_of t' = hist_of t → ginv moved).
  { intros -> Hh'. apply (ginv_neutral g p t t' _ Hg Hp Hwp); rewrite ?Hh'; try done. apply insert_id, Hs. }
  destruct (negb (registered sid se (reg (wd g))) || _) eqn:Er; simpl in *; [by apply Hsame|].
  destruct (finishAuthentication tm lease boundAt se) as [se' [|]] eqn:Ef; simpl in *.
  2: { unfold finishAuthentication in Ef. case_match; [|done]. injection Ef as <-. by apply Hsame. }
  apply orb_false_iff in Er as [Er _]. apply negb_false_iff in Er. unfold registered in Er. apply bool_decide_eq_true in Er.
  assert (Hse : binding se' = Binding lease ∧ conn se' = conn se ∧ connID se' = connID se ∧ authAttempted se' = authAttempted se).
  { unfold finishAuthentication in Ef. case_match; [done|]. by injection Ef as <-. }
  destruct Hse as (E1 & E2 & E3 & E4). clear Ef.
  destruct (begun_fresh t sid se Hp Hb Hs) as (Hz & Ha & Hsum).
  pose proof (proj2 (gi_thread g Hg p t Hp) _ Ho) as Hv. pose proof (valid_nonzero _ Hv) as Hnz.
  subst w.
  apply (ginv_move_put g p t t' _ Hg Hp Hwp sid se se').
  split; rewrite ?Hh; simpl; rewrite ?E1, ?E4, ?Ha, ?Hz; try done; auto.
  - intros x Hx. split; [|done]. rewrite (begins_other sid x (hist_of t)) by auto. by apply begins_none.
  - rewrite (begins_some sid (hist_of t)), begins_none by done. rewrite bool_decide_false by done. simpl. lia.
  - intros b Hzb. unfold holds. rewrite E1, Hz, (owns_some b (Binding lease) (hist_of t)), owns_none by done.
    rewrite (bool_decide_false (zero_binding = b)) by done. simpl. lia.
  - left. unfold is_registered. by rewrite E3.
  - rewrite Hsum. lia.
Qed.

Lemma remove_cases cid c r x :
  remove cid c (heap (wd g)) (reg (wd g)) = (r, x) →
  r = reg (wd g) ∧ x = None ∨
  ∃ sid m se, x = Some sid ∧ byConnID (reg (wd g)) = Some m ∧ m !! cid = Some sid ∧
    heap (wd g) !! sid = Some se ∧ conn se = c ∧ sid = c ∧ r = (reg (wd g)) <| byConnID := Some (delete cid m) |>.
Proof.
  unfold remove, get. intros H. destruct (byConnID (reg (wd g))) as [m|] eqn:Em; simpl in H; [|simplify_eq; auto].
  destruct (m !! cid) as [sid|] eqn:Ec; [|simplify_eq; auto].
  destruct (heap (wd g) !! sid) as [se|] eqn:Es; [|simplify_eq; auto].
  case_decide; simplify_eq; auto. right. exists sid, m, se. split_and!; try done.
  symmetry. by apply (gi_heap g Hg).
Qed.

(** Taking a session out of the registry. *)
Lemma ok_removal sid m se cid :
  byConnID (reg (wd g)) = Some m → m !! cid = Some sid → heap (wd g) !! sid = Some se →
  w = (wd g) <| reg := (reg (wd g)) <| byConnID := Some (delete cid m) |> |> →
  core ((hist_of t') <| todo := todo (hist_of t) |>) = core (hist_of t) →
  (todo (hist_of t') = todo (hist_of t) ∧ binding se = zero_binding ∨
   todo (hist_of t) = None ∧ todo (hist_of t') = Some sid) → ginv moved.
Proof.
  intros Hm Hc Hs -> Hcore Hcase. unfold core in Hcore. simpl in Hcore. injection Hcore as C1 C2 C3 C4 C5.
  apply (ginv_move_reg g p t t' _ Hg Hp Hwp). split; simpl; unfold owns, pends; rewrite ?C1, ?C2, ?C3, ?C4, ?C5; try done.
  - intros k x. unfold get; simpl. rewrite Hm; simpl. intros [_ ?]%lookup_delete_Some. done.
  - intros; lia.
  - intros; lia.
  - intros x sx Hx Hz. unfold is_registered, get; simpl. rewrite Hm; simpl.
    split; [destruct Hcase as [[-> _]|[-> _]]; [done|congruence]|].
    intros Hr. destruct (decide (connID sx = cid)) as [Hk|Hk].
    + rewrite Hk, Hc in Hr. simplify_eq. destruct Hcase as [[_ ?]|[_ ?]]; [done|by right].
    + left. by rewrite lookup_delete_ne by congruence.
  - lia.
  - by apply (gi_thread g Hg p).
Qed.

Lemma ok_remove cid c x : called (Remove cid c) x → ginv moved.
Proof.
  intros ((-> & Hw) & [Ht _] & Hh).
  destruct (remove cid c (heap (wd g)) (reg (wd g))) as [r x] eqn:Er; simpl in *.
  destruct (remove_cases cid c r x Er) as [[-> ->]|(sid & m & se & -> & Hm & Hc & Hs & _ & _ & ->)]; [subst; neutral|].
  apply (ok_removal sid m se cid); try done; rewrite Hh; simpl; auto.
Qed.

Lemma ok_removeconn sid x : called (RemoveConnOf sid) x → ginv moved.
Proof.
  intros ((se & Hs & -> & Hw) & Hsp & Hh). simpl in Hsp, Hh. destruct (gi_heap g Hg sid se Hs) as [Hcs _].
  destruct (remove (connID se) (conn se) (heap (wd g)) (reg (wd g))) as [r x] eqn:Er; simpl in *.
  destruct (remove_cases (connID se) (conn se) r x Er) as [[-> ->]|(y & m & sy & -> & Hm & Hc & Hsy & _ & Hy & ->)];
    [subst w; neutral|].
  rewrite Hcs in Hy. subst y. assert (sy = se) as -> by congruence.
  apply (ok_removal sid m se (connID se)); try done; rewrite Hh; [done|]. left. split; [done|].
  destruct (gi_spent g Hg p t sid Hp Hsp) as (Hz & _ & _). rewrite Hs in Hz. simpl in Hz.
  apply one_false in Hz. by to_prop.
Qed.

Lemma ok_detach sid b : called (DetachClose sid) b → ginv moved.
Proof.
  intros ((_ & _ & se & Hs & -> & Hw) & [Ht Ho] & Hh). simpl in *.
  destruct (gi_heap g Hg sid se Hs) as [_ Hv].
  subst w.
  apply (ginv_move_put g p t t' _ Hg Hp Hwp sid se (detachForClose se).1).
  split; rewrite ?Hh; simpl; try done; auto.
  - intros x Hx. split; [done|congruence].
  - pose proof (one_nonneg (negb (bool_decide (binding se = zero_binding)))).
    change (begins sid _) with (begins sid (hist_of t)). lia.
  - intros b Hz. unfold holds; simpl. rewrite (owns_none b (hist_of t)) by done.
    rewrite (bool_decide_false (zero_binding = b)) by done. unfold owns; simpl. case_decide as Hd.
    + rewrite Hd. rewrite !bool_decide_false by done. done.
    + simpl. rewrite (bool_decide_ext (Some (binding se) = Some b) (binding se = b)) by (split; congruence). lia.
  - intros b. case_decide; intros; simplify_eq. by destruct Hv.
Qed.

Lemma ok_kick sid b ok : called (DetachKick sid b) ok → ginv moved.
Proof.
  intros ((se & Hs & -> & Hw) & (Ho & Hv & _) & Hh). unfold detachForKick in *.
  destruct (holds_now (now (wd g)) b se) eqn:E; simpl in *; [|rewrite put_same in Hw by done; subst; neutral].
  assert (Hb : binding se = b) by (unfold holds_now in E; to_prop; done).
  pose proof (valid_nonzero b Hv) as Hz. assert (Hzs : binding se ≠ zero_binding) by congruence.
  destruct (bound_attempted sid se Hs Hzs) as [Ha Hsum].
  subst w.
  apply (ginv_move_put g p t t' _ Hg Hp Hwp sid se (se <| binding := zero_binding |> <| leaseDeadline := 0 |>)).
  split; rewrite ?Hh; simpl; try done; auto.
  - pose proof (one_nonneg (negb (bool_decide (binding se = zero_binding)))).
    change (begins sid _) with (begins sid (hist_of t)). lia.
  - intros x Hx. unfold holds; simpl. rewrite (owns_none x (hist_of t)) by done.
    rewrite (bool_decide_false (zero_binding = x)) by done. unfold owns; simpl. rewrite Hb.
    rewrite (bool_decide_ext (Some b = Some x) (b = x)) by (split; congruence). lia.
  - intros x [= <-]. right. rewrite Ha. simpl. split_and!; try done.
    unfold begins at 2 3; simpl. lia.
  - intros x [= <-]. done.
Qed.

Lemma ok_finish sid b at_ ttl x : called (FinishHeartbeat sid b at_ ttl) x → ginv moved.
Proof.
  intros ((se & Hs & Hw) & _ & Hh). simpl in *.
  assert (He : ∃ dl, finishHeartbeat b at_ ttl se = se <| leaseDeadline := dl |>).
  { unfold finishHeartbeat. case_decide; [eauto|]. exists (leaseDeadline se). by destruct se. }
  destruct He as [dl He]. rewrite He in Hw. destruct (gi_heap g Hg sid se Hs) as [_ Hv].
  subst w.
  apply (ginv_move_put g p t t' _ Hg Hp Hwp sid se (se <| leaseDeadline := dl |>)).
  split; rewrite ?Hh; simpl; try done; auto.
  - lia.
  - by apply (gi_thread g Hg p).
Qed.

Lemma ok_uuid x : called Uuid x → ginv moved.
Proof.
  intros ((Hx & Hw) & Hu & Hh). simpl in *.
  apply (ginv_move_reg g p t t' w Hg Hp Hwp). split; rewrite ?Hh; subst w; simpl; try done.
  - intros; unfold owns; simpl; lia.
  - intros y. unfold pends; simpl. rewrite Hu. simpl. destruct (decide (x = y)) as [->|Hn].
    + rewrite !bool_decide_true by set_solver. rewrite !bool_decide_false by set_solver. simpl. lia.
    + rewrite (bool_decide_false (Some x = Some y)) by congruence.
      rewrite (bool_decide_ext (y ∈ drawn (wd g) ∪ {[x]}) (y ∈ drawn (wd g))) by set_solver. simpl. lia.
  - auto.
  - lia.
  - by apply (gi_thread g Hg p).
Qed.

Lemma ok_bind c b ttl x : called (Bind c b ttl) x → ginv moved.
Proof.
  intros (Hw & (_ & _ & Ha & Ho & Hu & _) & Hh). simpl in *.
  assert (Hpend : ∀ y, one (bool_decide (Some (BindingToken b) = Some y)) = one (bool_decide (BindingToken b = y))).
  { intros y. by rewrite (bool_decide_ext (Some (BindingToken b) = Some y) (BindingToken b = y)) by (split; congruence). }
  destruct x as [[lease prev]|err].
  2: { apply (ginv_move_reg g p t t' w Hg Hp Hwp). split; rewrite ?Hh; subst w; simpl; try done.
    - intros; unfold owns; simpl; lia.
    - intros y. unfold pends; simpl. rewrite Hu. specialize (Hpend y). lia.
    - auto.
    - lia.
    - by apply (gi_thread g Hg p). }
  destruct Hw as (_ & Hv & Hw).
  apply (ginv_move_reg g p t t' w Hg Hp Hwp). split; rewrite ?Hh; subst w; simpl; try done.
  - intros y Hy. rewrite (owns_none y (hist_of t)) by done. unfold owns; simpl.
    rewrite (bool_decide_ext (Some b = Some y) (b = y)) by (split; congruence). lia.
  - intros y. unfold pends; simpl. rewrite Hu. specialize (Hpend y). lia.
  - auto.
  - lia.
  - split; [lia|]. by intros y [= <-].
Qed.

Lemma ok_unbind c b x : called (Unbind c b) x → ginv moved.
Proof.
  intros (Hw & [_ Ho] & Hh). simpl in *.
  apply (ginv_move_reg g p t t' w Hg Hp Hwp). split; rewrite ?Hh; subst w; simpl; try done.
  - intros y Hy. rewrite (owns_some y b (hist_of t)) by done. unfold owns; simpl. lia.
  - intros; unfold pends; simpl; lia.
  - auto.
  - lia.
  - split; [|done]. by apply (gi_thread g Hg p).
Qed.

Lemma ok_called e x : called e x → ginv moved.
Proof.
  intros H. destruct e.
  all: try solve [eapply ok_add; exact H|eapply ok_begin; exact H|eapply ok_admit; exact H|eapply ok_done; exact H
    |eapply ok_commit; exact H|eapply ok_remove; exact H|eapply ok_removeconn; exact H|eapply ok_detach; exact H
    |eapply ok_kick; exact H|eapply ok_finish; exact H|eapply ok_uuid; exact H|eapply ok_bind; exact H
    |eapply ok_unbind; exact H].
  all: destruct H as (Hw & _ & Hh); simpl in Hw, Hh; destruct_and?; subst w;
    try destruct m; try destruct c; try destruct x;
    apply (ginv_neutral g p t t' _ Hg Hp Hwp); try rewrite Hh; simpl; done.
Qed.
End Calls.

(** What the goroutines rely on of the answers. *)
Lemma promise_kept g e x w : ginv g → act e x (wd g) w → promised e x.
Proof.
  intros Hg H. destruct e; simpl in *; try done.
  - destruct H as [-> _]. destruct (remove _ _ _ _) as [r y] eqn:Er.
    destruct (remove_cases g Hg _ _ _ _ Er) as [[_ ->]|(sid & m & se & -> & _ & _ & _ & _ & -> & _)]; done.
  - destruct H as (_ & _ & se & Hs & -> & _). by apply (gi_heap g Hg sid).
  - destruct H as [(se & Hs & ->) _]. simpl. unfold leaseValidLocked. intros. by to_prop.
  - destruct x as [[lease prev]|]; [|done]. by destruct H as (? & ? & _).
Qed.

(** *** The steps *)

Lemma wp_entry prog : entry_point prog → wp (allowed protoSize id endpoint leaseTTL) rel prog (returned false) hist0.
Proof.
  assert (Hrun : ∀ A (q : gprog A), wp (allowed protoSize id endpoint leaseTTL) rel q (returned false) hist0 →
    wp (allowed protoSize id endpoint leaseTTL) rel (run q) (returned false) hist0).
  { intros A q Hq. apply wp_bind. eapply wp_mono; [|exact Hq]. intros a h Hr. by apply wp_ret. }
  intros He. inversion He; subst; apply Hrun;
    [apply wp_Open|apply wp_Close|apply wp_Handle|apply wp_Heartbeat_entry|apply wp_Push_rpc|apply wp_Kick].
Qed.

Lemma wp_drain sid :
  wp (allowed protoSize id endpoint leaseTTL) rel (run (drainSession sid)) (returned true) (hist0 <| todo := Some sid |>).
Proof.
  apply wp_bind. eapply wp_mono; [|apply wp_drainSession]. intros a h Hr. by apply wp_ret.
Qed.

(** A new goroutine owes nothing but, perhaps, a session to detach. *)
Lemma ginv_start g p t S :
  ginv g → threads g !! p = None → core ((hist_of t) <| todo := None |>) = core hist0 →
  (∀ sid, sid ∈ todrain g → sid ∈ S ∨ todo (hist_of t) = Some sid) →
  wp (allowed protoSize id endpoint leaseTTL) rel (body t) (returned (draining t)) (hist_of t) →
  ginv (g <| threads := <[p := t]> (threads g) |> <| todrain := S |>).
Proof.
  intros [H1 H2 H3 H4 H5 H6 H7 H8 H9 H10 H11] Hp Hcore HS Hwp.
  unfold core in Hcore; simpl in Hcore. injection Hcore as C1 C2 C3 C4 C5.
  assert (Hb : ∀ sid, tsum (begins sid) (<[p := t]> (threads g)) = tsum (begins sid) (threads g)).
  { intros sid. rewrite tsum_new by done. unfold begins at 1. by rewrite C2. }
  split; simpl; try done.
  - intros sid. by rewrite Hb.
  - intros b Hz. rewrite tsum_new by done. unfold owns at 1. rewrite C1. simpl. by apply H4.
  - intros x. rewrite tsum_new by done. unfold pends at 1. rewrite C5. simpl. apply H5.
  - intros sid se Hs Hz. destruct (H6 sid se Hs Hz) as [?|[Hd|(q & u & Hq & Hu)]]; [by auto| |].
    + destruct (HS sid Hd) as [?|Ht]; [by auto|]. right; right. exists p, t. by rewrite lookup_insert_eq.
    + right; right. exists q, u. rewrite lookup_insert_ne by congruence. done.
  - intros q u sid Hq Hu. rewrite Hb. apply lookup_insert_Some in Hq as [[_ <-]|[_ Hq]]; [congruence|by apply (H7 q u)].
  - rewrite tsum_new, C4 by done. lia.
  - intros q u Hq. apply lookup_insert_Some in Hq as [[_ <-]|[_ Hq]]; [rewrite C1, C4; done|by apply (H9 q)].
  - intros q u Hq. apply lookup_insert_Some in Hq as [[_ <-]|[_ Hq]]; [done|by apply (H11 q)].
Qed.

(** Steps of the surroundings: the registry may lose its sessions to the drain. *)
Lemma ginv_world g w b S :
  ginv g → heap w = heap (wd g) → drawn w = drawn (wd g) → bound w = bound (wd g) → doubtful w = doubtful (wd g) →
  unbound w = unbound (wd g) →
  (∀ cid sid, get cid (reg w) = Some sid → get cid (reg (wd g)) = Some sid) →
  (∀ cid sid, get cid (reg (wd g)) = Some sid → get cid (reg w) = Some sid ∨ sid ∈ S) →
  todrain g ⊆ S → authentications (reg w) = authentications (reg (wd g)) → (b = true → accepting (reg w) = false) →
  ginv (g <| wd := w |> <| shut := b |> <| todrain := S |>).
Proof.
  intros [H1 H2 H3 H4 H5 H6 H7 H8 H9 H10 H11] E1 E2 E3 E6 E4 R1 R2 HS E5 Hb.
  split; simpl; rewrite ?E1, ?E2, ?E3, ?E4, ?E5, ?E6; try done.
  - eauto.
  - intros sid se Hs Hz. destruct (H6 sid se Hs Hz) as [Hr|[Hd|?]]; [|by auto|by auto].
    destruct (R2 _ _ Hr); auto.
Qed.

Lemma taken_all r cid sid : get cid r = Some sid → sid ∈ (takeAll r).2.
Proof.
  unfold get, takeAll. destruct (byConnID r) as [m|]; simpl; [|done]. intros H.
  apply list_elem_of_fmap. exists (cid, sid). split; [done|]. by apply elem_of_map_to_list.
Qed.

Lemma ginv_init g : init_gate g → ginv g.
Proof.
  intros (t & _ & ->). split; simpl; try done; try (intros; by rewrite ?lookup_empty in *).
Qed.

Lemma ginv_step g g' : ginv g → step g g' → ginv g'.
Proof.
  intros Hg Hs. inversion Hs; subst.
  - apply (ginv_start g p (mkThread false prog hist0) (todrain g)); auto. by apply wp_entry.
  - pose proof (gi_wp g Hg p _ H) as [Hal Hk]. simpl in Hal, Hk.
    apply (ok_called g p Hg (mkThread d (Act e k) h) (mkThread d (k x) (record e x h)) w' H) with (e := e) (x := x).
    + simpl. apply Hk. split; [done|]. by apply (promise_kept g e x w').
    + done.
  - apply (ginv_world g _ (shut g) (todrain g)); simpl; auto. apply (gi_shut g Hg).
  - apply (ginv_world g _ (shut g) (todrain g)); simpl; auto. congruence.
  - apply (ginv_world g _ true (todrain g)); simpl; auto.
  - apply (ginv_world g _ (shut g)); simpl; auto.
    + intros cid sid. unfold takeAll. destruct (byConnID (reg (wd g))); [|done]. by unfold get; simpl.
    + intros cid sid Hc%taken_all. right. apply elem_of_union_r, elem_of_list_to_set, Hc.
    + set_solver.
    + unfold takeAll. by destruct (byConnID (reg (wd g))).
    + intros Hsh. unfold takeAll. destruct (byConnID (reg (wd g))); simpl; by apply (gi_shut g Hg).
  - apply (ginv_start g p (mkThread true (run (drainSession sid)) (hist0 <| todo := Some sid |>)) (todrain g ∖ {[sid]}));
      auto; [|by apply wp_drain]. simpl. intros x Hx. destruct (decide (x = sid)) as [->|]; [by right|left; set_solver].
Qed.

Lemma ginv_reach g : reach g → ginv g.
Proof. apply invariant_reachable; [exact ginv_init|]. intros s s' _. exact (ginv_step s s'). Qed.

(** *** What was bound, and what was read *)

(** The bindings made are valid and name this gateway; the binding a goroutine
    forwards under was made by it. *)
Definition traced (g : gate) : Prop :=
  (∀ b, b ∈ bound (wd g) → ValidGateBinding b = true ∧ ownsBinding id endpoint b = true) ∧
  (∀ p t b, threads g !! p = Some t → routed (hist_of t) = Some b → b ∈ bound (wd g)).

Lemma holds_self b se : binding se = b → holds b se = 1.
Proof. intros H. unfold holds. by rewrite bool_decide_true. Qed.

Lemma holder_counts g sid se b :
  heap (wd g) !! sid = Some se → binding se = b → 1 ≤ msum (holds b) (heap (wd g)).
Proof.
  intros Hs Hb. rewrite <- (holds_self b se Hb).
  apply (msum_lookup_le _ sid se); [|done]. intros. apply one_nonneg.
Qed.

Lemma held_bound g sid se :
  ginv g → heap (wd g) !! sid = Some se → binding se ≠ zero_binding → binding se ∈ bound (wd g).
Proof.
  intros Hg Hs Hz. apply cnt_elem. rewrite (gi_count g Hg _ Hz).
  pose proof (cnt_nonneg (binding se) (unbound (wd g))).
  pose proof (tsum_nonneg (owns (binding se)) (threads g) (λ h, one_nonneg _)).
  pose proof (holder_counts g sid se _ Hs eq_refl). lia.
Qed.

Lemma act_bound e x w w' :
  act e x w w' →
  bound w' = bound w ∧ doubtful w' = doubtful w ∨
  ∃ c b ttl, e = Bind c b ttl ∧
    (ValidGateBinding b = true ∧ bound w' = b :: bound w ∨ bound w' = bound w).
Proof.
  destruct e; simpl; intros H.
  all: try (left; repeat match goal with H : ∃ _, _ |- _ => destruct H | H : _ ∧ _ |- _ => destruct H end;
    subst w'; try destruct m; repeat case_match; done).
  right. exists c, b, ttl. split; [done|]. destruct x as [[lease prev]|]; [|right; by subst].
  destruct H as (_ & Hv & ->). by left.
Qed.

(** Each removal is asked for once, and may fail. *)
Lemma act_unbound e x w w' :
  act e x w w' → refused w `sublist_of` unbound w → refused w' `sublist_of` unbound w'.
Proof.
  destruct e; simpl; intros H Hs.
  all: try (repeat match goal with H : ∃ _, _ |- _ => destruct H | H : _ ∧ _ |- _ => destruct H end;
    subst w'; try destruct m; repeat case_match; done).
  - by destruct x as [[??]|]; destruct_and?; subst.
  - subst w'. simpl. destruct x; by constructor.
Qed.

Lemma refused_asked g : reach g → refused (wd g) `sublist_of` unbound (wd g).
Proof.
  revert g. apply (invariant_reachable init_gate step (λ g, refused (wd g) `sublist_of` unbound (wd g))).
  { intros s (t & _ & ->). constructor. }
  intros s s' _ Hs Hst. inversion Hst; subst; simpl; try done. by eapply act_unbound.
Qed.

Lemma act_auths e x w w' :
  act e x w w' → authentications (reg w') = authentications (reg w) ∨
    (∃ sid, e = AdmitAuth sid ∧ accepting (reg w) = true) ∨ e = AuthDone.
Proof.
  destruct e; simpl; intros H; try (by right; right).
  all: repeat match goal with H : ∃ _, _ |- _ => destruct H | H : _ ∧ _ |- _ => destruct H end;
    try subst w'; try destruct m; try done; try (left; done).
  - left. unfold add. by repeat case_match.
  - unfold admitAuthentication. destruct (accepting (reg w)); [right; left; by eauto|]. by left.
  - left. unfold remove. by repeat case_match.
  - left. unfold remove. by repeat case_match.
  - left. by destruct x as [[??]|]; destruct_and?; subst.
Qed.

Lemma record_routed e x h : routed (record e x h) = routed h ∨ ∃ sid t, e = RouteOf sid t.
Proof. destruct e; simpl in *; eauto; left; try destruct m; try destruct c; by repeat case_match. Qed.

Lemma traced_step g g' : ginv g → traced g → step g g' → traced g'.
Proof.
  intros Hg [Hb Hr] Hs. inversion Hs; subst; try (split; simpl; done).
  - split; simpl; [done|]. intros q u b Hq. apply lookup_insert_Some in Hq as [[_ <-]|[_ Hq]]; [done|by apply (Hr q)].
  - pose proof (gi_wp g Hg p _ H) as [Hal _]. simpl in Hal.
    assert (Hsub : bound (wd g) ⊆ bound w').
    { destruct (act_bound e x _ _ H0) as [[-> _]|(c & b & ttl & _ & [[_ ->]| ->])]; set_solver. }
    split; simpl.
    + destruct (act_bound e x _ _ H0) as [[-> _]|(c & b & ttl & -> & [[Hv ->]| ->])]; [done| |done].
      intros b' [->|Hb']%elem_of_cons; [|by apply Hb]. split; [done|]. by destruct Hal as (_ & _ & _ & _ & _ & ? & _).
    + intros q u b Hq Hu. apply lookup_insert_Some in Hq as [[_ <-]|[_ Hq]]; [|by apply Hsub, (Hr q u)].
      simpl in Hu. destruct (record_routed e x h) as [He|(sid & tm & ->)]; [rewrite He in Hu; by apply Hsub, (Hr p _ b H)|].
      simpl in Hu, H0. destruct H0 as [(se & Hse & ->) ->]. simpl in Hu. case_match eqn:Ev; simplify_eq.
      apply (held_bound g sid se Hg Hse). apply valid_nonzero. unfold leaseValidLocked in Ev. by to_prop.
  - split; simpl; [done|]. intros q u b Hq. apply lookup_insert_Some in Hq as [[_ <-]|[_ Hq]]; [done|by apply (Hr q)].
Qed.

Lemma traced_reach g : reach g → traced g.
Proof.
  apply invariant_reachable.
  - intros s (t & _ & ->). split; simpl; [by intros b ?%elem_of_nil|]. intros p t' b. by rewrite lookup_empty.
  - intros s s' Hr. exact (traced_step s s' (ginv_reach s Hr)).
Qed.

Lemma accounted g b :
  reach g → b ∈ bound (wd g) →
  cnt b (bound (wd g)) = 1 ∧ tcnt (BindingToken b) (bound (wd g)) = 1 ∧
  cnt b (unbound (wd g)) + msum (holds b) (heap (wd g)) + tsum (owns b) (threads g) = 1.
Proof.
  intros Hr Hb. pose proof (ginv_reach g Hr) as Hg.
  destruct (proj1 (traced_reach g Hr) b Hb) as [Hz%valid_nonzero _].
  apply cnt_elem in Hb. pose proof (cnt_tcnt b (bound (wd g))). pose proof (gi_token g Hg (BindingToken b)) as Ht.
  pose proof (tsum_nonneg (pends (BindingToken b)) (threads g) (λ h, one_nonneg _)).
  pose proof (gi_count g Hg b Hz). pose proof (tcnt_nonneg (BindingToken b) (doubtful (wd g))).
  assert (one (bool_decide (BindingToken b ∈ drawn (wd g))) ≤ 1) by (by case_bool_decide).
  lia.
Qed.

(** A binding whose call failed is nobody's: it was made by no other call, and
    no session and no goroutine has it. *)
Lemma doubtful_unheld g b :
  reach g → b ∈ doubtful (wd g) → ValidGateBinding b = true →
  (b ∉ bound (wd g)) ∧ (b ∉ unbound (wd g)) ∧ msum (holds b) (heap (wd g)) = 0 ∧ tsum (owns b) (threads g) = 0.
Proof.
  intros Hr Hd Hz%valid_nonzero. pose proof (ginv_reach g Hr) as Hg. apply cnt_elem in Hd.
  pose proof (cnt_tcnt b (doubtful (wd g))). pose proof (cnt_tcnt b (bound (wd g))).
  pose proof (gi_token g Hg (BindingToken b)) as Ht. pose proof (gi_count g Hg b Hz) as Hc.
  pose proof (tsum_nonneg (pends (BindingToken b)) (threads g) (λ h, one_nonneg _)).
  pose proof (tsum_nonneg (owns b) (threads g) (λ h, one_nonneg _)).
  assert (0 ≤ msum (holds b) (heap (wd g))) by (apply msum_nonneg; intros; apply one_nonneg).
  assert (one (bool_decide (BindingToken b ∈ drawn (wd g))) ≤ 1) by (by case_bool_decide).
  pose proof (cnt_nonneg b (bound (wd g))). pose proof (cnt_nonneg b (unbound (wd g))). rewrite !cnt_elem. lia.
Qed.

(** The snapshot a broadcast takes names each session once. *)
Lemma snapshot_distinct g : reach g → NoDup (snapshot (reg (wd g))).
Proof.
  intros Hr. pose proof (gi_reg g (ginv_reach g Hr)) as Hreg. unfold snapshot, get in *.
  destruct (byConnID (reg (wd g))) as [m|]; [|apply NoDup_nil_2]. simpl in Hreg.
  apply NoDup_fmap_2_strong; [|apply NoDup_map_to_list].
  intros [c1 x1] [c2 x2] H1%elem_of_map_to_list H2%elem_of_map_to_list Heq. simpl in Heq. subst x2.
  destruct (Hreg c1 x1 H1) as (se & Hs & <-). destruct (Hreg c2 x1 H2) as (se' & Hs' & <-).
  by simplify_eq.
Qed.

(** Two sessions never hold one binding. *)
Lemma holders_count g sid sid' se se' b :
  sid' ≠ sid → heap (wd g) !! sid = Some se → heap (wd g) !! sid' = Some se' → binding se = b → binding se' = b →
  2 ≤ msum (holds b) (heap (wd g)).
Proof.
  intros Hne Hs Hs' Hb Hb'. pose proof (msum_delete (holds b) sid se (heap (wd g)) Hs) as Hd.
  assert (Hle : holds b se' ≤ msum (holds b) (delete sid (heap (wd g)))).
  { apply (msum_lookup_le _ sid' se'); [intros; apply one_nonneg|]. by rewrite lookup_delete_ne. }
  rewrite (holds_self b) in Hle, Hd by done. lia.
Qed.

(** ** Theorems *)

(** C5: The ledger of a gateway's bindings.  Each binding the store reported
    bound was bound once, with a token no other binding has, and is at any
    moment in exactly one place: the gateway asked the store to remove it, or
    exactly one session holds it, or exactly one goroutine owns it and is about
    to hand it over or give it back.  A binding whose call returned an error,
    which the store may have made if only the reply was lost, is in none of
    them: it waits for its lease.  The removals that failed are among those the
    gateway asked for. *)
Theorem gateway_bindings_accounted g b :
  reach g →
  (b ∈ bound (wd g) →
   cnt b (bound (wd g)) = 1 ∧ tcnt (BindingToken b) (bound (wd g)) = 1 ∧
   cnt b (unbound (wd g)) + msum (holds b) (heap (wd g)) + tsum (owns b) (threads g) = 1) ∧
  (b ∈ doubtful (wd g) → ValidGateBinding b = true →
   (b ∉ bound (wd g)) ∧ (b ∉ unbound (wd g)) ∧ msum (holds b) (heap (wd g)) = 0 ∧ tsum (owns b) (threads g) = 0) ∧
  refused (wd g) `sublist_of` unbound (wd g).
Proof. intros Hr. split; [by apply accounted|]. split; [by apply doubtful_unheld|by apply refused_asked]. Qed.

Definition ended (t : thread) : Prop := body t = Ret tt.

(** C2: When the goroutines have returned and the drain has no session left, no
    binding the store reported is lost: the gateway asked the store to remove
    each one, or its session is still registered under its connection, or the
    drain that detached its session ran out of its budget and left it to
    expire. *)
Theorem gateway_no_binding_lost g b :
  reach g → (∀ p t, threads g !! p = Some t → ended t) → todrain g = ∅ → b ∈ bound (wd g) →
  b ∈ unbound (wd g) ∨
  (∃ sid se, heap (wd g) !! sid = Some se ∧ binding se = b ∧ get (connID se) (reg (wd g)) = Some sid) ∨
  (∃ p t, threads g !! p = Some t ∧ draining t = true ∧ expired (hist_of t) = true ∧ owned (hist_of t) = Some b).
Proof.
  intros Hr He Hd Hb. pose proof (ginv_reach g Hr) as Hg.
  destruct (proj1 (traced_reach g Hr) b Hb) as [Hz%valid_nonzero _].
  assert (Hret : ∀ p t, threads g !! p = Some t → settled (draining t) (hist_of t)).
  { intros p t Hp. pose proof (gi_wp g Hg p t Hp) as Hw. rewrite (He p t Hp) in Hw. exact Hw. }
  apply cnt_elem in Hb. rewrite (gi_count g Hg b Hz) in Hb.
  destruct (decide (1 ≤ cnt b (unbound (wd g)))) as [?|Hu]; [left; by apply cnt_elem|right].
  destruct (decide (1 ≤ msum (holds b) (heap (wd g)))) as [Hh|Hh].
  - left. destruct (msum_pos_exists (holds b) (heap (wd g))) as (sid & se & Hs & Hp); [lia|].
    assert (binding se = b) as <-.
    { unfold holds in Hp. by case_bool_decide. }
    exists sid, se. split_and!; [done..|].
    destruct (gi_placed g Hg sid se Hs Hz) as [?|[?|(p & t & Hp' & Ht)]]; [done|set_solver|].
    destruct (Hret p t Hp') as [? _]. congruence.
  - right. destruct (msum_pos_exists (λ t, owns b (hist_of t)) (threads g)) as (p & t & Hp & Ho).
    { change (0 < tsum (owns b) (threads g)). lia. }
    assert (Ho' : owned (hist_of t) = Some b) by (unfold owns in Ho; by case_bool_decide).
    destruct (Hret p t Hp) as (_ & _ & _ & _ & [?|[? ?]]); [congruence|]. eauto 8.
Qed.

(** C6: A push is handed to a connection only while its session holds exactly
    the binding of the push, with an unexpired lease: a valid binding of this
    gateway, made by it and not given back, and no other session holds it. *)
Theorem push_reaches_holder g w p d sid b msg k h err :
  reach g → threads g !! p = Some (mkThread d (Act (Send sid b msg) k) h) →
  act (Send sid b msg) (true, err) (wd g) w →
  Op msg = OpPush ∧ protoSize msg ≤ MaxProtoSize ∧ ownsBinding id endpoint b = true ∧
  b ∈ bound (wd g) ∧ (b ∉ unbound (wd g)) ∧
  ∃ se, heap (wd g) !! sid = Some se ∧ binding se = b ∧ now (wd g) < leaseDeadline se ∧
        ∀ sid' se', heap (wd g) !! sid' = Some se' → binding se' = b → sid' = sid.
Proof.
  intros Hr Hp [(se & Hs & Hsend) _]. simpl in Hsend. pose proof (ginv_reach g Hr) as Hg.
  destruct (gi_wp g Hg p _ Hp) as [(Hv & Ho & Hop & Hsz) _]. symmetry in Hsend. apply send_exact in Hsend as [Hb Hl].
  pose proof (valid_nonzero b Hv) as Hz. assert (Hin : b ∈ bound (wd g)) by (subst b; by apply (held_bound g sid)).
  pose proof (accounted g b Hr Hin) as Hone. pose proof (cnt_nonneg b (unbound (wd g))).
  pose proof (tsum_nonneg (owns b) (threads g) (λ h, one_nonneg _)).
  unfold validExternalFrame in Hsz. to_prop. split_and!; try done.
  - intros Hu%cnt_elem. pose proof (holder_counts g sid se b Hs Hb). lia.
  - exists se. split_and!; try done. intros sid' se' Hs' Hb'.
    destruct (decide (sid' = sid)) as [|Hne]; [done|]. exfalso.
    pose proof (holders_count g sid sid' se se' b Hne Hs Hs' Hb Hb'). lia.
Qed.

(** C17: A request forwarded to a node carries the route of a binding this
    gateway made and that the session held when the request began, and claims
    either no owner, leaving the choice to the balancer, or the node and epoch
    the location store reported for that user and service. *)
Theorem forward_claims_located g p d c node req k h :
  reach g → threads g !! p = Some (mkThread d (Act (NodeForward c node req) k) h) →
  ∃ b, b ∈ bound (wd g) ∧ ValidGateBinding b = true ∧ ownsBinding id endpoint b = true ∧
       f_Route req = Some (FromBinding b) ∧ f_NodeId req = node ∧ claim_ok (ServiceName b) (UID b) req h.
Proof.
  intros Hr Hp. destruct (gi_wp g (ginv_reach g Hr) p _ Hp) as [(b & Hro & Hv & Hf & Hn & Hc) _].
  destruct (traced_reach g Hr) as [Hb Ht]. simpl in *. pose proof (Ht p _ b Hp Hro) as Hin.
  destruct (Hb b Hin) as [_ Ho]. exists b. done.
Qed.

(** *** Shutdown *)

Definition quiesced (g : gate) : Prop := shut g = true ∧ authentications (reg (wd g)) = 0.

Lemma auths_zero g p t :
  ginv g → authentications (reg (wd g)) = 0 → threads g !! p = Some t → auths (hist_of t) = 0.
Proof.
  intros Hg Ha Hp. rewrite (gi_auths g Hg) in Ha.
  destruct (gi_thread g Hg p t Hp) as [Hn _].
  assert (auths (hist_of t) ≤ tsum auths (threads g)); [|lia].
  apply (msum_lookup_le (λ t, auths (hist_of t)) p t); [|done]. intros q u Hq. by apply (gi_thread g Hg q).
Qed.

Lemma quiesced_step g g' : ginv g → quiesced g → step g g' →
  quiesced g' ∧ bound (wd g') = bound (wd g) ∧ doubtful (wd g') = doubtful (wd g).
Proof.
  intros Hg [Hs Ha] Hst. inversion Hst; subst; try (by split); try congruence.
  - pose proof (auths_zero g p _ Hg Ha H) as Hz. pose proof (gi_shut g Hg Hs) as Hacc. simpl in Hz.
    destruct (gi_wp g Hg p _ H) as [Hal _]. simpl in Hal.
    assert (Hb : bound w' = bound (wd g) ∧ doubtful w' = doubtful (wd g)).
    { destruct (act_bound e x _ _ H0) as [?|(c & b & ttl & -> & _)]; [done|]. destruct Hal as (_ & _ & ? & _). lia. }
    split; [split; simpl; [done|]|done].
    destruct (act_auths e x _ _ H0) as [->|[(sid & -> & Hx)| -> ]]; [done|congruence|simpl in Hal; lia].
  - split; [|done]. split; [done|]. simpl. unfold takeAll. by destruct (byConnID (reg (wd g))).
Qed.

(** C18: Once shutdown has begun and has waited for the authentications in
    progress, no binding is made any more, whatever the goroutines do: the store
    reports none, and no call that could leave one behind fails. *)
Theorem gateway_quiesced g g' :
  reach g → shut g = true → authentications (reg (wd g)) = 0 → rtc step g g' →
  bound (wd g') = bound (wd g) ∧ doubtful (wd g') = doubtful (wd g).
Proof.
  intros Hr Hs Ha Hst. assert (Hq : quiesced g) by done. clear Hs Ha. pose proof (ginv_reach g Hr) as Hg. clear Hr.
  induction Hst as [g|g g1 g2 H1 _ IH]; [done|]. destruct (quiesced_step g g1 Hg Hq H1) as (Hq1 & <- & <-).
  apply IH; [done|]. by apply (ginv_step g).
Qed.

End System.

(** ** A run: a connection authenticates, is pushed to, and forwards *)

Module GatewayExample.
Definition anyCode : Z → code := λ _, Unknown.
Definition decodeAny : bytes → result (string * bytes) := λ _, Ok ("game", []).
Definition sizeOf : Proto → Z := λ m, Z.of_nat (length (Body m)).

Abbreviation Act_ := (act 10).
Abbreviation Step := (step anyCode decodeAny sizeOf "gate-1" "grpc://g1:9000" 30 10).
Abbreviation Reach := (reach anyCode decodeAny sizeOf "gate-1" "grpc://g1:9000" 30 10).

(** One goroutine alone, with a choice of answers. *)
Inductive runs : gprog unit * hist * world → gprog unit * hist * world → Prop :=
| runs_refl c : runs c c
| runs_act e k x h w w' c :
    Act_ e x w w' → runs (k x, record e x h, w') c → runs (Act e k, h, w) c.

Lemma runs_done c c' : c = c' → runs c c'.
Proof. intros ->. apply runs_refl. Qed.

Lemma reach_runs p d c c' m sh td :
  runs c c' → m !! p = None → Reach (mkGate c.2 (<[p := mkThread d c.1.1 c.1.2]> m) sh td) →
  Reach (mkGate c'.2 (<[p := mkThread d c'.1.1 c'.1.2]> m) sh td).
Proof.
  intros Hr Hm. induction Hr as [c|e k x h w w' c Ha _ IH]; [done|]. intros H. apply IH.
  set (g := mkGate w (<[p := mkThread d (Act e k) h]> m) sh td).
  assert (Hp : threads g !! p = Some (mkThread d (Act e k) h)) by apply lookup_insert_eq.
  pose proof (reach_step _ _ g _ H (g_act _ _ _ _ _ _ _ g p d e k x h w' Hp Ha)) as Hs.
  simpl in Hs. by rewrite insert_insert_eq in Hs.
Qed.

Definition b_alice : GateBinding := mkGateBinding "game" "alice" "gate-1" "grpc://g1:9000" "c1" "t1".
Definition w0 : world := mkWorld (openAdmission newRegistry) ∅ 0 ∅ ∅ ∅ [] [] [] [].
Definition r1 : sessionRegistry := mkRegistry (Some {["c1" := 1%nat]}) true 0.
Definition s1 : session := mkSession 1 "c1" true 10 false zero_binding 0.
Definition w1 : world := mkWorld r1 {[1%nat := s1]} 0 ∅ ∅ ∅ [] [] [] [].
Definition s2 : session := mkSession 1 "c1" false 10 true b_alice 30.
Definition w2 : world := mkWorld r1 {[1%nat := s2]} 0 ∅ ∅ {["t1"]} [b_alice] [] [] [].

Definition alone (w : world) (m : gmap nat thread) : gate := mkGate w m false ∅.

Definition t_open : thread := mkThread false (Ret tt) hist0.

Lemma reach_started : Reach (alone w0 ∅).
Proof.
  set (g := mkGate (mkWorld newRegistry ∅ 0 ∅ ∅ ∅ [] [] [] []) ∅ false ∅).
  assert (H : Reach g) by (apply reach_init; by exists 0).
  exact (reach_step _ _ g _ H (g_open _ _ _ _ _ _ _ g eq_refl)).
Qed.

Abbreviation Entry := (entry_point anyCode decodeAny sizeOf "gate-1" "grpc://g1:9000" 30).

(** A goroutine starts and runs for a while. *)
Lemma reach_go w m p prog c :
  Reach (alone w m) → m !! p = None → Entry prog → runs (prog, hist0, w) c →
  Reach (alone c.2 (<[p := mkThread false c.1.1 c.1.2]> m)).
Proof.
  intros H Hp He Hr. apply (reach_runs p false (prog, hist0, w) c m false ∅ Hr Hp). simpl.
  exact (reach_step _ _ _ _ H (g_spawn _ _ _ _ _ _ _ (alone w m) p prog Hp He)).
Qed.

Lemma reach_opened : Reach (alone w1 {[0%nat := t_open]}).
Proof.
  apply (reach_go w0 ∅ 0 (run (Open 1 "c1")) (Ret tt, hist0, w1) reach_started); [done|constructor|].
  eapply (runs_act (Add 1 "c1") _ None); [split; [done|split; reflexivity]|]. apply runs_refl.
Qed.

Definition h_auth : hist := mkHist None None None None 0 None None None None None None false.
Definition t_auth : thread := mkThread false (Ret tt) h_auth.
Definition m_auth : Proto := mkProto OpAuth 1 0 0 [].
Definition p_auth : gprog unit := run (Handle anyCode decodeAny sizeOf "gate-1" "grpc://g1:9000" 30 1 "c1" m_auth).

Lemma reach_bound : Reach (alone w2 {[1%nat := t_auth; 0%nat := t_open]}).
Proof.
  apply (reach_go w1 _ 1 p_auth (Ret tt, h_auth, w2) reach_opened); [done|constructor|].
  eapply (runs_act (Get "c1") _ (Some 1%nat)); [done|].
  eapply (runs_act (Lock HandlerMu 1) _ tt); [split; [set_solver|reflexivity]|].
  eapply (runs_act (BeginAuth 1) _ true); [exists s1; split; [reflexivity|split; reflexivity]|].
  eapply (runs_act (ConnIDOf 1) _ "c1"); [split; [eexists; split; reflexivity|reflexivity]|].
  eapply (runs_act Accepting _ true); [split; reflexivity|].
  eapply (runs_act RemoteIP _ "10.0.0.9"); [reflexivity|].
  eapply (runs_act (Authenticate _ _ _ _) _ (Ok "alice")); [reflexivity|].
  eapply (runs_act Uuid _ "t1"); [split; [set_solver|reflexivity]|].
  eapply (runs_act (AdmitAuth 1) _ true); [eexists _, None; split; [reflexivity|split; reflexivity]|].
  eapply (runs_act Now _ 0); [split; reflexivity|].
  eapply (runs_act (Bind _ _ _) _ (Ok (mkGateLease b_alice 30, None))); [split; [reflexivity|split; reflexivity]|].
  eapply (runs_act (CommitAuth 1 _ 0) _ true).
  { eexists _, None, 0. split; [reflexivity|]. split; [reflexivity|]. split; reflexivity. }
  eapply (runs_act AuthDone _ tt); [reflexivity|].
  eapply (runs_act (Unlock HandlerMu 1) _ tt); [reflexivity|].
  apply runs_done. vm_compute. reflexivity.
Qed.

(** The push of a frame to the session, at its last call. *)
Definition m_push : Proto := mkProto OpPush 0 0 7 [].
Definition p_push : gprog unit := run (Push sizeOf "gate-1" "grpc://g1:9000" (Some (Some (FromBinding b_alice), 7, []))).
Definition k_push : bool * option error → gprog unit :=
  λ r, pbind (pbind (match r with
                     | (false, _) => Ret (Some (ESentinel ErrBindingChanged))
                     | (true, None) => Ret None
                     | (true, Some err) =>
                         Ret (Some (if errors_Is err ErrFrameTooLarge then ESentinel ErrFrameTooLarge
                                    else if errors_Is err ErrSendQueueFull then ESentinel ErrConnectionBusy
                                    else ESentinel ErrConnectionUnavailable))
                     end) (λ err, Ret (rpcError <$> err))) (λ _, Ret tt).
Definition t_push : thread := mkThread false (Act (Send 1 b_alice m_push) k_push) hist0.
Definition pushing : gate := alone w2 (<[2%nat := t_push]> {[1%nat := t_auth; 0%nat := t_open]}).

Lemma reach_pushing : Reach pushing.
Proof.
  apply (reach_go w2 _ 2 p_push (Act (Send 1 b_alice m_push) k_push, hist0, w2) reach_bound); [done|constructor|].
  eapply (runs_act (Get "c1") _ (Some 1%nat)); [done|]. apply runs_done. reflexivity.
Qed.

Lemma push_reaches_holder_witness : b_alice ∈ bound (wd pushing) ∧ b_alice ∉ unbound (wd pushing).
Proof.
  destruct (push_reaches_holder anyCode decodeAny sizeOf "gate-1" "grpc://g1:9000" 30 10 pushing w2 2 false 1 b_alice m_push k_push hist0 None
    reach_pushing eq_refl) as (_ & _ & _ & Hb & Hu & _).
  - split; [exists s2; split; reflexivity|reflexivity].
  - exact (conj Hb Hu).
Defined.

Definition bound_ : gate := alone w2 {[1%nat := t_auth; 0%nat := t_open]}.

Lemma gateway_bindings_accounted_witness :
  cnt b_alice (unbound (wd bound_)) + msum (holds b_alice) (heap (wd bound_)) + tsum (owns b_alice) (threads bound_) = 1.
Proof.
  apply (proj1 (gateway_bindings_accounted anyCode decodeAny sizeOf "gate-1" "grpc://g1:9000" 30 10 bound_ b_alice reach_bound)).
  by left.
Defined.

(** The connection closes: its binding is given back. *)
Definition w3 : world :=
  mkWorld (mkRegistry (Some ∅) true 0) {[1%nat := mkSession 1 "c1" false 10 true zero_binding 0]} 0 ∅ ∅ {["t1"]} [b_alice] [] [b_alice] [].
Definition h_close : hist := hist0 <| expired := true |>.
Definition t_close : thread := mkThread false (Ret tt) h_close.
Definition closed : gate := alone w3 (<[2%nat := t_close]> {[1%nat := t_auth; 0%nat := t_open]}).

Lemma reach_connection_closed : Reach closed.
Proof.
  apply (reach_go w2 _ 2 (run (Close 1 "c1")) (Ret tt, h_close, w3) reach_bound); [done|constructor|].
  eapply (runs_act (Remove "c1" 1) _ (Some 1%nat)); [split; reflexivity|].
  eapply (runs_act (DetachClose 1) _ b_alice).
  { split; [set_solver|]. split; [set_solver|]. exists s2. split; [reflexivity|split; reflexivity]. }
  eapply (runs_act (Unbind Cleanup b_alice) _ None); [reflexivity|].
  eapply (runs_act (CtxErr Cleanup) _ (Some (ESentinel CtxDeadlineExceeded))); [reflexivity|].
  apply runs_done. vm_compute. reflexivity.
Qed.

Lemma gateway_no_binding_lost_witness :
  b_alice ∈ unbound (wd closed) ∨
  (∃ sid se, heap (wd closed) !! sid = Some se ∧ binding se = b_alice ∧ get (connID se) (reg (wd closed)) = Some sid) ∨
  (∃ p t, threads closed !! p = Some t ∧ draining t = true ∧ expired (hist_of t) = true ∧ owned (hist_of t) = Some b_alice).
Proof.
  apply (gateway_no_binding_lost anyCode decodeAny sizeOf "gate-1" "grpc://g1:9000" 30 10 closed b_alice reach_connection_closed).
  - intros p t Hp. simpl in Hp. repeat (apply lookup_insert_Some in Hp as [[_ <-]|[_ Hp]]; [reflexivity|]).
    apply lookup_singleton_Some in Hp as [_ <-]. reflexivity.
  - reflexivity.
  - by left.
Defined.

(** A request is forwarded to the node the store reported. *)
Definition req_ : ForwardRequest := mkForwardRequest "n1" "e1" (Some (FromBinding b_alice)) 3 [].
Definition m_req : Proto := mkProto OpRequest 2 0 3 [].
Definition p_req : gprog unit := run (Handle anyCode decodeAny sizeOf "gate-1" "grpc://g1:9000" 30 1 "c1" m_req).
Definition h_req : hist :=
  hist0 <| holdH := Some 1%nat |> <| routed := Some b_alice |> <| located := Some ("game", "alice", "n1") |>
        <| epoched := Some ("game", "n1", "e1") |>.

Lemma runs_forward : ∃ k, runs (p_req, hist0, w2) (Act (NodeForward RpcCtx "n1" req_) k, h_req, w2 <| locksH := {[1%nat]} |>).
Proof.
  eexists. eapply (runs_act (Get "c1") _ (Some 1%nat)); [done|].
  eapply (runs_act (Lock HandlerMu 1) _ tt); [split; [set_solver|reflexivity]|].
  eapply (runs_act Now _ 0); [split; reflexivity|].
  eapply (runs_act (RouteOf 1 0) _ (b_alice, true)); [split; [exists s2; split; reflexivity|reflexivity]|].
  eapply (runs_act (CtxErr RpcCtx) _ None); [reflexivity|].
  eapply (runs_act (Backend RpcCtx "game") _ (Ok (mkSnapshot true true {["n1" := "10.0.0.3:9000"]}))); [reflexivity|].
  eapply (runs_act (LocateNode RpcCtx "game" "alice") _ (Ok "n1")); [reflexivity|].
  eapply (runs_act (LocateNodeEpoch RpcCtx "game" "n1") _ (Ok "e1")); [reflexivity|].
  apply runs_done. reflexivity.
Qed.

Lemma forward_claims_located_witness :
  ∃ b, ValidGateBinding b = true ∧ f_Route req_ = Some (FromBinding b) ∧ claim_ok (ServiceName b) (UID b) req_ h_req.
Proof.
  destruct runs_forward as [k Hk].
  destruct (forward_claims_located anyCode decodeAny sizeOf "gate-1" "grpc://g1:9000" 30 10
    (alone (w2 <| locksH := {[1%nat]} |>)
       (<[2%nat := mkThread false (Act (NodeForward RpcCtx "n1" req_) k) h_req]> {[1%nat := t_auth; 0%nat := t_open]}))
    2 false RpcCtx "n1" req_ k h_req) as (b & _ & H1 & _ & H2 & _ & H3).
  - refine (reach_go w2 _ 2 p_req _ reach_bound _ _ Hk); [done|constructor].
  - reflexivity.
  - exists b. exact (conj H1 (conj H2 H3)).
Defined.

(** Shutdown begins, with no authentication in progress. *)
Definition shutting : gate := mkGate (admission_to false w2) {[1%nat := t_auth; 0%nat := t_open]} true ∅.
Definition taken : gate := mkGate (w2 <| reg := mkRegistry None false 0 |>) {[1%nat := t_auth; 0%nat := t_open]} true {[1%nat]}.

Lemma gateway_quiesced_witness : bound (wd taken) = [b_alice] ∧ doubtful (wd taken) = [].
Proof.
  apply (gateway_quiesced anyCode decodeAny sizeOf "gate-1" "grpc://g1:9000" 30 10 shutting taken); [|reflexivity..|].
  - exact (reach_step _ _ bound_ _ reach_bound (g_shut _ _ _ _ _ _ _ bound_)).
  - apply rtc_once. exact (g_take _ _ _ _ _ _ _ shutting eq_refl).
Defined.
End GatewayExample.
