(* ===== verification/Broadcast.v ===== *)
(** * Broadcasts of a Gateway (gateway/broadcast.go)

    One coordinator takes accepted messages from a bounded queue and spreads
    each over worker goroutines, which share one prepared message and one
    buffer of sessions.  The model keeps that sharing: a batch is a range of
    the buffer and a worker reads the prepared message when it sends.  Proved:
    every connection sees the messages in the order they were accepted and each
    at most once, a completed message was offered to every session of its
    snapshot, and no goroutine ever waits for room in a channel, so that a
    cancelled run ends. *)

From S2P Require Import Prelude Errors Proto.

Definition u64 (n : Z) : Z := n `mod` 2 ^ 64.

(** ** State *)

(** Where the coordinator is: waiting for a message, before the reset of the
    prepared message, sending the batch at [offset], collecting the ends of [remaining] batches, about to record the
    completion, in [finishRun] before [cancel], and waiting for the workers. *)
Inductive coordinator :=
| CWait
| CReset (m : Proto)
| CSend (offset started : nat)
| CCollect (remaining : nat)
| CRecord
| CFinish
| CJoin.

(** [WSend i hi]: about to send to the session at [i] of the batch that ends
    at [hi]. *)
Inductive worker := WIdle | WSend (i hi : nat) | WSignal | WExited.

Record broadcastRun := mkRun {
  rid : nat;                                (* the run's identity *)
  cancelled : bool;                         (* ctx *)
  pushes : list Proto;
  batches : list (nat * nat);               (* ranges of [buffer] *)
  batchDone : nat;                          (* tokens in the channel *)
  buffer : list nat;                        (* [sessions] *)
  prepared : option Proto;
  wg : Z;
  coord : coordinator;
  ws : gmap nat worker;
}.
#[export] Instance eta_run : Eta broadcastRun := λ r,
  mkRun (rid r) (cancelled r) (pushes r) (batches r) (batchDone r) (buffer r) (prepared r) (wg r) (coord r) (ws r).

Record broadcaster := mkBroadcaster {
  active : option broadcastRun;
  accepted : Z;
  completed : Z;
  queueDropped : Z;
  sendDropped : Z;
  lastFanout : Z;
  maxFanout : Z;
}.
#[export] Instance eta_broadcaster : Eta broadcaster := λ b,
  mkBroadcaster (active b) (accepted b) (completed b) (queueDropped b) (sendDropped b)
    (lastFanout b) (maxFanout b).

Record BroadcastStats := mkStats {
  QueueDepth : nat; QueueCapacity : nat; Accepted : Z; Completed : Z;
  QueueDropped : Z; SendDropped : Z; LastFanoutDuration : Z; MaxFanoutDuration : Z;
}.

(** [Broadcast] up to [enqueue]: the message to accept. *)
Definition Broadcast_message (protoSize : Proto → Z) (command : Z) (payload : bytes) : result Proto :=
  let message := mkProto OpPush 0 0 command payload in
  if negb (protoSize message <=? MaxProtoSize) then Err (ESentinel ErrFrameTooLarge) else Ok message.

Section Broadcast.
Context (workers queueCapacity : nat).

Definition newBroadcaster : broadcaster := mkBroadcaster None 0 0 0 0 0 0.

(** ** Entry points *)

Definition start (id : nat) (b : broadcaster) : broadcaster * option error :=
  match active b with
  | Some _ => (b, Some (EText "gateway: broadcaster is already started"))
  | None =>
      (b <| active := Some (mkRun id false [] [] 0 [] None (Z.of_nat workers) CWait
                              (gset_to_gmap WIdle (list_to_set (seq 0 workers)))) |>, None)
  end.

(** The locked section of [stop]: the run to wait for. *)
Definition stop_enter (b : broadcaster) : broadcaster * option nat :=
  match active b with
  | None => (b, None)
  | Some r => (b <| active := Some (r <| cancelled := true |>) |>, Some (rid r))
  end.

(** The guard of [enqueue], under the read lock. *)
Definition enqueue_check (b : broadcaster) : bool :=
  match active b with Some r => negb (cancelled r) | None => false end.

Definition recordDrop (dropped : Z) : Z := u64 (dropped + 1).

(** The select of [enqueue]. *)
Definition enqueue_select (message : Proto) (b : broadcaster) : broadcaster * option error :=
  match active b with
  | None => (b, Some (ESentinel ErrBroadcastUnavailable))
  | Some r =>
      if (length (pushes r) <? queueCapacity)%nat
      then (b <| active := Some (r <| pushes := pushes r ++ [message] |>) |> <| accepted := u64 (accepted b + 1) |>, None)
      else (b <| queueDropped := recordDrop (queueDropped b) |>, Some (ESentinel ErrBroadcastQueueFull))
  end.

Definition stats (b : broadcaster) : BroadcastStats :=
  mkStats (match active b with Some r => length (pushes r) | None => 0 end) queueCapacity
    (accepted b) (completed b) (queueDropped b) (sendDropped b) (lastFanout b) (maxFanout b).

(** ** The coordinator *)

Definition recordCompleted (duration : Z) (b : broadcaster) : broadcaster :=
  let nanoseconds := u64 duration in
  b <| lastFanout := nanoseconds |>
    <| maxFanout := if maxFanout b <? nanoseconds then nanoseconds else maxFanout b |>
    <| completed := u64 (completed b + 1) |>.

Definition batchCount (sessions : nat) : nat := Nat.min workers sessions.
Definition batchSize (sessions : nat) : nat := ((sessions + batchCount sessions - 1) / batchCount sessions)%nat.

(** [fanout] up to its first select: the message is put into the shared cell
    and the sessions into the shared buffer. *)
Definition fanout_enter (message : Proto) (sessions : list nat) (r : broadcastRun) : broadcastRun :=
  let r := r <| prepared := Some message |> <| buffer := sessions |> in
  if decide (batchCount (length sessions) = 0%nat) then r <| coord := CRecord |> else r <| coord := CSend 0 0 |>.

(** One batch is handed over. *)
Definition fanout_send (offset started : nat) (r : broadcastRun) : broadcastRun :=
  let offset' := (offset + batchSize (length (buffer r)))%nat in
  r <| batches := batches r ++ [(offset, Nat.min offset' (length (buffer r)))] |>
    <| coord := if decide (offset' < length (buffer r))%nat then CSend offset' (S started) else CCollect (S started) |>.

(** One end of a batch is received; after the last the buffer is cleared. *)
Definition fanout_collect (remaining : nat) (r : broadcastRun) : broadcastRun :=
  match remaining with
  | S (S k) => r <| batchDone := pred (batchDone r) |> <| coord := CCollect (S k) |>
  | _ => r <| batchDone := pred (batchDone r) |> <| buffer := [] |> <| coord := CRecord |>
  end.

(** ** The goroutines together *)

Inductive stopper := SWait (id : nat) | SReturned (id : option nat) (err : option error).

(** [sending]: callers in the read section of [enqueue]; [doneRuns]: the runs
    whose [done] is closed.  The rest is history: the messages accepted, those
    taken before the one being spread, that one, its snapshot, the sessions it
    was offered to, and what each session's connection was given. *)
Record sys := mkSys {
  br : broadcaster;
  next : nat;
  sending : gmap nat Proto;
  stops : gmap nat stopper;
  doneRuns : gset nat;
  acc : list Proto;
  past : list Proto;
  cur : option Proto;
  snap : list nat;
  tried : list nat;
  log : nat → list Proto;
}.
#[export] Instance eta_sys : Eta sys := λ s,
  mkSys (br s) (next s) (sending s) (stops s) (doneRuns s) (acc s) (past s) (cur s) (snap s) (tried s) (log s).

Definition set_run (r : broadcastRun) (s : sys) : sys := s <| br := (br s) <| active := Some r |> |>.

Definition took (s : sys) : list Proto := past s ++ option_list (cur s).

Definition logged (sid : nat) (m : option Proto) (f : nat → list Proto) : nat → list Proto :=
  λ x, if decide (x = sid) then f x ++ option_list m else f x.

(** Callers.  The write lock needs the read sections to be left. *)
Inductive call_step (s : sys) : sys → Prop :=
| b_start b :
    sending s = ∅ → start (next s) (br s) = (b, None) →
    call_step s (s <| br := b |> <| next := S (next s) |> <| past := took s |> <| cur := None |>)
| b_enqueue i m :
    sending s !! i = None → enqueue_check (br s) = true →
    call_step s (s <| sending := <[i := m]> (sending s) |>)
| b_select i m b err :
    sending s !! i = Some m → enqueue_select m (br s) = (b, err) →
    call_step s (s <| br := b |> <| sending := delete i (sending s) |>
                   <| acc := match err with None => acc s ++ [m] | Some _ => acc s end |>)
| b_stop i b w :
    sending s = ∅ → stops s !! i = None → stop_enter (br s) = (b, w) →
    call_step s (s <| br := b |>
                   <| stops := <[i := match w with Some id => SWait id | None => SReturned None None end]> (stops s) |>)
| b_wait i id ctxErr err :
    stops s !! i = Some (SWait id) → Done (bool_decide (id ∈ doneRuns s)) ctxErr = Some err →
    call_step s (s <| stops := <[i := SReturned (Some id) err]> (stops s) |>).

(** [coordinate], [fanout] and [finishRun]. *)
Inductive coord_step (s : sys) (r : broadcastRun) : sys → Prop :=
| c_cancel : coord r = CWait → cancelled r = true → coord_step s r (set_run (r <| coord := CFinish |>) s)
| c_take m l :
    coord r = CWait → pushes r = m :: l →
    coord_step s r ((set_run (r <| pushes := l |> <| coord := CReset m |>) s) <| past := took s |> <| cur := Some m |>)
| c_enter m sessions :                      (* snapshot: distinct sessions *)
    coord r = CReset m → NoDup sessions →
    coord_step s r ((set_run (fanout_enter m sessions r) s) <| snap := sessions |> <| tried := [] |>)
| c_send offset started :
    coord r = CSend offset started → (length (batches r) < workers)%nat →
    coord_step s r (set_run (fanout_send offset started r) s)
| c_collect n :
    coord r = CCollect n → (0 < batchDone r)%nat → coord_step s r (set_run (fanout_collect n r) s)
| c_abandon :
    (match coord r with CSend _ _ | CCollect _ => True | _ => False end) → cancelled r = true →
    coord_step s r (set_run (r <| coord := CFinish |>) s)
| c_record duration :
    coord r = CRecord →
    coord_step s r (s <| br := recordCompleted duration ((br s) <| active := Some (r <| coord := CWait |>) |>) |>)
| c_finish :
    coord r = CFinish → coord_step s r (set_run (r <| cancelled := true |> <| coord := CJoin |>) s)
| c_join :
    coord r = CJoin → wg r = 0 → sending s = ∅ →
    coord_step s r (s <| br := (br s) <| active := None |> |> <| doneRuns := doneRuns s ∪ {[rid r]} |>).

(** [fanoutWorker] and [sendBatch]; [ctx] may be cancelled after the check. *)
Inductive worker_step (s : sys) (r : broadcastRun) (k : nat) : sys → Prop :=
| w_exit :
    ws r !! k = Some WIdle → cancelled r = true →
    worker_step s r k (set_run (r <| wg := wg r - 1 |> <| ws := <[k := WExited]> (ws r) |>) s)
| w_take lo hi l :
    ws r !! k = Some WIdle → batches r = (lo, hi) :: l →
    worker_step s r k (set_run (r <| batches := l |> <| ws := <[k := WSend lo hi]> (ws r) |>) s)
| w_send i hi sid (matched : bool) (err : option error) :
    ws r !! k = Some (WSend i hi) → (i < hi)%nat → buffer r !! i = Some sid →
    worker_step s r k
      (s <| br := (br s) <| active := Some (r <| ws := <[k := WSend (S i) hi]> (ws r) |>) |>
                         <| sendDropped := match matched, err with
                                           | true, Some _ => recordDrop (sendDropped (br s))
                                           | _, _ => sendDropped (br s)
                                           end |> |>
         <| tried := sid :: tried s |>
         <| log := match matched, err with true, None => logged sid (prepared r) (log s) | _, _ => log s end |>)
| w_abort i hi :
    ws r !! k = Some (WSend i hi) → (i < hi)%nat → cancelled r = true →
    worker_step s r k (set_run (r <| ws := <[k := WSignal]> (ws r) |>) s)
| w_end i hi :
    ws r !! k = Some (WSend i hi) → (hi ≤ i)%nat →
    worker_step s r k (set_run (r <| ws := <[k := WSignal]> (ws r) |>) s)
| w_signal :
    ws r !! k = Some WSignal → (batchDone r < workers)%nat →
    worker_step s r k (set_run (r <| batchDone := S (batchDone r) |> <| ws := <[k := WIdle]> (ws r) |>) s).

Inductive step (s : sys) : sys → Prop :=
| s_call s' : call_step s s' → step s s'
| s_coord r s' : active (br s) = Some r → coord_step s r s' → step s s'
| s_worker r k s' : active (br s) = Some r → worker_step s r k s' → step s s'.

Definition init_sys (s : sys) : Prop :=
  s = mkSys newBroadcaster 0 ∅ ∅ ∅ [] [] None [] [] (λ _, []).

Definition reach : sys → Prop := reachable init_sys step.

(** ** Invariant *)

(** How often the session at [j] of the buffer is still to be served. *)
Definition in_range (j : nat) (b : nat * nat) : Z := one (bool_decide (b.1 ≤ j < b.2)%nat).
Definition serving (j : nat) (w : worker) : Z := match w with WSend i hi => in_range j (i, hi) | _ => 0 end.
Definition offering (j n : nat) (c : coordinator) : Z := match c with CSend o _ => in_range j (o, n) | _ => 0 end.
Definition pend (r : broadcastRun) (j : nat) : Z :=
  offering j (length (buffer r)) (coord r) + lsum (in_range j) (batches r) + msum (serving j) (ws r).

(** Batches not yet collected. *)
Definition busy (w : worker) : Z := match w with WSend _ _ | WSignal => 1 | _ => 0 end.
Definition running (w : worker) : Z := match w with WExited => 0 | _ => 1 end.
Definition outstanding (r : broadcastRun) : Z :=
  Z.of_nat (batchDone r) + Z.of_nat (length (batches r)) + msum busy (ws r).

(** What the coordinator expects. *)
Definition expects (r : broadcastRun) : Prop :=
  match coord r with
  | CWait | CReset _ | CRecord => outstanding r = 0
  | CSend o st =>
      outstanding r = Z.of_nat st ∧ o = (st * batchSize (length (buffer r)))%nat ∧ (o < length (buffer r))%nat ∧
      batchCount (length (buffer r)) ≠ 0%nat
  | CCollect n => outstanding r = Z.of_nat n ∧ (n ≤ workers)%nat ∧ n ≠ 0%nat
  | CFinish | CJoin => outstanding r ≤ Z.of_nat workers
  end.

Record run_ok (s : sys) (r : broadcastRun) : Prop := mkRunOk {
  ro_nodup : NoDup (buffer r);
  ro_pend : ∀ j, pend r j ≤ 1 ∧ (pend r j = 1 → (j < length (buffer r))%nat);
  ro_todo : ∀ j sid, buffer r !! j = Some sid → pend r j = 1 → log s sid `sublist_of` past s;
  ro_reset : ∀ m, coord r = CReset m → cur s = Some m ∧ ∀ sid, log s sid `sublist_of` past s;
  ro_prepared : (∀ m, coord r ≠ CReset m) → prepared r = cur s;
  ro_expects : expects r;
  ro_wg : wg r = msum running (ws r);
  ro_exited : ∀ k, ws r !! k = Some WExited → cancelled r = true;
  ro_join : coord r = CJoin → cancelled r = true;
  ro_keys : ∀ k w, ws r !! k = Some w → (k < workers)%nat;
  ro_tried : cancelled r = false → (0 < workers)%nat →
    match coord r with
    | CSend _ _ | CCollect _ =>
        snap s = buffer r ∧ ∀ j sid, buffer r !! j = Some sid → pend r j = 0 → sid ∈ tried s
    | CRecord => ∀ sid, sid ∈ snap s → sid ∈ tried s
    | _ => True
    end;
  ro_queue : took s ++ pushes r `sublist_of` acc s;
  ro_bound : (length (pushes r) ≤ queueCapacity)%nat;
  ro_rid : (rid r < next s)%nat ∧ rid r ∉ doneRuns s;
}.

Record inv (s : sys) : Prop := mkInv {
  in_log : ∀ sid, log s sid `sublist_of` took s;
  in_took : took s `sublist_of` acc s;
  in_run : ∀ r, active (br s) = Some r → run_ok s r;
  in_done : ∀ id, id ∈ doneRuns s → (id < next s)%nat;
  in_stops : ∀ i id, stops s !! i = Some (SReturned (Some id) None) → id ∈ doneRuns s;
}.

(** *** Batches *)

Lemma batchSize_pos n : batchCount n ≠ 0%nat → (0 < batchSize n)%nat.
Proof.
  intros H. unfold batchSize. apply Nat.div_str_pos. unfold batchCount in *. lia.
Qed.

(** The batches are no more than the workers. *)
Lemma batch_within n st : batchCount n ≠ 0%nat → (st * batchSize n < n)%nat → (st < workers)%nat.
Proof.
  intros Hb Hst. assert (Hc : (n ≤ batchCount n * batchSize n)%nat).
  { unfold batchSize. pose proof (Nat.div_mod_eq (n + batchCount n - 1) (batchCount n)) as Hd.
    pose proof (Nat.mod_upper_bound (n + batchCount n - 1) (batchCount n) Hb). lia. }
  assert (Hle : (batchCount n ≤ workers)%nat) by (unfold batchCount; lia).
  destruct (decide (st < batchCount n)%nat) as [|Hge]; [lia|]. exfalso.
  assert (batchCount n * batchSize n ≤ st * batchSize n)%nat; [|lia]. apply Nat.mul_le_mono_r. lia.
Qed.

Lemma serving_nonneg j w : 0 ≤ serving j w.
Proof. destruct w; simpl; try done. apply one_nonneg. Qed.

Lemma bc_pend_nonneg r j : 0 ≤ pend r j.
Proof.
  unfold pend. pose proof (lsum_nonneg (in_range j) (batches r) (λ b, one_nonneg _)).
  pose proof (msum_nonneg (serving j) (ws r) (serving_nonneg j)).
  assert (0 ≤ offering j (length (buffer r)) (coord r)) by (unfold offering; case_match; try done; apply one_nonneg).
  lia.
Qed.

Lemma in_range_1 j lo hi : in_range j (lo, hi) = 1 ↔ (lo ≤ j < hi)%nat.
Proof. unfold in_range, one. simpl. by case_bool_decide. Qed.

Lemma in_range_split j lo mid hi :
  (lo ≤ mid ≤ hi)%nat → in_range j (lo, hi) = in_range j (lo, mid) + in_range j (mid, hi).
Proof. intros H. unfold in_range, one; simpl. repeat case_bool_decide; lia. Qed.

Lemma in_range_empty j lo hi : (hi ≤ lo)%nat → in_range j (lo, hi) = 0.
Proof. intros H. unfold in_range, one; simpl. case_bool_decide; lia. Qed.

Lemma busy_nonneg w : 0 ≤ busy w.
Proof. by destruct w. Qed.

(** With nothing outstanding nothing is pending. *)
Lemma serving_busy j w : serving j w ≤ busy w.
Proof. destruct w; simpl; try done. unfold in_range, one. case_bool_decide; lia. Qed.

Lemma quiet_pend r j :
  (match coord r with CSend _ _ => False | _ => True end) → outstanding r = 0 → pend r j = 0.
Proof.
  intros Hc Ho. unfold outstanding in Ho. pose proof (msum_nonneg busy (ws r) busy_nonneg).
  assert (Hb : batches r = []) by (destruct (batches r); [done|simpl in Ho; lia]).
  pose proof (msum_le (serving j) busy (ws r) (serving_busy j)). pose proof (msum_nonneg (serving j) (ws r) (serving_nonneg j)).
  unfold pend. rewrite Hb. simpl. unfold offering. destruct (coord r); try done; lia.
Qed.

(** *** Steps of the workers *)

Definition fixed (r : broadcastRun) := (rid r, cancelled r, pushes r, buffer r, prepared r, coord r).
Definition kept (s : sys) := (acc s, past s, cur s, snap s, next s, doneRuns s).

Lemma run_ok_work s s' r r' :
  run_ok s r → fixed r' = fixed r → kept s' = kept s → tried s ⊆ tried s' →
  (∀ j, pend r' j ≤ pend r j) →
  (∀ j sid, buffer r !! j = Some sid → pend r' j = 0 → pend r j = 1 → sid ∈ tried s' ∨ cancelled r = true) →
  (∀ j sid, buffer r !! j = Some sid → pend r' j = 1 → log s' sid = log s sid) →
  (∀ m, coord r = CReset m → log s' = log s) →
  outstanding r' = outstanding r → wg r' = msum running (ws r') →
  (∀ k, ws r' !! k = Some WExited → cancelled r = true) → (∀ k w, ws r' !! k = Some w → (k < workers)%nat) →
  run_ok s' r'.
Proof.
  intros [R1 R2 R3 R4 R5 R6 R7 R8 R9 R10 R11 R12 R13 R14] Hf Hk Htr Hp Hdone Hlog Hres Ho Hwg Hex Hkeys.
  unfold fixed in Hf. unfold kept in Hk. injection Hf as F1 F2 F3 F4 F5 F6. injection Hk as K1 K2 K3 K4 K5 K6.
  split; unfold took in *; rewrite ?F1, ?F2, ?F3, ?F4, ?F5, ?F6, ?K1, ?K2, ?K3, ?K4, ?K5, ?K6; try done.
  - intros j. destruct (R2 j) as [H1 H2]. specialize (Hp j). split; [lia|]. intros. apply H2.
    pose proof (bc_pend_nonneg r' j). lia.
  - intros j sid Hb H1. rewrite (Hlog j sid Hb H1). apply (R3 j); [done|]. specialize (Hp j). destruct (R2 j). lia.
  - intros m Hm. rewrite (Hres m Hm). by apply R4.
  - unfold expects in *. rewrite F6, F4, Ho. done.
  - intros Hc Hw. specialize (R11 Hc Hw). destruct (coord r) eqn:Ec; try done; simpl in *.
    + destruct R11 as [Hs Ht]. split; [done|]. intros j sid Hb H0.
      destruct (decide (pend r j = 0)) as [|H1]; [by eapply Htr, Ht|].
      destruct (Hdone j sid Hb H0); [|done|congruence]. pose proof (bc_pend_nonneg r j). destruct (R2 j). lia.
    + destruct R11 as [Hs Ht]. split; [done|]. intros j sid Hb H0.
      destruct (decide (pend r j = 0)) as [|H1]; [by eapply Htr, Ht|].
      destruct (Hdone j sid Hb H0); [|done|congruence]. pose proof (bc_pend_nonneg r j). destruct (R2 j). lia.
    + intros sid Hs. apply Htr. auto.
Qed.

(** The sums after a worker moved. *)
Lemma worker_sums r k w w' (l : list (nat * nat)) :
  ws r !! k = Some w →
  let r' := r <| batches := l |> <| ws := <[k := w']> (ws r) |> in
  (∀ j, pend r' j = pend r j - lsum (in_range j) (batches r) + lsum (in_range j) l - serving j w + serving j w') ∧
  outstanding r' = outstanding r - Z.of_nat (length (batches r)) + Z.of_nat (length l) - busy w + busy w' ∧
  msum running (ws r') = msum running (ws r) - running w + running w'.
Proof.
  intros Hk r'. unfold pend, outstanding, r'; simpl.
  split_and!; [intros j|..]; rewrite (msum_insert _ k w) by done; lia.
Qed.

Lemma keys_insert (m : gmap nat worker) k w w' :
  m !! k = Some w → (∀ k w, m !! k = Some w → (k < workers)%nat) →
  ∀ k0 w0, <[k := w']> m !! k0 = Some w0 → (k0 < workers)%nat.
Proof.
  intros Hk H k0 w0. rewrite lookup_insert_Some. intros [[<- _]|[_ ?]]; eauto.
Qed.

Lemma exited_insert (m : gmap nat worker) k w (c : bool) :
  (∀ k, m !! k = Some WExited → c = true) → (w = WExited → c = true) →
  ∀ k0, <[k := w]> m !! k0 = Some WExited → c = true.
Proof. intros H Hw k0. rewrite lookup_insert_Some. intros [[_ ?]|[_ ?]]; eauto. Qed.

Lemma inv_work s s' r r' :
  inv s → active (br s) = Some r → active (br s') = Some r' → kept s' = kept s → stops s' = stops s →
  run_ok s' r' → (∀ sid, log s' sid `sublist_of` took s) → inv s'.
Proof.
  intros [I1 I2 I3 I4 I5] Ha Ha' Hk Hst Hr Hlog. unfold kept in Hk. injection Hk as K1 K2 K3 K4 K5 K6.
  split; unfold took in *; rewrite ?K1, ?K2, ?K3, ?K5, ?K6, ?Hst; try done.
  intros r0 Hr0. congruence.
Qed.

(** A worker reads the message its batch is for. *)
Lemma worker_reads s r k i hi :
  run_ok s r → ws r !! k = Some (WSend i hi) → (i < hi)%nat → prepared r = cur s ∧ pend r i = 1.
Proof.
  intros R Hk Hi. assert (Hs : serving i (WSend i hi) = 1) by (apply in_range_1; lia).
  pose proof (msum_lookup_le (serving i) k _ (ws r) (λ _ _ _, serving_nonneg i _) Hk) as Hle.
  pose proof (lsum_nonneg (in_range i) (batches r) (λ b, one_nonneg _)).
  assert (0 ≤ offering i (length (buffer r)) (coord r)) by (unfold offering; case_match; try done; apply one_nonneg).
  assert (H1 : pend r i = 1) by (destruct (ro_pend s r R i); unfold pend in *; lia).
  split; [|done]. apply (ro_prepared s r R). intros m Hm.
  pose proof (ro_expects s r R) as He. unfold expects in He. rewrite Hm in He.
  assert (pend r i = 0); [|lia]. apply quiet_pend; [by rewrite Hm|done].
Qed.

Lemma pend_slot r j sid k : 
  NoDup (buffer r) → buffer r !! j = Some sid → buffer r !! k = Some sid → j = k.
Proof. intros. by eapply NoDup_lookup. Qed.

Lemma worker_ok s r k s' : inv s → active (br s) = Some r → worker_step s r k s' → inv s'.
Proof.
  intros Hi Ha Hs. pose proof (in_run s Hi r Ha) as R. pose proof R as [R1 R2 R3 R4 R5 R6 R7 R8 R9 R10 R11 R12 R13 R14].
  assert (Hlog0 : ∀ sid, log s sid `sublist_of` took s) by apply (in_log s Hi).
  destruct Hs as [Hk Hc|lo hi l Hk Hb|i hi sid matched err Hk Hlt Hb|i hi Hk Hlt Hc|i hi Hk Hge|Hk Hroom].
  - destruct (worker_sums r k WIdle WExited (batches r) Hk) as (P & O & W).
    eapply (inv_work s _ r); [done|done|reflexivity|done|done| |done].
    apply (run_ok_work s _ r); try done; simpl.
    + intros j. specialize (P j). unfold pend in *; simpl in *. lia.
    + intros j x _ H0 H1. specialize (P j). unfold pend in *; simpl in *. lia.
    + unfold outstanding in *; simpl in *. lia.
    + simpl in W. lia.
    + by eapply keys_insert.
  - destruct (worker_sums r k WIdle (WSend lo hi) l Hk) as (P & O & W). rewrite Hb in P, O.
    eapply (inv_work s _ r); [done|done|reflexivity|done|done| |done].
    apply (run_ok_work s _ r); try done; simpl in *.
    + intros j. rewrite P. lia.
    + intros j x _. rewrite P. intros. lia.
    + rewrite O. lia.
    + rewrite W. lia.
    + refine (exited_insert (ws r) k _ (cancelled r) R8 _); done.
    + by eapply keys_insert.
  - destruct (worker_reads s r k i hi R Hk Hlt) as [Hpr Hp1].
    destruct (worker_sums r k (WSend i hi) (WSend (S i) hi) (batches r) Hk) as (P & O & W).
    assert (Hsplit : ∀ j, serving j (WSend i hi) = in_range j (i, S i) + serving j (WSend (S i) hi)).
    { intros j. simpl. apply in_range_split. lia. }
    assert (Hlog : ∀ x, log s x `sublist_of` past s ∨ x ≠ sid).
    { intros x. destruct (decide (x = sid)) as [->|]; [left; by apply (R3 i)|by right]. }
    eapply (inv_work s _ r); [done|done|reflexivity|done|done| |].
    + apply (run_ok_work s _ r); try done; simpl in *.
      * set_solver.
      * intros j. specialize (P j). specialize (Hsplit j). unfold pend in *; simpl in *.
        pose proof (one_nonneg (bool_decide (i ≤ j < S i)%nat)). unfold in_range at 2 in Hsplit. simpl in Hsplit. lia.
      * intros j x Hx H0 H1. left. specialize (P j). specialize (Hsplit j). unfold pend in *; simpl in *.
        assert (in_range j (i, S i) = 1) as Hj%in_range_1 by lia. assert (j = i) as -> by lia.
        simplify_eq. by left.
      * intros j x Hx H1. destruct (decide (x = sid)) as [->|Hne].
        -- exfalso. assert (j = i) as -> by (by eapply NoDup_lookup).
           specialize (P i). specialize (Hsplit i). unfold pend in *; simpl in *.
           assert (in_range i (i, S i) = 1) by (apply in_range_1; lia). lia.
        -- unfold logged. destruct matched, err; simpl; try done. by rewrite decide_False.
      * intros m Hm. exfalso. unfold expects in R6. rewrite Hm in R6.
        assert (pend r i = 0); [|lia]. apply quiet_pend; [by rewrite Hm|done].
      * unfold outstanding in *; simpl in *. lia.
      * simpl in W. lia.
      * refine (exited_insert (ws r) k _ (cancelled r) R8 _); done.
      * by eapply keys_insert.
    + intros x. simpl. destruct matched, err; try apply Hlog0. unfold logged. case_decide as Hx; [|apply Hlog0].
      subst x. destruct (Hlog sid) as [Hl|]; [|done]. unfold took. rewrite Hpr. by apply sublist_app.
  - destruct (worker_sums r k (WSend i hi) WSignal (batches r) Hk) as (P & O & W).
    eapply (inv_work s _ r); [done|done|reflexivity|done|done| |done].
    apply (run_ok_work s _ r); try done; simpl in *.
    + intros j. specialize (P j). pose proof (serving_nonneg j (WSend i hi)). unfold pend in *; simpl in *. lia.
    + auto.
    + unfold outstanding in *; simpl in *. lia.
    + simpl in W. lia.
    + by eapply keys_insert.
  - destruct (worker_sums r k (WSend i hi) WSignal (batches r) Hk) as (P & O & W).
    assert (Hz : ∀ j, serving j (WSend i hi) = 0) by (intros; by apply in_range_empty).
    eapply (inv_work s _ r); [done|done|reflexivity|done|done| |done].
    apply (run_ok_work s _ r); try done; simpl in *.
    + intros j. specialize (P j). specialize (Hz j). unfold pend in *; simpl in *. lia.
    + intros j x _ H0 H1. specialize (P j). specialize (Hz j). unfold pend in *; simpl in *. lia.
    + unfold outstanding in *; simpl in *. lia.
    + simpl in W. lia.
    + refine (exited_insert (ws r) k _ (cancelled r) R8 _); done.
    + by eapply keys_insert.
  - destruct (worker_sums r k WSignal WIdle (batches r) Hk) as (P & O & W).
    eapply (inv_work s _ r); [done|done|reflexivity|done|done| |done].
    apply (run_ok_work s _ r); try done; simpl in *.
    + intros j. specialize (P j). unfold pend in *; simpl in *. lia.
    + intros j x _ H0 H1. specialize (P j). unfold pend in *; simpl in *. lia.
    + unfold outstanding in *; simpl in *. lia.
    + simpl in W. lia.
    + refine (exited_insert (ws r) k _ (cancelled r) R8 _); done.
    + by eapply keys_insert.
Qed.

(** *** Steps of the coordinator *)

(** A move of the coordinator alone. *)
Lemma run_ok_coord s r c b :
  run_ok s r → (∀ m, coord r ≠ CReset m) → (∀ m, c ≠ CReset m) → (cancelled r = true → b = true) →
  (∀ j, pend (r <| coord := c |>) j ≤ pend r j) → expects (r <| coord := c |>) → (c = CJoin → b = true) →
  match c with CSend _ _ | CCollect _ | CRecord => False | _ => True end →
  run_ok s (r <| cancelled := b |> <| coord := c |>).
Proof.
  intros [R1 R2 R3 R4 R5 R6 R7 R8 R9 R10 R11 R12 R13 R14] Hn Hc Hb Hp He Hj Ht.
  set (r' := r <| cancelled := b |> <| coord := c |>).
  assert (Hp' : ∀ j, pend r' j ≤ 1 ∧ (pend r' j = 1 → pend r j = 1)).
  { intros j. specialize (Hp j). change (pend (r <| coord := c |>) j) with (pend r' j) in Hp. destruct (R2 j). lia. }
  split; try done.
  - intros j. destruct (Hp' j) as [H1 H2]. split; [done|]. intros H. by apply (R2 j), H2.
  - intros j sid Hs H1. apply (R3 j); [done|]. by apply (Hp' j).
  - intros m Hm. by destruct (Hc m).
  - intros _. by apply R5.
  - intros k Hk. by apply Hb, (R8 k).
  - intros _ _. simpl. by destruct c.
Qed.

Lemma inv_coord s r r' :
  inv s → active (br s) = Some r → run_ok s r' → inv (set_run r' s).
Proof.
  intros [I1 I2 I3 I4 I5] Ha R. split; simpl; try done. intros r0 [= <-].
  by destruct R; split.
Qed.

Lemma finish_ok s r :
  run_ok s r → (∀ m, coord r ≠ CReset m) → outstanding r ≤ Z.of_nat workers → run_ok s (r <| coord := CFinish |>).
Proof.
  intros R Hn Ho. apply (run_ok_coord s r CFinish (cancelled r)); try done; auto.
  intros j. unfold pend; simpl. assert (0 ≤ offering j (length (buffer r)) (coord r)); [|lia].
  unfold offering. case_match; try done. apply one_nonneg.
Qed.

Lemma take_ok s r m l :
  inv s → active (br s) = Some r → coord r = CWait → pushes r = m :: l →
  inv ((set_run (r <| pushes := l |> <| coord := CReset m |>) s) <| past := took s |> <| cur := Some m |>).
Proof.
  intros Hi Ha Hc Hl. pose proof (in_run s Hi r Ha) as [R1 R2 R3 R4 R5 R6 R7 R8 R9 R10 R11 R12 R13 R14].
  destruct Hi as [I1 I2 I3 I4 I5]. unfold expects in R6. rewrite Hc in R6.
  assert (Hq : ∀ j, pend r j = 0) by (intros; apply quiet_pend; [by rewrite Hc|done]).
  assert (Hq' : ∀ j, pend (r <| pushes := l |> <| coord := CReset m |>) j = 0).
  { intros j. specialize (Hq j). unfold pend in *; simpl. rewrite Hc in Hq. exact Hq. }
  rewrite Hl in R12, R13. unfold took in *.
  split; unfold took; simpl; try done.
  - intros sid. apply sublist_inserts_r, I1.
  - etrans; [|exact R12]. apply sublist_app; [done|]. apply sublist_skip, sublist_nil_l.
  - intros r0 [= <-]. split; unfold took; simpl; try done.
    all: try (intros j; rewrite Hq'; split; [lia|done]).
    all: try (intros Hn; by destruct (Hn m)).
    all: try (intros j sid _; by rewrite Hq').
    all: try (intros m0 [= <-]; done).
    all: try (by rewrite <- app_assoc).
    simpl in R13. lia.
Qed.

Lemma quiet_sums r j :
  outstanding r = 0 → batches r = [] ∧ batchDone r = 0%nat ∧ msum (serving j) (ws r) = 0 ∧ msum busy (ws r) = 0.
Proof.
  intros Ho. unfold outstanding in Ho. pose proof (msum_nonneg busy (ws r) busy_nonneg).
  pose proof (msum_le (serving j) busy (ws r) (serving_busy j)). pose proof (msum_nonneg (serving j) (ws r) (serving_nonneg j)).
  split_and!; [destruct (batches r); [done|simpl in Ho; lia]|lia|lia|lia].
Qed.

Lemma enter_ok s r m sessions :
  inv s → active (br s) = Some r → coord r = CReset m → NoDup sessions →
  inv ((set_run (fanout_enter m sessions r) s) <| snap := sessions |> <| tried := [] |>).
Proof.
  intros Hi Ha Hc Hnd. pose proof (in_run s Hi r Ha) as [R1 R2 R3 R4 R5 R6 R7 R8 R9 R10 R11 R12 R13 R14].
  destruct Hi as [I1 I2 I3 I4 I5]. unfold expects in R6. rewrite Hc in R6. destruct (R4 m Hc) as [Hcur Hlog].
  assert (Hp : ∀ j, pend (fanout_enter m sessions r) j =
    if decide (batchCount (length sessions) = 0%nat) then 0 else in_range j (0%nat, length sessions)).
  { intros j. destruct (quiet_sums r j R6) as (B1 & B2 & B3 & _). unfold fanout_enter, pend.
    case_decide; simpl; rewrite B1, B3; simpl; lia. }
  assert (Ho : outstanding (fanout_enter m sessions r) = 0).
  { rewrite <- R6. unfold fanout_enter, outstanding. by case_decide. }
  assert (Hf : buffer (fanout_enter m sessions r) = sessions ∧ prepared (fanout_enter m sessions r) = Some m ∧
               rid (fanout_enter m sessions r) = rid r ∧ pushes (fanout_enter m sessions r) = pushes r ∧
               ws (fanout_enter m sessions r) = ws r ∧ wg (fanout_enter m sessions r) = wg r ∧
               cancelled (fanout_enter m sessions r) = cancelled r ∧
               coord (fanout_enter m sessions r) =
                 if decide (batchCount (length sessions) = 0%nat) then CRecord else CSend 0 0).
  { unfold fanout_enter. by case_decide. }
  destruct Hf as (F1 & F2 & F3 & F4 & F5 & F6 & F7 & F8).
  split; simpl; try done. intros r0 [= <-].
  split; unfold expects; rewrite ?F1, ?F2, ?F3, ?F4, ?F5, ?F6, ?F7, ?F8; simpl; try done.
  - intros j. rewrite Hp. case_decide; [split; [lia|done]|]. unfold in_range, one; simpl.
    case_bool_decide; split; lia.
  - case_decide; naive_solver.
  - case_decide; [done|]. split_and!; [done|done| |done]. unfold batchCount in *. lia.
  - case_decide; naive_solver.
  - intros _ Hw. case_decide as Hd.
    + assert (sessions = []) as -> by (destruct sessions; [done|unfold batchCount in Hd; simpl in Hd; lia]).
      by intros sid ?%elem_of_nil.
    + split; [done|]. intros j sid Hj. rewrite Hp. intros H0.
      apply lookup_lt_Some in Hj. unfold in_range, one in H0; simpl in H0. case_bool_decide; [done|lia].
Qed.

Lemma send_ok s r o st :
  inv s → active (br s) = Some r → coord r = CSend o st → run_ok s (fanout_send o st r).
Proof.
  intros Hi Ha Hc. pose proof (in_run s Hi r Ha) as [R1 R2 R3 R4 R5 R6 R7 R8 R9 R10 R11 R12 R13 R14].
  unfold expects in R6. rewrite Hc in R6. destruct R6 as (Ho & Hos & Hon & Hbc).
  set (n := length (buffer r)) in *. set (o' := (o + batchSize n)%nat). set (r' := fanout_send o st r).
  pose proof (batchSize_pos n Hbc) as Hbs.
  assert (Hst : (st < workers)%nat) by (apply (batch_within n); [done|]; by rewrite <- Hos).
  assert (Hc' : coord r' = if decide (o' < n)%nat then CSend o' (S st) else CCollect (S st)) by done.
  assert (Hp : ∀ j, pend r' j = pend r j).
  { intros j. unfold pend. rewrite Hc', Hc. unfold r', fanout_send. simpl. fold n. fold o'. rewrite lsum_app. simpl.
    pose proof (in_range_split j o (Nat.min o' n) n ltac:(lia)) as Hsp. case_decide; simpl.
    - replace (Nat.min o' n) with o' in * by lia. lia.
    - replace (Nat.min o' n) with n in * by lia. rewrite (in_range_empty j n n) in Hsp by lia. lia. }
  split; rewrite ?Hc'; try done.
  - intros j. rewrite Hp. apply R2.
  - intros j sid. rewrite Hp. apply R3.
  - intros m. case_decide; done.
  - intros _. apply R5. by rewrite Hc.
  - unfold expects. rewrite Hc'. assert (Ho' : outstanding r' = Z.of_nat (S st)).
    { unfold outstanding, r', fanout_send in *; simpl. rewrite length_app. simpl. lia. }
    case_decide; [|split_and!; [done|lia|done]]. split_and!; [done| |done|done]. unfold o'. rewrite Hos. simpl. fold n. lia.
  - case_decide; done.
  - intros H1 H2. specialize (R11 H1 H2). rewrite Hc in R11. destruct R11 as [S1 S2].
    assert (S3 : ∀ j sid, buffer r !! j = Some sid → pend r' j = 0 → sid ∈ tried s).
    { intros j sid Hj. rewrite Hp. by apply S2. }
    case_decide; done.
Qed.

Lemma collect_ok s r n :
  inv s → active (br s) = Some r → coord r = CCollect n → (0 < batchDone r)%nat → run_ok s (fanout_collect n r).
Proof.
  intros Hi Ha Hc Hd. pose proof (in_run s Hi r Ha) as [R1 R2 R3 R4 R5 R6 R7 R8 R9 R10 R11 R12 R13 R14].
  unfold expects in R6. rewrite Hc in R6. destruct R6 as (Ho & Hn & Hn0).
  destruct n as [|[|n]]; [done| |].
  - simpl. set (r' := r <| batchDone := pred (batchDone r) |> <| buffer := [] |> <| coord := CRecord |>).
    assert (Ho' : outstanding r' = 0) by (unfold outstanding, r' in *; simpl; lia).
    assert (Hp : ∀ j, pend r' j = 0) by (intros; by apply quiet_pend).
    assert (Hq : ∀ j, pend r j = 0).
    { intros j. specialize (Hp j). unfold pend in *. rewrite Hc. exact Hp. }
    split; try done.
    + apply NoDup_nil_2.
    + intros j. rewrite Hp. split; [lia|done].
    + intros _. apply R5. by rewrite Hc.
    + intros H1 H2. simpl. specialize (R11 H1 H2). rewrite Hc in R11. destruct R11 as [S1 S2].
      intros sid. rewrite S1. intros [j Hj]%list_elem_of_lookup. by eapply S2.
  - simpl. set (r' := r <| batchDone := pred (batchDone r) |> <| coord := CCollect (S n) |>).
    assert (Hp : ∀ j, pend r' j = pend r j) by (intros j; unfold pend; by rewrite Hc).
    split; try done.
    + intros j. rewrite Hp. apply R2.
    + intros j sid. rewrite Hp. apply R3.
    + intros _. apply R5. by rewrite Hc.
    + unfold expects; simpl. unfold outstanding in *; simpl. lia.
    + intros H1 H2. simpl. specialize (R11 H1 H2). rewrite Hc in R11. destruct R11 as [S1 S2]. split; [done|].
      intros j sid Hj H0. rewrite Hp in H0. by eapply S2.
Qed.

Lemma coord_ok s r s' : inv s → active (br s) = Some r → coord_step s r s' → inv s'.
Proof.
  intros Hi Ha Hs. pose proof (in_run s Hi r Ha) as R. pose proof (ro_expects s r R) as He. unfold expects in He.
  destruct Hs as [Hc Hx|m l Hc Hl|m sessions Hc Hnd|o st Hc Hroom|n Hc Hd|Hc Hx|duration Hc|Hc|Hc Hw Hs].
  - apply (inv_coord s r); [done..|]. rewrite Hc in He. apply finish_ok; [done|by rewrite Hc|lia].
  - by apply take_ok.
  - by apply enter_ok.
  - apply (inv_coord s r); [done..|]. by apply send_ok.
  - apply (inv_coord s r); [done..|]. by apply collect_ok.
  - apply (inv_coord s r); [done..|]. apply finish_ok; [done|by destruct (coord r)|].
    destruct (coord r) eqn:Ec; try done; [|lia]. destruct He as (-> & Hos & Hon & Hbc).
    pose proof (batch_within (length (buffer r)) started Hbc). lia.
  - rewrite Hc in He. apply (inv_coord s r) with (r' := r <| cancelled := cancelled r |> <| coord := CWait |>) in Hi; [|done|].
    + destruct Hi as [I1 I2 I3 I4 I5]. split; try done. intros r0 Hr0. destruct (I3 r0 Hr0) as []. by split.
    + apply run_ok_coord; try done; try (by rewrite Hc). intros j. unfold pend; simpl. by rewrite Hc.
  - apply (inv_coord s r); [done..|]. rewrite Hc in He.
    apply (run_ok_coord s r CJoin true); try done; try (by rewrite Hc). intros j. unfold pend; simpl. by rewrite Hc.
  - destruct Hi as [I1 I2 I3 I4 I5]. split; simpl; try done.
    + intros id [?| ->%elem_of_singleton]%elem_of_union; [by apply I4|]. by apply (ro_rid s r R).
    + intros i id Hi. apply elem_of_union_l. eauto.
Qed.

(** *** Steps of the callers *)

Lemma start_ok s b :
  inv s → start (next s) (br s) = (b, None) →
  inv (s <| br := b |> <| next := S (next s) |> <| past := took s |> <| cur := None |>).
Proof.
  intros [I1 I2 I3 I4 I5] Hs. unfold start in Hs. destruct (active (br s)); simplify_eq.
  set (r := mkRun _ _ _ _ _ _ _ _ _ _).
  assert (Hall : ∀ k w, ws r !! k = Some w → w = WIdle ∧ (k < workers)%nat).
  { intros k w [Hk <-]%lookup_gset_to_gmap_Some. apply elem_of_list_to_set, elem_of_seq in Hk. split; [done|lia]. }
  assert (Hsum : ∀ f, msum f (ws r) = f WIdle * Z.of_nat (size (ws r))).
  { intros f. apply msum_const. intros k w Hk. by apply (Hall k). }
  assert (Hsize : size (ws r) = workers).
  { unfold r; simpl. rewrite <- (size_dom (D := gset nat)), dom_gset_to_gmap, size_list_to_set by apply NoDup_seq. apply length_seq. }
  assert (Hout : outstanding r = 0) by (unfold outstanding; rewrite Hsum; done).
  assert (Hp : ∀ j, pend r j = 0) by (intros; by apply quiet_pend).
  split; unfold took in *; simpl; rewrite ?app_nil_r; try done.
  - intros r0 [= <-]. split; unfold took; simpl; rewrite ?app_nil_r; try done.
    + apply NoDup_nil_2.
    + intros j. rewrite Hp. split; [lia|done].
    + change (Z.of_nat workers = msum running (ws r)). rewrite Hsum, Hsize. simpl. lia.
    + intros k Hk. by destruct (Hall k _ Hk).
    + intros k w Hk. by destruct (Hall k w Hk).
    + lia.
    + split; [lia|]. intros Hd%I4. lia.
  - intros id Hd%I4. lia.
Qed.

Lemma select_ok s i m b err :
  inv s → sending s !! i = Some m → enqueue_select m (br s) = (b, err) →
  inv (s <| br := b |> <| sending := delete i (sending s) |>
         <| acc := match err with None => acc s ++ [m] | Some _ => acc s end |>).
Proof.
  intros [I1 I2 I3 I4 I5] _ Hs. unfold enqueue_select in Hs.
  destruct (active (br s)) as [r|] eqn:Ha; [|simplify_eq; split; simpl; try done; by rewrite Ha].
  pose proof (I3 r eq_refl) as [R1 R2 R3 R4 R5 R6 R7 R8 R9 R10 R11 R12 R13 R14].
  destruct (length (pushes r) <? queueCapacity)%nat eqn:El; simplify_eq; simpl.
  - apply Nat.ltb_lt in El. unfold took in *. split; unfold took; simpl; try done.
    + by apply sublist_inserts_r.
    + intros r0 [= <-]. split; unfold took; simpl; try done.
      * rewrite app_assoc. by apply sublist_app.
      * rewrite length_app. simpl. lia.
  - split; try done. intros r0 Hr0. simpl in Hr0. assert (r0 = r) as -> by congruence. by split.
Qed.

Lemma stop_ok s i b w :
  inv s → stop_enter (br s) = (b, w) →
  inv (s <| br := b |>
         <| stops := <[i := match w with Some id => SWait id | None => SReturned None None end]> (stops s) |>).
Proof.
  intros [I1 I2 I3 I4 I5] Hs. unfold stop_enter in Hs. destruct (active (br s)) as [r|] eqn:Ha; simplify_eq.
  - pose proof (I3 r eq_refl) as [R1 R2 R3 R4 R5 R6 R7 R8 R9 R10 R11 R12 R13 R14]. split; simpl; try done.
    + intros r0 [= <-]. split; simpl; done.
    + intros j id. rewrite lookup_insert_Some. intros [[_ ?]|[_ ?]]; [done|eauto].
  - split; simpl; try done; [by rewrite Ha|].
    intros j id. rewrite lookup_insert_Some. intros [[_ ?]|[_ ?]]; [done|eauto].
Qed.

Lemma call_ok s s' : inv s → call_step s s' → inv s'.
Proof.
  intros Hi Hs. destruct Hs as [b _ Hs|i m _ _|i m b err Hm Hs|i b w _ _ Hs|i id cx err Hi' Hd].
  - by apply start_ok.
  - destruct Hi as [I1 I2 I3 I4 I5]. split; try done. intros r Hr. destruct (I3 r Hr) as []. by split.
  - by eapply select_ok.
  - by apply stop_ok.
  - destruct Hi as [I1 I2 I3 I4 I5]. split; try done.
    + intros r Hr. destruct (I3 r Hr) as []. by split.
    + intros j id'. simpl. rewrite lookup_insert_Some. intros [[_ [= -> ->]]|[_ ?]]; [|eauto].
      unfold Done in Hd. case_bool_decide; [done|]. by destruct cx.
Qed.

Lemma inv_step s s' : inv s → step s s' → inv s'.
Proof.
  intros Hi Hs. destruct Hs as [s' Hs|r s' Ha Hs|r k s' Ha Hs];
    [by eapply call_ok|by eapply coord_ok|by eapply worker_ok].
Qed.

Lemma bc_inv_init s : init_sys s → inv s.
Proof. intros ->. split; simpl; try done. Qed.

Lemma bc_inv_reach s : reach s → inv s.
Proof. apply invariant_reachable; [exact bc_inv_init|]. intros s0 s1 _. exact (inv_step s0 s1). Qed.

(** ** Theorems *)

(** C40: Every connection is given the broadcast messages in the order they
    were accepted, each at most once: what one session received is a
    subsequence of the accepted messages, although the workers of a message
    run concurrently and share one prepared message and one session buffer. *)
Theorem broadcast_order s sid : reach s → log s sid `sublist_of` acc s.
Proof. intros Hr%bc_inv_reach. etrans; [apply (in_log s Hr)|apply (in_took s Hr)]. Qed.

(** When the coordinator records a message as completed and the run was
    not cancelled, the message was offered to every session of the snapshot
    taken for it. *)
Theorem broadcast_complete s r sid :
  reach s → (0 < workers)%nat → active (br s) = Some r → coord r = CRecord → cancelled r = false →
  sid ∈ snap s → sid ∈ tried s.
Proof.
  intros Hr%bc_inv_reach Hw Ha Hc Hx. pose proof (ro_tried s r (in_run s Hr r Ha) Hx Hw) as Ht. rewrite Hc in Ht. auto.
Qed.

(** The channels between coordinator and workers always have room. *)
Lemma channels_room s r :
  inv s → active (br s) = Some r →
  (∀ o st, coord r = CSend o st → (length (batches r) < workers)%nat) ∧
  (∀ k, ws r !! k = Some WSignal → (batchDone r < workers)%nat).
Proof.
  intros Hi Ha. pose proof (in_run s Hi r Ha) as R. pose proof (ro_expects s r R) as He. unfold expects in He.
  pose proof (msum_nonneg busy (ws r) busy_nonneg) as Hb.
  assert (Hout : outstanding r ≤ Z.of_nat workers).
  { destruct (coord r); try lia. destruct He as (-> & -> & Hon & Hbc). pose proof (batch_within _ _ Hbc Hon). lia. }
  split.
  - intros o st Hc. rewrite Hc in He. destruct He as (Ho & Hos & Hon & Hbc). rewrite Hos in Hon.
    pose proof (batch_within _ _ Hbc Hon). unfold outstanding in *. lia.
  - intros k Hk. pose proof (msum_lookup_le busy k WSignal (ws r) (λ _ _ _, busy_nonneg _) Hk) as Hle.
    unfold outstanding in Hout. simpl in Hle. lia.
Qed.

(** *** Ending a run *)

Definition worker_left (w : worker) : Z := match w with WExited => 0 | WIdle => 1 | WSignal => 2 | WSend _ _ => 3 end.
Definition coord_left (c : coordinator) : Z :=
  match c with CJoin => 1 | CFinish => 2 | CWait => 3 | CRecord => 4 | CSend _ _ | CCollect _ => 5 | CReset _ => 6 end.
Definition work_left (r : broadcastRun) : Z := coord_left (coord r) + msum worker_left (ws r).

Lemma running_nonneg w : 0 ≤ running w.
Proof. by destruct w. Qed.

(** The workers have left once the count is zero. *)
Lemma joined_exited s r :
  inv s → active (br s) = Some r → wg r = 0 → ∀ k w, ws r !! k = Some w → w = WExited.
Proof.
  intros Hi Ha Hw k w Hk. rewrite (ro_wg s r (in_run s Hi r Ha)) in Hw.
  pose proof (msum_lookup_le running k w (ws r) (λ _ _ _, running_nonneg _) Hk). destruct w; simpl in *; try done; lia.
Qed.

Definition ends (s : sys) (r : broadcastRun) (s' : sys) : Prop :=
  step s s' ∧ sending s' = ∅ ∧
  (active (br s') = None ∧ rid r ∈ doneRuns s' ∨
   ∃ r', active (br s') = Some r' ∧ cancelled r' = true ∧ rid r' = rid r ∧ work_left r' < work_left r).

Lemma worker_leaves s r k w :
  inv s → active (br s) = Some r → cancelled r = true → sending s = ∅ → ws r !! k = Some w → w ≠ WExited →
  ∃ s', ends s r s'.
Proof.
  intros Hi Ha Hx Hs Hk Hw. pose proof (channels_room s r Hi Ha) as [_ Hroom].
  assert (Hmove : ∀ r' w' s', worker_step s r k s' → s' = set_run r' s → ws r' = <[k := w']> (ws r) →
    coord r' = coord r → cancelled r' = true → rid r' = rid r → worker_left w' < worker_left w → ends s r s').
  { intros r' w' s' Hst -> Hws Hc Hx' Hid Hlt. split_and!; [by eapply s_worker|done|]. right. exists r'. split_and!; try done.
    unfold work_left. rewrite Hc, Hws, (msum_insert _ k w) by done. lia. }
  destruct w as [|lo hi| |]; [| | |done].
  - eexists. eapply Hmove; [by apply w_exit|reflexivity|done..].
  - destruct (decide (lo < hi)%nat).
    + eexists. eapply Hmove; [by apply (w_abort s r k lo hi)|reflexivity|done..].
    + eexists. eapply Hmove; [apply (w_end s r k lo hi); [done|lia]|reflexivity|done..].
  - eexists. eapply Hmove; [apply w_signal; [done|by apply (Hroom k)]|reflexivity|done..].
Qed.

Lemma stop_progress s r :
  inv s → active (br s) = Some r → cancelled r = true → sending s = ∅ → ∃ s', ends s r s'.
Proof.
  intros Hi Ha Hx Hs. pose proof (in_run s Hi r Ha) as R.
  destruct (decide (0 < msum running (ws r))) as [Hpos|Hz].
  { destruct (msum_pos_exists running (ws r) Hpos) as (k & w & Hk & Hw).
    eapply (worker_leaves s r k w); try done. intros ->. done. }
  assert (Hwg : wg r = 0) by (rewrite (ro_wg s r R); pose proof (msum_nonneg running (ws r) running_nonneg); lia).
  assert (Hmove : ∀ r' s', coord_step s r s' → active (br s') = Some r' → sending s' = ∅ → ws r' = ws r →
    cancelled r' = true → rid r' = rid r → coord_left (coord r') < coord_left (coord r) → ends s r s').
  { intros r' s' Hst Har Hse Hws Hx' Hid Hlt. split_and!; [by eapply s_coord|done|]. right. exists r'. split_and!; try done.
    unfold work_left. rewrite Hws. lia. }
  destruct (coord r) eqn:Hc.
  - eexists. eapply Hmove; [by apply c_cancel|done..].
  - eexists. eapply Hmove; [by apply (c_enter s r m [] Hc), NoDup_nil_2|reflexivity|done|..];
      unfold fanout_enter; case_decide; done.
  - eexists. eapply Hmove; [by apply c_abandon; [rewrite Hc|]|done..].
  - eexists. eapply Hmove; [by apply c_abandon; [rewrite Hc|]|done..].
  - eexists. eapply Hmove; [by apply (c_record s r 0)|done..].
  - eexists. eapply Hmove; [by apply c_finish|done..].
  - eexists. split_and!; [eapply s_coord; [done|by apply c_join]|done|]. left. split; [done|]. simpl. set_solver.
Qed.

(** A cancelled run comes to its end: from every state after [stop]
    cancelled it, with no caller inside [enqueue], steps of the run alone lead
    to the close of its [done] channel; no goroutine of it is ever stuck on a
    full channel. *)
Theorem broadcast_stop_ends s r :
  reach s → active (br s) = Some r → cancelled r = true → sending s = ∅ →
  ∃ s', rtc step s s' ∧ active (br s') = None ∧ rid r ∈ doneRuns s'.
Proof.
  intros Hr%bc_inv_reach. remember (Z.to_nat (work_left r)) as n eqn:En. revert s r Hr En.
  induction n as [n IH] using lt_wf_ind. intros s r Hi En Ha Hx Hs.
  destruct (stop_progress s r Hi Ha Hx Hs) as (s1 & Hst & Hs1 & [[Hn Hd]|(r1 & Ha1 & Hx1 & Hid & Hlt)]).
  - exists s1. split; [by apply rtc_once|done].
  - assert (0 ≤ work_left r1).
    { unfold work_left. pose proof (msum_nonneg worker_left (ws r1) (λ w, ltac:(by destruct w))). destruct (coord r1); simpl; lia. }
    destruct (IH (Z.to_nat (work_left r1)) ltac:(lia) s1 r1) as (s2 & H2 & H3 & H4); try done; [by eapply inv_step|].
    exists s2. split_and!; [by eapply rtc_l|done|congruence].
Qed.

Lemma bc_returned_stays s s' i x e :
  rtc step s s' → stops s !! i = Some (SReturned x e) → stops s' !! i = Some (SReturned x e).
Proof.
  intros Hr. induction Hr as [|s s1 s2 Hst _ IH]; [done|]. intros Hi. apply IH.
  destruct Hst as [s1 Hs|r s1 _ Hs|r k s1 _ Hs]; [|by destruct Hs|by destruct Hs].
  destruct Hs as [| | |j b w _ Hj _|j id cx err Hj _]; simpl; try done; (rewrite lookup_insert_ne; [done|]; intros ->; congruence).
Qed.

(** Once [stop] returned nil for a run, that run is over for good: its
    [done] is closed, and whatever happens later it is never active again, so
    none of its workers sends anything. *)
Theorem broadcast_stopped s s' i id r :
  reach s → stops s !! i = Some (SReturned (Some id) None) → rtc step s s' →
  id ∈ doneRuns s' ∧ (active (br s') = Some r → rid r ≠ id).
Proof.
  intros Hr Hi Hst. pose proof (bc_returned_stays _ _ _ _ _ Hst Hi) as Hi'.
  assert (Hv : inv s') by (apply bc_inv_reach; by eapply reachable_rtc).
  pose proof (in_stops s' Hv i id Hi') as Hd. split; [done|]. intros Ha Hid.
  destruct (ro_rid s' r (in_run s' Hv r Ha)) as [_ Hn]. apply Hn. by rewrite Hid.
Qed.
End Broadcast.

(** ** A run: two sessions, one message, two workers *)

Module BroadcastExample.
Abbreviation Step := (step 2 4).
Abbreviation Reach := (reach 2 4).
Definition m1 : Proto := mkProto OpPush 0 0 7 [].
Definition idle2 : gmap nat worker := {[0%nat := WIdle; 1%nat := WIdle]}.
Definition s0 : sys := mkSys newBroadcaster 0 ∅ ∅ ∅ [] [] None [] [] (λ _, []).

Ltac take H tac :=
  let H' := fresh in
  lazymatch type of H with
  | Reach ?s =>
      eassert (H' : Step s _) by (tac; first [reflexivity|discriminate|lia|by apply (bool_decide_unpack _)|set_solver]);
      apply (reach_step _ _ _ _ H) in H'; cbn in H'; clear H; rename H' into H;
      change (reachable init_sys Step) with Reach in H
  end.

Definition run (c : coordinator) (q : list Proto) (bs : list (nat * nat)) (d : nat) (buf : list nat) (pr : option Proto)
    (m : gmap nat worker) : broadcastRun := mkRun 0 false q bs d buf pr 2 c m.

Lemma reach_started_b : Reach (s0 <| br := newBroadcaster <| active := Some (run CWait [] [] 0 [] None idle2) |> |> <| next := 1%nat |>).
Proof.
  assert (H : Reach s0) by by apply reach_init.
  take H ltac:(eapply s_call, b_start). exact H.
Qed.

Definition recorded : sys :=
  mkSys (mkBroadcaster (Some (run CRecord [] [] 0 [] (Some m1) idle2)) 1 0 0 0 0 0) 1 ∅ ∅ ∅ [m1] [] (Some m1) [3; 5]%nat [5; 3]%nat
    (logged 5 (Some m1) (logged 3 (Some m1) (λ _, []))).

Lemma reach_recorded : Reach recorded.
Proof.
  pose proof reach_started_b as H. cbn in H.
  take H ltac:(eapply s_call, (b_enqueue _ _ _ 9 m1)).
  take H ltac:(eapply s_call, (b_select _ _ _ 9 m1)).
  take H ltac:(eapply s_coord; [|eapply (c_take _ _ _ m1 [])]).
  take H ltac:(eapply s_coord; [|eapply (c_enter _ _ _ m1 [3; 5]%nat)]).
  take H ltac:(eapply s_coord; [|eapply (c_send _ _ _ 0 0)]).
  take H ltac:(eapply s_coord; [|eapply (c_send _ _ _ 1 1)]).
  take H ltac:(eapply (s_worker _ _ _ _ 0); [|eapply (w_take _ _ _ 0 0 1)]).
  take H ltac:(eapply (s_worker _ _ _ _ 1); [|eapply (w_take _ _ _ 1 1 2)]).
  take H ltac:(eapply (s_worker _ _ _ _ 0); [|eapply (w_send _ _ _ 0 0 1 3 true None)]).
  take H ltac:(eapply (s_worker _ _ _ _ 1); [|eapply (w_send _ _ _ 1 1 2 5 true None)]).
  take H ltac:(eapply (s_worker _ _ _ _ 0); [|eapply (w_end _ _ _ 0 1 1)]).
  take H ltac:(eapply (s_worker _ _ _ _ 0); [|eapply w_signal]).
  take H ltac:(eapply s_coord; [|eapply (c_collect _ _ _ 2)]).
  take H ltac:(eapply (s_worker _ _ _ _ 1); [|eapply (w_end _ _ _ 1 2 2)]).
  take H ltac:(eapply (s_worker _ _ _ _ 1); [|eapply w_signal]).
  take H ltac:(eapply s_coord; [|eapply (c_collect _ _ _ 1)]).
  exact H.
Qed.

Lemma broadcast_order_witness : log recorded 3 `sublist_of` [m1].
Proof. exact (broadcast_order 2 4 recorded 3 reach_recorded). Defined.

Lemma broadcast_complete_witness : 5%nat ∈ tried recorded.
Proof.
  apply (broadcast_complete 2 4 recorded (run CRecord [] [] 0 [] (Some m1) idle2) 5 reach_recorded); try reflexivity; [lia|].
  set_solver.
Defined.

(** The run is stopped before any message. *)
Definition stopping : sys :=
  mkSys (mkBroadcaster (Some ((run CWait [] [] 0 [] None idle2) <| cancelled := true |>)) 0 0 0 0 0 0) 1 ∅ {[7%nat := SWait 0]} ∅
    [] [] None [] [] (λ _, []).

Lemma reach_stopping_b : Reach stopping.
Proof. pose proof reach_started_b as H. cbn in H. take H ltac:(eapply s_call, (b_stop _ _ _ 7)). exact H. Qed.

Lemma broadcast_stop_ends_witness : ∃ s', rtc Step stopping s' ∧ active (br s') = None ∧ 0%nat ∈ doneRuns s'.
Proof.
  exact (broadcast_stop_ends 2 4 stopping _ reach_stopping_b eq_refl eq_refl eq_refl).
Defined.

Definition stopped : sys :=
  mkSys (mkBroadcaster None 0 0 0 0 0 0) 1 ∅ {[7%nat := SReturned (Some 0%nat) None]} {[0%nat]} [] [] None [] [] (λ _, []).

Lemma reach_stopped_b : Reach stopped.
Proof.
  pose proof reach_stopping_b as H. unfold stopping in H. cbn in H.
  take H ltac:(eapply (s_worker _ _ _ _ 0); [|eapply w_exit]).
  take H ltac:(eapply (s_worker _ _ _ _ 1); [|eapply w_exit]).
  take H ltac:(eapply s_coord; [|eapply c_cancel]). take H ltac:(eapply s_coord; [|eapply c_finish]).
  take H ltac:(eapply s_coord; [|eapply c_join]). take H ltac:(eapply s_call, (b_wait _ _ _ 7 0 None None)).
  exact H.
Qed.

Lemma broadcast_stopped_witness : 0%nat ∈ doneRuns stopped.
Proof.
  apply (broadcast_stopped 2 4 stopped stopped 7 0 (run CWait [] [] 0 [] None idle2) reach_stopped_b); [reflexivity|constructor].
Defined.
End BroadcastExample.
