(* ===== verification/GateClient.v ===== *)
(** * Connections to other gateways (internal/gateclient)

    The pool of gRPC connections a node or gateway keeps to the gateways it
    calls: dialled once per host, counted while a call runs, evicted when idle,
    closed with the client.  A [grpc.ClientConn] is a number; dialling, the
    calls and [singleflight] only answer.  Proved: no connection leaks or is
    closed twice, a call never runs on a connection the pool closed unless the
    client was closed, and an idle connection always has its eviction ahead. *)

From S2P Require Import Prelude Errors Endpoint.

Definition idleTimeout : Z := 5 * 60 * 1000000000.

(** An entry is known by the number of its connection. *)
Record rpc := mkRpc {
  host : string;
  lastUsed : Z;
  idleTimer : option nat;
  inflight : Z;
}.
#[export] Instance eta_rpc : Eta rpc := λ r, mkRpc (host r) (lastUsed r) (idleTimer r) (inflight r).

(** [rpcs] is the memory of the entries; [timers] the armed timers with the
    entry they evict and the time they fire. *)
Record Client := mkClient {
  cancelled : bool;
  byHost : option (gmap string nat);
  evictions : Z;
  rpcs : gmap nat rpc;
  timers : gmap nat (nat * Z);
  nextTimer : nat;
}.
#[export] Instance eta_client : Eta Client := λ c,
  mkClient (cancelled c) (byHost c) (evictions c) (rpcs c) (timers c) (nextTimer c).

Definition New : Client := mkClient false (Some ∅) 0 ∅ ∅ 0.

Section Client.
Context (Parse : string → result URL)   (* url.Parse *)
        (secure : bool)                 (* c.tlsConfig != nil *)
        (idle : Z).

Definition set_rpc (e : nat) (r : rpc) (c : Client) : Client := c <| rpcs := <[e := r]> (rpcs c) |>.

Definition stop_timer (t : option nat) (c : Client) : Client :=
  match t with Some t => c <| timers := delete t (timers c) |> | None => c end.

(** [entry.idleTimer = time.AfterFunc(idle, evict)] *)
Definition arm (e : nat) (now : Z) (c : Client) : Client :=
  match rpcs c !! e with
  | Some r =>
      set_rpc e (r <| idleTimer := Some (nextTimer c) |>)
        (c <| timers := <[nextTimer c := (e, now + idle)]> (timers c) |> <| nextTimer := S (nextTimer c) |>)
  | None => c
  end.

Definition table (c : Client) : gmap string nat := default ∅ (byHost c).

Definition cached (h : string) (c : Client) : Client * result (option nat) :=
  match cancelled c, byHost c with
  | false, Some m =>
      match m !! h with
      | None => (c, Ok None)
      | Some e =>
          match rpcs c !! e with
          | Some r => (set_rpc e (r <| inflight := inflight r + 1 |> <| idleTimer := None |>) (stop_timer (idleTimer r) c),
                       Ok (Some e))
          | None => (c, Ok None)
          end
      end
  | _, _ => (c, Err (ESentinel ErrUnavailable))
  end.

(** [connect] once the connection [e] is made: whether it is closed again, and
    the error. *)
Definition connect (h : string) (e : nat) (now now' : Z) (c : Client) : Client * bool * option error :=
  match byHost c with
  | None => (c, true, Some (ESentinel ErrUnavailable))
  | Some m =>
      match m !! h with
      | Some _ => (c, true, None)
      | None => (arm e now' (set_rpc e (mkRpc h now None 0) (c <| byHost := Some (<[h := e]> m) |>)), false, None)
      end
  end.

Definition release (e : nat) (now now' : Z) (c : Client) : Client :=
  match rpcs c !! e with
  | Some r =>
      if decide (table c !! host r = Some e)
      then let r := r <| inflight := inflight r - 1 |> <| lastUsed := now |> in
           let c := set_rpc e r c in
           if inflight r =? 0 then arm e now' c else c
      else c
  | None => c
  end.

(** The locked section of [evict]: whether the caller closes the connection. *)
Definition evict (e : nat) (now : Z) (c : Client) : Client * bool :=
  match byHost c, rpcs c !! e with
  | Some m, Some r =>
      if negb (bool_decide (m !! host r = Some e)) || (0 <? inflight r) || (now - lastUsed r <? idle) then (c, false)
      else (set_rpc e (r <| idleTimer := None |>) (c <| byHost := Some (delete (host r) m) |> <| evictions := evictions c + 1 |>),
            true)
  | _, _ => (c, false)
  end.

(** The locked section of [Close]: the connections to close, nil at once. *)
Definition stop_timers (es : list nat) (c : Client) : Client :=
  foldr (λ e c, match rpcs c !! e with Some r => stop_timer (idleTimer r) c | None => c end) c es.

Definition Close (c : Client) : Client * option (list nat) :=
  match byHost c with
  | None => (c, None)
  | Some m => let es := (map_to_list m).*2 in (stop_timers es c <| byHost := None |>, Some es)
  end.

(** ** The goroutines

    A call of [Push] or [Kick]: looking in the table, asking for a dial,
    waiting for it, calling, returned. *)
Inductive caller :=
| KCached (h : string)
| KDial (h : string)
| KWait (h : string) (f : nat)
| KCall (e : nat)
| KReturned (err : option error).

(** A dial [singleflight] runs: one per host at a time. *)
Inductive flight := FDial | FConn (e : nat) | FDone (err : option error).

Inductive evictor := EEnter (e : nat) | EClose (e : nat) | EDone.

(** [CReturned true]: the call that closed the table. *)
Inductive closer := CEnter | CClosing (es : list nat) | CReturned (first : bool).

(** [opened] and [closed]: the connections made, and the calls of their
    [Close]. *)
Record sys := mkSys {
  cl : Client;
  now : Z;
  callers : gmap nat caller;
  flights : gmap nat (string * flight);
  current : gmap string nat;
  evictors : gmap nat evictor;
  closers : gmap nat closer;
  opened : gset nat;
  closed : list nat;
}.
#[export] Instance eta_sys : Eta sys := λ s,
  mkSys (cl s) (now s) (callers s) (flights s) (current s) (evictors s) (closers s) (opened s) (closed s).

Definition set_caller (i : nat) (k : caller) (s : sys) : sys := s <| callers := <[i := k]> (callers s) |>.

(** The end of a flight: the group forgets the host. *)
Definition land (f : nat) (h : string) (err : option error) (s : sys) : sys :=
  s <| flights := <[f := (h, FDone err)]> (flights s) |>
    <| current := if decide (current s !! h = Some f) then delete h (current s) else current s |>.

Inductive caller_step (s : sys) (i : nat) : sys → Prop :=
| k_call endpoint h :
    callers s !! i = None → Host Parse endpoint secure = Ok h → caller_step s i (set_caller i (KCached h) s)
| k_cached h c r :
    callers s !! i = Some (KCached h) → cached h (cl s) = (c, r) →
    caller_step s i (set_caller i (match r with
                                   | Ok (Some e) => KCall e
                                   | Ok None => KDial h
                                   | Err err => KReturned (Some err)
                                   end) (s <| cl := c |>))
| k_join h f :
    callers s !! i = Some (KDial h) → current s !! h = Some f → caller_step s i (set_caller i (KWait h f) s)
| k_dial h f :
    callers s !! i = Some (KDial h) → current s !! h = None → flights s !! f = None →
    caller_step s i (set_caller i (KWait h f) (s <| flights := <[f := (h, FDial)]> (flights s) |>
                                                 <| current := <[h := f]> (current s) |>))
| k_outcome h f err :
    callers s !! i = Some (KWait h f) → flights s !! f = Some (h, FDone err) →
    caller_step s i (set_caller i (match err with None => KCached h | Some e => KReturned (Some e) end) s)
| k_ctx h f err :                           (* ctx.Done() *)
    callers s !! i = Some (KWait h f) → caller_step s i (set_caller i (KReturned (Some err)) s)
| k_closed h f :                            (* c.ctx.Done() *)
    callers s !! i = Some (KWait h f) → cancelled (cl s) = true →
    caller_step s i (set_caller i (KReturned (Some (ESentinel ErrUnavailable))) s)
| k_release e err t :
    callers s !! i = Some (KCall e) → now s ≤ t →
    caller_step s i (set_caller i (KReturned err) (s <| cl := release e (now s) t (cl s) |> <| now := t |>)).

Inductive flight_step (s : sys) (f : nat) : sys → Prop :=
| f_fail h err : flights s !! f = Some (h, FDial) → flight_step s f (land f h (Some err) s)
| f_conn h e :
    flights s !! f = Some (h, FDial) → e ∉ opened s →
    flight_step s f (s <| flights := <[f := (h, FConn e)]> (flights s) |> <| opened := opened s ∪ {[e]} |>)
| f_land h e t c (again : bool) err :
    flights s !! f = Some (h, FConn e) → now s ≤ t → connect h e (now s) t (cl s) = (c, again, err) →
    flight_step s f (land f h err (s <| cl := c |> <| now := t |>
                                     <| closed := if again then e :: closed s else closed s |>)).

(** [evict] in the goroutine of the timer [t]. *)
Inductive evict_step (s : sys) (t : nat) : sys → Prop :=
| e_fire e d :
    timers (cl s) !! t = Some (e, d) → d ≤ now s →
    evict_step s t (s <| cl := (cl s) <| timers := delete t (timers (cl s)) |> |>
                      <| evictors := <[t := EEnter e]> (evictors s) |>)
| e_enter e c :
    evictors s !! t = Some (EEnter e) → evict e (now s) (cl s) = (c, true) →
    evict_step s t (s <| cl := c |> <| evictors := <[t := EClose e]> (evictors s) |>)
| e_skip e c :
    evictors s !! t = Some (EEnter e) → evict e (now s) (cl s) = (c, false) →
    evict_step s t (s <| cl := c |> <| evictors := delete t (evictors s) |>)
| e_close e :
    evictors s !! t = Some (EClose e) →
    evict_step s t (s <| closed := e :: closed s |> <| evictors := <[t := EDone]> (evictors s) |>)
| e_done :
    evictors s !! t = Some EDone →
    evict_step s t (s <| cl := (cl s) <| evictions := evictions (cl s) - 1 |> |> <| evictors := delete t (evictors s) |>).

Inductive close_step (s : sys) (i : nat) : sys → Prop :=
| c_cancel :
    closers s !! i = None →
    close_step s i (s <| cl := (cl s) <| cancelled := true |> |> <| closers := <[i := CEnter]> (closers s) |>)
| c_enter c l :
    closers s !! i = Some CEnter → Close (cl s) = (c, l) →
    close_step s i (s <| cl := c |>
                      <| closers := <[i := match l with Some es => CClosing es | None => CReturned false end]> (closers s) |>)
| c_conn e es :
    closers s !! i = Some (CClosing (e :: es)) →
    close_step s i (s <| closed := e :: closed s |> <| closers := <[i := CClosing es]> (closers s) |>)
| c_wait :
    closers s !! i = Some (CClosing []) → evictions (cl s) = 0 →
    close_step s i (s <| closers := <[i := CReturned true]> (closers s) |>).

Inductive step (s : sys) : sys → Prop :=
| s_caller i s' : caller_step s i s' → step s s'
| s_flight f s' : flight_step s f s' → step s s'
| s_evict t s' : evict_step s t s' → step s s'
| s_close i s' : close_step s i s' → step s s'
| s_time t : now s ≤ t → step s (s <| now := t |>).

Definition init_sys (s : sys) : Prop := ∃ t, s = mkSys New t ∅ ∅ ∅ ∅ ∅ ∅ [].

Definition reach : sys → Prop := reachable init_sys step.

(** ** Invariant *)

Definition calls (e : nat) (k : caller) : Z := match k with KCall x => eqz e x | _ => 0 end.
Definition flies (e : nat) (f : string * flight) : Z := match f.2 with FConn x => eqz e x | _ => 0 end.
Definition evicts (e : nat) (v : evictor) : Z := match v with EClose x => eqz e x | _ => 0 end.
Definition closing (e : nat) (c : closer) : Z := match c with CClosing es => lsum (eqz e) es | _ => 0 end.
Definition leaving (v : evictor) : Z := match v with EEnter _ => 0 | _ => 1 end.
Definition first (c : closer) : Z := match c with CClosing _ | CReturned true => 1 | _ => 0 end.

(** Where a connection is. *)
Definition places (s : sys) (e : nat) : Z :=
  msum (eqz e) (table (cl s)) + msum (flies e) (flights s) + msum (evicts e) (evictors s) +
  msum (closing e) (closers s) + lsum (eqz e) (closed s).

(** The eviction of an idle entry: its timer is armed, or fired and about to
    evict it. *)
Definition eviction_ahead (s : sys) (e : nat) (r : rpc) : Prop :=
  ∃ t, idleTimer r = Some t ∧
    ((∃ d, timers (cl s) !! t = Some (e, d) ∧ lastUsed r + idle ≤ d) ∨
     evictors s !! t = Some (EEnter e) ∧ lastUsed r + idle ≤ now s).

Record inv (s : sys) : Prop := mkInv {
  v_places : ∀ e, places s e = one (bool_decide (e ∈ opened s));
  v_table : ∀ h e, table (cl s) !! h = Some e →
    ∃ r, rpcs (cl s) !! e = Some r ∧ host r = h ∧ inflight r = msum (calls e) (callers s) ∧
         (if inflight r =? 0 then eviction_ahead s e r else idleTimer r = None);
  v_call : ∀ i e, callers s !! i = Some (KCall e) → byHost (cl s) = None ∨ ∃ h, table (cl s) !! h = Some e;
  v_nil : byHost (cl s) = None → cancelled (cl s) = true;
  v_evictions : evictions (cl s) = msum leaving (evictors s);
  v_timers : (∀ t x, timers (cl s) !! t = Some x → (t < nextTimer (cl s))%nat ∧ evictors s !! t = None) ∧
             (∀ t x, evictors s !! t = Some x → (t < nextTimer (cl s))%nat);
  v_first : msum first (closers s) ≤ one (bool_decide (byHost (cl s) = None));
  v_closed : ∀ i, closers s !! i = Some (CReturned true) → evictions (cl s) = 0;
  v_cancelled : ∀ i x, closers s !! i = Some x → cancelled (cl s) = true;
}.

(** *** Facts about the sums *)

Lemma calls_nonneg e k : 0 ≤ calls e k.
Proof. destruct k; simpl; try done. apply eqz_nonneg. Qed.

Lemma flies_nonneg e f : 0 ≤ flies e f.
Proof. unfold flies. destruct (f.2); try done. apply eqz_nonneg. Qed.

Lemma evicts_nonneg e v : 0 ≤ evicts e v.
Proof. destruct v; simpl; try done. apply eqz_nonneg. Qed.

Lemma closing_nonneg e c : 0 ≤ closing e c.
Proof. destruct c; simpl; try done. apply lsum_nonneg, eqz_nonneg. Qed.

Lemma leaving_nonneg v : 0 ≤ leaving v.
Proof. by destruct v. Qed.

Lemma first_nonneg c : 0 ≤ first c.
Proof. by destruct c as [| |[]]. Qed.

(** Each part of [places] is between zero and the whole. *)
Lemma places_parts s e :
  0 ≤ msum (eqz e) (table (cl s)) ∧ 0 ≤ msum (flies e) (flights s) ∧ 0 ≤ msum (evicts e) (evictors s) ∧
  0 ≤ msum (closing e) (closers s) ∧ 0 ≤ lsum (eqz e) (closed s).
Proof.
  split_and!; [apply msum_nonneg, eqz_nonneg|apply msum_nonneg, flies_nonneg|apply msum_nonneg, evicts_nonneg
    |apply msum_nonneg, closing_nonneg|apply lsum_nonneg, eqz_nonneg].
Qed.

Lemma no_call s e : inv s → byHost (cl s) ≠ None → (∀ h, table (cl s) !! h ≠ Some e) → msum (calls e) (callers s) = 0.
Proof.
  intros Hv Hb Ht. pose proof (msum_nonneg (calls e) (callers s) (calls_nonneg e)).
  destruct (decide (0 < msum (calls e) (callers s))) as [Hp|]; [|lia]. exfalso.
  destruct (msum_pos_exists (calls e) (callers s) Hp) as (i & k & Hi & Hk).
  destruct k as [| | |x|]; simpl in Hk; try done. unfold eqz in Hk. case_bool_decide; [subst x|done].
  destruct (v_call s Hv i e Hi) as [?|[h ?]]; [done|by apply (Ht h)].
Qed.

(** A timer belongs to one entry. *)
Lemma timer_owner s h h' e e' r r' t :
  inv s → table (cl s) !! h = Some e → table (cl s) !! h' = Some e' →
  rpcs (cl s) !! e = Some r → rpcs (cl s) !! e' = Some r' →
  idleTimer r = Some t → idleTimer r' = Some t → e = e'.
Proof.
  intros Hv Ht Ht' Hr Hr' Hi Hi'.
  assert (Hown : ∀ h e r, table (cl s) !! h = Some e → rpcs (cl s) !! e = Some r → idleTimer r = Some t →
    (∃ d, timers (cl s) !! t = Some (e, d)) ∨ evictors s !! t = Some (EEnter e)).
  { clear -Hv. intros h e r Ht Hr Hi. destruct (v_table s Hv h e Ht) as (r0 & Hr0 & _ & _ & H). simplify_eq.
    case_match; [|congruence]. destruct H as (t0 & Ht0 & [(d & Hd & _)|[He _]]); simplify_eq; eauto. }
  destruct (v_timers s Hv) as [Hd _].
  destruct (Hown h e r Ht Hr Hi) as [[d H1]|H1], (Hown h' e' r' Ht' Hr' Hi') as [[d' H2]|H2]; simplify_eq; try done.
  - by destruct (Hd t _ H1); simplify_eq.
  - by destruct (Hd t _ H2); simplify_eq.
Qed.

Lemma table_host s h h' e : inv s → table (cl s) !! h = Some e → table (cl s) !! h' = Some e → h = h'.
Proof.
  intros Hv H1 H2. destruct (v_table s Hv h e H1) as (r & Hr & <- & _). destruct (v_table s Hv h' e H2) as (r' & Hr' & <- & _).
  by simplify_eq.
Qed.

Lemma callers_sum f (m : gmap nat caller) i k k' :
  m !! i = Some k → msum f (<[i := k']> m) = msum f m - f k + f k'.
Proof. apply msum_insert. Qed.

(** The table entries after a step that leaves them alone. *)
Lemma ahead_mono s s' e r :
  (∀ t d, timers (cl s) !! t = Some (e, d) → idleTimer r = Some t → timers (cl s') !! t = Some (e, d)) →
  (∀ t, evictors s !! t = Some (EEnter e) → idleTimer r = Some t → evictors s' !! t = Some (EEnter e)) → now s ≤ now s' →
  eviction_ahead s e r → eviction_ahead s' e r.
Proof.
  intros H1 H2 Hn (t & Ht & [(d & Hd & Hle)|[He Hle]]); exists t; (split; [done|]); [left|right]; eauto with lia.
Qed.

(** *** Steps *)

(** Steps that move no connection and no entry. *)
Lemma inv_neutral s s' :
  inv s → cl s' = cl s → evictors s' = evictors s → closers s' = closers s → opened s' = opened s → closed s' = closed s →
  now s ≤ now s' → (∀ e, msum (flies e) (flights s') = msum (flies e) (flights s)) →
  (∀ e, msum (calls e) (callers s') = msum (calls e) (callers s)) →
  (∀ i e, callers s' !! i = Some (KCall e) → ∃ j, callers s !! j = Some (KCall e)) → inv s'.
Proof.
  intros [V1 V2 V3 V4 V5 V6 V7 V8 V9] Ec Ee El Eo Ed En Ef Ek Hk.
  split; unfold places; rewrite ?Ec, ?Ee, ?El, ?Eo, ?Ed; try done.
  - intros e. rewrite Ef. apply V1.
  - intros h e Ht. destruct (V2 h e Ht) as (r & Hr & Hh & Hi & Ha). exists r. rewrite Ek. split_and!; try done.
    case_match; [|done]. eapply ahead_mono; [| |exact En|exact Ha]; rewrite ?Ec, ?Ee; auto.
  - intros i e Hi. destruct (Hk i e Hi) as [j Hj]. by apply (V3 j).
Qed.

(** The client after a change of the entry [e] alone. *)
Record touched (s : sys) (e : nat) (c : Client) : Prop := mkTouched {
  tc_same : cancelled c = cancelled (cl s) ∧ byHost c = byHost (cl s) ∧ evictions c = evictions (cl s);
  tc_rpcs : ∀ x, x ≠ e → rpcs c !! x = rpcs (cl s) !! x;
  tc_timers : ∀ h x r t d, table (cl s) !! h = Some x → x ≠ e → rpcs (cl s) !! x = Some r → idleTimer r = Some t →
    timers (cl s) !! t = Some (x, d) → timers c !! t = Some (x, d);
  tc_bound : (∀ t x, timers c !! t = Some x → (t < nextTimer c)%nat ∧ evictors s !! t = None) ∧
             (∀ t x, evictors s !! t = Some x → (t < nextTimer c)%nat);
}.

Lemma inv_touch s e c i k k' t :
  inv s → touched s e c → callers s !! i = Some k → now s ≤ t →
  (∀ x, x ≠ e → calls x k' = calls x k) →
  (∀ h, table (cl s) !! h = Some e →
     ∃ r, rpcs c !! e = Some r ∧ host r = h ∧ inflight r = msum (calls e) (<[i := k']> (callers s)) ∧
          (if inflight r =? 0
           then ∃ tm, idleTimer r = Some tm ∧ ∃ d, timers c !! tm = Some (e, d) ∧ lastUsed r + idle ≤ d
           else idleTimer r = None)) →
  (∀ x, k' = KCall x → byHost (cl s) = None ∨ ∃ h, table (cl s) !! h = Some x) →
  inv (set_caller i k' (s <| cl := c |> <| now := t |>)).
Proof.
  intros Hv [[T1 [T2 T3]] T4 T5 T6] Hi Ht Hcalls He Hk'. pose proof Hv as [V1 V2 V3 V4 V5 V6 V7 V8 V9].
  assert (Etab : table c = table (cl s)) by (unfold table; by rewrite T2).
  split; unfold places; simpl; rewrite ?Etab, ?T1, ?T2, ?T3; try done.
  - intros h x Hx. destruct (decide (x = e)) as [->|Hne].
    + destruct (He h Hx) as (r & Hr & Hh & Hin & Ha). exists r. split_and!; try done. case_match; [|done].
      destruct Ha as (tm & Htm & d & Hd & Hle). exists tm. split; [done|]. left. by exists d.
    + destruct (V2 h x Hx) as (r & Hr & Hh & Hin & Ha). exists r. rewrite T4 by done. split_and!; try done.
      * rewrite (msum_insert _ i k), Hcalls by done. lia.
      * case_match; [|done]. eapply ahead_mono; [| |exact Ht|exact Ha]; simpl; [|done].
        intros tm d Hd Htm. by eapply T5.
  - intros j x. rewrite lookup_insert_Some. intros [[_ ?]|[_ ?]]; [by apply Hk'|by apply (V3 j)].
Qed.

Lemma stop_timer_fields t c :
  cancelled (stop_timer t c) = cancelled c ∧ byHost (stop_timer t c) = byHost c ∧
  evictions (stop_timer t c) = evictions c ∧ rpcs (stop_timer t c) = rpcs c ∧
  nextTimer (stop_timer t c) = nextTimer c ∧
  timers (stop_timer t c) = match t with Some t => delete t (timers c) | None => timers c end.
Proof. by destruct t. Qed.

Lemma stop_timer_lookup t c x y : timers (stop_timer t c) !! x = Some y → timers c !! x = Some y.
Proof. destruct t; simpl; [|done]. by intros [_ ?]%lookup_delete_Some. Qed.

Lemma cached_ok s i h c r :
  inv s → callers s !! i = Some (KCached h) → cached h (cl s) = (c, r) →
  inv (set_caller i (match r with
                     | Ok (Some e) => KCall e
                     | Ok None => KDial h
                     | Err err => KReturned (Some err)
                     end) (s <| cl := c |>)).
Proof.
  intros Hv Hi Hc.
  assert (Hsame : ∀ k, (∀ e, calls e k = 0) → (∀ e, k ≠ KCall e) → inv (set_caller i k s)).
  { intros k Hk Hn. apply (inv_neutral s); simpl; try done.
    - intros e. rewrite (callers_sum _ _ i (KCached h)), Hk by done. simpl. lia.
    - intros j e. rewrite lookup_insert_Some. intros [[_ ?]|[_ ?]]; [by destruct (Hn e)|eauto]. }
  assert (Heta : s <| cl := cl s |> = s) by (by destruct s).
  unfold cached in Hc. destruct (cancelled (cl s)) eqn:Ex; [simplify_eq; rewrite Heta; by apply Hsame|].
  destruct (byHost (cl s)) as [m|] eqn:Eb; [|simplify_eq; rewrite Heta; by apply Hsame].
  destruct (m !! h) as [e|] eqn:Em; [|simplify_eq; rewrite Heta; by apply Hsame].
  destruct (rpcs (cl s) !! e) as [x|] eqn:Er; simplify_eq; [|rewrite Heta; by apply Hsame].
  assert (Htab : table (cl s) !! h = Some e) by (unfold table; by rewrite Eb).
  destruct (v_table s Hv h e Htab) as (x0 & Hx0 & Hh & Hin & Ha). simplify_eq.
  pose proof (msum_nonneg (calls e) (callers s) (calls_nonneg e)) as Hpos.
  destruct (stop_timer_fields (idleTimer x) (cl s)) as (F1 & F2 & F3 & F4 & F5 & F6).
  replace (s <| cl := _ |>) with ((s <| cl := set_rpc e (x <| inflight := inflight x + 1 |> <| idleTimer := None |>) (stop_timer (idleTimer x) (cl s)) |>) <| now := now s |>) by done.
  apply (inv_touch s e _ i (KCached (host x)) (KCall e)); try done.
  - split; simpl; rewrite ?F1, ?F2, ?F3, ?F4; try done.
    + intros y Hy. by rewrite lookup_insert_ne.
    + intros h' y ry t d Hy Hne Hry Ht Hd. rewrite F6. destruct (idleTimer x) as [t'|] eqn:Et; [|done].
      rewrite lookup_delete_ne; [done|]. intros ->. apply Hne.
      by eapply (timer_owner s h' (host x) y e ry x t).
    + rewrite F5. destruct (v_timers s Hv) as [A B]. split; [|done]. intros t y Hy%stop_timer_lookup. by apply A in Hy.
  - intros y Hy. simpl. by apply eqz_ne.
  - intros h' Hh'. assert (h' = host x) as -> by (by eapply table_host). simpl. rewrite F4, lookup_insert_eq.
    eexists. split; [done|]. simpl. rewrite (callers_sum _ _ i (KCached (host x))) by done. simpl. rewrite eqz_same.
    split_and!; [done|lia|]. destruct (inflight x + 1 =? 0) eqn:Ez; [|done]. apply Z.eqb_eq in Ez. lia.
  - intros y [= <-]. right. eauto.
Qed.

Lemma arm_spec e t c r :
  rpcs c !! e = Some r →
  arm e t c = mkClient (cancelled c) (byHost c) (evictions c) (<[e := r <| idleTimer := Some (nextTimer c) |>]> (rpcs c))
                (<[nextTimer c := (e, t + idle)]> (timers c)) (S (nextTimer c)).
Proof. intros H. unfold arm. by rewrite H. Qed.

(** Arming a new timer disturbs no other. *)
Lemma timers_grow s e d :
  inv s → let n := nextTimer (cl s) in let m := <[n := (e, d)]> (timers (cl s)) in
  (∀ t x, m !! t = Some x → (t < S n)%nat ∧ evictors s !! t = None) ∧ (∀ t x, evictors s !! t = Some x → (t < S n)%nat).
Proof.
  intros Hv n m. destruct (v_timers s Hv) as [A B]. split.
  - intros t x. unfold m. rewrite lookup_insert_Some. intros [[<- _]|[_ Ht]].
    + split; [lia|]. destruct (evictors s !! n) eqn:E; [|done]. apply B in E. unfold n in E. lia.
    + destruct (A t x Ht). split; [unfold n; lia|done].
  - intros t x Ht%B. unfold n. lia.
Qed.

Lemma timers_keep s e d t x :
  inv s → timers (cl s) !! t = Some x → <[nextTimer (cl s) := (e, d)]> (timers (cl s)) !! t = Some x.
Proof. intros Hv Ht. rewrite lookup_insert_ne; [done|]. destruct (v_timers s Hv) as [A _]. destruct (A t x Ht). lia. Qed.

Lemma release_ok s i e err t :
  inv s → callers s !! i = Some (KCall e) → now s ≤ t →
  inv (set_caller i (KReturned err) (s <| cl := release e (now s) t (cl s) |> <| now := t |>)).
Proof.
  intros Hv Hi Ht. set (k' := KReturned err).
  assert (Hother : ∀ x, x ≠ e → calls x k' = calls x (KCall e)) by (intros; simpl; by rewrite eqz_ne).
  assert (Hsum : msum (calls e) (<[i := k']> (callers s)) = msum (calls e) (callers s) - 1).
  { rewrite (callers_sum _ _ i (KCall e)) by done. simpl. rewrite eqz_same. lia. }
  assert (Hskip : (∀ h, table (cl s) !! h ≠ Some e) → inv (set_caller i k' (s <| cl := cl s |> <| now := t |>))).
  { intros Hn. apply (inv_touch s e _ i (KCall e) k'); try done.
    - split; try done. apply (v_timers s Hv).
    - intros h Hh. by destruct (Hn h). }
  unfold release. destruct (rpcs (cl s) !! e) as [r|] eqn:Er.
  2: { apply Hskip. intros h Hh. destruct (v_table s Hv h e Hh) as (r & Hr & _). congruence. }
  case_decide as Hd.
  2: { apply Hskip. intros h Hh. destruct (v_table s Hv h e Hh) as (r0 & Hr0 & Hhost & _). simplify_eq. }
  destruct (v_table s Hv _ e Hd) as (r0 & Hr0 & _ & Hin & Ha). simplify_eq.
  assert (Hge : 1 ≤ msum (calls e) (callers s)).
  { rewrite <- (eqz_same e). apply (msum_lookup_le (calls e) i (KCall e)); [|done]. intros. apply calls_nonneg. }
  assert (Hnone : idleTimer r = None) by (case_match eqn:Ez; [apply Z.eqb_eq in Ez; lia|done]). clear Ha.
  set (r' := r <| inflight := inflight r - 1 |> <| lastUsed := now s |>).
  change (inflight (r <| inflight := inflight r - 1 |> <| lastUsed := now s |>)) with (inflight r - 1). simpl.
  destruct (inflight r - 1 =? 0) eqn:Ez.
  - rewrite (arm_spec e t _ r') by (simpl; apply lookup_insert_eq). simpl. rewrite insert_insert_eq.
    apply (inv_touch s e _ i (KCall e) k'); try done.
    + split; simpl; try done; [intros; by rewrite lookup_insert_ne|intros; by apply timers_keep|by apply timers_grow].
    + intros h Hh. assert (h = host r) as -> by (by eapply table_host). simpl. rewrite lookup_insert_eq.
      eexists. split; [done|]. simpl. rewrite Ez. split_and!; [done|lia|]. eexists. split; [done|]. eexists.
      rewrite lookup_insert_eq. split; [done|]. lia.
  - apply (inv_touch s e _ i (KCall e) k'); try done.
    + split; simpl; try done; [intros; by rewrite lookup_insert_ne|apply (v_timers s Hv)].
    + intros h Hh. assert (h = host r) as -> by (by eapply table_host). simpl. rewrite lookup_insert_eq.
      eexists. split; [done|]. simpl. rewrite Ez. split_and!; [done|lia|done].
Qed.

Lemma caller_ok s i s' : inv s → caller_step s i s' → inv s'.
Proof.
  intros Hv Hs.
  assert (Hmove : ∀ k k', callers s !! i = Some k → (∀ e, calls e k = 0) → (∀ e, k' ≠ KCall e) → (∀ e, calls e k' = 0) →
    ∀ s1, cl s1 = cl s → evictors s1 = evictors s → closers s1 = closers s → opened s1 = opened s → closed s1 = closed s →
    now s1 = now s → (∀ e, msum (flies e) (flights s1) = msum (flies e) (flights s)) → callers s1 = callers s →
    inv (set_caller i k' s1)).
  { intros k k' Hk Hz Hn Hz' s1 E1 E2 E3 E4 E5 E6 E7 E8. apply (inv_neutral s); simpl; try done; rewrite ?E6, ?E8; try done.
    - intros e. rewrite (callers_sum _ _ i k), Hz, Hz' by done. lia.
    - intros j e. rewrite lookup_insert_Some. intros [[_ ?]|[_ ?]]; [by destruct (Hn e)|eauto]. }
  destruct Hs as [ep h Hi _|h c r Hi Hc|h f Hi Hf|h f Hi Hf Hn|h f err Hi Hf|h f err Hi|h f Hi _|e err t Hi Ht].
  - apply (inv_neutral s); simpl; try done.
    + intros e. rewrite msum_insert_new by done. simpl. lia.
    + intros j e. rewrite lookup_insert_Some. intros [[_ ?]|[_ ?]]; [done|eauto].
  - by apply cached_ok.
  - by eapply Hmove.
  - eapply Hmove; try done. intros e. simpl. rewrite msum_insert_new by done. unfold flies at 1. simpl. lia.
  - eapply Hmove; try done; destruct err; done.
  - by eapply Hmove.
  - by eapply Hmove.
  - by apply release_ok.
Qed.

(** Landing a flight moves no entry. *)
Lemma land_sum f h err x (m : gmap nat (string * flight)) e :
  m !! f = Some (h, x) → msum (flies e) (<[f := (h, FDone err)]> m) = msum (flies e) m - flies e (h, x).
Proof. intros H. rewrite (msum_insert _ f (h, x)) by done. unfold flies at 3; simpl. lia. Qed.

Lemma insert_ok s f h e t m :
  inv s → flights s !! f = Some (h, FConn e) → now s ≤ t → byHost (cl s) = Some m → m !! h = None →
  inv (land f h None (s <| cl := arm e t (set_rpc e (mkRpc h (now s) None 0) ((cl s) <| byHost := Some (<[h := e]> m) |>)) |>
                        <| now := t |>)).
Proof.
  intros Hv Hf Ht Hm Hh. pose proof Hv as [V1 V2 V3 V4 V5 V6 V7 V8 V9].
  assert (Htab : table (cl s) = m) by (unfold table; by rewrite Hm).
  pose proof (V1 e) as Hpl. unfold places in Hpl. destruct (places_parts s e) as (P1 & P2 & P3 & P4 & P5).
  assert (Hfl : 1 ≤ msum (flies e) (flights s)).
  { rewrite <- (eqz_same e). apply (msum_lookup_le (flies e) f (h, FConn e)); [|done]. intros. apply flies_nonneg. }
  assert (Hle : one (bool_decide (e ∈ opened s)) ≤ 1) by (by case_bool_decide).
  assert (Hnew : ∀ h', table (cl s) !! h' ≠ Some e) by (intros h' Hh'%in_table_1; lia).
  assert (Hcalls : msum (calls e) (callers s) = 0) by (apply no_call; [done|by rewrite Hm|done]).
  rewrite (arm_spec e t _ (mkRpc h (now s) None 0)) by (simpl; apply lookup_insert_eq). simpl. rewrite insert_insert_eq.
  split; unfold places, table; simpl; try done.
  - intros x. rewrite (land_sum f h None (FConn e)), msum_insert_new by done. pose proof (V1 x) as Hx.
    unfold places in Hx. rewrite Htab in Hx. unfold flies at 2; simpl. lia.
  - intros h' x. rewrite lookup_insert_Some. intros [[<- <-]|[Hne Hx]].
    + rewrite lookup_insert_eq. eexists. split; [done|]. simpl. split_and!; [done|done|].
      eexists. split; [done|]. left. eexists. simpl. rewrite lookup_insert_eq. split; [done|]. simpl. lia.
    + rewrite <- Htab in Hx. destruct (V2 h' x Hx) as (r & Hr & Hhost & Hin & Ha).
      exists r. rewrite lookup_insert_ne by (intros ->; by apply (Hnew h')). split_and!; try done. case_match; [|done].
      eapply ahead_mono; [| |exact Ht|exact Ha]; simpl; [|done]. intros. by apply timers_keep.
  - intros i x Hi. destruct (V3 i x Hi) as [?|[h' Hh']]; [congruence|right]. exists h'. rewrite Htab in Hh'.
    rewrite lookup_insert_ne; [done|]. intros ->. congruence.
  - by apply timers_grow.
  - rewrite Hm in V7. done.
Qed.

Lemma flight_ok s f s' : inv s → flight_step s f s' → inv s'.
Proof.
  intros Hv Hs. destruct Hs as [h err Hf|h e Hf He|h e t c again err Hf Ht Hc].
  - apply (inv_neutral s); simpl; try done; [|eauto]. intros e. rewrite (land_sum f h (Some err) FDial) by done.
    unfold flies at 2; simpl. lia.
  - destruct Hv as [V1 V2 V3 V4 V5 V6 V7 V8 V9]. split; try done.
    intros x. specialize (V1 x). unfold places in *. simpl. rewrite (msum_insert _ f (h, FDial)) by done.
    unfold flies at 2 3; simpl. destruct (decide (x = e)) as [->|Hne].
    + rewrite eqz_same, bool_decide_true by set_solver. rewrite bool_decide_false in V1 by done. simpl in *. lia.
    + rewrite eqz_ne by done. rewrite (bool_decide_ext (x ∈ opened s ∪ {[e]}) (x ∈ opened s)) by set_solver. lia.
  - unfold connect in Hc.
    assert (Hclose : inv (land f h err (s <| cl := cl s |> <| now := t |> <| closed := e :: closed s |>))).
    { destruct Hv as [V1 V2 V3 V4 V5 V6 V7 V8 V9]. split; try done.
      - intros x. specialize (V1 x). unfold places in *. simpl. rewrite (land_sum f h err (FConn e)) by done.
        unfold flies at 2; simpl. lia.
      - intros h' x Hx. destruct (V2 h' x Hx) as (r & Hr & Hhost & Hin & Ha). exists r. split_and!; try done.
        case_match; [|done]. by eapply ahead_mono; [| |exact Ht|exact Ha]. }
    destruct (byHost (cl s)) as [m|] eqn:Hm; [|simplify_eq; exact Hclose].
    destruct (m !! h) eqn:Hh; simplify_eq; [exact Hclose|]. by apply insert_ok.
Qed.

Lemma evict_ok s t s' : inv s → evict_step s t s' → inv s'.
Proof.
  intros Hv Hs. pose proof Hv as [V1 V2 V3 V4 V5 V6 V7 V8 V9]. destruct V6 as [V6 V6'].
  destruct Hs as [e d Ht Hd|e c He Hc|e c He Hc|e He|He].
  - destruct (V6 t _ Ht) as [Hlt Hn]. split; unfold places; simpl; try done.
    + intros x. rewrite msum_insert_new by done. simpl. apply V1.
    + intros h x Hx. destruct (V2 h x Hx) as (r & Hr & Hhost & Hin & Ha). exists r. split_and!; try done. case_match; [|done].
      destruct Ha as (tm & Htm & [(d' & Hd' & Hle)|[He Hle]]); exists tm; (split; [done|]).
      * destruct (decide (tm = t)) as [->|Hne]; [right; simplify_eq; simpl; rewrite lookup_insert_eq; split; [done|lia]|].
        left. exists d'. simpl. by rewrite lookup_delete_ne.
      * right. simpl. rewrite lookup_insert_ne by congruence. done.
    + rewrite msum_insert_new by done. simpl. lia.
    + split.
      * intros t' y [Hne Hy]%lookup_delete_Some. rewrite lookup_insert_ne by done. by apply V6 in Hy.
      * intros t' y. rewrite lookup_insert_Some. intros [[<- _]|[_ Hy]]; [done|by apply V6' in Hy].
  - unfold evict in Hc. destruct (byHost (cl s)) as [m|] eqn:Hm; [|done].
    destruct (rpcs (cl s) !! e) as [r|] eqn:Hr; [|done]. case_match eqn:Eg; simplify_eq. to_prop.
    assert (Htab : table (cl s) = m) by (unfold table; by rewrite Hm).
    split; unfold places, table; simpl; try done.
    + intros x. specialize (V1 x). unfold places in V1. rewrite Htab in V1.
      rewrite (msum_delete _ (host r) e), (msum_insert _ t (EEnter e)) by done. simpl. lia.
    + intros h x [Hne Hx]%lookup_delete_Some. rewrite <- Htab in Hx.
      destruct (V2 h x Hx) as (rx & Hrx & Hhost & Hin & Ha). exists rx.
      assert (Hxe : x ≠ e) by (intros ->; simplify_eq). rewrite lookup_insert_ne by done. split_and!; try done.
      case_match; [|done]. eapply ahead_mono; [| | |exact Ha]; simpl; [done| |done].
      intros tm Htm _. rewrite lookup_insert_ne; [done|]. intros ->. congruence.
    + intros i x Hi. right. destruct (V3 i x Hi) as [?|[h Hh]]; [done|]. exists h. rewrite Htab in Hh.
      rewrite lookup_delete_ne; [done|]. intros <-. assert (x = e) as -> by congruence.
      destruct (V2 (host r) e) as (rx & Hrx & _ & Hin & _); [by rewrite Htab|]. assert (rx = r) as -> by congruence.
      pose proof (msum_lookup_le (calls e) i (KCall e) (callers s) (λ _ _ _, calls_nonneg e _) Hi) as Hle.
      simpl in Hle. rewrite eqz_same in Hle. lia.
    + rewrite (msum_insert _ t (EEnter e)) by done. simpl. lia.
    + split; [|intros t' y; rewrite lookup_insert_Some; intros [[<- _]|[_ Hy]]; eauto].
      intros t' y Hy. rewrite lookup_insert_ne; [by apply V6 in Hy|]. intros ->. destruct (V6 t' y Hy). congruence.
    + intros i Hi. pose proof (msum_lookup_le first i _ (closers s) (λ _ _ _, first_nonneg _) Hi). simpl in *. lia.
  - assert (c = cl s) as -> by (unfold evict in Hc; repeat case_match; by simplify_eq).
    split; unfold places; simpl; try done.
    + intros x. rewrite (msum_delete _ t (EEnter e)) by done. simpl. specialize (V1 x). unfold places in V1. lia.
    + intros h x Hx. destruct (V2 h x Hx) as (r & Hr & Hhost & Hin & Ha). exists r. split_and!; try done. case_match eqn:Ez; [|done].
      apply Z.eqb_eq in Ez. destruct Ha as (tm & Htm & [(d' & Hd' & Hle)|[He' Hle]]); exists tm; (split; [done|]); [left; eauto|right].
      destruct (decide (tm = t)) as [->|Hne]; [|simpl; by rewrite lookup_delete_ne]. exfalso. simplify_eq.
      unfold evict, table in *. destruct (byHost (cl s)) as [m|] eqn:Hm; [|done]. simpl in Hx. rewrite Hr in Hc.
      rewrite bool_decide_true in Hc by done. rewrite Ez in Hc. simpl in Hc.
      replace (now s - lastUsed r <? idle) with false in Hc by (symmetry; apply Z.ltb_ge; lia). done.
    + rewrite (msum_delete _ t (EEnter e)) by done. simpl. lia.
    + split; [intros t' y Hy; destruct (V6 t' y Hy); by rewrite lookup_delete_None; auto|].
      intros t' y [_ Hy]%lookup_delete_Some. eauto.
  - split; unfold places; simpl; try done.
    + intros x. rewrite (msum_insert _ t (EClose e)) by done. simpl. specialize (V1 x). unfold places in V1. lia.
    + intros h x Hx. destruct (V2 h x Hx) as (r & Hr & Hhost & Hin & Ha). exists r. split_and!; try done. case_match; [|done].
      eapply ahead_mono; [| | |exact Ha]; simpl; [done| |done]. intros tm Htm _. rewrite lookup_insert_ne; [done|]. intros ->. congruence.
    + rewrite (msum_insert _ t (EClose e)) by done. simpl. lia.
    + split; [intros t' y Hy; destruct (V6 t' y Hy); rewrite lookup_insert_ne; [done|]; intros ->; congruence|].
      intros t' y. rewrite lookup_insert_Some. intros [[<- _]|[_ Hy]]; eauto.
  - split; unfold places, table; simpl; try done.
    + intros x. rewrite (msum_delete _ t EDone) by done. simpl. specialize (V1 x). unfold places, table in V1. lia.
    + intros h x Hx. destruct (V2 h x Hx) as (r & Hr & Hhost & Hin & Ha). exists r. split_and!; try done. case_match; [|done].
      eapply ahead_mono; [| | |exact Ha]; simpl; [done| |done]. intros tm Htm _. rewrite lookup_delete_ne; [done|]. intros ->. congruence.
    + rewrite (msum_delete _ t EDone) by done. simpl. lia.
    + split; [intros t' y Hy; destruct (V6 t' y Hy); by rewrite lookup_delete_None; auto|].
      intros t' y [_ Hy]%lookup_delete_Some. eauto.
    + intros i Hi. exfalso. specialize (V8 i Hi).
      pose proof (msum_lookup_le leaving t EDone (evictors s) (λ _ _ _, leaving_nonneg _) He). simpl in *. lia.
Qed.

Lemma stop_timers_fields es c :
  cancelled (stop_timers es c) = cancelled c ∧ byHost (stop_timers es c) = byHost c ∧
  evictions (stop_timers es c) = evictions c ∧ rpcs (stop_timers es c) = rpcs c ∧
  nextTimer (stop_timers es c) = nextTimer c ∧
  ∀ t x, timers (stop_timers es c) !! t = Some x → timers c !! t = Some x.
Proof.
  induction es as [|e es IH]; simpl; [done|]. destruct IH as (I1 & I2 & I3 & I4 & I5 & I6). rewrite I4.
  destruct (rpcs c !! e) as [r|]; [|done].
  destruct (stop_timer_fields (idleTimer r) (stop_timers es c)) as (F1 & F2 & F3 & F4 & F5 & _).
  rewrite F1, F2, F3, F4, F5. split_and!; try done. intros t x Hx%stop_timer_lookup. by apply I6.
Qed.

Lemma close_ok s i s' : inv s → close_step s i s' → inv s'.
Proof.
  intros Hv Hs. pose proof Hv as [V1 V2 V3 V4 V5 V6 V7 V8 V9].
  assert (Htabs : ∀ s1, table (cl s1) = table (cl s) → rpcs (cl s1) = rpcs (cl s) → timers (cl s1) = timers (cl s) →
    evictors s1 = evictors s → callers s1 = callers s → now s1 = now s → ∀ h e, table (cl s1) !! h = Some e →
    ∃ r, rpcs (cl s1) !! e = Some r ∧ host r = h ∧ inflight r = msum (calls e) (callers s1) ∧
         (if inflight r =? 0 then eviction_ahead s1 e r else idleTimer r = None)).
  { intros s1 E1 E2 E3 E4 E5 E6 h e. rewrite E1, E2, E5. intros Hh. destruct (V2 h e Hh) as (r & Hr & Hho & Hin & Ha).
    exists r. split_and!; try done. case_match; [|done]. eapply ahead_mono; [| | |exact Ha]; rewrite ?E3, ?E4, ?E6; done. }
  destruct Hs as [Hi|c l Hi Hc|e es Hi|Hi He].
  - split; unfold places; simpl; try done; try (by apply Htabs).
    + intros e. rewrite msum_insert_new by done. simpl. apply V1.
    + rewrite msum_insert_new by done. done.
    + intros j. rewrite lookup_insert_Some. intros [[_ ?]|[_ ?]]; [done|eauto].
  - pose proof (V9 i CEnter Hi) as Hx. unfold Close in Hc. destruct (byHost (cl s)) as [m|] eqn:Hm; simplify_eq.
    + destruct (stop_timers_fields (map_to_list m).*2 ((cl s) <| byHost := None |>)) as (F1 & F2 & F3 & F4 & F5 & F6).
      simpl in F1, F2, F3, F4, F5, F6. set (c := stop_timers _ _) in *.
      assert (Htab : table (cl s) = m) by (unfold table; by rewrite Hm).
      split; unfold places, table; simpl; rewrite ?F1, ?F2, ?F3, ?F5; try done.
      * intros e. rewrite (msum_insert _ i CEnter) by done. simpl. rewrite msum_empty, <- msum_lsum.
        specialize (V1 e). unfold places in V1. rewrite Htab in V1. lia.
      * by left.
      * split; [|apply V6]. intros t x Ht%F6. destruct V6 as [A _]. by apply A in Ht.
      * rewrite (msum_insert _ i CEnter) by done. simpl. simpl in V7. lia.
      * intros j. rewrite lookup_insert_Some. intros [[_ ?]|[_ Hj]]; [done|eauto].
    + split; unfold places; simpl; try done; try (by apply Htabs).
      * intros e. rewrite (msum_insert _ i CEnter) by done. simpl. specialize (V1 e). unfold places in V1. lia.
      * intros. by left.
      * rewrite (msum_insert _ i CEnter), Hm by done. simpl. simpl in V7. lia.
      * intros j. rewrite lookup_insert_Some. intros [[_ ?]|[_ ?]]; [done|eauto].
  - pose proof (V9 i _ Hi) as Hx. split; unfold places; simpl; try done; try (by apply Htabs).
    + intros x. rewrite (msum_insert _ i (CClosing (e :: es))) by done. simpl. specialize (V1 x). unfold places in V1. lia.
    + rewrite (msum_insert _ i (CClosing (e :: es))) by done. simpl. lia.
    + intros j. rewrite lookup_insert_Some. intros [[_ ?]|[_ ?]]; [done|eauto].
  - pose proof (V9 i _ Hi) as Hx. split; unfold places; simpl; try done; try (by apply Htabs).
    + intros x. rewrite (msum_insert _ i (CClosing [])) by done. simpl. specialize (V1 x). unfold places in V1. lia.
    + rewrite (msum_insert _ i (CClosing [])) by done. simpl. lia.
Qed.

Lemma inv_time s t : inv s → now s ≤ t → inv (s <| now := t |>).
Proof. intros Hv Ht. apply (inv_neutral s); try done. eauto. Qed.

Lemma pool_step s s' : inv s → step s s' → inv s'.
Proof.
  intros Hv Hs. destruct Hs; [by eapply caller_ok|by eapply flight_ok|by eapply evict_ok|by eapply close_ok|by apply inv_time].
Qed.

Lemma pool_inv s : reach s → inv s.
Proof.
  apply invariant_reachable.
  - intros s0 (t & ->). split; unfold places; simpl; try done.
  - intros s0 s1 _. exact (pool_step s0 s1).
Qed.

(** ** Theorems *)

Lemma closed_count s e : e ∈ closed s ↔ 1 ≤ lsum (eqz e) (closed s).
Proof.
  induction (closed s) as [|x l IH]; simpl; [split; [by intros ?%elem_of_nil|lia]|].
  pose proof (lsum_nonneg (eqz e) l (eqz_nonneg e)). pose proof (eqz_nonneg e x). rewrite elem_of_cons, IH.
  destruct (decide (x = e)) as [->|Hne]; [rewrite eqz_same|rewrite eqz_ne by done]; split; try lia; auto.
Qed.

(** Connections neither leak nor are closed twice: each connection made is
    at any moment in exactly one place, the table, a dial that just made it, an
    eviction or a [Close] about to close it, or closed once. *)
Theorem pool_conns_once s e :
  reach s → e ∈ opened s → places s e = 1.
Proof. intros Hr%pool_inv He. rewrite (v_places s Hr), bool_decide_true by done. done. Qed.

(** A call runs on an open connection: a connection that is closed while
    a call holds it was closed because the client was. *)
Theorem pool_call_open s i e :
  reach s → callers s !! i = Some (KCall e) → e ∈ closed s → cancelled (cl s) = true.
Proof.
  intros Hr%pool_inv Hi He. destruct (v_call s Hr i e Hi) as [Hn|[h Hh]]; [by apply (v_nil s Hr)|]. exfalso.
  apply closed_count in He. apply in_table_1 in Hh. pose proof (v_places s Hr e) as Hp. unfold places in Hp.
  destruct (places_parts s e) as (P1 & P2 & P3 & P4 & P5).
  assert (one (bool_decide (e ∈ opened s)) ≤ 1) by (by case_bool_decide). lia.
Qed.

(** An entry of the table that no call uses is about to be evicted: its
    timer is armed for a time after its last use plus the idle time, or has
    fired and its goroutine will find the entry idle long enough. *)
Theorem pool_idle_evicted s h e r :
  reach s → table (cl s) !! h = Some e → rpcs (cl s) !! e = Some r → inflight r = 0 → eviction_ahead s e r.
Proof.
  intros Hr%pool_inv Ht He Hz. destruct (v_table s Hr h e Ht) as (r0 & Hr0 & _ & _ & Ha). simplify_eq.
  by rewrite Hz in Ha.
Qed.

Lemma pool_closed_stays s s' i :
  rtc step s s' → closers s !! i = Some (CReturned true) → closers s' !! i = Some (CReturned true).
Proof.
  intros Hr. induction Hr as [|s s1 s2 Hst _ IH]; [done|]. intros Hi. apply IH.
  destruct Hst as [j s1 Hs|f s1 Hs|t s1 Hs|j s1 Hs|t Ht]; [by destruct Hs|by destruct Hs|by destruct Hs| |done].
  destruct Hs as [Hj|c l Hj _|e es Hj|Hj _]; simpl; (rewrite lookup_insert_ne; [done|]; intros ->; congruence).
Qed.

(** Once the [Close] that took the table returned, every connection ever
    made is closed, but for one a dial still holds and will close, and this
    stays so. *)
Theorem pool_close_drains s s' i e :
  reach s → closers s !! i = Some (CReturned true) → rtc step s s' → e ∈ opened s' →
  e ∈ closed s' ∨ ∃ f h, flights s' !! f = Some (h, FConn e).
Proof.
  intros Hr Hi Hst He. pose proof (pool_closed_stays _ _ _ Hst Hi) as Hi'.
  assert (Hv : inv s') by (apply pool_inv; by eapply reachable_rtc).
  pose proof (msum_lookup_le first i _ (closers s') (λ _ _ _, first_nonneg _) Hi') as Hf. simpl in Hf.
  pose proof (v_first s' Hv) as H1. assert (Hb : byHost (cl s') = None) by (case_bool_decide; [done|simpl in H1; lia]).
  rewrite bool_decide_true in H1 by done. simpl in H1.
  pose proof (v_places s' Hv e) as Hp. unfold places in Hp. rewrite bool_decide_true in Hp by done.
  assert (Ht : msum (eqz e) (table (cl s')) = 0) by (unfold table; by rewrite Hb).
  assert (Hev : msum (evicts e) (evictors s') = 0).
  { pose proof (v_evictions s' Hv) as Hn. rewrite (v_closed s' Hv i Hi') in Hn.
    assert (Hle : msum (evicts e) (evictors s') ≤ msum leaving (evictors s')).
    { apply msum_le. intros []; simpl; try done. unfold eqz. by case_bool_decide. }
    pose proof (msum_nonneg (evicts e) (evictors s') (evicts_nonneg e)). lia. }
  assert (Hcl : msum (closing e) (closers s') = 0).
  { pose proof (msum_nonneg (closing e) (closers s') (closing_nonneg e)).
    destruct (decide (0 < msum (closing e) (closers s'))) as [Hpos|]; [|lia].
    destruct (msum_pos_exists _ _ Hpos) as (j & c & Hj & Hc). destruct c as [|es|]; simpl in Hc; try done.
    assert (i ≠ j) by (intros ->; congruence).
    pose proof (msum_delete first i _ (closers s') Hi') as Hd. simpl in Hd.
    assert (1 ≤ msum first (delete i (closers s'))); [|lia].
    change 1 with (first (CClosing es)). apply (msum_lookup_le first j); [intros; apply first_nonneg|].
    by rewrite lookup_delete_ne. }
  destruct (decide (1 ≤ lsum (eqz e) (closed s'))) as [?|Hnc]; [left; by apply closed_count|right].
  destruct (msum_pos_exists (flies e) (flights s')) as (f & [h x] & Hf' & Hx); [simpl in Hp; lia|].
  exists f, h. unfold flies in Hx; simpl in Hx. destruct x as [|y|]; simpl in Hx; try done.
  unfold eqz in Hx. case_bool_decide; [by subst|done].
Qed.
End Client.

(** ** A run: a call dials, returns, and the client is closed *)

Module GateClientExample.
Definition Parse (raw : string) : result URL :=
  if bool_decide (raw = "grpc://g1:9000"%string) then Ok (url_of "grpc" "g1:9000")
  else Err (EText "first path segment in URL cannot contain colon").
Abbreviation Step := (step Parse false 300).
Abbreviation Reach := (reach Parse false 300).
Definition s0 : sys := mkSys New 0 ∅ ∅ ∅ ∅ ∅ ∅ [].

Ltac take H tac :=
  let H' := fresh in
  lazymatch type of H with
  | Reach ?s =>
      eassert (H' : Step s _) by (tac; first [reflexivity|discriminate|lia|set_solver]);
      apply (reach_step _ _ _ _ H) in H'; cbn in H'; clear H; rename H' into H;
      change (reachable init_sys Step) with Reach in H
  end.

(** The call runs on connection 7. *)
Definition calling : sys :=
  mkSys (mkClient false (Some {["g1:9000" := 7%nat]}) 0 {[7%nat := mkRpc "g1:9000" 0 None 1]} ∅ 1) 0
    {[1%nat := KCall 7]} {[0%nat := ("g1:9000", FDone None)]} ∅ ∅ ∅ {[7%nat]} [].

Lemma reach_calling : Reach calling.
Proof.
  assert (H : Reach s0) by (apply reach_init; by exists 0).
  take H ltac:(eapply s_caller, (k_call _ _ _ _ 1 "grpc://g1:9000" "g1:9000")).
  take H ltac:(eapply s_caller, (k_cached _ _ _ _ 1)).
  take H ltac:(eapply s_caller, (k_dial _ _ _ _ 1 _ 0)).
  take H ltac:(eapply s_flight, (f_conn _ _ 0 _ 7)).
  take H ltac:(eapply s_flight, (f_land _ _ 0 _ 7 0)).
  take H ltac:(eapply s_caller, (k_outcome _ _ _ _ 1)).
  take H ltac:(eapply s_caller, (k_cached _ _ _ _ 1)).
  exact H.
Qed.

(** It returned: the connection is idle. *)
Definition idling : sys :=
  mkSys (mkClient false (Some {["g1:9000" := 7%nat]}) 0 {[7%nat := mkRpc "g1:9000" 0 (Some 1%nat) 0]} {[1%nat := (7%nat, 300)]} 2) 0
    {[1%nat := KReturned None]} {[0%nat := ("g1:9000", FDone None)]} ∅ ∅ ∅ {[7%nat]} [].

Lemma reach_idling : Reach idling.
Proof.
  pose proof reach_calling as H. unfold calling in H. take H ltac:(eapply s_caller, (k_release _ _ _ _ 1 7 None 0)). exact H.
Qed.

(** The client is closed. *)
Definition closed_ : sys :=
  mkSys (mkClient true None 0 {[7%nat := mkRpc "g1:9000" 0 (Some 1%nat) 0]} ∅ 2) 0
    {[1%nat := KReturned None]} {[0%nat := ("g1:9000", FDone None)]} ∅ ∅ {[4%nat := CReturned true]} {[7%nat]} [7%nat].

Lemma reach_closed_pool : Reach closed_.
Proof.
  pose proof reach_idling as H. unfold idling in H.
  take H ltac:(eapply s_close, (c_cancel _ 4)). take H ltac:(eapply s_close, (c_enter _ 4)).
  take H ltac:(eapply s_close, (c_conn _ 4 7 [])). take H ltac:(eapply s_close, (c_wait _ 4)). exact H.
Qed.

Lemma pool_conns_once_witness : places calling 7 = 1.
Proof. apply (pool_conns_once Parse false 300 calling 7 reach_calling). set_solver. Defined.

(** A call is still running when the client is closed under it. *)
Definition cut : sys :=
  mkSys (mkClient true None 0 {[7%nat := mkRpc "g1:9000" 0 None 1]} ∅ 1) 0
    {[1%nat := KCall 7]} {[0%nat := ("g1:9000", FDone None)]} ∅ ∅ {[4%nat := CClosing []]} {[7%nat]} [7%nat].

Lemma reach_cut : Reach cut.
Proof.
  pose proof reach_calling as H. unfold calling in H.
  take H ltac:(eapply s_close, (c_cancel _ 4)). take H ltac:(eapply s_close, (c_enter _ 4)).
  take H ltac:(eapply s_close, (c_conn _ 4 7 [])). exact H.
Qed.

Lemma pool_call_open_witness : cancelled (cl cut) = true.
Proof. apply (pool_call_open Parse false 300 cut 1 7 reach_cut); [reflexivity|by left]. Defined.

Lemma pool_idle_evicted_witness : eviction_ahead 300 idling 7 (mkRpc "g1:9000" 0 (Some 1%nat) 0).
Proof. apply (pool_idle_evicted Parse false 300 idling "g1:9000" 7 _ reach_idling); reflexivity. Defined.

Lemma pool_close_drains_witness : 7%nat ∈ closed closed_ ∨ ∃ f h, flights closed_ !! f = Some (h, FConn 7).
Proof.
  apply (pool_close_drains Parse false 300 closed_ closed_ 4 7 reach_closed_pool); [reflexivity|constructor|set_solver].
Defined.
End GateClientExample.
