(* ===== verification/Backends.v ===== *)
(** * Connections to node services

    [gateway/backend.go], the cache of connections: one per service, made
    once by [singleflight] from a discovery listing, shared by the requests,
    closed with the gateway.  A connection is a number; discovery, dialling
    and the group only answer.  Proved: no connection leaks, is closed twice
    or overwritten, a request gets a connection of its own service that was
    made from an accepted listing, and closing leaves nothing open. *)

From S2P Require Import Prelude Errors Locate Endpoint Resolver.

Record backends := mkBackends { ctxDone : bool; byService : option (gmap string nat) }.
#[export] Instance eta_backends : Eta backends := λ b, mkBackends (ctxDone b) (byService b).

Definition newBackends : backends := mkBackends false (Some ∅).

Definition cachedBackend (svc : string) (b : backends) : result (option nat) :=
  match byService b with
  | None => Err (ESentinel ErrBackendsClosed)
  | Some m => Ok (m !! svc)
  end.

Section Backends.
Context (Parse : string → result URL) (tls : bool).   (* b.tlsConfig != nil *)

(** [instances] is the answer of discovery, [conn] that of [kgrpc.NewClient]. *)
Definition connectBackend (svc : string) (instances : result (list (option ServiceInstance))) (conn : result nat)
  : result (nat * backendSnapshot) :=
  match instances with
  | Err err => Err (EWrap "gateway: discover node service: %w" [err])
  | Ok instances =>
      match resolveBackendInstances Parse svc instances tls with
      | Err err => Err err
      | Ok (snapshot, _) =>
          if negb (available snapshot) then Err (EText "gateway: node service is unavailable")
          else match conn with
               | Err err => Err (EWrap "gateway: connect node service: %w" [err])
               | Ok conn => Ok (conn, snapshot)
               end
      end
  end.

(** The locked section of [connectAndCache]; on an error the caller closes the
    connection. *)
Definition store (svc : string) (e : nat) (b : backends) : backends * result nat :=
  match byService b with
  | None => (b, Err (ESentinel ErrBackendsClosed))
  | Some m => (b <| byService := Some (<[svc := e]> m) |>, Ok e)
  end.

(** ** The goroutines *)

(** A call of [get]: looking in the cache, asking the group, waiting for it. *)
Inductive caller :=
| BCached (svc : string)
| BLoad (svc : string)
| BWait (svc : string) (f : nat)
| BReturned (svc : string) (r : result nat).

(** A run of [connectAndCache]; one per service until the group forgets it. *)
Inductive flight :=
| FCached
| FConnect
| FConn (e : nat)
| FClose (e : nat)
| FReturn (r : result nat)
| FDone (r : result nat).

Inductive closer := CEnter | CClosing (es : list nat) | CReturned.

(** [made]: for each connection its service and the snapshot its state starts
    with; [opened] and [closed] as the connections made and closed. *)
Record sys := mkSys {
  be : backends;
  callers : gmap nat caller;
  flights : gmap nat (string * flight);
  current : gmap string nat;
  closers : gmap nat closer;
  made : gmap nat (string * backendSnapshot);
  closed : list nat;
}.
#[export] Instance eta_sys : Eta sys := λ s,
  mkSys (be s) (callers s) (flights s) (current s) (closers s) (made s) (closed s).

Definition table (s : sys) : gmap string nat := default ∅ (byService (be s)).

Definition set_caller (i : nat) (k : caller) (s : sys) : sys := s <| callers := <[i := k]> (callers s) |>.
Definition set_flight (f : nat) (svc : string) (x : flight) (s : sys) : sys :=
  s <| flights := <[f := (svc, x)]> (flights s) |>.
Definition set_closer (i : nat) (c : closer) (s : sys) : sys := s <| closers := <[i := c]> (closers s) |>.

Inductive get_step (s : sys) (i : nat) : sys → Prop :=
| g_invalid svc :
    callers s !! i = None → ValidServiceName svc = false →
    get_step s i (set_caller i (BReturned svc (Err (EText "gateway: invalid node service"))) s)
| g_call svc : callers s !! i = None → ValidServiceName svc = true → get_step s i (set_caller i (BCached svc) s)
| g_cached svc :
    callers s !! i = Some (BCached svc) →
    get_step s i (set_caller i (match cachedBackend svc (be s) with
                                | Ok (Some e) => BReturned svc (Ok e)
                                | Ok None => BLoad svc
                                | Err err => BReturned svc (Err err)
                                end) s)
| g_join svc f :
    callers s !! i = Some (BLoad svc) → current s !! svc = Some f → get_step s i (set_caller i (BWait svc f) s)
| g_load svc f :
    callers s !! i = Some (BLoad svc) → current s !! svc = None → flights s !! f = None →
    get_step s i (set_caller i (BWait svc f) (set_flight f svc FCached (s <| current := <[svc := f]> (current s) |>)))
| g_ctx svc f err :                         (* ctx.Done() *)
    callers s !! i = Some (BWait svc f) → get_step s i (set_caller i (BReturned svc (Err err)) s)
| g_closed svc f :                          (* b.ctx.Done() *)
    callers s !! i = Some (BWait svc f) → ctxDone (be s) = true →
    get_step s i (set_caller i (BReturned svc (Err (ESentinel ErrBackendsClosed))) s)
| g_result svc f r :
    callers s !! i = Some (BWait svc f) → flights s !! f = Some (svc, FDone r) →
    get_step s i (set_caller i (BReturned svc (if ctxDone (be s) then Err (ESentinel ErrBackendsClosed) else r)) s).

Inductive load_step (s : sys) (f : nat) : sys → Prop :=
| l_cached svc :
    flights s !! f = Some (svc, FCached) →
    load_step s f (set_flight f svc (match cachedBackend svc (be s) with
                                     | Ok (Some e) => FReturn (Ok e)
                                     | Ok None => FConnect
                                     | Err err => FReturn (Err err)
                                     end) s)
| l_fail svc instances conn err :
    flights s !! f = Some (svc, FConnect) → connectBackend svc instances conn = Err err →
    load_step s f (set_flight f svc (FReturn (Err err)) s)
| l_conn svc instances conn e snapshot :
    flights s !! f = Some (svc, FConnect) → connectBackend svc instances conn = Ok (e, snapshot) → made s !! e = None →
    load_step s f (set_flight f svc (FConn e) (s <| made := <[e := (svc, snapshot)]> (made s) |>))
| l_store svc e b r :
    flights s !! f = Some (svc, FConn e) → store svc e (be s) = (b, r) →
    load_step s f (set_flight f svc (match r with Ok _ => FReturn r | Err _ => FClose e end) (s <| be := b |>))
| l_close svc e :
    flights s !! f = Some (svc, FClose e) →
    load_step s f (set_flight f svc (FReturn (Err (ESentinel ErrBackendsClosed))) (s <| closed := e :: closed s |>))
| l_forget svc r :
    flights s !! f = Some (svc, FReturn r) →
    load_step s f (set_flight f svc (FDone r) (s <| current := delete svc (current s) |>)).

Inductive close_step (s : sys) (i : nat) : sys → Prop :=
| x_cancel : closers s !! i = None → close_step s i (set_closer i CEnter (s <| be := (be s) <| ctxDone := true |> |>))
| x_swap :
    closers s !! i = Some CEnter →
    close_step s i (set_closer i (CClosing (map_to_list (table s)).*2) (s <| be := (be s) <| byService := None |> |>))
| x_conn e es :
    closers s !! i = Some (CClosing (e :: es)) →
    close_step s i (set_closer i (CClosing es) (s <| closed := e :: closed s |>))
| x_return : closers s !! i = Some (CClosing []) → close_step s i (set_closer i CReturned s).

Inductive step (s : sys) : sys → Prop :=
| s_get i s' : get_step s i s' → step s s'
| s_load f s' : load_step s f s' → step s s'
| s_close i s' : close_step s i s' → step s s'.

Definition init_sys (s : sys) : Prop := s = mkSys newBackends ∅ ∅ ∅ ∅ ∅ [].

Definition reach : sys → Prop := reachable init_sys step.

(** ** Where connections are *)

Definition flies (e : nat) (f : string * flight) : Z :=
  match f.2 with FConn x | FClose x => eqz e x | _ => 0 end.
Definition closing (e : nat) (c : closer) : Z := match c with CClosing es => lsum (eqz e) es | _ => 0 end.

Definition places (s : sys) (e : nat) : Z :=
  msum (eqz e) (table s) + msum (flies e) (flights s) + msum (closing e) (closers s) + lsum (eqz e) (closed s).

Definition running (x : flight) : bool := match x with FDone _ => false | _ => true end.

(** The flight has found the cache empty and may fill it. *)
Definition filling (x : flight) : bool := match x with FConnect | FConn _ => true | _ => false end.

Record account (s : sys) : Prop := mkAccount {
  a_places : ∀ e, places s e = one (bool_decide (is_Some (made s !! e)));
  a_current : ∀ svc f x, flights s !! f = Some (svc, x) → running x = true → current s !! svc = Some f;
  a_filling : ∀ svc f x, flights s !! f = Some (svc, x) → filling x = true → table s !! svc = None;
  a_nil : byService (be s) = None → ctxDone (be s) = true;
  a_closer : ∀ i c, closers s !! i = Some c → ctxDone (be s) = true ∧ (c = CEnter ∨ byService (be s) = None);
}.

(** What a result means: a connection of the service, in the cache as long as
    there is one. *)
Definition good (s : sys) (svc : string) (r : result nat) : Prop :=
  match r with
  | Ok e => (∃ snapshot, made s !! e = Some (svc, snapshot)) ∧ (table s !! svc = Some e ∨ byService (be s) = None)
  | Err _ => True
  end.

Definition fine (s : sys) (svc : string) (x : flight) : Prop :=
  match x with
  | FConn e => ∃ snapshot, made s !! e = Some (svc, snapshot)
  | FReturn r | FDone r => good s svc r
  | _ => True
  end.

(** The snapshot comes from an accepted listing of the service. *)
Definition from_listing (svc : string) (snapshot : backendSnapshot) : Prop :=
  available snapshot = true ∧ ∃ instances as_, resolveBackendInstances Parse svc instances tls = Ok (snapshot, as_).

Record known (s : sys) : Prop := mkKnown {
  k_made : ∀ e svc snapshot, made s !! e = Some (svc, snapshot) → from_listing svc snapshot;
  k_table : ∀ svc e, table s !! svc = Some e → ∃ snapshot, made s !! e = Some (svc, snapshot);
  k_flight : ∀ f svc x, flights s !! f = Some (svc, x) → fine s svc x;
  k_caller : ∀ i svc r, callers s !! i = Some (BReturned svc r) → good s svc r;
}.

(** The cache only grows, until it is dropped for good. *)
Record grows (s s' : sys) : Prop := mkGrows {
  gr_nil : byService (be s) = None → byService (be s') = None;
  gr_table : ∀ svc e, table s !! svc = Some e → table s' !! svc = Some e ∨ byService (be s') = None;
  gr_made : made s ⊆ made s';
}.

Lemma good_grows s s' svc r : grows s s' → good s svc r → good s' svc r.
Proof.
  intros [G1 G2 G3]. destruct r as [e|]; [|done]. intros [[snapshot Hm] Ht]. split; [exists snapshot; by eapply lookup_weaken|].
  destruct Ht as [Ht|Ht]; [by apply G2|right; by apply G1].
Qed.

Lemma grows_same s s' : be s' = be s → made s' = made s → grows s s'.
Proof. intros E1 E2. split; unfold table; rewrite ?E1, ?E2; auto. Qed.

Lemma flight_nonneg e f : 0 ≤ flies e f.
Proof. unfold flies. destruct f.2; try done; apply eqz_nonneg. Qed.

Lemma in_close_nonneg e c : 0 ≤ closing e c.
Proof. destruct c; simpl; try done. apply lsum_nonneg, eqz_nonneg. Qed.

Lemma backend_parts s e :
  0 ≤ msum (eqz e) (table s) ∧ 0 ≤ msum (flies e) (flights s) ∧ 0 ≤ msum (closing e) (closers s) ∧ 0 ≤ lsum (eqz e) (closed s).
Proof.
  split_and!; [apply msum_nonneg, eqz_nonneg|apply msum_nonneg, flight_nonneg|apply msum_nonneg, in_close_nonneg
    |apply lsum_nonneg, eqz_nonneg].
Qed.

Lemma filling_running x : filling x = true → running x = true.
Proof. by destruct x. Qed.

(** A step of one flight. *)
Lemma account_flight s s' f svc x x' :
  account s → flights s !! f = Some (svc, x) → running x = true →
  flights s' = <[f := (svc, x')]> (flights s) →
  current s' = (if running x' then current s else delete svc (current s)) →
  closers s' = closers s → ctxDone (be s') = ctxDone (be s) → (byService (be s') = None ↔ byService (be s) = None) →
  (∀ svc', svc' ≠ svc → table s' !! svc' = table s !! svc') → (filling x' = true → table s' !! svc = None) →
  (∀ e, msum (eqz e) (table s') + flies e (svc, x') + lsum (eqz e) (closed s') - one (bool_decide (is_Some (made s' !! e))) =
        msum (eqz e) (table s) + flies e (svc, x) + lsum (eqz e) (closed s) - one (bool_decide (is_Some (made s !! e)))) →
  account s'.
Proof.
  intros [A1 A2 A3 A4 A5] Hf Hx Ef Ec El Ed Eb Et Hfill Hsum. split.
  - intros e. specialize (A1 e). specialize (Hsum e). unfold places in *. rewrite Ef, El, (msum_insert _ f (svc, x)) by done. lia.
  - intros svc' f' y. rewrite Ef, Ec, lookup_insert_Some. intros [[<- [= <- <-]]|[Hne Hf']] Hy.
    + rewrite Hy. by eapply A2.
    + specialize (A2 _ _ _ Hf' Hy) as Hc. destruct (running x'); [done|]. rewrite lookup_delete_ne; [done|].
      intros ->. rewrite (A2 _ _ _ Hf Hx) in Hc. congruence.
  - intros svc' f' y. rewrite Ef, lookup_insert_Some. intros [[<- [= <- <-]]|[Hne Hf']] Hy; [by apply Hfill|].
    rewrite Et; [by eapply A3|]. intros ->. pose proof (A2 _ _ _ Hf' (filling_running _ Hy)) as Hc.
    rewrite (A2 _ _ _ Hf Hx) in Hc. congruence.
  - rewrite Eb, Ed. done.
  - intros i c. rewrite El, Ed, Eb. apply A5.
Qed.

Lemma account_get s i s' : account s → get_step s i s' → account s'.
Proof.
  intros Ha Hs. destruct Hs as [| | | |svc f Hi Hc Hf| | |]; try by destruct Ha. destruct Ha as [A1 A2 A3 A4 A5]. split; try done.
  - intros e. specialize (A1 e). unfold places in *. simpl. rewrite msum_insert_new by done. simpl. unfold flies at 1. simpl. exact A1.
  - simpl. intros svc' f' y. rewrite !lookup_insert_Some. intros [[<- [= <- <-]]|[Hne Hf']] Hy; [by left|].
    right. specialize (A2 _ _ _ Hf' Hy). split; [congruence|done].
  - simpl. intros svc' f' y. rewrite lookup_insert_Some. intros [[<- [= <- <-]]|[Hne Hf']] Hy; [done|]. by eapply A3.
Qed.

Lemma cachedBackend_ok s svc r : cachedBackend svc (be s) = Ok r → r = table s !! svc ∧ byService (be s) ≠ None.
Proof. unfold cachedBackend, table. destruct (byService (be s)); [|done]. by intros [= <-]. Qed.

Lemma account_load s f s' : account s → load_step s f s' → account s'.
Proof.
  intros Ha Hs.
  destruct Hs as [svc Hf|svc li cn err Hf Hc|svc li cn e snapshot Hf Hc Hm|svc e b r Hf Hst|svc e Hf|svc r Hf].
  - eapply (account_flight _ _ f svc FCached); simpl; try done.
    + by repeat case_match.
    + destruct (cachedBackend svc (be s)) as [[e|]|] eqn:Ec; try done. by apply cachedBackend_ok in Ec as [-> _].
    + intros e. repeat case_match; done.
  - eapply (account_flight _ _ f svc FConnect); by simpl.
  - eapply (account_flight _ _ f svc FConnect); simpl; try done.
    + intros _. by eapply (a_filling s Ha).
    + intros e'. unfold flies, table; simpl.
      destruct (decide (e' = e)) as [->|Hne].
      * rewrite lookup_insert_eq, Hm, eqz_same. simpl. lia.
      * rewrite lookup_insert_ne, eqz_ne by done. lia.
  - pose proof (a_filling s Ha svc f (FConn e) Hf eq_refl) as Hnone. unfold store in Hst.
    destruct (byService (be s)) as [m|] eqn:Eb; simplify_eq.
    + assert (Hm : table s = m) by (unfold table; by rewrite Eb). rewrite Hm in Hnone.
      eapply (account_flight _ _ f svc (FConn e)); simpl; try done.
      * by rewrite Eb.
      * intros svc' Hne. rewrite Hm. unfold table; simpl. by rewrite lookup_insert_ne.
      * intros e'. unfold flies; simpl. rewrite Hm. unfold table; simpl. rewrite msum_insert_new by done. lia.
    + eapply (account_flight _ _ f svc (FConn e)); by simpl.
  - eapply (account_flight _ _ f svc (FClose e)); simpl; try done. intros e'. unfold flies, table; simpl. lia.
  - eapply (account_flight _ _ f svc (FReturn r)); by simpl.
Qed.

Lemma account_close s i s' : account s → close_step s i s' → account s'.
Proof.
  intros [A1 A2 A3 A4 A5] Hs. destruct Hs as [Hi|Hi|e es Hi|Hi]; split; simpl; try done.
  - intros e. specialize (A1 e). unfold places in *. simpl. rewrite msum_insert_new by done. simpl. exact A1.
  - intros j c. rewrite lookup_insert_Some. intros [[_ <-]|[_ Hj]]; [by split; [|left]|]. split; [done|]. by apply A5 in Hj as [_ ?].
  - intros e. specialize (A1 e). unfold places in *. simpl. rewrite (msum_insert _ i CEnter) by done. simpl.
    rewrite <- (msum_lsum (eqz e) (table s)). unfold table at 1; simpl. rewrite msum_empty. lia.
  - by destruct (A5 _ _ Hi).
  - destruct (A5 _ _ Hi) as [Hd _]. intros j c. rewrite lookup_insert_Some. intros [[_ <-]|[_ Hj]]; (split; [done|by right]).
  - intros e'. specialize (A1 e'). unfold places, table in *. simpl. rewrite (msum_insert _ i (CClosing (e :: es))) by done. simpl in *. lia.
  - destruct (A5 _ _ Hi) as [Hd [?|Hn]]; [done|]. intros j c. rewrite lookup_insert_Some. intros [[_ <-]|[_ Hj]]; [auto|by apply A5 in Hj].
  - intros e'. specialize (A1 e'). unfold places, table in *. simpl. rewrite (msum_insert _ i (CClosing [])) by done. simpl in *. lia.
  - destruct (A5 _ _ Hi) as [Hd [?|Hn]]; [done|]. intros j c. rewrite lookup_insert_Some. intros [[_ <-]|[_ Hj]]; [auto|by apply A5 in Hj].
Qed.

(** *** What is known of results *)

Lemma fine_grows s s' svc x : grows s s' → fine s svc x → fine s' svc x.
Proof.
  intros G. destruct x; simpl; try done; try by apply good_grows.
  intros [snapshot Hm]. exists snapshot. by eapply lookup_weaken; [|apply G].
Qed.

Lemma known_frame s s' :
  known s → grows s s' →
  (∀ e svc snapshot, made s' !! e = Some (svc, snapshot) → made s !! e = Some (svc, snapshot) ∨ from_listing svc snapshot) →
  (∀ svc e, table s' !! svc = Some e → table s !! svc = Some e ∨ ∃ snapshot, made s' !! e = Some (svc, snapshot)) →
  (∀ f svc x, flights s' !! f = Some (svc, x) → flights s !! f = Some (svc, x) ∨ fine s' svc x) →
  (∀ i svc r, callers s' !! i = Some (BReturned svc r) → callers s !! i = Some (BReturned svc r) ∨ good s' svc r) →
  known s'.
Proof.
  intros [K1 K2 K3 K4] G H1 H2 H3 H4. split.
  - intros e svc snapshot Hm. destruct (H1 _ _ _ Hm); eauto.
  - intros svc e Ht. destruct (H2 _ _ Ht) as [Ht'|?]; [|done]. apply K2 in Ht' as [snapshot Hm]. exists snapshot.
    by eapply lookup_weaken; [|apply G].
  - intros f svc x Hf. destruct (H3 _ _ _ Hf) as [?|?]; [|done]. eapply fine_grows; eauto.
  - intros i svc r Hi. destruct (H4 _ _ _ Hi) as [?|?]; [|done]. eapply good_grows; eauto.
Qed.

Lemma cached_good s svc e : known s → cachedBackend svc (be s) = Ok (Some e) → good s svc (Ok e).
Proof. intros Hk Hc. apply cachedBackend_ok in Hc as [Ht _]. split; [by eapply k_table|by left]. Qed.

Lemma known_get s i s' : known s → get_step s i s' → known s'.
Proof.
  intros Hk Hs.
  assert (Hcall : ∀ k, (∀ svc r, k = BReturned svc r → good s svc r) → known (set_caller i k s)).
  { intros k Hgood. apply (known_frame s); try done; [by apply grows_same| |intros; by left..|]; [intros; by left|].
    intros j svc r. simpl. rewrite lookup_insert_Some. intros [[_ ?]|[_ ?]]; [|by left]. right. by apply Hgood. }
  destruct Hs as [svc Hi Hv|svc Hi Hv|svc Hi|svc f Hi Hf|svc f Hi Hc Hf|svc f err Hi|svc f Hi Hd|svc f r Hi Hf].
  all: try (apply Hcall; intros svc' r' [= <- <-]; done).
  - apply Hcall. intros svc' r'. destruct (cachedBackend svc (be s)) as [[e|]|] eqn:Ec; intros [= <- <-]; [|done].
    by apply cached_good.
  - apply (known_frame s); try done; [by apply grows_same|intros; by left|intros; by left| |].
    + intros f' svc' x. simpl. rewrite lookup_insert_Some. intros [[_ [= <- <-]]|[_ ?]]; [by right|by left].
    + intros j svc' r. simpl. rewrite lookup_insert_Some. intros [[_ ?]|[_ ?]]; [done|by left].
  - apply Hcall. intros svc' r' [= <- <-]. destruct (ctxDone (be s)); [done|]. by apply (k_flight s Hk) in Hf.
Qed.

(** A step of one flight. *)
Lemma known_flight s s' f svc x :
  known s → grows s s' → flights s' = <[f := (svc, x)]> (flights s) → callers s' = callers s → fine s' svc x →
  (∀ e svc snapshot, made s' !! e = Some (svc, snapshot) → made s !! e = Some (svc, snapshot) ∨ from_listing svc snapshot) →
  (∀ svc e, table s' !! svc = Some e → table s !! svc = Some e ∨ ∃ snapshot, made s' !! e = Some (svc, snapshot)) →
  known s'.
Proof.
  intros Hk G Ef Ec Hx H1 H2. apply (known_frame s); try done.
  - intros f' svc' y. rewrite Ef, lookup_insert_Some. intros [[_ [= <- <-]]|[_ ?]]; [by right|by left].
  - rewrite Ec. intros. by left.
Qed.

Lemma connectBackend_ok svc instances conn e snapshot :
  connectBackend svc instances conn = Ok (e, snapshot) → from_listing svc snapshot.
Proof.
  unfold connectBackend. destruct instances as [l|]; [|done].
  destruct (resolveBackendInstances Parse svc l tls) as [[sn as_]|] eqn:Er; [|done].
  destruct (available sn) eqn:Ea; [|done]. simpl. destruct conn; [|done]. intros [= _ <-]. split; [done|]. by exists l, as_.
Qed.

Lemma known_load s f s' : account s → known s → load_step s f s' → known s'.
Proof.
  intros Ha Hk Hs.
  destruct Hs as [svc Hf|svc li cn err Hf Hc|svc li cn e snapshot Hf Hc Hm|svc e b r Hf Hst|svc e Hf|svc r Hf].
  - eapply (known_flight s _ f svc); try done; [by apply grows_same| |intros; by left|intros; by left].
    destruct (cachedBackend svc (be s)) as [[e|]|] eqn:Ec; try done. eapply (good_grows s); [by apply grows_same|]. by apply cached_good.
  - eapply (known_flight s _ f svc); try done; [by apply grows_same|intros; by left..].
  - assert (G : grows s (set_flight f svc (FConn e) (s <| made := <[e := (svc, snapshot)]> (made s) |>))).
    { split; unfold table; simpl; auto. by apply insert_subseteq. }
    eapply (known_flight s _ f svc); try done; simpl; [exists snapshot; by rewrite lookup_insert_eq| |intros; by left].
    intros e' svc' sn'. rewrite lookup_insert_Some. intros [[<- [= <- <-]]|[_ ?]]; [right; by eapply connectBackend_ok|by left].
  - pose proof (k_flight s Hk _ _ _ Hf) as [snapshot Hm]. simpl in Hm.
    pose proof (a_filling s Ha svc f (FConn e) Hf eq_refl) as Hnone. unfold store in Hst.
    destruct (byService (be s)) as [m|] eqn:Eb; simplify_eq.
    + assert (Et : table s = m) by (unfold table; by rewrite Eb). rewrite Et in Hnone.
      eapply (known_flight s _ f svc); try done; [split|..|intros; by left|]; unfold table; simpl; rewrite ?Eb; simpl; try done.
      * intros svc' e' Ht. left. rewrite lookup_insert_ne; [done|]. by intros ->; simplify_eq.
      * split; [by exists snapshot|]. left. unfold table; simpl. by rewrite lookup_insert_eq.
      * intros svc' e'. rewrite lookup_insert_Some. intros [[<- <-]|[_ ?]]; [right; by exists snapshot|by left].
    + eapply (known_flight s _ f svc); try done; [by apply grows_same|intros; by left|intros; by left].
  - eapply (known_flight s _ f svc); try done; [by apply grows_same|intros; by left..].
  - eapply (known_flight s _ f svc); try done; [by apply grows_same| |intros; by left..].
    eapply (good_grows s); [by apply grows_same|]. by apply (k_flight s Hk) in Hf.
Qed.

Lemma known_close s i s' : known s → close_step s i s' → known s'.
Proof.
  intros Hk Hs. destruct Hs as [Hi|Hi|e es Hi|Hi]; apply (known_frame s); try done; try (intros; by left).
  all: try by apply grows_same.
  - by split; auto.
  - split; simpl; auto.
Qed.

Lemma reach_account s : reach s → account s ∧ known s.
Proof.
  revert s. apply (invariant_reachable init_sys step (λ s, account s ∧ known s)).
  - intros s0 ->. by split; split.
  - intros s0 s1 _ [Ha Hk] [i s' H|f s' H|i s' H].
    + split; [by eapply account_get|by eapply known_get].
    + split; [by eapply account_load|by eapply known_load].
    + split; [by eapply account_close|by eapply known_close].
Qed.

Lemma in_lsum e l : e ∈ l ↔ 0 < lsum (eqz e) l.
Proof.
  split.
  - induction l as [|x l IH]; [by intros ?%elem_of_nil|]. simpl. intros [->|H]%elem_of_cons; [|apply IH in H].
    + rewrite eqz_same. pose proof (lsum_nonneg (eqz x) l (eqz_nonneg x)). lia.
    + pose proof (eqz_nonneg e x). lia.
  - induction l as [|x l IH]; simpl; [lia|]. intros H. destruct (decide (x = e)) as [->|Hne]; [left|].
    right. apply IH. rewrite eqz_ne in H by done. lia.
Qed.

(** A connection for the service that is cached or about to be. *)
Definition live (s : sys) (svc : string) (e : nat) : Prop :=
  table s !! svc = Some e ∨ ∃ f, flights s !! f = Some (svc, FConn e).

(** Every connection to a node service is in one place: cached for one
    service, with the load that made it, in the hands of [close], or closed,
    once.  And a service has at most one connection at a time, so that none is
    lost by being overwritten. *)
Theorem backend_conns_once s :
  reach s →
  (∀ e, is_Some (made s !! e) → places s e = 1) ∧
  (∀ svc e e', live s svc e → live s svc e' → e = e').
Proof.
  intros [Ha _]%reach_account. split.
  - intros e He. rewrite (a_places s Ha), bool_decide_true by done. done.
  - intros svc e e' [H1|[f H1]] [H2|[f' H2]].
    + congruence.
    + pose proof (a_filling s Ha _ _ _ H2 eq_refl). congruence.
    + pose proof (a_filling s Ha _ _ _ H1 eq_refl). congruence.
    + pose proof (a_current s Ha _ _ _ H1 eq_refl). pose proof (a_current s Ha _ _ _ H2 eq_refl). congruence.
Qed.

(** A request is given a connection of its own service: one made from a
    listing that was accepted and had an instance, whose state starts with
    that listing; it is open unless the gateway's backends are being closed. *)
Theorem backend_result s i svc e :
  reach s → callers s !! i = Some (BReturned svc (Ok e)) →
  (∃ snapshot, made s !! e = Some (svc, snapshot) ∧ from_listing svc snapshot) ∧
  (e ∉ closed s ∨ ctxDone (be s) = true).
Proof.
  intros [Ha Hk]%reach_account Hi. apply (k_caller s Hk) in Hi as [[snapshot Hm] Ht]. split.
  - exists snapshot. split; [done|]. by eapply k_made.
  - destruct Ht as [Ht|Ht]; [left|right; by apply (a_nil s Ha)]. rewrite in_lsum. pose proof (a_places s Ha e) as Hp.
    rewrite Hm, bool_decide_true in Hp by done. unfold places in Hp. pose proof (in_table_1 _ _ _ Ht).
    destruct (backend_parts s e) as (? & ? & ? & ?). unfold one in Hp. lia.
Qed.

(** A flight that holds a connection after the cache is gone closes it. *)
Lemma flight_closes s f svc x e :
  flights s !! f = Some (svc, x) → (x = FConn e ∨ x = FClose e) → byService (be s) = None →
  ∃ s', rtc step s s' ∧ e ∈ closed s'.
Proof.
  intros Hf Hx Hb.
  assert (Hclose : ∀ s, flights s !! f = Some (svc, FClose e) → ∃ s', rtc step s s' ∧ e ∈ closed s').
  { intros s1 H1. eexists. split; [apply rtc_once, (s_load _ f), (l_close _ _ svc e); done|]. left. }
  destruct Hx as [-> | ->]; [|by apply Hclose].
  destruct (Hclose (set_flight f svc (FClose e) (s <| be := be s |>))) as (s' & Hs & He); [apply lookup_insert_eq|].
  exists s'. split; [|done]. eapply rtc_l; [|exact Hs]. apply (s_load _ f).
  apply (l_store _ _ svc e (be s) (Err (ESentinel ErrBackendsClosed))); [done|]. unfold store. by rewrite Hb.
Qed.

(** Closing leaves nothing open.  Once [close] returned, and no other call
    of it is at work, every connection ever made is closed, exactly once, or
    is with a load that closes it in its next steps. *)
Theorem backends_drained s i e :
  reach s → closers s !! i = Some CReturned → (∀ j c, closers s !! j = Some c → c = CReturned) → is_Some (made s !! e) →
  lsum (eqz e) (closed s) = 1 ∨ ∃ s', rtc step s s' ∧ e ∈ closed s'.
Proof.
  intros [Ha Hk]%reach_account Hi Hall He. destruct (a_closer s Ha _ _ Hi) as [_ [?|Hb]]; [done|].
  pose proof (a_places s Ha e) as Hp. rewrite bool_decide_true in Hp by done. unfold places in Hp.
  assert (Et : table s = ∅) by (unfold table; by rewrite Hb). rewrite Et, msum_empty in Hp.
  assert (Ec : msum (closing e) (closers s) = 0).
  { pose proof (msum_nonneg (closing e) (closers s) (in_close_nonneg e)).
    destruct (decide (0 < msum (closing e) (closers s))) as [Hc|]; [|lia].
    apply msum_pos_exists in Hc as (j & c & Hj & Hc). apply Hall in Hj as ->. done. }
  destruct (decide (0 < msum (flies e) (flights s))) as [Hfl|Hfl].
  - right. apply msum_pos_exists in Hfl as (f & [svc x] & Hf & Hx). unfold flies in Hx. simpl in Hx.
    assert (x = FConn e ∨ x = FClose e).
    { destruct x as [| |x|x| |]; try done; unfold eqz, one in Hx; case_bool_decide; subst; auto; done. }
    by eapply flight_closes.
  - left. pose proof (msum_nonneg (flies e) (flights s) (flight_nonneg e)). unfold one in Hp. lia.
Qed.
End Backends.

Module BackendsExample.
Import ResolverExample.
Abbreviation Step := (step Parse false).
Abbreviation Reach := (reach Parse false).

Ltac take H tac :=
  let H' := fresh in
  lazymatch type of H with
  | Reach ?s =>
      eassert (H' : Step s _) by (tac; first [reflexivity|discriminate|vm_compute; reflexivity]);
      apply (reach_step _ _ _ _ H) in H'; cbn in H'; clear H; rename H' into H;
      change (reachable init_sys Step) with Reach in H
  end.

Definition s0 : sys := mkSys newBackends ∅ ∅ ∅ ∅ ∅ [].

(** A request found nothing cached and waits for the load, which made
    connection 7 and cached it. *)
Definition returned : sys :=
  mkSys (mkBackends false (Some {["game" := 7%nat]})) {[1%nat := BReturned "game" (Ok 7%nat)]}
    {[0%nat := ("game", FDone (Ok 7%nat))]} ∅ ∅ {[7%nat := ("game", snap)]} [].

Lemma reach_backend_returned : Reach returned.
Proof.
  assert (H : Reach s0) by (by apply reach_init).
  take H ltac:(eapply s_get, (g_call _ 1 "game")).
  take H ltac:(eapply s_get, (g_cached _ 1)).
  take H ltac:(eapply s_get, (g_load _ 1 _ 0)).
  take H ltac:(eapply s_load, (l_cached _ _ _ 0)).
  take H ltac:(eapply s_load, (l_conn _ _ _ 0 _ (Ok listing) (Ok 7%nat))).
  take H ltac:(eapply s_load, (l_store _ _ _ 0)).
  take H ltac:(eapply s_load, (l_forget _ _ _ 0)).
  take H ltac:(eapply s_get, (g_result _ 1 _ 0)).
  exact H.
Qed.

Lemma backend_conns_once_witness :
  (∀ e, is_Some (made returned !! e) → places returned e = 1) ∧
  (∀ svc e e', live returned svc e → live returned svc e' → e = e').
Proof. apply (backend_conns_once Parse false returned reach_backend_returned). Defined.

Lemma backend_result_witness :
  (∃ snapshot, made returned !! 7%nat = Some ("game"%string, snapshot) ∧ from_listing Parse false "game" snapshot) ∧
  (7%nat ∉ closed returned ∨ ctxDone (be returned) = true).
Proof. apply (backend_result Parse false returned 1 "game" 7 reach_backend_returned). reflexivity. Defined.

(** The backends are closed while a second load is still dialling: its
    connection is closed when it lands. *)
Definition stopped : sys :=
  mkSys (mkBackends true None) {[1%nat := BWait "game" 0]}
    {[0%nat := ("game", FConn 7)]} {["game" := 0%nat]} {[4%nat := CReturned]} {[7%nat := ("game", snap)]} [].

Lemma reach_backend_stopped : Reach stopped.
Proof.
  assert (H : Reach s0) by (by apply reach_init).
  take H ltac:(eapply s_get, (g_call _ 1 "game")).
  take H ltac:(eapply s_get, (g_cached _ 1)).
  take H ltac:(eapply s_get, (g_load _ 1 _ 0)).
  take H ltac:(eapply s_load, (l_cached _ _ _ 0)).
  take H ltac:(eapply s_close, (x_cancel _ 4)).
  take H ltac:(eapply s_load, (l_conn _ _ _ 0 _ (Ok listing) (Ok 7%nat))).
  take H ltac:(eapply s_close, (x_swap _ 4)).
  take H ltac:(eapply s_close, (x_return _ 4)).
  exact H.
Qed.

Lemma backends_drained_witness : lsum (eqz 7) (closed stopped) = 1 ∨ ∃ s', rtc Step stopped s' ∧ 7%nat ∈ closed s'.
Proof.
  apply (backends_drained Parse false stopped 4 7 reach_backend_stopped); [reflexivity| |by eexists].
  intros j c Hj. cbn in Hj. apply lookup_singleton_Some in Hj as [_ <-]. reflexivity.
Defined.
End BackendsExample.
