(* ===== verification/Options.v ===== *)
(** * Options of gateways, nodes and senders

    [gateway/options.go], [node/options.go] and [push/options.go]: an option
    is a function on the settings that may refuse, and the resolved settings
    are those of the defaults after every option.  A service library handle
    (authenticator, store, listener, transport, ...) is a number; an interface
    value may be nil or hold a nil pointer.  Proved: settings that resolve are
    within the bounds the rest of the code relies on. *)

From S2P Require Import Prelude Errors Locate Network Endpoint.

(** An interface value: nil, a typed nil, or a value. *)
Definition iface : Type := option (option nat).

Definition isNil (v : iface) : bool := match v with Some (Some _) => false | _ => true end.

(** What is handed on to the gRPC server. *)
Inductive serverOption :=
| SEndpoint (u : URL)
| STLS (c : tlsConfig)
| STimeout (t : Z)
| SNetwork (v : string)
| SAddress (v : string)
| SListener                                 (* the listener owner *)
| SRecovery.                                (* the recovery middleware *)

Section Apply.
Context {O : Type}.
Definition Option_ : Type := O → result O.

Fixpoint apply (opts : list Option_) (o : O) : result O :=
  match opts with
  | [] => Ok o
  | opt :: opts => match opt o with Ok o => apply opts o | Err err => Err err end
  end.

(** A property of the settings that holds of the defaults and that every
    option keeps. *)
Lemma apply_keeps (P : O → Prop) opts o o' :
  (∀ opt a b, opt ∈ opts → P a → opt a = Ok b → P b) → P o → apply opts o = Ok o' → P o'.
Proof.
  revert o. induction opts as [|opt opts IH]; intros o Hk Ho H; simpl in H; [by simplify_eq|].
  destruct (opt o) as [a|] eqn:E; [|done]. eapply (IH a); [|by eapply Hk; [left| |]|done].
  intros. eapply Hk; [by right|done..].
Qed.
End Apply.
Arguments Option_ O : clear implicits.

(** [if bad { return errors.New(msg) }; set] *)
Definition unless {O} (bad : bool) (msg : string) (o : O) : result O := if bad then Err (EText msg) else Ok o.

Definition is_empty (s : string) : bool := negb (nonempty s).

Lemma unless_ok {O} bad msg (a b : O) : unless bad msg a = Ok b → bad = false ∧ b = a.
Proof. unfold unless. destruct bad; [done|]. by intros [= ->]. Qed.

Lemma nonempty_ne v : is_empty v = false → v ≠ EmptyString.
Proof. by intros H ->. Qed.

(** ** gateway/options.go *)

Module GatewayOptions.
Create HintDb gateway_options.
Record options := mkOptions {
  auth : option nat;
  locator : iface;
  discovery : option nat;
  clientTLS : option tlsConfig;
  rpcTimeout : Z;
  connectTimeout : Z;
  leaseTimeout : Z;
  cleanupTimeout : Z;
  shutdownTimeout : Z;
  authTimeout : Z;
  leaseTTL : Z;
  network : string;
  address : string;
  listener : option nat;
  advertiseHost : string;
  endpoint : option URL;
  serverTLS : bool;
  broadcastWorkers : Z;
  broadcastQueueCapacity : Z;
  transports : list nat;
  grpcOptions : list serverOption;
}.
#[export] Instance eta_options : Eta options := λ o,
  mkOptions (auth o) (locator o) (discovery o) (clientTLS o) (rpcTimeout o) (connectTimeout o) (leaseTimeout o)
    (cleanupTimeout o) (shutdownTimeout o) (authTimeout o) (leaseTTL o) (network o) (address o) (listener o)
    (advertiseHost o) (endpoint o) (serverTLS o) (broadcastWorkers o) (broadcastQueueCapacity o) (transports o)
    (grpcOptions o).

Definition defaults (gomaxprocs : Z) : options :=
  mkOptions None None None None (3 * Second) (3 * Second) (3 * Second) (3 * Second) (10 * Second) (15 * Second)
    (60 * Second) "tcp" EmptyString None EmptyString None false (Z.min 8 (Z.max 1 gomaxprocs)) 256 [] [].

Implicit Types o : options.
Definition Network (v : string) o := unless (is_empty v) "gateway: gRPC network is required" (o <| network := v |>).
Definition Address (v : string) o := unless (is_empty v) "gateway: gRPC address is required" (o <| address := v |>).
Definition AdvertiseHost (v : string) o :=
  unless (is_empty v) "gateway: advertise host is required" (o <| advertiseHost := v |>).
Definition Endpoint (v : option URL) o :=
  match v with None => Err (EText "gateway: gRPC endpoint is required") | Some _ => Ok (o <| endpoint := v |>) end.
Definition Listener (v : option nat) o :=
  match v with None => Err (EText "gateway: gRPC listener is required") | Some _ => Ok (o <| listener := v |>) end.
Definition ServerTLS (config : option tlsConfig) o :=
  match config with
  | None => Err (EText "gateway: TLS config is required")
  | Some c =>
      match ValidateServer config with
      | Some err => Err (EWrap "gateway: %w" [err])
      | None => Ok (o <| grpcOptions := grpcOptions o ++ [STLS c] |> <| serverTLS := true |>)
      end
  end.
Definition Locator (v : iface) o :=
  match v with None => Err (EText "gateway: locator is required") | Some _ => Ok (o <| locator := v |>) end.
Definition Auth (v : option nat) o : result options := Ok (o <| auth := v |>).
Definition Discovery (v : option nat) o : result options := Ok (o <| discovery := v |>).
Definition Transport (servers : list (option nat)) o : result options :=
  match mapM id servers with
  | None => Err (EText "gateway: client transport is required")
  | Some l => Ok (o <| transports := transports o ++ l |>)
  end.
Definition BroadcastWorkers (v : Z) o :=
  unless (v <=? 0) "gateway: broadcast workers must be positive" (o <| broadcastWorkers := v |>).
Definition BroadcastQueueCapacity (v : Z) o :=
  unless (v <=? 0) "gateway: broadcast queue capacity must be positive" (o <| broadcastQueueCapacity := v |>).
Definition ClientTLS (config : option tlsConfig) o :=
  match config with
  | None => Err (EText "gateway: gRPC TLS config is required")
  | Some _ =>
      match ValidateClient config with
      | Some err => Err (EWrap "gateway: gRPC %w" [err])
      | None => Ok (o <| clientTLS := config |>)
      end
  end.
Definition RPCTimeout (v : Z) o := unless (v <=? 0) "gateway: RPC timeout must be positive" (o <| rpcTimeout := v |>).
Definition ConnectTimeout (v : Z) o :=
  unless (v <=? 0) "gateway: connect timeout must be positive" (o <| connectTimeout := v |>).
Definition LeaseTimeout (v : Z) o := unless (v <=? 0) "gateway: lease timeout must be positive" (o <| leaseTimeout := v |>).
Definition CleanupTimeout (v : Z) o :=
  unless (v <=? 0) "gateway: cleanup timeout must be positive" (o <| cleanupTimeout := v |>).
Definition ShutdownTimeout (v : Z) o :=
  unless (v <=? 0) "gateway: shutdown timeout must be positive" (o <| shutdownTimeout := v |>).
Definition AuthTimeout (v : Z) o :=
  unless (v <=? 0) "gateway: authentication timeout must be positive" (o <| authTimeout := v |>).
Definition LeaseTTL (v : Z) o :=
  unless (v <? Millisecond) "gateway: lease TTL must be at least one millisecond" (o <| leaseTTL := v |>).

#[local] Hint Unfold Network Address AdvertiseHost Endpoint Listener ServerTLS Locator Auth Discovery Transport
  BroadcastWorkers BroadcastQueueCapacity ClientTLS RPCTimeout ConnectTimeout LeaseTimeout CleanupTimeout
  ShutdownTimeout AuthTimeout LeaseTTL : gateway_options.

(** The options a caller can write. *)
Inductive public : Option_ options → Prop :=
| p_Network v : public (Network v)
| p_Address v : public (Address v)
| p_AdvertiseHost v : public (AdvertiseHost v)
| p_Endpoint v : public (Endpoint v)
| p_Listener v : public (Listener v)
| p_ServerTLS v : public (ServerTLS v)
| p_Locator v : public (Locator v)
| p_Auth v : public (Auth v)
| p_Discovery v : public (Discovery v)
| p_Transport v : public (Transport v)
| p_BroadcastWorkers v : public (BroadcastWorkers v)
| p_BroadcastQueueCapacity v : public (BroadcastQueueCapacity v)
| p_ClientTLS v : public (ClientTLS v)
| p_RPCTimeout v : public (RPCTimeout v)
| p_ConnectTimeout v : public (ConnectTimeout v)
| p_LeaseTimeout v : public (LeaseTimeout v)
| p_CleanupTimeout v : public (CleanupTimeout v)
| p_ShutdownTimeout v : public (ShutdownTimeout v)
| p_AuthTimeout v : public (AuthTimeout v)
| p_LeaseTTL v : public (LeaseTTL v).

Definition resolveEndpoint (o : options) : result options :=
  match Resolve (endpoint o) (address o) (advertiseHost o) (serverTLS o) with
  | Err err => Err (EWrap "gateway: %w" [err])
  | Ok None => Ok o
  | Ok (Some u) => Ok (o <| grpcOptions := grpcOptions o ++ [SEndpoint u] |>)
  end.

Definition resolveOptions (gomaxprocs : Z) (opts : list (Option_ options)) : result options :=
  match apply opts (defaults gomaxprocs) with
  | Err err => Err err
  | Ok o =>
      match resolveEndpoint o with
      | Err err => Err err
      | Ok o =>
          let o := if is_empty (address o) then o <| address := ":0" |> else o in
          match auth o, locator o, discovery o with
          | None, _, _ => Err (EText "gateway: authenticator is required")
          | _, None, _ => Err (EText "gateway: locator is required")
          | _, _, None => Err (EText "gateway: discovery is required")
          | _, _, _ => Ok o
          end
      end
  end.

(** What the options keep: budgets positive, a usable lease and broadcaster,
    TLS that verifies, and TLS on the server exactly when it is configured. *)
Record bounded (o : options) : Prop := mkBounded {
  bd_times : 0 < rpcTimeout o ∧ 0 < connectTimeout o ∧ 0 < leaseTimeout o ∧ 0 < cleanupTimeout o ∧
             0 < shutdownTimeout o ∧ 0 < authTimeout o;
  bd_lease : Millisecond ≤ leaseTTL o;
  bd_broadcast : 0 < broadcastWorkers o ∧ 0 < broadcastQueueCapacity o;
  bd_network : network o ≠ EmptyString;
  bd_client : ValidateClient (clientTLS o) = None;
  bd_server : ∀ c, STLS c ∈ grpcOptions o → ValidateServer (Some c) = None;
  bd_secure : serverTLS o = true ↔ ∃ c, STLS c ∈ grpcOptions o;
}.

Lemma defaults_bounded gomaxprocs : bounded (defaults gomaxprocs).
Proof.
  split; simpl; try done; try (unfold Second, Millisecond; lia).
  - intros c ?%elem_of_nil. done.
  - split; [done|]. by intros [c ?%elem_of_nil].
Qed.

Lemma public_bounded opt a b : public opt → bounded a → opt a = Ok b → bounded b.
Proof.
  intros Hp [B1 B2 B3 B4 B5 B6 B7] H. destruct Hp; autounfold with gateway_options in H.
  all: try (apply unless_ok in H as [Hb ->]; split; simpl; try done; to_prop; try lia; by apply nonempty_ne).
  all: try (destruct v; [|done]; simplify_eq; by split).
  all: try (simplify_eq; by split).
  - destruct v as [c|]; [|done]. destruct (ValidateServer (Some c)) eqn:Ev; [done|]. simplify_eq.
    split; simpl; try done.
    + intros c' [?|Hc]%elem_of_app; [by apply B6|]. apply list_elem_of_singleton in Hc. by simplify_eq.
    + split; [|done]. intros _. exists c. apply elem_of_app. right. by left.
  - destruct (mapM id v); [|done]. simplify_eq. by split.
  - destruct v as [c|]; [|done]. destruct (ValidateClient (Some c)) eqn:Ev; [done|]. simplify_eq. by split.
Qed.

(** No option publishes an endpoint: only the resolution does. *)
Lemma public_unpublished opt a b u :
  public opt → SEndpoint u ∉ grpcOptions a → opt a = Ok b → SEndpoint u ∉ grpcOptions b.
Proof.
  intros Hp Ha H. destruct Hp; autounfold with gateway_options in H; unfold unless in H; repeat case_match; simplify_eq; try done.
  simpl. intros [?|Hc]%elem_of_app; [done|]. by apply list_elem_of_singleton in Hc.
Qed.

Lemma resolveEndpoint_ok o o' :
  resolveEndpoint o = Ok o' → bounded o → (∀ u, SEndpoint u ∉ grpcOptions o) →
  bounded o' ∧ ∀ u, SEndpoint u ∈ grpcOptions o' → valid_endpoint (serverTLS o') u.
Proof.
  unfold resolveEndpoint. destruct (Resolve _ _ _ _) as [[u|]|] eqn:Er; intros H [C1 C2 C3 C4 C5 C6 C7] Hn; simplify_eq.
  - apply Resolve_ok in Er. split; [split; simpl; try done|].
    + intros c [?|Hc]%elem_of_app; [by apply C6|]. by apply list_elem_of_singleton in Hc.
    + rewrite C7. split; intros [c Hc]; exists c; [by apply elem_of_app; left|].
      apply elem_of_app in Hc as [?|Hc]; [done|]. by apply list_elem_of_singleton in Hc.
    + simpl. intros v [Hv|Hv]%elem_of_app; [by apply Hn in Hv|]. apply list_elem_of_singleton in Hv. by simplify_eq.
  - split; [by split|]. intros u Hu. by apply Hn in Hu.
Qed.

(** Settings that resolve are usable, whatever options the caller wrote:
    every budget is positive, the lease lasts at least a millisecond, the
    broadcaster has workers and room, every TLS configuration verifies its
    peer, the endpoint the gateway publishes is valid for the transport its
    server speaks, there is an address, and the services the gateway calls are
    there. *)
Theorem gateway_options_bounded gomaxprocs opts o :
  Forall public opts → resolveOptions gomaxprocs opts = Ok o →
  bounded o ∧ (∀ u, SEndpoint u ∈ grpcOptions o → valid_endpoint (serverTLS o) u) ∧
  address o ≠ EmptyString ∧ auth o ≠ None ∧ locator o ≠ None ∧ discovery o ≠ None.
Proof.
  intros Hp H. rewrite Forall_forall in Hp. unfold resolveOptions in H.
  destruct (apply opts (defaults gomaxprocs)) as [o1|] eqn:E1; [|done].
  destruct (apply_keeps (λ o, bounded o ∧ ∀ u, SEndpoint u ∉ grpcOptions o) opts (defaults gomaxprocs) o1) as [B1 N1]; [..|done|].
  { intros opt a b Hin [Ha Hn] Hb. split; [by eapply public_bounded; [apply Hp| |]|].
    intros u. by eapply public_unpublished; [apply Hp| |]. }
  { split; [apply defaults_bounded|]. by intros u ?%elem_of_nil. }
  destruct (resolveEndpoint o1) as [o2|] eqn:E2; [|done].
  apply resolveEndpoint_ok in E2 as [B2 N2]; [|done..].
  set (o3 := if is_empty (address o2) then o2 <| address := ":0" |> else o2) in *.
  assert (B3 : bounded o3 ∧ (∀ u, SEndpoint u ∈ grpcOptions o3 → valid_endpoint (serverTLS o3) u) ∧ address o3 ≠ EmptyString).
  { unfold o3. destruct (is_empty (address o2)) eqn:Ea; [|split_and!; try done; by apply nonempty_ne].
    destruct B2 as []. split_and!; [by split|done..]. }
  clearbody o3. destruct B3 as (B3 & N3 & Ha).
  destruct (auth o3) eqn:F1; [|done]. destruct (locator o3) eqn:F2; [|done]. destruct (discovery o3) eqn:F3; [|done].
  simplify_eq. rewrite F1, F2, F3. done.
Qed.
End GatewayOptions.

(** ** node/options.go *)

Module NodeOptions.
Create HintDb node_options.

Record options := mkOptions {
  grpcOptions : list serverOption;
  clientTLS : option tlsConfig;
  pushTimeout : Z;
  cleanupTimeout : Z;
  shutdownTimeout : Z;
  network : string;
  address : string;
  listener : option nat;
  advertiseHost : string;
  endpoint : option URL;
  serverTLS : bool;
  middlewares : list nat;
  clientMiddlewares : list nat;
  registrar : option nat;
  stateful : iface;
  gateDirectory : iface;
  drain : option nat;
}.
#[export] Instance eta_options : Eta options := λ o,
  mkOptions (grpcOptions o) (clientTLS o) (pushTimeout o) (cleanupTimeout o) (shutdownTimeout o) (network o)
    (address o) (listener o) (advertiseHost o) (endpoint o) (serverTLS o) (middlewares o) (clientMiddlewares o)
    (registrar o) (stateful o) (gateDirectory o) (drain o).

Definition defaults : options :=
  mkOptions [] None (3 * Second) (3 * Second) (10 * Second) "tcp" EmptyString None EmptyString None false [] [] None
    None None None.

Implicit Types o : options.
Definition Registration (v : option nat) o :=
  match v with None => Err (EText "node: registration is required") | Some _ => Ok (o <| registrar := v |>) end.
Definition Network (v : string) o := unless (is_empty v) "node: network is required" (o <| network := v |>).
Definition Address (v : string) o := unless (is_empty v) "node: address is required" (o <| address := v |>).
Definition AdvertiseHost (v : string) o :=
  unless (is_empty v) "node: advertise host is required" (o <| advertiseHost := v |>).
Definition Endpoint (v : option URL) o :=
  match v with None => Err (EText "node: endpoint is required") | Some _ => Ok (o <| endpoint := v |>) end.
Definition HandlerTimeout (v : Z) o :=
  unless (v <? 0) "node: handler timeout cannot be negative" (o <| grpcOptions := grpcOptions o ++ [STimeout v] |>).
Definition Listener (v : option nat) o :=
  match v with None => Err (EText "node: listener is required") | Some _ => Ok (o <| listener := v |>) end.
Definition ServerTLS (config : option tlsConfig) o :=
  match config with
  | None => Err (EText "node: TLS config is required")
  | Some c =>
      match ValidateServer config with
      | Some err => Err (EWrap "node: %w" [err])
      | None => Ok (o <| grpcOptions := grpcOptions o ++ [STLS c] |> <| serverTLS := true |>)
      end
  end.
Definition Middleware (m : list nat) o : result options := Ok (o <| middlewares := middlewares o ++ m |>).
Definition ClientMiddleware (m : list nat) o : result options :=
  Ok (o <| clientMiddlewares := clientMiddlewares o ++ m |>).
Definition Stateful (store : iface) o := unless (isNil store) "node: stateful store is required" (o <| stateful := store |>).
Definition GateDirectory (directory : iface) o :=
  unless (isNil directory) "node: gate directory is required" (o <| gateDirectory := directory |>).
Definition ClientTLS (config : option tlsConfig) o :=
  match config with
  | None => Err (EText "node: gRPC TLS config is required")
  | Some _ =>
      match ValidateClient config with
      | Some err => Err (EWrap "node: gRPC %w" [err])
      | None => Ok (o <| clientTLS := config |>)
      end
  end.
Definition PushTimeout (v : Z) o := unless (v <=? 0) "node: push timeout must be positive" (o <| pushTimeout := v |>).
Definition CleanupTimeout (v : Z) o :=
  unless (v <=? 0) "node: cleanup timeout must be positive" (o <| cleanupTimeout := v |>).
Definition ShutdownTimeout (v : Z) o :=
  unless (v <=? 0) "node: shutdown timeout must be positive" (o <| shutdownTimeout := v |>).
Definition Drain (fn : option nat) o : result options := Ok (o <| drain := fn |>).

#[local] Hint Unfold Registration Network Address AdvertiseHost Endpoint HandlerTimeout Listener ServerTLS Middleware
  ClientMiddleware Stateful GateDirectory ClientTLS PushTimeout CleanupTimeout ShutdownTimeout Drain : node_options.

Inductive public : Option_ options → Prop :=
| p_Registration v : public (Registration v)
| p_Network v : public (Network v)
| p_Address v : public (Address v)
| p_AdvertiseHost v : public (AdvertiseHost v)
| p_Endpoint v : public (Endpoint v)
| p_HandlerTimeout v : public (HandlerTimeout v)
| p_Listener v : public (Listener v)
| p_ServerTLS v : public (ServerTLS v)
| p_Middleware v : public (Middleware v)
| p_ClientMiddleware v : public (ClientMiddleware v)
| p_Stateful v : public (Stateful v)
| p_GateDirectory v : public (GateDirectory v)
| p_ClientTLS v : public (ClientTLS v)
| p_PushTimeout v : public (PushTimeout v)
| p_CleanupTimeout v : public (CleanupTimeout v)
| p_ShutdownTimeout v : public (ShutdownTimeout v)
| p_Drain v : public (Drain v).

Definition resolveOptions (opts : list (Option_ options)) : result options :=
  match apply opts defaults with
  | Err err => Err err
  | Ok o =>
      match Resolve (endpoint o) (address o) (advertiseHost o) (serverTLS o) with
      | Err err => Err (EWrap "node: %w" [err])
      | Ok published =>
          let o := match published with
                   | Some u => o <| grpcOptions := grpcOptions o ++ [SEndpoint u] |>
                   | None => o
                   end in
          match registrar o with
          | None => Err (EText "node: registration is required")
          | Some _ => Ok (if is_empty (address o) then o <| address := ":0" |> else o)
          end
      end
  end.

(** A usable store or directory, or none: never a typed nil. *)
Definition usable (v : iface) : Prop := v = None ∨ isNil v = false.

Record bounded (o : options) : Prop := mkBounded {
  bd_times : 0 < pushTimeout o ∧ 0 < cleanupTimeout o ∧ 0 < shutdownTimeout o;
  bd_network : network o ≠ EmptyString;
  bd_client : ValidateClient (clientTLS o) = None;
  bd_services : usable (stateful o) ∧ usable (gateDirectory o);
  bd_server : ∀ g, g ∈ grpcOptions o →
    match g with
    | SEndpoint u => valid_endpoint (serverTLS o) u
    | STLS c => serverTLS o = true ∧ ValidateServer (Some c) = None
    | STimeout t => 0 ≤ t
    | SNetwork _ | SAddress _ | SListener | SRecovery => False
    end;
}.

Definition unpublished (o : options) : Prop := ∀ u, SEndpoint u ∉ grpcOptions o.

Lemma public_keeps opt a b : public opt → bounded a ∧ unpublished a → opt a = Ok b → bounded b ∧ unpublished b.
Proof.
  intros Hp [[B1 B2 B3 B4 B5] N] H. destruct Hp; autounfold with node_options in H.
  all: try (apply unless_ok in H as [Hb ->]; split;
            [split; simpl; try done; to_prop; try lia; try by apply nonempty_ne|done]).
  all: try (destruct B4; split; first [done|by right]).
  all: try (destruct v; [|done]; simplify_eq; split; [by split|done]).
  all: try (simplify_eq; split; [by split|done]).
  - apply unless_ok in H as [Hb ->]. to_prop. split; [split; simpl; try done|].
    + intros g [Hg|Hg]%elem_of_app; [by apply B5|]. apply list_elem_of_singleton in Hg. by subst.
    + intros u [Hu|Hu]%elem_of_app; [by apply N in Hu|]. by apply list_elem_of_singleton in Hu.
  - destruct v as [c|]; [|done]. destruct (ValidateServer (Some c)) eqn:Ev; [done|]. simplify_eq.
    split; [split; simpl; try done|].
    + intros g [Hg|Hg]%elem_of_app.
      * specialize (B5 _ Hg). destruct g; try done; [by apply N in Hg|]. by destruct B5.
      * apply list_elem_of_singleton in Hg. by subst.
    + intros u [Hu|Hu]%elem_of_app; [by apply N in Hu|]. by apply list_elem_of_singleton in Hu.
  - destruct v as [c|]; [|done]. destruct (ValidateClient (Some c)) eqn:Ev; [done|]. simplify_eq. split; [by split|done].
Qed.

(** The settings of a node that resolve are usable: positive budgets, a
    registrar and an address, TLS configurations that verify their peer, a
    published endpoint valid for the transport the server speaks, and a store
    and a directory that are either absent or not nil inside. *)
Theorem node_options_bounded opts o :
  Forall public opts → resolveOptions opts = Ok o →
  bounded o ∧ address o ≠ EmptyString ∧ registrar o ≠ None.
Proof.
  intros Hp H. rewrite Forall_forall in Hp. unfold resolveOptions in H.
  destruct (apply opts defaults) as [o1|] eqn:E1; [|done].
  destruct (apply_keeps (λ o, bounded o ∧ unpublished o) opts defaults o1) as [B1 N1]; [..|done|].
  { intros opt a b Hin Ha Hb. by eapply public_keeps; [apply Hp| |]. }
  { split; [|by intros u ?%elem_of_nil]. split; simpl; try done.
    - split; by left.
    - by intros g ?%elem_of_nil. }
  destruct (Resolve _ _ _ _) as [published|] eqn:Er; [|done].
  set (o2 := match published with Some u => _ | None => o1 end) in *.
  assert (B2 : bounded o2).
  { destruct B1 as [C1 C2 C3 C4 C5]. unfold o2. destruct published as [u|]; [|by split]. apply Resolve_ok in Er.
    split; simpl; try done. intros g [Hg|Hg]%elem_of_app; [by apply C5|]. apply list_elem_of_singleton in Hg. by subst. }
  clearbody o2. destruct (registrar o2) eqn:Eg; [|done]. simplify_eq.
  destruct (is_empty (address o2)) eqn:Ea; [|rewrite Eg; split_and!; try done; by apply nonempty_ne].
  destruct B2 as []. split_and!; [by split|done|by simpl; rewrite Eg].
Qed.
End NodeOptions.

(** ** push/options.go *)

Module PushOptions.
Definition _defaultTimeout : Z := 3 * Second.

Record options := mkOptions { tlsConfig_ : option tlsConfig; middlewares : list nat; timeout : Z }.
#[export] Instance eta_options : Eta options := λ o, mkOptions (tlsConfig_ o) (middlewares o) (timeout o).

Implicit Types o : options.
Definition ClientTLS (config : option tlsConfig) o :=
  match config with
  | None => Err (EText "push: gRPC TLS config is required")
  | Some _ =>
      match ValidateClient config with
      | Some err => Err (EWrap "push: gRPC %w" [err])
      | None => Ok (o <| tlsConfig_ := config |>)
      end
  end.
Definition ClientMiddleware (m : list (option nat)) o : result options :=
  match mapM id m with
  | None => Err (EText "push: client middleware is required")
  | Some l => Ok (o <| middlewares := middlewares o ++ l |>)
  end.
Definition Timeout (v : Z) o := unless (v <=? 0) "push: timeout must be positive" (o <| timeout := v |>).

(** An option may be nil. *)
Definition resolveOptions (opts : list (option (Option_ options))) : result options :=
  apply ((λ opt, match opt with Some opt => opt | None => λ _, Err (EText "push: option is required") end) <$> opts)
    (mkOptions None [] _defaultTimeout).

Inductive public : Option_ options → Prop :=
| p_ClientTLS v : public (ClientTLS v)
| p_ClientMiddleware v : public (ClientMiddleware v)
| p_Timeout v : public (Timeout v).

(** The settings of a sender that resolve are usable. *)
Lemma push_options_bounded opts o :
  (∀ opt, Some opt ∈ opts → public opt) → resolveOptions opts = Ok o →
  0 < timeout o ∧ ValidateClient (tlsConfig_ o) = None ∧ None ∉ opts.
Proof.
  intros Hp H. assert (Hn : None ∉ opts).
  { intros Hn. unfold resolveOptions in H. revert H. generalize (mkOptions None [] _defaultTimeout).
    induction opts as [|[opt|] opts IH]; intros a H; [by apply elem_of_nil in Hn| |done]. simpl in H.
    apply elem_of_cons in Hn as [|Hn]; [done|]. destruct (opt a) as [b|]; [|done].
    eapply IH; [|done..]. intros. apply Hp. by right. }
  assert (0 < timeout o ∧ ValidateClient (tlsConfig_ o) = None) as [? ?]; [|done].
  revert H. apply (apply_keeps (λ o, 0 < timeout o ∧ ValidateClient (tlsConfig_ o) = None)).
  - intros opt a b Hin [Ha1 Ha2] Hb. apply list_elem_of_fmap in Hin as ([opt'|] & -> & Hin); [|done].
    destruct (Hp _ Hin) as [v|v|v]; unfold ClientTLS, ClientMiddleware, Timeout in Hb.
    + destruct v as [c|]; [|done]. destruct (ValidateClient (Some c)) eqn:Ev; [done|]. by simplify_eq.
    + destruct (mapM id v); [|done]. by simplify_eq.
    + apply unless_ok in Hb as [Hb ->]. to_prop. simpl. split; [lia|done].
  - done.
Qed.
End PushOptions.

Module OptionsExample.
Definition gateway_opts : list (Option_ GatewayOptions.options) :=
  [GatewayOptions.Auth (Some 1%nat); GatewayOptions.Locator (Some (Some 2%nat)); GatewayOptions.Discovery (Some 3%nat);
   GatewayOptions.Address "0.0.0.0:9010"; GatewayOptions.AdvertiseHost "192.0.2.1"; GatewayOptions.LeaseTTL (30 * Second);
   GatewayOptions.ServerTLS (Some (mkTls false 1 false false))].

Definition gateway_resolved : result GatewayOptions.options := Eval vm_compute in GatewayOptions.resolveOptions 4 gateway_opts.

Definition resolved_or {O} (d : O) (r : result O) : O := match r with Ok o => o | Err _ => d end.

Definition gateway_o : GatewayOptions.options := resolved_or (GatewayOptions.defaults 1) gateway_resolved.

Lemma gateway_options_bounded_witness :
  GatewayOptions.bounded gateway_o ∧
  (∀ u, SEndpoint u ∈ GatewayOptions.grpcOptions gateway_o → valid_endpoint (GatewayOptions.serverTLS gateway_o) u) ∧
  GatewayOptions.address gateway_o ≠ EmptyString ∧ GatewayOptions.auth gateway_o ≠ None ∧
  GatewayOptions.locator gateway_o ≠ None ∧ GatewayOptions.discovery gateway_o ≠ None.
Proof.
  apply (GatewayOptions.gateway_options_bounded 4 gateway_opts).
  - repeat constructor.
  - vm_compute. reflexivity.
Defined.

(** The endpoint is really published, and with TLS. *)
Example gateway_published :
  SEndpoint (url_of "grpcs" "192.0.2.1:9010") ∈ GatewayOptions.grpcOptions gateway_o.
Proof. vm_compute. set_solver. Qed.

Definition node_opts : list (Option_ NodeOptions.options) :=
  [NodeOptions.Registration (Some 1%nat); NodeOptions.Stateful (Some (Some 2%nat)); NodeOptions.HandlerTimeout 0;
   NodeOptions.Endpoint (Some (url_of "grpc" "[::1]:9000"))].

Definition node_o : NodeOptions.options :=
  Eval vm_compute in resolved_or NodeOptions.defaults (NodeOptions.resolveOptions node_opts).

Lemma node_options_bounded_witness :
  NodeOptions.bounded node_o ∧ NodeOptions.address node_o ≠ EmptyString ∧ NodeOptions.registrar node_o ≠ None.
Proof.
  apply (NodeOptions.node_options_bounded node_opts).
  - repeat constructor.
  - vm_compute. reflexivity.
Defined.

(** A typed nil store is refused, not kept. *)
Example node_typed_nil :
  NodeOptions.resolveOptions [NodeOptions.Stateful (Some None)] = Err (EText "node: stateful store is required").
Proof. reflexivity. Qed.
End OptionsExample.
