(* ===== verification/GatewayLifecycle.v ===== *)
(** * Lifecycle of a Gateway

    [gateway/server.go] ([NewServer]) and [gateway/lifecycle.go]: starting the
    parts of a gateway, opening admission, and the one shutdown that ends
    them.  Any number of [Start] and [Stop] calls run beside the shutdown
    goroutine, the workers that run the transports and those that drain the
    sessions; every critical section, channel operation and call is a step.
    The transports, the gRPC server, the listener, the store, the broadcaster
    and the session registry only answer; a transport is its index.  Proved:
    admission is open only between a completed start and the shutdown,
    every transport is stopped exactly once and never while it is being
    prepared, every session is drained exactly once, a failure to stop is
    never swallowed, and a shutdown can always complete. *)

From S2P Require Import Prelude Errors Locate Endpoint Network Options.

(** ** gateway/server.go *)

Record identity := mkIdentity { gateID : string; gateEndpoint : string }.

(** The settings of a server; [configured] are the transports that got the
    server as their handler. *)
Record Server := mkServer {
  settings : GatewayOptions.options;
  serverOptions : list serverOption;
  configured : list nat;
}.

(** [for index, clientTransport := range server.transports { SetHandler }] *)
Fixpoint set_handlers (SetHandler : nat → option error) (transports : list nat) : option error :=
  match transports with
  | [] => None
  | t :: transports =>
      match SetHandler t with
      | Some err => Some (EWrap "gateway: configure client transport: %w" [err])
      | None => set_handlers SetHandler transports
      end
  end.

Definition NewServer (gomaxprocs : Z) (SetHandler : nat → option error) (opts : list (Option_ GatewayOptions.options))
  : result Server :=
  match GatewayOptions.resolveOptions gomaxprocs opts with
  | Err err => Err err
  | Ok o =>
      match set_handlers SetHandler (GatewayOptions.transports o) with
      | Some err => Err err
      | None =>
          Ok (mkServer o ([SNetwork (GatewayOptions.network o); SAddress (GatewayOptions.address o); SListener;
                           STimeout DefaultHandlerTimeout; SRecovery] ++ GatewayOptions.grpcOptions o)
                (GatewayOptions.transports o))
      end
  end.

Lemma set_handlers_none SetHandler ts : set_handlers SetHandler ts = None ↔ ∀ t, t ∈ ts → SetHandler t = None.
Proof.
  induction ts as [|t ts IH]; simpl; [split; [by intros _ t ?%elem_of_nil|done]|].
  destruct (SetHandler t) as [err|] eqn:E.
  - split; [done|]. intros H. by rewrite (H t (list_elem_of_here _ _)) in E.
  - rewrite IH. split; [|set_solver]. intros H u [->|Hu]%elem_of_cons; auto.
Qed.

(** A server is made exactly when its options resolve and every transport
    takes it as its handler; the options given by the user come last. *)
Lemma NewServer_ok gomaxprocs SetHandler opts srv :
  NewServer gomaxprocs SetHandler opts = Ok srv →
  GatewayOptions.resolveOptions gomaxprocs opts = Ok (settings srv) ∧
  (∀ t, t ∈ configured srv → SetHandler t = None) ∧
  ∃ pre, serverOptions srv = pre ++ GatewayOptions.grpcOptions (settings srv) ∧ STimeout DefaultHandlerTimeout ∈ pre.
Proof.
  unfold NewServer. intros H. destruct (GatewayOptions.resolveOptions gomaxprocs opts) as [o|] eqn:Er; [|done].
  destruct (set_handlers SetHandler (GatewayOptions.transports o)) eqn:Es; [done|]. simplify_eq; simpl.
  split_and!; [done|by apply set_handlers_none|]. eexists [_; _; _; _; _]. split; [reflexivity|set_solver].
Qed.

(** ** gateway/lifecycle.go: draining the sessions

    [startSessionDrain]: workers take the next index until there is none. *)

Definition _shutdownWorkerCount : nat := 64.

Inductive drainer := DFetch | DRun (index : nat) | DExit.

(** [sessions]: how many there are; [drained]: the indices whose
    [drainSession] returned, latest first. *)
Record drain := mkDrain {
  sessions : nat;
  next : nat;
  drainers : gmap nat drainer;
  drained : list nat;
  drainDone : bool;
}.
#[export] Instance eta_drain : Eta drain := λ d, mkDrain (sessions d) (next d) (drainers d) (drained d) (drainDone d).

Fixpoint worker_pool (n : nat) : gmap nat drainer :=
  match n with O => ∅ | S n => <[n := DFetch]> (worker_pool n) end.

Definition startSessionDrain (n : nat) : drain :=
  if (n =? 0)%nat then mkDrain 0 0 ∅ [] true
  else mkDrain n 0 (worker_pool (Nat.min _shutdownWorkerCount n)) [] false.

Inductive drain_step (d : drain) : drain → Prop :=
| d_fetch w :
    drainers d !! w = Some DFetch →
    drain_step d (d <| next := S (next d) |>
                    <| drainers := <[w := if (next d <? sessions d)%nat then DRun (next d) else DExit]> (drainers d) |>)
| d_drained w index :
    drainers d !! w = Some (DRun index) →
    drain_step d (d <| drained := index :: drained d |> <| drainers := <[w := DFetch]> (drainers d) |>)
| d_done :
    drainDone d = false → (∀ w x, drainers d !! w = Some x → x = DExit) → drain_step d (d <| drainDone := true |>).

Definition draining (i : nat) (x : drainer) : Z := match x with DRun j => eqz i j | _ => 0 end.

Record drain_inv (d : drain) : Prop := mkDrainInv {
  di_once : ∀ i, msum (draining i) (drainers d) + lsum (eqz i) (drained d)
                 = one (bool_decide (i < next d ∧ i < sessions d)%nat);
  di_exit : ∀ w, drainers d !! w = Some DExit → (sessions d < next d)%nat;
  di_pool : sessions d = 0%nat ∨ ∃ w x, drainers d !! w = Some x;
  di_done : drainDone d = true → ∀ w x, drainers d !! w = Some x → x = DExit;
}.

Lemma draining_nonneg i x : 0 ≤ draining i x.
Proof. destruct x; simpl; try done. apply eqz_nonneg. Qed.

Lemma worker_pool_lookup n w x : worker_pool n !! w = Some x → x = DFetch.
Proof. induction n as [|n IH]; simpl; [done|]. rewrite lookup_insert_Some. naive_solver. Qed.

Lemma worker_pool_sum i n : msum (draining i) (worker_pool n) = 0.
Proof.
  pose proof (msum_nonneg (draining i) (worker_pool n) (draining_nonneg i)).
  destruct (decide (0 < msum (draining i) (worker_pool n))) as [Hp|]; [|lia].
  apply msum_pos_exists in Hp as (w & x & Hw & Hx). by apply worker_pool_lookup in Hw as ->.
Qed.

Lemma start_drain_inv n : drain_inv (startSessionDrain n).
Proof.
  unfold startSessionDrain. destruct (Nat.eqb_spec n 0) as [->|Hn];
    (split; cbn [next sessions drainers drained drainDone lsum]).
  - intros i. rewrite msum_empty, bool_decide_false by lia. done.
  - done.
  - by left.
  - done.
  - intros i. rewrite worker_pool_sum, bool_decide_false by lia. done.
  - intros w Hw. by apply worker_pool_lookup in Hw.
  - right. destruct (Nat.min _shutdownWorkerCount n) as [|k] eqn:Ek; [unfold _shutdownWorkerCount in Ek; lia|].
    exists k, DFetch. simpl. by rewrite lookup_insert_eq.
  - done.
Qed.

Lemma drain_step_inv d d' : drain_inv d → drain_step d d' → drain_inv d'.
Proof.
  intros [I1 I2 I3 I4] Hs. destruct Hs as [w Hw|w index Hw|Hd Hall]; split; simpl.
  - intros i. specialize (I1 i). rewrite (msum_insert _ w DFetch) by done. simpl.
    destruct (Nat.ltb_spec (next d) (sessions d)) as [Hl|Hl]; simpl.
    + destruct (decide (i = next d)) as [->|Hne].
      * rewrite eqz_same. rewrite bool_decide_false in I1 by lia. rewrite bool_decide_true by lia. unfold one in *. lia.
      * rewrite eqz_ne by done. destruct (decide (i < next d ∧ i < sessions d)%nat).
        -- rewrite bool_decide_true in I1 by done. rewrite bool_decide_true by lia. lia.
        -- rewrite bool_decide_false in I1 by done. rewrite bool_decide_false by lia. lia.
    + destruct (decide (i < next d ∧ i < sessions d)%nat).
      * rewrite bool_decide_true in I1 by done. rewrite bool_decide_true by lia. lia.
      * rewrite bool_decide_false in I1 by done. rewrite bool_decide_false by lia. lia.
  - intros w'. rewrite lookup_insert_Some. intros [[<- H]|[_ H]]; [|apply I2 in H; lia].
    destruct (Nat.ltb_spec (next d) (sessions d)); [done|lia].
  - right. exists w. eexists. by rewrite lookup_insert_eq.
  - intros Hd w' x. specialize (I4 Hd _ _ Hw). done.
  - intros i. specialize (I1 i). rewrite (msum_insert _ w (DRun index)) by done. simpl. lia.
  - intros w'. rewrite lookup_insert_Some. intros [[<- H]|[_ H]]; [done|by apply I2 in H].
  - right. exists w. eexists. by rewrite lookup_insert_eq.
  - intros Hd w' x. specialize (I4 Hd _ _ Hw). done.
  - done.
  - done.
  - done.
  - done.
Qed.

(** When the drain is over every session was drained, once. *)
Lemma drain_done_all d i :
  drain_inv d → drainDone d = true → lsum (eqz i) (drained d) = one (bool_decide (i < sessions d)%nat).
Proof.
  intros [I1 I2 I3 I4] Hd. specialize (I1 i).
  assert (Hz : msum (draining i) (drainers d) = 0).
  { pose proof (msum_nonneg (draining i) (drainers d) (draining_nonneg i)).
    destruct (decide (0 < msum (draining i) (drainers d))) as [Hp|]; [|lia].
    apply msum_pos_exists in Hp as (w & x & Hw & Hx). by apply (I4 Hd) in Hw as ->. }
  rewrite Hz in I1. destruct I3 as [H0|(w & x & Hw)].
  - rewrite bool_decide_false in I1 by lia. rewrite bool_decide_false by lia. lia.
  - apply (I4 Hd) in Hw as Hx. subst x. apply I2 in Hw. destruct (decide (i < sessions d)%nat).
    + rewrite bool_decide_true in I1 by lia. rewrite bool_decide_true by lia. lia.
    + rewrite bool_decide_false in I1 by lia. rewrite bool_decide_false by lia. lia.
Qed.

(** ** gateway/lifecycle.go: the server *)

Inductive lifecycleState := _stNew | _stStarting | _stStarted | _stStopping | _stStopped.

#[export] Instance lifecycleState_eq_dec : EqDecision lifecycleState.
Proof. solve_decision. Defined.

(** [startupDone] is nil, or made and perhaps closed; [startupCancel] is set
    with it; [shutdownOnce]: the once has run. *)
Record lifecycle := mkLifecycle {
  lstate : lifecycleState;
  startupDone : option bool;
  prepared : nat;
  serving : bool;
  shutdownOnce : bool;
  shutdownDone : bool;
  shutdownErr : option error;
}.
#[export] Instance eta_lifecycle : Eta lifecycle := λ l,
  mkLifecycle (lstate l) (startupDone l) (prepared l) (serving l) (shutdownOnce l) (shutdownDone l) (shutdownErr l).

(** What [validateApplication] asks of the application in the context. *)
Record AppInfo := mkAppInfo { appID : string; appName : string }.

Definition validateApplication (app : option AppInfo) : option error :=
  match app with
  | None => Some (EText "gateway: application context is required")
  | Some a =>
      if negb (ValidServiceName (appName a)) then Some (EText "gateway: invalid application name")
      else if String.eqb (appID a) EmptyString then Some (EText "gateway: application ID is required")
      else None
  end.

(** [prepare] *)
Inductive preparing :=
| PApp                                      (* validateApplication *)
| PListen                                   (* grpcListener.Prepare *)
| PEndpoint                                 (* grpcServer.Endpoint and its checks *)
| PPing
| PBroadcaster
| PTransport (index : nat)                  (* ctx.Err() before a transport *)
| PBefore (index : nat)                     (* in its BeforeStart *)
| PPrepared (index : nat) (err : option error)
| PIdentity.

(** A call of [Start]. *)
Inductive starter :=
| SEnter
| SPrepare (p : preparing)
| SSpawn
| SAccepting                                (* select: accepting, grpcResult, runCtx *)
| SOpen
| SOpened                                   (* handoff *)
| SServe                                    (* the loop over the results *)
| SHandoff (err : option error)             (* the deferred function *)
| SBegin (err : option error)
| SJoin (err : option error)
| SReturned (err : option error).

(** A call of [Stop]. *)
Inductive stopper := TBegin | TWait | TReturned (err : option error).

(** A worker that runs a transport: running, its result in the channel, and
    the result received. *)
Inductive worker := WRun | WSent (err : option error) | WTaken.

(** The [Stop] of one transport, in a goroutine of its own. *)
Inductive transport_stop := SRun | SDone (err : option error).

(** [stopClientTransports]: the indices still to stop in order, whether the
    first of them is being stopped, and its results so far. *)
Record stop_loop := mkStopLoop {
  todo : list nat;
  waiting : bool;
  rollback : bool;
  stopErr : option error;
  pending : list nat;
}.
#[export] Instance eta_stop_loop : Eta stop_loop := λ l,
  mkStopLoop (todo l) (waiting l) (rollback l) (stopErr l) (pending l).

(** The shutdown goroutine. *)
Inductive shutdown_pc :=
| HNone
| HWait (captured : bool)                   (* select: startupDone, ctx *)
| HRead                                     (* stoppedTransports = prepared *)
| HListener1
| HBroadcaster1
| HStops1 (l : stop_loop)
| HJoinStart                                (* <-startupDone *)
| HAdmission                                (* quiesce *)
| HAuthentications
| HGateways
| HBroadcaster
| HSessions                                 (* takeAll, startSessionDrain *)
| HDrain
| HCloseConns
| HTransports
| HStops (l : stop_loop)
| HGrpc
| HListener
| HBackends
| HAuthentications2
| HGateways2
| HBroadcaster2
| HDrainDone
| HWorkers
| HLate (late : list nat)                   (* the end of shutdown *)
| HLate1 (late : list nat)
| HFinish
| HClose
| HEnd.

(** The local variables of the shutdown goroutine. *)
Record locals := mkLocals {
  preparationErr : option error;
  lateStops1 : list nat;
  stoppedTransports : nat;
  quiesceErr : option error;
  broadcastErr : option error;
  drainErr : option error;
  transportErr : option error;
  lateStops : list nat;
  total : option error;
}.
#[export] Instance eta_locals : Eta locals := λ v,
  mkLocals (preparationErr v) (lateStops1 v) (stoppedTransports v) (quiesceErr v) (broadcastErr v) (drainErr v)
    (transportErr v) (lateStops v) (total v).

Definition locals0 : locals := mkLocals None [] 0 None None None None [] None.

(** [runDone]: the context of the start is done; [expired]: that of the
    shutdown; [auths]: the authentications under way; [accepting]: the gRPC
    server accepts; [stopCalls]: the transports whose [Stop] was called. *)
Record sys := mkSys {
  lc : lifecycle;
  runDone : bool;
  expired : bool;
  admission : bool;
  auths : nat;
  accepting : bool;
  starts : gmap nat starter;
  stops : gmap nat stopper;
  grpc : option worker;
  clients : gmap nat worker;
  tstops : gmap nat transport_stop;
  stopCalls : list nat;
  shut : shutdown_pc;
  vars : locals;
  drn : drain;
}.
#[export] Instance eta_sys : Eta sys := λ s,
  mkSys (lc s) (runDone s) (expired s) (admission s) (auths s) (accepting s) (starts s) (stops s) (grpc s) (clients s)
    (tstops s) (stopCalls s) (shut s) (vars s) (drn s).

Definition join (a b : option error) : option error := errors_Join [a; b].

Definition ctxErr : error := ESentinel CtxDeadlineExceeded.

Section Lifecycle.
Context (ntransports : nat).       (* len(s.transports) *)
Context (app : option AppInfo).    (* kratos.FromContext *)

Definition goto (p : shutdown_pc) (s : sys) : sys := s <| shut := p |>.
Definition set_start (i : nat) (p : starter) (s : sys) : sys := s <| starts := <[i := p]> (starts s) |>.
Definition set_stop (i : nat) (p : stopper) (s : sys) : sys := s <| stops := <[i := p]> (stops s) |>.
Definition on_vars (f : locals → locals) (s : sys) : sys := s <| vars := f (vars s) |>.

(** [beginShutdown], one critical section. *)
Definition beginShutdown (s : sys) : sys :=
  let l := lc s in
  let s := s <| runDone := runDone s || bool_decide (startupDone l ≠ None) |> <| admission := false |> in
  let l := l <| lstate := if decide (lstate l = _stStopped) then _stStopped else _stStopping |> in
  if shutdownOnce l then s <| lc := l |>
  else s <| lc := l <| shutdownOnce := true |> |> <| shut := HWait (bool_decide (startupDone l ≠ None)) |>.

(** The first critical section of [Start]. *)
Definition start_enter (s : sys) : sys * option error :=
  match lstate (lc s) with
  | _stStopping | _stStopped => (s, Some (EText "gateway: server is stopping or stopped"))
  | _stStarting | _stStarted => (s, Some (EText "gateway: server is already starting or started"))
  | _stNew => (s <| lc := (lc s) <| lstate := _stStarting |> <| startupDone := Some false |> |>, None)
  end.

(** The second one. *)
Definition start_open (s : sys) : sys * option error :=
  if negb (bool_decide (lstate (lc s) = _stStarting)) || runDone s
  then (s, Some (EText "gateway: server is stopping or stopped"))
  else (s <| lc := (lc s) <| lstate := _stStarted |> <| serving := true |> |>
          <| admission := true |>
          <| clients := gset_to_gmap WRun (set_seq 0 ntransports) |>, None).

(** A step of [prepare] that succeeds. *)
Definition next_prepare (p : preparing) : starter :=
  match p with
  | PApp => SPrepare PListen
  | PListen => SPrepare PEndpoint
  | PEndpoint => SPrepare PPing
  | PPing => SPrepare PBroadcaster
  | PBroadcaster => if (ntransports =? 0)%nat then SPrepare PIdentity else SPrepare (PTransport 0)
  | PTransport i => SPrepare (PBefore i)
  | PBefore i => SPrepare (PPrepared i None)
  | PPrepared i _ => if (S i <? ntransports)%nat then SPrepare (PTransport (S i)) else SPrepare PIdentity
  | PIdentity => SSpawn
  end.

Inductive start_step (s : sys) (i : nat) : sys → Prop :=
| t_call : starts s !! i = None → start_step s i (set_start i SEnter s)
| t_enter s1 err :
    starts s !! i = Some SEnter → start_enter s = (s1, err) →
    start_step s i (set_start i (match err with Some e => SReturned (Some e) | None => SPrepare PApp end) s1)
| t_prepare p :
    starts s !! i = Some (SPrepare p) →
    match p with
    | PBefore _ | PPrepared _ _ => False
    | PTransport _ | PIdentity => runDone s = false
    | PApp => validateApplication app = None
    | _ => True
    end →
    start_step s i (set_start i (next_prepare p) s)
| t_prepare_err p err :
    starts s !! i = Some (SPrepare p) →
    match p with
    | PBefore _ | PPrepared _ _ => False
    | PTransport _ | PIdentity => runDone s = true
    | PApp => validateApplication app = Some err
    | _ => True
    end →
    start_step s i (set_start i (SHandoff (Some err)) s)
| t_before index err :
    starts s !! i = Some (SPrepare (PBefore index)) → start_step s i (set_start i (SPrepare (PPrepared index err)) s)
| t_prepared index err :
    starts s !! i = Some (SPrepare (PPrepared index err)) →
    start_step s i (set_start i (match err with
                                 | Some e => SHandoff (Some (EWrap "gateway: prepare client transport: %w" [e]))
                                 | None => next_prepare (PPrepared index None)
                                 end) (s <| lc := (lc s) <| prepared := S index |> |>))
| t_spawn : starts s !! i = Some SSpawn → start_step s i (set_start i SAccepting (s <| grpc := Some WRun |>))
| t_accepting : starts s !! i = Some SAccepting → accepting s = true → start_step s i (set_start i SOpen s)
| t_grpc_early err :
    starts s !! i = Some SAccepting → grpc s = Some (WSent err) →
    start_step s i (set_start i (SHandoff (Some (default (EText "gateway: gRPC transport stopped before accepting") err)))
                      (s <| grpc := Some WTaken |>))
| t_cancelled err : starts s !! i = Some SAccepting → runDone s = true → start_step s i (set_start i (SHandoff (Some err)) s)
| t_open s1 :
    starts s !! i = Some SOpen → start_open s = (s1, None) →
    start_step s i (set_start i SOpened s1)
| t_open_err s1 err :
    starts s !! i = Some SOpen → start_open s = (s1, Some err) → start_step s i (set_start i (SHandoff (Some err)) s1)
| t_opened :
    starts s !! i = Some SOpened →
    start_step s i (set_start i SServe (s <| lc := (lc s) <| startupDone := Some true |> |>))
| t_grpc err :
    starts s !! i = Some SServe → grpc s = Some (WSent err) →
    start_step s i (set_start i (SHandoff err) (s <| grpc := Some WTaken |>))
| t_client index err :
    starts s !! i = Some SServe → clients s !! index = Some (WSent err) →
    start_step s i (set_start i (match err with Some _ => SHandoff err | None => SServe end)
                      (s <| clients := <[index := WTaken]> (clients s) |>))
| t_done : starts s !! i = Some SServe → runDone s = true → start_step s i (set_start i (SHandoff None) s)
| t_handoff err :
    starts s !! i = Some (SHandoff err) →
    start_step s i (set_start i (SBegin err) (s <| lc := (lc s) <| startupDone := Some true |> |>))
| t_begin err : starts s !! i = Some (SBegin err) → start_step s i (set_start i (SJoin err) (beginShutdown s))
| t_join err :
    starts s !! i = Some (SJoin err) → shutdownDone (lc s) = true →
    start_step s i (set_start i (SReturned (join err (shutdownErr (lc s)))) s).

Inductive stop_step (s : sys) (i : nat) : sys → Prop :=
| p_call : stops s !! i = None → stop_step s i (set_stop i TBegin s)
| p_begin : stops s !! i = Some TBegin → stop_step s i (set_stop i TWait (beginShutdown s))
| p_done :
    stops s !! i = Some TWait → shutdownDone (lc s) = true →
    stop_step s i (set_stop i (TReturned (shutdownErr (lc s))) s)
| p_ctx err :
    stops s !! i = Some TWait → shutdownDone (lc s) = false → stop_step s i (set_stop i (TReturned (Some err)) s).

(** *** The shutdown goroutine *)

Definition stop_order (first end_ : nat) (rollback : bool) : list nat :=
  let l := seq first (end_ - first) in if rollback then reverse l else l.

#[local] Arguments stop_order : simpl never.

Definition new_loop (first end_ : nat) (rollback : bool) : stop_loop :=
  mkStopLoop (stop_order first end_ rollback) false rollback None [].

(** The message without the index and the action. *)
Definition wrap (err : error) : error := EWrap "gateway: stop client transport: %w" [err].

(** One turn of the loop of [stopClientTransports].  In a rollback every
    transport has a context of its own, whose cancellation is deferred by the
    goroutine that runs [Stop]: it may be done because [Stop] returned, and
    the select may prefer it to the result. *)
Inductive loop_step (s : sys) (l : stop_loop) : sys → stop_loop → Prop :=
| k_spawn i rest :
    todo l = i :: rest → waiting l = false →
    loop_step s l (s <| tstops := <[i := SRun]> (tstops s) |> <| stopCalls := i :: stopCalls s |>) (l <| waiting := true |>)
| k_result i rest err :
    todo l = i :: rest → waiting l = true → tstops s !! i = Some (SDone err) →
    loop_step s l s (mkStopLoop rest false (rollback l) (join (stopErr l) err) (pending l))
| k_timeout i rest cause :
    todo l = i :: rest → waiting l = true →
    (if rollback l then cause = ctxErr ∨ cause = ESentinel CtxCanceled ∧ ∃ err, tstops s !! i = Some (SDone err)
     else cause = ctxErr ∧ expired s = true) →
    loop_step s l s (mkStopLoop rest false (rollback l) (join (stopErr l) (Some (wrap cause))) (pending l ++ [i])).

Definition running (w : worker) : bool := match w with WRun => true | _ => false end.

(** [workers.Wait] returns. *)
Definition workers_done (s : sys) : Prop :=
  (∀ w, grpc s = Some w → running w = false) ∧ (∀ i w, clients s !! i = Some w → running w = false).

Definition budget (s : sys) : option error := if expired s then Some ctxErr else None.

Inductive shut_step (s : sys) : shutdown_pc → sys → Prop :=
| h_nostart : shut_step s (HWait false) (goto HAdmission s)
| h_started : startupDone (lc s) = Some true → shut_step s (HWait true) (goto HAdmission s)
| h_expired : expired s = true → shut_step s (HWait true) (goto HRead s)
| h_read : shut_step s HRead (goto HListener1 (on_vars (λ v, v <| stoppedTransports := prepared (lc s) |>) s))
| h_listener1 err : shut_step s HListener1 (goto HBroadcaster1 (on_vars (λ v, v <| preparationErr := err |>) s))
| h_broadcaster1 err :
    shut_step s HBroadcaster1
      (goto (HStops1 (new_loop 0 (stoppedTransports (vars s)) true))
         (on_vars (λ v, v <| preparationErr := join (preparationErr v) err |>) s))
| h_stops1 l s1 l1 : loop_step s l s1 l1 → shut_step s (HStops1 l) (goto (HStops1 l1) s1)
| h_stops1_end l :
    todo l = [] →
    shut_step s (HStops1 l)
      (goto HJoinStart (on_vars (λ v, v <| preparationErr := join (preparationErr v) (stopErr l) |>
                                       <| lateStops1 := pending l |>) s))
| h_joinstart : startupDone (lc s) = Some true → shut_step s HJoinStart (goto HAdmission s)
| h_admission : shut_step s HAdmission (goto HAuthentications (s <| admission := false |>))
| h_auths : auths s = 0%nat → shut_step s HAuthentications (goto HGateways s)
| h_auths_err :
    expired s = true →
    shut_step s HAuthentications (goto HBroadcaster (on_vars (λ v, v <| quiesceErr := Some ctxErr |>) s))
| h_gateways err : shut_step s HGateways (goto HBroadcaster (on_vars (λ v, v <| quiesceErr := err |>) s))
| h_broadcaster err : shut_step s HBroadcaster (goto HSessions (on_vars (λ v, v <| broadcastErr := err |>) s))
| h_sessions n : shut_step s HSessions (goto HDrain (s <| drn := startSessionDrain n |>))
| h_drain : drainDone (drn s) = true → shut_step s HDrain (goto HTransports s)
| h_drain_err :
    expired s = true → drainDone (drn s) = false →
    shut_step s HDrain (goto HCloseConns (on_vars (λ v, v <| drainErr := Some ctxErr |>) s))
| h_closeconns : shut_step s HCloseConns (goto HTransports s)
| h_transports :
    shut_step s HTransports
      (goto (HStops (new_loop (stoppedTransports (vars s)) ntransports (negb (serving (lc s))))) s)
| h_stops l s1 l1 : loop_step s l s1 l1 → shut_step s (HStops l) (goto (HStops l1) s1)
| h_stops_end l :
    todo l = [] →
    shut_step s (HStops l)
      (goto HGrpc (on_vars (λ v, v <| transportErr := stopErr l |> <| lateStops := pending l |>) s))
| h_grpc err :
    shut_step s HGrpc
      (goto HListener (on_vars (λ v, match err with
                                     | Some e => v <| transportErr := join (transportErr v) (Some (EWrap "gateway: stop gRPC transport: %w" [e])) |>
                                     | None => v
                                     end) s))
| h_listener err :
    shut_step s HListener (goto HBackends (on_vars (λ v, v <| transportErr := join (transportErr v) err |>) s))
| h_backends : shut_step s HBackends (goto HAuthentications2 s)
| h_auths2 : auths s = 0%nat → shut_step s HAuthentications2 (goto HGateways2 s)
| h_gateways2 : shut_step s HGateways2 (goto HBroadcaster2 s)
| h_broadcaster2 : shut_step s HBroadcaster2 (goto HDrainDone s)
| h_draindone : drainDone (drn s) = true → shut_step s HDrainDone (goto HWorkers s)
| h_workers : workers_done s → shut_step s HWorkers (goto (HLate (lateStops (vars s))) s)
| h_late i late err :
    tstops s !! i = Some (SDone err) →
    shut_step s (HLate (i :: late)) (goto (HLate late) (on_vars (λ v, v <| transportErr := join (transportErr v) err |>) s))
| h_late_end :
    shut_step s (HLate [])
      (goto (HLate1 (lateStops1 (vars s)))
         (on_vars (λ v, v <| total := join (preparationErr v)
                                       (errors_Join [budget s; quiesceErr v; broadcastErr v; drainErr v; transportErr v]) |>) s))
| h_late1 i late err :
    tstops s !! i = Some (SDone err) →
    shut_step s (HLate1 (i :: late)) (goto (HLate1 late) (on_vars (λ v, v <| total := join (total v) err |>) s))
| h_late1_end : shut_step s (HLate1 []) (goto HFinish s)
| h_finish :
    shut_step s HFinish (goto HClose (s <| lc := (lc s) <| shutdownErr := total (vars s) |> <| lstate := _stStopped |> |>))
| h_close : shut_step s HClose (goto HEnd (s <| lc := (lc s) <| shutdownDone := true |> |>)).

(** What goes on around. *)
Inductive env_step (s : sys) : sys → Prop :=
| e_cancel : startupDone (lc s) ≠ None → env_step s (s <| runDone := true |>)
| e_expire : shut s ≠ HNone → env_step s (s <| expired := true |>)
| e_auth : admission s = true → env_step s (s <| auths := S (auths s) |>)
| e_auth_done n : auths s = S n → env_step s (s <| auths := n |>)
| e_accept : grpc s = Some WRun → env_step s (s <| accepting := true |>)
| e_grpc err : grpc s = Some WRun → env_step s (s <| grpc := Some (WSent err) |>)
| e_client i err : clients s !! i = Some WRun → env_step s (s <| clients := <[i := WSent err]> (clients s) |>)
| e_tstop i err : tstops s !! i = Some SRun → env_step s (s <| tstops := <[i := SDone (wrap <$> err)]> (tstops s) |>)
| e_drain d : drain_step (drn s) d → env_step s (s <| drn := d |>).

Inductive step (s : sys) : sys → Prop :=
| s_start i s' : start_step s i s' → step s s'
| s_stop i s' : stop_step s i s' → step s s'
| s_shut p s' : shut s = p → shut_step s p s' → step s s'
| s_env s' : env_step s s' → step s s'.

Definition s_init : sys :=
  mkSys (mkLifecycle _stNew None 0 false false false None) false false false 0 false ∅ ∅ None ∅ ∅ [] HNone locals0
    (startSessionDrain 0).

Definition init_sys (s : sys) : Prop := s = s_init.

Definition reach : sys → Prop := reachable init_sys step.

(** ** Invariant: who owns the start *)

(** A call of [Start] that was let in and has not returned. *)
Definition active (p : starter) : bool := match p with SEnter | SReturned _ => false | _ => true end.

(** It has not handed its resources over. *)
Definition early (p : starter) : bool :=
  match p with SPrepare _ | SSpawn | SAccepting | SOpen | SOpened => true | _ => false end.

Definition owner (p : starter) : bool := match p with SHandoff _ => true | _ => early p end.

Definition past_accept (p : starter) : bool := match p with SOpen | SOpened | SServe => true | _ => false end.

(** How far the transports are prepared. *)
Definition prep_ok (p : starter) (k : nat) : Prop :=
  match p with
  | SPrepare (PTransport i) | SPrepare (PBefore i) | SPrepare (PPrepared i _) => k = i ∧ (i < ntransports)%nat
  | SPrepare PIdentity | SSpawn | SAccepting | SOpen | SOpened | SServe => k = ntransports
  | SPrepare _ => k = 0%nat
  | _ => True
  end.

(** The shutdown waits for the start no more. *)
Definition settled (p : shutdown_pc) : bool :=
  match p with
  | HNone | HWait _ | HRead | HListener1 | HBroadcaster1 | HStops1 _ | HJoinStart => false
  | _ => true
  end.

Definition unsettled_early (p : shutdown_pc) : bool :=
  match p with HRead | HListener1 | HBroadcaster1 | HStops1 _ | HJoinStart => true | _ => false end.

(** What the program counter of the shutdown says of the lifecycle. *)
Record shut_ok (l : lifecycle) (p : shutdown_pc) : Prop := mkShutOk {
  so_once : shutdownOnce l = true ↔ p ≠ HNone;
  so_state : match p with
             | HNone => lstate l = _stNew ∨ lstate l = _stStarting ∨ lstate l = _stStarted
             | HClose | HEnd => lstate l = _stStopped
             | _ => lstate l = _stStopping
             end;
  so_wait : match p with
            | HWait b => b = bool_decide (startupDone l ≠ None)
            | _ => unsettled_early p = true → startupDone l ≠ None
            end;
  so_settled : settled p = true → startupDone l ≠ Some false;
  so_done : shutdownDone l = true ↔ p = HEnd;
}.

Record core (s : sys) : Prop := mkCore {
  c_shut : shut_ok (lc s) (shut s);
  c_new : lstate (lc s) = _stNew → startupDone (lc s) = None;
  c_none : startupDone (lc s) = None → serving (lc s) = false ∧ prepared (lc s) = 0%nat ∧
           ∀ i p, starts s !! i = Some p → active p = false;
  c_cancel : shut s ≠ HNone → startupDone (lc s) ≠ None → runDone s = true;
  c_one : ∀ i j p q, starts s !! i = Some p → starts s !! j = Some q → active p = true → active q = true → i = j;
  c_early : ∀ i p, starts s !! i = Some p → early p = true → startupDone (lc s) = Some false;
  c_owner : startupDone (lc s) = Some false → ∃ i p, starts s !! i = Some p ∧ owner p = true;
  c_admission : admission s = true →
    shut s = HNone ∧ lstate (lc s) = _stStarted ∧ serving (lc s) = true ∧ accepting s = true;
  c_accepting : ∀ i p, starts s !! i = Some p → past_accept p = true → accepting s = true;
  c_prepared : (prepared (lc s) ≤ ntransports)%nat ∧ (∀ i p, starts s !! i = Some p → prep_ok p (prepared (lc s)));
}.

Lemma early_active p : early p = true → active p = true.
Proof. by destruct p. Qed.

Lemma owner_active p : owner p = true → active p = true.
Proof. by destruct p. Qed.

(** A step that leaves the starts alone. *)
Lemma core_frame s s' :
  core s → lc s' = lc s → runDone s' = runDone s → (admission s' = true → admission s = true ∧ shut s' = shut s) →
  (accepting s = true → accepting s' = true) → starts s' = starts s → shut_ok (lc s) (shut s') →
  (shut s' ≠ HNone → shut s ≠ HNone) → core s'.
Proof.
  intros [C1 C2 C3 C4 C5 C6 C7 C8 C9 C10] El Er Ha Hacc Es Hs Hn. split; rewrite ?El, ?Er, ?Es; try done.
  - intros H. apply C4. by apply Hn.
  - intros H. apply Ha in H as [H ->]. apply C8 in H as (? & ? & ? & ?). auto.
  - eauto.
Qed.

(** A step of one start that leaves the lifecycle alone. *)
Lemma core_move s i p p' :
  core s → starts s !! i = Some p → (active p' = true → active p = true) → (early p' = true → early p = true) →
  (owner p = true → owner p' = true) → (past_accept p' = true → accepting s = true) →
  prep_ok p' (prepared (lc s)) → core (set_start i p' s).
Proof.
  intros [C1 C2 C3 C4 C5 C6 C7 C8 C9 [C10 C11]] Hi Ha He Ho Hp Hk. split; simpl; try done.
  - intros Hn. destruct (C3 Hn) as (? & ? & H). split_and!; try done. intros j q. rewrite lookup_insert_Some.
    intros [[<- <-]|[_ ?]]; [|by eapply H]. destruct (active p') eqn:E; [|done]. by rewrite <- (H i p Hi), Ha.
  - intros j k q r. rewrite !lookup_insert_Some. intros [[<- <-]|[? Hj]] [[<- <-]|[? Hk']] Hq Hr; eauto.
  - intros j q. rewrite lookup_insert_Some. intros [[<- <-]|[_ ?]]; eauto.
  - intros Hd. destruct (C7 Hd) as (j & q & Hj & Hq). destruct (decide (j = i)) as [->|Hne].
    + simplify_eq. exists i, p'. rewrite lookup_insert_eq. auto.
    + exists j, q. by rewrite lookup_insert_ne.
  - intros j q. rewrite lookup_insert_Some. intros [[<- <-]|[_ ?]]; eauto.
  - split; [done|]. intros j q. rewrite lookup_insert_Some. intros [[<- <-]|[_ ?]]; eauto.
Qed.

Lemma shut_none l p : shut_ok l p → shutdownOnce l = false → p = HNone.
Proof.
  intros [S1 _ _ _ _] H. destruct p; [done|..]; (assert (shutdownOnce l = true) by (apply S1; discriminate); congruence).
Qed.

Lemma core_begin s : core s → core (beginShutdown s).
Proof.
  intros Hc. pose proof Hc as [C1 C2 C3 C4 C5 C6 C7 C8 C9 C10]. pose proof C1 as [S1 S2 S3 S4 S5].
  unfold beginShutdown. simpl. destruct (shutdownOnce (lc s)) eqn:Eo; simpl.
  - assert (Hs : shut s ≠ HNone) by (by apply S1).
    assert (El : (if decide (lstate (lc s) = _stStopped) then _stStopped else _stStopping) = lstate (lc s)).
    { destruct (decide (lstate (lc s) = _stStopped)); [done|]. destruct (shut s); try done; by rewrite S2. }
    assert (Hrun : runDone s || bool_decide (startupDone (lc s) ≠ None) = runDone s).
    { case_bool_decide; [|by rewrite orb_false_r]. by rewrite C4. }
    rewrite El. split; simpl; try done; rewrite ?Hrun; try done.
  - pose proof (shut_none _ _ C1 Eo) as Hs.
    rewrite Hs in *. assert (Hst : lstate (lc s) ≠ _stStopped) by (by destruct S2 as [-> |[-> | ->]]).
    rewrite decide_False by done. split; simpl; try done.
    + split; simpl; try done. split; [|done]. intros H. exfalso. by apply S5 in H.
    + intros _ H. rewrite bool_decide_true by done. by rewrite orb_true_r.
Qed.

Lemma core_enter s i s1 err :
  core s → starts s !! i = Some SEnter → start_enter s = (s1, err) →
  core (set_start i (match err with Some e => SReturned (Some e) | None => SPrepare PApp end) s1).
Proof.
  intros Hc Hi He. unfold start_enter in He.
  destruct (lstate (lc s)) eqn:El; simplify_eq; try (apply (core_move _ _ SEnter); done).
  destruct Hc as [C1 C2 C3 C4 C5 C6 C7 C8 C9 [C10 C11]]. pose proof (C2 El) as Hn. destruct (C3 Hn) as (Hsv & Hp & Hina).
  assert (Hs : shut s = HNone).
  { destruct C1 as [_ S2 _ _ _]. rewrite El in S2. destruct (shut s); try done. }
  destruct C1 as [S1 S2 S3 S4 S5]. split; simpl; try done.
  - split; simpl; try done; rewrite Hs in *; try done. auto.
  - intros j k q r. rewrite !lookup_insert_Some. intros [[<- <-]|[? Hj]] [[<- <-]|[? Hk]] Hq Hr; try done.
    + by rewrite (Hina _ _ Hk) in Hr.
    + by rewrite (Hina _ _ Hj) in Hq.
    + eauto.
  - intros _. exists i, (SPrepare PApp). by rewrite lookup_insert_eq.
  - intros Ha. apply C8 in Ha as (_ & H & _). by rewrite El in H.
  - intros j q. rewrite lookup_insert_Some. intros [[<- <-]|[_ ?]]; [done|eauto].
  - split; [done|]. intros j q. rewrite lookup_insert_Some. intros [[<- <-]|[_ ?]]; [done|eauto].
Qed.

Lemma core_open s i s1 :
  core s → starts s !! i = Some SOpen → start_open s = (s1, None) → core (set_start i SOpened s1).
Proof.
  intros Hc Hi Ho. unfold start_open in Ho.
  destruct (bool_decide_reflect (lstate (lc s) = _stStarting)) as [El|]; [|done].
  destruct (runDone s) eqn:Er; [done|]. simplify_eq/=.
  assert (Hc' : core (set_start i SOpened s)).
  { apply (core_move s i SOpen); try done; [by intros _; eapply c_accepting|]. by apply (c_prepared s Hc) in Hi. }
  pose proof Hc' as [C1 C2 C3 C4 C5 C6 C7 C8 C9 C10]. simpl in *.
  assert (Hd : startupDone (lc s) = Some false) by (apply (C6 i SOpened); [by rewrite lookup_insert_eq|done]).
  assert (Hs : shut s = HNone).
  { destruct (shut s); [done|..]; (rewrite C4 in Er; [discriminate|discriminate|by rewrite Hd]). }
  split; simpl; try done.
  - destruct C1 as [S1 S2 S3 S4 S5]. split; simpl; try done; rewrite Hs in *; try done. auto.
  - intros H. by rewrite H in Hd.
  - intros _. rewrite Hs. split_and!; try done. apply (C9 i SOpened); [by rewrite lookup_insert_eq|done].
Qed.

(** [handoff] *)
Lemma core_handoff s i p p' :
  core s → starts s !! i = Some p → owner p = true → active p' = true → early p' = false →
  (past_accept p' = true → accepting s = true) → prep_ok p' (prepared (lc s)) →
  (∀ err, p' ≠ SHandoff err) →
  core (set_start i p' (s <| lc := (lc s) <| startupDone := Some true |> |>)).
Proof.
  intros [C1 C2 C3 C4 C5 C6 C7 C8 C9 [C10 C11]] Hi Ho Ha He Hp Hk Hh. pose proof C1 as [S1 S2 S3 S4 S5].
  assert (Hd : startupDone (lc s) ≠ None).
  { intros H. apply C3 in H as (_ & _ & H). specialize (H _ _ Hi). by rewrite owner_active in H. }
  split; simpl; try done.
  - split; simpl; try done. destruct (shut s); try done. by rewrite bool_decide_true in S3.
  - intros H. by apply C2 in H.
  - intros H _. by apply C4.
  - intros j k q r. rewrite !lookup_insert_Some. intros [[<- <-]|[? Hj]] [[<- <-]|[? Hk']] Hq Hr; eauto using owner_active.
    all: exfalso; eauto using owner_active.
  - intros j q. rewrite lookup_insert_Some. intros [[<- <-]|[? Hj]] Hq; [by rewrite He in Hq|].
    exfalso. eauto using owner_active, early_active.
  - intros j q. rewrite lookup_insert_Some. intros [[<- <-]|[_ ?]]; eauto.
  - split; [done|]. intros j q. rewrite lookup_insert_Some. intros [[<- <-]|[_ ?]]; eauto.
Qed.

Lemma core_prepared s i index err p' :
  core s → starts s !! i = Some (SPrepare (PPrepared index err)) → owner p' = true → past_accept p' = false →
  prep_ok p' (S index) → core (set_start i p' (s <| lc := (lc s) <| prepared := S index |> |>)).
Proof.
  intros Hc Hi Ho Hp Hk. pose proof Hc as [C1 C2 C3 C4 C5 C6 C7 C8 C9 [C10 C11]].
  destruct (C11 _ _ Hi) as [_ Hlt]. assert (Hd : startupDone (lc s) = Some false) by (by apply (C6 _ _ Hi)).
  split; simpl; try done.
  - destruct C1; by split.
  - by rewrite Hd.
  - intros j k q r. rewrite !lookup_insert_Some. intros [[<- <-]|[? Hj]] [[<- <-]|[? Hk']] Hq Hr; eauto.
  - intros _. exists i, p'. by rewrite lookup_insert_eq.
  - intros j q. rewrite lookup_insert_Some. intros [[<- <-]|[_ ?]] Hq; [by rewrite Hp in Hq|eauto].
  - split; [lia|]. intros j q. rewrite lookup_insert_Some. intros [[<- <-]|[Hne Hj]]; [done|].
    destruct (active q) eqn:Eq; [|by destruct q]. exfalso. eauto.
Qed.

Lemma next_prepare_ok p k :
  prep_ok (SPrepare p) k → (∀ i err, p ≠ PPrepared i err) → prep_ok (next_prepare p) k ∧ early (next_prepare p) = true.
Proof.
  intros H Hn. destruct p; simpl in *; try done.
  - destruct (Nat.eqb_spec ntransports 0); simpl; split; try done; lia.
  - by destruct (Hn index err).
Qed.

Lemma core_start s i s' : core s → start_step s i s' → core s'.
Proof.
  intros Hc Hs. pose proof (proj2 (c_prepared s Hc)) as Hprep.
  destruct Hs as [Hi|s1 err Hi He|p Hi Hp|p err Hi Hp|index err Hi|index err Hi|Hi|Hi Hacc|err Hi Hg|err Hi Hr|s1 Hi Ho|s1 err Hi Ho
    |Hi|err Hi Hg|index err Hi Hw|Hi Hr|err Hi|err Hi|err Hi Hd].
  - destruct Hc as [C1 C2 C3 C4 C5 C6 C7 C8 C9 [C10 C11]]. split; simpl; try done.
    + intros Hn. destruct (C3 Hn) as (? & ? & H). split_and!; try done. intros j q. rewrite lookup_insert_Some.
      intros [[<- <-]|[_ ?]]; [done|by eapply H].
    + intros j k q r. rewrite !lookup_insert_Some. intros [[<- <-]|[? Hj]] [[<- <-]|[? Hk]] Hq Hr; try done; eauto.
    + intros j q. rewrite lookup_insert_Some. intros [[<- <-]|[_ ?]]; [done|eauto].
    + intros H. destruct (C7 H) as (j & q & Hj & Hq). exists j, q. rewrite lookup_insert_ne; [done|]. by intros ->; simplify_eq.
    + intros j q. rewrite lookup_insert_Some. intros [[<- <-]|[_ ?]]; [done|eauto].
    + split; [done|]. intros j q. rewrite lookup_insert_Some. intros [[<- <-]|[_ ?]]; [done|eauto].
  - by eapply core_enter.
  - destruct (next_prepare_ok p (prepared (lc s))) as [Hk He]; [by apply (Hprep _ _ Hi)|by intros ?? ->|].
    eapply core_move; try done; [by intros _; destruct (next_prepare p)|].
    intros H. exfalso. destruct p; simpl in H; repeat case_match; done.
  - eapply core_move; done.
  - eapply core_move; try done. apply (Hprep _ _ Hi).
  - apply (core_prepared _ _ index err); try done; destruct err; simpl; try done.
    + destruct (S index <? ntransports)%nat; done.
    + destruct (S index <? ntransports)%nat; done.
    + destruct (Hprep _ _ Hi) as [_ Hlt]. destruct (Nat.ltb_spec (S index) ntransports); simpl; [done|lia].
  - apply (core_move (s <| grpc := Some WRun |>) i SSpawn); try done; [|by apply (Hprep _ _ Hi)]. by apply (core_frame s); try apply Hc.
  - eapply core_move; try done. apply (Hprep _ _ Hi).
  - apply (core_move (s <| grpc := Some WTaken |>) i SAccepting); try done. by apply (core_frame s); try apply Hc.
  - eapply core_move; done.
  - by eapply core_open.
  - assert (s1 = s) as -> by (unfold start_open in Ho; case_match; by simplify_eq). eapply core_move; done.
  - apply (core_handoff s i SOpened); try done; [by intros _; eapply c_accepting|apply (Hprep _ _ Hi)].
  - apply (core_move (s <| grpc := Some WTaken |>) i SServe); try done. by apply (core_frame s); try apply Hc.
  - assert (Hc' : core (s <| clients := <[index := WTaken]> (clients s) |>)) by (by apply (core_frame s); try apply Hc).
    destruct err; (apply (core_move _ i SServe); [done|done|try done..]).
    + intros _. simpl. by eapply (c_accepting s Hc).
    + apply (Hprep _ _ Hi).
  - eapply core_move; done.
  - by apply (core_handoff s i (SHandoff err)).
  - apply (core_move (beginShutdown s) i (SBegin err)); try done; [by apply core_begin|].
    unfold beginShutdown; simpl. by destruct (shutdownOnce (lc s)).
  - eapply core_move; done.
Qed.

Lemma core_stop s i s' : core s → stop_step s i s' → core s'.
Proof.
  intros Hc Hs.
  destruct Hs; try (by apply (core_frame s); try apply Hc).
  apply (core_frame (beginShutdown s)); try done; try apply core_begin; try done; try apply Hc.
  all: apply core_begin in Hc; apply Hc.
Qed.

Lemma loop_step_same s l s1 l1 :
  loop_step s l s1 l1 →
  lc s1 = lc s ∧ runDone s1 = runDone s ∧ admission s1 = admission s ∧ accepting s1 = accepting s ∧ starts s1 = starts s ∧
  expired s1 = expired s ∧ auths s1 = auths s ∧ grpc s1 = grpc s ∧ clients s1 = clients s ∧ vars s1 = vars s ∧ drn s1 = drn s.
Proof. by intros []. Qed.

Definition middle (p : shutdown_pc) : bool := match p with HNone | HClose | HEnd => false | _ => true end.

Lemma shut_ok_next l p p' :
  shut_ok l p → middle p = true → middle p' = true → (∀ b, p' ≠ HWait b) →
  (settled p' = true → settled p = true ∨ startupDone l ≠ Some false) →
  (unsettled_early p' = true → unsettled_early p = true ∨ startupDone l ≠ None) → shut_ok l p'.
Proof.
  intros [S1 S2 S3 S4 S5] Hp Hp' Hw Hs He.
  assert (Hst : lstate l = _stStopping) by (destruct p; done).
  split.
  - split; [by destruct p'|]. intros _. apply S1. by destruct p.
  - by destruct p'.
  - destruct p'; try (by destruct (Hw captured)); intros H; destruct (He H) as [H'|]; try done; destruct p; try done; by apply S3.
  - intros H. destruct (Hs H) as [H'|]; [by apply S4|done].
  - split; [|by destruct p']. intros H. apply S5 in H. by subst.
Qed.

Lemma core_next s s' :
  core s → middle (shut s) = true → lc s' = lc s → runDone s' = runDone s → admission s' = admission s ∨ admission s' = false →
  accepting s' = accepting s → starts s' = starts s → middle (shut s') = true → (∀ b, shut s' ≠ HWait b) →
  (settled (shut s') = true → settled (shut s) = true ∨ startupDone (lc s) ≠ Some false) →
  (unsettled_early (shut s') = true → unsettled_early (shut s) = true ∨ startupDone (lc s) ≠ None) → core s'.
Proof.
  intros Hc Hm El Er Ha Hacc Es Hm' Hw H1 H2. apply (core_frame s); try done.
  - intros H. exfalso. destruct Ha as [Ha|Ha]; rewrite Ha in H; [|done]. apply (c_admission s Hc) in H as (H & _). by rewrite H in Hm.
  - by rewrite Hacc.
  - eapply shut_ok_next; [apply Hc|done..].
  - intros _ H. by rewrite H in Hm.
Qed.

Lemma core_shut s p s' : core s → shut s = p → shut_step s p s' → core s'.
Proof.
  intros Hc Hp Hs. pose proof (c_shut s Hc) as Hok. rewrite Hp in Hok.
  destruct Hs.
  all: repeat match goal with
       | Hl : loop_step _ _ _ _ |- _ =>
           destruct (loop_step_same _ _ _ _ Hl) as (E1 & E2 & E3 & E4 & E5 & _); clear Hl
       end.
  all: try (apply (core_next s); simpl; rewrite ?Hp, ?E1, ?E2, ?E3, ?E4, ?E5; auto; try done; fail).
  - apply (core_next s); simpl; rewrite ?Hp; auto; try done. intros _. right. pose proof (so_wait _ _ Hok) as H. simpl in H.
    intros H'. by rewrite H' in H.
  - apply (core_next s); simpl; rewrite ?Hp; auto; try done. intros _. right. by rewrite H.
  - apply (core_next s); simpl; rewrite ?Hp; auto; try done. intros _. right. pose proof (so_wait _ _ Hok) as H'. simpl in H'.
    intros H0. by rewrite H0 in H'.
  - apply (core_next s); simpl; rewrite ?Hp; auto; try done. intros _. right. by rewrite H.
  - destruct Hc as [C1 C2 C3 C4 C5 C6 C7 C8 C9 C10]. destruct Hok as [S1 S2 S3 S4 S5]. simpl in *.
    split; simpl; try done.
    + split; simpl; try done; [split; [done|intros _; by apply S1]|]. split; [|done]. intros H. by apply S5 in H.
    + intros _. apply C4. by rewrite Hp.
    + intros H. apply C8 in H as (H & _). by rewrite Hp in H.
  - destruct Hc as [C1 C2 C3 C4 C5 C6 C7 C8 C9 C10]. destruct Hok as [S1 S2 S3 S4 S5]. simpl in *.
    split; simpl; try done.
    + split; simpl; try done. split; [done|intros _; by apply S1].
    + intros _. apply C4. by rewrite Hp.
    + intros H. apply C8 in H as (H & _). by rewrite Hp in H.
Qed.

Lemma core_env s s' : core s → env_step s s' → core s'.
Proof.
  intros Hc Hs. destruct Hs; try (by apply (core_frame s); try apply Hc).
  destruct Hc as [C1 C2 C3 C4 C5 C6 C7 C8 C9 C10]. by split.
Qed.

Lemma core_step s s' : core s → step s s' → core s'.
Proof.
  intros Hc [i s1 H|i s1 H|p s1 Hp H|s1 H]; [by eapply core_start|by eapply core_stop|by eapply core_shut|by eapply core_env].
Qed.

(** ** Invariant: which transports were stopped *)

Definition limit (s : sys) : nat :=
  match shut s with
  | HNone | HWait _ | HRead | HListener1 | HBroadcaster1 => 0
  | HStops1 _ | HJoinStart | HAdmission | HAuthentications | HGateways | HBroadcaster | HSessions | HDrain | HCloseConns
  | HTransports => stoppedTransports (vars s)
  | _ => ntransports
  end.

(** The indices the loop has not come to. *)
Definition uncalled (p : shutdown_pc) : list nat :=
  match p with HStops1 l | HStops l => if waiting l then tail (todo l) else todo l | _ => [] end.

Definition called (s : sys) (i : nat) : Prop := (i < limit s)%nat ∧ i ∉ uncalled (shut s).

#[local] Instance called_dec s i : Decision (called s i) := _.

Definition todo_ok (s : sys) : Prop :=
  match shut s with
  | HStops1 l | HStops l => NoDup (todo l) ∧ (∀ i, i ∈ todo l → (i < limit s)%nat) ∧ (waiting l = true → todo l ≠ [])
  | _ => True
  end.

Definition fresh_ok (s : sys) : Prop :=
  match shut s with HNone | HWait _ | HRead => stoppedTransports (vars s) = 0%nat ∧ lateStops1 (vars s) = [] | _ => True end.

Record stopping (s : sys) : Prop := mkStopping {
  b_calls : ∀ i, lsum (eqz i) (stopCalls s) = one (bool_decide (called s i));
  b_map : ∀ i, is_Some (tstops s !! i) ↔ called s i;
  b_todo : todo_ok s;
  b_read : (stoppedTransports (vars s) ≤ prepared (lc s))%nat;
  b_fresh : fresh_ok s;
}.

Lemma stopping_frame s s' :
  stopping s → stopCalls s' = stopCalls s → (∀ i, is_Some (tstops s' !! i) ↔ is_Some (tstops s !! i)) →
  (∀ i, called s' i ↔ called s i) → todo_ok s' → (stoppedTransports (vars s') ≤ prepared (lc s'))%nat →
  fresh_ok s' → stopping s'.
Proof.
  intros [B1 B2 B3 B4 B5] Ec Et Hc Ht Hk Hf. split; try done.
  - intros i. rewrite Ec, B1. f_equal. by apply bool_decide_ext.
  - intros i. by rewrite Et, B2, Hc.
Qed.

(** A step that touches neither the shutdown nor the stops. *)
Lemma stopping_same s s' :
  stopping s → stopCalls s' = stopCalls s → tstops s' = tstops s → vars s' = vars s → shut s' = shut s →
  (prepared (lc s) ≤ prepared (lc s'))%nat → stopping s'.
Proof.
  intros Hb E1 E2 E3 E4 Hp. apply (stopping_frame s); try done.
  - by rewrite E2.
  - unfold called, limit. by rewrite E3, E4.
  - unfold todo_ok, limit. rewrite E3, E4. apply Hb.
  - rewrite E3. pose proof (b_read s Hb). lia.
  - unfold fresh_ok. rewrite E3, E4. apply Hb.
Qed.

Lemma stop_order_spec a b r i : i ∈ stop_order a b r ↔ (a ≤ i < b)%nat.
Proof.
  unfold stop_order. assert (H : i ∈ seq a (b - a) ↔ (a ≤ i < b)%nat) by (rewrite elem_of_seq; lia).
  destruct r; [|done]. by rewrite <- H, elem_of_reverse.
Qed.

Lemma stop_order_nodup a b r : NoDup (stop_order a b r).
Proof. unfold stop_order. pose proof (NoDup_seq a (b - a)). destruct r; [|done]. by rewrite reverse_Permutation. Qed.

Lemma stopping_loop s l s1 l1 s' (mk : stop_loop → shutdown_pc) :
  stopping s → (∀ l, limit (goto (mk l) s) = limit s) → (mk = HStops1 ∨ mk = HStops) → shut s = mk l →
  loop_step s l s1 l1 → s' = goto (mk l1) s1 → stopping s'.
Proof.
  intros Hb Hlim Hmk Hs Hl ->. pose proof Hb as [B1 B2 B3 B4 _].
  assert (Hf : ∀ l s, shut s = mk l → fresh_ok s) by (clear -Hmk; intros l s H; unfold fresh_ok; rewrite H; by destruct Hmk as [-> | ->]).
  assert (Hu : ∀ l, uncalled (mk l) = if waiting l then tail (todo l) else todo l) by (by destruct Hmk as [-> | ->]).
  assert (Ht : ∀ l s, shut s = mk l → todo_ok s ↔ NoDup (todo l) ∧ (∀ i, i ∈ todo l → (i < limit s)%nat) ∧ (waiting l = true → todo l ≠ [])).
  { clear -Hmk. intros l s H. unfold todo_ok. rewrite H. by destruct Hmk as [-> | ->]. }
  apply (Ht l s Hs) in B3 as (T1 & T2 & T3).
  destruct Hl as [i rest Hl Hw|i rest err Hl Hw Hd|i rest cause Hl Hw He]; rewrite Hl in *.
  - set (s2 := goto (mk (l <| waiting := true |>)) (s <| tstops := <[i:=SRun]> (tstops s) |> <| stopCalls := i :: stopCalls s |>)).
    assert (Hlim' : limit s2 = limit s) by (rewrite <- (Hlim (l <| waiting := true |>)); done).
    assert (Hcal : ∀ j, called s2 j ↔ called s j ∨ j = i).
    { intros j. unfold called. rewrite Hlim', Hs, (Hu l), Hw. change (shut s2) with (mk (l <| waiting := true |>)).
      rewrite Hu. simpl. rewrite Hl. simpl. apply NoDup_cons in T1 as [Hni _]. specialize (T2 i (list_elem_of_here _ _)).
      rewrite not_elem_of_cons. split; [|naive_solver]. intros [? ?]. destruct (decide (j = i)); naive_solver. }
    assert (Hni : ¬ called s i) by (unfold called; rewrite Hs, Hu, Hw, Hl; set_solver).
    split.
    + intros j. change (lsum (eqz j) (stopCalls s2)) with (eqz j i + lsum (eqz j) (stopCalls s)). rewrite B1. destruct (decide (j = i)) as [->|Hne].
      * rewrite eqz_same, (bool_decide_false (called s i)), (bool_decide_true (called s2 i)) by (try apply Hcal; auto). done.
      * rewrite eqz_ne by done. rewrite Z.add_0_l. f_equal. apply bool_decide_ext. rewrite Hcal. naive_solver.
    + intros j. change (tstops s2) with (<[i := SRun]> (tstops s)). rewrite Hcal, <- B2, lookup_insert_is_Some'. naive_solver.
    + apply (Ht (l <| waiting := true |>)); [done|]. rewrite Hlim'. simpl. rewrite Hl. done.
    + done.
    + by eapply Hf.
  - apply (stopping_frame s); [done|done|done| | |done|by eapply Hf].
    + intros j. unfold called. rewrite Hlim, Hs. simpl shut. rewrite !Hu, Hw, Hl. done.
    + eapply Ht; [reflexivity|]. rewrite Hlim. simpl. apply NoDup_cons in T1 as [_ T1]. split_and!; [done| |done].
      intros j Hj. apply T2. by right.
  - apply (stopping_frame s); [done|done|done| | |done|by eapply Hf].
    + intros j. unfold called. rewrite Hlim, Hs. simpl shut. rewrite !Hu, Hw, Hl. done.
    + eapply Ht; [reflexivity|]. rewrite Hlim. simpl. apply NoDup_cons in T1 as [_ T1]. split_and!; [done| |done].
      intros j Hj. apply T2. by right.
Qed.

(** What [beginShutdown] does to the shutdown goroutine. *)
Lemma begin_shut s :
  core s → shut (beginShutdown s) = shut s ∨ shut s = HNone ∧ ∃ b, shut (beginShutdown s) = HWait b.
Proof.
  intros Hc. unfold beginShutdown; simpl. destruct (shutdownOnce (lc s)) eqn:Eo; [by left|right].
  split; [|by eexists]. apply (shut_none _ _ (c_shut s Hc) Eo).
Qed.

Lemma begin_same s :
  stopCalls (beginShutdown s) = stopCalls s ∧ tstops (beginShutdown s) = tstops s ∧ vars (beginShutdown s) = vars s ∧
  drn (beginShutdown s) = drn s ∧ auths (beginShutdown s) = auths s ∧ grpc (beginShutdown s) = grpc s ∧
  clients (beginShutdown s) = clients s ∧ prepared (lc (beginShutdown s)) = prepared (lc s) ∧
  serving (lc (beginShutdown s)) = serving (lc s) ∧ startupDone (lc (beginShutdown s)) = startupDone (lc s) ∧
  expired (beginShutdown s) = expired s ∧ starts (beginShutdown s) = starts s ∧ shutdownErr (lc (beginShutdown s)) = shutdownErr (lc s).
Proof. unfold beginShutdown; simpl. by destruct (shutdownOnce (lc s)). Qed.

(** What the calls of [Start] and [Stop] leave to the shutdown. *)
Record calls_same (s s' : sys) : Prop := mkCallsSame {
  cs_stops : stopCalls s' = stopCalls s ∧ tstops s' = tstops s ∧ vars s' = vars s ∧ drn s' = drn s ∧ auths s' = auths s;
  cs_shut : shut s' = shut s ∨ shut s = HNone ∧ ∃ b, shut s' = HWait b;
  cs_prepared : (prepared (lc s) ≤ prepared (lc s'))%nat;
  cs_err : shutdownErr (lc s') = shutdownErr (lc s);
  cs_workers : settled (shut s) = true → workers_done s → workers_done s';
}.

Lemma settled_not_early s i p : core s → settled (shut s) = true → starts s !! i = Some p → early p = false.
Proof.
  intros Hc Hs Hi. destruct (early p) eqn:E; [|done]. apply (c_early s Hc _ _ Hi) in E.
  by apply (so_settled _ _ (c_shut s Hc)) in Hs.
Qed.

Lemma start_calls_same s i s' : core s → start_step s i s' → calls_same s s'.
Proof.
  intros Hc Hs. pose proof (proj2 (c_prepared s Hc)) as Hprep.
  destruct Hs as [Hi|s1 err Hi He|p Hi Hp|p err Hi Hp|index err Hi|index err Hi|Hi|Hi Hacc|err Hi Hg|err Hi Hr|s1 Hi Ho|s1 err Hi Ho
    |Hi|err Hi Hg|index err Hi Hw|Hi Hr|err Hi|err Hi|err Hi Hd].
  all: try (by split; auto).
  - unfold start_enter in He. destruct (lstate (lc s)); simplify_eq; by split; auto.
  - destruct (Hprep _ _ Hi) as [Hk _]. split; simpl; auto. lia.
  - split; simpl; auto. intros H. by pose proof (settled_not_early _ _ _ Hc H Hi).
  - split; simpl; auto. intros _ [H1 H2]. split; simpl; [|done]. by intros w [= <-].
  - assert (Hse : settled (shut s) = true → False) by (intros H; by pose proof (settled_not_early _ _ _ Hc H Hi)).
    unfold start_open in Ho. case_match; simplify_eq. split; simpl; auto. by intros H1%Hse.
  - assert (s1 = s) as -> by (unfold start_open in Ho; case_match; by simplify_eq). by split; auto.
  - split; simpl; auto. intros _ [H1 H2]. split; simpl; [|done]. by intros w [= <-].
  - split; simpl; auto. intros _ [H1 H2]. split; simpl; [done|]. intros j w. rewrite lookup_insert_Some.
    intros [[_ <-]|[_ ?]]; [done|eauto].
  - destruct (begin_same s) as (E1 & E2 & E3 & E4 & E5 & E6 & E7 & E8 & E9 & E10 & E11 & E12 & E13).
    split; simpl; auto; [by apply begin_shut|lia|]. unfold workers_done; simpl. by rewrite E6, E7.
Qed.

Lemma stop_calls_same s i s' : core s → stop_step s i s' → calls_same s s'.
Proof.
  intros Hc Hs. destruct Hs; try (by split; auto).
  destruct (begin_same s) as (E1 & E2 & E3 & E4 & E5 & E6 & E7 & E8 & E9 & E10 & E11 & E12 & E13).
  split; simpl; auto; [by apply begin_shut|lia|]. unfold workers_done; simpl. by rewrite E6, E7.
Qed.

Lemma stopping_calls s s' : stopping s → calls_same s s' → stopping s'.
Proof.
  intros Hb [(E1 & E2 & E3 & _) [E4|[E4 [b E4']]] Hp _ _]; [by apply (stopping_same s)|].
  apply (stopping_frame s); rewrite ?E1, ?E2, ?E3; try done.
  - intros i. unfold called, limit. rewrite E4, E4'. simpl. done.
  - unfold todo_ok. by rewrite E4'.
  - pose proof (b_read s Hb). lia.
  - pose proof (b_fresh s Hb) as H. unfold fresh_ok in *. rewrite E4 in H. by rewrite E3, E4'.
Qed.

Lemma stopping_next s s' :
  stopping s → stopCalls s' = stopCalls s → tstops s' = tstops s → prepared (lc s') = prepared (lc s) →
  stoppedTransports (vars s') = stoppedTransports (vars s) → limit s' = limit s → uncalled (shut s) = [] → uncalled (shut s') = [] →
  todo_ok s' → fresh_ok s' → stopping s'.
Proof.
  intros Hb E1 E2 E3 E4 E5 E6 E7 Ht Hf. apply (stopping_frame s); try done.
  - by rewrite E2.
  - intros i. unfold called. by rewrite E5, E6, E7.
  - rewrite E3, E4. apply Hb.
Qed.

Lemma stopping_shut s p s' : core s → stopping s → shut s = p → shut_step s p s' → stopping s'.
Proof.
  intros Hc Hb Hp Hs. pose proof (b_read s Hb) as Hread. pose proof (proj1 (c_prepared s Hc)) as Hprep.
  pose proof (b_fresh s Hb) as Hf. unfold fresh_ok in Hf. rewrite Hp in Hf. destruct Hs; simpl in Hf; try destruct Hf as [Hf Hf'].
  all: try (apply (stopping_next s); simpl; try done; unfold limit; simpl; rewrite ?Hp; try done; fail).
  all: try (apply (stopping_next s); simpl; try done; unfold fresh_ok; simpl; try done; rewrite ?Hp; unfold limit; simpl;
            rewrite ?Hp; try done; fail).
  - apply (stopping_frame s); simpl; try done. intros i. unfold called, limit. rewrite Hp. done.
  - apply (stopping_frame s); simpl; try done.
    + intros i. unfold called, limit. simpl. rewrite Hp. simpl. rewrite stop_order_spec. lia.
    + split_and!; [apply stop_order_nodup| |done]. intros i. unfold limit; simpl. rewrite stop_order_spec. lia.
  - eapply (stopping_loop _ l _ l1 _ HStops1); try done; [|by left]. intros l0. unfold limit; simpl. by rewrite Hp.
  - apply (stopping_next s); simpl; try done; unfold limit; simpl; rewrite ?Hp; try done. simpl. rewrite H. by destruct (waiting l).
  - apply (stopping_frame s); simpl; try done.
    + intros i. unfold called, limit. simpl. rewrite Hp. simpl. rewrite stop_order_spec, elem_of_nil. lia.
    + split_and!; [apply stop_order_nodup| |done]. intros i. unfold limit; simpl. rewrite stop_order_spec. lia.
  - eapply (stopping_loop _ l _ l1 _ HStops); try done; [|by right]. intros l0. unfold limit; simpl. by rewrite Hp.
  - apply (stopping_next s); simpl; try done; unfold limit; simpl; rewrite ?Hp; try done. simpl. rewrite H. by destruct (waiting l).
  - apply (stopping_next s); simpl; try done; unfold limit; simpl; rewrite ?Hp; try done; by destruct err.
Qed.

Lemma stopping_env s s' : stopping s → env_step s s' → stopping s'.
Proof.
  intros Hb Hs. destruct Hs as [| | | | | | |i err Hi|]; try (by apply (stopping_same s)).
  apply (stopping_frame s); simpl; try done; try apply Hb.
  intros j. rewrite lookup_insert_is_Some'. split; [intros [<-|?]|]; auto.
Qed.

(** ** Invariant: no result of a stop is lost *)

Definition awaited (l : stop_loop) : list nat := if waiting l then take 1 (todo l) else [].

(** The transports whose [Stop] may still be running or unread. *)
Definition outstanding (s : sys) : list nat :=
  match shut s with
  | HNone | HWait _ | HRead | HListener1 | HBroadcaster1 => []
  | HStops1 l => awaited l ++ pending l
  | HJoinStart | HAdmission | HAuthentications | HGateways | HBroadcaster | HSessions | HDrain | HCloseConns
  | HTransports => lateStops1 (vars s)
  | HStops l => awaited l ++ pending l ++ lateStops1 (vars s)
  | HGrpc | HListener | HBackends | HAuthentications2 | HGateways2 | HBroadcaster2 | HDrainDone | HWorkers =>
      lateStops (vars s) ++ lateStops1 (vars s)
  | HLate late => late ++ lateStops1 (vars s)
  | HLate1 late => late
  | HFinish | HClose | HEnd => []
  end.

(** An error is on its way to the result of the shutdown. *)
Definition blamed (s : sys) : Prop :=
  match shut s with
  | HNone | HWait _ | HRead | HListener1 | HBroadcaster1 => False
  | HStops1 l | HStops l => preparationErr (vars s) ≠ None ∨ stopErr l ≠ None
  | HJoinStart | HAdmission | HAuthentications | HGateways | HBroadcaster | HSessions | HDrain | HCloseConns
  | HTransports => preparationErr (vars s) ≠ None
  | HLate1 _ | HFinish => total (vars s) ≠ None
  | HClose | HEnd => shutdownErr (lc s) ≠ None
  | _ => preparationErr (vars s) ≠ None ∨ transportErr (vars s) ≠ None
  end.

Definition accounted (s : sys) (i : nat) (x : transport_stop) : Prop :=
  match x with
  | SRun => i ∈ outstanding s
  | SDone None => True
  | SDone (Some _) => i ∈ outstanding s ∨ blamed s
  end.

Definition results (s : sys) : Prop := ∀ i x, tstops s !! i = Some x → accounted s i x.

Lemma join_none a b : join a b = None ↔ a = None ∧ b = None.
Proof. unfold join, errors_Join. destruct a, b; simpl; naive_solver. Qed.

Lemma errors_Join_none es : errors_Join es = None ↔ ∀ e, e ∈ es → e = None.
Proof.
  unfold errors_Join. split.
  - intros H e He. destruct e as [e|]; [|done]. exfalso. assert (Hin : e ∈ non_nil es); [|by destruct (non_nil es); [apply elem_of_nil in Hin|]].
    clear H. induction es as [|[e'|] es IH]; simpl; [by apply elem_of_nil in He| |].
    + apply elem_of_cons in He as [[= <-]|He]; [left|right; auto].
    + apply elem_of_cons in He as [|He]; [done|auto].
  - intros H. assert (non_nil es = []) as ->; [|done]. induction es as [|[e|] es IH]; simpl; [done| |].
    + specialize (H (Some e) (list_elem_of_here _ _)). done.
    + apply IH. intros e He. apply H. by right.
Qed.

Lemma results_mono s s' :
  results s → tstops s' = tstops s → (∀ i, i ∈ outstanding s → i ∈ outstanding s') → (blamed s → blamed s') → results s'.
Proof.
  intros Hr Et Ho Hb i x. rewrite Et. intros Hi. specialize (Hr i x Hi). destruct x as [|[e|]]; simpl in *; naive_solver.
Qed.

Lemma no_tstops s : stopping s → (match shut s with HNone | HWait _ | HRead | HListener1 | HBroadcaster1 => True | _ => False end) →
  ∀ i x, tstops s !! i ≠ Some x.
Proof.
  intros Hb Hs i x Hi. assert (Hc : called s i) by (apply (b_map s Hb); by exists x).
  destruct Hc as [Hc _]. unfold limit in Hc. destruct (shut s); try done; lia.
Qed.

Lemma results_calls s s' : stopping s → results s → calls_same s s' → results s'.
Proof.
  intros Hb Hr [(E1 & E2 & E3 & _) [E4|[E4 [b E4']]] _ E5 _].
  - apply (results_mono s); try done; [unfold outstanding; by rewrite E3, E4|]. unfold blamed. by rewrite E3, E4, E5.
  - intros i x. rewrite E2. intros Hi. exfalso. eapply no_tstops; [exact Hb|by rewrite E4|exact Hi].
Qed.

Lemma results_loop s l s1 l1 (mk : stop_loop → shutdown_pc) :
  results s → (mk = HStops1 ∨ mk = HStops) → shut s = mk l → loop_step s l s1 l1 → results (goto (mk l1) s1).
Proof.
  intros Hr Hmk Hs Hl.
  assert (Ho : ∀ s l, shut s = mk l → ∀ i, i ∈ outstanding s ↔ i ∈ awaited l ∨ i ∈ pending l ∨ (mk = HStops ∧ i ∈ lateStops1 (vars s))).
  { clear -Hmk. intros s l H i. unfold outstanding. rewrite H. destruct Hmk as [-> | ->]; rewrite !elem_of_app.
    - split; [intros [?|?]; auto|]. intros [?|[?|[E _]]]; auto. by apply (f_equal (λ f, f l)) in E.
    - split; [intros [?|[?|?]]; auto|]. intros [?|[?|[_ ?]]]; auto. }
  assert (Hb : ∀ s l, shut s = mk l → (blamed s ↔ preparationErr (vars s) ≠ None ∨ stopErr l ≠ None)).
  { clear -Hmk. intros s l H. unfold blamed. rewrite H. by destruct Hmk as [-> | ->]. }
  assert (Hj : ∀ a b, a ≠ None ∨ b ≠ None → join a b ≠ None) by (intros a b H E; apply join_none in E; naive_solver).
  destruct Hl as [i rest Hl Hw|i rest err Hl Hw Hd|i rest cause Hl Hw He].
  - intros j x. simpl. rewrite lookup_insert_Some. intros [[<- <-]|[Hne Hj']].
    + simpl. apply (Ho _ (l <| waiting := true |>)); [done|]. left. unfold awaited; simpl. rewrite Hl. left.
    + specialize (Hr j x Hj'). destruct x as [|[e|]]; simpl in *; try done.
      * rewrite (Ho _ l) in Hr by done. apply (Ho _ (l <| waiting := true |>)); [done|]. unfold awaited in *. rewrite Hw in Hr. set_solver.
      * rewrite (Ho _ l), (Hb _ l) in Hr by done. rewrite (Ho _ (l <| waiting := true |>)), (Hb _ (l <| waiting := true |>)) by done.
        unfold awaited in *. rewrite Hw in Hr. set_solver.
  - set (l1 := mkStopLoop rest false (rollback l) (join (stopErr l) err) (pending l)).
    intros j x Hj'. specialize (Hr j x Hj'). destruct x as [|[e|]]; simpl in *; try done.
    + rewrite (Ho _ l) in Hr by done. apply (Ho _ l1); [done|]. unfold awaited in *. rewrite Hw, Hl in Hr. simpl in *.
      rewrite list_elem_of_singleton in Hr. naive_solver.
    + rewrite (Ho _ l), (Hb _ l) in Hr by done. rewrite (Ho _ l1), (Hb _ l1) by done. simpl.
      unfold awaited in *. rewrite Hw, Hl in Hr. simpl in *. rewrite list_elem_of_singleton in Hr.
      destruct (decide (j = i)) as [->|Hne]; [right; right; apply Hj; right; rewrite Hd in Hj'; by simplify_eq|].
      destruct Hr as [[?|[?|?]]|[?|?]]; [done|auto|auto|auto|]. right. right. apply Hj. by left.
  - set (l1 := mkStopLoop rest false (rollback l) (join (stopErr l) (Some (wrap cause))) (pending l ++ [i])).
    assert (Hbl : blamed (goto (mk l1) s)) by (apply (Hb _ l1); [done|]; right; apply Hj; by right).
    intros j x Hj'. specialize (Hr j x Hj'). destruct x as [|[e|]]; simpl in *; try done; [|by right].
    rewrite (Ho _ l) in Hr by done. apply (Ho _ l1); [done|]. unfold awaited in *. rewrite Hw, Hl in Hr. simpl in *.
    rewrite list_elem_of_singleton in Hr. rewrite elem_of_app, list_elem_of_singleton. naive_solver.
Qed.

(** A late result is read. *)
Lemma results_late s s' i err rest :
  results s → tstops s !! i = Some (SDone err) → tstops s' = tstops s →
  (∀ j, j ∈ outstanding s ↔ j ∈ i :: rest) → (∀ j, j ∈ rest → j ∈ outstanding s') →
  (blamed s ∨ err ≠ None → blamed s') → results s'.
Proof.
  intros Hr Hd Et Ho Ho' Hb j x. rewrite Et. intros Hj. specialize (Hr j x Hj).
  destruct (decide (j = i)) as [->|Hne].
  - rewrite Hd in Hj. simplify_eq. destruct err as [e|]; simpl; [|done]. right. apply Hb. by right.
  - destruct x as [|[e|]]; simpl in *; rewrite ?Ho, ?elem_of_cons in Hr; naive_solver.
Qed.

Lemma join_some a b : a ≠ None ∨ b ≠ None → join a b ≠ None.
Proof. intros H E. apply join_none in E. naive_solver. Qed.

Lemma results_shut s p s' : stopping s → results s → shut s = p → shut_step s p s' → results s'.
Proof.
  intros Hb Hr Hp Hs.
  assert (Hno : (match p with HNone | HWait _ | HRead | HListener1 | HBroadcaster1 => True | _ => False end) →
                tstops s' = tstops s → results s').
  { intros Hq Et i x. rewrite Et. intros Hi. exfalso. eapply no_tstops; [exact Hb|by rewrite Hp|exact Hi]. }
  destruct Hs; try (apply Hno; done); clear Hno.
  all: try (apply (results_mono s); try done; unfold outstanding, blamed; simpl; rewrite ?Hp; try done; fail).
  - by eapply (results_loop _ l _ l1 HStops1); [done|left| |].
  - apply (results_mono s); try done; unfold outstanding, blamed; simpl; rewrite Hp.
    + unfold awaited. rewrite H. destruct (waiting l); set_solver.
    + intros. by apply join_some.
  - apply (results_mono s); try done; unfold outstanding, blamed; simpl; rewrite Hp; [set_solver|by left].
  - by eapply (results_loop _ l _ l1 HStops); [done|right| |].
  - apply (results_mono s); try done; unfold outstanding, blamed; simpl; rewrite Hp; [|done].
    unfold awaited. rewrite H. destruct (waiting l); set_solver.
  - apply (results_mono s); try done; unfold outstanding, blamed; simpl; rewrite Hp; destruct err; simpl; try done.
    intros [?|?]; [by left|]. right. apply join_some. by left.
  - apply (results_mono s); try done; unfold outstanding, blamed; simpl; rewrite Hp; try done.
    intros [?|?]; [by left|]. right. apply join_some. by left.
  - apply (results_late s _ i err (late ++ lateStops1 (vars s))); try done; unfold outstanding, blamed; simpl; rewrite ?Hp; try done.
    intros [[?|?]|?]; [by left|right..]; apply join_some; auto.
  - apply (results_mono s); try done; unfold outstanding, blamed; simpl; rewrite Hp; [done|].
    intros H. apply join_some. destruct H as [H|H]; [by left|right]. intros E. apply H.
    apply (proj1 (errors_Join_none _) E). set_solver.
  - apply (results_late s _ i err late); try done; unfold outstanding, blamed; simpl; rewrite ?Hp; try done.
    intros [?|?]; apply join_some; auto.
Qed.

Lemma results_env s s' : results s → env_step s s' → results s'.
Proof.
  intros Hr Hs. destruct Hs as [| | | | | | |i err Hi|]; try done.
  intros j x. simpl. rewrite lookup_insert_Some. intros [[<- <-]|[_ Hj]]; [|by apply Hr in Hj].
  apply Hr in Hi. destruct err; simpl; [|done]. left. exact Hi.
Qed.

(** Only a transport whose [Stop] was called is waited for. *)
Definition owed (s : sys) : Prop := ∀ i, i ∈ outstanding s → is_Some (tstops s !! i).

Lemma owed_mono s s' : owed s → tstops s' = tstops s → (∀ i, i ∈ outstanding s' → i ∈ outstanding s) → owed s'.
Proof. intros Ho Et H i Hi. rewrite Et. by apply Ho, H. Qed.

Lemma owed_calls s s' : owed s → calls_same s s' → owed s'.
Proof.
  intros Ho [(E1 & E2 & E3 & _) [E4|[E4 [b E4']]] _ _ _].
  - apply (owed_mono s); try done. unfold outstanding. by rewrite E3, E4.
  - intros i Hi. unfold outstanding in Hi. rewrite E4' in Hi. by apply elem_of_nil in Hi.
Qed.

Lemma owed_loop s l s1 l1 (mk : stop_loop → shutdown_pc) :
  owed s → (mk = HStops1 ∨ mk = HStops) → shut s = mk l → loop_step s l s1 l1 → owed (goto (mk l1) s1).
Proof.
  intros Ho Hmk Hp Hl. destruct Hl as [i rest Hl Hw|i rest err Hl Hw Hd|i rest cause Hl Hw He].
  - intros j Hj. simpl. rewrite lookup_insert_is_Some'. destruct (decide (i = j)); [by left|right]. apply Ho.
    revert Hj. unfold outstanding, awaited. rewrite Hp. destruct Hmk as [-> | ->]; simpl; rewrite Hl; set_solver.
  - apply (owed_mono s); [done|done|]. unfold outstanding, awaited. rewrite Hp. destruct Hmk as [-> | ->]; set_solver.
  - apply (owed_mono s); [done|done|]. unfold outstanding, awaited. rewrite Hp.
    destruct Hmk as [-> | ->]; simpl; rewrite Hw, Hl; set_solver.
Qed.

Lemma owed_shut s p s' : stopping s → owed s → shut s = p → shut_step s p s' → owed s'.
Proof.
  intros Hb Ho Hp Hs. pose proof (b_fresh s Hb) as Hf. unfold fresh_ok in Hf. rewrite Hp in Hf. destruct Hs.
  all: try (apply (owed_mono s); [done|done|]; unfold outstanding; simpl; rewrite ?Hp; set_solver).
  1,2: destruct Hf as [_ Hf]; intros i Hi; unfold outstanding in Hi; simpl in Hi; rewrite Hf in Hi; by apply elem_of_nil in Hi.
  - refine (owed_loop s l s1 l1 HStops1 Ho _ Hp H). by left.
  - refine (owed_loop s l s1 l1 HStops Ho _ Hp H). by right.
  - apply (owed_mono s); [done|done|]. unfold outstanding. simpl. rewrite Hp. by destruct err.
Qed.

Lemma owed_env s s' : owed s → env_step s s' → owed s'.
Proof.
  intros Ho Hs. destruct Hs as [| | | | | | |i err Hi|]; try done.
  intros j Hj. simpl. rewrite lookup_insert_is_Some'. right. by apply Ho.
Qed.

(** ** Invariant: what has come to rest *)

Definition after_auths (p : shutdown_pc) : bool :=
  match p with
  | HGateways2 | HBroadcaster2 | HDrainDone | HWorkers | HLate _ | HLate1 _ | HFinish | HClose | HEnd => true
  | _ => false
  end.
Definition after_drain (p : shutdown_pc) : bool :=
  match p with HWorkers | HLate _ | HLate1 _ | HFinish | HClose | HEnd => true | _ => false end.
Definition after_workers (p : shutdown_pc) : bool :=
  match p with HLate _ | HLate1 _ | HFinish | HClose | HEnd => true | _ => false end.

Record quiet (s : sys) : Prop := mkQuiet {
  q_auths : after_auths (shut s) = true → auths s = 0%nat;
  q_drain : drain_inv (drn s);
  q_drained : after_drain (shut s) = true → drainDone (drn s) = true;
  q_workers : after_workers (shut s) = true → workers_done s;
}.

Lemma after_workers_settled p : after_workers p = true → settled p = true.
Proof. by destruct p. Qed.

Lemma quiet_calls s s' : quiet s → calls_same s s' → quiet s'.
Proof.
  intros [Q1 Q2 Q3 Q4] [(E1 & E2 & E3 & E4 & E5) [E6|[E6 [b E7]]] _ _ Hw].
  - split; rewrite ?E4, ?E5, ?E6; try done. intros H. apply Hw; [by apply after_workers_settled|auto].
  - split; rewrite ?E4, ?E5, ?E7; done.
Qed.

Lemma quiet_same s s' :
  quiet s → auths s' = auths s → drn s' = drn s → grpc s' = grpc s → clients s' = clients s →
  (after_auths (shut s') = true → after_auths (shut s) = true ∨ auths s = 0%nat) →
  (after_drain (shut s') = true → after_drain (shut s) = true ∨ drainDone (drn s) = true) →
  (after_workers (shut s') = true → after_workers (shut s) = true ∨ workers_done s) → quiet s'.
Proof.
  intros [Q1 Q2 Q3 Q4] E1 E2 E3 E4 H1 H2 H3. split; rewrite ?E1, ?E2; try done.
  - intros H. destruct (H1 H); auto.
  - intros H. destruct (H2 H); auto.
  - intros H. unfold workers_done. rewrite E3, E4. destruct (H3 H) as [H'|H']; [apply Q4 in H'|]; exact H'.
Qed.

Lemma quiet_shut s p s' : quiet s → shut s = p → shut_step s p s' → quiet s'.
Proof.
  intros Hq Hp Hs. destruct Hs.
  all: repeat match goal with
       | Hl : loop_step _ _ _ _ |- _ =>
           destruct (loop_step_same _ _ _ _ Hl) as (_ & _ & _ & _ & _ & _ & E1 & E2 & E3 & _ & E4); clear Hl
       end.
  all: try (apply (quiet_same s); simpl; rewrite ?E1, ?E2, ?E3, ?E4, ?Hp; simpl; auto; done).
  destruct Hq as [Q1 Q2 Q3 Q4]. split; simpl; try done. apply start_drain_inv.
Qed.

Lemma quiet_env s s' : core s → quiet s → env_step s s' → quiet s'.
Proof.
  intros Hc [Q1 Q2 Q3 Q4] Hs. destruct Hs as [| |Ha|n Hn| |err Hg|i err Hi| |d Hd]; try (by split).
  - split; simpl; try done. intros H. exfalso. apply (c_admission s Hc) in Ha as (Ha & _). by rewrite Ha in H.
  - split; simpl; try done. intros H. apply Q1 in H. lia.
  - split; simpl; try done. intros H. destruct (Q4 H) as [H1 H2]. split; simpl; [by intros w [= <-]|done].
  - split; simpl; try done. intros H. destruct (Q4 H) as [H1 H2]. split; simpl; [done|]. intros j w. rewrite lookup_insert_Some.
    intros [[_ <-]|[_ ?]]; [done|eauto].
  - split; simpl; try done.
    + by eapply drain_step_inv.
    + intros H. apply Q3 in H. destruct Hd; done.
Qed.

(** ** Together *)

Record good (s : sys) : Prop := mkGood {
  g_core : core s;
  g_stopping : stopping s;
  g_results : results s;
  g_owed : owed s;
  g_quiet : quiet s;
}.

Lemma good_step s s' : good s → step s s' → good s'.
Proof.
  intros [Hc Hb Hr Ho Hq] Hs. assert (Hc' : core s') by (by eapply core_step). destruct Hs as [i s1 H|i s1 H|p s1 Hp H|s1 H].
  - pose proof (start_calls_same _ _ _ Hc H). split; [done|by eapply stopping_calls|by eapply results_calls|by eapply owed_calls|by eapply quiet_calls].
  - pose proof (stop_calls_same _ _ _ Hc H). split; [done|by eapply stopping_calls|by eapply results_calls|by eapply owed_calls|by eapply quiet_calls].
  - split; [done|by eapply (stopping_shut s)|by eapply results_shut|by eapply (owed_shut s)|by eapply quiet_shut].
  - split; [done|by eapply stopping_env|by eapply results_env|by eapply owed_env|by eapply (quiet_env s)].
Qed.

Lemma good_init : good s_init.
Proof.
  split.
  - split; simpl; try done; [|split; [lia|done]]. split; simpl; try done. auto.
  - assert (Hn : ∀ i, ¬ called s_init i) by (intros i [H _]; unfold limit in H; simpl in H; lia).
    split; try done. intros i. split; [by intros []|]. intros H. by apply Hn in H.
  - done.
  - by intros i ?%elem_of_nil.
  - split; simpl; try done. apply start_drain_inv.
Qed.

Lemma reach_good s : reach s → good s.
Proof.
  revert s. apply (invariant_reachable init_sys step good); [by intros s ->; apply good_init|].
  intros s s' _. apply good_step.
Qed.

(** ** Progress *)

Definition ends (s : sys) : Prop := ∃ s', rtc step s s' ∧ shut s' = HEnd.

Lemma ends_rtc s s1 : rtc step s s1 → ends s1 → ends s.
Proof. intros H (s' & H' & E). exists s'. split; [by etrans|done]. Qed.

Lemma good_rtc s s' : good s → rtc step s s' → good s'.
Proof. intros Hg H. induction H as [|s s1 s2 Hs _ IH]; [done|]. apply IH. by eapply good_step. Qed.

(** A step of the shutdown goroutine to where it is known to end. *)
Lemma ends_step s s1 p :
  good s → shut s = p → shut_step s p s1 → (∀ s, good s → shut s = shut s1 → ends s) → ends s.
Proof.
  intros Hg Hp Hs He. assert (Hst : step s s1) by (by eapply s_shut).
  eapply ends_rtc; [by apply rtc_once|]. apply He; [by eapply good_step|done].
Qed.

(** The authentications under way end. *)
Lemma auths_end s : rtc step s (s <| auths := 0%nat |>).
Proof.
  remember (auths s) as n eqn:En. revert s En. induction n as [|n IH]; intros s En.
  - replace (s <| auths := 0%nat |>) with s; [done|]. destruct s; simpl in *; by subst.
  - eapply rtc_l; [apply s_env, (e_auth_done _ n); done|]. exact (IH (s <| auths := n |>) eq_refl).
Qed.

Definition weight (x : drainer) : Z := match x with DFetch => 1 | DRun _ => 2 | DExit => 0 end.
Definition work (d : drain) : Z := 3 * Z.of_nat (sessions d - next d) + msum weight (drainers d).

(** The workers of a drain come to its end. *)
Lemma drain_ends d : drain_inv d → ∃ d', rtc drain_step d d' ∧ drainDone d' = true.
Proof.
  assert (Hw : ∀ x, 0 ≤ weight x) by (by intros []).
  assert (Hpos : ∀ d, 0 ≤ work d) by (intros d0; unfold work; pose proof (msum_nonneg weight (drainers d0) Hw); lia).
  remember (Z.to_nat (work d)) as n eqn:En. revert d En. induction (lt_wf n) as [n _ IH]. intros d En Hi.
  assert (Hgo : ∀ d1, drain_step d d1 → work d1 < work d → ∃ d', rtc drain_step d d' ∧ drainDone d' = true).
  { intros d1 Hs Hlt. destruct (IH (Z.to_nat (work d1))) with (d := d1) as (d' & Hr & Hd);
      [pose proof (Hpos d1); lia|done|by eapply drain_step_inv|].
    exists d'. split; [by eapply rtc_l|done]. }
  destruct (decide (0 < msum weight (drainers d))) as [Hp|Hp].
  - apply msum_pos_exists in Hp as (w & [|index|] & Hx & Hp); [| |done].
    + eapply Hgo; [by apply (d_fetch _ w)|]. unfold work; simpl. rewrite (msum_insert _ w DFetch) by done. simpl.
      destruct (Nat.ltb_spec (next d) (sessions d)); simpl; lia.
    + eapply Hgo; [by apply (d_drained _ w index)|]. unfold work; simpl. rewrite (msum_insert _ w (DRun index)) by done. simpl. lia.
  - destruct (drainDone d) eqn:Ed; [by exists d|]. exists (d <| drainDone := true |>). split; [|done].
    apply rtc_once, d_done; [done|]. intros w x Hx.
    pose proof (msum_lookup_le weight w x (drainers d) (λ _ x _, Hw x) Hx). destruct x; simpl in *; try done; lia.
Qed.

Lemma drain_lift s d : rtc drain_step (drn s) d → rtc step s (s <| drn := d |>).
Proof.
  remember (drn s) as d0 eqn:E. intros H. revert s E. induction H as [d|d d1 d2 Hs _ IH]; intros s ->.
  - destruct s; done.
  - eapply rtc_l; [apply s_env, (e_drain _ d1); done|]. exact (IH (s <| drn := d1 |>) eq_refl).
Qed.

(** The transports and the gRPC server return. *)

Lemma clients_end s : ∃ s', rtc step s s' ∧ shut s' = shut s ∧ grpc s' = grpc s ∧ ∀ i w, clients s' !! i = Some w → running w = false.
Proof.
  set (f := λ w, one (running w)). assert (Hf : ∀ w, 0 ≤ f w) by (intros; apply one_nonneg).
  remember (Z.to_nat (msum f (clients s))) as n eqn:En. revert s En. induction (lt_wf n) as [n _ IH]. intros s En.
  pose proof (msum_nonneg f (clients s) Hf). destruct (decide (0 < msum f (clients s))) as [Hp|Hp].
  - apply msum_pos_exists in Hp as (i & w & Hi & Hw). destruct w; try done.
    destruct (IH (Z.to_nat (msum f (clients (s <| clients := <[i := WSent None]> (clients s) |>))))) with
      (s := s <| clients := <[i := WSent None]> (clients s) |>) as (s' & Hr & Hs & Hg & Hc); [|done|].
    { pose proof (msum_lookup_le f i WRun (clients s) (λ _ x _, Hf x) Hi) as H1. unfold f in H1 at 1; simpl in H1.
      simpl. rewrite (msum_insert _ i WRun) by done. unfold f at 2 3; simpl. lia. }
    exists s'. split_and!; try done. eapply rtc_l; [apply s_env, (e_client _ i None); done|done].
  - exists s. split_and!; try done. intros i w Hi. pose proof (msum_lookup_le f i w (clients s) (λ _ x _, Hf x) Hi) as H1.
    unfold f in H1 at 1. destruct (running w); [|done]. unfold one in H1. lia.
Qed.

Lemma workers_end s : ∃ s', rtc step s s' ∧ shut s' = shut s ∧ workers_done s'.
Proof.
  destruct (clients_end s) as (s1 & H1 & E1 & Eg & Hc). destruct (grpc s1) as [[|r|]|] eqn:Ew.
  - exists (s1 <| grpc := Some (WSent None) |>). split_and!; [|done|].
    + eapply rtc_r; [done|]. by apply s_env, e_grpc.
    + split; simpl; [by intros w [= <-]|done].
  - exists s1. split_and!; try done. split; [|done]. rewrite Ew. by intros w [= <-].
  - exists s1. split_and!; try done. split; [|done]. rewrite Ew. by intros w [= <-].
  - exists s1. split_and!; try done. split; [|done]. by rewrite Ew.
Qed.

(** A [Stop] that was called returns. *)
Lemma tstop_end s i :
  is_Some (tstops s !! i) →
  ∃ s' err, rtc step s s' ∧ shut s' = shut s ∧ vars s' = vars s ∧ tstops s' !! i = Some (SDone err).
Proof.
  intros [[|err] Hi].
  - eexists _, _. split; [apply rtc_once, s_env, (e_tstop _ i None); done|]. simpl. by rewrite lookup_insert_eq.
  - by exists s, err.
Qed.

(** A start that still owns its resources hands them over. *)
Lemma handoff_go s i err :
  starts s !! i = Some (SHandoff err) → ∃ s', rtc step s s' ∧ shut s' = shut s ∧ startupDone (lc s') = Some true.
Proof. intros Hi. eexists. split; [by apply rtc_once, (s_start _ i), t_handoff|done]. Qed.

Lemma handoff_via s s1 i err :
  step s s1 → shut s1 = shut s → starts s1 !! i = Some (SHandoff err) →
  ∃ s', rtc step s s' ∧ shut s' = shut s ∧ startupDone (lc s') = Some true.
Proof. intros Hs E Hi. destruct (handoff_go s1 i err Hi) as (s' & Hr & E' & Hd). exists s'. split_and!; [by eapply rtc_l|congruence|done]. Qed.

Ltac hand i t := eapply (handoff_via _ _ i); [apply (s_start _ i); t|reflexivity|simpl; apply lookup_insert_eq].

Lemma handoff_prepare s i p (err0 : error) :
  starts s !! i = Some (SPrepare p) → runDone s = true →
  match p with PApp | PBefore _ | PPrepared _ _ => False | _ => True end →
  ∃ s', rtc step s s' ∧ shut s' = shut s ∧ startupDone (lc s') = Some true.
Proof. intros Hi Hr Hp. hand i ltac:(apply (t_prepare_err _ _ p err0); [done|by destruct p]). Qed.

Lemma handoff_app s i :
  starts s !! i = Some (SPrepare PApp) → runDone s = true →
  ∃ s', rtc step s s' ∧ shut s' = shut s ∧ startupDone (lc s') = Some true.
Proof.
  intros Hi Hr. destruct (validateApplication app) as [err|] eqn:E; [hand i ltac:(by apply (t_prepare_err _ _ PApp err))|].
  set (s1 := set_start i (SPrepare PListen) s).
  destruct (handoff_prepare s1 i PListen (ESentinel CtxCanceled)) as (s' & H1 & H2 & H3); [apply lookup_insert_eq|done|done|].
  exists s'. split_and!; [|done|done]. eapply rtc_l; [apply (s_start _ i), (t_prepare _ _ PApp); done|done].
Qed.

Lemma handoff_prepared s i index err :
  starts s !! i = Some (SPrepare (PPrepared index err)) → runDone s = true →
  ∃ s', rtc step s s' ∧ shut s' = shut s ∧ startupDone (lc s') = Some true.
Proof.
  intros Hi Hr. destruct err as [e|]; [hand i ltac:(by apply (t_prepared _ _ index (Some e)))|].
  set (s1 := set_start i (next_prepare (PPrepared index None)) (s <| lc := (lc s) <| prepared := S index |> |>)).
  assert (Hs : step s s1) by (apply (s_start _ i), (t_prepared _ _ index None); done).
  assert (Hp : ∃ q, starts s1 !! i = Some (SPrepare q) ∧ match q with PApp | PBefore _ | PPrepared _ _ => False | _ => True end).
  { unfold s1; simpl. rewrite lookup_insert_eq. destruct (S index <? ntransports)%nat; by eexists. }
  destruct Hp as (q & Hq & Hq'). destruct (handoff_prepare s1 i q (ESentinel CtxCanceled) Hq Hr Hq') as (s' & H1 & H2 & H3).
  exists s'. split_and!; [by eapply rtc_l|done|done].
Qed.

Lemma handoff_accepting s i :
  starts s !! i = Some SAccepting → runDone s = true →
  ∃ s', rtc step s s' ∧ shut s' = shut s ∧ startupDone (lc s') = Some true.
Proof. intros Hi Hr. hand i ltac:(by apply (t_cancelled _ _ (ESentinel CtxCanceled))). Qed.

Lemma start_hands_over s :
  core s → shut s ≠ HNone → startupDone (lc s) ≠ None →
  ∃ s', rtc step s s' ∧ shut s' = shut s ∧ startupDone (lc s') = Some true.
Proof.
  intros Hc Hs Hn. destruct (startupDone (lc s)) as [[|]|] eqn:Hd; [by exists s| |done].
  assert (Hr : runDone s = true) by (apply (c_cancel s Hc); [done|by rewrite Hd]).
  destruct (c_owner s Hc Hd) as (i & p & Hi & Ho). destruct p as [|p| | | | | |err| | |]; try done.
  - destruct p as [| | | | | |index|index err|]; try (by eapply (handoff_prepare s i _ (ESentinel CtxCanceled)));
      [by eapply handoff_app| |by eapply handoff_prepared].
    set (s1 := set_start i (SPrepare (PPrepared index (Some (ESentinel CtxCanceled)))) s).
    destruct (handoff_prepared s1 i index (Some (ESentinel CtxCanceled))) as (s' & H1 & H2 & H3); [apply lookup_insert_eq|done|].
    exists s'. split_and!; [|done|done]. eapply rtc_l; [apply (s_start _ i), t_before; done|done].
  - set (s1 := set_start i SAccepting (s <| grpc := Some WRun |>)).
    destruct (handoff_accepting s1 i) as (s' & H1 & H2 & H3); [apply lookup_insert_eq|done|].
    exists s'. split_and!; [|done|done]. eapply rtc_l; [apply (s_start _ i), t_spawn; done|done].
  - by eapply handoff_accepting.
  - hand i ltac:(eapply (t_open_err _ _ s); [done|unfold start_open; by rewrite Hr, orb_true_r]).
  - eexists. split; [by apply rtc_once, (s_start _ i), t_opened|done].
  - by eapply handoff_go.
Qed.

Definition ends_at (p : shutdown_pc) : Prop := ∀ s, good s → shut s = p → ends s.

(** Steps with nothing to wait for. *)
Lemma ends_now p p' (f : sys → sys) :
  (∀ s, shut_step s p (f s)) → (∀ s, shut (f s) = p') → ends_at p' → ends_at p.
Proof. intros Hs Hf He s Hg Hp. eapply ends_step; [done|exact Hp|apply Hs|]. rewrite Hf. exact He. Qed.

(** Steps after a wait. *)
Lemma ends_wait p p' (f : sys → sys) (ready : sys → Prop) :
  (∀ s, good s → shut s = p → ∃ s', rtc step s s' ∧ shut s' = shut s ∧ ready s') →
  (∀ s, ready s → shut_step s p (f s)) → (∀ s, shut (f s) = p') → ends_at p' → ends_at p.
Proof.
  intros Hw Hs Hf He s Hg Hp. destruct (Hw s Hg Hp) as (s1 & Hr & Es & Hrdy). eapply ends_rtc; [exact Hr|].
  eapply ends_step; [by eapply good_rtc|by rewrite Es|by apply Hs|]. rewrite Hf. exact He.
Qed.

Lemma drain_waits s : good s → ∃ s', rtc step s s' ∧ shut s' = shut s ∧ drainDone (drn s') = true.
Proof.
  intros Hg. destruct (drain_ends _ (q_drain s (g_quiet s Hg))) as (d & Hr & Hd). eexists. by split; [apply drain_lift|].
Qed.

Lemma auths_wait s : ∃ s', rtc step s s' ∧ shut s' = shut s ∧ auths s' = 0%nat.
Proof. eexists. by split; [apply auths_end|]. Qed.

Lemma ends_end : ends_at HEnd.
Proof. intros s _ Hs. by exists s. Qed.

Lemma ends_close : ends_at HClose.
Proof. eapply ends_now; [apply h_close| |apply ends_end]; done. Qed.

Lemma ends_finish : ends_at HFinish.
Proof. eapply ends_now; [apply h_finish| |apply ends_close]; done. Qed.

Lemma ends_late1 late : ends_at (HLate1 late).
Proof.
  induction late as [|i late IH]; [eapply ends_now; [apply h_late1_end| |apply ends_finish]; done|].
  intros s Hg Hp. destruct (tstop_end s i) as (s1 & err & Hr & Es & _ & Hd).
  { apply (g_owed s Hg). unfold outstanding. rewrite Hp. left. }
  eapply ends_rtc; [exact Hr|].
  eapply (ends_step s1 _ (HLate1 (i :: late))); [by eapply good_rtc|by rewrite Es|by apply (h_late1 _ i late err)|]. exact IH.
Qed.

Lemma ends_late late : ends_at (HLate late).
Proof.
  induction late as [|i late IH]; intros s Hg Hp.
  - eapply ends_step; [done|exact Hp|apply h_late_end|]. apply ends_late1.
  - destruct (tstop_end s i) as (s1 & err & Hr & Es & _ & Hd).
    { apply (g_owed s Hg). unfold outstanding. rewrite Hp. left. }
    eapply ends_rtc; [exact Hr|].
    eapply (ends_step s1 _ (HLate (i :: late))); [by eapply good_rtc|by rewrite Es|by apply (h_late _ i late err)|]. exact IH.
Qed.

Lemma ends_workers : ends_at HWorkers.
Proof.
  intros s Hg Hp. destruct (workers_end s) as (s1 & Hr & Es & Hw). eapply ends_rtc; [exact Hr|].
  eapply (ends_step s1 _ HWorkers); [by eapply good_rtc|by rewrite Es|by apply h_workers|]. apply ends_late.
Qed.

Lemma ends_draindone : ends_at HDrainDone.
Proof.
  apply (ends_wait _ HWorkers (goto HWorkers) (λ s, drainDone (drn s) = true));
    [by intros s Hg _; apply drain_waits|by intros; apply h_draindone|done|apply ends_workers].
Qed.

Lemma ends_broadcaster2 : ends_at HBroadcaster2.
Proof. eapply ends_now; [apply h_broadcaster2| |apply ends_draindone]; done. Qed.

Lemma ends_gateways2 : ends_at HGateways2.
Proof. eapply ends_now; [apply h_gateways2| |apply ends_broadcaster2]; done. Qed.

Lemma ends_auths2 : ends_at HAuthentications2.
Proof.
  apply (ends_wait _ HGateways2 (goto HGateways2) (λ s, auths s = 0%nat));
    [by intros s _ _; apply auths_wait|by intros; apply h_auths2|done|apply ends_gateways2].
Qed.

Lemma ends_backends : ends_at HBackends.
Proof. eapply ends_now; [apply h_backends| |apply ends_auths2]; done. Qed.

Lemma ends_listener : ends_at HListener.
Proof. eapply ends_now; [intros; apply (h_listener _ None)| |apply ends_backends]; done. Qed.

Lemma ends_grpc : ends_at HGrpc.
Proof. eapply ends_now; [intros; apply (h_grpc _ None)| |apply ends_listener]; done. Qed.

(** The loop of [stopClientTransports]. *)
Lemma ends_loop (mk : stop_loop → shutdown_pc) :
  (mk = HStops1 ∨ mk = HStops) →
  (∀ s l s1 l1, loop_step s l s1 l1 → shut_step s (mk l) (goto (mk l1) s1)) →
  (∀ l, todo l = [] → ends_at (mk l)) → ∀ l, ends_at (mk l).
Proof.
  intros Hmk Hstep Hend l. remember (todo l) as t eqn:Et. revert l Et. induction t as [|i rest IH]; intros l Et.
  { by apply Hend. }
  assert (Hwait : ∀ l, todo l = i :: rest → waiting l = true → ends_at (mk l)).
  { clear l Et. intros l El Hw s Hg Hp. destruct (tstop_end s i) as (s1 & err & Hr & Es & _ & Hd).
    { apply (g_owed s Hg). unfold outstanding, awaited. rewrite Hp. destruct Hmk as [-> | ->]; simpl; rewrite Hw, El; left. }
    eapply ends_rtc; [exact Hr|].
    eapply (ends_step s1 _ (mk l)); [by eapply good_rtc|by rewrite Es|by apply Hstep, (k_result _ _ i rest err)|].
    by apply IH. }
  destruct (waiting l) eqn:Ew; [by apply Hwait|]. intros s Hg Hp.
  eapply ends_step; [done|exact Hp|by apply Hstep, (k_spawn _ _ i rest)|]. by apply Hwait.
Qed.

Lemma ends_stops l : ends_at (HStops l).
Proof.
  revert l. apply ends_loop; [by right|by intros; apply h_stops|]. intros l Hl.
  eapply ends_now; [by intros; apply h_stops_end| |apply ends_grpc]; done.
Qed.

Lemma ends_transports : ends_at HTransports.
Proof. intros s Hg Hp. eapply ends_step; [done|exact Hp|apply h_transports|]. apply ends_stops. Qed.

Lemma ends_closeconns : ends_at HCloseConns.
Proof. eapply ends_now; [apply h_closeconns| |apply ends_transports]; done. Qed.

Lemma ends_drain : ends_at HDrain.
Proof.
  apply (ends_wait _ HTransports (goto HTransports) (λ s, drainDone (drn s) = true));
    [by intros s Hg _; apply drain_waits|by intros; apply h_drain|done|apply ends_transports].
Qed.

Lemma ends_sessions : ends_at HSessions.
Proof. eapply ends_now; [intros; apply (h_sessions _ 0%nat)| |apply ends_drain]; done. Qed.

Lemma ends_broadcaster : ends_at HBroadcaster.
Proof. eapply ends_now; [intros; apply (h_broadcaster _ None)| |apply ends_sessions]; done. Qed.

Lemma ends_gateways : ends_at HGateways.
Proof. eapply ends_now; [intros; apply (h_gateways _ None)| |apply ends_broadcaster]; done. Qed.

Lemma ends_auths : ends_at HAuthentications.
Proof.
  apply (ends_wait _ HGateways (goto HGateways) (λ s, auths s = 0%nat));
    [by intros s _ _; apply auths_wait|by intros; apply h_auths|done|apply ends_gateways].
Qed.

Lemma ends_admission : ends_at HAdmission.
Proof. eapply ends_now; [apply h_admission| |apply ends_auths]; done. Qed.

Lemma ends_joinstart : ends_at HJoinStart.
Proof.
  apply (ends_wait _ HAdmission (goto HAdmission) (λ s, startupDone (lc s) = Some true));
    [|by intros; apply h_joinstart|done|apply ends_admission].
  intros s Hg Hp. pose proof (so_wait _ _ (c_shut s (g_core s Hg))) as Hw. rewrite Hp in Hw.
  apply start_hands_over; [apply Hg|by rewrite Hp|by apply Hw].
Qed.

Lemma ends_stops1 l : ends_at (HStops1 l).
Proof.
  revert l. apply ends_loop; [by left|by intros; apply h_stops1|]. intros l Hl.
  eapply ends_now; [by intros; apply h_stops1_end| |apply ends_joinstart]; done.
Qed.

Lemma ends_broadcaster1 : ends_at HBroadcaster1.
Proof. intros s Hg Hp. eapply ends_step; [done|exact Hp|apply (h_broadcaster1 _ None)|]. apply ends_stops1. Qed.

Lemma ends_listener1 : ends_at HListener1.
Proof. eapply ends_now; [intros; apply (h_listener1 _ None)| |apply ends_broadcaster1]; done. Qed.

Lemma ends_read : ends_at HRead.
Proof. eapply ends_now; [apply h_read| |apply ends_listener1]; done. Qed.

Lemma ends_wait_start b : ends_at (HWait b).
Proof.
  destruct b; [|eapply ends_now; [apply h_nostart| |apply ends_admission]; done].
  apply (ends_wait _ HAdmission (goto HAdmission) (λ s, startupDone (lc s) = Some true));
    [|by intros; apply h_started|done|apply ends_admission].
  intros s Hg Hp. pose proof (so_wait _ _ (c_shut s (g_core s Hg))) as Hw. rewrite Hp in Hw. symmetry in Hw.
  apply start_hands_over; [apply Hg|by rewrite Hp|by apply bool_decide_eq_true in Hw].
Qed.

Lemma ends_all p : p ≠ HNone → ends_at p.
Proof.
  destruct p; intros H; [done|..].
  all: eauto using ends_wait_start, ends_read, ends_listener1, ends_broadcaster1, ends_stops1, ends_joinstart, ends_admission,
    ends_auths, ends_gateways, ends_broadcaster, ends_sessions, ends_drain, ends_closeconns, ends_transports, ends_stops,
    ends_grpc, ends_listener, ends_backends, ends_auths2, ends_gateways2, ends_broadcaster2, ends_draindone, ends_workers,
    ends_late, ends_late1, ends_finish, ends_close, ends_end.
Qed.

(** ** The theorems *)

Lemma once_shut s : good s → shutdownOnce (lc s) = true ↔ shut s ≠ HNone.
Proof. intros Hg. apply (so_once _ _ (c_shut s (g_core s Hg))). Qed.

(** A shutdown that has begun is never undone. *)
Lemma begun_step s s' : core s → step s s' → shut s ≠ HNone → shut s' ≠ HNone.
Proof.
  intros Hc Hst Hn. destruct Hst as [i s1 H|i s1 H|p s1 Hp H|s1 H].
  - destruct (start_calls_same _ _ _ Hc H) as [_ [->|[? _]] _ _ _]; done.
  - destruct (stop_calls_same _ _ _ Hc H) as [_ [->|[? _]] _ _ _]; done.
  - by destruct H.
  - by destruct H.
Qed.

Lemma begun_rtc s s' : good s → rtc step s s' → shut s ≠ HNone → shut s' ≠ HNone.
Proof.
  intros Hg Hr. induction Hr as [|s s1 s2 Hst _ IH]; [done|]. intros Hn.
  apply IH; [by eapply good_step|eapply begun_step; [apply Hg|done|done]].
Qed.

(** Admission is open only between a completed start and the shutdown: the
    server is started and its gRPC server accepts; and once a shutdown has begun, by [Stop] or by the end of [Start],
    admission never opens again. *)
Theorem gateway_admission_window s :
  reach s →
  (admission s = true → lstate (lc s) = _stStarted ∧ serving (lc s) = true ∧ accepting s = true ∧ shutdownOnce (lc s) = false) ∧
  (shutdownOnce (lc s) = true → ∀ s', rtc step s s' → admission s' = false).
Proof.
  intros Hr. pose proof (reach_good s Hr) as Hg. split.
  - intros Ha. destruct (c_admission s (g_core s Hg) Ha) as (Hs & Hl & Hv & Hc). split_and!; try done.
    destruct (shutdownOnce (lc s)) eqn:E; [|done]. by apply (once_shut s Hg) in E.
  - intros Ho s' Hs. pose proof (good_rtc _ _ Hg Hs) as Hg'. destruct (admission s') eqn:Ea; [|done].
    destruct (c_admission s' (g_core s' Hg') Ea) as (Hn & _). by apply (once_shut s Hg), (begun_rtc _ _ Hg Hs) in Ho.
Qed.

(** No transport is stopped twice, none while [Start] is still preparing
    it, and when the shutdown is done every one of them was stopped, those
    that were never prepared included. *)
Theorem transports_stopped_once s i :
  reach s →
  lsum (eqz i) (stopCalls s) ≤ 1 ∧
  (∀ j, starts s !! j = Some (SPrepare (PBefore i)) → lsum (eqz i) (stopCalls s) = 0) ∧
  (shutdownDone (lc s) = true → lsum (eqz i) (stopCalls s) = one (bool_decide (i < ntransports)%nat)).
Proof.
  intros Hr. pose proof (reach_good s Hr) as Hg. rewrite (b_calls s (g_stopping s Hg) i). split_and!.
  - unfold one. case_bool_decide; lia.
  - intros j Hj. rewrite bool_decide_false; [done|]. intros [Hlim _]. revert Hlim. unfold limit.
    pose proof (proj2 (c_prepared s (g_core s Hg)) _ _ Hj) as [Hk _]. pose proof (b_read s (g_stopping s Hg)) as Hread.
    destruct (settled (shut s)) eqn:Es; [by pose proof (settled_not_early s j _ (g_core s Hg) Es Hj)|].
    destruct (shut s); simpl in *; try done; lia.
  - intros Hd. apply (so_done _ _ (c_shut s (g_core s Hg))) in Hd. f_equal. apply bool_decide_ext.
    unfold called, limit. rewrite Hd. simpl. pose proof (not_elem_of_nil i). tauto.
Qed.

(** When the shutdown is done nothing is left: no authentication is under
    way and none can begin, the transports and the gRPC server have returned,
    every session it took over was drained exactly once, and no [Stop] of a
    transport is still running. *)
Theorem gateway_stopped_quiet s :
  reach s → shutdownDone (lc s) = true →
  lstate (lc s) = _stStopped ∧ admission s = false ∧ auths s = 0%nat ∧ workers_done s ∧
  (∀ i, lsum (eqz i) (drained (drn s)) = one (bool_decide (i < sessions (drn s))%nat)) ∧
  (∀ i, tstops s !! i ≠ Some SRun).
Proof.
  intros Hr Hd. pose proof (reach_good s Hr) as Hg. pose proof (c_shut s (g_core s Hg)) as Ho.
  assert (He : shut s = HEnd) by (by apply (so_done _ _ Ho)). destruct (g_quiet s Hg) as [Q1 Q2 Q3 Q4].
  rewrite He in Q1, Q3, Q4. split_and!; try (by auto).
  - pose proof (so_state _ _ Ho) as Hs. by rewrite He in Hs.
  - destruct (admission s) eqn:Ea; [|done]. destruct (c_admission s (g_core s Hg) Ea) as (Hn & _). congruence.
  - intros i. apply drain_done_all; auto.
  - intros i Hi. pose proof (g_results s Hg _ _ Hi) as H. unfold accounted, outstanding in H. rewrite He in H. by apply elem_of_nil in H.
Qed.

(** A failure to stop a transport is never swallowed: when the shutdown is
    done and the [Stop] of some transport returned an error, even long after
    its budget, [Start] and [Stop] report an error. *)
Theorem stop_failure_reported s i err :
  reach s → shutdownDone (lc s) = true → tstops s !! i = Some (SDone (Some err)) → shutdownErr (lc s) ≠ None.
Proof.
  intros Hr Hd Hi. pose proof (reach_good s Hr) as Hg.
  apply (so_done _ _ (c_shut s (g_core s Hg))) in Hd as He. pose proof (g_results s Hg _ _ Hi) as H.
  unfold accounted, outstanding, blamed in H. rewrite He in H. by destruct H as [?%elem_of_nil|].
Qed.

(** C30: A shutdown can always complete, whatever state it finds the start in:
    from every reachable state with the shutdown under way there are steps of
    the program that close [shutdownDone]. *)
Theorem shutdown_completes s :
  reach s → shutdownOnce (lc s) = true → ∃ s', rtc step s s' ∧ shutdownDone (lc s') = true.
Proof.
  intros Hr Ho. pose proof (reach_good s Hr) as Hg. apply (once_shut s Hg) in Ho.
  destruct (ends_all (shut s) Ho s Hg eq_refl) as (s' & Hs & He). exists s'. split; [done|].
  by apply (so_done _ _ (c_shut s' (g_core s' (good_rtc _ _ Hg Hs)))).
Qed.
End Lifecycle.

Module GatewayLifecycleExample.
Definition app1 : option AppInfo := Some (mkAppInfo "gate-1" "gateway").
Abbreviation Step := (step 1 app1).
Abbreviation Reach := (reach 1 app1).

Ltac take H tac :=
  let H' := fresh in
  lazymatch type of H with
  | Reach ?s =>
      eassert (H' : Step s _) by (tac; first [exact I|reflexivity|discriminate|vm_compute; reflexivity]);
      apply (reach_step _ _ _ _ H) in H'; cbn in H'; clear H; rename H' into H;
      change (reachable init_sys Step) with Reach in H
  end.

(** The steps of a [Start] that opens the gateway. *)
Ltac take_start H :=
  take H ltac:(eapply (s_start _ _ _ 0), t_call);
  take H ltac:(eapply (s_start _ _ _ 0), t_enter);
  take H ltac:(eapply (s_start _ _ _ 0), (t_prepare _ _ _ _ PApp));
  take H ltac:(eapply (s_start _ _ _ 0), (t_prepare _ _ _ _ PListen));
  take H ltac:(eapply (s_start _ _ _ 0), (t_prepare _ _ _ _ PEndpoint));
  take H ltac:(eapply (s_start _ _ _ 0), (t_prepare _ _ _ _ PPing));
  take H ltac:(eapply (s_start _ _ _ 0), (t_prepare _ _ _ _ PBroadcaster));
  take H ltac:(eapply (s_start _ _ _ 0), (t_prepare _ _ _ _ (PTransport 0))).

Ltac take_open H :=
  take H ltac:(eapply (s_start _ _ _ 0), (t_before _ _ _ _ 0 None));
  take H ltac:(eapply (s_start _ _ _ 0), (t_prepared _ _ _ _ 0 None));
  take H ltac:(eapply (s_start _ _ _ 0), (t_prepare _ _ _ _ PIdentity));
  take H ltac:(eapply (s_start _ _ _ 0), t_spawn);
  take H ltac:(eapply s_env, e_accept);
  take H ltac:(eapply (s_start _ _ _ 0), t_accepting);
  take H ltac:(eapply (s_start _ _ _ 0), t_open).

(** Every entry of a concrete table. *)
Ltac every :=
  let w := fresh in let x := fresh in let Hw := fresh in
  intros w x Hw; cbn in Hw;
  repeat (apply lookup_insert_Some in Hw as [[? <-]|[? Hw]]; [first [reflexivity|congruence]|]);
  first [by apply lookup_empty_Some in Hw|apply lookup_gset_to_gmap_Some in Hw; set_solver].

(** Admission is open and a client is authenticating. *)
Definition opened : sys :=
  mkSys (mkLifecycle _stStarted (Some false) 1 true false false None) false false true 1 true {[0%nat := SOpened]} ∅ (Some WRun)
    {[0%nat := WRun]} ∅ [] HNone locals0 (startSessionDrain 0).

Lemma reach_open_gateway : Reach opened.
Proof.
  assert (H : Reach s_init) by (by apply reach_init).
  take_start H. take_open H. take H ltac:(eapply s_env, e_auth). exact H.
Qed.

Lemma gateway_admission_window_witness :
  (admission opened = true →
   lstate (lc opened) = _stStarted ∧ serving (lc opened) = true ∧ accepting opened = true ∧ shutdownOnce (lc opened) = false) ∧
  (shutdownOnce (lc opened) = true → ∀ s', rtc Step opened s' → admission s' = false).
Proof. apply (gateway_admission_window 1 app1 opened reach_open_gateway). Defined.

(** The gateway was stopped with a session to drain and a transport that
    failed to stop, long after the budget. *)
Definition late_error : error := wrap (EText "accept loop").

Definition finished : sys :=
  mkSys (mkLifecycle _stStopped (Some true) 1 true true true
           (Some (EJoin [EJoin [ctxErr; EJoin [EJoin [EJoin [wrap ctxErr]]; late_error]]])))
    true true false 0 true {[0%nat := SServe]} {[3%nat := TWait]} (Some (WSent None)) {[0%nat := WSent None]}
    {[0%nat := SDone (Some late_error)]} [0%nat] HEnd
    (mkLocals None [] 0 None None None (Some (EJoin [EJoin [EJoin [wrap ctxErr]]; late_error])) [0%nat]
       (Some (EJoin [EJoin [ctxErr; EJoin [EJoin [EJoin [wrap ctxErr]]; late_error]]])))
    (mkDrain 1 2 {[0%nat := DExit]} [0%nat] true).

Lemma reach_finished : Reach finished.
Proof.
  assert (H : Reach s_init) by (by apply reach_init).
  take_start H. take_open H.
  take H ltac:(eapply (s_start _ _ _ 0), t_opened).
  take H ltac:(eapply (s_stop _ _ _ 3), p_call).
  take H ltac:(eapply (s_stop _ _ _ 3), p_begin).
  take H ltac:(eapply s_shut; [|eapply h_started]).
  take H ltac:(eapply s_shut; [|eapply h_admission]).
  take H ltac:(eapply s_shut; [|eapply h_auths]).
  take H ltac:(eapply s_shut; [|eapply (h_gateways _ _ None)]).
  take H ltac:(eapply s_shut; [|eapply (h_broadcaster _ _ None)]).
  take H ltac:(eapply s_shut; [|eapply (h_sessions _ _ 1)]).
  take H ltac:(eapply s_env, e_drain, (d_fetch _ 0)).
  take H ltac:(eapply s_env, e_drain, (d_drained _ 0)).
  take H ltac:(eapply s_env, e_drain, (d_fetch _ 0)).
  take H ltac:(eapply s_env, e_drain, d_done; [reflexivity|every]).
  take H ltac:(eapply s_shut; [|eapply h_drain]).
  take H ltac:(eapply s_shut; [|eapply h_transports]).
  take H ltac:(eapply s_shut; [|eapply h_stops, (k_spawn _ _ 0)]).
  take H ltac:(eapply s_env, e_expire).
  take H ltac:(eapply s_shut; [reflexivity|eapply h_stops, (k_timeout _ _ 0 _ ctxErr); [| |cbn; split]]).
  take H ltac:(eapply s_shut; [|eapply h_stops_end]).
  take H ltac:(eapply s_shut; [|eapply (h_grpc _ _ None)]).
  take H ltac:(eapply s_shut; [|eapply (h_listener _ _ None)]).
  take H ltac:(eapply s_shut; [|eapply h_backends]).
  take H ltac:(eapply s_shut; [|eapply h_auths2]).
  take H ltac:(eapply s_shut; [|eapply h_gateways2]).
  take H ltac:(eapply s_shut; [|eapply h_broadcaster2]).
  take H ltac:(eapply s_shut; [|eapply h_draindone]).
  take H ltac:(eapply s_env, (e_grpc _ None)).
  take H ltac:(eapply s_env, (e_client _ 0 None)).
  take H ltac:(eapply s_shut; [|eapply h_workers; split; [by intros w [= <-]|every]]).
  take H ltac:(eapply s_env, (e_tstop _ 0 (Some (EText "accept loop")))).
  take H ltac:(eapply s_shut; [|eapply (h_late _ _ 0)]).
  take H ltac:(eapply s_shut; [|eapply h_late_end]).
  take H ltac:(eapply s_shut; [|eapply h_late1_end]).
  take H ltac:(eapply s_shut; [|eapply h_finish]).
  take H ltac:(eapply s_shut; [|eapply h_close]).
  exact H.
Qed.

Lemma transports_stopped_once_witness :
  lsum (eqz 0%nat) (stopCalls finished) ≤ 1 ∧
  (∀ j, starts finished !! j = Some (SPrepare (PBefore 0)) → lsum (eqz 0%nat) (stopCalls finished) = 0) ∧
  (shutdownDone (lc finished) = true → lsum (eqz 0%nat) (stopCalls finished) = one (bool_decide (0 < 1)%nat)).
Proof. apply (transports_stopped_once 1 app1 finished 0 reach_finished). Defined.

Lemma gateway_stopped_quiet_witness :
  lstate (lc finished) = _stStopped ∧ admission finished = false ∧ auths finished = 0%nat ∧ workers_done finished ∧
  (∀ i, lsum (eqz i) (drained (drn finished)) = one (bool_decide (i < sessions (drn finished))%nat)) ∧
  (∀ i, tstops finished !! i ≠ Some SRun).
Proof. apply (gateway_stopped_quiet 1 app1 finished reach_finished). reflexivity. Defined.

Lemma stop_failure_reported_witness : shutdownErr (lc finished) ≠ None.
Proof. apply (stop_failure_reported 1 app1 finished 0 late_error reach_finished); reflexivity. Defined.

(** A shutdown whose budget ran out while the start was preparing a transport. *)
Definition interrupted : sys :=
  mkSys (mkLifecycle _stStopping (Some false) 0 false true false None) true true false 0 false
    {[0%nat := SPrepare (PBefore 0)]} {[3%nat := TWait]} None ∅ ∅ [] HRead locals0 (startSessionDrain 0).

Lemma reach_interrupted : Reach interrupted.
Proof.
  assert (H : Reach s_init) by (by apply reach_init).
  take_start H.
  take H ltac:(eapply (s_stop _ _ _ 3), p_call).
  take H ltac:(eapply (s_stop _ _ _ 3), p_begin).
  take H ltac:(eapply s_env, e_expire).
  take H ltac:(eapply s_shut; [|eapply h_expired]).
  exact H.
Qed.

Lemma shutdown_completes_witness : ∃ s', rtc Step interrupted s' ∧ shutdownDone (lc s') = true.
Proof. apply (shutdown_completes 1 app1 interrupted reach_interrupted). reflexivity. Defined.

(** C31: A rollback can report a failure nobody had: the start fails before it
    comes to the transport, the [Stop] of the transport returns no error
    within its budget, and yet the shutdown ends with [context canceled],
    because the goroutine that ran [Stop] cancels the context the select also
    waits for. *)
Theorem rollback_reports_cancel :
  ∃ s, Reach s ∧ shutdownDone (lc s) = true ∧ expired s = false ∧ tstops s !! 0%nat = Some (SDone None) ∧
       shutdownErr (lc s) = Some (EJoin [EJoin [EJoin [EJoin [EJoin [wrap (ESentinel CtxCanceled)]]]]]).
Proof.
  assert (H : Reach s_init) by (by apply reach_init).
  take H ltac:(eapply (s_start _ _ _ 0), t_call).
  take H ltac:(eapply (s_start _ _ _ 0), t_enter).
  take H ltac:(eapply (s_start _ _ _ 0), (t_prepare _ _ _ _ PApp)).
  take H ltac:(eapply (s_start _ _ _ 0), (t_prepare_err _ _ _ _ PListen (EText "listen"))).
  take H ltac:(eapply (s_start _ _ _ 0), t_handoff).
  take H ltac:(eapply (s_start _ _ _ 0), t_begin).
  take H ltac:(eapply s_shut; [|eapply h_started]).
  take H ltac:(eapply s_shut; [|eapply h_admission]).
  take H ltac:(eapply s_shut; [|eapply h_auths]).
  take H ltac:(eapply s_shut; [|eapply (h_gateways _ _ None)]).
  take H ltac:(eapply s_shut; [|eapply (h_broadcaster _ _ None)]).
  take H ltac:(eapply s_shut; [|eapply (h_sessions _ _ 0)]).
  take H ltac:(eapply s_shut; [|eapply h_drain]).
  take H ltac:(eapply s_shut; [|eapply h_transports]).
  take H ltac:(eapply s_shut; [|eapply h_stops, (k_spawn _ _ 0)]).
  take H ltac:(eapply s_env, (e_tstop _ 0 None)).
  take H ltac:(eapply s_shut; [reflexivity|eapply h_stops, (k_timeout _ _ 0 _ (ESentinel CtxCanceled)); [| |cbn; right; split; [|eexists]]]).
  take H ltac:(eapply s_shut; [|eapply h_stops_end]).
  take H ltac:(eapply s_shut; [|eapply (h_grpc _ _ None)]).
  take H ltac:(eapply s_shut; [|eapply (h_listener _ _ None)]).
  take H ltac:(eapply s_shut; [|eapply h_backends]).
  take H ltac:(eapply s_shut; [|eapply h_auths2]).
  take H ltac:(eapply s_shut; [|eapply h_gateways2]).
  take H ltac:(eapply s_shut; [|eapply h_broadcaster2]).
  take H ltac:(eapply s_shut; [|eapply h_draindone]).
  take H ltac:(eapply s_shut; [|eapply h_workers; split; [done|done]]).
  take H ltac:(eapply s_shut; [|eapply (h_late _ _ 0)]).
  take H ltac:(eapply s_shut; [|eapply h_late_end]).
  take H ltac:(eapply s_shut; [|eapply h_late1_end]).
  take H ltac:(eapply s_shut; [|eapply h_finish]).
  take H ltac:(eapply s_shut; [|eapply h_close]).
  eexists. split; [exact H|]. split_and!; reflexivity.
Qed.
End GatewayLifecycleExample.
