(* ===== verification/ClientOptions.v ===== *)
(** * Options of the two clients

    [network/tcp/client_options.go] and [network/websocket/client_options.go].
    An option only sets a field; everything is checked at the end, by a
    sequence of guards.  Proved: the settings that resolve are exactly the
    acceptable ones, whatever functions are given as options. *)

From S2P Require Import Prelude Errors Codec Network Endpoint Options WsServer.

(** ** A sequence of guards [if bad { return nil, err }] *)

Fixpoint guards (gs : list (bool * error)) : option error :=
  match gs with
  | [] => None
  | (bad, err) :: gs => if bad then Some err else guards gs
  end.

Lemma guards_none gs : guards gs = None ↔ Forall (λ g, g.1 = false) gs.
Proof.
  induction gs as [|[bad err] gs IH]; simpl; [done|]. rewrite Forall_cons; simpl. destruct bad; [naive_solver|]. rewrite IH. naive_solver.
Qed.

(** [for _, opt := range opts { opt(o) }] *)
Definition apply_all {O} (opts : list (O → O)) (o : O) : O := fold_left (λ o opt, opt o) opts o.

(** A handler is a number; the value of a map may be nil. *)
Definition handlers : Type := gmap Z (option nat).
Definition handler_of (m : handlers) (cmd : Z) : option nat := default None (m !! cmd).

(** [strings.Contains] *)
Fixpoint has_prefix (sep s : string) : bool :=
  match sep, s with
  | EmptyString, _ => true
  | String a sep, String b s => Ascii.eqb a b && has_prefix sep s
  | _, EmptyString => false
  end.
Fixpoint Contains (s sep : string) : bool :=
  has_prefix sep s || match s with EmptyString => false | String _ s => Contains s sep end.

Definition when {A} (o : option A) : bool := match o with Some _ => true | None => false end.

(** [fmt.Errorf(prefix + "%w", ValidateClient(c))] as a guard. *)
Definition tls_guard (format : string) (c : option tlsConfig) : bool * error :=
  match ValidateClient c with
  | Some err => (true, EWrap format [err])
  | None => (false, EText format)
  end.

Lemma tls_guard_false format c : (tls_guard format c).1 = false ↔ ValidateClient c = None.
Proof. unfold tls_guard. by destruct (ValidateClient c). Qed.

(** ** network/tcp/client_options.go *)

Module TcpClientOptions.
Definition _defaultAuthenticationTimeout : Z := 3 * Second.
Definition _defaultClientReadTimeout : Z := 15 * Second.
Definition _defaultClientWriteTimeout : Z := 10 * Second.
Definition _defaultCallbackQueueSize : Z := 64.

Record clientOptions := mkClientOptions {
  endpoint : string;
  serviceName : string;
  token : string;
  tlsConf : option tlsConfig;
  codec : option Codec;
  pushHandlers : handlers;
  kickHandler : option nat;
  disconnectFunc : option nat;
  connectFunc : option nat;
  pingInterval : Z;
  readTimeout : Z;
  writeTimeout : Z;
  requestTimeout : Z;
  callbackQueueSize : Z;
}.
#[export] Instance eta_clientOptions : Eta clientOptions := λ o,
  mkClientOptions (endpoint o) (serviceName o) (token o) (tlsConf o) (codec o) (pushHandlers o) (kickHandler o)
    (disconnectFunc o) (connectFunc o) (pingInterval o) (readTimeout o) (writeTimeout o) (requestTimeout o)
    (callbackQueueSize o).

Implicit Types o : clientOptions.
Definition WithAddress (v : string) o := o <| endpoint := v |>.
Definition WithServiceName (v : string) o := o <| serviceName := v |>.
Definition WithToken (v : string) o := o <| token := v |>.
Definition WithTLSConfig (v : option tlsConfig) o := o <| tlsConf := v |>.
Definition WithCodec (v : option Codec) o := o <| codec := v |>.
Definition WithPushHandler (v : handlers) o := o <| pushHandlers := v |>.
Definition WithKickHandler (v : option nat) o := o <| kickHandler := v |>.
Definition WithConnectFunc (v : option nat) o := o <| connectFunc := v |>.
Definition WithDisconnectFunc (v : option nat) o := o <| disconnectFunc := v |>.
Definition WithPingInterval (v : Z) o := o <| pingInterval := v |>.
Definition WithReadTimeout (v : Z) o := o <| readTimeout := v |>.
Definition WithWriteTimeout (v : Z) o := o <| writeTimeout := v |>.
Definition WithRequestTimeout (v : Z) o := o <| requestTimeout := v |>.
Definition WithCallbackQueueSize (v : Z) o := o <| callbackQueueSize := v |>.

Section Resolve.
Context (defaultCodec : Codec).

Definition defaults : clientOptions :=
  mkClientOptions "127.0.0.1:3101" EmptyString EmptyString None (Some defaultCodec) ∅ None None None (5 * Second)
    _defaultClientReadTimeout _defaultClientWriteTimeout (30 * Second) _defaultCallbackQueueSize.

(** The clones of the TLS configuration and of the map are equal to them. *)
Definition resolveClientOptions (opts : list (clientOptions → clientOptions)) : result clientOptions :=
  let o := apply_all opts defaults in
  match guards
    [(is_empty (endpoint o), EText "tcp: endpoint is required");
     (is_empty (serviceName o), EText "tcp: service name is required");
     (is_empty (token o), EText "tcp: token is required");
     (negb (when (codec o)), EText "tcp: codec is required");
     (pingInterval o <=? 0, EText "tcp: ping interval must be positive");
     (readTimeout o <=? 0, EText "tcp: read timeout must be positive");
     (readTimeout o <=? pingInterval o, EText "tcp: read timeout must exceed ping interval");
     (writeTimeout o <=? 0, EText "tcp: write timeout must be positive");
     (requestTimeout o <=? 0, EText "tcp: request timeout must be positive");
     (callbackQueueSize o <=? 0, EText "tcp: callback queue size must be positive");
     tls_guard "tcp: %w" (tlsConf o)] with
  | Some err => Err err
  | None => Ok o
  end.

(** What a client needs of its settings. *)
Record acceptable (o : clientOptions) : Prop := mkAcceptable {
  ac_target : endpoint o ≠ EmptyString ∧ serviceName o ≠ EmptyString ∧ token o ≠ EmptyString;
  ac_codec : codec o ≠ None;
  ac_read : 0 < pingInterval o < readTimeout o;
  ac_times : 0 < writeTimeout o ∧ 0 < requestTimeout o;
  ac_queue : 0 < callbackQueueSize o;
  ac_tls : ∀ c, tlsConf o = Some c → InsecureSkipVerify c = false;
}.
End Resolve.
End TcpClientOptions.

(** ** network/websocket/client_options.go *)

Module WsClientOptions.
Definition _webSocketScheme : string := "ws".
Definition _secureWebSocketScheme : string := "wss".
Definition _defaultCallbackQueueSize : Z := 64.
Definition DefaultPingInterval : Z := 15 * Second.
Definition DefaultRequestTimeout : Z := 30 * Second.

(** [target] is the endpoint once it is parsed. *)
Record clientOptions := mkClientOptions {
  tlsConf : option tlsConfig;
  timeout : Z;
  endpoint : string;
  target : option URL;
  serviceName : string;
  token : string;
  codec : option Codec;
  connectFunc : option nat;
  disconnectFunc : option nat;
  pushHandler : handlers;
  kickHandler : option nat;
  channel : option ChannelConfig;
  pingInterval : Z;
  requestTimeout : Z;
  callbackQueueSize : Z;
}.
#[export] Instance eta_clientOptions : Eta clientOptions := λ o,
  mkClientOptions (tlsConf o) (timeout o) (endpoint o) (target o) (serviceName o) (token o) (codec o) (connectFunc o)
    (disconnectFunc o) (pushHandler o) (kickHandler o) (channel o) (pingInterval o) (requestTimeout o) (callbackQueueSize o).

Implicit Types o : clientOptions.
Definition WithEndpoint (v : string) o := o <| endpoint := v |>.
Definition WithTimeout (v : Z) o := o <| timeout := v |>.
Definition WithToken (v : string) o := o <| token := v |>.
Definition WithServiceName (v : string) o := o <| serviceName := v |>.
Definition WithTLSConfig (v : option tlsConfig) o := o <| tlsConf := v |>.
Definition WithCodec (v : option Codec) o := o <| codec := v |>.
Definition WithChannelConfig (v : option ChannelConfig) o := o <| channel := v |>.
Definition WithPingInterval (v : Z) o := o <| pingInterval := v |>.
Definition WithRequestTimeout (v : Z) o := o <| requestTimeout := v |>.
Definition WithCallbackQueueSize (v : Z) o := o <| callbackQueueSize := v |>.
Definition WithConnectFunc (v : option nat) o := o <| connectFunc := v |>.
Definition WithDisconnectFunc (v : option nat) o := o <| disconnectFunc := v |>.
Definition WithPushHandler (v : handlers) o := o <| pushHandler := v |>.
Definition WithKickHandler (v : option nat) o := o <| kickHandler := v |>.

(** [o.endpoint = u.String()] *)
Definition with_target (u : URL) o := o <| target := Some u |>.

Section Resolve.
Context (defaultCodec : Codec).
Context (Parse : string → option URL).      (* url.Parse *)

Definition defaults : clientOptions :=
  mkClientOptions None (3 * Second) "ws://127.0.0.1:3102" None EmptyString EmptyString (Some defaultCodec) None None ∅ None
    (Some defaultChannelConfig) DefaultPingInterval DefaultRequestTimeout _defaultCallbackQueueSize.

Definition parseURL (endpoint : string) (insecure : bool) : result URL :=
  let endpoint := if Contains endpoint "://" then endpoint
                  else if insecure then (_webSocketScheme +:+ "://" +:+ endpoint)%string
                  else (_secureWebSocketScheme +:+ "://" +:+ endpoint)%string in
  match Parse endpoint with
  | None => Err (EText "WebSocket endpoint must use ws or wss with a host")
  | Some u =>
      if is_empty (Host_ u)
         || negb (String.eqb (Scheme u) _webSocketScheme) && negb (String.eqb (Scheme u) _secureWebSocketScheme)
      then Err (EText "WebSocket endpoint must use ws or wss with a host")
      else Ok u
  end.

Definition readDeadline o : Z := match channel o with Some c => ReadDeadline c | None => 0 end.

Definition channel_guard o : bool * error :=
  match validate (channel o) with Some err => (true, err) | None => (false, EText "websocket: channel") end.

Definition resolveClientOptions (opts : list (clientOptions → clientOptions)) : result clientOptions :=
  let o := apply_all opts defaults in
  match guards
    [(negb (when (codec o)), EText "websocket: codec is required");
     channel_guard o;
     (timeout o <=? 0, EText "websocket: authentication timeout must be positive");
     (pingInterval o <=? 0, EText "websocket: ping interval must be positive");
     (readDeadline o <=? pingInterval o, EText "websocket: ping interval must be shorter than channel read deadline");
     (requestTimeout o <=? 0, EText "websocket: request timeout must be positive");
     (is_empty (serviceName o), EText "websocket: service name is required");
     (is_empty (token o), EText "websocket: token is required");
     (callbackQueueSize o <=? 0, EText "websocket: callback queue size must be positive");
     tls_guard "websocket: %w" (tlsConf o)] with
  | Some err => Err err
  | None =>
      match parseURL (endpoint o) (negb (when (tlsConf o))) with
      | Err err => Err (EWrap "%w: %w" [ESentinel ErrInvalidURL; err])
      | Ok u =>
          if when (tlsConf o) && negb (String.eqb (Scheme u) _secureWebSocketScheme)
          then Err (EText "websocket: TLS config requires a wss endpoint")
          else Ok (with_target u o)
      end
  end.

Record acceptable (o : clientOptions) : Prop := mkAcceptable {
  ac_codec : codec o ≠ None;
  ac_channel : ∃ c, channel o = Some c ∧ 0 < WriteTimeout c ∧ 0 < SendQueueSize c ∧ 0 < pingInterval o < ReadDeadline c;
  ac_times : 0 < timeout o ∧ 0 < requestTimeout o;
  ac_target : serviceName o ≠ EmptyString ∧ token o ≠ EmptyString;
  ac_queue : 0 < callbackQueueSize o;
  ac_tls : ∀ c, tlsConf o = Some c → InsecureSkipVerify c = false;
}.

(** Where the client connects: with TLS only to a wss address. *)
Record reachable_target (o : clientOptions) (u : URL) : Prop := mkTarget {
  tg_host : Host_ u ≠ EmptyString;
  tg_scheme : Scheme u = "wss" ∨ (Scheme u = "ws" ∧ tlsConf o = None);
}.
End Resolve.
End WsClientOptions.

(** ** Properties *)

Lemma is_empty_false v : is_empty v = false ↔ v ≠ EmptyString.
Proof. unfold is_empty. destruct v; simpl; naive_solver. Qed.

Lemma when_false {A} (o : option A) : negb (when o) = false ↔ o ≠ None.
Proof. destruct o; simpl; naive_solver. Qed.

Lemma ValidateClient_none c : ValidateClient c = None ↔ ∀ x, c = Some x → InsecureSkipVerify x = false.
Proof.
  destruct c as [x|]; simpl; [|naive_solver].
  destruct (InsecureSkipVerify x) eqn:E; split; [done| |intros _ y [= <-]; done|done]. intros H. rewrite (H x eq_refl) in E. done.
Qed.

Lemma validate_none c :
  validate c = None ↔ ∃ x, c = Some x ∧ 0 < WriteTimeout x ∧ 0 < ReadDeadline x ∧ 0 < SendQueueSize x.
Proof.
  destruct c as [x|]; simpl; [|naive_solver]. split.
  - repeat case_match; try done. to_prop. intros _. exists x. split_and!; done || lia.
  - intros (y & [= <-] & H1 & H2 & H3). by repeat (rewrite (proj2 (Z.leb_gt _ _)) by done).
Qed.

Lemma channel_guard_false o : (WsClientOptions.channel_guard o).1 = false ↔ validate (WsClientOptions.channel o) = None.
Proof. unfold WsClientOptions.channel_guard. by destruct (validate _). Qed.

Lemma acceptable_target u o : WsClientOptions.acceptable o → WsClientOptions.acceptable (WsClientOptions.with_target u o).
Proof. by intros []. Qed.

Lemma parseURL_target Parse o u :
  WsClientOptions.parseURL Parse (WsClientOptions.endpoint o) (negb (when (WsClientOptions.tlsConf o))) = Ok u →
  when (WsClientOptions.tlsConf o) && negb (String.eqb (Scheme u) "wss") = false →
  WsClientOptions.reachable_target (WsClientOptions.with_target u o) u.
Proof.
  unfold WsClientOptions.parseURL, WsClientOptions._webSocketScheme, WsClientOptions._secureWebSocketScheme.
  intros H Ht. destruct (Parse _) as [v|]; [|done].
  destruct (is_empty (Host_ v)) eqn:Eh; [done|]. apply is_empty_false in Eh. cbn [orb] in H.
  destruct (negb _ && negb _) eqn:Es; [done|]. injection H as ->. split; simpl; [done|].
  destruct (String.eqb_spec (Scheme u) "wss") as [|Hn]; [by left|right].
  destruct (String.eqb_spec (Scheme u) "ws"); [|done]. split; [done|]. by destruct (WsClientOptions.tlsConf o).
Qed.

(** The options of a TCP client resolve exactly when the settings they
    leave are acceptable: addressed and credentialed, with a codec, a read
    timeout longer than the ping interval, positive times and a positive
    callback queue, and never with certificate verification turned off; the
    settings are then used as they are.  An option may be any function. *)
Theorem tcp_client_options_exact defaultCodec opts :
  let o := apply_all opts (TcpClientOptions.defaults defaultCodec) in
  (TcpClientOptions.acceptable o → TcpClientOptions.resolveClientOptions defaultCodec opts = Ok o) ∧
  (∀ o', TcpClientOptions.resolveClientOptions defaultCodec opts = Ok o' → o' = o ∧ TcpClientOptions.acceptable o').
Proof.
  intros o. unfold TcpClientOptions.resolveClientOptions. fold o. cbv zeta.
  match goal with |- context [guards ?gs] => assert (Hg : guards gs = None ↔ TcpClientOptions.acceptable o) end.
  { rewrite guards_none, !Forall_cons, Forall_nil, tls_guard_false, ValidateClient_none; cbn [fst].
    rewrite !is_empty_false, when_false, !Z.leb_gt. split; [intros (?&?&?&?&?&?&?&?&?&?&?&_)|intros []]; [split|];
      naive_solver lia. }
  split.
  - intros H. by rewrite (proj2 Hg H).
  - intros o' H. destruct (guards _); [done|]. simplify_eq. split; [done|]. by apply Hg.
Qed.

(** The options of a WebSocket client resolve only to acceptable settings
    and an address with a host, over TLS if a TLS configuration is given; and
    every acceptable setting with such an address resolves. *)
Theorem ws_client_options_exact defaultCodec Parse opts :
  let o := apply_all opts (WsClientOptions.defaults defaultCodec) in
  (∀ u, WsClientOptions.acceptable o →
        WsClientOptions.parseURL Parse (WsClientOptions.endpoint o) (negb (when (WsClientOptions.tlsConf o))) = Ok u →
        WsClientOptions.reachable_target o u →
        WsClientOptions.resolveClientOptions defaultCodec Parse opts = Ok (WsClientOptions.with_target u o)) ∧
  (∀ o', WsClientOptions.resolveClientOptions defaultCodec Parse opts = Ok o' →
         WsClientOptions.acceptable o' ∧ ∃ u, WsClientOptions.target o' = Some u ∧ WsClientOptions.reachable_target o' u).
Proof.
  intros o. unfold WsClientOptions.resolveClientOptions. fold o. cbv zeta.
  match goal with |- context [guards ?gs] => assert (Hg : guards gs = None ↔ WsClientOptions.acceptable o) end.
  { rewrite guards_none, !Forall_cons, Forall_nil, tls_guard_false, ValidateClient_none; cbn [fst].
    rewrite !is_empty_false, when_false, !Z.leb_gt, channel_guard_false, validate_none. unfold WsClientOptions.readDeadline.
    split; [intros (?&(c&E&?&?&?)&?&?&?&?&?&?&?&?&_); rewrite E in *|intros [? (c&E&?&?&?) ? ? ? ?]; rewrite E in *];
      [split|]; naive_solver lia. }
  split.
  - intros u H Hu [_ Ht]. rewrite (proj2 Hg H), Hu.
    destruct Ht as [->|[-> ->]]; simpl; [by rewrite andb_false_r|done].
  - intros o' H. destruct (guards _); [done|]. destruct (WsClientOptions.parseURL _ _ _) as [u|] eqn:Eu; [|done].
    destruct (when _ && _) eqn:Ew; [done|]. simplify_eq. split; [by apply acceptable_target, Hg|].
    exists u. split; [done|]. by apply (parseURL_target Parse).
Qed.
