(* ===== verification/ClientCore.v ===== *)
(** * What the two clients share

    [network/tcp/client.go] and [network/websocket/client.go] are built from
    the same parts in the same way: a callback queue with one worker, a
    tracker of pending requests, a read loop that dispatches frames, and
    [shutdownWith], which ends all of it once.  This file composes [Queue] and
    [Tracker] into that core; the transport below it (the writer, the
    heartbeat, the socket) is added by TcpClient and WsClient, which refine
    the core.  Proved: callbacks run in the order the frames arrived, with the
    kick and the disconnect last; when a close returns, no request is left
    waiting; and a close always ends, with every terminal callback run. *)

From S2P Require Import Prelude Errors Proto Inbound Queue Tracker ClientOptions.

(** A function given by the user is a number. *)
Inductive callback :=
| CConnect (f : nat)
| CPush (h : nat) (body : bytes)
| CKick (h : nat) (code : Z)
| CDisconnect (f : nat).

(** The read loop; [RAwait]: inside the [shutdownWith] of a kick, [RLeave]:
    on the way to the last [shutdownWith]. *)
Inductive reader := RLoop | RGot (p : Proto) | RAwait (i : nat) | RLeave | RStop.

(** The function [closeOnce] runs, in front of each of its statements. *)
Inductive closing :=
| XBegin (before : option callback)
| XClose (rel : @release callback)          (* close(c.done), markClosed *)
| XConn (rel : @release callback)           (* conn.Close *)
| XFail (rel : @release callback)
| XFailing (rel : @release callback).

Inductive onceState := OnceNew | OnceRunning (i : nat) (x : closing) | OnceDone.

(** A call of [shutdownWith]. *)
Inductive call :=
| KEnter (before : option callback)
| KInside                                   (* it runs the function of the once *)
| KRelease (rel : @release callback)        (* finishCallbacks() *)
| KReturned.

(** [early]: the pushes that arrived before the authentication reply;
    [incoming]: the frames read since; [direct]: terminal callbacks run by a
    caller of [shutdownWith] itself. *)
Record core := mkCore {
  cbs : @Queue.sys callback;
  trk : Tracker.sys;
  params : gmap nat (Z * bytes);
  once : onceState;
  calls : gmap nat call;
  rdr : reader;
  connClosed : bool;
  early : list Proto;
  incoming : list Proto;
  direct : list callback;
}.
#[export] Instance eta_core : Eta core := λ s,
  mkCore (cbs s) (trk s) (params s) (once s) (calls s) (rdr s) (connClosed s) (early s) (incoming s) (direct s).

Section Core.
Context (pushHandlers : handlers) (kickHandler connectFunc disconnectFunc : option nat).
Context (failErr : error).     (* what the pending requests are told *)
Context (again : bool).        (* the read loop ends with a shutdownWith of its own *)
Context (own : bool).          (* the transport can close before the client does *)

(** [func() { handler(body) }], if there is a handler. *)
Definition push_callback (p : Proto) : option callback :=
  (λ h, CPush h (Body p)) <$> handler_of pushHandlers (Cmd p).

Definition initialCallbacks (pending : list Proto) : list callback :=
  option_list (CConnect <$> connectFunc) ++ omap push_callback pending.

Definition kick_callback (p : Proto) : option callback := (λ h, CKick h (Code p)) <$> kickHandler.

Definition terminals (before : option callback) : list callback :=
  option_list before ++ option_list (CDisconnect <$> disconnectFunc).

(** The callbacks a sequence of frames gives rise to. *)
Definition pushes (ps : list Proto) : list callback :=
  omap (λ p, if Op p =? OpPush then push_callback p else None) ps.

(** [c.callbacks.Submit] and [c.callbacks.BeginTermination]. *)
Definition submit (c : callback) (s : Queue.sys) : Queue.sys * option error :=
  let '(q, err) := Queue.Submit (Some c) (queue s) in
  (s <| queue := q |> <| accepted := accepted s ++ (if err is None then [c] else []) |>, err).

Definition begin_termination (ts : list callback) (s : Queue.sys) : Queue.sys * release :=
  let '(q, rel) := Queue.BeginTermination (Some <$> ts) (queue s) in
  (match rel with
   | OpenGate => s <| queue := q |> <| releasable := true |> <| plan := ts |>
   | _ => s <| queue := q |>
   end, rel).

Definition closedT (s : core) : bool := Tracker.closed (trk s).

Definition set_call (i : nat) (k : call) (s : core) : core := s <| calls := <[i := k]> (calls s) |>.

(** [shutdownWith], called by [i]. *)
Inductive call_step (s : core) (i : nat) : core → Prop :=
| c_first before :
    calls s !! i = Some (KEnter before) → once s = OnceNew →
    call_step s i (set_call i KInside (s <| once := OnceRunning i (XBegin before) |>))
| c_late before : calls s !! i = Some (KEnter before) → once s = OnceDone → call_step s i (set_call i KReturned s)
| c_begin before q rel :
    once s = OnceRunning i (XBegin before) → begin_termination (terminals before) (cbs s) = (q, rel) →
    call_step s i (s <| cbs := q |> <| once := OnceRunning i (XClose rel) |>)
| c_close rel :
    once s = OnceRunning i (XClose rel) →
    call_step s i (s <| trk := (trk s) <| Tracker.closed := true |> |> <| once := OnceRunning i (XConn rel) |>)
| c_conn rel :
    once s = OnceRunning i (XConn rel) →
    call_step s i (s <| connClosed := true |> <| once := OnceRunning i (XFail rel) |>)
| c_fail rel :
    once s = OnceRunning i (XFail rel) →
    call_step s i (s <| trk := (trk s) <| failing := FRange (pending (tr (trk s))) failErr |> |>
                     <| once := OnceRunning i (XFailing rel) |>)
| c_visit rel snap k p m r :
    once s = OnceRunning i (XFailing rel) → failing (trk s) = FRange snap failErr →
    CompareAndDelete (pending (tr (trk s))) k p = (m, true) → reqs (trk s) !! p = Some r →
    call_step s i (s <| trk := set_req (set_pending (trk s) m) p (r <| taker := Some (CFail failErr) |>) |>)
| c_visited rel snap :
    once s = OnceRunning i (XFailing rel) → failing (trk s) = FRange snap failErr →
    (∀ k p, snap !! k = Some p → pending (tr (trk s)) !! k ≠ Some p) →
    call_step s i (set_call i (KRelease rel) (s <| trk := (trk s) <| failing := FDone |> |> <| once := OnceDone |>))
| c_release rel :
    calls s !! i = Some (KRelease rel) →
    call_step s i (set_call i KReturned
                     (match rel with
                      | NoRelease => s
                      | InvokeDirectly ts => s <| direct := direct s ++ ts |>
                      | OpenGate => s <| cbs := (cbs s) <| ready := true |> |>
                      end)).

(** Everything else the transport has no part in. *)
Inductive free_step (s : core) : core → Prop :=
| f_worker q : Queue.worker_step (cbs s) q → free_step s (s <| cbs := q |>)
| f_deliver p r c :
    reqs (trk s) !! p = Some r → taker r = Some c → done r = [] →
    free_step s (s <| trk := set_req (trk s) p (r <| taker := None |> <| done := [c] |>) |>)
| f_request_start p command body :
    reqs (trk s) !! p = None →
    free_step s (s <| trk := set_req (trk s) p (mkReq 0 BDraw [] None) |> <| params := <[p := (command, body)]> (params s) |>)
| f_request p r t :
    reqs (trk s) !! p = Some r → pc r ≠ BSend → Tracker.caller_step (trk s) p t → free_step s (s <| trk := t |>)
| f_frame p : rdr s = RLoop → free_step s (s <| rdr := RGot p |> <| incoming := incoming s ++ [p] |>)
| f_read_error : rdr s = RLoop → free_step s (s <| rdr := RLeave |>)
| f_push_unhandled p :
    rdr s = RGot p → Op p = OpPush → push_callback p = None → free_step s (s <| rdr := RLoop |>)
| f_push p c q err :
    rdr s = RGot p → Op p = OpPush → push_callback p = Some c → submit c (cbs s) = (q, err) →
    free_step s (s <| cbs := q |> <| rdr := match err with None => RLoop | Some _ => RLeave end |>)
| f_response p t q c r :
    rdr s = RGot p → Op p = OpResponse → Resolve (tr (trk s)) p = (t, Some (q, c)) → reqs (trk s) !! q = Some r →
    free_step s (s <| trk := set_req ((trk s) <| tr := t |>) q (r <| taker := Some c |>) |> <| rdr := RLoop |>)
| f_response_late p t :
    rdr s = RGot p → Op p = OpResponse → Resolve (tr (trk s)) p = (t, None) → free_step s (s <| rdr := RLoop |>)
| f_kick p i :
    rdr s = RGot p → Op p = OpKick → calls s !! i = None →
    free_step s (set_call i (KEnter (kick_callback p)) (s <| rdr := if again then RAwait i else RStop |>))
| f_await i : rdr s = RAwait i → calls s !! i = Some KReturned → free_step s (s <| rdr := RLeave |>)
| f_other p :
    rdr s = RGot p → Op p ≠ OpHeartbeatReply → Op p ≠ OpPush → Op p ≠ OpResponse → Op p ≠ OpKick →
    free_step s (s <| rdr := RLoop |>)
| f_close i : calls s !! i = None → free_step s (set_call i (KEnter None) s)
| f_call i s' : call_step s i s' → free_step s s'.

(** What it does together with the transport. *)
Inductive sync_step (s : core) : core → Prop :=
| y_send p r :
    reqs (trk s) !! p = Some r → pc r = BSend → closedT s = false →
    sync_step s (s <| trk := set_req (trk s) p (r <| pc := BWait |>) |>)
| y_send_err p r :
    reqs (trk s) !! p = Some r → pc r = BSend → sync_step s (s <| trk := set_req (trk s) p (r <| pc := BCancel |>) |>)
| y_reply p : rdr s = RGot p → Op p = OpHeartbeatReply → sync_step s (s <| rdr := RLoop |>)
| y_reply_bad p : rdr s = RGot p → Op p = OpHeartbeatReply → sync_step s (s <| rdr := RLeave |>)
| y_leave i : rdr s = RLeave → calls s !! i = None → sync_step s (set_call i (KEnter None) (s <| rdr := RStop |>))
| y_shut : own = true → closedT s = false → sync_step s (s <| trk := (trk s) <| Tracker.closed := true |> |>).

Definition core_step (s s' : core) : Prop := free_step s s' ∨ sync_step s s'.

(** The core [NewClient] sets up: the initial callbacks are in the queue. *)
Definition core_of (q : Queue.Queue) (pending : list Proto) : core :=
  mkCore (Queue.mkSys q WNext false false (initialCallbacks pending) [] [] []) (Tracker.mkSys Tracker_zero ∅ false FIdle)
    ∅ OnceNew ∅ RLoop false pending [] [].

Definition init_core (s : core) : Prop :=
  ∃ cap q0 q pending,
    Queue.New cap = Some q0 ∧ Queue.SubmitBatch (Some <$> initialCallbacks pending) q0 = (q, None) ∧ s = core_of q pending.

Definition core_reach : core → Prop := reachable init_core core_step.

(** ** The parts stay reachable *)

Lemma present_some (cs : list callback) : present (Some <$> cs) = cs.
Proof. induction cs as [|c cs IH]; [done|]. cbn. f_equal. exact IH. Qed.

Lemma hasNil_some (cs : list callback) : hasNilCallback (Some <$> cs) = false.
Proof. induction cs; simpl; auto. Qed.

Lemma submit_step c q q' err : submit c q = (q', err) → Queue.caller_step q q'.
Proof.
  unfold submit. destruct (Queue.Submit (Some c) (queue q)) as [x e] eqn:E. intros [= <- <-].
  exact (Queue.step_submit q [Some c] x e E).
Qed.

Lemma submit_facts c q q' err :
  submit c q = (q', err) →
  accepted q' = accepted q ++ (if err is None then [c] else []) ∧
  Queue.closed (queue q') = Queue.closed (queue q) ∧ releasable q' = releasable q ∧ plan q' = plan q ∧ ready q' = ready q.
Proof.
  unfold submit. destruct (Queue.Submit (Some c) (queue q)) as [x e] eqn:E. intros [= <- <-]. simpl. split_and!; try done.
  unfold Queue.Submit in E. apply SubmitBatch_cases in E as [[_ ->]|(_&H1&H2&_)]; congruence.
Qed.

Lemma begin_step ts q q' rel : begin_termination ts q = (q', rel) → Queue.caller_step q q'.
Proof.
  unfold begin_termination. destruct (Queue.BeginTermination (Some <$> ts) (queue q)) as [x r] eqn:E.
  intros [= <- <-]. destruct r.
  - by apply (Queue.step_begin_late q (Some <$> ts) x NoRelease).
  - by apply (Queue.step_begin_late q (Some <$> ts) x (InvokeDirectly ts0)).
  - pose proof (Queue.step_begin q (Some <$> ts) x E) as H. by rewrite present_some in H.
Qed.

(** What the release of a termination is, for a queue that was open. *)
Definition rel_ok (q : @Queue.sys callback) (rel : @release callback) : Prop :=
  (rel = OpenGate ∧ releasable q = true) ∨ (rel = NoRelease ∧ plan q = []).

Lemma begin_facts ts q q' rel :
  Queue.closed (queue q) = false → plan q = [] → begin_termination ts q = (q', rel) →
  Queue.closed (queue q') = true ∧ plan q' = ts ∧ rel_ok q' rel ∧ accepted q' = accepted q ∧ ready q' = ready q.
Proof.
  intros Hc Hp. unfold begin_termination, Queue.BeginTermination. rewrite hasNil_some, orb_false_r, length_fmap.
  destruct ts as [|t ts]; simpl.
  - intros [= <- <-]. simpl. unfold Stop, closeWithTerminals. rewrite Hc. simpl. split_and!; try done. by right.
  - unfold closeWithTerminals. rewrite Hc. intros [= <- <-]. simpl.
    split_and!; try done. by left.
Qed.

Lemma worker_facts (q q' : @Queue.sys callback) :
  Queue.worker_step q q' →
  accepted q' = accepted q ∧ Queue.closed (queue q') = Queue.closed (queue q) ∧ releasable q' = releasable q ∧
  plan q' = plan q ∧ ready q' = ready q.
Proof.
  intros []; simpl; try done. unfold run_next, next. destruct (Queue.closed (queue s)) eqn:Hc; simpl; [done|].
  by destruct (tasks (queue s)).
Qed.

(** ** The invariant *)

(** A terminal callback is the kick of a frame that came in, or none. *)
Definition before_ok (s : core) (before : option callback) : Prop :=
  ∀ c, before = Some c → ∃ p h, p ∈ incoming s ∧ Op p = OpKick ∧ kickHandler = Some h ∧ c = CKick h (Code p).

(** The fields the shutdown depends on, before it begins and after. *)
Definition untouched (s : core) : Prop :=
  Queue.closed (queue (cbs s)) = false ∧ plan (cbs s) = [] ∧ failing (trk s) = FIdle.

Definition planned (s : core) : Prop :=
  Queue.closed (queue (cbs s)) = true ∧ ∃ before, before_ok s before ∧ plan (cbs s) = terminals before.

Definition once_ok (s : core) : Prop :=
  match once s with
  | OnceNew => untouched s
  | OnceRunning i (XBegin before) => untouched s ∧ before_ok s before
  | OnceRunning i (XClose rel) => planned s ∧ rel_ok (cbs s) rel ∧ failing (trk s) = FIdle
  | OnceRunning i (XConn rel) => planned s ∧ rel_ok (cbs s) rel ∧ failing (trk s) = FIdle ∧ closedT s = true
  | OnceRunning i (XFail rel) =>
      planned s ∧ rel_ok (cbs s) rel ∧ failing (trk s) = FIdle ∧ closedT s = true ∧ connClosed s = true
  | OnceRunning i (XFailing rel) =>
      planned s ∧ rel_ok (cbs s) rel ∧ closedT s = true ∧ connClosed s = true ∧ ∃ snap, failing (trk s) = FRange snap failErr
  | OnceDone =>
      planned s ∧ closedT s = true ∧ connClosed s = true ∧ failing (trk s) = FDone ∧
      (ready (cbs s) = true ∨ plan (cbs s) = [] ∨ ∃ j, calls s !! j = Some (KRelease OpenGate))
  end.

Definition call_ok (s : core) (i : nat) (k : call) : Prop :=
  match k with
  | KEnter before => before_ok s before
  | KInside => ∃ x, once s = OnceRunning i x
  | KRelease rel => once s = OnceDone ∧ rel_ok (cbs s) rel
  | KReturned => once s = OnceDone
  end.

(** The callbacks taken so far, against the frames that came in. *)
Definition order_ok (s : core) : Prop :=
  match rdr s with
  | RGot p => accepted (cbs s) ++ pushes [p] = initialCallbacks (early s) ++ pushes (incoming s)
  | RLoop => accepted (cbs s) = initialCallbacks (early s) ++ pushes (incoming s)
  | _ => accepted (cbs s) `prefix_of` initialCallbacks (early s) ++ pushes (incoming s)
  end.

Record good (s : core) : Prop := mkGood {
  g_queue : Queue.reach (cbs s);
  g_trk : Tracker.reach (trk s);
  g_once : once_ok s;
  g_calls : ∀ i k, calls s !! i = Some k → call_ok s i k;
  g_inside : ∀ i x, once s = OnceRunning i x → calls s !! i = Some KInside;
  g_order : order_ok s;
  g_kick : ∀ p, rdr s = RGot p → p ∈ incoming s;
  g_direct : direct s = [];
}.

Lemma before_ok_mono s s' before :
  (∀ p, p ∈ incoming s → p ∈ incoming s') → before_ok s before → before_ok s' before.
Proof. intros Hi Hb c Hc. destruct (Hb c Hc) as (p & h & Hp & Ho & Hh & E). eauto 10. Qed.

(** A step the shutdown does not notice. *)
Record unnoticed (s s' : core) : Prop := mkUnnoticed {
  u_queue : Queue.closed (queue (cbs s')) = Queue.closed (queue (cbs s)) ∧ releasable (cbs s') = releasable (cbs s) ∧
            plan (cbs s') = plan (cbs s) ∧ ready (cbs s') = ready (cbs s);
  u_trk : failing (trk s') = failing (trk s) ∧ (closedT s = true → closedT s' = true);
  u_self : once s' = once s ∧ connClosed s' = connClosed s ∧ direct s' = direct s;
  u_old : ∀ i k, calls s !! i = Some k → calls s' !! i = Some k;
  u_new : ∀ i k, calls s' !! i = Some k → calls s !! i = Some k ∨ ∃ before, k = KEnter before ∧ before_ok s' before;
  u_in : ∀ p, p ∈ incoming s → p ∈ incoming s';
}.

Lemma once_unnoticed s s' : unnoticed s s' → once_ok s → once_ok s'.
Proof.
  intros [(Q1 & Q2 & Q3 & Q4) (T1 & T2) (O1 & O2 & O3) Hold _ Hin] H.
  assert (Hb : ∀ b, before_ok s b → before_ok s' b) by (intros b; by apply before_ok_mono).
  unfold once_ok, untouched, planned, rel_ok in *. rewrite O1, O2, Q1, Q2, Q3, Q4, T1. destruct (once s) as [|i []|]; naive_solver.
Qed.

Lemma calls_unnoticed s s' :
  unnoticed s s' → (∀ i k, calls s !! i = Some k → call_ok s i k) → ∀ i k, calls s' !! i = Some k → call_ok s' i k.
Proof.
  intros [(Q1 & Q2 & Q3 & Q4) _ (O1 & O2 & O3) Hold Hnew Hin] H i k Hk.
  destruct (Hnew i k Hk) as [Hk'|(before & -> & Hb)]; [|done]. specialize (H i k Hk').
  destruct k; simpl in *; [by eapply before_ok_mono|by rewrite O1| |by rewrite O1]. unfold rel_ok in *. by rewrite O1, Q2, Q3.
Qed.

Lemma good_unnoticed s s' :
  good s → unnoticed s s' → Queue.reach (cbs s') → Tracker.reach (trk s') → order_ok s' →
  (∀ p, rdr s' = RGot p → p ∈ incoming s') → good s'.
Proof.
  intros [G1 G2 G3 G4 G5 G6 G7 G8] Hu Hq Ht Ho Hk. split; try done.
  - by eapply once_unnoticed.
  - by eapply calls_unnoticed.
  - intros i x Hx. apply (u_old s s' Hu), (G5 i x). by rewrite <- (proj1 (u_self s s' Hu)).
  - by rewrite (proj2 (proj2 (u_self s s' Hu))).
Qed.

(** Steps inside the queue or the tracker. *)
Lemma good_queue s q :
  good s → Queue.step (cbs s) q → accepted q = accepted (cbs s) →
  Queue.closed (queue q) = Queue.closed (queue (cbs s)) → releasable q = releasable (cbs s) → plan q = plan (cbs s) →
  ready q = ready (cbs s) → good (s <| cbs := q |>).
Proof.
  intros Hg Hs Ha E1 E2 E3 E4. apply (good_unnoticed s); [done| |by eapply reach_step; [apply Hg|]|apply Hg| |apply Hg].
  - split; simpl; auto.
  - pose proof (g_order s Hg) as Ho. unfold order_ok in *; simpl. by rewrite Ha.
Qed.

Lemma good_trk s t ps :
  good s → Tracker.step (trk s) t → failing t = failing (trk s) → Tracker.closed t = Tracker.closed (trk s) →
  good (s <| trk := t |> <| params := ps |>).
Proof.
  intros Hg Hs E1 E2. apply (good_unnoticed s); [done| |apply Hg|by eapply reach_step; [apply Hg|]|apply Hg|apply Hg].
  split; simpl; auto. unfold closedT; simpl. by rewrite E2.
Qed.

Lemma good_trk' s t :
  good s → Tracker.step (trk s) t → failing t = failing (trk s) → Tracker.closed t = Tracker.closed (trk s) →
  good (s <| trk := t |>).
Proof. intros. by apply (good_trk s t (params s)). Qed.

(** The read loop moves on. *)
Lemma good_rdr s r :
  good s → order_ok (s <| rdr := r |>) → (∀ p, r ≠ RGot p) → good (s <| rdr := r |>).
Proof.
  intros Hg Ho Hr. apply (good_unnoticed s); [done| |apply Hg|apply Hg|done|by intros p Hp%Hr]. by split; simpl; auto.
Qed.

Lemma good_call s i before :
  good s → calls s !! i = None → before_ok s before → good (set_call i (KEnter before) s).
Proof.
  intros Hg Hi Hb. apply (good_unnoticed s); try apply Hg. split; simpl; auto.
  - intros j k Hk. destruct (decide (i = j)) as [->|]; [congruence|]. by rewrite lookup_insert_ne.
  - intros j k. rewrite lookup_insert_Some. intros [[_ <-]|[_ ?]]; eauto.
Qed.

Lemma caller_same t p t' : Tracker.caller_step t p t' → failing t' = failing t ∧ Tracker.closed t' = Tracker.closed t.
Proof. by intros []. Qed.

(** The order of the callbacks, frame by frame. *)
Lemma pushes_app a b : pushes (a ++ b) = pushes a ++ pushes b.
Proof. apply omap_app. Qed.

Lemma order_stop s : order_ok s → accepted (cbs s) `prefix_of` initialCallbacks (early s) ++ pushes (incoming s).
Proof.
  unfold order_ok. destruct (rdr s); intros H; [by rewrite H|rewrite <- H; by apply prefix_app_r|exact H..].
Qed.

Lemma order_none s p : order_ok s → rdr s = RGot p → pushes [p] = [] → order_ok (s <| rdr := RLoop |>).
Proof. unfold order_ok. intros H Hr Hp. rewrite Hr, Hp, app_nil_r in H. exact H. Qed.

(** The steps of [shutdownWith]. *)
Lemma good_advance s s' i x x' :
  good s → once s = OnceRunning i x → once s' = OnceRunning i x' → calls s' = calls s → rdr s' = rdr s →
  early s' = early s → incoming s' = incoming s → direct s' = direct s → accepted (cbs s') = accepted (cbs s) →
  Queue.reach (cbs s') → Tracker.reach (trk s') → once_ok s' → good s'.
Proof.
  intros Hg Hx Hx' Ec Er Ee Ei Ed Ea Hq Ht Ho. destruct Hg as [G1 G2 G3 G4 G5 G6 G7 G8]. split; try done.
  - intros j k. rewrite Ec. intros Hk. specialize (G4 j k Hk). destruct k; simpl in *.
    + eapply before_ok_mono; [|done]. by rewrite Ei.
    + rewrite Hx in G4. destruct G4 as [y [= -> ->]]. eauto.
    + destruct G4; congruence.
    + congruence.
  - intros j y. rewrite Ec, Hx'. intros [= -> ->]. by apply (G5 j x).
  - unfold order_ok in *. by rewrite Er, Ea, Ee, Ei.
  - intros p. rewrite Er, Ei. apply G7.
  - congruence.
Qed.

Lemma good_first s i before :
  good s → calls s !! i = Some (KEnter before) → once s = OnceNew →
  good (set_call i KInside (s <| once := OnceRunning i (XBegin before) |>)).
Proof.
  intros [G1 G2 G3 G4 G5 G6 G7 G8] Hi Ho. unfold once_ok in G3. rewrite Ho in G3. split; simpl; try done.
  - split; [done|]. exact (G4 i _ Hi).
  - intros j k. rewrite lookup_insert_Some. intros [[-> <-]|[Hne Hk]]; [by eexists|]. specialize (G4 j k Hk).
    destruct k; simpl in *; [done|destruct G4; congruence|destruct G4; congruence|congruence].
  - intros j x [= <- <-]. apply lookup_insert_eq.
Qed.

Lemma good_late s i before :
  good s → calls s !! i = Some (KEnter before) → once s = OnceDone → good (set_call i KReturned s).
Proof.
  intros [G1 G2 G3 G4 G5 G6 G7 G8] Hi Ho. split; simpl; try done.
  - unfold once_ok in *; simpl. rewrite Ho in *. destruct G3 as (P1 & P2 & P3 & P4 & P5). split_and!; try done.
    destruct P5 as [?|[?|[j Hj]]]; auto. right; right. exists j. rewrite lookup_insert_ne; [done|congruence].
  - intros j k. rewrite lookup_insert_Some. intros [[-> <-]|[Hne Hk]]; [done|]. exact (G4 j k Hk).
  - intros j x Hx. congruence.
Qed.

Lemma good_visited s i rel snap :
  good s → once s = OnceRunning i (XFailing rel) → failing (trk s) = FRange snap failErr →
  (∀ k p, snap !! k = Some p → pending (tr (trk s)) !! k ≠ Some p) →
  good (set_call i (KRelease rel) (s <| trk := (trk s) <| failing := FDone |> |> <| once := OnceDone |>)).
Proof.
  intros [G1 G2 G3 G4 G5 G6 G7 G8] Ho Hf Hend. unfold once_ok in G3. rewrite Ho in G3.
  destruct G3 as (P1 & P2 & P3 & P4 & _). split; simpl; try done.
  - eapply reach_step; [exact G2|]. right. by apply (fail_end _ snap failErr).
  - split_and!; try done. destruct P2 as [[-> ?]|[-> ?]]; [|by auto]. right; right. exists i. apply lookup_insert_eq.
  - intros j k. rewrite lookup_insert_Some. intros [[-> <-]|[Hne Hk]]; [done|]. specialize (G4 j k Hk).
    destruct k; simpl in *; [done| |destruct G4; congruence|congruence].
    destruct G4 as [x Hx]. rewrite Ho in Hx. congruence.
Qed.

Lemma good_release s i rel :
  good s → calls s !! i = Some (KRelease rel) →
  good (set_call i KReturned
          (match rel with
           | NoRelease => s
           | InvokeDirectly ts => s <| direct := direct s ++ ts |>
           | OpenGate => s <| cbs := (cbs s) <| ready := true |> |>
           end)).
Proof.
  intros [G1 G2 G3 G4 G5 G6 G7 G8] Hi. destruct (G4 i _ Hi) as [Ho Hrel].
  unfold once_ok in G3. rewrite Ho in G3. destruct G3 as (P1 & P2 & P3 & P4 & P5).
  destruct Hrel as [[-> Hr]|[-> Hp]].
  - split; simpl; try done.
    + eapply reach_step; [exact G1|]. right. by apply Queue.step_release.
    + unfold once_ok; simpl. rewrite Ho. split_and!; try done. by left.
    + intros j k. rewrite lookup_insert_Some. intros [[-> <-]|[Hne Hk]]; [done|]. exact (G4 j k Hk).
    + intros j x Hx. simpl in Hx. congruence.
  - split; simpl; try done.
    + unfold once_ok; simpl. rewrite Ho. split_and!; try done. right. by left.
    + intros j k. rewrite lookup_insert_Some. intros [[-> <-]|[Hne Hk]]; [done|]. exact (G4 j k Hk).
    + intros j x Hx. congruence.
Qed.

Lemma good_call_step s i s' : good s → call_step s i s' → good s'.
Proof.
  intros Hg Hs. pose proof (g_once s Hg) as Ho. unfold once_ok in Ho.
  destruct Hs as [before Hi Hn|before Hi Hn|before q rel Hx Hb|rel Hx|rel Hx|rel Hx|rel snap k p m r Hx Hf Hm Hr|rel snap Hx Hf Hend|rel Hi].
  - by apply good_first.
  - by eapply good_late.
  - rewrite Hx in Ho. destruct Ho as [(U1 & U2 & U3) Hok].
    destruct (begin_facts _ _ _ _ U1 U2 Hb) as (B1 & B2 & B3 & B4 & B5).
    eapply (good_advance s _ i); [done..| |apply Hg|]; [eapply reach_step; [apply Hg|right; by eapply begin_step]|].
    unfold once_ok, planned; simpl. split_and!; try done. eauto.
  - rewrite Hx in Ho. destruct Ho as (P1 & P2 & P3).
    eapply (good_advance s _ i); [done..|apply Hg| |].
    + destruct (closedT s) eqn:Ec; unfold closedT in Ec.
      * assert ((trk s) <| Tracker.closed := true |> = trk s) as -> by (destruct (trk s); simpl in *; congruence). apply Hg.
      * eapply reach_step; [apply Hg|]. right. by apply close_done.
    + unfold once_ok; simpl. by split_and!.
  - rewrite Hx in Ho. destruct Ho as (P1 & P2 & P3 & P4).
    eapply (good_advance s _ i); [done..|apply Hg|apply Hg|]. unfold once_ok; simpl. by split_and!.
  - rewrite Hx in Ho. destruct Ho as (P1 & P2 & P3 & P4 & P5).
    eapply (good_advance s _ i); [done..|apply Hg| |].
    + eapply reach_step; [apply Hg|]. right. by apply (fail_start _ failErr).
    + unfold once_ok; simpl. split_and!; try done. eauto.
  - rewrite Hx in Ho. destruct Ho as (P1 & P2 & P3 & P4 & _).
    eapply (good_advance s _ i); [done..|apply Hg| |].
    + eapply reach_step; [apply Hg|]. right. by eapply fail_visit.
    + unfold once_ok; simpl. rewrite Hx. split_and!; try done. eauto.
  - by eapply good_visited.
  - by apply good_release.
Qed.

Lemma good_push s p c q err :
  good s → rdr s = RGot p → Op p = OpPush → push_callback p = Some c → submit c (cbs s) = (q, err) →
  good (s <| cbs := q |> <| rdr := match err with None => RLoop | Some _ => RLeave end |>).
Proof.
  intros Hg Hr Hop Hc Hs. destruct (submit_facts _ _ _ _ Hs) as (A1 & A2 & A3 & A4 & A5).
  apply (good_unnoticed s); [done| | |apply Hg| |].
  - by split; simpl; auto.
  - eapply reach_step; [apply Hg|]. right. by eapply submit_step.
  - pose proof (g_order s Hg) as Ho. unfold order_ok in *; simpl. rewrite Hr in Ho.
    assert (Hp : pushes [p] = [c]) by (unfold pushes; simpl; by rewrite Hop, Z.eqb_refl, Hc). rewrite Hp in Ho.
    destruct err; rewrite A1; [|done]. rewrite app_nil_r, <- Ho. by apply prefix_app_r.
  - by destruct err.
Qed.

Lemma good_response s p t q c r :
  good s → rdr s = RGot p → Op p = OpResponse → Resolve (tr (trk s)) p = (t, Some (q, c)) → reqs (trk s) !! q = Some r →
  good (s <| trk := set_req ((trk s) <| tr := t |>) q (r <| taker := Some c |>) |> <| rdr := RLoop |>).
Proof.
  intros Hg Hr Hop Hres Hq.
  assert (Hg1 : good (s <| trk := set_req ((trk s) <| tr := t |>) q (r <| taker := Some c |>) |>)).
  { apply good_trk'; [done| |done|done]. right. by eapply resolve. }
  apply (good_rdr _ RLoop Hg1); [|done]. eapply order_none; [apply Hg1|exact Hr|].
  unfold pushes; simpl. by rewrite Hop.
Qed.

Lemma good_kick s p i :
  good s → rdr s = RGot p → Op p = OpKick → calls s !! i = None →
  good (set_call i (KEnter (kick_callback p)) (s <| rdr := if again then RAwait i else RStop |>)).
Proof.
  intros Hg Hr Hop Hi. apply good_call; [|done|].
  - apply good_rdr; [done| |by destruct again]. pose proof (order_stop _ (g_order s Hg)) as Ho. by unfold order_ok; simpl; destruct again.
  - intros c Hc. unfold kick_callback in Hc. destruct kickHandler as [h|]; [|done]. injection Hc as <-.
    exists p, h. split_and!; try done. by apply (g_kick s Hg).
Qed.

Lemma good_free s s' : good s → free_step s s' → good s'.
Proof.
  intros Hg Hs. destruct Hs as [q H|p r c Hr Ht Hd|p cmd body Hr|p r t Hr Hn H|p Hr|Hr|p Hr Hop Hc|p c q err Hr Hop Hc H
    |p t q c r Hr Hop Hres Hq|p t Hr Hop Hres|p i Hr Hop Hi|i Hr Hi|p Hr H1 H2 H3 H4|i Hi|i s' H].
  - destruct (worker_facts _ _ H) as (?&?&?&?&?). apply good_queue; [done|by left|done..].
  - apply good_trk'; [done| |done|done]. right. by apply deliver.
  - apply good_trk; [done| |done|done]. left. exists p. by apply start.
  - destruct (caller_same _ _ _ H). apply good_trk'; [done| |done|done]. left. by exists p.
  - apply (good_unnoticed s); [done| |apply Hg|apply Hg| |].
    + split; simpl; auto. intros q Hq. apply elem_of_app. by left.
    + pose proof (g_order s Hg) as Ho. unfold order_ok in *; simpl. rewrite Hr in Ho. by rewrite pushes_app, app_assoc, <- Ho.
    + intros q [= <-]. apply elem_of_app. right. left.
  - apply good_rdr; [done| |done]. apply (order_stop s), Hg.
  - apply good_rdr; [done| |done]. eapply order_none; [apply Hg|exact Hr|]. unfold pushes; simpl. by rewrite Hop, Z.eqb_refl, Hc.
  - by eapply good_push.
  - by eapply good_response.
  - apply good_rdr; [done| |done]. eapply order_none; [apply Hg|exact Hr|]. unfold pushes; simpl. by rewrite Hop.
  - by apply good_kick.
  - apply good_rdr; [done| |done]. apply (order_stop s), Hg.
  - apply good_rdr; [done| |done]. eapply order_none; [apply Hg|exact Hr|]. unfold pushes; simpl.
    by rewrite (proj2 (Z.eqb_neq _ _) H2).
  - apply good_call; [done|done|]. by intros c.
  - by eapply good_call_step.
Qed.

Lemma good_sync s s' : good s → sync_step s s' → good s'.
Proof.
  intros Hg Hs. destruct Hs as [p r Hr Hp Hc|p r Hr Hp|p Hr Hop|p Hr Hop|i Hr Hi|Hown Hc].
  - apply good_trk'; [done| |done|done]. left. exists p. by apply send_ok.
  - apply good_trk'; [done| |done|done]. left. exists p. by apply send_failed.
  - apply good_rdr; [done| |done]. eapply order_none; [apply Hg|exact Hr|]. unfold pushes; simpl. by rewrite Hop.
  - apply good_rdr; [done| |done]. apply (order_stop s), Hg.
  - apply good_call; [|done|by intros c]. apply good_rdr; [done| |done]. apply (order_stop s), Hg.
  - apply (good_unnoticed s); try apply Hg.
    + by split; simpl; auto.
    + eapply reach_step; [apply Hg|]. right. by apply close_done.
Qed.

Lemma good_core_step s s' : good s → core_step s s' → good s'.
Proof. intros Hg [H|H]; [by eapply good_free|by eapply good_sync]. Qed.

Lemma core_good_init s : init_core s → good s.
Proof.
  intros (cap & q0 & q & pending & Hn & Hs & ->).
  assert (Hr : @Queue.reach callback (Queue.mkSys q0 WNext false false [] [] [] [])) by (apply reach_init; by exists cap, q0).
  pose proof (Queue.step_submit (Queue.mkSys q0 WNext false false [] [] [] []) _ q None Hs) as Hst. simpl in Hst. rewrite present_some in Hst.
  assert (Hq0 : Queue.closed q0 = false) by (unfold Queue.New in Hn; destruct (cap <=? 0); by simplify_eq).
  split; simpl; try done.
  - eapply reach_step; [exact Hr|]. by right.
  - by apply reach_init.
  - split_and!; try done. apply SubmitBatch_cases in Hs as [[[e ?] _]|(_&_&H&_)]; done.
  - unfold order_ok; simpl. by rewrite app_nil_r.
Qed.

Lemma core_good s : core_reach s → good s.
Proof.
  revert s. apply (invariant_reachable init_core core_step good); [apply core_good_init|].
  intros s s' _. apply good_core_step.
Qed.

(** ** Progress of [shutdownWith] *)

(** A step that leaves the calls of others alone. *)
Definition leads (s : core) (P : core → Prop) : Prop := ∃ s', rtc free_step s s' ∧ good s' ∧ P s'.

Lemma leads_refl s (P : core → Prop) : good s → P s → leads s P.
Proof. exists s. split_and!; done. Qed.

Lemma leads_step s i s1 P : good s → call_step s i s1 → (good s1 → leads s1 P) → leads s P.
Proof.
  intros Hg Hc Hl. assert (Hf : free_step s s1) by (by eapply f_call).
  destruct (Hl (good_free _ _ Hg Hf)) as (s' & Hr & Hg' & HP). exists s'. split_and!; [by eapply rtc_l|done..].
Qed.

(** [Fail] visits what is left of its snapshot and returns. *)
Lemma fail_completes s i rel snap P :
  good s → once s = OnceRunning i (XFailing rel) → failing (trk s) = FRange snap failErr →
  (∀ s', good s' → once s' = OnceDone → calls s' = <[i := KRelease rel]> (calls s) → leads s' P) → leads s P.
Proof.
  remember (size (pending (tr (trk s)))) as n eqn:En. revert s En. induction (lt_wf n) as [n _ IH].
  intros s -> Hg Ho Hf Hend.
  set (left_ := filter (λ kp, pending (tr (trk s)) !! kp.1 = Some kp.2) snap).
  destruct (decide (left_ = ∅)) as [He|Hne].
  - eapply (leads_step s i); [done|eapply c_visited; [exact Ho|exact Hf|]|].
    + intros k p Hk Hp. assert (Hin : left_ !! k = Some p) by (by apply map_lookup_filter_Some). by rewrite He in Hin.
    + intros Hg'. by apply Hend.
  - apply map_choose in Hne as (k & p & Hin). apply map_lookup_filter_Some in Hin as [Hk Hp]; simpl in Hp.
    destruct (inv_map _ (trk_inv_reach _ (g_trk s Hg)) k p Hp) as (r & Hr & _).
    assert (Hm : CompareAndDelete (pending (tr (trk s))) k p = (delete k (pending (tr (trk s))), true))
      by (unfold CompareAndDelete; by rewrite decide_True).
    eapply (leads_step s i); [done|eapply c_visit; [exact Ho|exact Hf|exact Hm|exact Hr]|].
    intros Hg'. eapply (IH (size (delete k (pending (tr (trk s))))));
      [|reflexivity|exact Hg'|exact Ho|exact Hf|exact Hend].
    rewrite map_size_delete_Some by (by exists p). assert (size (pending (tr (trk s))) ≠ 0%nat); [|lia].
    intros H0%map_size_empty_inv. by rewrite H0 in Hp.
Qed.

(** The function of the once runs to its end. *)
Lemma once_completes s i x P :
  good s → once s = OnceRunning i x →
  (∀ s' rel, good s' → once s' = OnceDone → calls s' = <[i := KRelease rel]> (calls s) → leads s' P) → leads s P.
Proof.
  intros Hg Ho Hend.
  assert (H5 : ∀ s' rel, good s' → once s' = OnceRunning i (XFailing rel) → calls s' = calls s → leads s' P).
  { intros s' rel Hg' Ho' Ec. pose proof (g_once s' Hg') as Hx. unfold once_ok in Hx. rewrite Ho' in Hx.
    destruct Hx as (_ & _ & _ & _ & snap & Hf). eapply (fail_completes s'); [done|exact Ho'|exact Hf|].
    intros s2 H1 H2 H3. apply (Hend s2 rel H1 H2). by rewrite H3, Ec. }
  assert (H4 : ∀ s' rel, good s' → once s' = OnceRunning i (XFail rel) → calls s' = calls s → leads s' P).
  { intros s' rel Hg' Ho' Ec. eapply leads_step; [done|by apply c_fail|]. intros Hg2. by apply (H5 _ rel Hg2). }
  assert (H3 : ∀ s' rel, good s' → once s' = OnceRunning i (XConn rel) → calls s' = calls s → leads s' P).
  { intros s' rel Hg' Ho' Ec. eapply leads_step; [done|by apply c_conn|]. intros Hg2. by apply (H4 _ rel Hg2). }
  assert (H2 : ∀ s' rel, good s' → once s' = OnceRunning i (XClose rel) → calls s' = calls s → leads s' P).
  { intros s' rel Hg' Ho' Ec. eapply leads_step; [done|by apply c_close|]. intros Hg2. by apply (H3 _ rel Hg2). }
  destruct x as [before|rel|rel|rel|rel]; eauto.
  destruct (begin_termination (terminals before) (cbs s)) as [q rel] eqn:E.
  eapply leads_step; [done|by eapply c_begin|]. intros Hg2. by apply (H2 _ rel Hg2).
Qed.

(** After it, the call itself returns. *)
Lemma done_returns s i k P :
  good s → once s = OnceDone → calls s !! i = Some k →
  (∀ s', good s' → once s' = OnceDone → calls s' !! i = Some KReturned → leads s' P) → leads s P.
Proof.
  intros Hg Ho Hi Hend. destruct k as [before| |rel|].
  - eapply leads_step; [done|by eapply c_late|]. intros Hg2. apply Hend; [done|done|apply lookup_insert_eq].
  - destruct (g_calls s Hg i _ Hi) as [x Hx]. congruence.
  - eapply leads_step; [done|by eapply c_release|]. intros Hg2. apply Hend; [done|by destruct rel|apply lookup_insert_eq].
  - by apply Hend.
Qed.

Lemma call_returns s i k P :
  good s → calls s !! i = Some k →
  (∀ s', good s' → once s' = OnceDone → calls s' !! i = Some KReturned → leads s' P) → leads s P.
Proof.
  intros Hg Hi Hend.
  assert (Hrun : ∀ s j x k, good s → once s = OnceRunning j x → calls s !! i = Some k → leads s P).
  { clear s k Hg Hi. intros s j x k Hg Ho Hi. eapply once_completes; [done|exact Ho|]. intros s' rel Hg' Ho' Ec.
    destruct (decide (j = i)) as [->|Hne].
    - eapply (done_returns s'); [done|done|by rewrite Ec, lookup_insert_eq|done].
    - eapply (done_returns s'); [done|done|by rewrite Ec, lookup_insert_ne|done]. }
  destruct (once s) as [|j x|] eqn:Ho; [|by eapply Hrun|by eapply done_returns].
  destruct k as [before| |rel|]; try (by destruct (g_calls s Hg i _ Hi) as [? ?]; congruence).
  - eapply leads_step; [done|by eapply c_first|]. intros Hg2. eapply Hrun; [done|reflexivity|apply lookup_insert_eq].
  - pose proof (g_calls s Hg i _ Hi) as H. simpl in H. congruence.
Qed.

(** The gate is opened. *)
Lemma gate_opens s P :
  good s → once s = OnceDone →
  (∀ s', good s' → once s' = OnceDone → (∀ i, calls s !! i = Some KReturned → calls s' !! i = Some KReturned) →
         ready (cbs s') = true ∨ plan (cbs s') = [] → leads s' P) → leads s P.
Proof.
  intros Hg Ho Hend. pose proof (g_once s Hg) as Hx. unfold once_ok in Hx. rewrite Ho in Hx.
  destruct Hx as (_ & _ & _ & _ & [Hr|[Hp|[j Hj]]]); [by apply Hend; auto|by apply Hend; auto|].
  eapply leads_step; [done|by eapply c_release|]. intros Hg2. apply Hend; [done|done| |by left].
  intros i Hi. simpl. destruct (decide (j = i)) as [->|]; [apply lookup_insert_eq|by rewrite lookup_insert_ne].
Qed.

Lemma worker_lift s q : rtc Queue.worker_step (cbs s) q → rtc free_step s (s <| cbs := q |>).
Proof.
  remember (cbs s) as q0 eqn:E. intros H. revert s E. induction H as [q|q q1 q2 Hs _ IH]; intros s ->.
  - by destruct s.
  - eapply rtc_l; [apply (f_worker _ q1); done|]. exact (IH (s <| cbs := q1 |>) eq_refl).
Qed.

Lemma good_free_rtc s s' : good s → rtc free_step s s' → good s'.
Proof. intros Hg H. induction H as [|s s1 s2 Hs _ IH]; [done|]. apply IH. by eapply good_free. Qed.

(** ** Properties *)

(** The callbacks of a client run in order, each at most once: those begun
    are a prefix of the connect callback, the pushes that came before the
    authentication reply and the pushes that arrived since, in the order of
    arrival; while the client is open none of them is lost.  The terminal
    callbacks are the kick that was received, if there was one, and the
    disconnect, in this order, and begin only when no other callback can. *)
Theorem client_callbacks_in_order s :
  core_reach s →
  started (cbs s) `prefix_of` initialCallbacks (early s) ++ pushes (incoming s) ∧
  (rdr s = RLoop → Queue.closed (queue (cbs s)) = false →
   started (cbs s) ++ tasks (queue (cbs s)) = initialCallbacks (early s) ++ pushes (incoming s)) ∧
  (finals (cbs s) ≠ [] → Queue.closed (queue (cbs s)) = true ∧
     ∃ before, before_ok s before ∧ finals (cbs s) `prefix_of` terminals before) ∧
  direct s = [].
Proof.
  intros Hr. pose proof (core_good s Hr) as Hg. pose proof (inv_reach _ (g_queue s Hg)) as (_ & Hw & Hf & _).
  unfold fifo_ok in Hf. split_and!.
  - etrans; [|apply (order_stop s), Hg]. destruct (Queue.closed (queue (cbs s))); [done|]. rewrite Hf. by apply prefix_app_r.
  - intros Hl Hc. pose proof (g_order s Hg) as Ho. unfold order_ok in Ho. rewrite Hl in Ho. rewrite Hc in Hf. congruence.
  - intros Hne. assert (Hc : Queue.closed (queue (cbs s)) = true ∧ finals (cbs s) `prefix_of` plan (cbs s)).
    { unfold worker_ok in Hw. destruct (run (cbs s)); try (by destruct Hw).
      - destruct Hw as (Hc & [[? _]|(_ & cs & _ & <-)]); [done|]. split; [done|]. by apply prefix_app_r.
      - destruct Hw as (Hc & -> & _). done. }
    destruct Hc as [Hc Hp]. split; [done|]. pose proof (g_once s Hg) as Hx. unfold once_ok, untouched, planned in Hx.
    destruct (once s) as [|i []|]; try (destruct Hx as ((? & _) & _) || destruct Hx as (? & _); congruence);
      destruct Hx as ((_ & before & Hb & E) & _); exists before; by rewrite <- E.
  - apply Hg.
Qed.

(** When a [Close] of a client returns, whichever call of [shutdownWith]
    it was, the connection is closed, no request is sent any more, and no
    request is left waiting without a result or a goroutine about to give it
    one. *)
Theorem client_close_ends_requests s i p r :
  core_reach s → calls s !! i = Some KReturned → reqs (trk s) !! p = Some r →
  connClosed s = true ∧ closedT s = true ∧ (pc r = BWait ∨ pc r = BTimeout ∨ pc r = BDrain → signals r ≠ []).
Proof.
  intros Hr Hi Hp. pose proof (core_good s Hr) as Hg. pose proof (g_calls s Hg i _ Hi) as Ho. simpl in Ho.
  pose proof (g_once s Hg) as Hx. unfold once_ok in Hx. rewrite Ho in Hx. destruct Hx as (_ & Hc & Hn & Hf & _).
  split_and!; try done. intros Hpc. destruct (inv_req _ (trk_inv_reach _ (g_trk s Hg)) p r Hp) as [(_ & _ & _ & H4) H5].
  unfold pc_ok, fail_ok, waiting in *. rewrite Hf in H5. destruct Hpc as [E|[E|E]]; rewrite E in *; tauto.
Qed.

Lemma close_completes s i k :
  core_reach s → calls s !! i = Some k →
  ∃ s' before, rtc free_step s s' ∧ calls s' !! i = Some KReturned ∧ run (cbs s') = WExit ∧
    before_ok s' before ∧ finals (cbs s') = terminals before.
Proof.
  intros Hr Hi. pose proof (core_good s Hr) as Hg.
  enough (leads s (λ s', calls s' !! i = Some KReturned ∧ run (cbs s') = WExit ∧
            ∃ before, before_ok s' before ∧ finals (cbs s') = terminals before)) as (s' & H1 & _ & H2 & H3 & before & H4 & H5) by eauto 10.
  eapply call_returns; [done|exact Hi|]. intros s1 Hg1 Ho1 Hi1. apply gate_opens; [done|done|].
  intros s2 Hg2 Ho2 Hk Hrd. pose proof (g_once s2 Hg2) as Hx. unfold once_ok in Hx. rewrite Ho2 in Hx.
  destruct Hx as ((Hc & before & Hb & Hp) & _).
  destruct (worker_exits (cbs s2) (inv_reach _ (g_queue s2 Hg2)) Hc Hrd) as (q & Hq & Hw & Hf & _).
  exists (s2 <| cbs := q |>). split_and!.
  - by apply worker_lift.
  - eapply good_free_rtc; [exact Hg2|by apply worker_lift].
  - by apply Hk.
  - done.
  - exists before. split; [exact Hb|]. simpl. congruence.
Qed.

(** A close always ends: from every state in which [shutdownWith] was
    called, steps of the client alone, without the transport or the peer,
    make the call return and the callback worker finish, with every terminal
    callback run, the disconnect last. *)
Theorem client_close_completes s i k :
  core_reach s → calls s !! i = Some k →
  ∃ s' before, rtc free_step s s' ∧ calls s' !! i = Some KReturned ∧ run (cbs s') = WExit ∧
    before_ok s' before ∧ finals (cbs s') = terminals before.
Proof. apply close_completes. Qed.
End Core.

(** ** Starting a client *)

Definition callbackSlot (enabled : bool) : Z := if enabled then 1 else 0.

(** [n] reads, or fewer and the last one failed. *)
Definition enough (n : nat) (reads : list (result Proto)) : Prop :=
  length reads = n ∨ ∃ pre err, reads = pre ++ [Err err].

Lemma enough_cons n r reads : enough n reads → enough (S n) (r :: reads).
Proof. intros [<-|(pre & err & ->)]; [by left|right]. by exists (r :: pre), err. Qed.

(** One read more than the pushes that are kept decides the authentication,
    and only pushes are kept. *)
Lemma ReadReply_loop_answers transport rejected limit n reads pending :
  Forall (λ p, Op p = OpPush) pending → (0 < n)%nat → limit < zlen pending + Z.of_nat n → enough n reads →
  ∃ a, Auth.ReadReply_loop transport rejected limit reads pending = Some a ∧ ∀ ps, a = Ok ps → Forall (λ p, Op p = OpPush) ps.
Proof.
  revert n pending. induction reads as [|[reply|err] reads IH]; intros n pending Hp Hn Hl He; simpl.
  - destruct He as [<-|([|] & err & ?)]; [simpl in Hn; lia|done|done].
  - destruct (Z.eqb_spec (Op reply) OpPush) as [Hop|_].
    + destruct (Z.leb_spec limit (zlen pending)); [by eexists|]. apply (IH (pred n)).
      * apply Forall_app. by split; [|apply Forall_singleton].
      * lia.
      * rewrite length_app; simpl. lia.
      * destruct He as [<-|([|r pre] & err & E)]; [by left|done|]. right. exists pre, err. by injection E.
    + destruct (negb (Op reply =? OpAuthReply)); [by eexists|]. destruct (negb (Code reply =? 0)); [by eexists|].
      eexists. split; [done|]. by intros ps [= <-].
  - by eexists.
Qed.

Lemma ReadReply_answers transport rejected limit reads :
  0 < limit → enough (S (Z.to_nat limit)) reads →
  ∃ a, Auth.ReadReply_loop transport rejected limit reads [] = Some a ∧ ∀ ps, a = Ok ps → Forall (λ p, Op p = OpPush) ps.
Proof. intros Hl He. eapply ReadReply_loop_answers; [done| |cbn [length]|exact He]; lia. Qed.

Lemma omap_length {A B} (f : A → option B) l : (length (omap f l) ≤ length l)%nat.
Proof.
  induction l as [|x l IH]; [done|]. change (omap f (x :: l)) with (match f x with Some y => y :: omap f l | None => omap f l end).
  destruct (f x); cbn [length]; lia.
Qed.

(** The initial callbacks fit a queue that has room for the pushes kept and
    the connect callback. *)
Lemma initial_fits hs connect size q pending :
  Queue.New size = Some q → zlen pending + callbackSlot (when connect) ≤ size →
  ∃ q', Queue.SubmitBatch (Some <$> initialCallbacks hs connect pending) q = (q', None).
Proof.
  intros Hq Hl. unfold Queue.New in Hq. destruct (size <=? 0); [done|]. injection Hq as <-.
  unfold Queue.SubmitBatch. rewrite hasNil_some, length_fmap; simpl.
  assert (Hle : zlen (initialCallbacks hs connect pending) ≤ size).
  { unfold initialCallbacks. rewrite length_app. pose proof (omap_length (push_callback hs) pending).
    unfold callbackSlot in Hl. destruct connect; simpl in *; lia. }
  rewrite (proj2 (Z.ltb_ge _ _)) by lia. destruct (0 <? _); by eexists.
Qed.

(** ** Witnesses: a push, a kick, and the shutdown it causes *)

Module ClientCoreExample.
Definition hs : handlers := {[7 := Some 3%nat]}.
Definition failed : error := ESentinel NetErrClosed.
Abbreviation Step := (core_step hs (Some 4%nat) (Some 6%nat) failed false false).
Abbreviation Reach := (core_reach hs (Some 4%nat) (Some 5%nat) (Some 6%nat) failed false false).

Ltac take H tac :=
  let H' := fresh in
  lazymatch type of H with
  | Reach ?s =>
      eassert (H' : Step s _) by (tac; first [reflexivity|discriminate|vm_compute; reflexivity]);
      apply (reach_step _ _ _ _ H) in H'; cbn in H'; clear H; rename H' into H;
      change (reachable (init_core hs (Some 5%nat)) Step) with Reach in H
  end.

Definition push : Proto := mkProto OpPush 0 0 7 [].
Definition kick : Proto := mkProto OpKick 0 9 0 [].

Definition s0 : core := Eval vm_compute in core_of hs (Some 5%nat)
  (SubmitBatch (Some <$> initialCallbacks hs (Some 5%nat) [push]) (mkQueue 4 false false [] [] false)).1 [push].

Lemma reach_s0 : Reach s0.
Proof.
  apply reach_init. exists 4, (mkQueue 4 false false [] [] false), (queue (cbs s0)), [push].
  split_and!; vm_compute; reflexivity.
Qed.

(** The connect callback has begun, another push has come in. *)
Definition running : core :=
  mkCore (Queue.mkSys (mkQueue 4 true false [CPush 3 []; CPush 3 []] [] false) (WInvoke (CConnect 5)) false false
            [CConnect 5; CPush 3 []; CPush 3 []] [CConnect 5] [] [])
    (Tracker.mkSys Tracker_zero ∅ false FIdle) ∅ OnceNew ∅ RLoop false [push] [push] [].

Lemma reach_running : Reach running.
Proof.
  pose proof reach_s0 as H.
  take H ltac:(left; eapply f_worker, step_next).
  take H ltac:(left; eapply (f_frame _ _ _ _ _ _ push)).
  take H ltac:(left; eapply (f_push _ _ _ _ _ _ push (CPush 3 []))).
  exact H.
Qed.

Lemma client_callbacks_in_order_witness :
  started (cbs running) `prefix_of` initialCallbacks hs (Some 5%nat) (early running) ++ pushes hs (incoming running) ∧
  (rdr running = RLoop → Queue.closed (queue (cbs running)) = false →
   started (cbs running) ++ tasks (queue (cbs running)) =
   initialCallbacks hs (Some 5%nat) (early running) ++ pushes hs (incoming running)) ∧
  (finals (cbs running) ≠ [] → Queue.closed (queue (cbs running)) = true ∧
     ∃ before, before_ok (Some 4%nat) running before ∧ finals (cbs running) `prefix_of` terminals (Some 6%nat) before) ∧
  direct running = [].
Proof. apply (client_callbacks_in_order hs (Some 4%nat) (Some 5%nat) (Some 6%nat) failed false false running reach_running). Defined.

(** A request waits, a kick arrives and the shutdown returns: the request has
    its result on the way. *)
Definition waiter : req := mkReq 1 BWait [] (Some (CFail failed)).

Lemma reach_closed_client :
  ∃ s, Reach s ∧ calls s !! 0%nat = Some KReturned ∧ reqs (trk s) !! 2%nat = Some waiter.
Proof.
  pose proof reach_s0 as H.
  take H ltac:(left; eapply (f_request_start _ _ _ _ _ _ 2 7 [])).
  take H ltac:(left; eapply (f_request _ _ _ _ _ _ 2); [| |eapply draw]).
  take H ltac:(left; eapply (f_request _ _ _ _ _ _ 2); [| |eapply store]).
  take H ltac:(right; eapply (y_send _ _ 2)).
  take H ltac:(left; eapply (f_frame _ _ _ _ _ _ kick)).
  take H ltac:(left; eapply (f_kick _ _ _ _ _ _ kick 0)).
  take H ltac:(left; eapply (f_call _ _ _ _ _ _ 0), c_first).
  take H ltac:(left; eapply (f_call _ _ _ _ _ _ 0), c_begin).
  take H ltac:(left; eapply (f_call _ _ _ _ _ _ 0), c_close).
  take H ltac:(left; eapply (f_call _ _ _ _ _ _ 0), c_conn).
  take H ltac:(left; eapply (f_call _ _ _ _ _ _ 0), c_fail).
  take H ltac:(left; eapply (f_call _ _ _ _ _ _ 0), (c_visit _ _ _ _ _ _ 1 2)).
  take H ltac:(left; eapply (f_call _ _ _ _ _ _ 0), c_visited; [| |by intros k p _; vm_compute]).
  take H ltac:(left; eapply (f_call _ _ _ _ _ _ 0), c_release).
  eexists. split; [exact H|]. split; vm_compute; reflexivity.
Qed.

Lemma client_close_ends_requests_witness :
  ∃ s, connClosed s = true ∧ closedT s = true ∧ (pc waiter = BWait ∨ pc waiter = BTimeout ∨ pc waiter = BDrain → signals waiter ≠ []).
Proof.
  destruct reach_closed_client as (s & Hr & Hi & Hp). exists s.
  apply (client_close_ends_requests hs (Some 4%nat) (Some 5%nat) (Some 6%nat) failed false false s 0 2 waiter Hr Hi Hp).
Defined.

(** A kick has just come in. *)
Definition kicked : core :=
  mkCore (cbs s0) (trk s0) ∅ OnceNew {[0%nat := KEnter (Some (CKick 4 9))]} RStop false [push] [kick] [].

Lemma reach_kicked : Reach kicked.
Proof.
  pose proof reach_s0 as H.
  take H ltac:(left; eapply (f_frame _ _ _ _ _ _ kick)).
  take H ltac:(left; eapply (f_kick _ _ _ _ _ _ kick 0)).
  exact H.
Qed.

Lemma client_close_completes_witness :
  ∃ s' before, rtc (free_step hs (Some 4%nat) (Some 6%nat) failed false) kicked s' ∧ calls s' !! 0%nat = Some KReturned ∧
    run (cbs s') = WExit ∧ before_ok (Some 4%nat) s' before ∧ finals (cbs s') = terminals (Some 6%nat) before.
Proof.
  apply (client_close_completes hs (Some 4%nat) (Some 5%nat) (Some 6%nat) failed false false kicked 0 (KEnter (Some (CKick 4 9))) reach_kicked). reflexivity.
Defined.
End ClientCoreExample.
