(* ===== verification/TcpClient.v ===== *)
(** * The TCP client (network/tcp/client.go)

    [NewClient] with its authentication over the frame codec, and the running
    client: the core of ClientCore, the write loop with the outbound channel,
    and the heartbeat loop.  [step] interleaves the read loop, the write loop,
    the ticker, the callers of [Request] and [Close] and the callback worker.
    Proved: the running client refines the core and the heartbeat protocol of
    Heartbeat; what is sent goes out in order and whole; a client exists only
    after an accepted authentication, and no connection is leaked. *)

From S2P Require Import Prelude Errors Proto Bufio Codec Queue Heartbeat Tracker Inbound ClientOptions ClientCore.

Definition _clientSendQueueSize : nat := 100.

(** ** Authentication *)

Section Authenticate.
Context (pb : Protobuf) (codec : Codec) (callbackQueueSize : Z).

(** The results of successive calls of [read]; the first error ends them. *)
Fixpoint replies (n : nat) (ioErr : error → error) (rd : Reader) : list (result Proto) :=
  match n with
  | O => []
  | S n =>
      match Tcp.readFrame codec rd with
      | (_, Err err) => [Err (ioErr err)]
      | (rd, Ok reply) => Ok reply :: replies n ioErr rd
      end
  end.

(** At most one frame more than the pushes that are kept is read. *)
Definition readAuthenticationReply (ioErr : error → error) (rd : Reader) : option (result (list Proto)) :=
  Auth.ReadReply "tcp" (ESentinel ErrAuthenticationRejected) callbackQueueSize
    (replies (S (Z.to_nat callbackQueueSize)) ioErr rd).

(** [authenticate]; [body] is the request that [proto.Marshal] encodes.  Only
    one input or output can fail, at time [now]. *)
Definition authenticate (setDeadline : option error) (authCtx : Ctx.t) (now : Z) (body : result bytes)
    (rd : Reader) (wr : Writer) : option (result (list Proto)) :=
  let ioErr := Auth.AuthenticationIOError authCtx now in
  match setDeadline with
  | Some err => Some (Err err)
  | None =>
      match body with
      | Err err => Some (Err err)
      | Ok body =>
          match Tcp.writeFrame pb codec wr (mkProto OpAuth 0 0 0 body) with
          | (_, Some err) => Some (Err (ioErr err))
          | (wr, None) =>
              match Flush wr with
              | (_, Some err) => Some (Err (ioErr err))
              | (_, None) => readAuthenticationReply ioErr rd
              end
          end
      end
  end.
End Authenticate.

(** ** The running client *)

(** The write loop; a stopped one remembers where it left the heartbeat. *)
Inductive owriter :=
| OLoop
| OHave (p : Proto)                         (* received from outbound *)
| OWriting (p : Proto)                      (* in writeMessage *)
| OFinishing                                (* in FinishWrite *)
| ORechecking
| OStop (w : Heartbeat.writer).

(** [queued]: the messages [send] accepted; [wire]: those written. *)
Record sys := mkSys {
  core : ClientCore.core;
  word : value;
  tkr : ticker;
  tickStopped : bool;
  wtr : owriter;
  rhb : Heartbeat.reader;
  outbound : list Proto;
  queued : list Proto;
  wire : list Proto;
  confirmed : nat;
  expired : nat;
}.
#[export] Instance eta_sys : Eta sys := λ s,
  mkSys (core s) (word s) (tkr s) (tickStopped s) (wtr s) (rhb s) (outbound s) (queued s) (wire s) (confirmed s) (expired s).

Definition heartbeat_frame : Proto := mkProto OpHeartbeat 0 0 0 [].

Section Client.
Context (pb : Protobuf) (codec : Codec).
Context (o : TcpClientOptions.clientOptions).

Abbreviation core_free :=
  (free_step (TcpClientOptions.pushHandlers o) (TcpClientOptions.kickHandler o) (TcpClientOptions.disconnectFunc o)
     (ESentinel NetErrClosed) false).
Abbreviation core_sync := (sync_step false).
Abbreviation Core_step :=
  (core_step (TcpClientOptions.pushHandlers o) (TcpClientOptions.kickHandler o) (TcpClientOptions.disconnectFunc o)
     (ESentinel NetErrClosed) false false).
Abbreviation Core_init :=
  (init_core (TcpClientOptions.pushHandlers o) (TcpClientOptions.connectFunc o)).
Abbreviation Core_reach :=
  (core_reach (TcpClientOptions.pushHandlers o) (TcpClientOptions.kickHandler o) (TcpClientOptions.connectFunc o)
     (TcpClientOptions.disconnectFunc o) (ESentinel NetErrClosed) false false).

Definition is_heartbeat (p : Proto) : bool := Op p =? OpHeartbeat.

(** [send], at the critical section of [sendMu]. *)
Definition send (p : Proto) (s : sys) : sys * option error :=
  if closedT (core s) then (s, Some (ESentinel NetErrClosed))
  else match Tcp.validateFrame pb codec p with
       | Some err => (s, Some err)
       | None =>
           if negb (is_heartbeat p || (Op p =? OpRequest)) then (s, Some (EText "tcp: unsupported outgoing operation"))
           else if (length (outbound s) <? _clientSendQueueSize)%nat
           then (s <| outbound := outbound s ++ [p] |> <| queued := queued s ++ [p] |>, None)
           else (s, Some (ESentinel ErrSendQueueFull))
       end.

(** A goroutine calls [Close] and does nothing after it. *)
Definition then_close (i : nat) (s : sys) : sys := s <| core := set_call i (KEnter None) (core s) |>.

Inductive client_step (s : sys) : sys → Prop :=
| s_core c : core_free (core s) c → client_step s (s <| core := c |>)
| s_send p r command body s1 err :
    reqs (trk (core s)) !! p = Some r → pc r = BSend → params (core s) !! p = Some (command, body) →
    send (request_message (rseq r) command body) s = (s1, err) →
    client_step s (s1 <| core := (core s) <| trk := set_req (trk (core s)) p
                                               (r <| pc := match err with None => BWait | Some _ => BCancel end |>) |> |>)
| s_leave i c : rdr (core s) = RLeave → calls (core s) !! i = None →
    c = set_call i (KEnter None) ((core s) <| rdr := RStop |>) → client_step s (s <| core := c |>)
(* handleIncoming: a heartbeat reply *)
| r_reply p :
    rdr (core s) = RGot p → Op p = OpHeartbeatReply → rhb s = Heartbeat.RWait → client_step s (s <| rhb := RLoad |>)
| r_load_ok : rhb s = RLoad → Reply_load (word s) = true → client_step s (s <| rhb := RSwap (word s) |>)
| r_load_bad p :
    rdr (core s) = RGot p → Op p = OpHeartbeatReply → rhb s = RLoad → Reply_load (word s) = false →
    client_step s (s <| rhb := RUnexpected |> <| core := (core s) <| rdr := RLeave |> |>)
| r_swap_ok p old :
    rdr (core s) = RGot p → Op p = OpHeartbeatReply → rhb s = RSwap old → CompareAndSwap (word s) old idle = (idle, true) →
    client_step s (s <| word := idle |> <| rhb := Heartbeat.RWait |> <| confirmed := S (confirmed s) |>
                     <| core := (core s) <| rdr := RLoop |> |>)
| r_swap_retry old :
    rhb s = RSwap old → (CompareAndSwap (word s) old idle).2 = false → client_step s (s <| rhb := RLoad |>).

Inductive ticker_step (s : sys) : sys → Prop :=
| t_done : tkr s = TWait → tickStopped s = false → closedT (core s) = true → ticker_step s (s <| tickStopped := true |>)
| t_fire : tkr s = TWait → tickStopped s = false → ticker_step s (s <| tkr := TLoad |>)
| t_load :
    tkr s = TLoad →
    ticker_step s (s <| tkr := match Tick_load (word s) with
                               | TickReturn r => after_tick r
                               | TickSwap old new r => TSwap old new r
                               end |>)
| t_swap_ok old new r :
    tkr s = TSwap old new r → CompareAndSwap (word s) old new = (new, true) →
    ticker_step s (s <| word := new |> <| tkr := after_tick r |>
                     <| expired := match r with TickTimeout => S (expired s) | _ => expired s end |>)
| t_swap_retry old new r :
    tkr s = TSwap old new r → (CompareAndSwap (word s) old new).2 = false → ticker_step s (s <| tkr := TLoad |>)
| t_send s1 err :
    tkr s = TSend → send heartbeat_frame s = (s1, err) →
    ticker_step s (s1 <| tkr := match err with None => TWait | Some _ => TCancel end |>)
| t_cancel i :
    tkr s = TCancel → calls (core s) !! i = None →
    ticker_step s (then_close i (s <| word := (CancelQueue (word s)).1 |> <| tkr := TStop |> <| tickStopped := true |>))
| t_timeout i :
    tkr s = TTimeout → tickStopped s = false → calls (core s) !! i = None →
    ticker_step s (then_close i (s <| tickStopped := true |>)).

Inductive writer_step (s : sys) : sys → Prop :=
| w_done : wtr s = OLoop → closedT (core s) = true → writer_step s (s <| wtr := OStop Heartbeat.WWait |>)
| w_take p rest : wtr s = OLoop → outbound s = p :: rest → writer_step s (s <| outbound := rest |> <| wtr := OHave p |>)
| w_plain p : wtr s = OHave p → is_heartbeat p = false → writer_step s (s <| wtr := OWriting p |>)
| w_begin p v :
    wtr s = OHave p → is_heartbeat p = true → BeginWrite (word s) = (v, true) →
    writer_step s (s <| word := v |> <| wtr := OWriting p |>)
| w_begin_bad p v i :
    wtr s = OHave p → is_heartbeat p = true → BeginWrite (word s) = (v, false) → calls (core s) !! i = None →
    writer_step s (then_close i (s <| word := v |> <| wtr := OStop WInvalidBegin |>))
| w_written p :
    wtr s = OWriting p →
    writer_step s (s <| wire := wire s ++ [p] |> <| wtr := if is_heartbeat p then OFinishing else OLoop |>)
| w_failed p i :
    wtr s = OWriting p → calls (core s) !! i = None →
    writer_step s (then_close i (s <| wtr := OStop (if is_heartbeat p then Heartbeat.WStop else Heartbeat.WWait) |>))
| w_finish v ok :
    wtr s = OFinishing → FinishWrite_swap (word s) = (v, ok) →
    writer_step s (s <| word := v |> <| wtr := if ok then OLoop else ORechecking |>)
| w_recheck : wtr s = ORechecking → FinishWrite_load (word s) = true → writer_step s (s <| wtr := OLoop |>)
| w_recheck_bad i :
    wtr s = ORechecking → FinishWrite_load (word s) = false → calls (core s) !! i = None →
    writer_step s (then_close i (s <| wtr := OStop WInvalidFinish |>)).

Definition step (s s' : sys) : Prop := client_step s s' ∨ ticker_step s s' ∨ writer_step s s'.

(** ** NewClient *)

(** What the world answers: the dial, the deadline, the encoded credentials,
    the connection, and whether the context is done after all. *)
Record world := mkWorld {
  dial : option error;
  setDeadline : option error;
  authCtx : Ctx.t;
  now : Z;
  request : result bytes;
  rd : Reader;
  wr : Writer;
  ctxErr : option error;
}.

(** A client, or an error with what became of the dialled connection. *)
Inductive made := Made (s : sys) | Refused (err : error) (conn_closed : bool).

Definition client_of (q : Queue.Queue) (pending : list Proto) : sys :=
  mkSys (core_of (TcpClientOptions.pushHandlers o) (TcpClientOptions.connectFunc o) q pending)
    idle TWait false OLoop Heartbeat.RWait [] [] [] 0 0.

(** [options]: the error of [resolveClientOptions], whose settings are [o]. *)
Definition NewClient (nilCtx : bool) (options : option error) (w : world) : option made :=
  let size := TcpClientOptions.callbackQueueSize o in
  if nilCtx then Some (Refused (EText "tcp: context is nil") false)
  else match options with
  | Some err => Some (Refused err false)
  | None =>
      match dial w with
      | Some err => Some (Refused err false)
      | None =>
          match authenticate pb codec size (setDeadline w) (authCtx w) (now w) (request w) (rd w) (wr w) with
          | None => None
          | Some (Err err) => Some (Refused err true)
          | Some (Ok pending) =>
              match ctxErr w with
              | Some err => Some (Refused err true)
              | None =>
                  if size <? zlen pending + callbackSlot (when (TcpClientOptions.connectFunc o))
                  then Some (Refused (EText "tcp: initial callbacks exceed callback queue capacity") true)
                  else
                    match Queue.New size with
                    | None => None
                    | Some q =>
                        let callbacks := initialCallbacks (TcpClientOptions.pushHandlers o) (TcpClientOptions.connectFunc o) pending in
                        match Queue.SubmitBatch (Some <$> callbacks) q with
                        | (q, Some _) => Some (Refused (EText "tcp: initial callbacks are unavailable") true)
                        | (q, None) => Some (Made (client_of q pending))
                        end
                    end
              end
          end
      end
  end.

Definition init_sys (s : sys) : Prop := ∃ w, NewClient false None w = Some (Made s).

Definition reach : sys → Prop := reachable init_sys step.

(** ** Refinement *)

Definition beats (ps : list Proto) : nat := length (filter (λ p, is_heartbeat p = true) ps).

Definition writer_of (w : owriter) : Heartbeat.writer :=
  match w with
  | OLoop => Heartbeat.WWait
  | OHave p => if is_heartbeat p then WBegin else Heartbeat.WWait
  | OWriting p => if is_heartbeat p then WWrite else Heartbeat.WWait
  | OFinishing => WFinish
  | ORechecking => WRecheck
  | OStop w => w
  end.

(** The heartbeat protocol the client runs. *)
Definition hb_of (s : sys) : Heartbeat.sys :=
  Heartbeat.mkSys (word s) (tkr s) (writer_of (wtr s)) (rhb s) (beats (outbound s)) (beats (wire s)) (confirmed s) (expired s).

Lemma beats_app a b : beats (a ++ b) = (beats a + beats b)%nat.
Proof. unfold beats. by rewrite filter_app, length_app. Qed.

Lemma beats_one p : beats [p] = if is_heartbeat p then 1%nat else 0%nat.
Proof. unfold beats. simpl. destruct (is_heartbeat p) eqn:E; [by rewrite filter_cons_True|by rewrite filter_cons_False by congruence]. Qed.

Lemma beats_cons p ps : beats (p :: ps) = (beats [p] + beats ps)%nat.
Proof. exact (beats_app [p] ps). Qed.

Lemma beats_snoc ps p : beats (ps ++ [p]) = if is_heartbeat p then S (beats ps) else beats ps.
Proof. rewrite beats_app, beats_one. destruct (is_heartbeat p); lia. Qed.

Lemma send_cases p s s1 err :
  send p s = (s1, err) →
  (err ≠ None ∧ s1 = s) ∨
  (err = None ∧ closedT (core s) = false ∧ Tcp.validateFrame pb codec p = None ∧
   (Op p = OpHeartbeat ∨ Op p = OpRequest) ∧ (length (outbound s) < _clientSendQueueSize)%nat ∧
   s1 = s <| outbound := outbound s ++ [p] |> <| queued := queued s ++ [p] |>).
Proof.
  unfold send, is_heartbeat. destruct (closedT (core s)); [by intros [= <- <-]; left|].
  destruct (Tcp.validateFrame pb codec p); [by intros [= <- <-]; left|].
  destruct (Z.eqb_spec (Op p) OpHeartbeat), (Z.eqb_spec (Op p) OpRequest); simpl;
    try (by intros [= <- <-]; left);
    (destruct (Nat.ltb_spec (length (outbound s)) _clientSendQueueSize); intros [= <- <-]; [right|by left]; split_and!; auto).
Qed.

Lemma request_no_beat k command body : is_heartbeat (request_message k command body) = false.
Proof. done. Qed.

(** A call of [Close] is one of the core. *)
Lemma close_sim s i : calls (core s) !! i = None → Core_step (core s) (core (then_close i s)).
Proof. intros Hi. left. by apply f_close. Qed.

Lemma core_client s s' : client_step s s' → core s' = core s ∨ Core_step (core s) (core s').
Proof.
  intros [c H|p r command body s1 err Hr Hp Hps Hs|i c Hr Hi ->|p Hr Hop Hh|Hh Hl|p Hr Hop Hh Hl|p old Hr Hop Hh Hc|old Hh Hc]; auto.
  - right. by left.
  - right. right. simpl. destruct (send_cases _ _ _ _ Hs) as [[He ->]|(-> & Hcl & _)].
    + destruct err; [|done]. by eapply y_send_err.
    + by eapply y_send.
  - right. right. by apply y_leave.
  - right. right. by eapply y_reply_bad.
  - right. right. by eapply y_reply.
Qed.

Lemma send_core p s s1 err : send p s = (s1, err) → core s1 = core s.
Proof. intros H. by destruct (send_cases _ _ _ _ H) as [[_ ->]|(_ & _ & _ & _ & _ & ->)]. Qed.

Lemma core_sim s s' : step s s' → core s' = core s ∨ Core_step (core s) (core s').
Proof.
  intros [H|[H|H]]; [by apply core_client| |].
  - destruct H; auto; try (by right; apply (close_sim (s <| tickStopped := true |>))).
    + left. by apply (send_core _ _ _ _ H0).
    + right. by apply (close_sim s).
    + right. by apply (close_sim s).
  - destruct H; auto; right; by apply (close_sim s).
Qed.

(** The core can move whatever the transport does. *)
Lemma core_lift s c : rtc core_free (core s) c → rtc step s (s <| core := c |>).
Proof.
  remember (core s) as c0 eqn:E. intros H. revert s E. induction H as [c|c c1 c2 Hs _ IH]; intros s ->.
  - by destruct s.
  - eapply rtc_l; [left; by apply (s_core _ c1)|]. exact (IH (s <| core := c1 |>) eq_refl).
Qed.

Lemma send_beats p s s1 err :
  send p s = (s1, err) →
  word s1 = word s ∧ tkr s1 = tkr s ∧ wtr s1 = wtr s ∧ rhb s1 = rhb s ∧ wire s1 = wire s ∧ confirmed s1 = confirmed s ∧
  expired s1 = expired s ∧
  beats (outbound s1) = if is_heartbeat p then (if err is None then S (beats (outbound s)) else beats (outbound s)) else beats (outbound s).
Proof.
  intros H. destruct (send_cases _ _ _ _ H) as [[He ->]|(-> & _ & _ & _ & _ & ->)].
  - split_and!; try done. destruct err; [|done]. by destruct (is_heartbeat p).
  - simpl. split_and!; try done. by rewrite beats_snoc.
Qed.

Lemma hb_client s s' : client_step s s' → hb_of s' = hb_of s ∨ Heartbeat.step (hb_of s) (hb_of s').
Proof.
  intros [c H|p r command body s1 err Hr Hp Hps Hs|i c Hr Hi ->|p Hr Hop Hh|Hh Hl|p Hr Hop Hh Hl|p old Hr Hop Hh Hc|old Hh Hc]; auto.
  - left. destruct (send_beats _ _ _ _ Hs) as (E1 & E2 & E3 & E4 & E5 & E6 & E7 & E8). unfold hb_of; simpl.
    rewrite request_no_beat in E8. congruence.
  - right. right. right. by apply (read_reply (hb_of s)).
  - right. right. right. pose proof (read_load (hb_of s) Hh) as Hst. simpl in Hst. by rewrite Hl in Hst.
  - right. right. right. pose proof (read_load (hb_of s) Hh) as Hst. simpl in Hst. by rewrite Hl in Hst.
  - right. right. right. exact (read_swap_ok (hb_of s) old Hh Hc).
  - right. right. right. exact (read_swap_retry (hb_of s) old Hh Hc).
Qed.

Lemma hb_ticker s s' : ticker_step s s' → hb_of s' = hb_of s ∨ Heartbeat.step (hb_of s) (hb_of s').
Proof.
  intros [Hk Hn Hd|Hk Hn|Hk|old new r Hk Hc|old new r Hk Hc|s1 err Hk Hs|i Hk Hi|i Hk Hn Hi]; auto; right; left.
  - by apply (tick_fires (hb_of s)).
  - exact (tick_load (hb_of s) Hk).
  - exact (tick_swap_ok (hb_of s) old new r Hk Hc).
  - exact (tick_swap_retry (hb_of s) old new r Hk Hc).
  - destruct (send_beats _ _ _ _ Hs) as (E1 & E2 & E3 & E4 & E5 & E6 & E7 & E8). unfold hb_of; simpl. simpl in E8.
    destruct err; rewrite E1, E3, E4, E5, E6, E7, E8; [exact (tick_send_failed (hb_of s) Hk)|exact (tick_send_ok (hb_of s) Hk)].
  - exact (tick_cancel (hb_of s) Hk).
Qed.

Lemma hb_writer s s' : writer_step s s' → hb_of s' = hb_of s ∨ Heartbeat.step (hb_of s) (hb_of s').
Proof.
  intros [Hw Hd|p rest Hw Ho|p Hw Hh|p v Hw Hh Hb|p v i Hw Hh Hb Hi|p Hw|p i Hw Hi|v ok Hw Hf|Hw Hf|i Hw Hf Hi].
  - left. unfold hb_of; simpl. by rewrite Hw.
  - destruct (is_heartbeat p) eqn:Hh.
    + right. right. left. unfold hb_of; simpl. rewrite Hw, Ho, beats_cons, beats_one, Hh; simpl.
      exact (write_take (Heartbeat.mkSys (word s) (tkr s) Heartbeat.WWait (rhb s) (S (beats rest)) (beats (wire s)) (confirmed s) (expired s)) _ eq_refl eq_refl).
    + left. unfold hb_of; simpl. by rewrite Hw, Ho, beats_cons, beats_one, Hh.
  - left. unfold hb_of; simpl. by rewrite Hw; simpl; rewrite Hh.
  - right. right. left. unfold hb_of; simpl. rewrite Hw; simpl. rewrite Hh.
    exact (write_begin (Heartbeat.mkSys (word s) (tkr s) WBegin (rhb s) _ _ _ _) v true eq_refl Hb).
  - right. right. left. unfold hb_of; simpl. rewrite Hw; simpl. rewrite Hh.
    exact (write_begin (Heartbeat.mkSys (word s) (tkr s) WBegin (rhb s) _ _ _ _) v false eq_refl Hb).
  - destruct (is_heartbeat p) eqn:Hh.
    + right. right. left. unfold hb_of; simpl. rewrite Hw, beats_snoc; simpl. rewrite Hh.
      exact (write_message (Heartbeat.mkSys (word s) (tkr s) WWrite (rhb s) _ _ _ _) eq_refl).
    + left. unfold hb_of; simpl. rewrite Hw, beats_snoc; simpl. by rewrite Hh.
  - destruct (is_heartbeat p) eqn:Hh.
    + right. right. left. unfold hb_of; simpl. rewrite Hw; simpl. rewrite Hh.
      exact (write_failed (Heartbeat.mkSys (word s) (tkr s) WWrite (rhb s) _ _ _ _) eq_refl).
    + left. unfold hb_of; simpl. rewrite Hw; simpl. by rewrite Hh.
  - right. right. left. unfold hb_of; simpl. rewrite Hw; simpl.
    pose proof (write_finish (Heartbeat.mkSys (word s) (tkr s) WFinish (rhb s) (beats (outbound s)) (beats (wire s)) (confirmed s) (expired s)) v ok eq_refl Hf) as H.
    by destruct ok.
  - right. right. left. unfold hb_of; simpl. rewrite Hw; simpl.
    pose proof (write_recheck (Heartbeat.mkSys (word s) (tkr s) WRecheck (rhb s) (beats (outbound s)) (beats (wire s)) (confirmed s) (expired s)) eq_refl) as H.
    simpl in H. by rewrite Hf in H.
  - right. right. left. unfold hb_of; simpl. rewrite Hw; simpl.
    pose proof (write_recheck (Heartbeat.mkSys (word s) (tkr s) WRecheck (rhb s) (beats (outbound s)) (beats (wire s)) (confirmed s) (expired s)) eq_refl) as H.
    simpl in H. by rewrite Hf in H.
Qed.

Lemma hb_sim s s' : step s s' → hb_of s' = hb_of s ∨ Heartbeat.step (hb_of s) (hb_of s').
Proof. intros [H|[H|H]]; [by apply hb_client|by apply hb_ticker|by apply hb_writer]. Qed.

(** ** What NewClient makes *)

Lemma init_core_of s : init_sys s → Core_init (core s) ∧ hb_of s = Heartbeat.mkSys idle TWait Heartbeat.WWait Heartbeat.RWait 0 0 0 0.
Proof.
  intros [w H]. unfold NewClient in H. cbv zeta in H. destruct (dial w); [done|].
  destruct (authenticate _ _ _ _ _ _ _ _ _) as [[pending|]|]; [|done|done]. destruct (ctxErr w); [done|].
  destruct (_ <? _); [done|]. destruct (Queue.New _) as [q0|] eqn:Eq; [|done].
  destruct (SubmitBatch _ q0) as [q [e|]] eqn:Es; [done|]. injection H as <-. split; [|done].
  exists (TcpClientOptions.callbackQueueSize o), q0, q, pending. done.
Qed.

Lemma reach_parts s : reach s → Core_reach (core s) ∧ Heartbeat.reach (hb_of s).
Proof.
  revert s. apply (invariant_reachable init_sys step (λ s, Core_reach (core s) ∧ Heartbeat.reach (hb_of s))).
  - intros s [H1 H2]%init_core_of. split; [by apply reach_init|]. rewrite H2. by apply reach_init.
  - intros s s' _ [H1 H2] Hs. split.
    + destruct (core_sim _ _ Hs) as [->|Hc]; [done|]. by eapply reach_step.
    + destruct (hb_sim _ _ Hs) as [->|Hc]; [done|]. by eapply reach_step.
Qed.

(** ** What is sent *)

(** What the write loop holds. *)
Definition in_hand (w : owriter) : list Proto := match w with OHave p | OWriting p => [p] | _ => [] end.

Definition sendable_op (p : Proto) : Prop :=
  (Op p = OpHeartbeat ∨ Op p = OpRequest) ∧ Tcp.validateFrame pb codec p = None.

Record out_ok (s : sys) : Prop := mkOut {
  o_order : match wtr s with
            | OStop _ => ∃ lost, queued s = wire s ++ lost ++ outbound s ∧ (length lost ≤ 1)%nat
            | w => queued s = wire s ++ in_hand w ++ outbound s
            end;
  o_bound : (length (outbound s) ≤ _clientSendQueueSize)%nat;
  o_ops : Forall sendable_op (queued s);
}.

Lemma out_same s s' :
  out_ok s → wtr s' = wtr s → queued s' = queued s → wire s' = wire s → outbound s' = outbound s → out_ok s'.
Proof. intros [H1 H2 H3] E1 E2 E3 E4. split; by rewrite ?E1, ?E2, ?E3, ?E4. Qed.

Lemma out_send p s s1 err : out_ok s → send p s = (s1, err) → out_ok s1.
Proof.
  intros [H1 H2 H3] H. destruct (send_cases _ _ _ _ H) as [[_ ->]|(_ & _ & Hv & Hop & Hl & ->)]; [done|]. split; simpl.
  - destruct (wtr s); simpl in *; try (by rewrite H1, <- ?app_assoc). destruct H1 as (lost & -> & Hn). exists lost.
    by rewrite <- !app_assoc.
  - rewrite length_app; simpl. lia.
  - apply Forall_app. by split; [|apply Forall_singleton].
Qed.

Lemma out_writer s s' : out_ok s → writer_step s s' → out_ok s'.
Proof.
  intros [H1 H2 H3] Hs.
  destruct Hs as [Hw Hd|p rest Hw Ho|p Hw Hh|p v Hw Hh Hb|p v i Hw Hh Hb Hi|p Hw|p i Hw Hi|v ok Hw Hf|Hw Hf|i Hw Hf Hi];
    rewrite Hw in H1; simpl in H1; split; simpl; try done.
  - exists []. split; [done|simpl; lia].
  - rewrite Ho in H1. done.
  - rewrite Ho in H2; simpl in H2. lia.
  - exists [p]. split; [done|simpl; lia].
  - rewrite H1. by destruct (is_heartbeat p); rewrite <- app_assoc.
  - exists [p]. split; [done|simpl; lia].
  - by destruct ok.
  - exists []. split; [done|simpl; lia].
Qed.

Lemma out_step s s' : out_ok s → step s s' → out_ok s'.
Proof.
  intros Ho [H|[H|H]]; [| |by eapply out_writer].
  - destruct H as [| ? ? ? ? s1 err _ _ _ Hs| | | | | |]; try (by apply (out_same s)).
    apply (out_same s1); [by eapply out_send|done..].
  - destruct H as [| | | | |s1 err _ Hs| |]; try (by apply (out_same s)). apply (out_same s1); [by eapply out_send|done..].
Qed.

Lemma reach_out s : reach s → out_ok s.
Proof.
  revert s. apply (invariant_reachable init_sys step out_ok); [|intros s s' _; apply out_step].
  intros s [w H]. unfold NewClient in H. cbv zeta in H. destruct (dial w); [done|].
  destruct (authenticate _ _ _ _ _ _ _ _ _) as [[pending|]|]; [|done|done]. destruct (ctxErr w); [done|].
  destruct (_ <? _); [done|]. destruct (Queue.New _) as [q0|] eqn:Eq; [|done].
  destruct (SubmitBatch _ q0) as [q [e|]] eqn:Es; [done|]. injection H as <-. split; simpl; [done|unfold _clientSendQueueSize; lia|done].
Qed.

Lemma queued_step s s' : step s s' → closedT (core s) = true → queued s' = queued s.
Proof.
  intros [H|[H|H]] Hc.
  - destruct H as [| ? ? ? ? s1 err _ _ _ Hs| | | | | |]; try done. simpl.
    by destruct (send_cases _ _ _ _ Hs) as [[_ ->]|(_ & ? & _)]; [|congruence].
  - destruct H as [| | | | |s1 err _ Hs| |]; try done. simpl.
    by destruct (send_cases _ _ _ _ Hs) as [[_ ->]|(_ & ? & _)]; [|congruence].
  - by destruct H.
Qed.

(** ** Authentication always answers *)

Lemma replies_enough n ioErr r : enough n (replies codec n ioErr r).
Proof.
  revert r. induction n as [|n IH]; intros r; simpl; [by left|]. destruct (Tcp.readFrame codec r) as [r' [reply|err]].
  - by apply enough_cons.
  - right. by exists [], (ioErr err).
Qed.

Lemma authenticate_answers sd ctx t body r w :
  let size := TcpClientOptions.callbackQueueSize o in
  0 < size → ∃ a, authenticate pb codec size sd ctx t body r w = Some a ∧ ∀ ps, a = Ok ps → Forall (λ p, Op p = OpPush) ps.
Proof.
  intros size Hs. unfold authenticate. destruct sd; [by eexists|]. destruct body as [body|]; [|by eexists].
  destruct (Tcp.writeFrame _ _ _ _) as [w1 [e|]]; [by eexists|]. destruct (Flush w1) as [w2 [e|]]; [by eexists|].
  unfold readAuthenticationReply, Auth.ReadReply. by apply ReadReply_answers, replies_enough.
Qed.

(** ** Properties *)

(** [NewClient] always answers, and leaks nothing: it returns a client
    only when the connection was dialled, the credentials were accepted and
    the context is not done, and the client starts with the connect callback
    and the pushes that came before the reply; otherwise it returns an error,
    and the connection, if one was dialled, is closed. *)
Theorem tcp_new_client nilCtx options w :
  0 < TcpClientOptions.callbackQueueSize o →
  ∃ m, NewClient nilCtx options w = Some m ∧
  match m with
  | Refused err closed =>
      closed = negb nilCtx && negb (when options) && negb (when (dial w))
  | Made s =>
      nilCtx = false ∧ options = None ∧ dial w = None ∧ ctxErr w = None ∧ reach s ∧
      authenticate pb codec (TcpClientOptions.callbackQueueSize o) (setDeadline w) (authCtx w) (now w) (request w) (rd w) (wr w) = Some (Ok (early (core s))) ∧
      Forall (λ p, Op p = OpPush) (early (core s)) ∧
      accepted (cbs (core s)) = initialCallbacks (TcpClientOptions.pushHandlers o) (TcpClientOptions.connectFunc o) (early (core s))
  end.
Proof.
  intros Hs. unfold NewClient. cbv zeta. destruct nilCtx; [by eexists|]. destruct options as [e|]; [by eexists|].
  destruct (dial w) eqn:Ed; [by eexists|].
  destruct (authenticate_answers (setDeadline w) (authCtx w) (now w) (request w) (rd w) (wr w) Hs) as ([pending|e] & Ea & Hp);
    rewrite Ea; [|by eexists].
  destruct (ctxErr w) eqn:Ec; [by eexists|].
  destruct (Z.ltb_spec (TcpClientOptions.callbackQueueSize o) (zlen pending + callbackSlot (when (TcpClientOptions.connectFunc o)))) as [Hl|Hl];
    [by eexists|].
  destruct (Queue.New (TcpClientOptions.callbackQueueSize o)) as [q|] eqn:Eq; [|by unfold Queue.New in Eq; destruct (Z.leb_spec (TcpClientOptions.callbackQueueSize o) 0); [lia|]].
  destruct (initial_fits (TcpClientOptions.pushHandlers o) _ _ q pending Eq Hl) as [q' Es]. rewrite Es. eexists. split; [done|]. simpl. split_and!; try done; [|by apply Hp].
  apply reach_init. exists w. unfold NewClient. cbv zeta. rewrite Ed, Ea, Ec, (proj2 (Z.ltb_ge _ _) Hl), Eq, Es. done.
Qed.

(** C28: The running client refines the parts it is made of: every step of it
    is a step of the shared core and of the heartbeat protocol, or leaves
    them alone, so that what holds of their reachable states holds of the
    client. *)
Theorem tcp_client_refines s :
  reach s →
  Core_reach (core s) ∧ Heartbeat.reach (hb_of s) ∧
  ∀ s', step s s' →
    (core s' = core s ∨ Core_step (core s) (core s')) ∧ (hb_of s' = hb_of s ∨ Heartbeat.step (hb_of s) (hb_of s')).
Proof.
  intros Hr. destruct (reach_parts s Hr) as [H1 H2]. split_and!; [done|done|]. intros s' Hs. split; [by apply core_sim|by apply hb_sim].
Qed.

(** What the client sends goes out in order, whole and once: the messages
    written are those [send] accepted, in order, up to the one the write loop
    holds and those in the channel; the channel holds at most its capacity,
    every message is a request or a heartbeat that fits a frame, at most one
    heartbeat waits, the write loop never finds the heartbeat in a state it
    cannot write, and after the client is closed nothing is accepted. *)
Theorem tcp_client_sends_in_order s :
  reach s →
  (∃ kept, queued s = wire s ++ kept ++ outbound s ∧ (length kept ≤ 1)%nat ∧
     ((∀ w, wtr s ≠ OStop w) → kept = in_hand (wtr s))) ∧
  (length (outbound s) ≤ _clientSendQueueSize)%nat ∧ Forall sendable_op (queued s) ∧ (beats (outbound s) ≤ 1)%nat ∧
  wtr s ≠ OStop WInvalidBegin ∧ wtr s ≠ OStop WInvalidFinish ∧
  (closedT (core s) = true → ∀ s', step s s' → queued s' = queued s).
Proof.
  intros Hr. destruct (reach_out s Hr) as [O1 O2 O3]. destruct (reach_parts s Hr) as [_ Hh].
  apply hb_inv_reach in Hh as (Hw & Hwr & _). unfold word_ok, holders, writer_ok in Hw, Hwr. simpl in Hw, Hwr. split_and!; try done.
  - destruct (wtr s) as [|p|p| | |w]; [exists []|exists [p]|exists [p]|exists []|exists []|];
      try (split_and!; [done|simpl; lia|done]). destruct O1 as (lost & E & Hl). exists lost. split_and!; [done|done|]. intros Hn. by destruct (Hn w).
  - destruct (word s); lia.
  - intros E. by rewrite E in Hwr.
  - intros E. by rewrite E in Hwr.
  - intros Hc s' Hs. by apply queued_step.
Qed.
End Client.

(** ** Witnesses *)

Module TcpClientExample.
Import CodecExample.
Definition push : Proto := mkProto OpPush 0 0 7 [].
Definition accepted_reply : Proto := mkProto OpAuthReply 0 0 0 [].

Definition o : TcpClientOptions.clientOptions :=
  TcpClientOptions.mkClientOptions "127.0.0.1:3101" "game" "secret" None (Some (fixed true)) {[7 := Some 3%nat]} (Some 4%nat)
    (Some 6%nat) (Some 5%nat) (5 * Second) (15 * Second) (10 * Second) (30 * Second) 64.

(** The server pushes a message and accepts the credentials. *)
Definition w0 : world :=
  mkWorld None None Ctx.Background 0 (Ok [])
    (NewReaderSize [frame (enc push) ++ frame (enc accepted_reply)] (ESentinel IoEOF) 4096)
    (NewWriterSize None (ESentinel NetErrClosed) 4096) None.

Abbreviation Step := (step fixed_pb (fixed true) o).
Abbreviation Reach := (reach fixed_pb (fixed true) o).

Definition dummy : sys := client_of o (mkQueue 1 false false [] [] false) [].
Definition s0 : sys := Eval vm_compute in
  match NewClient fixed_pb (fixed true) o false None w0 with Some (Made s) => s | _ => dummy end.

Lemma made_s0 : NewClient fixed_pb (fixed true) o false None w0 = Some (Made s0).
Proof. vm_compute. reflexivity. Qed.

Lemma tcp_new_client_witness :
  ∃ m, NewClient fixed_pb (fixed true) o false None w0 = Some m ∧
  match m with
  | Refused err closed => closed = negb false && negb (when (None : option error)) && negb (when (dial w0))
  | Made s =>
      false = false ∧ (None : option error) = None ∧ dial w0 = None ∧ ctxErr w0 = None ∧ Reach s ∧
      authenticate fixed_pb (fixed true) (TcpClientOptions.callbackQueueSize o) (setDeadline w0) (authCtx w0) (now w0)
        (request w0) (rd w0) (wr w0) = Some (Ok (early (core s))) ∧
      Forall (λ p, Op p = OpPush) (early (core s)) ∧
      accepted (cbs (core s)) = initialCallbacks (TcpClientOptions.pushHandlers o) (TcpClientOptions.connectFunc o) (early (core s))
  end.
Proof. apply (tcp_new_client fixed_pb (fixed true) o false None w0). reflexivity. Defined.

Ltac take H tac :=
  let H' := fresh in
  lazymatch type of H with
  | Reach ?s =>
      eassert (H' : Step s _) by (tac; first [reflexivity|discriminate|vm_compute; reflexivity]);
      apply (reach_step _ _ _ _ H) in H'; cbn in H'; clear H; rename H' into H;
      change (reachable (init_sys fixed_pb (fixed true) o) Step) with Reach in H
  end.

(** A heartbeat was written and waits for its reply, and a request is queued. *)
Lemma reach_sending :
  ∃ s, Reach s ∧ word s = outstanding ∧ wire s = [heartbeat_frame] ∧ outbound s = [request_message 1 7 []].
Proof.
  assert (H : Reach s0) by (apply reach_init; exists w0; exact made_s0).
  take H ltac:(right; left; eapply t_fire).
  take H ltac:(right; left; eapply t_load).
  take H ltac:(right; left; eapply t_swap_ok).
  take H ltac:(right; left; eapply t_send).
  take H ltac:(left; eapply s_core, (f_request_start _ _ _ _ _ _ 2 7 [])).
  take H ltac:(left; eapply s_core, (f_request _ _ _ _ _ _ 2); [| |eapply draw]).
  take H ltac:(left; eapply s_core, (f_request _ _ _ _ _ _ 2); [| |eapply store]).
  take H ltac:(left; eapply (s_send _ _ _ _ 2)).
  take H ltac:(right; right; eapply w_take).
  take H ltac:(right; right; eapply w_begin).
  take H ltac:(right; right; eapply w_written).
  take H ltac:(right; right; eapply w_finish).
  eexists. split; [exact H|]. split_and!; vm_compute; reflexivity.
Qed.

Lemma tcp_client_refines_witness :
  ∃ s, wire s = [heartbeat_frame] ∧ Heartbeat.reach (hb_of s).
Proof.
  destruct reach_sending as (s & Hr & _ & Hw & _). exists s. split; [exact Hw|].
  apply (tcp_client_refines fixed_pb (fixed true) o s Hr).
Defined.

Lemma tcp_client_sends_in_order_witness :
  ∃ s, (length (outbound s) ≤ _clientSendQueueSize)%nat ∧ (beats (outbound s) ≤ 1)%nat ∧ wire s = [heartbeat_frame].
Proof.
  destruct reach_sending as (s & Hr & _ & Hw & _). exists s.
  destruct (tcp_client_sends_in_order fixed_pb (fixed true) o s Hr) as (_ & H1 & _ & H2 & _). by split_and!.
Defined.
End TcpClientExample.
