(* ===== verification/WsClient.v ===== *)
(** * The WebSocket client (network/websocket/client.go)

    The core of ClientCore over the channel of WsChannel: [NewClient] with its
    authentication, requests that go out through [SendProto], the heartbeat
    loop, and the read loop that closes the channel, waits for its writer and
    shuts the client down when it ends.  Whoever holds the channel may use and
    close it too.  Proved: the client refines the core and the channel, agrees
    with the channel on when it is closed, and has closed the connection when
    its shutdown is over; a client exists only after an accepted
    authentication, and no connection is leaked. *)

From S2P Require Import Prelude Errors Proto Heartbeat Codec Outbound WsServer WsChannel Queue Tracker Inbound ClientOptions ClientCore.

(** ** Authentication *)

(** [conn.ReadMessage]: an error, or whether the message is binary, and its
    bytes.  After the messages, every read fails with [fin]. *)
Record messages := mkMessages { msgs : list (bool * bytes); fin : error }.

Section Authenticate.
Context (codec : Codec) (callbackQueueSize : Z).

Fixpoint replies (n : nat) (ioErr : error → error) (ms : list (bool * bytes)) (fin : error) : list (result Proto) :=
  match n with
  | O => []
  | S n =>
      match ms with
      | [] => [Err (ioErr fin)]
      | (false, _) :: _ => [Err (EText "websocket: invalid authentication response")]
      | (true, body) :: ms =>
          match Ws.unmarshalFrame codec body with
          | Err err => [Err err]
          | Ok reply => Ok reply :: replies n ioErr ms fin
          end
      end
  end.

Definition readAuthenticationReply (ioErr : error → error) (m : messages) : option (result (list Proto)) :=
  Auth.ReadReply "websocket" (ESentinel ErrAuthenticationRejected) callbackQueueSize
    (replies (S (Z.to_nat callbackQueueSize)) ioErr (msgs m) (fin m)).

(** [deadlines]: the results of the two deadline calls; [write]: that of
    [WriteMessage]. *)
Definition authenticate (deadlines : option error * option error) (authCtx : Ctx.t) (now : Z) (body : result bytes)
    (write : option error) (m : messages) : option (result (list Proto)) :=
  let ioErr := Auth.AuthenticationIOError authCtx now in
  match deadlines with
  | (Some err, _) | (None, Some err) => Some (Err err)
  | (None, None) =>
      match body with
      | Err err => Some (Err err)
      | Ok body =>
          match Ws.marshalFrame codec (Some (mkProto OpAuth 0 0 0 body)) with
          | (_, Some err) => Some (Err err)
          | (_, None) =>
              match write with
              | Some err => Some (Err (ioErr err))
              | None => readAuthenticationReply ioErr m
              end
          end
      end
  end.
End Authenticate.

(** ** The running client *)

(** The heartbeat loop. *)
Inductive ticking := KLoop | KSend | KCancel | KClose | KStop.

(** The end of the read loop: nothing yet, inside the [closeWithReason] of an
    unexpected reply, or inside that of the deferred function. *)
Inductive leaving := LNone | LFirst (k : nat) | LWait (k : nat).

(** [closer]: the call of [closeWithReason] made by the shutdown. *)
Record sys := mkSys {
  core : ClientCore.core;
  chan : WsChannel.sys;
  tkr : ticking;
  leave : leaving;
  closer : option nat;
}.
#[export] Instance eta_sys : Eta sys := λ s, mkSys (core s) (chan s) (tkr s) (leave s) (closer s).

Section Client.
Context (codec : Codec).
Context (o : WsClientOptions.clientOptions).

Abbreviation core_free :=
  (free_step (WsClientOptions.pushHandler o) (WsClientOptions.kickHandler o) (WsClientOptions.disconnectFunc o)
     (ESentinel ErrNotConnected) true).
Abbreviation Core_step :=
  (core_step (WsClientOptions.pushHandler o) (WsClientOptions.kickHandler o) (WsClientOptions.disconnectFunc o)
     (ESentinel ErrNotConnected) true true).
Abbreviation Core_init := (init_core (WsClientOptions.pushHandler o) (WsClientOptions.connectFunc o)).
Abbreviation Core_reach :=
  (core_reach (WsClientOptions.pushHandler o) (WsClientOptions.kickHandler o) (WsClientOptions.connectFunc o)
     (WsClientOptions.disconnectFunc o) (ESentinel ErrNotConnected) true true).
Abbreviation Chan_step := (WsChannel.step codec).

Definition set_thr (k : nat) (t : WsChannel.call * WsChannel.pc) (c : WsChannel.sys) : WsChannel.sys :=
  c <| thr := <[k := t]> (thr c) |>.

(** [SendProto] or [sendHeartbeat], called as thread [k]. *)
Definition enqueue (k : nat) (p : Proto) (beat : bool) (c : WsChannel.sys) : option (WsChannel.sys * option error) :=
  match enqueueProto codec (Some p) beat with
  | inl err => Some (c, Some err)
  | inr f =>
      match f with
      | CEnqueue payload beat encoded =>
          match enqueueFrame payload beat encoded (ch c) with
          | Some (c', Returned err, out) =>
              Some (set_thr k (f, Returned err) (c <| ch := c' |> <| WsChannel.accepted := WsChannel.accepted c ++ option_list out |>), err)
          | _ => None
          end
      | _ => None
      end
  end.

Definition with_hb (v : value) (c : WsChannel.sys) : WsChannel.sys := c <| ch := (ch c) <| hb := v |> |>.

(** The steps of the channel's writer, of its context and of whoever else
    uses the channel; only the client sends heartbeats. *)
Inductive chan_free (c : WsChannel.sys) : WsChannel.sys → Prop :=
| n_call k f :
    thr c !! k = None → (f = COnContext → WsChannel.ctxErr (ch c) ≠ None) →
    (∀ payload encoded, f ≠ CEnqueue payload true encoded) → chan_free c (set_thr k (f, Entry) c)
| n_exec k f pc sel sockErr c' pc' out :
    thr c !! k = Some (f, pc) →
    exec codec (λ n, ctxs c !! n) (results c !! k) k f pc sel sockErr (ch c) = Some (c', pc', out) →
    chan_free c (c <| ch := c' |> <| thr := <[k := (f, pc')]> (thr c) |>
                   <| WsChannel.accepted := WsChannel.accepted c ++ option_list out |>)
| n_writer c' : WsChannel.writer_step c c' → chan_free c c'
| n_parent err :
    WsChannel.ctxErr (ch c) = None → chan_free c (c <| ch := (ch c) <| WsChannel.ctxErr := Some err |> |>)
| n_ctx n err : ctxs c !! n = None → chan_free c (c <| ctxs := <[n := err]> (ctxs c) |>).

Definition ch_closed (c : WsChannel.sys) : bool := WsChannel.closed (ch c).

(** The core is told when the channel is closed. *)
Definition told (c : WsChannel.sys) (s : ClientCore.core) : ClientCore.core :=
  if ch_closed c && negb (closedT s) then s <| trk := (trk s) <| Tracker.closed := true |> |> else s.

(** A stage of the shutdown in which the channel takes part is left alone. *)
Definition keeps_stage (s s' : ClientCore.core) : Prop :=
  ∀ i rel, once s = OnceRunning i (XClose rel) ∨ once s = OnceRunning i (XConn rel) → once s' = once s.

Definition heartbeat_frame : Proto := Proto_zero <| Op := OpHeartbeat |>.

Inductive client_step (s : sys) : sys → Prop :=
| s_core c : core_free (core s) c → keeps_stage (core s) c → client_step s (s <| core := c |>)
| s_chan c : chan_free (chan s) c → client_step s (s <| chan := c |> <| core := told c (core s) |>)
| s_send p r command body k c err :
    reqs (trk (core s)) !! p = Some r → pc r = BSend → params (core s) !! p = Some (command, body) → thr (chan s) !! k = None →
    enqueue k (request_message (rseq r) command body) false (chan s) = Some (c, err) →
    client_step s (s <| chan := c |>
                     <| core := (core s) <| trk := set_req (trk (core s)) p
                                                     (r <| pc := match err with None => BWait | Some _ => BCancel end |>) |> |>)
(* shutdownWith: ch.closeWithReason *)
| s_close i rel k :
    once (core s) = OnceRunning i (XClose rel) → thr (chan s) !! k = None →
    client_step s
      (s <| chan := set_thr k (CClose, Ops [CloseConnection; WsChannel.Cancel] None None) ((chan s) <| ch := markClosed (ch (chan s)) |>) |>
         <| core := (core s) <| trk := (trk (core s)) <| Tracker.closed := true |> |> <| once := OnceRunning i (XConn rel) |> |>
         <| closer := Some k |>)
| s_conn i rel k err :
    once (core s) = OnceRunning i (XConn rel) → closer s = Some k → thr (chan s) !! k = Some (CClose, Returned err) →
    client_step s (s <| core := (core s) <| ClientCore.connClosed := true |> <| once := OnceRunning i (XFail rel) |> |>)
(* dispatchMessage: a heartbeat reply *)
| r_reply p v :
    rdr (core s) = RGot p → Op p = OpHeartbeatReply → Heartbeat.Reply (hb (ch (chan s))) = (v, true) →
    client_step s (s <| chan := with_hb v (chan s) |> <| core := (core s) <| rdr := RLoop |> |>)
| r_reply_bad p v k :
    rdr (core s) = RGot p → Op p = OpHeartbeatReply → Heartbeat.Reply (hb (ch (chan s))) = (v, false) → thr (chan s) !! k = None →
    client_step s (s <| chan := set_thr k (CClose, Entry) (chan s) |> <| core := (core s) <| rdr := RLeave |> |>
                     <| leave := LFirst k |>)
(* the deferred function of readLoop *)
| l_first k err :
    leave s = LFirst k → thr (chan s) !! k = Some (CClose, Returned err) → client_step s (s <| leave := LNone |>)
| l_close k :
    rdr (core s) = RLeave → leave s = LNone → thr (chan s) !! k = None →
    client_step s (s <| chan := set_thr k (CClose, Entry) (chan s) |> <| leave := LWait k |>)
| l_leave k err i :
    rdr (core s) = RLeave → leave s = LWait k → thr (chan s) !! k = Some (CClose, Returned err) →
    0 < writerDone (ch (chan s)) → calls (core s) !! i = None →
    client_step s (s <| core := set_call i (KEnter None) ((core s) <| rdr := RStop |>) |>)
(* heartbeat *)
| k_done : tkr s = KLoop → WsChannel.ctxErr (ch (chan s)) ≠ None → client_step s (s <| tkr := KStop |>)
| k_tick v r :
    tkr s = KLoop → Tick (hb (ch (chan s))) = (v, r) →
    client_step s (s <| chan := with_hb v (chan s) |>
                     <| tkr := match r with TickPending => KLoop | TickTimeout => KClose | TickQueue => KSend end |>)
| k_send k c err :
    tkr s = KSend → thr (chan s) !! k = None → enqueue k heartbeat_frame true (chan s) = Some (c, err) →
    client_step s (s <| chan := c |> <| tkr := match err with None => KLoop | Some _ => KCancel end |>)
| k_cancel :
    tkr s = KCancel →
    client_step s (s <| chan := with_hb (CancelQueue (hb (ch (chan s)))).1 (chan s) |> <| tkr := KClose |>)
| k_close k :
    tkr s = KClose → thr (chan s) !! k = None →
    client_step s (s <| chan := set_thr k (CClose, Entry) (chan s) |> <| tkr := KStop |>).

(** ** NewClient *)

Record world := mkWorld {
  dial : option error;
  deadlines : option error * option error;
  authCtx : Ctx.t;
  now : Z;
  request : result bytes;
  write : option error;
  received : messages;
  afterErr : option error;                  (* ctx.Err() after the authentication *)
  chanCtx : option error;                   (* the channel's context when it is made *)
}.

Inductive made := Made (s : sys) | Refused (err : error) (conn_closed : bool).

Definition send_queue : nat := match WsClientOptions.channel o with Some c => Z.to_nat (WsServer.SendQueueSize c) | None => 0 end.

Definition client_of (ctx : option error) (q : Queue.Queue) (pending : list Proto) : sys :=
  mkSys (core_of (WsClientOptions.pushHandler o) (WsClientOptions.connectFunc o) q pending)
    (WsChannel.mkSys (newChannel send_queue ctx) ∅ WLoop ∅ ∅ [] []) KLoop LNone None.

Definition NewClient (nilCtx : bool) (options : option error) (w : world) : option made :=
  let size := WsClientOptions.callbackQueueSize o in
  if nilCtx then Some (Refused (EText "websocket: context is nil") false)
  else match options with
  | Some err => Some (Refused err false)
  | None =>
      match dial w with
      | Some err => Some (Refused err false)
      | None =>
          match authenticate codec size (deadlines w) (authCtx w) (now w) (request w) (write w) (received w) with
          | None => None
          | Some (Err err) => Some (Refused err true)
          | Some (Ok pending) =>
              match afterErr w with
              | Some err => Some (Refused err true)
              | None =>
                  if size <? zlen pending + callbackSlot (when (WsClientOptions.connectFunc o))
                  then Some (Refused (EText "websocket: initial callbacks exceed callback queue capacity") true)
                  else
                    match Queue.New size with
                    | None => None
                    | Some q =>
                        let callbacks := initialCallbacks (WsClientOptions.pushHandler o) (WsClientOptions.connectFunc o) pending in
                        match Queue.SubmitBatch (Some <$> callbacks) q with
                        | (q, Some err) => Some (Refused err true)
                        | (q, None) => Some (Made (client_of (chanCtx w) q pending))
                        end
                    end
              end
          end
      end
  end.

Definition init_sys (s : sys) : Prop := ∃ w, NewClient false None w = Some (Made s).

Definition reach : sys → Prop := reachable init_sys client_step.

(** ** The channel *)

Lemma chan_free_step c c' : chan_free c c' → Chan_step c c'.
Proof.
  intros [k f Hk Hc _|k f pc sel e c1 pc' out Hk He|c1 Hw|err He|n err Hn];
    [by apply WsChannel.s_call|by eapply WsChannel.s_exec|by apply WsChannel.s_writer|by apply WsChannel.s_parent|by apply WsChannel.s_ctx].
Qed.

(** What no step of the channel undoes. *)
Record later (c c' : WsChannel.sys) : Prop := mkLater {
  lt_closed : ch_closed c = true → ch_closed c' = true;
  lt_once : connOnce (ch c) = true → connOnce (ch c') = true;
  lt_conn : WsChannel.connClosed (ch c) = true → WsChannel.connClosed (ch c') = true;
  lt_both : (connOnce (ch c) = true → WsChannel.connClosed (ch c) = true) →
            connOnce (ch c') = true → WsChannel.connClosed (ch c') = true;
}.

Lemma later_refl c : later c c.
Proof. by split. Qed.

Lemma later_trans c1 c2 c3 : later c1 c2 → later c2 c3 → later c1 c3.
Proof. intros [A1 A2 A3 A4] [B1 B2 B3 B4]. split; auto. Qed.

Lemma do_op_later op e (x : Channel) :
  (WsChannel.closed x = true → WsChannel.closed (do_op op e x).1 = true) ∧
  (connOnce x = true → connOnce (do_op op e x).1 = true) ∧
  (WsChannel.connClosed x = true → WsChannel.connClosed (do_op op e x).1 = true) ∧
  ((connOnce x = true → WsChannel.connClosed x = true) → connOnce (do_op op e x).1 = true → WsChannel.connClosed (do_op op e x).1 = true).
Proof.
  destruct op; simpl; unfold closeConnection, WsChannel.cancel; auto; [|by destruct (WsChannel.ctxErr x); auto].
  destruct (connOnce x) eqn:E; simpl; rewrite ?E; auto.
Qed.

Ltac split_exec H :=
  unfold exec, enqueueFrame, CloseWithProto, waitFinal, ctx_abort, WsChannel.goto in H;
  repeat first
    [ match type of H with
      | context [match ?x with _ => _ end] => destruct x eqn:?
      end
    | progress simplify_eq/= ].

Lemma exec_later cx r k f pc sel e (x x' : Channel) pc' out :
  exec codec cx r k f pc sel e x = Some (x', pc', out) →
  (WsChannel.closed x = true → WsChannel.closed x' = true) ∧ (connOnce x = true → connOnce x' = true) ∧
  (WsChannel.connClosed x = true → WsChannel.connClosed x' = true) ∧
  ((connOnce x = true → WsChannel.connClosed x = true) → connOnce x' = true → WsChannel.connClosed x' = true).
Proof.
  intros H. assert (Ho : (∃ op, x' = (do_op op e x).1) ∨ connOnce x' = connOnce x ∧ WsChannel.connClosed x' = WsChannel.connClosed x ∧
    (WsChannel.closed x' = WsChannel.closed x ∨ WsChannel.closed x' = true)).
  { destruct pc as [| | | | | | |[|op l] err joined|]; [..|split_exec H; auto|split_exec H; eauto|];
      destruct f; split_exec H; simpl; auto. }
  destruct Ho as [[op ->]|(-> & -> & Hc)]; [apply do_op_later|]. split_and!; auto. by destruct Hc as [->| ->].
Qed.

Lemma writer_later c c' : WsChannel.writer_step c c' → later c c'.
Proof.
  intros Hw. destruct Hw as [| | | | | | |op l err e x' y Hw Ho| |]; try (by split).
  pose proof (do_op_later op e (ch c)) as (H1 & H2 & H3 & H4). rewrite Ho in H1, H2, H3, H4. by split.
Qed.

Lemma step_later c c' : Chan_step c c' → later c c'.
Proof.
  intros [k f Hk Hc|k f pc sel e c1 pc' out Hk He|c1 Hw|v Hv|err He|n err Hn]; try (by split); [|by apply writer_later].
  destruct (exec_later _ _ _ _ _ _ _ _ _ _ _ He) as (H1 & H2 & H3 & H4). by split.
Qed.

Lemma rtc_later c c' : rtc Chan_step c c' → later c c'.
Proof. induction 1; [apply later_refl|]. by eapply later_trans; [apply step_later|]. Qed.

(** The shutdown's [closeWithReason]: in front of [closeConnection], or past it. *)
Definition closing_thread (c : WsChannel.sys) (k : nat) : Prop :=
  ∃ pc, thr c !! k = Some (CClose, pc) ∧
        match pc with
        | Ops l _ _ => l = [CloseConnection; WsChannel.Cancel] ∨ connOnce (ch c) = true ∧ (l = [WsChannel.Cancel] ∨ l = [])
        | Returned _ => connOnce (ch c) = true
        | _ => False
        end.

Lemma closing_step c c' k : Chan_step c c' → closing_thread c k → closing_thread c' k.
Proof.
  intros Hs (pc & Hk & Hp). pose proof (lt_once _ _ (step_later _ _ Hs)) as Hl.
  assert (Hsame : thr c' !! k = thr c !! k → closing_thread c' k).
  { intros E. exists pc. rewrite E. split; [done|]. destruct pc; naive_solver. }
  destruct Hs as [j f Hj Hc|j f pc0 sel e c1 pc' out Hj He|c1 Hw|v Hv|err He|n err Hn]; try (by apply Hsame).
  - apply Hsame. simpl. apply lookup_insert_ne. congruence.
  - destruct (decide (j = k)) as [->|Hne]; [|by apply Hsame; simpl; apply lookup_insert_ne].
    rewrite Hk in Hj. injection Hj as <- <-. exists pc'. simpl. rewrite lookup_insert_eq. split; [done|].
    destruct pc as [| | | | | | |l err joined_|]; try done. destruct Hp as [->|[Ho [->| ->]]]; simpl in He; unfold WsChannel.goto in He.
    + unfold closeConnection in He. destruct (connOnce (ch c)) eqn:E; simplify_eq/=; auto.
    + injection He as <- <- _. right. split; [|by right]. unfold WsChannel.cancel. by destruct (WsChannel.ctxErr (ch c)).
    + by injection He as <- <- _.
  - apply Hsame. by destruct Hw.
Qed.

Lemma closing_rtc c c' k : rtc Chan_step c c' → closing_thread c k → closing_thread c' k.
Proof. induction 1; [done|]. intros. apply IHrtc. by eapply closing_step. Qed.

(** Calls made by the client. *)
Lemma set_thr_step k c : thr c !! k = None → Chan_step c (set_thr k (CClose, Entry) c).
Proof. intros Hk. by apply WsChannel.s_call. Qed.

Lemma enqueue_steps k p beat c c' err :
  thr c !! k = None → enqueue k p beat c = Some (c', err) →
  rtc Chan_step c c' ∧ ch_closed c' = ch_closed c ∧ (err = None → ch_closed c = false).
Proof.
  intros Hk H. unfold enqueue, enqueueProto in H.
  destruct (enqueueFrame _ _ _ (ch c)) as [[[x pc] out]|] eqn:Ee; [|done].
  assert (Hx : ∃ e, pc = Returned e) by (unfold enqueueFrame, goto in Ee; repeat case_match; simplify_eq; eauto).
  destruct Hx as [e ->]. injection H as <- <-. split_and!.
  - eapply rtc_l; [by apply (WsChannel.s_call _ _ k (CEnqueue (zlen (Body p)) beat (Ws.marshalFrame codec (Some p))))|].
    eapply rtc_once.
    pose proof (WsChannel.s_exec codec (set_thr k (CEnqueue (zlen (Body p)) beat (Ws.marshalFrame codec (Some p)), Entry) c)
      k (CEnqueue (zlen (Body p)) beat (Ws.marshalFrame codec (Some p))) Entry Send None x (Returned e) out) as Hst.
    unfold set_thr in *. simpl in Hst. rewrite insert_insert_eq in Hst. apply Hst; [apply lookup_insert_eq|exact Ee].
  - unfold ch_closed, set_thr; simpl. unfold enqueueFrame, goto in Ee. repeat case_match; by simplify_eq.
  - intros ->. unfold ch_closed. unfold enqueueFrame, goto in Ee. destruct (WsChannel.closed (ch c)); [by simplify_eq|done].
Qed.

Lemma close_steps k c :
  thr c !! k = None →
  rtc Chan_step c (set_thr k (CClose, Ops [CloseConnection; WsChannel.Cancel] None None) (c <| ch := markClosed (ch c) |>)).
Proof.
  intros Hk. eapply rtc_l; [by apply (set_thr_step k)|]. eapply rtc_l.
  { apply (WsChannel.s_exec codec _ k CClose Entry Send None (ch c) (Ops WsChannel.closeWithReason None None) None);
      [apply lookup_insert_eq|done]. }
  apply rtc_once.
  pose proof (WsChannel.s_exec codec (set_thr k (CClose, Ops WsChannel.closeWithReason None None) c)
    k CClose (Ops WsChannel.closeWithReason None None) Send None (markClosed (ch c)) (Ops [CloseConnection; WsChannel.Cancel] None None) None) as Hst.
  unfold set_thr in *. simpl in *. rewrite !insert_insert_eq, !app_nil_r in *. apply Hst; [apply lookup_insert_eq|done].
Qed.

(** ** Refinement *)

(** A step of the core alone that keeps the stage of the shutdown neither
    closes the client nor its connection. *)
Lemma free_keeps s c :
  core_free s c → keeps_stage s c → closedT c = closedT s ∧ ClientCore.connClosed c = ClientCore.connClosed s ∧
  (∀ i rel, once c = OnceRunning i (XConn rel) → once s = OnceRunning i (XConn rel)).
Proof.
  intros Hf Hk. assert (Hno : ∀ i rel, once s = OnceRunning i (XClose rel) ∨ once s = OnceRunning i (XConn rel) → once c = once s)
    by exact Hk.
  destruct Hf as [| | |p r t Hr Hn Hc| | | | | | | | | | |i c Hc]; try done.
  - destruct (caller_same _ _ _ Hc) as [_ E]. unfold closedT; simpl. by rewrite E.
  - destruct Hc as [before Hi Ho|before Hi Ho|before q rel Hx Hb|rel Hx|rel Hx|rel Hx|rel snap k p m r Hx Hf Hm Hr|rel snap Hx Hf He|rel Hi];
      try done.
    + specialize (Hno i rel (or_introl Hx)). simpl in Hno. congruence.
    + specialize (Hno i rel (or_intror Hx)). simpl in Hno. congruence.
    + split_and!; [by destruct rel..|]. intros j rel'. by destruct rel.
Qed.

Lemma told_sim c s :
  (closedT s = true → ch_closed c = true) →
  (told c s = s ∨ Core_step s (told c s)) ∧ closedT (told c s) = ch_closed c ∧ ClientCore.connClosed (told c s) = ClientCore.connClosed s ∧
  once (told c s) = once s.
Proof.
  intros Hm. unfold told. destruct (ch_closed c) eqn:Ec, (closedT s) eqn:Es; simpl; rewrite ?Es; try (by auto).
  - split_and!; try done. right. right. by apply y_shut.
  - by specialize (Hm eq_refl).
Qed.

Record joined (s : sys) : Prop := mkJoined {
  j_core : Core_reach (core s);
  j_chan : WsChannel.reach codec (send_queue) (chan s);
  j_closed : closedT (core s) = ch_closed (chan s);
  j_both : connOnce (ch (chan s)) = true → WsChannel.connClosed (ch (chan s)) = true;
  j_closer : ∀ k, closer s = Some k → closing_thread (chan s) k;
  j_conn : ClientCore.connClosed (core s) = true → connOnce (ch (chan s)) = true;
  j_stage : ∀ i rel, once (core s) = OnceRunning i (XConn rel) → closer s ≠ None;
}.

(** The core does not come to the stage at which the connection is closed. *)
Definition no_conn (s s' : ClientCore.core) : Prop :=
  ∀ i rel, once s' = OnceRunning i (XConn rel) → once s = OnceRunning i (XConn rel).

Lemma chan_reach_rtc n c c' : WsChannel.reach codec n c → rtc Chan_step c c' → WsChannel.reach codec n c'.
Proof. intros Hr Hc. induction Hc as [|a b d Hab _ IH]; [done|]. apply IH. by eapply reach_step. Qed.

Lemma no_conn_same s s' : once s' = once s → no_conn s s'.
Proof. intros E i rel. by rewrite E. Qed.

(** Steps of the channel, whatever the core does meanwhile. *)
Lemma joined_chan s c k :
  joined s → rtc Chan_step (chan s) c → (k = core s ∨ Core_step (core s) k) → closedT k = ch_closed c →
  ClientCore.connClosed k = ClientCore.connClosed (core s) → no_conn (core s) k → joined (s <| chan := c |> <| core := k |>).
Proof.
  intros [J1 J2 J3 J4 J5 J6 J7] Hc Hk Ecl Eco Hn. pose proof (rtc_later _ _ Hc) as [L1 L2 L3 L4]. split; simpl; auto.
  - destruct Hk as [->|Hk]; [done|]. by eapply reach_step.
  - by eapply chan_reach_rtc.
  - intros j Hj. by eapply closing_rtc; [|apply J5].
  - rewrite Eco. auto.
  - intros i rel H. by eapply J7, Hn.
Qed.

Lemma joined_same s s' : joined s → core s' = core s → chan s' = chan s → closer s' = closer s → joined s'.
Proof. intros [J1 J2 J3 J4 J5 J6 J7] E1 E2 E3. split; rewrite ?E1, ?E2, ?E3; done. Qed.

Lemma joined_thr s k c' :
  joined s → thr (chan s) !! k = None → core s = c' → joined (s <| chan := set_thr k (CClose, Entry) (chan s) |> <| core := c' |>).
Proof.
  intros Hj Hk <-. apply joined_chan; [done|by apply rtc_once, set_thr_step|by left|apply Hj|done|by apply no_conn_same].
Qed.

Lemma joined_hb s v k :
  joined s → beats (hb (ch (chan s))) v → (k = core s ∨ Core_step (core s) k) → closedT k = closedT (core s) →
  ClientCore.connClosed k = ClientCore.connClosed (core s) → no_conn (core s) k →
  joined (s <| chan := with_hb v (chan s) |> <| core := k |>).
Proof.
  intros Hj Hb Hk E1 E2 Hn. apply joined_chan; [done|apply rtc_once; by apply WsChannel.s_beat|done|by rewrite E1; apply Hj|done|done].
Qed.

Lemma joined_core s k :
  joined s → Core_step (core s) k → closedT k = closedT (core s) →
  (ClientCore.connClosed k = true → ClientCore.connClosed (core s) = true ∨ connOnce (ch (chan s)) = true) →
  no_conn (core s) k → joined (s <| core := k |>).
Proof.
  intros [J1 J2 J3 J4 J5 J6 J7] Hk E1 E2 Hn. split; simpl; auto.
  - by eapply reach_step.
  - congruence.
  - intros H. destruct (E2 H); auto.
  - intros i rel H. by eapply J7, Hn.
Qed.

Lemma joined_close s i rel k :
  joined s → once (core s) = OnceRunning i (XClose rel) → thr (chan s) !! k = None →
  joined (s <| chan := set_thr k (CClose, Ops [CloseConnection; WsChannel.Cancel] None None) ((chan s) <| ch := markClosed (ch (chan s)) |>) |>
            <| core := (core s) <| trk := (trk (core s)) <| Tracker.closed := true |> |> <| once := OnceRunning i (XConn rel) |> |>
            <| closer := Some k |>).
Proof.
  intros [J1 J2 J3 J4 J5 J6 J7] Ho Hk. pose proof (close_steps k (chan s) Hk) as Hc. pose proof (rtc_later _ _ Hc) as [L1 L2 L3 L4].
  split; simpl; auto.
  - eapply reach_step; [exact J1|]. left. eapply f_call. by apply (c_close _ _ _ i rel).
  - by eapply chan_reach_rtc.
  - intros k' [= <-]. exists (Ops [CloseConnection; WsChannel.Cancel] None None). unfold set_thr; simpl.
    rewrite lookup_insert_eq. split; [done|]. by left.
Qed.

Lemma reply_beats v ok u : Heartbeat.Reply v = (u, ok) → beats v u.
Proof. intros H. right. right. by rewrite H. Qed.

Lemma joined_step s s' : joined s → client_step s s' → joined s'.
Proof.
  intros Hj Hs. pose proof (j_closed s Hj) as Ecl.
  destruct Hs as [c Hf Hk|c Hf|p r command body k c err Hr Hp Hps Hk He|i rel k Ho Hk|i rel k err Ho Hc Hk|p v Hr Hop Hv|p v k Hr Hop Hv Hk
    |k err Hl Hk|k Hr Hl Hk|k err i Hr Hl Hk Hw Hi|Ht Hc|v r Ht Hv|k c err Ht Hk He|Ht|k Ht Hk].
  - destruct (free_keeps _ _ Hf Hk) as (E1 & E2 & E3). apply joined_core; [done|by left|done| |exact E3]. rewrite E2. auto.
  - pose proof (rtc_once _ _ (chan_free_step _ _ Hf)) as Hc. pose proof (lt_closed _ _ (rtc_later _ _ Hc)) as Hm.
    destruct (told_sim c (core s)) as (H1 & H2 & H3 & H4); [rewrite Ecl; exact Hm|].
    apply joined_chan; [done..|]. intros i rel. by rewrite H4.
  - destruct (enqueue_steps _ _ _ _ _ _ Hk He) as (Hc & E1 & E2).
    apply joined_chan; [done|done| |by rewrite E1, <- Ecl|done|by apply no_conn_same]. right. right. destruct err; [by eapply y_send_err|].
    eapply y_send; [done|done|]. rewrite Ecl. by apply E2.
  - by apply joined_close.
  - apply joined_core; [done|left; eapply f_call; by apply (c_conn _ _ _ i rel)|done| |by intros j r]. intros _. right.
    destruct (j_closer s Hj k Hc) as (pc & Hp & H). rewrite Hk in Hp. by injection Hp as <-.
  - apply joined_hb; [done|by eapply reply_beats| |done|done|by apply no_conn_same]. right. right. by eapply y_reply.
  - apply (joined_same (s <| chan := set_thr k (CClose, Entry) (chan s) |> <| core := (core s) <| rdr := RLeave |> |>)); [|done..].
    apply joined_chan; [done|by apply rtc_once, set_thr_step| |exact Ecl|done|by apply no_conn_same]. right. right. by eapply y_reply_bad.
  - by apply (joined_same s).
  - apply (joined_same (s <| chan := set_thr k (CClose, Entry) (chan s) |> <| core := core s |>)); [|done..]. by apply joined_thr.
  - apply joined_core; [done|right; by apply y_leave|done|by left|by apply no_conn_same].
  - by apply (joined_same s).
  - apply (joined_same (s <| chan := with_hb v (chan s) |> <| core := core s |>)); [|done..].
    apply joined_hb; [done| |by left|done|done|by apply no_conn_same]. left. by rewrite Hv.
  - destruct (enqueue_steps _ _ _ _ _ _ Hk He) as (Hc & E1 & E2).
    apply (joined_same (s <| chan := c |> <| core := core s |>)); [|done..].
    apply joined_chan; [done|done|by left|by rewrite E1, <- Ecl|done|by apply no_conn_same].
  - apply (joined_same (s <| chan := with_hb (CancelQueue (hb (ch (chan s)))).1 (chan s) |> <| core := core s |>)); [|done..].
    apply joined_hb; [done| |by left|done|done|by apply no_conn_same]. right. by left.
  - apply (joined_same (s <| chan := set_thr k (CClose, Entry) (chan s) |> <| core := core s |>)); [|done..]. by apply joined_thr.
Qed.

(** ** What NewClient makes *)

Lemma ws_init s : init_sys s → joined s.
Proof.
  intros [w H]. unfold NewClient in H. cbv zeta in H. destruct (dial w); [done|].
  destruct (authenticate _ _ _ _ _ _ _ _) as [[pending|]|]; [|done|done]. destruct (afterErr w); [done|].
  destruct (_ <? _); [done|]. destruct (Queue.New _) as [q0|] eqn:Eq; [|done].
  destruct (SubmitBatch _ q0) as [q [e|]] eqn:Es; [done|]. injection H as <-. split; simpl; try done.
  - apply reach_init. by exists (WsClientOptions.callbackQueueSize o), q0, q, pending.
  - apply reach_init. by eexists.
Qed.

Lemma reach_joined s : reach s → joined s.
Proof.
  revert s. apply (invariant_reachable init_sys client_step joined); [apply ws_init|]. intros s s' _. apply joined_step.
Qed.

Lemma ws_replies_enough n ioErr ms e : enough n (replies codec n ioErr ms e).
Proof.
  revert ms. induction n as [|n IH]; intros ms; simpl; [by left|]. destruct ms as [|[[] body] ms].
  - right. by exists [], (ioErr e).
  - destruct (Ws.unmarshalFrame codec body) as [reply|err]; [by apply enough_cons|]. right. by exists [], err.
  - right. by eexists [], _.
Qed.

Lemma ws_authenticate_answers ds ctx t body wrt m :
  let size := WsClientOptions.callbackQueueSize o in
  0 < size → ∃ a, authenticate codec size ds ctx t body wrt m = Some a ∧ ∀ ps, a = Ok ps → Forall (λ p, Op p = OpPush) ps.
Proof.
  intros size Hs. unfold authenticate. destruct ds as [[e|] [e'|]]; try by eexists. destruct body as [body|]; [|by eexists].
  destruct (Ws.marshalFrame _ _) as [b [e|]]; [by eexists|]. destruct wrt; [by eexists|].
  unfold readAuthenticationReply, Auth.ReadReply. by apply ReadReply_answers, ws_replies_enough.
Qed.

(** ** The shutdown ends *)

(** The rest of the shutdown's [closeWithReason]. *)
Lemma exec_lift s k pc sel e c' pc' :
  thr (chan s) !! k = Some (CClose, pc) → closedT (core s) = true →
  exec codec (λ n, ctxs (chan s) !! n) (results (chan s) !! k) k CClose pc sel e (ch (chan s)) = Some (c', pc', None) →
  ∃ s', client_step s s' ∧ core s' = core s ∧ closer s' = closer s ∧ ch (chan s') = c' ∧ thr (chan s') !! k = Some (CClose, pc').
Proof.
  intros Hk Hc He. eexists. split; [eapply s_chan, n_exec; [exact Hk|exact He]|]. simpl. split_and!; try done; [|apply lookup_insert_eq].
  unfold told. by rewrite Hc, andb_false_r.
Qed.

Lemma closing_returns s k :
  joined s → closer s = Some k → closedT (core s) = true →
  ∃ s' err, rtc client_step s s' ∧ core s' = core s ∧ closer s' = Some k ∧ thr (chan s') !! k = Some (CClose, Returned err).
Proof.
  intros Hj Hc Hcl. destruct (j_closer s Hj k Hc) as (pc & Hk & Hp).
  assert (H0 : ∀ s e j, closer s = Some k → closedT (core s) = true → thr (chan s) !! k = Some (CClose, Ops [] e j) →
    ∃ s' err, rtc client_step s s' ∧ core s' = core s ∧ closer s' = Some k ∧ thr (chan s') !! k = Some (CClose, Returned err)).
  { clear. intros s e j Hc Hcl Hk. destruct (exec_lift s k (Ops [] e j) Send None (ch (chan s))
      (Returned (match j with Some x => errors_Join [Some x; e] | None => e end)) Hk Hcl eq_refl) as (s' & Hs & E1 & E2 & _ & E3).
    eexists s', _. split_and!; [by apply rtc_once|done|congruence|exact E3]. }
  assert (H1 : ∀ s e j, closer s = Some k → closedT (core s) = true → thr (chan s) !! k = Some (CClose, Ops [WsChannel.Cancel] e j) →
    ∃ s' err, rtc client_step s s' ∧ core s' = core s ∧ closer s' = Some k ∧ thr (chan s') !! k = Some (CClose, Returned err)).
  { clear -H0. intros s e j Hc Hcl Hk. destruct (exec_lift s k (Ops [WsChannel.Cancel] e j) Send None (WsChannel.cancel (ch (chan s)))
      (Ops [] e j) Hk Hcl eq_refl) as (s1 & Hs & E1 & E2 & _ & E3).
    destruct (H0 s1 e j) as (s' & err & Hr & F1 & F2 & F3); [congruence|congruence|done|].
    exists s', err. split_and!; [by eapply rtc_l|congruence|done|done]. }
  destruct pc as [| | | | | | |l e j|err]; try done; [|by exists s, err].
  destruct Hp as [->|[_ [->| ->]]]; [|by eapply H1|by eapply H0].
  destruct (exec_lift s k (Ops [CloseConnection; WsChannel.Cancel] e j) Send None (closeConnection None (ch (chan s))).1
    (Ops [WsChannel.Cancel] (match (closeConnection None (ch (chan s))).2 with Some x => Some x | None => e end) j) Hk Hcl eq_refl)
    as (s1 & Hs & E1 & E2 & _ & E3).
  eapply H1 in E3 as (s' & err & Hr & F1 & F2 & F3); [|congruence|congruence].
  exists s', err. split_and!; [by eapply rtc_l|congruence|done|done].
Qed.

Lemma joined_rtc s s' : joined s → rtc client_step s s' → joined s'.
Proof. intros Hj H. induction H as [|s s1 s2 Hs _ IH]; [done|]. apply IH. by eapply joined_step. Qed.

(** The table of threads has room. *)
Lemma fresh_thread (c : WsChannel.sys) : ∃ k, thr c !! k = None.
Proof. exists (base.fresh (dom (thr c) : gset nat)). apply not_elem_of_dom, is_fresh. Qed.

(** Whatever the core can do by itself, the client can do. *)
Lemma core_lifts s c : joined s → core_free (core s) c → ∃ s', rtc client_step s s' ∧ core s' = c.
Proof.
  intros Hj Hf. destruct (once (core s)) as [|i x|] eqn:Ho.
  1,3: exists (s <| core := c |>); split; [|done]; apply rtc_once, s_core; [done|]; intros i rel [H|H]; congruence.
  assert (Hother : once c = once (core s) → ∃ s', rtc client_step s s' ∧ core s' = c).
  { intros E. exists (s <| core := c |>). split; [|done]. apply rtc_once, s_core; [done|]. intros j rel _. exact E. }
  assert (Hplain : (∀ rel, x ≠ XClose rel ∧ x ≠ XConn rel) → ∃ s', rtc client_step s s' ∧ core s' = c).
  { intros Hx. exists (s <| core := c |>). split; [|done]. apply rtc_once, s_core; [done|]. intros j rel [H|H]; destruct (Hx rel); congruence. }
  destruct Hf as [| | | | | | | | | | | | | |j c Hc]; try (by apply Hother).
  destruct Hc as [before Hi H|before Hi H|before q rel H Hb|rel H|rel H|rel H|rel snap k p m r H Hf Hm Hr|rel snap H Hf He|rel H];
    try congruence; try (by apply Hother); try (by apply Hplain; intros rel'; split; congruence).
  - destruct (fresh_thread (chan s)) as [k Hk]. eexists. split; [eapply rtc_once, s_close; [exact H|exact Hk]|]. done.
  - pose proof (core_good _ _ _ _ _ _ _ _ (j_core s Hj)) as Hg. pose proof (g_once _ _ _ _ _ _ Hg) as Hok.
    unfold once_ok in Hok. rewrite H in Hok. destruct Hok as (_ & _ & _ & Hcl).
    destruct (closer s) as [k|] eqn:Ek; [|by apply (j_stage s Hj) in H].
    destruct (closing_returns s k Hj Ek Hcl) as (s1 & err & Hr & E1 & E2 & E3).
    eexists. split; [eapply rtc_r; [exact Hr|]|]; [eapply (s_conn s1 j rel k err); [by rewrite E1|done|done]|]. simpl. by rewrite E1.
  - apply Hother. by destruct rel.
Qed.

Lemma core_lifts_rtc s c : joined s → rtc core_free (core s) c → ∃ s', rtc client_step s s' ∧ core s' = c.
Proof.
  remember (core s) as c0 eqn:E. intros Hj H. revert s E Hj. induction H as [c|c c1 c2 Hs _ IH]; intros s -> Hj; [by exists s|].
  destruct (core_lifts s c1 Hj Hs) as (s1 & Hr1 & E1). destruct (IH s1 (eq_sym E1) (joined_rtc _ _ Hj Hr1)) as (s2 & Hr2 & E2).
  exists s2. split; [by etrans|done].
Qed.

(** ** Properties *)

(** [NewClient] of a WebSocket client always answers, and leaks nothing:
    a client exists only when the connection was dialled, the credentials
    were accepted and the context is not done; on any other path the dialled
    connection is closed. *)
Theorem ws_new_client nilCtx options w :
  0 < WsClientOptions.callbackQueueSize o →
  ∃ m, NewClient nilCtx options w = Some m ∧
  match m with
  | Refused err closed => closed = negb nilCtx && negb (when options) && negb (when (dial w))
  | Made s =>
      nilCtx = false ∧ options = None ∧ dial w = None ∧ afterErr w = None ∧ reach s ∧
      authenticate codec (WsClientOptions.callbackQueueSize o) (deadlines w) (authCtx w) (now w) (request w) (write w) (received w) =
        Some (Ok (early (core s))) ∧
      Forall (λ p, Op p = OpPush) (early (core s)) ∧
      accepted (cbs (core s)) = initialCallbacks (WsClientOptions.pushHandler o) (WsClientOptions.connectFunc o) (early (core s))
  end.
Proof.
  intros Hs. unfold NewClient. cbv zeta. destruct nilCtx; [by eexists|]. destruct options as [e|]; [by eexists|].
  destruct (dial w) eqn:Ed; [by eexists|].
  destruct (ws_authenticate_answers (deadlines w) (authCtx w) (now w) (request w) (write w) (received w) Hs) as ([pending|e] & Ea & Hp);
    rewrite Ea; [|by eexists].
  destruct (afterErr w) eqn:Ec; [by eexists|].
  destruct (Z.ltb_spec (WsClientOptions.callbackQueueSize o) (zlen pending + callbackSlot (when (WsClientOptions.connectFunc o)))) as [Hl|Hl];
    [by eexists|].
  destruct (Queue.New (WsClientOptions.callbackQueueSize o)) as [q|] eqn:Eq;
    [|by unfold Queue.New in Eq; destruct (Z.leb_spec (WsClientOptions.callbackQueueSize o) 0); [lia|]].
  destruct (initial_fits (WsClientOptions.pushHandler o) _ _ q pending Eq Hl) as [q' Es]. rewrite Es. eexists. split; [done|].
  simpl. split_and!; try done; [|by apply Hp].
  apply reach_init. exists w. unfold NewClient. cbv zeta. rewrite Ed, Ea, Ec, (proj2 (Z.ltb_ge _ _) Hl), Eq, Es. done.
Qed.

(** C29: The WebSocket client refines the shared core and the channel: every
    reachable state of it is one of theirs, the two agree on whether sending
    is over, and when a shutdown has returned the channel is closed and so is
    its connection, whoever closed it. *)
Theorem ws_client_refines s :
  reach s →
  Core_reach (core s) ∧ WsChannel.reach codec send_queue (chan s) ∧ closedT (core s) = WsChannel.closed (ch (chan s)) ∧
  (∀ i, calls (core s) !! i = Some KReturned →
     WsChannel.closed (ch (chan s)) = true ∧ WsChannel.connClosed (ch (chan s)) = true).
Proof.
  intros Hr. pose proof (reach_joined s Hr) as Hj. split_and!; [apply Hj|apply Hj|apply Hj|]. intros i Hi.
  pose proof (core_good _ _ _ _ _ _ _ _ (j_core s Hj)) as Hg. pose proof (g_calls _ _ _ _ _ _ Hg i _ Hi) as Ho. simpl in Ho.
  pose proof (g_once _ _ _ _ _ _ Hg) as Hok. unfold once_ok in Hok. rewrite Ho in Hok. destruct Hok as (_ & Hc & Hn & _).
  split; [by rewrite <- Hc; symmetry; apply Hj|]. by apply (j_both s Hj), (j_conn s Hj).
Qed.

(** A close of the WebSocket client always ends, with every terminal
    callback run, whatever the channel is doing. *)
Theorem ws_client_close_completes s i k :
  reach s → calls (core s) !! i = Some k →
  ∃ s' before, rtc client_step s s' ∧ calls (core s') !! i = Some KReturned ∧ run (cbs (core s')) = WExit ∧
    before_ok (WsClientOptions.kickHandler o) (core s') before ∧
    finals (cbs (core s')) = terminals (WsClientOptions.disconnectFunc o) before.
Proof.
  intros Hr Hi. pose proof (reach_joined s Hr) as Hj.
  destruct (close_completes _ _ _ _ _ _ _ (core s) i k (j_core s Hj) Hi) as (c & before & Hc & H1 & H2 & H3 & H4).
  destruct (core_lifts_rtc s c Hj Hc) as (s' & Hs & <-). by exists s', before.
Qed.
End Client.

(** ** Witnesses *)

Module WsClientExample.
Import CodecExample.
Definition push : Proto := mkProto OpPush 0 0 7 [].
Definition accepted_reply : Proto := mkProto OpAuthReply 0 0 0 [].

Definition o : WsClientOptions.clientOptions :=
  WsClientOptions.mkClientOptions None (3 * Second) "ws://127.0.0.1:3102" None "game" "secret" (Some (fixed true)) (Some 5%nat)
    (Some 6%nat) {[7 := Some 3%nat]} (Some 4%nat) (Some (mkChannelConfig Second (60 * Second) 2)) (15 * Second) (30 * Second) 64.

(** The server pushes a message and accepts the credentials. *)
Definition w0 : world :=
  mkWorld None (None, None) Ctx.Background 0 (Ok []) None
    (mkMessages [(true, enc push); (true, enc accepted_reply)] (ESentinel IoEOF)) None None.

Abbreviation Step := (client_step (fixed true) o).
Abbreviation Reach := (reach (fixed true) o).

Definition dummy : sys := client_of o None (mkQueue 1 false false [] [] false) [].
Definition s0 : sys := Eval vm_compute in
  match NewClient (fixed true) o false None w0 with Some (Made s) => s | _ => dummy end.

Lemma ws_made_s0 : NewClient (fixed true) o false None w0 = Some (Made s0).
Proof. vm_compute. reflexivity. Qed.

Lemma ws_new_client_witness :
  ∃ m, NewClient (fixed true) o false None w0 = Some m ∧
  match m with
  | Refused err closed => closed = negb false && negb (when (None : option error)) && negb (when (dial w0))
  | Made s =>
      false = false ∧ (None : option error) = None ∧ dial w0 = None ∧ afterErr w0 = None ∧ Reach s ∧
      authenticate (fixed true) (WsClientOptions.callbackQueueSize o) (deadlines w0) (authCtx w0) (now w0) (request w0)
        (write w0) (received w0) = Some (Ok (early (core s))) ∧
      Forall (λ p, Op p = OpPush) (early (core s)) ∧
      accepted (cbs (core s)) = initialCallbacks (WsClientOptions.pushHandler o) (WsClientOptions.connectFunc o) (early (core s))
  end.
Proof. apply (ws_new_client (fixed true) o false None w0). reflexivity. Defined.

Ltac keeps := let H := fresh in intros ? ? H; cbn in H; destruct H; congruence.

Ltac take H tac :=
  let H' := fresh in
  lazymatch type of H with
  | Reach ?s =>
      eassert (H' : Step s _) by (tac; first [reflexivity|discriminate|keeps|vm_compute; reflexivity]);
      apply (reach_step _ _ _ _ H) in H'; cbn in H'; clear H; rename H' into H;
      change (reachable (init_sys (fixed true) o) Step) with Reach in H
  end.

Definition closing_client : sys := s0 <| core := set_call 0 (KEnter None) (core s0) |>.

Lemma reach_closing_client : Reach closing_client.
Proof.
  assert (H : Reach s0) by (apply reach_init; exists w0; exact ws_made_s0).
  take H ltac:(eapply s_core; [eapply (f_close _ _ _ _ _ _ 0)|]).
  exact H.
Qed.

Lemma ws_client_close_completes_witness :
  ∃ s' before, rtc Step closing_client s' ∧ calls (core s') !! 0%nat = Some KReturned ∧ run (cbs (core s')) = WExit ∧
    before_ok (WsClientOptions.kickHandler o) (core s') before ∧
    finals (cbs (core s')) = terminals (WsClientOptions.disconnectFunc o) before.
Proof. apply (ws_client_close_completes (fixed true) o closing_client 0 (KEnter None) reach_closing_client). reflexivity. Defined.

(** The shutdown has returned. *)
Lemma reach_ws_closed : ∃ s, Reach s ∧ calls (core s) !! 0%nat = Some KReturned.
Proof.
  pose proof reach_closing_client as H.
  take H ltac:(eapply s_core; [eapply (f_call _ _ _ _ _ _ 0), c_first|]).
  take H ltac:(eapply s_core; [eapply (f_call _ _ _ _ _ _ 0), c_begin|]).
  take H ltac:(eapply (s_close _ _ _ 0 _ 9)).
  take H ltac:(eapply s_chan, (n_exec _ _ 9 CClose _ Send None)).
  take H ltac:(eapply s_chan, (n_exec _ _ 9 CClose _ Send None)).
  take H ltac:(eapply s_chan, (n_exec _ _ 9 CClose _ Send None)).
  take H ltac:(eapply (s_conn _ _ _ 0 _ 9)).
  take H ltac:(eapply s_core; [eapply (f_call _ _ _ _ _ _ 0), c_fail|]).
  take H ltac:(eapply s_core; [eapply (f_call _ _ _ _ _ _ 0), c_visited; [| |by intros k p _; vm_compute]|]).
  take H ltac:(eapply s_core; [eapply (f_call _ _ _ _ _ _ 0), c_release|]).
  eexists. split; [exact H|]. reflexivity.
Qed.

Lemma ws_client_refines_witness :
  ∃ s, calls (core s) !! 0%nat = Some KReturned ∧ WsChannel.closed (ch (chan s)) = true ∧ WsChannel.connClosed (ch (chan s)) = true.
Proof.
  destruct reach_ws_closed as (s & Hr & Hi). exists s. split; [exact Hi|].
  destruct (ws_client_refines (fixed true) o s Hr) as (_ & _ & _ & H). exact (H 0%nat Hi).
Defined.
End WsClientExample.
