(* ===== verification/Event.v ===== *)
(** * Events and the making of an event bus

    [event/event.go], [event/stats.go], [event/nats/options.go] and, of
    [event/nats/bus.go], [New], [connect] and [timeoutFor].  A topic is
    checked as a path of non-empty tokens; the options of a bus are checked
    once; a connection that arrives after the caller has given up is closed.
    Proved: which topics are valid, that a bus is only made from acceptable
    options, and that no connection outlives a failed [New]. *)

From Stdlib Require Import Strings.Ascii.
From S2P Require Import Prelude Errors Proto Codec Locate Network Endpoint Options ClientOptions.

(** ** event/event.go *)

Record Event := mkEvent { Topic : string; Payload : bytes }.

(** [strings.HasSuffix] *)
Definition HasSuffix (s suffix : string) : bool :=
  (String.length suffix <=? String.length s)%nat &&
  bool_decide (sdrop (String.length s - String.length suffix) s = suffix).

Definition ValidTopic (topic : string) : bool :=
  if bool_decide (topic = EmptyString) || has_prefix "." topic || HasSuffix topic "." ||
     Contains topic ".." || ContainsAny topic "*>"
  then false
  else forallb (λ char, negb (IsSpace char || IsControl char)) (runes 0 topic).

(** The tokens of a topic, between its dots. *)
Fixpoint tokens (s : string) : list string :=
  match s with
  | EmptyString => [EmptyString]
  | String c s =>
      if Ascii.eqb c "."%char then EmptyString :: tokens s
      else match tokens s with t :: ts => String c t :: ts | [] => [] end
  end.

Lemma tokens_cons s : ∃ t ts, tokens s = t :: ts.
Proof.
  induction s as [|c s (t & ts & IH)]; simpl; [eauto|]. rewrite IH. destruct (Ascii.eqb c "."%char); eauto.
Qed.

Lemma HasSuffix_dot c d s : HasSuffix (String c (String d s)) "." = HasSuffix (String d s) ".".
Proof. unfold HasSuffix. simpl. by rewrite Nat.sub_0_r. Qed.

Lemma tokens_head d s t ts : tokens (String d s) = t :: ts → (t ≠ EmptyString ↔ Ascii.eqb d "."%char = false).
Proof.
  simpl. destruct (tokens_cons s) as (u & us & ->). destruct (Ascii.eqb d "."%char); intros; naive_solver.
Qed.

(** No dot at the end and no two dots in a row: no empty token after the
    first one. *)
Lemma later_tokens s t ts :
  tokens s = t :: ts → s ≠ EmptyString →
  (HasSuffix s "." = false ∧ Contains s ".." = false ↔ Forall (λ t, t ≠ EmptyString) ts).
Proof.
  revert t ts. induction s as [|c [|d s] IH]; intros t ts Ht Hs; [done| |].
  - simpl in Ht. unfold HasSuffix. simpl. destruct (Ascii.eqb_spec c "."%char) as [->|Hc]; simplify_eq/=.
    + rewrite Forall_singleton. naive_solver.
    + rewrite bool_decide_false by naive_solver. rewrite Forall_nil, andb_false_r. naive_solver.
  - destruct (tokens_cons (String d s)) as (u & us & Hu). specialize (IH u us Hu ltac:(done)).
    pose proof (tokens_head _ _ _ _ Hu) as Hh. rewrite HasSuffix_dot.
    change (Contains (String c (String d s)) "..")
      with ((Ascii.eqb "."%char c && (Ascii.eqb "."%char d && true)) || Contains (String d s) "..").
    change (tokens (String c (String d s))) with
      (if Ascii.eqb c "."%char then EmptyString :: tokens (String d s)
       else match tokens (String d s) with t :: ts => String c t :: ts | [] => [] end) in Ht.
    rewrite Hu in Ht. rewrite orb_false_iff, !(Ascii.eqb_sym "."%char), andb_true_r.
    destruct (Ascii.eqb c "."%char); simplify_eq/=; [rewrite Forall_cons, Hh, <-IH; naive_solver|]. rewrite <-IH. naive_solver.
Qed.

Lemma prefix_dot c s : has_prefix "." (String c s) = Ascii.eqb c "."%char.
Proof. simpl. by rewrite andb_true_r, Ascii.eqb_sym. Qed.

(** A topic is valid exactly when none of its tokens is empty and it has
    no wildcard, space or control character. *)
Theorem valid_topic_exact topic :
  ValidTopic topic = true ↔
  Forall (λ t, t ≠ EmptyString) (tokens topic) ∧ ContainsAny topic "*>" = false ∧
  Forall (λ r, IsSpace r = false ∧ IsControl r = false) (runes 0 topic).
Proof.
  unfold ValidTopic. destruct topic as [|c s].
  { simpl. rewrite Forall_singleton. naive_solver. }
  rewrite bool_decide_false, prefix_dot by done. change (false || ?b) with b.
  destruct (tokens_cons (String c s)) as (t & ts & Ht). pose proof (tokens_head _ _ _ _ Ht) as Hh.
  pose proof (later_tokens _ _ _ Ht ltac:(done)) as Hl. rewrite Ht, Forall_cons, Hh, <-Hl.
  assert (Hr : forallb (λ char, negb (IsSpace char || IsControl char)) (runes 0 (String c s)) = true ↔
               Forall (λ r, IsSpace r = false ∧ IsControl r = false) (runes 0 (String c s))).
  { clear. induction (runes 0 (String c s)) as [|r l IH]; [by split; [constructor|]|].
    change (forallb ?f (r :: l)) with (f r && forallb f l).
    rewrite Forall_cons, andb_true_iff, negb_true_iff, orb_false_iff, IH. done. }
  rewrite <-Hr. clear. generalize (forallb (λ char, negb (IsSpace char || IsControl char)) (runes 0 (String c s))).
  intros b. destruct (Ascii.eqb c "."%char), (HasSuffix (String c s) "."), (Contains (String c s) ".."),
    (ContainsAny (String c s) "*>"), b; simpl; naive_solver.
Qed.

(** ** event/stats.go *)

Record SubscriptionStats := mkStats {
  QueueDepth : Z;
  QueueCapacity : Z;
  QueueDropped : Z;
  QueueDroppedCurrent : bool;
  PayloadDropped : Z;
  HandlerCalls : Z;
  HandlerPanics : Z;
  HandlerActive : bool;
  HandlerDuration : Z;
  LastHandlerDuration : Z;
  MaxHandlerDuration : Z;
  Closed : bool;
}.
#[export] Instance eta_stats : Eta SubscriptionStats := λ s,
  mkStats (QueueDepth s) (QueueCapacity s) (QueueDropped s) (QueueDroppedCurrent s) (PayloadDropped s)
    (HandlerCalls s) (HandlerPanics s) (HandlerActive s) (HandlerDuration s) (LastHandlerDuration s)
    (MaxHandlerDuration s) (Closed s).

Definition stats_zero : SubscriptionStats := mkStats 0 0 0 false 0 0 0 false 0 0 0 false.

(** ** event/nats/options.go *)

Record options := mkOptions {
  ctx : option Ctx.t;
  url : string;
  timeout : Z;
  username : string;
  password : string;
  tls : option tlsConfig;
  tlsSet : bool;
  queueCapacity : Z;
  maxPayloadBytes : Z;
}.
#[export] Instance eta_options : Eta options := λ o,
  mkOptions (ctx o) (url o) (timeout o) (username o) (password o) (tls o) (tlsSet o) (queueCapacity o) (maxPayloadBytes o).

Definition WithContext (v : option Ctx.t) o := o <| ctx := v |>.
Definition WithURL (v : string) o := o <| url := v |>.
Definition WithTimeout (v : Z) o := o <| timeout := v |>.
Definition WithQueueCapacity (v : Z) o := o <| queueCapacity := v |>.
Definition WithMaxPayloadBytes (v : Z) o := o <| maxPayloadBytes := v |>.
Definition WithUserInfo (u p : string) o := o <| username := u |> <| password := p |>.
Definition WithTLS (config : option tlsConfig) o := o <| tlsSet := true |> <| tls := config |>.

Definition validateOptions (o : options) : option error :=
  guards
    [(timeout o <=? 0, EText "nats: timeout must be positive");
     (queueCapacity o <=? 0, EText "nats: queue capacity must be positive");
     (maxPayloadBytes o <=? 0, EText "nats: maximum payload size must be positive");
     (tlsSet o && negb (when (tls o)), EText "nats: TLS configuration is required");
     (bool_decide (url o = EmptyString), EText "nats: URL is required");
     tls_guard "nats: %w" (tls o)].

(** [RedactedURL], over [url.Parse] and the printer of a URL. *)
Section Redacted.
Context (Parse : string → result URL) (print : URL → string).
Definition without_user (u : URL) : URL :=
  mkURL (Scheme u) (Opaque_ u) None (Host_ u) (Path u) (RawPath u) (ForceQuery u) (RawQuery u) (Fragment u).

Definition RedactedURL (raw : string) : string :=
  match Parse raw with
  | Err _ => "nats://"
  | Ok u => if bool_decide (Scheme u = EmptyString) then "nats://" else print (without_user u)
  end.
End Redacted.

(** ** event/nats/bus.go: New *)

Definition contextError (c : option Ctx.t) (now : Z) : option error :=
  match c with None => Some (ESentinel EventErrInvalidContext) | Some c => Ctx.Err c now end.

Definition timeoutFor (c : Ctx.t) (now configured : Z) : Z :=
  match Ctx.deadline c with
  | None => configured
  | Some deadline =>
      let remaining := deadline - now in
      if remaining <? configured then Z.max remaining 1 else configured
  end.

Definition DefaultURL : string := "nats://127.0.0.1:4222".

Definition bus_defaults : options :=
  mkOptions (Some Ctx.Background) DefaultURL (5 * Second) EmptyString EmptyString None false 256 (Z.shiftl 64 10).

(** A nil option is skipped. *)
Definition configure (opts : list (option (options → options))) : options :=
  fold_left (λ o opt, match opt with Some f => f o | None => o end) opts bus_defaults.

(** [New] up to the connection. *)
Definition New_options (opts : list (option (options → options))) (now : Z) : result options :=
  let o := configure opts in
  guard_err (contextError (ctx o) now) (guard_err (validateOptions o) (Ok o)).

Record acceptable (o : options) (now : Z) : Prop := mkAcceptable {
  ac_ctx : ∃ c, ctx o = Some c ∧ Ctx.Err c now = None;
  ac_timeout : 0 < timeout o;
  ac_queue : 0 < queueCapacity o;
  ac_payload : 0 < maxPayloadBytes o;
  ac_url : url o ≠ EmptyString;
  ac_tls : tlsSet o = true → tls o ≠ None;
  ac_verify : ∀ x, tls o = Some x → InsecureSkipVerify x = false;
}.

Lemma validateOptions_none o now :
  contextError (ctx o) now = None ∧ validateOptions o = None ↔ acceptable o now.
Proof.
  unfold validateOptions. rewrite guards_none, !Forall_cons, Forall_nil, tls_guard_false, ValidateClient_none. simpl.
  rewrite !Z.leb_gt, andb_false_iff, negb_false_iff, bool_decide_eq_false. unfold contextError. split.
  - intros (Hc & Ht & Hq & Hm & Hs & Hu & Hv & _). split; try done.
    + destruct (ctx o); [eauto|done].
    + intros Hset Hn. rewrite Hn in Hs. by destruct Hs as [Hs|Hs]; [rewrite Hs in Hset|].
  - intros [(c & Hc & He) Ht Hq Hm Hu Hs Hv]. rewrite Hc. split_and!; try done.
    destruct (tlsSet o); [right|by left]. destruct (tls o); [done|]. by specialize (Hs eq_refl).
Qed.

(** Whatever options are given, [New] goes on to connect exactly with
    acceptable settings: a live context, positive bounds, an address, and TLS
    that verifies the server if it is configured. *)
Theorem bus_options_exact opts now o :
  New_options opts now = Ok o ↔ o = configure opts ∧ acceptable o now.
Proof.
  unfold New_options. split.
  - intros H. destruct (contextError _ now) eqn:Hc; [done|]. simpl in H.
    destruct (validateOptions _) eqn:Hv; simplify_eq/=. split; [done|]. by apply validateOptions_none.
  - intros [-> [Hc Hv]%validateOptions_none]. by rewrite Hc, Hv.
Qed.

(** The time the native client is given to connect is positive, within the
    configured one and, but for its least value, within the context's. *)
Lemma timeoutFor_bounds c now configured :
  0 < configured →
  1 ≤ timeoutFor c now configured ≤ configured ∧
  ∀ d, Ctx.deadline c = Some d → timeoutFor c now configured ≤ Z.max 1 (d - now).
Proof.
  intros Hc. unfold timeoutFor. destruct (Ctx.deadline c) as [d|]; [|split; [lia|done]].
  destruct (Z.ltb_spec (d - now) configured); split; try lia; intros ? [= <-]; lia.
Qed.

(** ** event/nats/bus.go: connect *)

(** The goroutine that calls [natsgo.Connect], which answers with a
    connection or an error. *)
Inductive dialer := DDialing | DOffer (r : option error) | DGone.
Inductive connecting := MSelect | MGot (r : option error) | MFailed (err : error) | MConnected.

(** [opened], [shut]: the connections made and closed. *)
Record attempt := mkAttempt {
  dlr : dialer;
  clr : connecting;
  ctxErr : option error;
  opened : nat;
  shut : nat;
}.
#[export] Instance eta_attempt : Eta attempt := λ s, mkAttempt (dlr s) (clr s) (ctxErr s) (opened s) (shut s).

Definition conns (r : option error) : nat := match r with None => 1 | Some _ => 0 end.

Inductive connect_step (s : attempt) : attempt → Prop :=
| a_cancel err : ctxErr s = None → connect_step s (s <| ctxErr := Some err |>)
| a_connect r : dlr s = DDialing → connect_step s (s <| dlr := DOffer r |> <| opened := (opened s + conns r)%nat |>)
| a_hand r : dlr s = DOffer r → clr s = MSelect → connect_step s (s <| dlr := DGone |> <| clr := MGot r |>)
| a_late r err :
    dlr s = DOffer r → ctxErr s = Some err →
    connect_step s (s <| dlr := DGone |> <| shut := (shut s + conns r)%nat |>)
| a_give_up err : clr s = MSelect → ctxErr s = Some err → connect_step s (s <| clr := MFailed err |>)
| a_canceled r err :
    clr s = MGot r → ctxErr s = Some err →
    connect_step s (s <| clr := MFailed err |> <| shut := (shut s + conns r)%nat |>)
| a_failed e :                                     (* and the cancel() of New *)
    clr s = MGot (Some e) → ctxErr s = None →
    connect_step s (s <| clr := MFailed (EWrap "nats: connect: %w" [e]) |> <| ctxErr := Some (ESentinel CtxCanceled) |>)
| a_connected : clr s = MGot None → ctxErr s = None → connect_step s (s <| clr := MConnected |>).

Definition init_attempt (s : attempt) : Prop := ∃ err, s = mkAttempt DDialing MSelect err 0 0.
Definition connect_reach : attempt → Prop := reachable init_attempt connect_step.

(** The connection in the hands of the goroutine, of the caller or of the bus. *)
Definition held (s : attempt) : nat :=
  (match dlr s with DOffer r => conns r | _ => 0 end +
   match clr s with MGot r => conns r | MConnected => 1 | _ => 0 end)%nat.

Record attempt_ok (s : attempt) : Prop := mkAttemptOk {
  at_held : opened s = (shut s + held s)%nat;
  at_failed : ∀ err, clr s = MFailed err → ctxErr s ≠ None;
  at_gone : clr s ≠ MSelect → (∀ err, clr s ≠ MFailed err) → dlr s = DGone;
  at_select : clr s = MSelect → dlr s = DGone → ctxErr s ≠ None;
  at_once : (opened s ≤ 1)%nat ∧ (dlr s = DDialing → opened s = 0%nat);
}.

Lemma connect_ok s : connect_reach s → attempt_ok s.
Proof.
  revert s. apply (invariant_reachable init_attempt connect_step attempt_ok).
  - intros s [err ->]. split; simpl; unfold held; simpl; try done; try lia.
  - intros s s' _ [Hh Hf Hg Hs Ho] Hst. unfold held in *.
    destruct Hst; split; unfold held; simpl in *; simplify_eq/=;
      repeat match goal with H : _ s = _ |- _ => rewrite H in * end; simpl in *; try done; try naive_solver; try lia.
    destruct Ho as [_ Ho]. rewrite Ho by done. split; [by destruct r; simpl; lia|done].
Qed.

Lemma connect_ends s :
  connect_reach s → ∃ s', rtc connect_step s s' ∧ dlr s' = DGone ∧ ((∃ err, clr s' = MFailed err) ∨ clr s' = MConnected).
Proof.
  (* the caller returns, if it has what it waits for *)
  assert (Hret : ∀ s, dlr s = DGone → clr s ≠ MSelect →
            ∃ s', rtc connect_step s s' ∧ dlr s' = DGone ∧ ((∃ err, clr s' = MFailed err) ∨ clr s' = MConnected)).
  { intros t Hd Hc. destruct (clr t) as [|r|err|] eqn:E; [done| |eauto 6 using rtc_refl..].
    destruct (ctxErr t) as [err|] eqn:X; [|destruct r as [e|]].
    - eexists; split; [by eapply rtc_once, a_canceled|]. simpl. eauto.
    - eexists; split; [by eapply rtc_once, a_failed|]. simpl. eauto.
    - eexists; split; [by eapply rtc_once, a_connected|]. simpl. eauto. }
  (* the goroutine hands over what it has, or closes it *)
  assert (Hoff : ∀ s r, attempt_ok s → dlr s = DOffer r →
            ∃ s', rtc connect_step s s' ∧ dlr s' = DGone ∧ ((∃ err, clr s' = MFailed err) ∨ clr s' = MConnected)).
  { intros t r Hok Hd. destruct (clr t) as [|r'|err|] eqn:E.
    - destruct (Hret (t <| dlr := DGone |> <| clr := MGot r |>)) as (t' & Hr & Ht'); [done..|].
      exists t'. split; [|done]. eapply rtc_l; [by apply a_hand|done].
    - pose proof (at_gone _ Hok) as Hg. rewrite E, Hd in Hg. by discriminate Hg.
    - pose proof (at_failed _ Hok _ E) as Hf. destruct (ctxErr t) eqn:X; [|done].
      eexists; split; [by eapply rtc_once, a_late|]. simpl. eauto.
    - pose proof (at_gone _ Hok) as Hg. rewrite E, Hd in Hg. by discriminate Hg. }
  intros Hs. pose proof (connect_ok _ Hs) as Hok. destruct (dlr s) as [|r|] eqn:Hd.
  - destruct (Hoff (s <| dlr := DOffer None |> <| opened := (opened s + conns None)%nat |>) None) as (t & Hr & Ht);
      [apply connect_ok; eapply reach_step; [done|by apply a_connect]|done|].
    exists t. split; [|done]. eapply rtc_l; [by apply a_connect|done].
  - by eapply Hoff.
  - destruct (clr s) eqn:E; [|apply Hret; [done|by rewrite E]..].
    pose proof (at_select _ Hok E Hd) as Hx. destruct (ctxErr s) eqn:X; [|done].
    eexists; split; [by eapply rtc_once, a_give_up|]. simpl. eauto.
Qed.

(** A bus is made with the one connection its [connect] opened; when
    [connect] fails, the connection that was or will be made is closed by the
    goroutine that dials, which always ends, as [connect] does. *)
Theorem connect_no_leak s :
  connect_reach s →
  (clr s = MConnected → dlr s = DGone ∧ opened s = 1%nat ∧ shut s = 0%nat) ∧
  (∀ err, clr s = MFailed err → dlr s = DGone → shut s = opened s) ∧
  ∃ s', rtc connect_step s s' ∧ dlr s' = DGone ∧ ((∃ err, clr s' = MFailed err) ∨ clr s' = MConnected).
Proof.
  intros Hs. pose proof (connect_ok _ Hs) as [Hh Hf Hg Hse Ho]. unfold held in Hh. split_and!.
  - intros E. rewrite E in *. assert (dlr s = DGone) as Hd by (apply Hg; done). rewrite Hd in *. destruct Ho. split_and!; [done|lia..].
  - intros err E Hd. rewrite E, Hd in *. lia.
  - by apply connect_ends.
Qed.

Module EventExample.
Definition s0 : attempt := mkAttempt DDialing MSelect None 0 0.

(** The caller gives up; the connection arrives and is closed. *)
Lemma reach_late : connect_reach (mkAttempt DGone (MFailed (ESentinel CtxCanceled)) (Some (ESentinel CtxCanceled)) 1 1).
Proof.
  assert (H : reachable init_attempt connect_step s0) by (apply reach_init; by eexists).
  reach_by H ltac:(apply (a_cancel _ (ESentinel CtxCanceled))).
  reach_by H ltac:(apply (a_give_up _ (ESentinel CtxCanceled))).
  reach_by H ltac:(apply (a_connect _ None)).
  reach_by H ltac:(apply (a_late _ None (ESentinel CtxCanceled))).
  exact H.
Qed.

Lemma connect_no_leak_witness :
  let s := mkAttempt DGone (MFailed (ESentinel CtxCanceled)) (Some (ESentinel CtxCanceled)) 1 1 in
  (clr s = MConnected → dlr s = DGone ∧ opened s = 1%nat ∧ shut s = 0%nat) ∧
  (∀ err, clr s = MFailed err → dlr s = DGone → shut s = opened s) ∧
  ∃ s', rtc connect_step s s' ∧ dlr s' = DGone ∧ ((∃ err, clr s' = MFailed err) ∨ clr s' = MConnected).
Proof. apply connect_no_leak. apply reach_late. Defined.
End EventExample.
