(* ===== verification/Subscription.v ===== *)
(** * A subscription of the event bus

    [event/nats/subscription.go].  Its goroutines are the consumer, which
    calls the handler for one message at a time, and the one cleanup task that
    [beginStop] starts; the native subscription and the user's handler only
    answer.  A step is a critical section of [statsMu], an operation on a
    channel or a call of the native client.  Shown here: the invariant every
    step keeps, and that a subscription told to stop does.  The theorems
    about the running bus are in [EventBus]. *)

From S2P Require Import Prelude Errors Proto Event.

(** The consumer; [CGot None]: the channel was closed. *)
Inductive consumer := CNone | CSelect | CGot (m : option Event) | CHandle (m : Event) | CFinish | CAwait | CExit.

(** The cleanup task: in front of [deactivate], of [native.Unsubscribe], of
    the publication of its result and of [complete]. *)
Inductive cleaner :=
| LNone
| LEnter
| LCall (started native : bool)
| LSet (started : bool) (err : option error)
| LComplete
| LExit.

(** [canceled]: [s.cancel] was called; [deactivated], [stopDone]: how often
    each channel was closed; [chan]: what the native client queued.  Of the
    messages it delivered, [processed] were given to the handler or dropped
    for their size and [lost] were received when the consumer left. *)
Record subscription := mkSub {
  topic : string;
  handler : bool;
  native : bool;
  cancel : bool;
  canceled : bool;
  messages : bool;
  stopOnce : bool;
  deactivated : nat;
  stopDone : nat;
  stopErr : option error;
  stats : SubscriptionStats;
  payloadDropped : Z;
  csm : consumer;
  cln : cleaner;
  chan : list Event;
  chanClosed : bool;
  delivered : list Event;
  processed : list Event;
  lost : list Event;
  unsubscribed : nat;
  panicked : nat;
}.
#[export] Instance eta_subscription : Eta subscription := λ u,
  mkSub (topic u) (handler u) (native u) (cancel u) (canceled u) (messages u) (stopOnce u) (deactivated u) (stopDone u)
    (stopErr u) (stats u) (payloadDropped u) (csm u) (cln u) (chan u) (chanClosed u) (delivered u) (processed u) (lost u)
    (unsubscribed u) (panicked u).

(** The subscription [Subscribe] makes. *)
Definition fresh_sub (t : string) : subscription :=
  mkSub t true false false false false false 0 0 None stats_zero 0 CNone LNone [] false [] [] [] 0 0.

Section Subscription.
Context (maxPayloadBytes : Z).

Definition fits (m : Event) : bool := zlen (Payload m) <=? maxPayloadBytes.

(** [answer]: what [native.Dropped] returns. *)
Definition sampleDropped (answer : result Z) (u : subscription) : subscription :=
  let u := u <| stats := (stats u) <| QueueDroppedCurrent := false |> |> in
  if native u
  then match answer with
       | Ok dropped => u <| stats := (stats u) <| QueueDropped := u64 dropped |> <| QueueDroppedCurrent := true |> |>
       | Err _ => u
       end
  else u.

(** [SubscriptionStats] *)
Definition snapshot (answer : result Z) (u : subscription) : subscription * SubscriptionStats :=
  let u := sampleDropped answer u in
  (u, (stats u) <| QueueDepth := if messages u then zlen (chan u) else 0 |> <| PayloadDropped := payloadDropped u |>).

(** [answer]: the error of [ChanSubscribe]. *)
Definition activate (queueCapacity : Z) (answer : option error) (u : subscription) : subscription * option error :=
  match answer with
  | Some err => (u, Some err)
  | None => (u <| native := true |> <| messages := true |> <| stats := (stats u) <| QueueCapacity := queueCapacity |> |>, None)
  end.

Definition start (u : subscription) : subscription := u <| cancel := true |> <| csm := CSelect |>.

Definition recordPayloadDrop (u : subscription) : subscription := u <| payloadDropped := u64 (payloadDropped u + 1) |>.

(** [handle], before and after the call of the handler. *)
Definition handle_enter (m : Event) (u : subscription) : subscription :=
  u <| stats := (stats u) <| HandlerActive := true |> |> <| csm := CHandle m |>.

Definition handle_leave (m : Event) (duration : Z) (recovered : bool) (u : subscription) : subscription :=
  let st := (stats u) <| HandlerActive := false |>
                      <| HandlerCalls := u64 (HandlerCalls (stats u) + 1) |>
                      <| HandlerDuration := i64 (HandlerDuration (stats u) + duration) |>
                      <| LastHandlerDuration := duration |>
                      <| MaxHandlerDuration := Z.max (MaxHandlerDuration (stats u)) duration |> in
  u <| stats := if recovered then st <| HandlerPanics := u64 (HandlerPanics st + 1) |> else st |>
    <| processed := processed u ++ [m] |> <| panicked := (panicked u + if recovered then 1 else 0)%nat |>
    <| csm := CSelect |>.

Definition beginStop (u : subscription) : subscription :=
  if stopOnce u then u
  else u <| stopOnce := true |> <| canceled := canceled u || cancel u |> <| cln := LEnter |>.

Definition complete (u : subscription) : subscription :=
  u <| handler := false |> <| messages := false |> <| stats := (stats u) <| Closed := true |> |>
    <| stopDone := S (stopDone u) |>.

(** The critical section of [deactivate]. *)
Definition deactivate (answer : result Z) (u : subscription) : subscription :=
  let u1 := sampleDropped answer u in
  u1 <| native := false |> <| cancel := false |> <| stats := (stats u1) <| QueueDroppedCurrent := false |> |>
     <| cln := LCall (cancel u) (native u) |>.

(** [wait]: nothing while it blocks. *)
Definition wait (ctxErr : option error) (u : subscription) : option (option error) :=
  match Done (0 <? stopDone u)%nat ctxErr with
  | None => None
  | Some None => Some (stopErr u)
  | Some (Some err) => Some (if (0 <? deactivated u)%nat then errors_Join [stopErr u; Some err] else Some err)
  end.

(** [parent]: the context of the bus is done. *)
Inductive sub_step (parent : bool) (u : subscription) : subscription → Prop :=
(* consume *)
| u_done : csm u = CSelect → canceled u || parent = true → sub_step parent u (u <| csm := CFinish |>)
| u_take m rest :
    csm u = CSelect → chan u = m :: rest → sub_step parent u (u <| csm := CGot (Some m) |> <| chan := rest |>)
| u_take_closed : csm u = CSelect → chan u = [] → chanClosed u = true → sub_step parent u (u <| csm := CGot None |>)
| u_leave m :
    csm u = CGot m → m = None ∨ canceled u || parent = true →
    sub_step parent u (u <| csm := CFinish |> <| lost := lost u ++ option_list m |>)
| u_too_large m :
    csm u = CGot (Some m) → canceled u || parent = false → fits m = false →
    sub_step parent u ((recordPayloadDrop u) <| csm := CSelect |> <| processed := processed u ++ [m] |>)
| u_handle m :
    csm u = CGot (Some m) → canceled u || parent = false → fits m = true → sub_step parent u (handle_enter m u)
| u_handled m duration recovered :
    csm u = CHandle m → 0 ≤ duration → sub_step parent u (handle_leave m duration recovered u)
(* finish *)
| u_finish : csm u = CFinish → sub_step parent u ((beginStop u) <| csm := CAwait |>)
| u_complete : csm u = CAwait → (0 < deactivated u)%nat → sub_step parent u ((complete u) <| csm := CExit |>)
(* the goroutine of beginStop *)
| l_enter answer : cln u = LEnter → sub_step parent u (deactivate answer u)
| l_call started err :
    cln u = LCall started true →
    sub_step parent u (u <| cln := LSet started err |> <| unsubscribed := S (unsubscribed u) |>)
| l_skip started : cln u = LCall started false → sub_step parent u (u <| cln := LSet started None |>)
| l_set started err :
    cln u = LSet started err →
    sub_step parent u (u <| stopErr := err |> <| deactivated := S (deactivated u) |>
                         <| cln := if started then LExit else LComplete |>)
| l_complete : cln u = LComplete → sub_step parent u ((complete u) <| cln := LExit |>)
(* the native client *)
| n_deliver m :
    zlen (chan u) < QueueCapacity (stats u) → chanClosed u = false →
    sub_step parent u (u <| chan := chan u ++ [m] |> <| delivered := delivered u ++ [m] |>)
| n_close : chanClosed u = false → sub_step parent u (u <| chanClosed := true |>)
(* an observer *)
| o_stats answer : sub_step parent u (snapshot answer u).1.

(** ** Starting and stopping *)

Definition started (c : consumer) : bool := match c with CNone => false | _ => true end.
Definition early (l : cleaner) : bool := match l with LNone | LEnter => true | _ => false end.
Definition deactivations (l : cleaner) : nat := match l with LComplete | LExit => 1 | _ => 0 end.
Definition completions (c : consumer) (l : cleaner) : nat :=
  match c, l with CExit, _ | CNone, LExit => 1 | _, _ => 0 end.

Record life_ok (u : subscription) : Prop := mkLife {
  lo_once : stopOnce u = match cln u with LNone => false | _ => true end;
  lo_cancel : cancel u = started (csm u) && early (cln u);
  lo_canceled : canceled u = stopOnce u && started (csm u);
  lo_deactivated : deactivated u = deactivations (cln u);
  lo_done : stopDone u = completions (csm u) (cln u);
  lo_cln : match cln u with LCall b _ | LSet b _ => b = started (csm u) | LComplete => csm u = CNone | _ => True end;
  lo_csm : match csm u with CAwait => stopOnce u = true | CExit => cln u = LExit | _ => True end;
  lo_handler : handler u = (stopDone u =? 0)%nat;
  lo_closed : Closed (stats u) = negb (handler u);
  lo_native : native u = true → early (cln u) = true;
  lo_unsubscribed : (unsubscribed u ≤ match cln u with LSet _ _ | LComplete | LExit => 1 | _ => 0 end)%nat;
  lo_err : deactivated u = 0%nat → stopErr u = None;
}.

(** What [sampleDropped] leaves alone. *)
Lemma sampleDropped_stats answer u :
  ∃ st, sampleDropped answer u = u <| stats := st |> ∧
    Closed st = Closed (stats u) ∧ HandlerCalls st = HandlerCalls (stats u) ∧ HandlerPanics st = HandlerPanics (stats u) ∧
    HandlerActive st = HandlerActive (stats u) ∧ QueueCapacity st = QueueCapacity (stats u) ∧
    LastHandlerDuration st = LastHandlerDuration (stats u) ∧ MaxHandlerDuration st = MaxHandlerDuration (stats u).
Proof.
  unfold sampleDropped. simpl. destruct (native u); [destruct answer|]; simpl; eexists; (split; [done|]); split_and!; done.
Qed.

Lemma life_fresh t : life_ok (fresh_sub t).
Proof. split; done. Qed.

Lemma life_beginStop u : life_ok u → life_ok (beginStop u).
Proof.
  intros [H1 H2 H3 H4 H5 H6 H7 H8 H9 H10 H11 H12]. unfold beginStop. destruct (stopOnce u) eqn:E; [by split; rewrite ?E|].
  destruct (cln u) eqn:L; try done. split; simpl; rewrite ?L, ?H2, ?H3 in *; simpl in *; try done.
  all: by destruct (csm u).
Qed.

(** Most steps only move the consumer, short of its end. *)
Definition running (c : consumer) : bool := match c with CSelect | CGot _ | CHandle _ | CFinish => true | _ => false end.

Record same_life (u u' : subscription) : Prop := mkSame {
  sl_csm : csm u' = csm u ∨ running (csm u) = true ∧ running (csm u') = true;
  sl_flags : (stopOnce u', cancel u', canceled u', handler u', native u') = (stopOnce u, cancel u, canceled u, handler u, native u);
  sl_counts : (deactivated u', stopDone u', unsubscribed u') = (deactivated u, stopDone u, unsubscribed u);
  sl_rest : (cln u', stopErr u', Closed (stats u')) = (cln u, stopErr u, Closed (stats u));
}.

Lemma life_same u u' : life_ok u → same_life u u' → life_ok u'.
Proof.
  intros [H1 H2 H3 H4 H5 H6 H7 H8 H9 H10 H11 H12] [Hc Hf Hn Hr]. injection Hf as E1 E2 E3 E4 E5. injection Hn as E6 E7 E8.
  injection Hr as E9 E10 E11. assert (Hs : started (csm u') = started (csm u) ∧ completions (csm u') (cln u) = completions (csm u) (cln u)).
  { destruct Hc as [->|[]]; [done|]. by destruct (csm u), (csm u'). }
  destruct Hs as [Hs Hd].
  split; rewrite ?E1, ?E2, ?E3, ?E4, ?E5, ?E6, ?E7, ?E8, ?E9, ?E10, ?E11, ?Hs, ?Hd; try done.
  - destruct (cln u); try done. destruct Hc as [->|[]]; [done|]. by rewrite H6 in *.
  - destruct Hc as [->|[]]; [done|]. by destruct (csm u').
Qed.

Lemma same_snapshot answer u : same_life u (snapshot answer u).1.
Proof.
  unfold snapshot. simpl. destruct (sampleDropped_stats answer u) as (st & -> & HC & _). split; simpl; [by left|done..|by rewrite HC].
Qed.

Ltac life Hu :=
  destruct Hu as [H1 H2 H3 H4 H5 H6 H7 H8 H9 H10 H11 H12]; split; cbn -[Nat.eqb];
  repeat match goal with H : csm _ = _ |- _ => rewrite H in * | H : cln _ = _ |- _ => rewrite H in * end;
  cbn -[Nat.eqb] in *; try done; try lia; eauto.

Lemma life_step parent u u' : life_ok u → sub_step parent u u' → life_ok u'.
Proof.
  intros Hu Hst.
  destruct Hst as [Hc _|m rest Hc _|Hc _ _|m Hc _|m Hc _ _|m Hc _ _|m d r Hc _|Hc|Hc Hd|answer Hl|st err Hl|st Hl|st err Hl|Hl
    |m _ _|_|answer].
  1-7, 15-16: apply (life_same u); [done|]; split; simpl; rewrite ?Hc; auto.
  - by destruct r.
  - pose proof (life_beginStop _ Hu) as Hb. assert (csm (beginStop u) = CFinish) as Hc' by (unfold beginStop; by destruct (stopOnce u)).
    assert (stopOnce (beginStop u) = true) as Ho by (unfold beginStop; by destruct (stopOnce u) eqn:E).
    life Hb. by destruct (cln (beginStop u)).
  - life Hu; rewrite H4 in Hd; destruct (cln u); simpl in Hd; done || lia.
  - destruct (sampleDropped_stats answer u) as (st & E & HC & _). unfold deactivate. rewrite E. life Hu; by destruct (csm u).
  - life Hu; by destruct (csm u).
  - life Hu; by destruct (csm u).
  - destruct st; life Hu; by destruct (csm u).
  - life Hu; by destruct (csm u).
  - eapply life_same, same_snapshot. done.
Qed.

Lemma life_start u : life_ok u → csm u = CNone → cln u = LNone → life_ok (start u).
Proof. intros Hu Hc Hl. unfold start. life Hu. by rewrite H3, H1. Qed.

Lemma life_activate cap answer u : life_ok u → cln u = LNone → life_ok (activate cap answer u).1.
Proof. intros Hu Hl. destruct answer; [done|]. simpl. life Hu. Qed.

(** ** Messages *)

Definition hand (c : consumer) : list Event := match c with CGot (Some m) | CHandle m => [m] | _ => [] end.
Definition leaving (c : consumer) : bool := match c with CFinish | CAwait | CExit => true | _ => false end.

(** The messages the handler was called with, and those dropped. *)
Definition handled (u : subscription) : list Event := filter (λ m, fits m = true) (processed u).
Definition oversized (u : subscription) : list Event := filter (λ m, fits m = false) (processed u).

Record msgs_ok (u : subscription) : Prop := mkMsgs {
  mo_order : delivered u = processed u ++ hand (csm u) ++ lost u ++ chan u;
  mo_lost : (length (lost u) ≤ 1)%nat ∧ (leaving (csm u) = false → lost u = []);
  mo_fits : ∀ m, csm u = CHandle m → fits m = true;
  mo_active : HandlerActive (stats u) = match csm u with CHandle _ => true | _ => false end;
  mo_calls : HandlerCalls (stats u) = u64 (zlen (handled u));
  mo_dropped : payloadDropped u = u64 (zlen (oversized u));
  mo_panics : HandlerPanics (stats u) = u64 (Z.of_nat (panicked u)) ∧ (panicked u ≤ length (handled u))%nat;
  mo_capacity : zlen (chan u) ≤ QueueCapacity (stats u);
  mo_longest : 0 ≤ LastHandlerDuration (stats u) ≤ MaxHandlerDuration (stats u);
}.

Lemma msgs_fresh t : msgs_ok (fresh_sub t).
Proof. split; simpl; try done; try lia; split; done || (simpl; lia). Qed.

Lemma u64_succ n : u64 (u64 n + 1) = u64 (n + 1).
Proof. unfold u64. by rewrite Zplus_mod_idemp_l. Qed.

Lemma handled_snoc ms m : filter (λ m, fits m = true) (ms ++ [m]) = filter (λ m, fits m = true) ms ++ (if fits m then [m] else []).
Proof. rewrite filter_app, filter_cons, filter_nil. by destruct (fits m). Qed.

Lemma oversized_snoc ms m : filter (λ m, fits m = false) (ms ++ [m]) = filter (λ m, fits m = false) ms ++ (if fits m then [] else [m]).
Proof. rewrite filter_app, filter_cons, filter_nil. by destruct (fits m). Qed.

(** The lifecycle has nothing to do with them. *)
Record same_msgs (u u' : subscription) : Prop := mkSameMsgs {
  sm_hand : hand (csm u') = hand (csm u) ∧ (leaving (csm u') = false → leaving (csm u) = false);
  sm_handling : match csm u' with CHandle _ => csm u' = csm u | _ => HandlerActive (stats u) = false end;
  sm_lists : (delivered u', processed u', lost u', chan u', panicked u') = (delivered u, processed u, lost u, chan u, panicked u);
  sm_stats : (HandlerCalls (stats u'), HandlerPanics (stats u'), HandlerActive (stats u'), QueueCapacity (stats u')) =
             (HandlerCalls (stats u), HandlerPanics (stats u), HandlerActive (stats u), QueueCapacity (stats u));
  sm_times : (LastHandlerDuration (stats u'), MaxHandlerDuration (stats u'), payloadDropped u') =
             (LastHandlerDuration (stats u), MaxHandlerDuration (stats u), payloadDropped u);
}.

Lemma msgs_same u u' : msgs_ok u → same_msgs u u' → msgs_ok u'.
Proof.
  intros [H1 [H2 H2'] H3 H4 H5 H6 H7 H8 H9] [[Ha Hb] Hh Hl Hs Ht]. injection Hl as E1 E2 E3 E4 E5. injection Hs as E6 E7 E8 E9.
  injection Ht as E10 E11 E12. unfold handled, oversized in *.
  split; unfold handled, oversized; rewrite ?E1, ?E2, ?E3, ?E4, ?E5, ?E6, ?E7, ?E8, ?E9, ?E10, ?E11, ?E12, ?Ha; try done; auto.
  - intros m Hm. rewrite Hm in Hh. eauto.
  - destruct (csm u') eqn:E; try done. by rewrite H4, <-Hh.
Qed.

Lemma same_msgs_csm u u' :
  csm u' = csm u → (delivered u', processed u', lost u', chan u', panicked u') = (delivered u, processed u, lost u, chan u, panicked u) →
  (HandlerCalls (stats u'), HandlerPanics (stats u'), HandlerActive (stats u'), QueueCapacity (stats u')) =
  (HandlerCalls (stats u), HandlerPanics (stats u), HandlerActive (stats u), QueueCapacity (stats u)) →
  (LastHandlerDuration (stats u'), MaxHandlerDuration (stats u'), payloadDropped u') =
  (LastHandlerDuration (stats u), MaxHandlerDuration (stats u), payloadDropped u) →
  msgs_ok u → msgs_ok u'.
Proof.
  intros Hc Hl Hs Ht Hu. apply (msgs_same u); [done|]. split; rewrite ?Hc; try done.
  rewrite (mo_active _ Hu). by destruct (csm u).
Qed.

Lemma msgs_beginStop u : msgs_ok u → msgs_ok (beginStop u).
Proof. intros Hu. unfold beginStop. destruct (stopOnce u); [done|]. by apply (same_msgs_csm u). Qed.

Lemma msgs_sample answer u : msgs_ok u → msgs_ok (sampleDropped answer u).
Proof.
  intros Hu. destruct (sampleDropped_stats answer u) as (st & -> & _ & Hc & Hp & Ha & Hq & Hl & Hm).
  apply (same_msgs_csm u); simpl; [done..| | |done]; congruence.
Qed.

Lemma msgs_complete c u : msgs_ok u → leaving c = true → hand (csm u) = [] → msgs_ok ((complete u) <| csm := c |>).
Proof.
  intros Hu Hc Hh. apply (msgs_same u); [done|]. split; simpl; try done.
  - split; [by rewrite Hh; destruct c|by rewrite Hc].
  - rewrite (mo_active _ Hu). by destruct c; try done; destruct (csm u) as [| |[]| | | |].
Qed.

Lemma msgs_step parent u u' : msgs_ok u → sub_step parent u u' → msgs_ok u'.
Proof.
  intros Hu Hst. pose proof Hu as [H1 [H2 H2'] H3 H4 H5 H6 [H7 H7'] H8 H9].
  destruct Hst as [Hc _|m rest Hc Hr|Hc _ _|m Hc _|m Hc _ Hf|m Hc _ Hf|m d r Hc Hd|Hc|Hc Hd|answer Hl|st err Hl|st Hl|st err Hl|Hl
    |m Hm _|_|answer]; try (rewrite ?Hc in *; simpl in *).
  - apply (msgs_same u); [done|]. split; simpl; try done. by rewrite Hc.
  - rewrite Hr, (H2' eq_refl) in *. split; simpl; try done. simpl in H8. lia.
  - apply (msgs_same u); [done|]. split; simpl; try done. by rewrite Hc.
  - rewrite (H2' eq_refl) in *. split; simpl; try done; try naive_solver.
    split; [destruct m; simpl; lia|done].
  - rewrite (H2' eq_refl) in *. split; unfold handled, oversized in *; simpl; try done.
    + by rewrite H1, <-app_assoc.
    + by rewrite handled_snoc, Hf, app_nil_r.
    + by rewrite oversized_snoc, Hf, zlen_app, H6, u64_succ.
    + by rewrite handled_snoc, Hf, app_nil_r.
  - pose proof (H2' eq_refl) as Hl. split; simpl; rewrite ?Hl in *; try done. by intros ? [= <-].
  - pose proof (H2' eq_refl) as Hl. specialize (H3 _ eq_refl).
    destruct r; split; unfold handled, oversized in *; simpl in *; rewrite ?Hl in *; try done; try lia;
      rewrite ?handled_snoc, ?oversized_snoc, ?H3, ?app_nil_r, ?zlen_app, ?length_app, ?H1, ?H5, ?H6, ?H7, <-?app_assoc, ?u64_succ; try done.
    all: split; [|simpl; lia]; f_equal; lia.
  - pose proof (msgs_beginStop _ Hu) as Hb. apply (msgs_same (beginStop u)); [done|].
    assert (csm (beginStop u) = CFinish) as Hc' by (unfold beginStop; by destruct (stopOnce u)).
    split; simpl; try done; [by rewrite Hc'|]. by rewrite (mo_active _ Hb), Hc'.
  - apply msgs_complete; [done..|]. by rewrite Hc.
  - pose proof (msgs_sample answer _ Hu) as Hb. by apply (same_msgs_csm (sampleDropped answer u)).
  - by apply (same_msgs_csm u).
  - by apply (same_msgs_csm u).
  - by apply (same_msgs_csm u).
  - by apply (same_msgs_csm u).
  - split; simpl; try done.
    + rewrite H1, <-!app_assoc. done.
    + rewrite zlen_app. simpl. lia.
  - by apply (same_msgs_csm u).
  - by apply msgs_sample.
Qed.

Lemma msgs_start u : msgs_ok u → csm u = CNone → msgs_ok (start u).
Proof.
  intros Hu Hc. apply (msgs_same u); [done|]. split; simpl; rewrite ?Hc; try done. by rewrite (mo_active _ Hu), Hc.
Qed.

Lemma msgs_activate cap answer u : msgs_ok u → chan u = [] → 0 ≤ cap → msgs_ok (activate cap answer u).1.
Proof. intros Hu Hc Hcap. destruct answer; [done|]. destruct Hu. split; simpl; try done. rewrite Hc. done. Qed.

(** ** A subscription told to stop does *)

Lemma deactivates parent u :
  life_ok u → stopOnce u = true → ∃ u', rtc (sub_step parent) u u' ∧ csm u' = csm u ∧ (0 < deactivated u')%nat.
Proof.
  intros Hu Ho.
  assert (Hset : ∀ u st err, cln u = LSet st err →
            ∃ u', rtc (sub_step parent) u u' ∧ csm u' = csm u ∧ (0 < deactivated u')%nat).
  { intros v st err Hv. eexists. split; [by eapply rtc_once, l_set|]. simpl. split; [done|lia]. }
  assert (Hcall : ∀ u st n, cln u = LCall st n →
            ∃ u', rtc (sub_step parent) u u' ∧ csm u' = csm u ∧ (0 < deactivated u')%nat).
  { intros v st [] Hv.
    - destruct (Hset (v <| cln := LSet st None |> <| unsubscribed := S (unsubscribed v) |>) st None) as (v' & Hr & Hv'); [done|].
      exists v'. split; [|done]. eapply rtc_l; [by apply l_call|done].
    - destruct (Hset (v <| cln := LSet st None |>) st None) as (v' & Hr & Hv'); [done|].
      exists v'. split; [|done]. eapply rtc_l; [by apply l_skip|done]. }
  pose proof (lo_once _ Hu) as H1. pose proof (lo_deactivated _ Hu) as H4. rewrite Ho in H1. destruct (cln u) as [| |st n|st err| |] eqn:Hl; [done| | | | |].
  - destruct (Hcall (deactivate (Ok 0) u) (cancel u) (native u)) as (v' & Hr & Hv' & Hd); [done|].
    exists v'. split; [|split; [|done]]; [eapply rtc_l; [by apply l_enter|done]|].
    rewrite Hv'. unfold deactivate. destruct (sampleDropped_stats (Ok 0) u) as (st & -> & _). done.
  - by eapply Hcall.
  - by eapply Hset.
  - exists u. split; [done|]. split; [done|]. rewrite H4. simpl. lia.
  - exists u. split; [done|]. split; [done|]. rewrite H4. simpl. lia.
Qed.

Lemma life_rtc parent u u' : life_ok u → rtc (sub_step parent) u u' → life_ok u'.
Proof. intros Hu Hr. induction Hr; eauto using life_step. Qed.

(** The consumer, with the cleanup done and its context canceled. *)
Lemma consumer_ends parent u :
  life_ok u → (0 < deactivated u)%nat → csm u ≠ CNone → ∃ u', rtc (sub_step parent) u u' ∧ (0 < stopDone u')%nat.
Proof.
  intros Hu Hd Hc.
  assert (Hwait : ∀ u, csm u = CAwait → (0 < deactivated u)%nat → ∃ u', rtc (sub_step parent) u u' ∧ (0 < stopDone u')%nat).
  { intros v Hv Hvd. eexists. split; [by eapply rtc_once, u_complete|]. simpl. lia. }
  assert (Hfin : ∀ u, life_ok u → csm u = CFinish → (0 < deactivated u)%nat → ∃ u', rtc (sub_step parent) u u' ∧ (0 < stopDone u')%nat).
  { intros v Hv Hvc Hvd. destruct (Hwait ((beginStop v) <| csm := CAwait |>)) as (v' & Hr & Hv'); [done| |].
    - simpl. unfold beginStop. by destruct (stopOnce v).
    - exists v'. split; [|done]. eapply rtc_l; [by apply u_finish|done]. }
  assert (Hsel : ∀ u, life_ok u → csm u = CSelect → (0 < deactivated u)%nat → ∃ u', rtc (sub_step parent) u u' ∧ (0 < stopDone u')%nat).
  { intros v Hv Hvc Hvd.
    assert (canceled v || parent = true) as Hx.
    { rewrite (lo_canceled _ Hv), (lo_once _ Hv), Hvc. pose proof (lo_deactivated _ Hv) as H4. by destruct (cln v); simpl in *; lia || done. }
    destruct (Hfin (v <| csm := CFinish |>)) as (v' & Hr & Hv'); [by eapply life_step, u_done|done..|].
    exists v'. split; [|done]. eapply rtc_l; [by apply u_done|done]. }
  assert (Hx : canceled u || parent = true).
  { rewrite (lo_canceled _ Hu), (lo_once _ Hu). pose proof (lo_deactivated _ Hu) as H4.
    destruct (cln u); simpl in H4; try lia; by destruct (csm u). }
  destruct (csm u) as [| |m|m| | |] eqn:E; [done|by apply Hsel| | |by apply Hfin|by apply Hwait|].
  - destruct (Hfin (u <| csm := CFinish |> <| lost := lost u ++ option_list m |>)) as (v' & Hr & Hv');
      [apply (life_step parent u); [done|apply (u_leave _ _ m); auto]|done..|].
    exists v'. split; [|done]. eapply rtc_l; [apply (u_leave _ _ m); auto|done].
  - destruct (Hsel (handle_leave m 0 false u)) as (v' & Hr & Hv'); [by eapply (life_step parent), u_handled|done..|].
    exists v'. split; [|done]. eapply rtc_l; [by apply u_handled|done].
  - exists u. split; [done|]. rewrite (lo_done _ Hu), E. simpl. lia.
Qed.

Lemma completes parent u :
  life_ok u → stopOnce u = true → ∃ u', rtc (sub_step parent) u u' ∧ (0 < stopDone u')%nat.
Proof.
  intros Hu Ho. destruct (deactivates parent u Hu Ho) as (v & Hr & Hc & Hd).
  pose proof (life_rtc _ _ _ Hu Hr) as Hv. assert (csm v = CNone ∨ csm v ≠ CNone) as [E|E] by (destruct (csm v); auto).
  - pose proof (lo_deactivated _ Hv) as H4. destruct (cln v) eqn:L; simpl in H4; try lia.
    + eexists. split; [eapply rtc_r; [done|by apply l_complete]|]. simpl. lia.
    + exists v. split; [done|]. rewrite (lo_done _ Hv), E, L. simpl. lia.
  - destruct (consumer_ends parent v) as (w & Hr' & Hw); [done..|]. exists w. split; [by etrans|done].
Qed.
End Subscription.
