(* ===== verification/EventBus.v ===== *)
(** * The event bus

    [event/nats/bus.go]: the publish worker behind an unbuffered channel, the
    registration of subscriptions under [registrationMu], the subscriptions
    themselves ([Subscription]), and [Close], which stops all of them.  The
    native client only answers.  A step is a critical section, an operation on
    a channel, a select, or a call of the native client.  Proved: a [Publish]
    that reports success was sent once; the handler of a subscription gets its
    messages in order, one at a time; a returned [Unsubscribe] or [Close]
    leaves nothing running; and a [Close] always returns. *)

From S2P Require Import Prelude Errors Proto Event Subscription.

(** ** Publishing *)

Inductive publishing := PuHand | PuWait | PuReturned (err : option error).

(** [rctx]: the error of the caller's context; [answer]: what is in the
    result channel; [checked]: the event passed the checks of [Publish]. *)
Record publishRequest := mkRequest {
  rctx : option error;
  event : Event;
  answer : option (option error);
  caller : publishing;
  checked : bool;
}.
#[export] Instance eta_request : Eta publishRequest := λ r,
  mkRequest (rctx r) (event r) (answer r) (caller r) (checked r).

(** [publishLoop]: at its select, in front of each check, and inside the
    native [Publish]. *)
Inductive worker := PLoop | PHave (i : nat) | PChecked (i : nat) | PNative (i : nat) | PExit.

(** [sent]: the calls of the native [Publish] and their results. *)
Record publisher := mkPublisher {
  wkr : worker;
  pubs : gmap nat publishRequest;
  sent : list (nat * option error);
}.
#[export] Instance eta_publisher : Eta publisher := λ p, mkPublisher (wkr p) (pubs p) (sent p).

Definition closedErr : error := ESentinel EventErrClosed.

Section Bus.
Context (maxPayloadBytes queueCapacity : Z).

(** The checks of [Publish]. *)
Definition publish_check (c : option Ctx.t) (now : Z) (e : Event) (closed : bool) : option error :=
  match contextError c now with
  | Some err => Some err
  | None =>
      if negb (ValidTopic (Topic e)) then Some (ESentinel EventErrInvalidTopic)
      else if maxPayloadBytes <? zlen (Payload e) then Some (EText "nats: payload exceeds the limit")
      else if closed then Some closedErr
      else None
  end.

Definition set_pub (i : nat) (r : publishRequest) (p : publisher) : publisher := p <| pubs := <[i := r]> (pubs p) |>.

Definition open_call (k : publishing) : bool := match k with PuReturned _ => false | _ => true end.

(** [closed]: the context of the bus is done. *)
Inductive pub_step (closed : bool) (p : publisher) : publisher → Prop :=
(* Publish *)
| p_refused i c now e err :
    pubs p !! i = None → publish_check c now e closed = Some err →
    pub_step closed p (set_pub i (mkRequest None e None (PuReturned (Some err)) false) p)
| p_call i c now e :
    pubs p !! i = None → publish_check c now e closed = None →
    pub_step closed p (set_pub i (mkRequest None e None PuHand true) p)
| p_ctx i r err :
    pubs p !! i = Some r → rctx r = None → pub_step closed p (set_pub i (r <| rctx := Some err |>) p)
| p_cancel i r err :
    pubs p !! i = Some r → open_call (caller r) = true → rctx r = Some err →
    pub_step closed p (set_pub i (r <| caller := PuReturned (Some err) |>) p)
| p_closed i r :
    pubs p !! i = Some r → open_call (caller r) = true → closed = true →
    pub_step closed p (set_pub i (r <| caller := PuReturned (Some closedErr) |>) p)
| p_result i r err :
    pubs p !! i = Some r → caller r = PuWait → answer r = Some err →
    pub_step closed p (set_pub i (r <| caller := PuReturned err |>) p)
(* publishLoop *)
| w_done : wkr p = PLoop → closed = true → pub_step closed p (p <| wkr := PExit |>)
| w_take i r :
    wkr p = PLoop → pubs p !! i = Some r → caller r = PuHand →
    pub_step closed p (set_pub i (r <| caller := PuWait |>) (p <| wkr := PHave i |>))
| w_canceled i r err :
    wkr p = PHave i → pubs p !! i = Some r → rctx r = Some err →
    pub_step closed p (set_pub i (r <| answer := Some (Some err) |>) (p <| wkr := PLoop |>))
| w_live i r :
    wkr p = PHave i → pubs p !! i = Some r → rctx r = None → pub_step closed p (p <| wkr := PChecked i |>)
| w_closed i r :
    wkr p = PChecked i → pubs p !! i = Some r → closed = true →
    pub_step closed p (set_pub i (r <| answer := Some (Some closedErr) |>) (p <| wkr := PExit |>))
| w_open i : wkr p = PChecked i → closed = false → pub_step closed p (p <| wkr := PNative i |>)
| w_sent i r err :
    wkr p = PNative i → pubs p !! i = Some r →
    pub_step closed p
      (set_pub i (r <| answer := Some (match err with Some _ => if closed then Some closedErr else err | None => None end) |>)
         (p <| wkr := PLoop |> <| sent := sent p ++ [(i, err)] |>)).

(** What a request in the worker's hands, or on its way to it, is. *)
Definition in_hand (w : worker) (i : nat) : Prop := w = PHave i ∨ w = PChecked i ∨ w = PNative i.

Definition sendable (e : Event) : Prop := ValidTopic (Topic e) = true ∧ zlen (Payload e) ≤ maxPayloadBytes.

Record req_ok (p : publisher) (i : nat) (r : publishRequest) : Prop := mkReqOk {
  ro_checked : checked r = true → sendable (event r);
  ro_hand : caller r = PuHand → checked r = true ∧ answer r = None ∧ ¬ in_hand (wkr p) i ∧ i ∉ (sent p).*1;
  ro_worker : in_hand (wkr p) i → checked r = true ∧ answer r = None ∧ i ∉ (sent p).*1;
  ro_sent : i ∈ (sent p).*1 → checked r = true ∧ answer r ≠ None;
  ro_answer : answer r = Some None → (i, None) ∈ sent p;
  ro_returned : caller r = PuReturned None → answer r = Some None;
}.

Record pub_ok (p : publisher) : Prop := mkPubOk {
  po_req : ∀ i r, pubs p !! i = Some r → req_ok p i r;
  po_worker : ∀ i, in_hand (wkr p) i → pubs p !! i ≠ None;
  po_sent : ∀ i, i ∈ (sent p).*1 → pubs p !! i ≠ None;
  po_nodup : NoDup (sent p).*1;
}.

Lemma publish_check_none c now e closed : publish_check c now e closed = None → sendable e.
Proof.
  unfold publish_check. destruct (contextError c now); [done|]. destruct (ValidTopic (Topic e)) eqn:E; [|done]. simpl.
  destruct (Z.ltb_spec maxPayloadBytes (zlen (Payload e))); [done|]. by split.
Qed.

(** A step that changes one request, with the worker and [sent] the same for
    all the others. *)
Lemma pub_update p p' i r :
  pub_ok p → pubs p' = <[i := r]> (pubs p) → req_ok p' i r →
  (∀ j, j ≠ i → (in_hand (wkr p') j → in_hand (wkr p) j) ∧ (j ∈ (sent p').*1 ↔ j ∈ (sent p).*1) ∧
                ∀ e, (j, e) ∈ sent p → (j, e) ∈ sent p') →
  NoDup (sent p').*1 → pub_ok p'.
Proof.
  intros [Hr Hw Hs Hn] Hp Hi Hj Hn'. split; [..|done].
  - intros j x Hx. rewrite Hp in Hx. destruct (decide (j = i)) as [->|Hne].
    + rewrite lookup_insert_eq in Hx. by simplify_eq.
    + rewrite lookup_insert_ne in Hx by done. destruct (Hj j Hne) as (Hh & Hin & Hk).
      destruct (Hr _ _ Hx) as [H1 H2 H3 H4 H5 H6]. split; rewrite ?Hin; auto. intros Hc. destruct (H2 Hc) as (?&?&?&?). split_and!; auto.
  - intros j Hh. rewrite Hp. destruct (decide (j = i)) as [->|Hne]; [by rewrite lookup_insert_eq|].
    rewrite lookup_insert_ne by done. by apply Hw, Hj.
  - intros j Hh. rewrite Hp. destruct (decide (j = i)) as [->|Hne]; [by rewrite lookup_insert_eq|].
    rewrite lookup_insert_ne by done. by apply Hs, (Hj j Hne).
Qed.

Lemma pub_worker p w :
  pub_ok p → (∀ i, in_hand w i → in_hand (wkr p) i) → pub_ok (p <| wkr := w |>).
Proof.
  intros [Hr Hw Hs Hn] Hi. split; simpl; auto. intros i r H. destruct (Hr i r H) as [H1 H2 H3 H4 H5 H6].
  split; simpl; auto. intros Hc. destruct (H2 Hc) as (?&?&?&?). split_and!; auto.
Qed.

(** Nothing but request [i] changes. *)
Lemma pub_request p i r :
  pub_ok p → req_ok p i r → pub_ok (set_pub i r p).
Proof. intros Hp [H1 H2 H3 H4 H5 H6]. apply (pub_update p _ i r); [done..|split; auto|done|apply (po_nodup _ Hp)]. Qed.

Lemma not_in_hand_loop i : ¬ in_hand PLoop i.
Proof. by intros [|[]]. Qed.
Lemma not_in_hand_exit i : ¬ in_hand PExit i.
Proof. by intros [|[]]. Qed.
Lemma in_hand_inj w i j : (w = PHave i ∨ w = PChecked i ∨ w = PNative i) → in_hand w j → j = i.
Proof. unfold in_hand. naive_solver. Qed.

(** The worker answers the request it has and lets go of it. *)
Lemma pub_answer p i r w x k :
  pub_ok p → in_hand (wkr p) i → pubs p !! i = Some r → (∀ j, ¬ in_hand w j) →
  k = [] ∧ x ≠ None ∨ (∃ e, k = [(i, e)] ∧ (x = None → e = None)) →
  pub_ok (set_pub i (r <| answer := Some x |>) (p <| wkr := w |> <| sent := sent p ++ k |>)).
Proof.
  intros Hp Hh Hi Hw Hk. destruct (po_req _ Hp _ _ Hi) as [H1 H2 H3 H4 H5 H6]. destruct (H3 Hh) as (Hc & Ha & Hn).
  apply (pub_update p _ i (r <| answer := Some x |>)); [done..| | |]; simpl.
  - split; simpl; auto.
    + intros E. by destruct (H2 E) as (_ & _ & [] & _).
    + intros E. by destruct (Hw i).
    + intros [= ->]. destruct Hk as [[_ []]|(e & -> & He)]; [done|]. rewrite elem_of_app, list_elem_of_singleton. right. by rewrite He.
    + intros E. rewrite (H6 E) in Ha. done.
  - intros j Hne. split; [by intros ?%Hw|]. split.
    + rewrite fmap_app, elem_of_app. destruct Hk as [[-> _]|(e & -> & _)]; simpl; set_solver.
    + intros e He. rewrite elem_of_app. by left.
  - rewrite fmap_app, NoDup_app. split; [apply (po_nodup _ Hp)|]. destruct Hk as [[-> _]|(e & -> & _)]; simpl.
    + split; [set_solver|constructor].
    + split; [|apply NoDup_singleton]. intros j Hj ->%list_elem_of_singleton. done.
Qed.

Lemma pub_refuse p i r w err :
  pub_ok p → in_hand (wkr p) i → pubs p !! i = Some r → (∀ j, ¬ in_hand w j) →
  pub_ok (set_pub i (r <| answer := Some (Some err) |>) (p <| wkr := w |>)).
Proof.
  intros Hp Hh Hi Hw. pose proof (pub_answer p i r w (Some err) [] Hp Hh Hi Hw ltac:(by left)) as H.
  rewrite app_nil_r in H. exact H.
Qed.

Lemma pub_ok_step closed p p' : pub_ok p → pub_step closed p p' → pub_ok p'.
Proof.
  intros Hp Hst. destruct Hst as [i c now e err Hi Hc|i c now e Hi Hc|i r err Hi Hx|i r err Hi Ho Hx|i r Hi Ho _|i r err Hi Hc Ha
    |Hw _|i r Hw Hi Hc|i r err Hw Hi Hx|i r Hw Hi Hx|i r Hw Hi _|i Hw _|i r err Hw Hi].
  1-2: assert (Hno : ¬ in_hand (wkr p) i ∧ i ∉ (sent p).*1) by (split; [intros H; by apply (po_worker _ Hp) in H|intros H; by apply (po_sent _ Hp) in H]);
       destruct Hno as [Hnw Hns]; apply pub_request; [done|].
  3-6: pose proof (po_req _ Hp _ _ Hi) as [H1 H2 H3 H4 H5 H6]; apply pub_request; [done|].
  - split; simpl; done.
  - split; simpl; try done. intros _. by eapply publish_check_none.
  - split; simpl; auto.
  - split; simpl; done || auto.
  - split; simpl; done || auto.
  - split; simpl; done || auto. intros [= ->]. done.
  - apply pub_worker; [done|]. intros i Hi. by apply not_in_hand_exit in Hi.
  - destruct (po_req _ Hp _ _ Hi) as [H1 H2 H3 H4 H5 H6]. destruct (H2 Hc) as (Hk & Ha & Hn & Hs).
    apply (pub_update p _ i (r <| caller := PuWait |>)); [done..| | |apply (po_nodup _ Hp)]; simpl.
    + split; simpl; done || auto.
    + intros j Hne. split; [|done]. intros Hj. apply (in_hand_inj _ i) in Hj; [done|by left].
  - apply pub_refuse; [done|by left|done|apply not_in_hand_loop].
  - apply pub_worker; [done|]. rewrite Hw. intros j [|[|]]; simplify_eq. by left.
  - apply pub_refuse; [done|by right; left|done|apply not_in_hand_exit].
  - apply pub_worker; [done|]. rewrite Hw. intros j [|[|]]; simplify_eq. by right; left.
  - apply pub_answer; [done|by right; right|done|apply not_in_hand_loop|]. right. exists err. split; [done|].
    by destruct err, closed.
Qed.

Definition pub_init : publisher := mkPublisher PLoop ∅ [].

Lemma pub_ok_init : pub_ok pub_init.
Proof. split; simpl; [done|by intros i ?%not_in_hand_loop|set_solver|constructor]. Qed.

(** With the context of the bus done, the worker ends. *)
Lemma worker_ends p : pub_ok p → ∃ p', rtc (pub_step true) p p' ∧ wkr p' = PExit.
Proof.
  intros Hp.
  assert (Hloop : ∀ p, wkr p = PLoop → ∃ p', rtc (pub_step true) p p' ∧ wkr p' = PExit).
  { intros q Hq. eexists. split; [by apply rtc_once, w_done|done]. }
  assert (Hreq : ∀ i, in_hand (wkr p) i → ∃ r, pubs p !! i = Some r).
  { intros i Hi. apply (po_worker _ Hp) in Hi. destruct (pubs p !! i); [eauto|done]. }
  destruct (wkr p) as [|i|i|i|] eqn:Hw; [by apply Hloop| | | |by exists p].
  - destruct (Hreq i) as [r Hr]; [by left|]. destruct (rctx r) as [err|] eqn:Hx.
    + destruct (Hloop (set_pub i (r <| answer := Some (Some err) |>) (p <| wkr := PLoop |>))) as (p' & Hp' & He); [done|].
      exists p'. split; [|done]. eapply rtc_l; [by apply w_canceled|done].
    + eexists. split; [eapply rtc_l; [by eapply w_live|]; by eapply rtc_once, (w_closed _ _ i r)|done].
  - destruct (Hreq i) as [r Hr]; [by right; left|]. eexists. split; [by eapply rtc_once, w_closed|done].
  - destruct (Hreq i) as [r Hr]; [by right; right|].
    destruct (Hloop (set_pub i (r <| answer := Some None |>) (p <| wkr := PLoop |> <| sent := sent p ++ [(i, None)] |>)))
      as (p' & Hp' & He); [done|].
    exists p'. split; [|done]. eapply rtc_l; [by apply (w_sent _ _ i r None)|done].
Qed.

(** ** Subscribing and closing *)

(** A call of [Subscribe]: in front of [registrationMu] or, holding it, of
    [activate], of [flush] or of the end of [failRegistration].  The
    subscription of a call has its number. *)
Inductive subscriber :=
| SuEnter (topic : string)
| SuActivate
| SuFlush
| SuFailing (cause : error)
| SuReturned (err : option error).

(** A call of [Unsubscribe], in [wait]. *)
Record unsubscriber := mkUnsub { usub : nat; uctx : option error; ureturned : option (option error) }.
#[export] Instance eta_unsub : Eta unsubscriber := λ v, mkUnsub (usub v) (uctx v) (ureturned v).

(** The function [closeOnce] runs, in front of each of its statements, with
    the subscriptions it took and those its loop has yet to visit. *)
Inductive closing :=
| XCancel
| XTake
| XStop (l rest : list nat)
| XAwait (l rest : list nat)
| XConn (l : list nat)
| XPublish (l : list nat)
| XDone (l rest : list nat) (errs : list (option error)).

Inductive onceState := OnceNew | OnceRunning (x : closing) | OnceDone (l : list nat).
Inductive closer := KEnter | KReturned (err : option error).

Record bus := mkBus {
  done : bool;
  connClosed : bool;
  pub : publisher;
  mu : option nat;
  subs : gmap nat subscription;
  subscribing : gmap nat (option error * subscriber);
  waiting : gmap nat unsubscriber;
  subscriptions : list nat;
  registrationErr : option error;
  once : onceState;
  closers : gmap nat closer;
  closeErr : option error;
}.
#[export] Instance eta_bus : Eta bus := λ b,
  mkBus (done b) (connClosed b) (pub b) (mu b) (subs b) (subscribing b) (waiting b) (subscriptions b) (registrationErr b)
    (once b) (closers b) (closeErr b).

Definition bus_init : bus := mkBus false false pub_init None ∅ ∅ ∅ [] None OnceNew ∅ None.

Definition subscribe_check (c : option Ctx.t) (now : Z) (topic : string) (handler : bool) : option error :=
  match contextError c now with
  | Some err => Some err
  | None =>
      if negb (ValidTopic topic) then Some (ESentinel EventErrInvalidTopic)
      else if negb handler then Some (ESentinel EventErrInvalidHandler)
      else None
  end.

(** The checks behind [registrationMu]. *)
Definition lock_check (b : bus) (ctxErr : option error) : option error :=
  if done b then Some closedErr
  else match registrationErr b with
       | Some err => Some (EWrap "nats: subscription registration stopped after prior failure: %w" [err])
       | None => ctxErr
       end.

(** [flushed]: the result of [flush]; [seen]: the cancellation of the bus has
    reached the activation context. *)
Definition activation_error (b : bus) (ctxErr flushed : option error) (seen : bool) : option error :=
  let err := match flushed with
             | Some err => Some err
             | None => match ctxErr with Some err => Some err | None => if seen then Some (ESentinel CtxCanceled) else None end
             end in
  match err with Some err => Some (if done b then closedErr else err) | None => None end.

Definition finished (u : subscription) : bool := (0 <? stopDone u)%nat && match stopErr u with None => true | Some _ => false end.

(** [slices.DeleteFunc] of the subscriptions that ended without an error. *)
Definition purge (m : gmap nat subscription) (l : list nat) : list nat :=
  filter (λ i, match m !! i with Some u => finished u | None => false end = false) l.

Definition set_sub (i : nat) (u : subscription) (b : bus) : bus := b <| subs := <[i := u]> (subs b) |>.
Definition set_call (c : nat) (e : option error) (k : subscriber) (b : bus) : bus :=
  b <| subscribing := <[c := (e, k)]> (subscribing b) |>.

(** [failRegistration], up to its wait. *)
Definition failing (c : nat) (e : option error) (u : subscription) (err : error) (b : bus) : bus :=
  set_call c e (SuFailing (EWrap "nats: subscribe: %w" [err])) (set_sub c (beginStop u) b).

Inductive subscribe_step (b : bus) : bus → Prop :=
| s_refused c x now t h err :
    subscribing b !! c = None → subscribe_check x now t h = Some err →
    subscribe_step b (set_call c None (SuReturned (Some err)) b)
| s_call c x now t h :
    subscribing b !! c = None → subscribe_check x now t h = None → subscribe_step b (set_call c None (SuEnter t) b)
| s_ctx c k err : subscribing b !! c = Some (None, k) → subscribe_step b (set_call c (Some err) k b)
| s_rejected c e t err :
    subscribing b !! c = Some (e, SuEnter t) → mu b = None → lock_check b e = Some err →
    subscribe_step b (set_call c e (SuReturned (Some err)) b)
| s_locked c e t :
    subscribing b !! c = Some (e, SuEnter t) → mu b = None → lock_check b e = None →
    subscribe_step b (set_call c e SuActivate (set_sub c (fresh_sub t) (b <| mu := Some c |>)))
| s_not_activated c e u err :
    subscribing b !! c = Some (e, SuActivate) → subs b !! c = Some u →
    (activate queueCapacity (Some err) u).2 = Some err → subscribe_step b (failing c e u err b)
| s_activated c e u :
    subscribing b !! c = Some (e, SuActivate) → subs b !! c = Some u →
    subscribe_step b (set_call c e SuFlush (set_sub c (activate queueCapacity None u).1 b))
| s_not_flushed c e u flushed seen err :
    subscribing b !! c = Some (e, SuFlush) → subs b !! c = Some u → (seen = true → done b = true) →
    activation_error b e flushed seen = Some err → subscribe_step b (failing c e u err b)
| s_subscribed c e u flushed seen :
    subscribing b !! c = Some (e, SuFlush) → subs b !! c = Some u → (seen = true → done b = true) →
    activation_error b e flushed seen = None →
    subscribe_step b (set_call c e (SuReturned None)
                        (set_sub c (start u) (b <| mu := None |> <| subscriptions := purge (subs b) (subscriptions b) ++ [c] |>)))
| s_failed c e u cause :
    subscribing b !! c = Some (e, SuFailing cause) → subs b !! c = Some u → (0 < stopDone u)%nat →
    subscribe_step b (let err := errors_Join [Some cause; stopErr u] in
                      set_call c e (SuReturned err) (b <| mu := None |> <| registrationErr := err |>)).

Inductive unsubscribe_step (b : bus) : bus → Prop :=
| un_call w i e u x :
    waiting b !! w = None → subscribing b !! i = Some (e, SuReturned None) → subs b !! i = Some u →
    unsubscribe_step b ((set_sub i (beginStop u) b) <| waiting := <[w := mkUnsub i x None]> (waiting b) |>)
| un_ctx w v err :
    waiting b !! w = Some v → uctx v = None → ureturned v = None →
    unsubscribe_step b (b <| waiting := <[w := v <| uctx := Some err |>]> (waiting b) |>)
| un_return w v u r :
    waiting b !! w = Some v → ureturned v = None → subs b !! usub v = Some u → wait (uctx v) u = Some r →
    unsubscribe_step b (b <| waiting := <[w := v <| ureturned := Some r |>]> (waiting b) |>).

Inductive close_step (b : bus) : bus → Prop :=
| c_call i : closers b !! i = None → close_step b (b <| closers := <[i := KEnter]> (closers b) |>)
| c_first i : closers b !! i = Some KEnter → once b = OnceNew → close_step b (b <| once := OnceRunning XCancel |>)
| c_cancel : once b = OnceRunning XCancel → close_step b (b <| done := true |> <| once := OnceRunning XTake |>)
| c_take :
    once b = OnceRunning XTake → mu b = None →
    close_step b (b <| subscriptions := [] |> <| once := OnceRunning (XStop (subscriptions b) (subscriptions b)) |>)
| c_stop l i rest u :
    once b = OnceRunning (XStop l (i :: rest)) → subs b !! i = Some u →
    close_step b ((set_sub i (beginStop u) b) <| once := OnceRunning (XStop l rest) |>)
| c_stopped l : once b = OnceRunning (XStop l []) → close_step b (b <| once := OnceRunning (XAwait l l) |>)
| c_await l i rest u :
    once b = OnceRunning (XAwait l (i :: rest)) → subs b !! i = Some u → (0 < deactivated u)%nat →
    close_step b (b <| once := OnceRunning (XAwait l rest) |>)
| c_awaited l : once b = OnceRunning (XAwait l []) → close_step b (b <| once := OnceRunning (XConn l) |>)
| c_conn l : once b = OnceRunning (XConn l) → close_step b (b <| connClosed := true |> <| once := OnceRunning (XPublish l) |>)
| c_publish l :
    once b = OnceRunning (XPublish l) → wkr (pub b) = PExit → close_step b (b <| once := OnceRunning (XDone l l []) |>)
| c_wait l i rest errs u :
    once b = OnceRunning (XDone l (i :: rest) errs) → subs b !! i = Some u → (0 < stopDone u)%nat →
    close_step b (b <| once := OnceRunning (XDone l rest (errs ++ [stopErr u])) |>)
| c_done l errs :
    once b = OnceRunning (XDone l [] errs) → close_step b (b <| closeErr := errors_Join errs |> <| once := OnceDone l |>)
| c_return i l :
    closers b !! i = Some KEnter → once b = OnceDone l →
    close_step b (b <| closers := <[i := KReturned (closeErr b)]> (closers b) |>).

(** [b_parent]: the context given to [New] is done, which [closeOnContext]
    answers with a [Close] of its own ([c_call]). *)
Inductive bus_step (b : bus) : bus → Prop :=
| b_publish p : pub_step (done b) (pub b) p → bus_step b (b <| pub := p |>)
| b_sub i u u' : subs b !! i = Some u → sub_step maxPayloadBytes (done b) u u' → bus_step b (set_sub i u' b)
| b_subscribe b' : subscribe_step b b' → bus_step b b'
| b_unsubscribe b' : unsubscribe_step b b' → bus_step b b'
| b_close b' : close_step b b' → bus_step b b'
| b_parent : bus_step b (b <| done := true |>).

Definition bus_reach : bus → Prop := reachable (λ b, b = bus_init) bus_step.

(** ** What a subscription keeps *)

(** How one step, or a [beginStop], moves a subscription. *)
Record evolves (u u' : subscription) : Prop := mkEvolves {
  ev_started : csm u' = CNone ↔ csm u = CNone;
  ev_stop : stopOnce u = true → stopOnce u' = true;
  ev_deactivated : (0 < deactivated u)%nat → (0 < deactivated u')%nat ∧ stopErr u' = stopErr u;
  ev_done : (0 < stopDone u)%nat → (0 < stopDone u')%nat;
  ev_idle : csm u = CNone → cln u = LNone → cln u' = LNone;
  ev_capacity : QueueCapacity (stats u') = QueueCapacity (stats u);
}.

Lemma evolves_step parent u u' : life_ok u → sub_step maxPayloadBytes parent u u' → evolves u u'.
Proof.
  intros Hu Hst. pose proof (lo_deactivated _ Hu) as Hda.
  destruct Hst as [Hc _|m rest Hc Hr|Hc _ _|m Hc _|m Hc _ Hf|m Hc _ Hf|m d r Hc Hd|Hc|Hc Hd|answer Hl|st err Hl|st Hl|st err Hl|Hl
    |m Hm _|_|answer].
  1-6: split; simpl; rewrite ?Hc; try done; auto.
  - destruct r; split; simpl; rewrite ?Hc; try done; auto.
  - unfold beginStop. destruct (stopOnce u) eqn:E; split; simpl; rewrite ?Hc; try done; auto.
  - split; simpl; rewrite ?Hc; try done; auto; lia.
  - unfold deactivate. destruct (sampleDropped_stats answer u) as (st & -> & HC & _ & _ & _ & Hq & _).
    split; simpl; rewrite ?Hl, ?Hq; try done; auto.
  - split; simpl; rewrite ?Hl; try done; auto.
  - split; simpl; rewrite ?Hl; try done; auto.
  - rewrite Hl in Hda. simpl in Hda. split; simpl; rewrite ?Hl; try done; auto; lia.
  - split; simpl; rewrite ?Hl; try done; auto; lia.
  - split; simpl; try done; auto.
  - split; simpl; try done; auto.
  - unfold snapshot. simpl. destruct (sampleDropped_stats answer u) as (st & -> & HC & _ & _ & _ & Hq & _).
    split; simpl; rewrite ?Hq; try done; auto.
Qed.

Lemma evolves_beginStop u : csm u ≠ CNone → evolves u (beginStop u).
Proof. intros Hc. unfold beginStop. destruct (stopOnce u) eqn:E; split; simpl; try done; auto. Qed.

(** ** The invariant *)

Definition sub_at (b : bus) (P : subscription → Prop) (i : nat) : Prop := ∃ u, subs b !! i = Some u ∧ P u.

Definition is_new (u : subscription) : Prop := csm u = CNone ∧ cln u = LNone.
Definition is_running (u : subscription) : Prop := csm u ≠ CNone.
Definition is_stopped (u : subscription) : Prop := stopOnce u = true.
Definition is_deactivated (u : subscription) : Prop := (0 < deactivated u)%nat.
Definition is_done (u : subscription) : Prop := (0 < stopDone u)%nat.
Definition is_over (e : option error) (u : subscription) : Prop := is_done u ∧ is_deactivated u ∧ stopErr u = e.

(** Predicates no step makes false. *)
Definition lasting (P : subscription → Prop) : Prop := ∀ u u', evolves u u' → P u → P u'.

Lemma lasting_new : lasting is_new.
Proof. intros u u' [] [H1 H2]. split; [naive_solver|auto]. Qed.
Lemma lasting_running : lasting is_running.
Proof. intros u u' [] H. unfold is_running in *. naive_solver. Qed.
Lemma lasting_stopped : lasting is_stopped.
Proof. intros u u' [] H. unfold is_stopped in *. auto. Qed.
Lemma lasting_deactivated : lasting is_deactivated.
Proof. intros u u' [] H. unfold is_deactivated in *. naive_solver. Qed.
Lemma lasting_done : lasting is_done.
Proof. intros u u' [] H. unfold is_done in *. auto. Qed.
Lemma lasting_over e : lasting (is_over e).
Proof.
  intros u u' Hev (Hd & Ha & He). split; [by eapply lasting_done|]. split; [by eapply lasting_deactivated|].
  destruct (ev_deactivated _ _ Hev Ha) as [_ ->]. done.
Qed.
Lemma lasting_and P Q : lasting P → lasting Q → lasting (λ u, P u ∧ Q u).
Proof. intros HP HQ u u' Hev []. split; eauto. Qed.
Lemma lasting_empty : lasting (λ u, QueueCapacity (stats u) = 0).
Proof. intros u u' [] H. congruence. Qed.
Hint Resolve lasting_new lasting_running lasting_stopped lasting_deactivated lasting_done lasting_over lasting_and lasting_empty : yola.

Definition locked (k : subscriber) : bool := match k with SuActivate | SuFlush | SuFailing _ => true | _ => false end.

Definition call_ok (b : bus) (c : nat) (k : subscriber) : Prop :=
  match k with
  | SuEnter _ => subs b !! c = None
  | SuActivate => sub_at b (λ u, is_new u ∧ QueueCapacity (stats u) = 0) c
  | SuFlush => sub_at b is_new c
  | SuFailing _ => sub_at b (λ u, csm u = CNone ∧ is_stopped u) c
  | SuReturned None => sub_at b is_running c
  | SuReturned (Some _) => subs b !! c = None ∨ sub_at b is_done c
  end.

Lemma lasting_failing : lasting (λ u, csm u = CNone ∧ is_stopped u).
Proof. intros u u' Hev [H1 H2]. split; [by apply (ev_started _ _ Hev)|by eapply lasting_stopped]. Qed.
Hint Resolve lasting_failing : yola.

(** The subscriptions [Close] took. *)
Definition taken (o : onceState) : list nat :=
  match o with
  | OnceRunning (XStop l _) | OnceRunning (XAwait l _) | OnceRunning (XConn l) | OnceRunning (XPublish l)
  | OnceRunning (XDone l _ _) | OnceDone l => l
  | _ => []
  end.

Definition before_take (o : onceState) : bool :=
  match o with OnceNew | OnceRunning XCancel | OnceRunning XTake => true | _ => false end.

Definition stage_ok (b : bus) : Prop :=
  match once b with
  | OnceNew | OnceRunning XCancel => True
  | OnceRunning XTake => done b = true
  | OnceRunning (XStop l rest) => ∃ pre, l = pre ++ rest ∧ Forall (sub_at b is_stopped) pre
  | OnceRunning (XAwait l rest) =>
      Forall (sub_at b is_stopped) l ∧ ∃ pre, l = pre ++ rest ∧ Forall (sub_at b is_deactivated) pre
  | OnceRunning (XConn l) => Forall (sub_at b is_stopped) l ∧ Forall (sub_at b is_deactivated) l
  | OnceRunning (XPublish l) =>
      Forall (sub_at b is_stopped) l ∧ Forall (sub_at b is_deactivated) l ∧ connClosed b = true
  | OnceRunning (XDone l rest errs) =>
      Forall (sub_at b is_stopped) l ∧ Forall (sub_at b is_deactivated) l ∧ connClosed b = true ∧ wkr (pub b) = PExit ∧
      ∃ pre, l = pre ++ rest ∧ Forall2 (λ i e, sub_at b (is_over e) i) pre errs
  | OnceDone l =>
      connClosed b = true ∧ wkr (pub b) = PExit ∧
      ∃ errs, Forall2 (λ i e, sub_at b (is_over e) i) l errs ∧ closeErr b = errors_Join errs
  end.

Definition wait_ok (b : bus) (v : unsubscriber) : Prop :=
  sub_at b (λ u, is_running u ∧ is_stopped u) (usub v) ∧
  ∀ r, ureturned v = Some r →
    sub_at b (is_over r) (usub v) ∨ ∃ err e, uctx v = Some err ∧ (r = Some err ∨ r = errors_Join [e; Some err]).

Record bus_ok (b : bus) : Prop := mkBusOk {
  bo_pub : pub_ok (pub b);
  bo_sub : ∀ i u, subs b !! i = Some u → life_ok u ∧ msgs_ok maxPayloadBytes u;
  bo_call : ∀ c e k, subscribing b !! c = Some (e, k) → call_ok b c k ∧ (locked k = true → mu b = Some c);
  bo_mu : ∀ c, mu b = Some c → ∃ e k, subscribing b !! c = Some (e, k) ∧ locked k = true;
  bo_known : ∀ i, subs b !! i ≠ None → subscribing b !! i ≠ None;
  bo_place : ∀ i u, subs b !! i = Some u → mu b = Some i ∨ i ∈ subscriptions b ∨ i ∈ taken (once b) ∨ is_done u;
  bo_listed : ∀ i, i ∈ subscriptions b ∨ i ∈ taken (once b) → sub_at b is_running i;
  bo_stage : stage_ok b;
  bo_taken : before_take (once b) = false → done b = true ∧ mu b = None ∧ subscriptions b = [];
  bo_wait : ∀ w v, waiting b !! w = Some v → wait_ok b v;
  bo_closed : ∀ i e, closers b !! i = Some (KReturned e) → (∃ l, once b = OnceDone l) ∧ e = closeErr b;
}.

(** Every subscription is where it was or has moved on. *)
Definition moves (b b' : bus) : Prop :=
  ∀ i u, subs b !! i = Some u → ∃ u', subs b' !! i = Some u' ∧ (u' = u ∨ evolves u u').

Lemma moves_same b b' : subs b' = subs b → moves b b'.
Proof. intros E i u Hu. rewrite E. eauto. Qed.

Lemma moves_set b b' i u u' : subs b' = <[i := u']> (subs b) → subs b !! i = Some u → u' = u ∨ evolves u u' → moves b b'.
Proof.
  intros E Hi Hev j x Hx. rewrite E. destruct (decide (j = i)) as [->|Hne].
  - rewrite lookup_insert_eq. simplify_eq. eauto.
  - rewrite lookup_insert_ne by done. eauto.
Qed.

Lemma sub_at_moves b b' P i : lasting P → moves b b' → sub_at b P i → sub_at b' P i.
Proof.
  intros HP Hm (u & Hu & Hp). destruct (Hm _ _ Hu) as (u' & Hu' & [->|Hev]); [by exists u|]. exists u'. split; [done|]. by eapply HP.
Qed.

Lemma Forall_moves b b' P l : lasting P → moves b b' → Forall (sub_at b P) l → Forall (sub_at b' P) l.
Proof. intros HP Hm Hl. eapply Forall_impl; [done|]. intros i. by apply sub_at_moves. Qed.

Lemma Forall2_moves b b' l errs :
  moves b b' → Forall2 (λ i e, sub_at b (is_over e) i) l errs → Forall2 (λ i e, sub_at b' (is_over e) i) l errs.
Proof. intros Hm Hl. eapply Forall2_impl; [done|]. intros i e. apply sub_at_moves; auto with yola. Qed.

Lemma stage_moves b b' :
  stage_ok b → moves b b' → once b' = once b → (done b = true → done b' = true) → connClosed b' = connClosed b →
  (wkr (pub b) = PExit → wkr (pub b') = PExit) → closeErr b' = closeErr b → stage_ok b'.
Proof.
  intros Hs Hm Ho Hd Hc Hw He. unfold stage_ok in *. rewrite Ho, Hc, He.
  destruct (once b) as [|[| |l rest|l rest|l|l|l rest errs]|l]; auto.
  - destruct Hs as (pre & -> & H). exists pre. split; [done|]. eapply Forall_moves; eauto with yola.
  - destruct Hs as (H1 & pre & -> & H). split; [eapply Forall_moves; eauto with yola|].
    exists pre. split; [done|]. eapply Forall_moves; eauto with yola.
  - destruct Hs as (H1 & H2). split; eapply Forall_moves; eauto with yola.
  - destruct Hs as (H1 & H2 & H3). split_and!; [..|done]; eapply Forall_moves; eauto with yola.
  - destruct Hs as (H1 & H2 & H3 & H4 & pre & -> & H5). split_and!; [eapply Forall_moves; eauto with yola..|done|auto|].
    exists pre. split; [done|]. by eapply Forall2_moves.
  - destruct Hs as (H3 & H4 & errs & H5 & H6). split_and!; [done|auto|]. exists errs. split; [|done]. by eapply Forall2_moves.
Qed.

Lemma wait_moves b b' v : moves b b' → wait_ok b v → wait_ok b' v.
Proof.
  intros Hm [H1 H2]. split; [eapply sub_at_moves; eauto with yola|]. intros r Hr.
  destruct (H2 r Hr) as [H|H]; [left; eapply sub_at_moves; eauto with yola|by right].
Qed.

Lemma call_moves b b' c k :
  moves b b' → (subs b !! c = None → subs b' !! c = None) → call_ok b c k → call_ok b' c k.
Proof.
  intros Hm Hn. destruct k as [t| | |cause|[err|]]; simpl; auto; try (eapply sub_at_moves; eauto with yola).
  intros [H|H]; [by left; apply Hn|right; eapply sub_at_moves; eauto with yola].
Qed.

Lemma bus_evolve b b' :
  bus_ok b → moves b b' →
  (∀ i u', subs b' !! i = Some u' → subs b !! i ≠ None ∧ life_ok u' ∧ msgs_ok maxPayloadBytes u') →
  pub_ok (pub b') → mu b' = mu b →
  (∀ c e k, subscribing b' !! c = Some (e, k) → (∃ e', subscribing b !! c = Some (e', k)) ∨ locked k = false ∧ call_ok b' c k) →
  (∀ c e k, subscribing b !! c = Some (e, k) → ∃ e' k', subscribing b' !! c = Some (e', k') ∧ (locked k = true → locked k' = true)) →
  (∀ w v, waiting b' !! w = Some v → waiting b !! w = Some v ∨ wait_ok b' v) →
  (∀ i, i ∈ subscriptions b' ∨ i ∈ taken (once b') ↔ i ∈ subscriptions b ∨ i ∈ taken (once b)) →
  stage_ok b' → (before_take (once b') = false → done b' = true ∧ mu b' = None ∧ subscriptions b' = []) →
  (∀ i e, closers b' !! i = Some (KReturned e) → (∃ l, once b' = OnceDone l) ∧ e = closeErr b') → bus_ok b'.
Proof.
  intros [B1 B2 B3 B4 B5 B6 B7 B8 B9 B10 B11] Hm Hs Hp Hmu Hc Hc' Hw Hl Hst Ht Hcl.
  assert (Hback : ∀ c, subs b !! c = None → subs b' !! c = None).
  { intros c Hn. destruct (subs b' !! c) as [u|] eqn:E; [|done]. by destruct (Hs _ _ E) as [[] _]. }
  split; auto.
  - intros i u Hu. by apply (Hs i).
  - intros c e k H. destruct (Hc _ _ _ H) as [(e' & H')|[Hk Hok]]; [|split; [done|by rewrite Hk]].
    destruct (B3 _ _ _ H') as [Ha Hb]. rewrite Hmu. split; [|done]. apply (call_moves b); auto.
  - intros c H. rewrite Hmu in H. destruct (B4 _ H) as (e & k & H1 & H2). destruct (Hc' _ _ _ H1) as (e' & k' & H3 & H4). eauto 6.
  - intros i Hi. destruct (subs b' !! i) as [u|] eqn:E; [|done]. destruct (Hs _ _ E) as [Hn _]. apply B5 in Hn.
    destruct (subscribing b !! i) as [[e k]|] eqn:Ek; [|done]. destruct (Hc' _ _ _ Ek) as (e' & k' & -> & _). done.
  - intros i u' Hu'. destruct (Hs _ _ Hu') as [Hn _]. destruct (subs b !! i) as [u|] eqn:Hu; [|done].
    destruct (Hm _ _ Hu) as (x & Hx & Hev). simplify_eq. rewrite Hmu. destruct (B6 _ _ Hu) as [H|[H|[H|H]]].
    + by left.
    + right. rewrite assoc by apply _. left. apply Hl. by left.
    + right. rewrite assoc by apply _. left. apply Hl. by right.
    + right; right; right. destruct Hev as [->|Hev]; [done|]. by eapply lasting_done.
  - intros i Hi. apply Hl in Hi. eapply sub_at_moves; eauto with yola.
  - intros w v H. destruct (Hw _ _ H) as [H'|]; [|done]. apply (wait_moves b); eauto.
Qed.

(** A step of a [Subscribe] that holds the lock, takes it or gives it back. *)
Lemma bus_holder b b' c e k u' :
  bus_ok b → mu b = None ∨ mu b = Some c → ¬ sub_at b is_running c → before_take (once b) = true →
  subs b' = <[c := u']> (subs b) → subscribing b' = <[c := (e, k)]> (subscribing b) →
  mu b' = (if locked k then Some c else None) →
  subscriptions b' = subscriptions b ∧ (locked k = true ∨ is_done u') ∨
    subscriptions b' = purge (subs b) (subscriptions b) ++ [c] ∧ is_running u' →
  pub b' = pub b → done b' = done b → once b' = once b → waiting b' = waiting b → closers b' = closers b →
  closeErr b' = closeErr b → life_ok u' → msgs_ok maxPayloadBytes u' → call_ok b' c k → bus_ok b'.
Proof.
  intros [B1 B2 B3 B4 B5 B6 B7 B8 B9 B10 B11] Hmu Hnr Hbt Es Ec Emu Esub Ep Ed Eo Ew Ecl Ee Hlife Hmsgs Hcall.
  assert (Hne : ∀ P i, i ≠ c → sub_at b P i → sub_at b' P i).
  { intros P i Hi (u & Hu & HP). exists u. by rewrite Es, lookup_insert_ne. }
  assert (Hrun : ∀ i, sub_at b is_running i → i ≠ c) by (intros i H ->; done).
  split; rewrite ?Ep, ?Ed, ?Eo, ?Ew, ?Ecl, ?Ee; auto.
  - intros i u Hu. rewrite Es in Hu. destruct (decide (i = c)) as [->|Hi].
    + rewrite lookup_insert_eq in Hu. by simplify_eq.
    + rewrite lookup_insert_ne in Hu by done. eauto.
  - intros j x k' Hj. rewrite Ec in Hj. destruct (decide (j = c)) as [->|Hi].
    + rewrite lookup_insert_eq in Hj. simplify_eq. split; [done|]. rewrite Emu. by intros ->.
    + rewrite lookup_insert_ne in Hj by done. destruct (B3 _ _ _ Hj) as [Ha Hb]. split.
      * destruct k' as [t| | |cause|[err|]]; simpl in *; auto; [by rewrite Es, lookup_insert_ne|].
        destruct Ha as [Ha|Ha]; [left; by rewrite Es, lookup_insert_ne|right; auto].
      * intros Hk. specialize (Hb Hk). destruct Hmu as [Hmu|Hmu]; congruence.
  - intros j Hj. rewrite Emu in Hj. destruct (locked k) eqn:Hk; [|done]. simplify_eq. exists e, k. by rewrite Ec, lookup_insert_eq.
  - intros i Hi. rewrite Es in Hi. rewrite Ec. destruct (decide (i = c)) as [->|Hn]; [by rewrite lookup_insert_eq|].
    rewrite lookup_insert_ne in Hi by done. rewrite lookup_insert_ne by done. auto.
  - intros i u Hu. rewrite Es in Hu. destruct (decide (i = c)) as [->|Hi].
    + rewrite lookup_insert_eq in Hu. simplify_eq. rewrite Emu. destruct Esub as [[_ [->|H]]|[-> _]]; [by left|auto|].
      right; left. set_solver.
    + rewrite lookup_insert_ne in Hu by done. destruct (B6 _ _ Hu) as [H|[H|[H|H]]]; [destruct Hmu; congruence| |auto..].
      destruct Esub as [[-> _]|[-> _]]; [auto|]. destruct (finished u) eqn:F.
      * right; right; right. unfold finished in F. to_prop. unfold is_done. by apply Nat.ltb_lt.
      * right; left. rewrite elem_of_app. left. apply list_elem_of_filter. by rewrite Hu.
  - intros i Hi. assert (i = c ∧ is_running u' ∨ i ∈ subscriptions b ∨ i ∈ taken (once b)) as [[-> Hr]|Hi'].
    { destruct Esub as [[E _]|[E Hr]]; rewrite E in Hi; [auto|]. destruct Hi as [Hi|Hi]; [|auto].
      apply elem_of_app in Hi as [Hi|Hi]; [|left; by apply list_elem_of_singleton in Hi].
      right; left. by apply list_elem_of_filter in Hi as [_ Hi]. }
    + exists u'. by rewrite Es, lookup_insert_eq.
    + pose proof (B7 _ Hi'). auto.
  - unfold stage_ok in *. rewrite Eo, Ed. by destruct (once b) as [|[]|].
  - by rewrite Hbt.
  - intros w v Hv. destruct (B10 _ _ Hv) as [(u & Hu & Hr & Hs) H2].
    assert (usub v ≠ c) as Hn by (apply Hrun; by exists u).
    split; [apply Hne; [done|by exists u]|]. intros r Hr'. destruct (H2 _ Hr') as [H|H]; auto.
Qed.

Lemma sub_at_insert b i u m (P : subscription → Prop) : subs b = <[i := u]> m → P u → sub_at b P i.
Proof. intros E HP. exists u. by rewrite E, lookup_insert_eq. Qed.

Lemma holder_early b c : bus_ok b → mu b = Some c → before_take (once b) = true.
Proof.
  intros Hb Hc. destruct (before_take (once b)) eqn:E; [done|]. destruct (bo_taken _ Hb E) as (_ & H & _). congruence.
Qed.

Lemma holder_not_running b c e k :
  bus_ok b → subscribing b !! c = Some (e, k) → locked k = true → mu b = Some c ∧ ¬ sub_at b is_running c.
Proof.
  intros Hb Hc Hk. destruct (bo_call _ Hb _ _ _ Hc) as [Ha Hm]. split; [auto|]. intros (u & Hu & Hr).
  destruct k; try done; simpl in Ha; destruct Ha as (x & Hx & H); simplify_eq; unfold is_new in H; naive_solver.
Qed.

(** A call that does not hold the lock, before and after. *)
Lemma bus_call b c e k :
  bus_ok b → (∀ e' k', subscribing b !! c = Some (e', k') → k' = k ∨ locked k' = false) →
  (∃ e', subscribing b !! c = Some (e', k)) ∨ locked k = false ∧ call_ok b c k →
  bus_ok (set_call c e k b).
Proof.
  intros Hb Hold Hnew. pose proof Hb as [B1 B2 B3 B4 B5 B6 B7 B8 B9 B10 B11].
  apply (bus_evolve b);
    [done|by apply moves_same|intros i u Hu; simpl in Hu; split; [by rewrite Hu|eauto]|done|done| | |by auto|done|exact B8|exact B9|exact B11].
  - intros j x k' Hj. simpl in Hj. destruct (decide (j = c)) as [->|Hi].
    + rewrite lookup_insert_eq in Hj. simplify_eq. destruct Hnew as [|[]]; [by left|]. right. split; [done|].
      by destruct k' as [| | | |[]].
    + rewrite lookup_insert_ne in Hj by done. eauto.
  - intros j x k' Hj. simpl. destruct (decide (j = c)) as [->|Hi].
    + rewrite lookup_insert_eq. exists e, k. split; [done|]. destruct (Hold _ _ Hj) as [->|H]; [done|by rewrite H].
    + rewrite lookup_insert_ne by done. eauto.
Qed.

Lemma call_unknown b c : bus_ok b → subscribing b !! c = None → subs b !! c = None.
Proof. intros Hb Hc. destruct (subs b !! c) eqn:E; [|done]. destruct (bo_known _ Hb c); [by rewrite E|done]. Qed.

Lemma bus_failing b c e k u err :
  bus_ok b → subscribing b !! c = Some (e, k) → locked k = true → subs b !! c = Some u → is_new u → bus_ok (failing c e u err b).
Proof.
  intros Hb Hc Hk Hu [Hn Hl]. destruct (holder_not_running _ _ _ _ Hb Hc Hk) as [Hmu Hnr].
  destruct (bo_sub _ Hb _ _ Hu) as [Hlife Hmsgs].
  apply (bus_holder b _ c e (SuFailing (EWrap "nats: subscribe: %w" [err])) (beginStop u)); simpl; auto.
  - by eapply holder_early.
  - by apply life_beginStop.
  - by apply msgs_beginStop.
  - eapply sub_at_insert; [done|]. unfold beginStop, is_stopped. by destruct (stopOnce u) eqn:E.
Qed.

Hypothesis capacity_nonneg : 0 ≤ queueCapacity.

Lemma bus_subscribe b b' : bus_ok b → subscribe_step b b' → bus_ok b'.
Proof.
  intros Hb Hst. destruct Hst as [c x now t h err Hc _|c x now t h Hc _|c k err Hc|c e t err Hc Hmu Hx|c e t Hc Hmu Hx
    |c e u err Hc Hu _|c e u Hc Hu|c e u fl seen err Hc Hu Hs Hx|c e u fl seen Hc Hu Hs Hx|c e u cause Hc Hu Hd].
  - apply bus_call; [done|by rewrite Hc|]. right. split; [done|]. left. by apply call_unknown.
  - apply bus_call; [done|by rewrite Hc|]. right. split; [done|]. by apply call_unknown.
  - apply bus_call; [done| |left; eauto]. rewrite Hc. intros e' k' [= <- <-]. by left.
  - apply bus_call; [done| |].
    + rewrite Hc. intros e' k' [= <- <-]. by right.
    + right. split; [done|]. left. by apply (bo_call _ Hb _ _ _ Hc).
  - destruct (bo_call _ Hb _ _ _ Hc) as [Hn _]. simpl in Hn.
    apply (bus_holder b _ c e SuActivate (fresh_sub t)); simpl; auto.
    + intros (u & Hu & _). congruence.
    + destruct (before_take (once b)) eqn:E; [done|]. destruct (bo_taken _ Hb E) as [Hd _]. unfold lock_check in Hx. by rewrite Hd in Hx.
    + apply life_fresh.
    + apply msgs_fresh.
    + by eapply sub_at_insert.
  - destruct (bo_call _ Hb _ _ _ Hc) as [(x & Hx & Hn & _) _]. simplify_eq. by eapply bus_failing.
  - destruct (holder_not_running _ _ _ _ Hb Hc eq_refl) as [Hmu Hnr]. destruct (bo_sub _ Hb _ _ Hu) as [Hlife Hmsgs].
    destruct (bo_call _ Hb _ _ _ Hc) as [(x & Hx & Hn & Hcap) _]. simplify_eq. destruct Hn as [Hn Hl].
    apply (bus_holder b _ c e SuFlush (activate queueCapacity None u).1); [done|by auto|done|by eapply holder_early|done|done|done|by left; auto|done|done|done|done|done|done| | | ].
    + by apply life_activate.
    + apply msgs_activate; [done| |done]. pose proof (mo_capacity _ _ Hmsgs) as H. rewrite Hcap in H.
      destruct (chan u); [done|]. simpl in H. lia.
    + by eapply sub_at_insert.
  - destruct (bo_call _ Hb _ _ _ Hc) as [(x & Hx' & Hn) _]. simplify_eq. by eapply bus_failing.
  - destruct (holder_not_running _ _ _ _ Hb Hc eq_refl) as [Hmu Hnr]. destruct (bo_sub _ Hb _ _ Hu) as [Hlife Hmsgs].
    destruct (bo_call _ Hb _ _ _ Hc) as [(x & Hx' & Hn) _]. simplify_eq. destruct Hn as [Hn Hl].
    apply (bus_holder b _ c e (SuReturned None) (start u)); [done|by auto|done|by eapply holder_early|done|done|done|by right|done|done|done|done|done|done| | | ].
    + by apply life_start.
    + by apply msgs_start.
    + by eapply sub_at_insert.
  - destruct (holder_not_running _ _ _ _ Hb Hc eq_refl) as [Hmu Hnr]. destruct (bo_sub _ Hb _ _ Hu) as [Hlife Hmsgs].
    apply (bus_holder b _ c e (SuReturned (errors_Join [Some cause; stopErr u])) u);
      [done|by auto|done|by eapply holder_early|by simpl; rewrite insert_id|done|done|by left; auto|done|done|done|done|done|done|done|done|].
    right. exists u. done.
Qed.

(** The rest of the bus goes on while one subscription moves. *)
Lemma bus_set_sub b b' i u u' :
  bus_ok b → subs b !! i = Some u → u' = u ∨ evolves u u' → life_ok u' → msgs_ok maxPayloadBytes u' →
  b' = set_sub i u' b → bus_ok b'.
Proof.
  intros Hb Hu Hev Hlife Hmsgs ->. pose proof Hb as [B1 B2 B3 B4 B5 B6 B7 B8 B9 B10 B11].
  assert (Hm : moves b (set_sub i u' b)) by by eapply moves_set.
  apply (bus_evolve b); [done|done| |done|done|by eauto|by eauto|by auto|done|by apply (stage_moves b)|exact B9|exact B11].
  intros j x Hx. simpl in Hx. destruct (decide (j = i)) as [->|Hne].
  - rewrite lookup_insert_eq in Hx. simplify_eq. split; [by rewrite Hu|done].
  - rewrite lookup_insert_ne in Hx by done. split; [by rewrite Hx|eauto].
Qed.

(** The callers of [Unsubscribe], whatever the rest does. *)
Lemma bus_wait b w v : bus_ok b → wait_ok b v → bus_ok (b <| waiting := <[w := v]> (waiting b) |>).
Proof.
  intros Hb Hv. pose proof Hb as [B1 B2 B3 B4 B5 B6 B7 B8 B9 B10 B11]. split; auto. simpl.
  intros w' v' H. destruct (decide (w' = w)) as [->|Hne].
  - rewrite lookup_insert_eq in H. by simplify_eq.
  - rewrite lookup_insert_ne in H by done. eauto.
Qed.

Lemma stopped_beginStop u : is_stopped (beginStop u).
Proof. unfold is_stopped, beginStop. by destruct (stopOnce u) eqn:E. Qed.

Lemma bus_beginStop b i u :
  bus_ok b → subs b !! i = Some u → is_running u →
  bus_ok (set_sub i (beginStop u) b) ∧ evolves u (beginStop u) ∧ is_running (beginStop u).
Proof.
  intros Hb Hu Hr. destruct (bo_sub _ Hb _ _ Hu) as [Hl Hm]. pose proof (evolves_beginStop u Hr) as Hev.
  split; [|split; [done|by eapply lasting_running]].
  by eapply bus_set_sub; [done|done|by right|apply life_beginStop|apply msgs_beginStop|].
Qed.

Lemma bus_unsubscribe b b' : bus_ok b → unsubscribe_step b b' → bus_ok b'.
Proof.
  intros Hb Hst. destruct Hst as [w i e u x Hw Hc Hu|w v err Hw Hx Hr|w v u r Hw Hr Hu Hwait].
  - destruct (bo_call _ Hb _ _ _ Hc) as [(y & Hy & Hrun) _]. simplify_eq.
    destruct (bus_beginStop b i u Hb Hu Hrun) as (Hb' & Hev & Hrun').
    apply (bus_wait _ w (mkUnsub i x None) Hb'). split; [|done]. eapply sub_at_insert; [done|].
    split; [done|apply stopped_beginStop].
  - apply (bus_wait b w); [done|]. destruct (bo_wait _ Hb _ _ Hw) as [H1 H2]. split; [done|]. simpl. by rewrite Hr.
  - apply (bus_wait b w); [done|]. destruct (bo_wait _ Hb _ _ Hw) as [H1 H2]. split; [done|]. simpl. intros r' [= <-].
    unfold wait, Done in Hwait. destruct (bo_sub _ Hb _ _ Hu) as [Hl _]. destruct (Nat.ltb_spec 0 (stopDone u)).
    + simplify_eq. left. exists u. split; [done|]. split; [done|]. split; [|done].
      destruct (Hl) as [_ _ _ Hd Hdn Hc Hcs _ _ _ _ _]. unfold is_deactivated. rewrite Hd, Hdn in *.
      destruct (csm u), (cln u); simpl in *; try lia; simplify_eq.
    + destruct (uctx v) as [err|] eqn:E; [|done]. right. simplify_eq. exists err, (stopErr u). split; [done|]. simpl.
      destruct (0 <? deactivated u)%nat; auto.
Qed.

Lemma Forall_snoc_intro {A} (P : A → Prop) pre x : Forall P pre → P x → Forall P (pre ++ [x]).
Proof. intros. by apply Forall_app_2; [|constructor]. Qed.

Lemma bus_close b b' : bus_ok b → close_step b b' → bus_ok b'.
Proof.
  intros Hb Hst. pose proof Hb as [B1 B2 B3 B4 B5 B6 B7 B8 B9 B10 B11].
  assert (Hsame : ∀ d c o l k ce, let b' := mkBus d c (pub b) (mu b) (subs b) (subscribing b) (waiting b) l (registrationErr b) o k ce in
    (∀ i, i ∈ l ∨ i ∈ taken o ↔ i ∈ subscriptions b ∨ i ∈ taken (once b)) → stage_ok b' →
    (before_take o = false → d = true ∧ mu b = None ∧ l = []) →
    (∀ i e, k !! i = Some (KReturned e) → (∃ l, o = OnceDone l) ∧ e = ce) → bus_ok b').
  { intros d c o l k ce b1 H1 H2 H3 H4. apply (bus_evolve b); [done|by apply moves_same| |done|done|by eauto|by eauto|by eauto|done..].
    intros i u Hu. simpl in Hu. split; [by rewrite Hu|eauto]. }
  assert (Hret : ∀ o', (∀ l, once b ≠ OnceDone l) → ∀ i e, closers b !! i = Some (KReturned e) → (∃ l, o' = OnceDone l) ∧ e = closeErr b).
  { intros o' Hno i e Hi. destruct (B11 _ _ Hi) as [[l Hl] _]. by destruct (Hno l). }
  unfold stage_ok in B8.
  destruct Hst as [i Hi|i Hi Ho|Ho|Ho Hmu|l i rest u Ho Hu|l Ho|l i rest u Ho Hu Hd|l Ho|l Ho|l Ho Hw|l i rest errs u Ho Hu Hd|l errs Ho|i l Hi Ho];
    try (rewrite Ho in *; simpl in * ).
  - apply Hsame; auto. intros j e Hj. destruct (decide (j = i)) as [->|Hne].
    + by rewrite lookup_insert_eq in Hj.
    + rewrite lookup_insert_ne in Hj by done. eauto.
  - apply Hsame; simpl; auto; first [done|by apply Hret].
  - apply Hsame; simpl; auto; first [done|by apply Hret].
  - apply Hsame; simpl; auto; [set_solver| |by apply Hret]. by exists [].
  - assert (Hrun : sub_at b is_running i).
    { destruct B8 as (pre & -> & _). apply B7. right. set_solver. }
    destruct Hrun as (x & Hx & Hrun). simplify_eq. destruct (bus_beginStop b i u Hb Hu Hrun) as (Hb' & Hev & Hrun').
    assert (Hm : moves b (set_sub i (beginStop u) b)) by (eapply moves_set; [done..|by right]).
    pose proof Hb' as [C1 C2 C3 C4 C5 C6 C7 C8 C9 C10 C11]. simpl in *. rewrite Ho in *.
    apply (bus_evolve (set_sub i (beginStop u) b)); [done|by apply moves_same| |done|done|by eauto|by eauto|by eauto| | |done|by eauto].
    + intros j y Hy. split; [|by eauto]. simpl in Hy. simpl. by rewrite Hy.
    + intros j. simpl. by rewrite Ho.
    + destruct B8 as (pre & -> & Hp). exists (pre ++ [i]). rewrite <-app_assoc. split; [done|].
      apply Forall_snoc_intro; [|eapply sub_at_insert; [done|apply stopped_beginStop]].
      eapply Forall_moves; [auto with yola|exact Hm|done].
  - apply Hsame; simpl; auto; [|by apply Hret]. destruct B8 as (pre & -> & Hp). rewrite app_nil_r in *. split; [done|]. by exists [].
  - apply Hsame; simpl; auto; [|by apply Hret]. destruct B8 as (Hs & pre & -> & Hp). split; [done|]. exists (pre ++ [i]). rewrite <-app_assoc.
    split; [done|]. apply Forall_snoc_intro; [done|]. by exists u.
  - apply Hsame; simpl; auto; [|by apply Hret]. destruct B8 as (Hs & pre & -> & Hp). rewrite app_nil_r in *. done.
  - apply Hsame; simpl; auto; [|by apply Hret]. destruct B8 as (Hs & Hp). done.
  - apply Hsame; simpl; auto; [|by apply Hret]. destruct B8 as (Hs & Hp & Hc). split_and!; [done..|]. by exists [].
  - apply Hsame; simpl; auto; [|by apply Hret]. destruct B8 as (Hs & Hp & Hc & Hw & pre & -> & H2). split_and!; [done..|].
    exists (pre ++ [i]). rewrite <-app_assoc. split; [done|]. apply Forall2_app; [done|]. constructor; [|done].
    exists u. split; [done|]. split; [done|]. split; [|done]. rewrite Forall_app, Forall_cons in Hp. destruct Hp as (_ & (y & Hy & Hyd) & _).
    by simplify_eq.
  - apply Hsame; simpl; auto.
    + destruct B8 as (Hs & Hp & Hc & Hw & pre & -> & H2). rewrite app_nil_r in *. split_and!; [done..|]. by exists errs.
    + intros j e Hj. by destruct (B11 _ _ Hj) as [[? ?] _].
  - apply Hsame; simpl; rewrite ?Ho; auto. intros j e Hj. destruct (decide (j = i)) as [->|Hne].
    + rewrite lookup_insert_eq in Hj. simplify_eq. eauto.
    + rewrite lookup_insert_ne in Hj by done. by destruct (B11 _ _ Hj) as [_ ->]; eauto.
Qed.

Lemma bus_ok_step b b' : bus_ok b → bus_step b b' → bus_ok b'.
Proof.
  intros Hb Hst. pose proof Hb as [B1 B2 B3 B4 B5 B6 B7 B8 B9 B10 B11].
  destruct Hst as [p Hp|i u u' Hu Hp|b' Hp|b' Hp|b' Hp|].
  - apply (bus_evolve b); [done|by apply moves_same| |by eapply pub_ok_step|done|by eauto|by eauto|by eauto|done| |done|done].
    + intros i u Hu. simpl in Hu. split; [by rewrite Hu|eauto].
    + apply (stage_moves b); simpl; auto; [by apply moves_same|]. intros He. by inversion Hp; simplify_eq; simpl; congruence.
  - destruct (B2 _ _ Hu) as [Hl Hm]. eapply bus_set_sub; [done..|right; by eapply evolves_step|by eapply life_step|by eapply msgs_step|done].
  - by eapply bus_subscribe.
  - by eapply bus_unsubscribe.
  - by eapply bus_close.
  - apply (bus_evolve b); [done|by apply moves_same| |done|done|by eauto|by eauto|by eauto|done| | |done].
    + intros i u Hu. simpl in Hu. split; [by rewrite Hu|eauto].
    + apply (stage_moves b); simpl; auto. by apply moves_same.
    + intros H. destruct (B9 H) as (_ & ?). done.
Qed.

Lemma bus_inv b : bus_reach b → bus_ok b.
Proof.
  revert b. apply (invariant_reachable (λ b, b = bus_init) bus_step bus_ok).
  - intros b ->. split; simpl; try done; [apply pub_ok_init|set_solver].
  - eauto using bus_ok_step.
Qed.

(** ** Close always returns *)

Definition leads (b : bus) (P : bus → Prop) : Prop := ∃ b', rtc bus_step b b' ∧ bus_ok b' ∧ closers b' = closers b ∧ P b'.

Lemma leads_now b (P : bus → Prop) : bus_ok b → P b → leads b P.
Proof. intros Hb HP. by exists b. Qed.

Lemma leads_by b b1 P : bus_ok b → bus_step b b1 → closers b1 = closers b → leads b1 P → leads b P.
Proof.
  intros Hb Hst Hc (b' & Hr & Hok & Hc' & HP). exists b'. split; [by eapply rtc_l|]. split; [done|]. split; [congruence|done].
Qed.

Lemma leads_trans b P Q : leads b P → (∀ b', bus_ok b' → P b' → leads b' Q) → leads b Q.
Proof.
  intros (b1 & Hr & Hok & Hc & HP) H. destruct (H _ Hok HP) as (b2 & Hr2 & Hok2 & Hc2 & HQ).
  exists b2. split; [by etrans|]. split; [done|]. split; [congruence|done].
Qed.

Lemma set_sub_same b i u : subs b !! i = Some u → set_sub i u b = b.
Proof. intros Hu. destruct b. unfold set_sub. simpl in *. by rewrite insert_id. Qed.

Lemma lift_sub d u u' :
  rtc (sub_step maxPayloadBytes d) u u' → ∀ b i, done b = d → subs b !! i = Some u → rtc bus_step b (set_sub i u' b).
Proof.
  induction 1 as [u|u v w Hst Hr IH]; intros b i Hd Hu; [by rewrite set_sub_same|].
  assert (Hv : subs (set_sub i v b) !! i = Some v) by apply lookup_insert_eq.
  specialize (IH (set_sub i v b) i Hd Hv).
  assert (set_sub i w (set_sub i v b) = set_sub i w b) as E.
  { destruct b. unfold set_sub. simpl. by rewrite insert_insert_eq. }
  rewrite E in IH. eapply rtc_l; [|exact IH]. apply (b_sub _ i u); [done|by rewrite Hd].
Qed.

Lemma lift_pub d p p' : rtc (pub_step d) p p' → ∀ b, done b = d → pub b = p → rtc bus_step b (b <| pub := p' |>).
Proof.
  induction 1 as [p|p q r Hst Hr IH]; intros b Hd Hp.
  - destruct b. simpl in *. by subst.
  - apply (rtc_l _ _ (b <| pub := q |>)); [apply b_publish; by rewrite Hd, Hp|].
    pose proof (IH (b <| pub := q |>)) as H. by apply H.
Qed.

Lemma bus_ok_rtc b b' : bus_ok b → rtc bus_step b b' → bus_ok b'.
Proof. intros Hb Hr. induction Hr; eauto using bus_ok_step. Qed.

(** A subscription told to stop ends while nothing else moves. *)
Lemma leads_sub b i u u' P :
  bus_ok b → subs b !! i = Some u → rtc (sub_step maxPayloadBytes (done b)) u u' → leads (set_sub i u' b) P → leads b P.
Proof.
  intros Hb Hu Hr (b' & Hr' & H). exists b'. split; [|done]. etrans; [|done]. by eapply lift_sub.
Qed.

Lemma leads_complete b i u P :
  bus_ok b → subs b !! i = Some u → is_stopped u →
  (∀ u', is_done u' → bus_ok (set_sub i u' b) → leads (set_sub i u' b) P) → leads b P.
Proof.
  intros Hb Hu Hs HP. destruct (bo_sub _ Hb _ _ Hu) as [Hl _]. destruct (completes maxPayloadBytes (done b) u Hl Hs) as (u' & Hr & Hd).
  eapply leads_sub; [done..|]. apply HP; [done|]. eapply bus_ok_rtc; [done|]. by eapply lift_sub.
Qed.

(** The lock becomes free. *)
Lemma leads_unlock b : bus_ok b → leads b (λ b', mu b' = None ∧ once b' = once b).
Proof.
  intros Hb. destruct (mu b) as [c|] eqn:Hmu; [|by apply leads_now].
  assert (Hfail : ∀ b e cause, bus_ok b → subscribing b !! c = Some (e, SuFailing cause) →
            leads b (λ b', mu b' = None ∧ once b' = once b)).
  { intros a e cause Ha Hc. destruct (bo_call _ Ha _ _ _ Hc) as [(u & Hu & _ & Hs) _].
    apply (leads_complete a c u); [done..|]. intros u' Hd Ha'.
    assert (Hst : bus_step (set_sub c u' a) (let err := errors_Join [Some cause; stopErr u'] in
       set_call c e (SuReturned err) ((set_sub c u' a) <| mu := None |> <| registrationErr := err |>))).
    { apply b_subscribe, s_failed; [done| |done]. apply lookup_insert_eq. }
    eapply leads_by; [done|exact Hst|done|]. apply leads_now; [by eapply bus_ok_step|done]. }
  destruct (bo_mu _ Hb _ Hmu) as (e & k & Hc & Hk). destruct (bo_call _ Hb _ _ _ Hc) as [Hcall _].
  assert (Hgo : ∀ u err, bus_step b (failing c e u err b) → leads b (λ b', mu b' = None ∧ once b' = once b)).
  { intros u err Hst. eapply leads_by; [done|exact Hst|done|].
    eapply leads_trans; [eapply (Hfail (failing c e u err b)); [by eapply bus_ok_step|apply lookup_insert_eq]|].
    intros b' Hb' H. by apply leads_now. }
  destruct k as [t| | |cause|err]; try done; [..|by eapply Hfail]; destruct Hcall as (u & Hu & _).
  - apply (Hgo u closedErr). by apply b_subscribe, s_not_activated.
  - apply (Hgo u (if done b then closedErr else closedErr)). apply b_subscribe.
    by apply (s_not_flushed _ c e u (Some closedErr) false).
Qed.

Lemma leads_close b b1 P : bus_ok b → close_step b b1 → closers b1 = closers b → (bus_ok b1 → leads b1 P) → leads b P.
Proof.
  intros Hb Hst Hc H. assert (bus_step b b1) by by apply b_close. eapply leads_by; [done..|]. apply H. by eapply bus_ok_step.
Qed.

Lemma leads_stopped rest b l :
  bus_ok b → once b = OnceRunning (XStop l rest) → leads b (λ b', once b' = OnceRunning (XAwait l l)).
Proof.
  revert b. induction rest as [|i rest IH]; intros b Hb Ho.
  - eapply leads_close; [done|by apply c_stopped|done|]. intros Hb'. by apply leads_now.
  - assert (Hi : sub_at b is_running i).
    { apply (bo_listed _ Hb). right. rewrite Ho. simpl. pose proof (bo_stage _ Hb) as Hs. unfold stage_ok in Hs. rewrite Ho in Hs.
      destruct Hs as (pre & -> & _). set_solver. }
    destruct Hi as (u & Hu & _). eapply leads_close; [done|by apply (c_stop _ l i rest u)|done|]. intros Hb'. by apply IH.
Qed.

Lemma leads_awaited rest b l :
  bus_ok b → once b = OnceRunning (XAwait l rest) → leads b (λ b', once b' = OnceRunning (XConn l)).
Proof.
  revert b. induction rest as [|i rest IH]; intros b Hb Ho.
  - eapply leads_close; [done|by apply c_awaited|done|]. intros Hb'. by apply leads_now.
  - pose proof (bo_stage _ Hb) as Hs. unfold stage_ok in Hs. rewrite Ho in Hs. destruct Hs as (Hst & pre & -> & _).
    rewrite Forall_app, Forall_cons in Hst. destruct Hst as (_ & (u & Hu & Hsu) & _). destruct (bo_sub _ Hb _ _ Hu) as [Hl _].
    destruct (deactivates maxPayloadBytes (done b) u Hl Hsu) as (u' & Hr & _ & Hd).
    assert (Hb' : bus_ok (set_sub i u' b)) by (eapply bus_ok_rtc; [done|by eapply lift_sub]).
    eapply leads_sub; [done..|]. eapply leads_close; [done|eapply (c_await _ _ i rest u'); [done|apply lookup_insert_eq|done]|done|].
    intros Hb2. by apply IH.
Qed.

Lemma leads_waited rest b l errs :
  bus_ok b → once b = OnceRunning (XDone l rest errs) → leads b (λ b', once b' = OnceDone l).
Proof.
  revert b errs. induction rest as [|i rest IH]; intros b errs Hb Ho.
  - eapply leads_close; [done|by eapply c_done|done|]. intros Hb'. by apply leads_now.
  - pose proof (bo_stage _ Hb) as Hs. unfold stage_ok in Hs. rewrite Ho in Hs. destruct Hs as (Hst & _ & _ & _ & pre & -> & _).
    rewrite Forall_app, Forall_cons in Hst. destruct Hst as (_ & (u & Hu & Hsu) & _).
    apply (leads_complete b i u); [done..|]. intros u' Hd Hb'.
    eapply leads_close; [done|eapply (c_wait _ _ i rest errs u'); [done|apply lookup_insert_eq|done]|done|].
    intros Hb2. by eapply IH.
Qed.

Lemma leads_published b l :
  bus_ok b → once b = OnceRunning (XPublish l) → leads b (λ b', once b' = OnceRunning (XDone l l [])).
Proof.
  intros Hb Ho. destruct (bo_taken _ Hb) as (Hd & _); [by rewrite Ho|].
  destruct (worker_ends _ (bo_pub _ Hb)) as (p & Hr & Hp).
  pose proof (lift_pub true _ _ Hr b Hd eq_refl) as Hr'. pose proof (bus_ok_rtc _ _ Hb Hr') as Hb'.
  assert (H : leads (b <| pub := p |>) (λ b', once b' = OnceRunning (XDone l l []))).
  { eapply leads_close; [done|by apply c_publish|done|]. intros. by apply leads_now. }
  destruct H as (b2 & Hr2 & H). exists b2. split; [by etrans|done].
Qed.

Lemma leads_closed b : bus_ok b → once b ≠ OnceNew → leads b (λ b', ∃ l, once b' = OnceDone l).
Proof.
  assert (H6 : ∀ b l rest errs, bus_ok b → once b = OnceRunning (XDone l rest errs) → leads b (λ b', ∃ l, once b' = OnceDone l)).
  { intros b0 l rest errs Hb Ho. eapply leads_trans; [by eapply leads_waited|]. intros b1 Hb1 Hx. apply leads_now; [done|by exists l]. }
  assert (H5 : ∀ b l, bus_ok b → once b = OnceRunning (XPublish l) → leads b (λ b', ∃ l, once b' = OnceDone l)).
  { intros b0 l Hb Ho. eapply leads_trans; [by apply leads_published|]. intros b1 Hb1 Hx. exact (H6 _ _ _ _ Hb1 Hx). }
  assert (H4 : ∀ b l, bus_ok b → once b = OnceRunning (XConn l) → leads b (λ b', ∃ l, once b' = OnceDone l)).
  { intros b0 l Hb Ho. eapply leads_close; [done|by apply c_conn|done|]. intros. by eapply H5. }
  assert (H3 : ∀ b l rest, bus_ok b → once b = OnceRunning (XAwait l rest) → leads b (λ b', ∃ l, once b' = OnceDone l)).
  { intros b0 l rest Hb Ho. eapply leads_trans; [by eapply leads_awaited|]. intros b1 Hb1 Hx. exact (H4 _ _ Hb1 Hx). }
  assert (H2 : ∀ b l rest, bus_ok b → once b = OnceRunning (XStop l rest) → leads b (λ b', ∃ l, once b' = OnceDone l)).
  { intros b0 l rest Hb Ho. eapply leads_trans; [by eapply leads_stopped|]. intros b1 Hb1 Hx. exact (H3 _ _ _ Hb1 Hx). }
  assert (H1 : ∀ b, bus_ok b → once b = OnceRunning XTake → leads b (λ b', ∃ l, once b' = OnceDone l)).
  { intros b0 Hb Ho. eapply leads_trans; [by apply leads_unlock|]. intros b1 Hb1 [Hmu Ho1]. rewrite Ho in Ho1.
    eapply leads_close; [done|by apply c_take|done|]. intros. by eapply H2. }
  intros Hb Hn. destruct (once b) as [|[]|l] eqn:Ho; [done| |by eauto..|by apply leads_now; [|exists l]].
  eapply leads_close; [done|by apply c_cancel|done|]. intros. by eapply H1.
Qed.

(** ** Theorems *)

Lemma done_over u : life_ok u → is_done u → handler u = false ∧ native u = false ∧ stopDone u = 1%nat ∧ (csm u = CNone ∨ csm u = CExit).
Proof.
  intros [H1 H2 H3 H4 H5 H6 H7 H8 H9 H10 H11 H12] Hd. unfold is_done in Hd. rewrite H8.
  assert (Hcl : cln u = LExit ∧ (csm u = CNone ∨ csm u = CExit) ∧ stopDone u = 1%nat).
  { rewrite H5 in *. destruct (csm u); simpl in *; try lia; [|by auto]. destruct (cln u); simpl in *; try lia. auto. }
  destruct Hcl as (Hc & Hk & ->). split_and!; try done. rewrite Hc in H10. by destruct (native u); [discriminate H10|].
Qed.

(** C22: when a [Close] has returned, the connection is closed, the publish
    worker has exited, every subscription there ever was has ended with its
    native part removed and no handler running, and the error reported is
    made of the errors of the subscriptions it stopped. *)
Theorem bus_close_quiet b i e :
  bus_reach b → closers b !! i = Some (KReturned e) →
  done b = true ∧ connClosed b = true ∧ wkr (pub b) = PExit ∧ mu b = None ∧
  (∀ j u, subs b !! j = Some u →
     stopDone u = 1%nat ∧ handler u = false ∧ native u = false ∧ HandlerActive (stats u) = false ∧ (csm u = CNone ∨ csm u = CExit)) ∧
  ∃ l errs, Forall2 (λ j err, ∃ u, subs b !! j = Some u ∧ stopErr u = err) l errs ∧ e = errors_Join errs.
Proof.
  intros Hr Hi. pose proof (bus_inv _ Hr) as Hb. destruct (bo_closed _ Hb _ _ Hi) as [[l Ho] ->].
  destruct (bo_taken _ Hb) as (Hd & Hmu & Hs); [by rewrite Ho|]. pose proof (bo_stage _ Hb) as Hst. unfold stage_ok in Hst.
  rewrite Ho in Hst. destruct Hst as (Hc & Hw & errs & H2 & He). split_and!; try done.
  - intros j u Hu. destruct (bo_sub _ Hb _ _ Hu) as [Hl Hm].
    assert (Hdone : is_done u).
    { destruct (bo_place _ Hb _ _ Hu) as [H|[H|[H|H]]]; [congruence|rewrite Hs in H; set_solver| |done].
      rewrite Ho in H. simpl in H. apply list_elem_of_lookup in H as [n Hn].
      destruct (Forall2_lookup_l _ _ _ _ _ H2 Hn) as (x & _ & v & Hv & Hov & _). by simplify_eq. }
    destruct (done_over _ Hl Hdone) as (Hh & Hn & H1 & Hcsm). split_and!; try done.
    rewrite (mo_active _ _ Hm). by destruct Hcsm as [->| ->].
  - exists l, errs. split; [|done]. eapply Forall2_impl; [done|]. intros j err (u & Hu & _ & _ & Hx). eauto.
Qed.

(** C23: a [Close] always returns: from any state in which it was called there
    are steps of the bus, its subscriptions and the native client that end it. *)
Theorem bus_close_completes b i :
  bus_reach b → closers b !! i = Some KEnter → ∃ b' e, rtc bus_step b b' ∧ closers b' !! i = Some (KReturned e).
Proof.
  intros Hr Hi. pose proof (bus_inv _ Hr) as Hb.
  assert (H : leads b (λ b', ∃ l, once b' = OnceDone l)).
  { destruct (once b) eqn:Ho; [|apply leads_closed; [done|by rewrite Ho]..].
    eapply leads_close; [done|by eapply c_first|done|]. intros. by apply leads_closed. }
  destruct H as (b' & Hr' & Hb' & Hc & l & Ho).
  exists (b' <| closers := <[i := KReturned (closeErr b')]> (closers b') |>), (closeErr b'). split; [|simpl; apply lookup_insert_eq].
  eapply rtc_r; [done|]. apply b_close, (c_return _ i l); [by rewrite Hc|done].
Qed.

(** C25: whatever is sent was checked and is sent once; a [Publish] that
    returned nil was sent, and the native client accepted it. *)
Theorem publish_reported b :
  bus_reach b →
  NoDup (sent (pub b)).*1 ∧
  (∀ i e, (i, e) ∈ sent (pub b) → ∃ r, pubs (pub b) !! i = Some r ∧ ValidTopic (Topic (event r)) = true ∧
                                       zlen (Payload (event r)) ≤ maxPayloadBytes) ∧
  ∀ i r, pubs (pub b) !! i = Some r → caller r = PuReturned None → (i, None) ∈ sent (pub b).
Proof.
  intros Hr. destruct (bo_pub _ (bus_inv _ Hr)) as [H1 H2 H3 H4]. split_and!; [done| |].
  - intros i e Hi. assert (Hin : i ∈ (sent (pub b)).*1) by (apply list_elem_of_fmap; by exists (i, e)).
    pose proof (H3 _ Hin) as Hn. destruct (pubs (pub b) !! i) as [r|] eqn:E; [|done]. exists r. split; [done|].
    destruct (H1 _ _ E) as [Ha _ _ Hd _ _]. apply Ha. by apply Hd.
  - intros i r Hi Hc. destruct (H1 _ _ Hi) as [_ _ _ _ He Hf]. auto.
Qed.

(** C24: the messages of a subscription are dealt with in the order they were
    delivered, one at a time: those within the size limit by a call of the
    handler, the others by being counted; one at most is received and not
    dealt with, when the consumer leaves.  The statistics say so. *)
Theorem subscription_in_order b i u :
  bus_reach b → subs b !! i = Some u →
  delivered u = processed u ++ hand (csm u) ++ lost u ++ chan u ∧ (length (lost u) ≤ 1)%nat ∧
  (leaving (csm u) = false → lost u = []) ∧ zlen (chan u) ≤ QueueCapacity (stats u) ∧
  (∀ m, csm u = CHandle m → zlen (Payload m) ≤ maxPayloadBytes ∧ handler u = true) ∧
  ∀ answer, let st := (snapshot answer u).2 in
    HandlerCalls st = u64 (zlen (filter (λ m, zlen (Payload m) <=? maxPayloadBytes = true) (processed u))) ∧
    PayloadDropped st = u64 (zlen (filter (λ m, zlen (Payload m) <=? maxPayloadBytes = false) (processed u))) ∧
    (HandlerActive st = true ↔ ∃ m, csm u = CHandle m).
Proof.
  intros Hr Hu. destruct (bo_sub _ (bus_inv _ Hr) _ _ Hu) as [Hl [M1 [M2 M2'] M3 M4 M5 M6 M7 M8 M9]].
  split_and!; try done.
  - intros m Hm. split; [apply Z.leb_le; by apply M3|]. rewrite (lo_handler _ Hl), (lo_done _ Hl), Hm. done.
  - intros answer st. unfold st, snapshot. simpl.
    destruct (sampleDropped_stats answer u) as (st' & -> & _ & Hc & Hp & Ha & _). simpl. rewrite Hc, Ha, M4, M5, M6.
    split_and!; [done..|]. split; [destruct (csm u); naive_solver|by intros [m ->]].
Qed.

(** No channel of a subscription is closed twice and its native part is
    removed once at most; once [stopDone] is closed the consumer is gone and
    the handler is released. *)
Theorem subscription_stops_once b i u :
  bus_reach b → subs b !! i = Some u →
  (deactivated u ≤ 1)%nat ∧ (stopDone u ≤ deactivated u)%nat ∧ (unsubscribed u ≤ 1)%nat ∧
  (0 < stopDone u → handler u = false ∧ native u = false ∧ (csm u = CNone ∨ csm u = CExit))%nat.
Proof.
  intros Hr Hu. destruct (bo_sub _ (bus_inv _ Hr) _ _ Hu) as [Hl _]. pose proof Hl as [H1 H2 H3 H4 H5 H6 H7 H8 H9 H10 H11 H12].
  rewrite H4, H5. split_and!.
  - destruct (cln u); simpl; lia.
  - destruct (csm u), (cln u); simpl in *; try lia; simplify_eq.
  - destruct (cln u); simpl in *; lia.
  - rewrite <-H5. intros Hd. destruct (done_over u Hl Hd) as (?&?&_&?). done.
Qed.

(** An [Unsubscribe] that returned nil has ended the subscription: its
    consumer is gone, so the handler does not run again, and removing the
    native part gave no error.  Any other result is that error or comes with
    the error of the caller's context. *)
Theorem unsubscribe_final b w v :
  bus_reach b → waiting b !! w = Some v →
  (ureturned v = Some None → ∃ u, subs b !! usub v = Some u ∧ csm u = CExit ∧ handler u = false ∧ native u = false ∧ stopErr u = None) ∧
  ∀ err, ureturned v = Some (Some err) →
    (∃ u, subs b !! usub v = Some u ∧ csm u = CExit ∧ stopErr u = Some err) ∨ uctx v ≠ None.
Proof.
  intros Hr Hw. pose proof (bus_inv _ Hr) as Hb. destruct (bo_wait _ Hb _ _ Hw) as [(u & Hu & Hrun & _) Hret].
  assert (Hover : ∀ e, sub_at b (is_over e) (usub v) → csm u = CExit ∧ handler u = false ∧ native u = false ∧ stopErr u = e).
  { intros e (x & Hx & Hd & _ & He). simplify_eq. destruct (bo_sub _ Hb _ _ Hu) as [Hl _].
    destruct (done_over u Hl Hd) as (?&?&_&[|]); done. }
  split.
  - intros Hn. destruct (Hret _ Hn) as [H|(err & e & _ & [|He])]; [|done|].
    + exists u. destruct (Hover _ H) as (?&?&?&?). done.
    + by destruct e.
  - intros err Hn. destruct (Hret _ Hn) as [H|(err' & e & Hx & _)]; [|by right; rewrite Hx].
    left. exists u. destruct (Hover _ H) as (?&?&?&?). done.
Qed.
End Bus.

(** ** Runs *)

Module EventBusExample.
Abbreviation Reach := (bus_reach 1 8).
Abbreviation Step := (bus_step 1 8).

Ltac take H tac :=
  let H' := fresh in
  lazymatch type of H with
  | Reach ?s =>
      eassert (H' : Step s _) by (tac; first [reflexivity|discriminate|vm_compute; reflexivity]);
      apply (reach_step _ _ _ _ H) in H'; cbn in H'; clear H; rename H' into H;
      change (reachable (λ b, b = bus_init) Step) with Reach in H
  end.

Definition small : Event := mkEvent "a.b" [Byte.x01].
Definition large : Event := mkEvent "a.b" [Byte.x01; Byte.x02].

Ltac sub H tac := take H ltac:(eapply (b_sub _ _ _ 0); [reflexivity|tac]).

(** A subscription gets two messages, one of them too large. *)
Ltac run_two H :=
  assert (H : Reach bus_init) by (by apply reach_init);
  take H ltac:(apply b_subscribe, (s_call _ _ 0 (Some Ctx.Background) 0 "a.b" true));
  take H ltac:(apply b_subscribe, (s_locked _ _ 0 None "a.b"));
  take H ltac:(apply b_subscribe, (s_activated _ _ 0 None (fresh_sub "a.b")));
  take H ltac:(eapply b_subscribe, (s_subscribed _ _ 0 None _ None false));
  sub H ltac:(apply (n_deliver _ _ _ large));
  sub H ltac:(apply (n_deliver _ _ _ small));
  sub H ltac:(apply (u_take _ _ _ large [small]));
  sub H ltac:(apply (u_too_large _ _ _ large));
  sub H ltac:(apply (u_take _ _ _ small []));
  sub H ltac:(apply (u_handle _ _ _ small));
  sub H ltac:(apply (u_handled _ _ _ small 5 true)).

(** Its cleanup task, and the end of its consumer. *)
Ltac run_cleanup H :=
  sub H ltac:(apply (l_enter _ _ _ (Ok 0)));
  sub H ltac:(apply (l_call _ _ _ true None));
  sub H ltac:(apply (l_set _ _ _ true None)).
Ltac run_consumer H := sub H ltac:(apply u_done); sub H ltac:(apply u_finish); sub H ltac:(apply u_complete; [|apply Nat.lt_0_1]).

Lemma reach_two : ∃ b u, Reach b ∧ subs b !! 0%nat = Some u ∧ processed u = [large; small].
Proof. run_two H. eexists _, _. split; [exact H|]. split; reflexivity. Qed.

Lemma reach_unsubscribed : ∃ b, Reach b ∧ waiting b !! 0%nat = Some (mkUnsub 0 None (Some None)).
Proof.
  run_two H. take H ltac:(eapply b_unsubscribe, (un_call _ 0 0 None _ None)). run_cleanup H. run_consumer H.
  take H ltac:(eapply b_unsubscribe, (un_return _ 0 (mkUnsub 0 None None) _ None)). eexists. split; [exact H|reflexivity].
Qed.

Lemma reach_close_called : ∃ b, Reach b ∧ closers b !! 0%nat = Some KEnter.
Proof.
  run_two H. take H ltac:(apply b_close, (c_call _ 0)). take H ltac:(apply b_close, (c_first _ 0)).
  eexists. split; [exact H|reflexivity].
Qed.

Lemma reach_bus_closed : ∃ b, Reach b ∧ closers b !! 0%nat = Some (KReturned None).
Proof.
  run_two H. take H ltac:(apply b_close, (c_call _ 0)). take H ltac:(apply b_close, (c_first _ 0)).
  take H ltac:(apply b_close, c_cancel). take H ltac:(apply b_close, c_take).
  take H ltac:(eapply b_close, (c_stop _ [0%nat] 0 [])). take H ltac:(apply b_close, (c_stopped _ [0%nat])).
  run_cleanup H.
  take H ltac:(eapply b_close, (c_await _ [0%nat] 0 []); [reflexivity|reflexivity|apply Nat.lt_0_1]). take H ltac:(apply b_close, (c_awaited _ [0%nat])).
  take H ltac:(apply b_close, (c_conn _ [0%nat])). take H ltac:(apply b_publish, w_done).
  take H ltac:(apply b_close, (c_publish _ [0%nat])). run_consumer H.
  take H ltac:(eapply b_close, (c_wait _ [0%nat] 0 [] []); [reflexivity|reflexivity|apply Nat.lt_0_1]).
  take H ltac:(apply b_close, (c_done _ [0%nat] [None])). take H ltac:(apply b_close, (c_return _ 0 [0%nat])).
  eexists. split; [exact H|reflexivity].
Qed.

Lemma reach_published : ∃ b r, Reach b ∧ pubs (pub b) !! 0%nat = Some r ∧ caller r = PuReturned None.
Proof.
  assert (H : Reach bus_init) by by apply reach_init.
  take H ltac:(apply b_publish, (p_call _ _ _ 0 (Some Ctx.Background) 0 small)).
  take H ltac:(eapply b_publish, (w_take _ _ _ 0)). take H ltac:(eapply b_publish, (w_live _ _ _ 0)).
  take H ltac:(apply b_publish, (w_open _ _ _ 0)). take H ltac:(eapply b_publish, (w_sent _ _ _ 0 _ None)).
  take H ltac:(eapply b_publish, (p_result _ _ _ 0 _ None)). eexists _, _. split; [exact H|]. split; reflexivity.
Qed.

Lemma bus_close_quiet_witness : ∃ b, Reach b ∧ wkr (pub b) = PExit ∧ connClosed b = true.
Proof.
  destruct reach_bus_closed as (b & H & Hc). exists b. split; [exact H|].
  destruct (bus_close_quiet 1 8 ltac:(lia) b 0 None H Hc) as (_ & Hx & Hw & _). by split.
Defined.

Lemma bus_close_completes_witness : ∃ b b' e, Reach b ∧ rtc Step b b' ∧ closers b' !! 0%nat = Some (KReturned e).
Proof.
  destruct reach_close_called as (b & H & Hc). exists b.
  destruct (bus_close_completes 1 8 ltac:(lia) b 0 H Hc) as (b' & e & Hr & He). by exists b', e.
Defined.

Lemma publish_reported_witness : ∃ b, Reach b ∧ (0%nat, None) ∈ sent (pub b).
Proof.
  destruct reach_published as (b & r & H & Hr & Hc). exists b. split; [exact H|].
  destruct (publish_reported 1 8 ltac:(lia) b H) as (_ & _ & Hs). by apply (Hs 0%nat r).
Defined.

Lemma subscription_in_order_witness : ∃ b u, Reach b ∧ processed u = [large; small] ∧ HandlerCalls (snapshot (Ok 0) u).2 = 1.
Proof.
  destruct reach_two as (b & u & H & Hu & Hp). exists b, u. split; [exact H|]. split; [exact Hp|].
  destruct (subscription_in_order 1 8 ltac:(lia) b 0 u H Hu) as (_ & _ & _ & _ & _ & Hs).
  destruct (Hs (Ok 0)) as (-> & _). rewrite Hp. reflexivity.
Defined.

Lemma subscription_stops_once_witness : ∃ b u, Reach b ∧ subs b !! 0%nat = Some u ∧ (unsubscribed u ≤ 1)%nat.
Proof.
  destruct reach_two as (b & u & H & Hu & Hp). exists b, u. split; [exact H|]. split; [exact Hu|].
  apply (subscription_stops_once 1 8 ltac:(lia) b 0 u H Hu).
Defined.

Lemma unsubscribe_final_witness : ∃ b u, Reach b ∧ subs b !! 0%nat = Some u ∧ csm u = CExit.
Proof.
  destruct reach_unsubscribed as (b & H & Hw). exists b.
  destruct (unsubscribe_final 1 8 ltac:(lia) b 0 _ H Hw) as (Hn & _). destruct (Hn eq_refl) as (u & Hu & Hc & _).
  exists u. by split.
Defined.
End EventBusExample.
