(* ===== verification/Sender.v ===== *)
(** * The push sender

    [push/sender.go]: calls of [PushToUID], admitted under a mutex and counted
    by a wait group, and [Close], which refuses new calls, cancels those it
    admitted, closes the Gateway client and waits.  The locator, the Gateway
    client and the contexts only answer.  Proved: a message is pushed only to
    a valid lease of the player it is for; every failure is a status or an
    error of the caller's context; [Close] leaves no call behind, and always
    returns. *)

From S2P Require Import Prelude Errors Network Locate Options.

(** ** Results *)

(** The context of a call: [ctx.Err()], and whether its cause is that the
    sender was closed. *)
Definition context : Type := option (sentinel * bool).

Definition ctx_err (c : context) : option error := (λ x, ESentinel x.1) <$> c.
Definition sender_closed (c : context) : bool := match c with Some (_, b) => b | None => false end.

Definition closedStatus : error := EStatus Unavailable "sender is closed".
Definition routeStatus : error := EStatus Internal "invalid gateway route".

Definition mapSenderError (c : context) (err : option error) : option error :=
  match err with
  | None => None
  | Some e =>
      if sender_closed c then Some closedStatus
      else match ctx_err c with
      | Some ce => Some ce
      | None =>
          if errors_Is e CtxCanceled || errors_Is e CtxDeadlineExceeded then Some e
          else if errors_Is e ErrGateNotFound then Some (EStatus NotFound "gate binding not found")
          else if errors_Is e ErrInvalidGateBinding || errors_Is e ErrInvalidGateLease ||
                  errors_Is e ErrInvalidEndpoint || errors_Is e ErrTransportSecurity then Some routeStatus
          else if has_status e then Some e
          else Some (EStatus Unavailable "gateway is unavailable")
      end
  end.

(** [NewSender]; [nilLocator]: the answer of [isNil]. *)
Definition NewSender (nilLocator : bool) (opts : list (option (Option_ PushOptions.options))) : result PushOptions.options :=
  if nilLocator then Err (EText "push: gate locator is required") else PushOptions.resolveOptions opts.

(** The checks in front of [admit]. *)
Definition target_check (service uid : string) (validMsg : bool) : option error :=
  if negb (ValidServiceName service && ValidUID uid) then Some (EStatus InvalidArgument "invalid push target")
  else if negb validMsg then Some (EStatus InvalidArgument "push message is required")
  else None.

(** The route a lease gives. *)
Definition route_check (service uid : string) (lease : GateLease) : bool :=
  (0 <? TTL lease) && ValidGateBinding (Binding lease) &&
  bool_decide (ServiceName (Binding lease) = service) && bool_decide (UID (Binding lease) = uid).

(** ** The sender *)

(** A call: in front of [admit], of its first check of the context, inside
    [LocateGate], inside the client's [Push]. *)
Inductive calling :=
| PEnter (validMsg : bool)
| PCheck
| PLocate
| PPush (b : GateBinding)
| PReturned (err : option error).

Record call := mkCall { service : string; uid : string; cctx : context; pc : calling }.
#[export] Instance eta_call : Eta call := λ c, mkCall (service c) (uid c) (cctx c) (pc c).

(** The function [closeOnce] runs, in front of each of its statements. *)
Inductive closing := XMark | XClient | XWait.
Inductive onceState := OnceNew | OnceRunning (x : closing) | OnceDone.
Inductive closer := KEnter | KReturned (err : option error).

(** [counter]: the wait group; [canceled]: [s.cancel] was called; [pushed]:
    the calls of the client's [Push] that returned. *)
Record sender := mkSender {
  closed : bool;
  canceled : bool;
  clientClosed : bool;
  counter : Z;
  calls : gmap nat call;
  once : onceState;
  closers : gmap nat closer;
  closeErr : option error;
  pushed : list (nat * GateBinding * option error);
}.
#[export] Instance eta_sender : Eta sender := λ s,
  mkSender (closed s) (canceled s) (clientClosed s) (counter s) (calls s) (once s) (closers s) (closeErr s) (pushed s).

Definition sender_init : sender := mkSender false false false 0 ∅ OnceNew ∅ None [].

Definition set_call (i : nat) (c : call) (s : sender) : sender := s <| calls := <[i := c]> (calls s) |>.

(** A call returns: its deferred functions run, [calls.Done] among them. *)
Definition return_call (i : nat) (c : call) (err : option error) (s : sender) : sender :=
  set_call i (c <| pc := PReturned err |>) (s <| counter := counter s - 1 |>).

Inductive call_step (s : sender) (i : nat) : sender → Prop :=
| p_call svc u msg : calls s !! i = None → call_step s i (set_call i (mkCall svc u None (PEnter msg)) s)
| p_invalid c msg err :
    calls s !! i = Some c → pc c = PEnter msg → target_check (service c) (uid c) msg = Some err →
    call_step s i (set_call i (c <| pc := PReturned (Some err) |>) s)
| p_refused c msg :
    calls s !! i = Some c → pc c = PEnter msg → target_check (service c) (uid c) msg = None → closed s = true →
    call_step s i (set_call i (c <| pc := PReturned (Some closedStatus) |>) s)
| p_admit c msg :
    calls s !! i = Some c → pc c = PEnter msg → target_check (service c) (uid c) msg = None → closed s = false →
    call_step s i (set_call i (c <| pc := PCheck |>) (s <| counter := counter s + 1 |>))
(* the context is done: by its caller, its deadline, or the AfterFunc of the sender's *)
| p_done c e :
    calls s !! i = Some c → cctx c = None → e = CtxCanceled ∨ e = CtxDeadlineExceeded →
    call_step s i (set_call i (c <| cctx := Some (e, false) |>) s)
| p_canceled c :
    calls s !! i = Some c → cctx c = None → canceled s = true →
    call_step s i (set_call i (c <| cctx := Some (CtxCanceled, true) |>) s)
| p_checked c err :
    calls s !! i = Some c → pc c = PCheck → ctx_err (cctx c) = Some err →
    call_step s i (return_call i c (mapSenderError (cctx c) (Some err)) s)
| p_live c :
    calls s !! i = Some c → pc c = PCheck → ctx_err (cctx c) = None → call_step s i (set_call i (c <| pc := PLocate |>) s)
| p_not_located c err :
    calls s !! i = Some c → pc c = PLocate → call_step s i (return_call i c (mapSenderError (cctx c) (Some err)) s)
| p_late c err :
    calls s !! i = Some c → pc c = PLocate → ctx_err (cctx c) = Some err →
    call_step s i (return_call i c (mapSenderError (cctx c) (Some err)) s)
| p_no_route c lease :
    calls s !! i = Some c → pc c = PLocate → ctx_err (cctx c) = None → route_check (service c) (uid c) lease = false →
    call_step s i (return_call i c (Some routeStatus) s)
| p_route c lease :
    calls s !! i = Some c → pc c = PLocate → ctx_err (cctx c) = None → route_check (service c) (uid c) lease = true →
    call_step s i (set_call i (c <| pc := PPush (Binding lease) |>) s)
| p_pushed c b err :
    calls s !! i = Some c → pc c = PPush b →
    call_step s i (return_call i c (mapSenderError (cctx c) err) (s <| pushed := pushed s ++ [(i, b, err)] |>)).

Inductive close_step (s : sender) : sender → Prop :=
| c_call i : closers s !! i = None → close_step s (s <| closers := <[i := KEnter]> (closers s) |>)
| c_first i : closers s !! i = Some KEnter → once s = OnceNew → close_step s (s <| once := OnceRunning XMark |>)
| c_mark :
    once s = OnceRunning XMark → close_step s (s <| closed := true |> <| canceled := true |> <| once := OnceRunning XClient |>)
| c_client err :
    once s = OnceRunning XClient →
    close_step s (s <| clientClosed := true |> <| closeErr := err |> <| once := OnceRunning XWait |>)
| c_wait : once s = OnceRunning XWait → counter s = 0 → close_step s (s <| once := OnceDone |>)
| c_return i :
    closers s !! i = Some KEnter → once s = OnceDone → close_step s (s <| closers := <[i := KReturned (closeErr s)]> (closers s) |>).

Inductive sender_step (s : sender) : sender → Prop :=
| s_call i s' : call_step s i s' → sender_step s s'
| s_close s' : close_step s s' → sender_step s s'.

Definition sender_reach : sender → Prop := reachable (λ s, s = sender_init) sender_step.

(** ** The invariant *)

Definition inside (c : call) : Z := match pc c with PCheck | PLocate | PPush _ => 1 | _ => 0 end.

(** The failures [PushToUID] reports. *)
Definition reported (e : error) : bool := has_status e || errors_Is e CtxCanceled || errors_Is e CtxDeadlineExceeded.

Definition routed (c : call) (b : GateBinding) : Prop :=
  ValidGateBinding b = true ∧ ServiceName b = service c ∧ UID b = uid c.

Record call_ok (s : sender) (i : nat) (c : call) : Prop := mkCallOk {
  co_ctx : ∀ e b, cctx c = Some (e, b) → (e = CtxCanceled ∨ e = CtxDeadlineExceeded) ∧ (b = true → canceled s = true);
  co_push : ∀ b, pc c = PPush b → routed c b;
  co_failed : ∀ err, pc c = PReturned (Some err) → reported err = true;
  co_pushed : pc c = PReturned None → ∃ b, (i, b, None) ∈ pushed s;
}.

Definition marked (o : onceState) : bool := match o with OnceRunning XClient | OnceRunning XWait | OnceDone => true | _ => false end.

Record sender_ok (s : sender) : Prop := mkSenderOk {
  so_counter : counter s = msum inside (calls s);
  so_calls : ∀ i c, calls s !! i = Some c → call_ok s i c;
  so_pushed : ∀ i b e, (i, b, e) ∈ pushed s → ∃ c err, calls s !! i = Some c ∧ routed c b ∧ pc c = PReturned err ∧ (err = None ↔ e = None);
  so_nodup : NoDup (pushed s).*1.*1;
  so_marked : closed s = marked (once s) ∧ canceled s = marked (once s);
  so_client : once s = OnceRunning XWait ∨ once s = OnceDone → clientClosed s = true;
  so_done : once s = OnceDone → counter s = 0;
  so_closers : ∀ i e, closers s !! i = Some (KReturned e) → once s = OnceDone ∧ e = closeErr s;
}.

Lemma inside_nonneg c : 0 ≤ inside c.
Proof. unfold inside. by destruct (pc c). Qed.

Lemma sentinel_reported e : e = CtxCanceled ∨ e = CtxDeadlineExceeded → reported (ESentinel e) = true.
Proof. by intros [->| ->]. Qed.

Lemma mapSenderError_reported c err e :
  (∀ x b, c = Some (x, b) → x = CtxCanceled ∨ x = CtxDeadlineExceeded) → mapSenderError c err = Some e → reported e = true.
Proof.
  intros Hc H. destruct err as [err|]; [|done]. simpl in H. destruct (sender_closed c); [by simplify_eq|].
  destruct c as [[x b]|]; simpl in H; [simplify_eq; by eapply sentinel_reported, Hc|].
  unfold reported.
  repeat match type of H with (if ?b then _ else _) = _ => destruct b eqn:?; simplify_eq; [try done; try (by rewrite ?orb_true_r)|] end.
  - to_prop. match goal with H : _ ∨ _ |- _ => destruct H as [->| ->] end; by rewrite ?orb_true_r.
  - match goal with H : has_status _ = true |- _ => by rewrite H end.
  - by simplify_eq.
Qed.

Lemma mapSenderError_none c err : mapSenderError c err = None ↔ err = None.
Proof. destruct err as [err|]; [|done]. simpl. split; [|done]. by repeat case_match. Qed.

Definition inside_at (s : sender) (i : nat) : Z := match calls s !! i with Some c => inside c | None => 0 end.

(** One call moves. *)
Lemma sender_update s s' i c :
  sender_ok s → calls s' = <[i := c]> (calls s) → counter s' = counter s + inside c - inside_at s i →
  closed s = false ∨ inside c ≤ inside_at s i → call_ok s' i c →
  (∀ x, x ∈ pushed s → x ∈ pushed s') → (∀ j b e, j ≠ i → (j, b, e) ∈ pushed s' → (j, b, e) ∈ pushed s) →
  (∀ b e, (i, b, e) ∈ pushed s' → ∃ err, routed c b ∧ pc c = PReturned err ∧ (err = None ↔ e = None)) →
  NoDup (pushed s').*1.*1 →
  (closed s', canceled s', clientClosed s', once s', closers s', closeErr s') =
  (closed s, canceled s, clientClosed s, once s, closers s, closeErr s) → sender_ok s'.
Proof.
  intros [S1 S2 S3 S4 [S5 S5'] S6 S7 S8] Hc Hn Hle Hok Hin Hout Hi Hnd E. injection E as E1 E2 E3 E4 E5 E6.
  assert (Hcount : counter s' = msum inside (calls s')).
  { rewrite Hc, Hn, S1. unfold inside_at. destruct (calls s !! i) as [x|] eqn:Ex.
    - rewrite (msum_insert inside i x) by done. lia.
    - rewrite msum_insert_new by done. lia. }
  split; rewrite ?E1, ?E2, ?E3, ?E4, ?E5, ?E6; auto.
  - intros j x Hj. rewrite Hc in Hj. destruct (decide (j = i)) as [->|Hne].
    + rewrite lookup_insert_eq in Hj. by simplify_eq.
    + rewrite lookup_insert_ne in Hj by done. destruct (S2 _ _ Hj) as [C1 C2 C3 C4]. split; auto.
      * rewrite E2. done.
      * intros Hp. destruct (C4 Hp) as [b Hb]. eauto.
  - intros j b e Hj. rewrite Hc. destruct (decide (j = i)) as [->|Hne].
    + rewrite lookup_insert_eq. destruct (Hi _ _ Hj) as (err & H). eauto.
    + rewrite lookup_insert_ne by done. eauto.
  - intros Ho. specialize (S7 Ho). assert (0 ≤ counter s') by (rewrite Hcount; apply msum_nonneg, inside_nonneg).
    rewrite Ho in S5. destruct Hle as [Hcl|Hcl]; [by rewrite S5 in Hcl|]. lia.
Qed.

(** A call that has not returned has pushed nothing. *)
Lemma not_pushed s i c b e : sender_ok s → calls s !! i = Some c → (∀ err, pc c ≠ PReturned err) → (i, b, e) ∉ pushed s.
Proof. intros Hs Hc Hp Hin. destruct (so_pushed _ Hs _ _ _ Hin) as (x & err & Hx & _ & H & _). simplify_eq. by destruct (Hp err). Qed.

Lemma sender_move s i c p n :
  sender_ok s → calls s !! i = Some c → (∀ err, pc c ≠ PReturned err) → n = inside (c <| pc := p |>) - inside c →
  closed s = false ∨ n ≤ 0 → call_ok s i (c <| pc := p |>) →
  sender_ok (set_call i (c <| pc := p |>) (s <| counter := counter s + n |>)).
Proof.
  intros Hs Hc Hp -> Hle [C1 C2 C3 C4]. assert (Hat : inside_at s i = inside c) by (unfold inside_at; by rewrite Hc).
  apply (sender_update s _ i (c <| pc := p |>)); [done|done|simpl; rewrite Hat; lia| | | | | |apply (so_nodup _ Hs)|done].
  - rewrite Hat. destruct Hle; [by left|right; lia].
  - by split.
  - done.
  - done.
  - intros b e Hin. simpl in Hin. by apply (not_pushed s i c b e) in Hin.
Qed.

Lemma sender_goto s i c p :
  sender_ok s → calls s !! i = Some c → (∀ err, pc c ≠ PReturned err) → inside (c <| pc := p |>) = inside c →
  call_ok s i (c <| pc := p |>) → sender_ok (set_call i (c <| pc := p |>) s).
Proof.
  intros Hs Hc Hp Hn Hok. pose proof (sender_move s i c p 0 Hs Hc Hp ltac:(lia) ltac:(right; lia) Hok) as H.
  rewrite Z.add_0_r in H. exact H.
Qed.

Lemma sender_return s i c err :
  sender_ok s → calls s !! i = Some c → inside c = 1 → (∀ e, err = Some e → reported e = true) →
  err ≠ None → sender_ok (return_call i c err s).
Proof.
  intros Hs Hc Hin Hrep Hn. unfold return_call. replace (counter s - 1) with (counter s + (-1)) by lia.
  destruct (so_calls _ Hs _ _ Hc) as [C1 C2 C3 C4].
  apply sender_move; [done|done| |by rewrite Hin|right; lia|].
  - intros e He. unfold inside in Hin. by rewrite He in Hin.
  - split; simpl; try done; [intros e [= ->]; auto|by intros [= ->]].
Qed.

Lemma call_ctx s i c x :
  sender_ok s → calls s !! i = Some c →
  (∀ e b, x = Some (e, b) → (e = CtxCanceled ∨ e = CtxDeadlineExceeded) ∧ (b = true → canceled s = true)) →
  sender_ok (set_call i (c <| cctx := x |>) s).
Proof.
  intros Hs Hc Hx. assert (Hat : inside_at s i = inside c) by (unfold inside_at; by rewrite Hc).
  destruct (so_calls _ Hs _ _ Hc) as [C1 C2 C3 C4].
  apply (sender_update s _ i (c <| cctx := x |>)); [done|done|simpl; rewrite Hat; unfold inside; simpl; lia
    |right; rewrite Hat; unfold inside; simpl; lia| |done|done| |apply (so_nodup _ Hs)|done].
  - by split.
  - intros b e Hin. destruct (so_pushed _ Hs _ _ _ Hin) as (y & err & Hy & Hr & Hp & He). simplify_eq. by exists err.
Qed.

Lemma ctx_reported s i c err e :
  sender_ok s → calls s !! i = Some c → mapSenderError (cctx c) err = Some e → reported e = true.
Proof.
  intros Hs Hc. apply mapSenderError_reported. intros x b Hx. by apply (co_ctx _ _ _ (so_calls _ Hs _ _ Hc) x b).
Qed.

Lemma sender_call s i s' : sender_ok s → call_step s i s' → sender_ok s'.
Proof.
  intros Hs Hst. destruct Hst as [svc u msg Hi|c msg err Hi Hp Ht|c msg Hi Hp Ht Hcl|c msg Hi Hp Ht Hcl|c e Hi Hx He|c Hi Hx He
    |c err Hi Hp Hx|c Hi Hp Hx|c err Hi Hp|c err Hi Hp Hx|c lease Hi Hp Hx Hr|c lease Hi Hp Hx Hr|c b err Hi Hp].
  - apply (sender_update s _ i (mkCall svc u None (PEnter msg))); [done|done|unfold inside_at; rewrite Hi; change (counter s = counter s + 0 - 0); lia
      |right; unfold inside_at; by rewrite Hi| |done|done| |apply (so_nodup _ Hs)|done]; [by split|].
    intros b e Hin. destruct (so_pushed _ Hs _ _ _ Hin) as (x & _ & Hx & _). congruence.
  - destruct (so_calls _ Hs _ _ Hi) as [C1 C2 C3 C4].
    apply sender_goto; [done..|by rewrite Hp|unfold inside; by rewrite Hp|]. split; simpl; try done. intros e [= <-].
    unfold target_check in Ht. destruct (negb (_ && _)); [by simplify_eq|]. by destruct msg; simplify_eq/=.
  - destruct (so_calls _ Hs _ _ Hi) as [C1 C2 C3 C4].
    apply sender_goto; [done..|by rewrite Hp|unfold inside; by rewrite Hp|]. split; simpl; try done. by intros e [= <-].
  - destruct (so_calls _ Hs _ _ Hi) as [C1 C2 C3 C4].
    apply sender_move; [done..|by rewrite Hp|unfold inside; by rewrite Hp|by left|]. by split.
  - apply call_ctx; [done..|]. by intros ? ? [= <- <-].
  - apply call_ctx; [done..|]. intros ? ? [= <- <-]. auto.
  - apply sender_return; [done..|unfold inside; by rewrite Hp|intros e; by eapply ctx_reported|by rewrite mapSenderError_none].
  - destruct (so_calls _ Hs _ _ Hi) as [C1 C2 C3 C4].
    apply sender_goto; [done..|by rewrite Hp|unfold inside; by rewrite Hp|]. by split.
  - apply sender_return; [done..|unfold inside; by rewrite Hp|intros e; by eapply ctx_reported|by rewrite mapSenderError_none].
  - apply sender_return; [done..|unfold inside; by rewrite Hp|intros e; by eapply ctx_reported|by rewrite mapSenderError_none].
  - apply sender_return; [done..|unfold inside; by rewrite Hp|by intros e [= <-]|done].
  - destruct (so_calls _ Hs _ _ Hi) as [C1 C2 C3 C4].
    apply sender_goto; [done..|by rewrite Hp|unfold inside; by rewrite Hp|]. split; simpl; try done. intros b [= <-].
    unfold route_check in Hr. to_prop. done.
  - pose proof (so_calls _ Hs _ _ Hi) as [C1 C2 C3 C4]. assert (Hat : inside_at s i = 1) by (unfold inside_at, inside; by rewrite Hi, Hp).
    assert (Hnot : ∀ b' e', (i, b', e') ∉ pushed s) by (intros; eapply not_pushed; [done..|by rewrite Hp]).
    apply (sender_update s _ i (c <| pc := PReturned (mapSenderError (cctx c) err) |>)); [done|done|rewrite Hat; unfold inside; simpl; lia
      |right; rewrite Hat; unfold inside; simpl; lia| | | | | |done]; simpl.
    + split; simpl; try done.
      * intros e [= He]. by eapply ctx_reported.
      * intros [= He%mapSenderError_none]. exists b. rewrite He, elem_of_app, list_elem_of_singleton. by right.
    + intros x Hx. rewrite elem_of_app. by left.
    + intros j b' e' Hne [Hx|Hx%list_elem_of_singleton]%elem_of_app; [done|]. by simplify_eq.
    + intros b' e' [Hx|Hx%list_elem_of_singleton]%elem_of_app; [by apply Hnot in Hx|]. simplify_eq.
      eexists. split; [by apply C2|]. split; [done|]. apply mapSenderError_none.
    + rewrite !fmap_app, NoDup_app. split; [apply (so_nodup _ Hs)|]. split; [|apply NoDup_singleton].
      intros j Hj Hx%list_elem_of_singleton. simpl in Hx. subst j. apply list_elem_of_fmap in Hj as ([j' b'] & E & Hj). simpl in E. subst j'.
      apply list_elem_of_fmap in Hj as ([[j b2] e] & [= <- <-] & Hj). by apply Hnot in Hj.
Qed.

Lemma sender_close s s' : sender_ok s → close_step s s' → sender_ok s'.
Proof.
  intros Hs Hst. pose proof Hs as [S1 S2 S3 S4 [S5 S5'] S6 S7 S8].
  assert (Hcalls : ∀ s', calls s' = calls s → pushed s' = pushed s → (canceled s = true → canceled s' = true) →
            ∀ i c, calls s' !! i = Some c → call_ok s' i c).
  { intros t Hc Hp Hx i c Hi. rewrite Hc in Hi. destruct (S2 _ _ Hi) as [C1 C2 C3 C4]. split; rewrite ?Hp; auto.
    intros e b He. destruct (C1 _ _ He). auto. }
  destruct Hst as [i Hi|i Hi Ho|Ho|err Ho|Ho Hz|i Hi Ho]; split; simpl; auto; rewrite ?Ho in *; try done;
    try (by intros [|]); try (intros j e Hj; by destruct (S8 _ _ Hj)).
  - intros j e Hj. destruct (decide (j = i)) as [->|Hne].
    + by rewrite lookup_insert_eq in Hj.
    + rewrite lookup_insert_ne in Hj by done. eauto.
  - intros j e Hj. destruct (decide (j = i)) as [->|Hne].
    + rewrite lookup_insert_eq in Hj. by simplify_eq.
    + rewrite lookup_insert_ne in Hj by done. eauto.
Qed.

Lemma sender_inv s : sender_reach s → sender_ok s.
Proof.
  revert s. apply (invariant_reachable (λ s, s = sender_init) sender_step sender_ok).
  - intros s ->. split; simpl; try done; [set_solver|constructor|by intros [|]].
  - intros s s' _ Hs [i t Ht|t Ht]; [by eapply sender_call|by eapply sender_close].
Qed.

(** ** Theorems *)

(** C32: the Gateway client is asked to push at most once per call, and only
    to a valid binding of the service and the player the call is for; a call
    that returned nil was pushed and accepted. *)
Theorem sender_push_routed s :
  sender_reach s →
  NoDup (pushed s).*1.*1 ∧
  (∀ i b e, (i, b, e) ∈ pushed s →
     ∃ c, calls s !! i = Some c ∧ ValidGateBinding b = true ∧ ServiceName b = service c ∧ UID b = uid c) ∧
  ∀ i c, calls s !! i = Some c → pc c = PReturned None → ∃ b, (i, b, None) ∈ pushed s.
Proof.
  intros Hr. pose proof (sender_inv _ Hr) as Hs. split_and!; [apply (so_nodup _ Hs)| |].
  - intros i b e Hin. destruct (so_pushed _ Hs _ _ _ Hin) as (c & err & Hc & (? & ? & ?) & _). by exists c.
  - intros i c Hc Hp. by apply (co_pushed _ _ _ (so_calls _ Hs _ _ Hc)).
Qed.

(** A failed call reports a gRPC status, or the cancellation or the
    deadline of a context: no error of the locator or the transport shows. *)
Theorem sender_errors_reported s i c err :
  sender_reach s → calls s !! i = Some c → pc c = PReturned (Some err) →
  has_status err = true ∨ errors_Is err CtxCanceled = true ∨ errors_Is err CtxDeadlineExceeded = true.
Proof.
  intros Hr Hc Hp. pose proof (co_failed _ _ _ (so_calls _ (sender_inv _ Hr) _ _ Hc) _ Hp) as H.
  unfold reported in H. to_prop. destruct H as [H|H]; [to_prop; destruct H; auto|auto].
Qed.

(** C33: when a [Close] has returned, the client is closed, no call is left
    inside and none is let in again. *)
Theorem sender_close_waits s k e :
  sender_reach s → closers s !! k = Some (KReturned e) →
  closed s = true ∧ clientClosed s = true ∧ counter s = 0 ∧ e = closeErr s ∧
  ∀ i c, calls s !! i = Some c → (∃ msg, pc c = PEnter msg) ∨ ∃ err, pc c = PReturned err.
Proof.
  intros Hr Hk. pose proof (sender_inv _ Hr) as Hs. destruct (so_closers _ Hs _ _ Hk) as [Ho ->].
  destruct (so_marked _ Hs) as [Hc _]. rewrite Ho in Hc. pose proof (so_done _ Hs Ho) as Hz.
  split_and!; [done|apply (so_client _ Hs); auto|done..|]. intros i c Hi.
  assert (inside c ≤ 0).
  { rewrite <-Hz, (so_counter _ Hs). apply (msum_lookup_le inside i); [|done]. intros. apply inside_nonneg. }
  unfold inside in H. destruct (pc c); eauto; lia.
Qed.

(** The calls let in return, one after another. *)
Lemma calls_drain n s :
  sender_reach s → counter s = Z.of_nat n → ∃ s', rtc sender_step s s' ∧ counter s' = 0 ∧ once s' = once s ∧ closers s' = closers s.
Proof.
  revert s. induction n as [|n IH]; intros s Hr Hn; [by exists s|].
  pose proof (sender_inv _ Hr) as Hs. rewrite (so_counter _ Hs) in Hn.
  destruct (msum_pos_exists inside (calls s)) as (i & c & Hi & Hin); [lia|].
  assert (Hlast : ∀ t c err, sender_reach t → counter t = Z.of_nat (S n) → sender_step t (return_call i c err t) →
            ∃ s', rtc sender_step t s' ∧ counter s' = 0 ∧ once s' = once t ∧ closers s' = closers t).
  { intros t c' err Ht Hcn Hst. destruct (IH (return_call i c' err t)) as (s' & Hrtc & H); [by eapply reach_step|simpl; lia|].
    exists s'. split; [by eapply rtc_l|done]. }
  assert (Hlocate : ∀ t c, sender_reach t → counter t = Z.of_nat (S n) → calls t !! i = Some c → pc c = PLocate →
            ∃ s', rtc sender_step t s' ∧ counter s' = 0 ∧ once s' = once t ∧ closers s' = closers t).
  { intros t c' Ht Hcn Hc' Hp. eapply Hlast; [done..|]. by eapply s_call, (p_not_located _ _ _ (ESentinel ErrUnavailable)). }
  rewrite <-(so_counter _ Hs) in Hn. unfold inside in Hin. destruct (pc c) eqn:Hp; try lia.
  - destruct (ctx_err (cctx c)) as [err|] eqn:Hx; [by eapply Hlast, s_call, p_checked|].
    destruct (Hlocate (set_call i (c <| pc := PLocate |>) s) (c <| pc := PLocate |>)) as (s' & Hrtc & H);
      [by eapply reach_step, s_call, p_live|done|apply lookup_insert_eq|done|].
    exists s'. split; [by eapply rtc_l; [eapply s_call, p_live|]|done].
  - by eapply Hlocate.
  - assert (Hst : sender_step s (return_call i c (mapSenderError (cctx c) None) (s <| pushed := pushed s ++ [(i, b, None)] |>)))
      by by eapply s_call, p_pushed.
    destruct (IH _ (reach_step _ _ _ _ Hr Hst)) as (s' & Hrtc & H); [simpl; lia|].
    exists s'. split; [by eapply rtc_l|done].
Qed.

(** A [Close] always returns, once the calls it waits for have. *)
Theorem sender_close_completes s k :
  sender_reach s → closers s !! k = Some KEnter → ∃ s' e, rtc sender_step s s' ∧ closers s' !! k = Some (KReturned e).
Proof.
  intros Hr Hk. assert (Hreach : ∀ t t', sender_reach t → close_step t t' → sender_reach t') by (intros; by eapply reach_step, s_close).
  assert (H4 : ∀ t, closers t !! k = Some KEnter → once t = OnceDone → ∃ s' e, rtc sender_step t s' ∧ closers s' !! k = Some (KReturned e)).
  { intros t Ht Ho. eexists _, (closeErr t). split; [by apply rtc_once, s_close, (c_return _ k)|]. simpl. apply lookup_insert_eq. }
  assert (H3 : ∀ t, sender_reach t → closers t !! k = Some KEnter → once t = OnceRunning XWait →
            ∃ s' e, rtc sender_step t s' ∧ closers s' !! k = Some (KReturned e)).
  { intros t Ht Hc Ho. pose proof (sender_inv _ Ht) as Hs.
    destruct (calls_drain (Z.to_nat (counter t)) t Ht) as (u & Hu & Hz & Ho' & Hc').
    { rewrite (so_counter _ Hs), Z2Nat.id; [done|]. apply msum_nonneg, inside_nonneg. }
    destruct (H4 (u <| once := OnceDone |>)) as (s' & e & Hs' & He); [by simpl; rewrite Hc'|done|].
    exists s', e. split; [|done]. etrans; [done|]. eapply rtc_l; [by apply s_close, c_wait; [rewrite Ho'|]|done]. }
  assert (H2 : ∀ t, sender_reach t → closers t !! k = Some KEnter → once t = OnceRunning XClient →
            ∃ s' e, rtc sender_step t s' ∧ closers s' !! k = Some (KReturned e)).
  { intros t Ht Hc Ho. pose proof (c_client t None Ho) as Hst. destruct (H3 _ (Hreach _ _ Ht Hst)) as (s' & e & Hs' & He); [done..|].
    exists s', e. split; [by eapply rtc_l; [apply s_close|]|done]. }
  assert (H1 : ∀ t, sender_reach t → closers t !! k = Some KEnter → once t = OnceRunning XMark →
            ∃ s' e, rtc sender_step t s' ∧ closers s' !! k = Some (KReturned e)).
  { intros t Ht Hc Ho. pose proof (c_mark t Ho) as Hst. destruct (H2 _ (Hreach _ _ Ht Hst)) as (s' & e & Hs' & He); [done..|].
    exists s', e. split; [by eapply rtc_l; [apply s_close|]|done]. }
  destruct (once s) as [|[]|] eqn:Ho; auto.
  pose proof (c_first s k Hk Ho) as Hst. destruct (H1 _ (Hreach _ _ Hr Hst)) as (s' & e & Hs' & He); [done..|].
  exists s', e. split; [by eapply rtc_l; [apply s_close|]|done].
Qed.

Module SenderExample.
Abbreviation Step := sender_step.

Ltac take H tac := change sender_reach with (reachable (λ s, s = sender_init) sender_step) in H; reach_by H tac.

Definition binding : GateBinding := mkGateBinding "game" "u1" "g" "grpc://h:1" "c" "t".

(** A call is routed and pushed; the sender is closed after it. *)
Ltac run_pushed H :=
  assert (H : reachable (λ s, s = sender_init) sender_step sender_init) by (by apply reach_init);
  take H ltac:(apply (s_call _ 0), (p_call _ _ "game" "u1" true));
  take H ltac:(eapply (s_call _ 0), (p_admit _ _ _ true));
  take H ltac:(eapply (s_call _ 0), p_live);
  take H ltac:(eapply (s_call _ 0), (p_route _ _ _ (mkGateLease binding 5)));
  take H ltac:(eapply (s_call _ 0), (p_pushed _ _ _ binding None)).

Lemma reach_pushed : ∃ s c, sender_reach s ∧ calls s !! 0%nat = Some c ∧ pc c = PReturned None.
Proof. run_pushed H. eexists _, _. split; [exact H|]. split; reflexivity. Qed.

Lemma reach_sender_closing : ∃ s, sender_reach s ∧ closers s !! 0%nat = Some KEnter.
Proof. run_pushed H. take H ltac:(apply s_close, (c_call _ 0)). eexists. split; [exact H|reflexivity]. Qed.

(** A call after the close is refused. *)
Lemma reach_refused : ∃ s c, sender_reach s ∧ closers s !! 0%nat = Some (KReturned None) ∧
  calls s !! 1%nat = Some c ∧ pc c = PReturned (Some closedStatus).
Proof.
  run_pushed H. take H ltac:(apply s_close, (c_call _ 0)). take H ltac:(apply s_close, (c_first _ 0)).
  take H ltac:(apply s_close, c_mark). take H ltac:(apply s_close, (c_client _ None)). take H ltac:(apply s_close, c_wait).
  take H ltac:(apply s_close, (c_return _ 0)).
  take H ltac:(apply (s_call _ 1), (p_call _ _ "game" "u1" true)).
  take H ltac:(eapply (s_call _ 1), (p_refused _ _ _ true)).
  eexists _, _. split; [exact H|]. split; [reflexivity|]. split; reflexivity.
Qed.

Lemma sender_push_routed_witness : ∃ s b, sender_reach s ∧ (0%nat, b, None) ∈ pushed s.
Proof.
  destruct reach_pushed as (s & c & H & Hc & Hp). destruct (sender_push_routed s H) as (_ & _ & Hs).
  destruct (Hs 0%nat c Hc Hp) as [b Hb]. by exists s, b.
Defined.

Lemma sender_errors_reported_witness : ∃ s c, sender_reach s ∧ pc c = PReturned (Some closedStatus) ∧
  (has_status closedStatus = true ∨ errors_Is closedStatus CtxCanceled = true ∨ errors_Is closedStatus CtxDeadlineExceeded = true).
Proof.
  destruct reach_refused as (s & c & H & _ & Hc & Hp). exists s, c. split; [exact H|]. split; [exact Hp|].
  exact (sender_errors_reported s 1 c closedStatus H Hc Hp).
Defined.

Lemma sender_close_waits_witness : ∃ s, sender_reach s ∧ counter s = 0 ∧ closed s = true.
Proof.
  destruct reach_refused as (s & c & H & Hk & _). exists s. split; [exact H|].
  destruct (sender_close_waits s 0 None H Hk) as (Hc & _ & Hz & _). by split.
Defined.

Lemma sender_close_completes_witness : ∃ s s' e, sender_reach s ∧ rtc Step s s' ∧ closers s' !! 0%nat = Some (KReturned e).
Proof.
  destruct reach_sender_closing as (s & H & Hk). exists s.
  destruct (sender_close_completes s 0 H Hk) as (s' & e & Hr & He). by exists s', e.
Defined.
End SenderExample.
