(* ===== verification/Listener.v ===== *)
(** * The listener owner

    [internal/listener/owner.go]: a listener bound on demand, or given, which
    the owner closes whatever the server library does.  A step is a critical
    section of [mu] or a call of the listener.  Proved: the address is bound
    at most once; the listener is closed by exactly one [Close], and by the
    first; and nothing is bound or accepted once it is closed. *)

From S2P Require Import Prelude Errors Locate.

Definition _defaultNetwork : string := "tcp".
Definition _defaultAddress : string := ":0".

Inductive addr := ListenerAddr (l : nat) | configuredAddr (network address : string).

(** A listener is a number; [accepting]: how often the channel was closed. *)
Record Owner := mkOwner {
  network : string;
  address : string;
  listener : option nat;
  closed : bool;
  accepting : nat;
  acceptOnce : bool;
}.
#[export] Instance eta_Owner : Eta Owner := λ o,
  mkOwner (network o) (address o) (listener o) (closed o) (accepting o) (acceptOnce o).

Definition New (network address : string) (l : option nat) : Owner :=
  mkOwner (if nonempty network then network else _defaultNetwork) (if nonempty address then address else _defaultAddress)
    l false 0 false.

Definition Accepting (o : Owner) : bool := (0 <? accepting o)%nat.

(** [answer]: the result of [config.Listen], asked for only if it is needed. *)
Definition Prepare (answer : result nat) (o : Owner) : Owner * option error :=
  if closed o then (o, Some (ESentinel NetErrClosed))
  else match listener o with
       | Some _ => (o, None)
       | None => match answer with Ok l => (o <| listener := Some l |>, None) | Err err => (o, Some err) end
       end.

(** The critical section of [Accept]: the listener to accept from. *)
Definition accept_enter (o : Owner) : Owner * result (option nat) :=
  if closed o then (o, Err (ESentinel NetErrClosed))
  else (if acceptOnce o then o else o <| acceptOnce := true |> <| accepting := S (accepting o) |>, Ok (listener o)).

(** That of [Close]: the listener to close, unless it was closed before. *)
Definition close_enter (o : Owner) : Owner * option (option nat) :=
  if closed o then (o, None) else (o <| closed := true |>, Some (listener o)).

Definition close_result (err : option error) : option error := if err_is err NetErrClosed then None else err.

Definition Addr (o : Owner) : addr :=
  match listener o with Some l => ListenerAddr l | None => configuredAddr (network o) (address o) end.

(** ** The goroutines that use it *)

Inductive thread :=
| TPrepare
| TAccept                                   (* in front of its Prepare *)
| TEnter                                    (* in front of its critical section *)
| TAccepting (l : option nat)               (* inside listener.Accept *)
| TClose
| TClosing (l : nat)                        (* inside listener.Close *)
| TReturned (err : option error).

(** [bound]: the listeners [Listen] made; [shut]: the calls of [listener.Close]. *)
Record sys := mkSys { owner : Owner; thr : gmap nat thread; bound : list nat; shut : list nat }.
#[export] Instance eta_sys : Eta sys := λ s, mkSys (owner s) (thr s) (bound s) (shut s).

Definition set_thr (i : nat) (t : thread) (s : sys) : sys := s <| thr := <[i := t]> (thr s) |>.

(** What [Prepare] bound. *)
Definition newly (o : Owner) (answer : result nat) : list nat :=
  if closed o then [] else match listener o, answer with None, Ok l => [l] | _, _ => [] end.

Inductive step (s : sys) : sys → Prop :=
| t_call i t : thr s !! i = None → t = TPrepare ∨ t = TAccept ∨ t = TClose → step s (set_thr i t s)
| t_prepare i answer o err :
    thr s !! i = Some TPrepare → Prepare answer (owner s) = (o, err) →
    step s (set_thr i (TReturned err) (s <| owner := o |> <| bound := bound s ++ newly (owner s) answer |>))
| t_accept i answer o err :
    thr s !! i = Some TAccept → Prepare answer (owner s) = (o, err) →
    step s (set_thr i (match err with Some _ => TReturned err | None => TEnter end)
              (s <| owner := o |> <| bound := bound s ++ newly (owner s) answer |>))
| t_closed i o err :
    thr s !! i = Some TEnter → accept_enter (owner s) = (o, Err err) → step s (set_thr i (TReturned (Some err)) (s <| owner := o |>))
| t_enter i o l :
    thr s !! i = Some TEnter → accept_enter (owner s) = (o, Ok l) → step s (set_thr i (TAccepting l) (s <| owner := o |>))
| t_accepted i l err : thr s !! i = Some (TAccepting l) → step s (set_thr i (TReturned err) s)
| t_close_again i o : thr s !! i = Some TClose → close_enter (owner s) = (o, None) → step s (set_thr i (TReturned None) (s <| owner := o |>))
| t_close_unbound i o :
    thr s !! i = Some TClose → close_enter (owner s) = (o, Some None) → step s (set_thr i (TReturned None) (s <| owner := o |>))
| t_close i o l :
    thr s !! i = Some TClose → close_enter (owner s) = (o, Some (Some l)) → step s (set_thr i (TClosing l) (s <| owner := o |>))
| t_shut i l err :
    thr s !! i = Some (TClosing l) → step s (set_thr i (TReturned (close_result err)) (s <| shut := shut s ++ [l] |>)).

Definition init_sys (s : sys) : Prop := ∃ n a l, s = mkSys (New n a l) ∅ [] [].
Definition reach : sys → Prop := reachable init_sys step.

(** ** The invariant *)

Definition closing_thr (t : thread) : Z := match t with TClosing _ => 1 | _ => 0 end.

Record owner_ok (s : sys) : Prop := mkOwnerOk {
  oo_bound : (length (bound s) ≤ 1)%nat ∧ ∀ l, l ∈ bound s → listener (owner s) = Some l;
  oo_once : accepting (owner s) = (if acceptOnce (owner s) then 1 else 0)%nat;
  oo_shut : ∀ l, l ∈ shut s → listener (owner s) = Some l;
  oo_closing : ∀ i l, thr s !! i = Some (TClosing l) → listener (owner s) = Some l;
  oo_enter : ∀ i, thr s !! i = Some TEnter → listener (owner s) ≠ None;
  oo_accept : ∀ i l, thr s !! i = Some (TAccepting l) → listener (owner s) = l ∧ l ≠ None;
  oo_count : zlen (shut s) + msum closing_thr (thr s) =
             if closed (owner s) then match listener (owner s) with Some _ => 1 | None => 0 end else 0;
}.

(** A thread moves; the listener may be bound meanwhile. *)
Lemma owner_update s s' i t :
  owner_ok s → thr s' = <[i := t]> (thr s) →
  (∀ l, listener (owner s) = Some l → listener (owner s') = Some l) →
  ((length (bound s') ≤ 1)%nat ∧ ∀ l, l ∈ bound s' → listener (owner s') = Some l) →
  accepting (owner s') = (if acceptOnce (owner s') then 1 else 0)%nat →
  (∀ l, l ∈ shut s' → listener (owner s') = Some l) →
  match t with
  | TClosing l => listener (owner s') = Some l
  | TEnter => listener (owner s') ≠ None
  | TAccepting l => listener (owner s') = l ∧ l ≠ None
  | _ => True
  end →
  zlen (shut s') + msum closing_thr (thr s') =
    (if closed (owner s') then match listener (owner s') with Some _ => 1 | None => 0 end else 0) →
  owner_ok s'.
Proof.
  intros [O1 O2 O3 O4 O5 O6 O7] Ht Hl Hb Ha Hs Hn Hc.
  assert (Hcase : ∀ j x, thr s' !! j = Some x → x = t ∨ thr s !! j = Some x).
  { intros j x Hj. rewrite Ht in Hj. destruct (decide (j = i)) as [->|Hne].
    - rewrite lookup_insert_eq in Hj. left. congruence.
    - rewrite lookup_insert_ne in Hj by done. auto. }
  split; auto.
  - intros j l Hj. destruct (Hcase _ _ Hj) as [<-|Hx]; [done|]. eauto.
  - intros j Hj. destruct (Hcase _ _ Hj) as [<-|Hx]; [done|]. apply O5 in Hx. destruct (listener (owner s)) eqn:E; [|done].
    by rewrite (Hl _ eq_refl).
  - intros j l Hj. destruct (Hcase _ _ Hj) as [<-|Hx]; [done|]. apply O6 in Hx as [Hx Hy]. destruct l as [l|]; [|done]. auto.
Qed.

Lemma count_same s i t t' :
  thr s !! i = Some t → closing_thr t = closing_thr t' → msum closing_thr (<[i := t']> (thr s)) = msum closing_thr (thr s).
Proof. intros Hi Ht. rewrite (msum_insert _ _ t) by done. lia. Qed.

Lemma owner_prepare s i t t' answer o err :
  owner_ok s → thr s !! i = Some t → Prepare answer (owner s) = (o, err) → closing_thr t = 0 → closing_thr t' = 0 →
  t' = TReturned err ∨ (err = None ∧ t' = TEnter) →
  owner_ok (set_thr i t' (s <| owner := o |> <| bound := bound s ++ newly (owner s) answer |>)).
Proof.
  intros Ho Hi Hp Ht Ht' Hk. pose proof Ho as [[O1 O1'] O2 O3 O4 O5 O6 O7].
  assert (Hcount : msum closing_thr (<[i := t']> (thr s)) = msum closing_thr (thr s)) by (apply (count_same s i t); [done|congruence]).
  unfold Prepare, newly in *. destruct (closed (owner s)) eqn:Hc; [|destruct (listener (owner s)) as [l|] eqn:Hl; [|destruct answer as [l|e]]];
    simplify_eq; rewrite ?app_nil_r; apply (owner_update s _ i t'); simpl; try done; try (by rewrite ?Hl, ?Hc, ?Hcount, ?O7);
    try (by destruct Hk as [->|[? ->]]; [|rewrite ?Hl]).
  - destruct (bound s) as [|x bs] eqn:E; simpl; [|exfalso; by specialize (O1' x ltac:(set_solver))].
    split; [lia|]. intros l' ->%list_elem_of_singleton. done.
  - intros l' Hl'. apply O3 in Hl'. done.
Qed.

Lemma owner_step s s' : owner_ok s → step s s' → owner_ok s'.
Proof.
  intros Ho Hst. pose proof Ho as [[O1 O1'] O2 O3 O4 O5 O6 O7].
  destruct Hst as [i t Hi Ht|i answer o err Hi Hp|i answer o err Hi Hp|i o err Hi Hp|i o l Hi Hp|i l err Hi|i o Hi Hp|i o Hi Hp|i o l Hi Hp|i l err Hi].
  - assert (closing_thr t = 0) as Hz by by destruct Ht as [->|[->| ->]].
    apply (owner_update s _ i t); simpl; try done; [by destruct Ht as [->|[->| ->]]|].
    rewrite msum_insert_new, Hz, Z.add_0_l by done. done.
  - by eapply owner_prepare; [..|by left].
  - eapply owner_prepare; [done..| |destruct err; auto]. by destruct err.
  - unfold accept_enter in Hp. destruct (closed (owner s)) eqn:Hc; simplify_eq.
    apply (owner_update s _ i (TReturned (Some (ESentinel NetErrClosed)))); simpl; try done.
    by rewrite (count_same s i TEnter), Hc.
  - unfold accept_enter in Hp. destruct (closed (owner s)) eqn:Hc; simplify_eq. pose proof (O5 _ Hi) as Hn.
    apply (owner_update s _ i (TAccepting (listener (owner s)))); simpl; destruct (acceptOnce (owner s)) eqn:Ha; simpl; rewrite ?Ha; try done; try lia.
    + by rewrite (count_same s i TEnter), Hc.
    + by rewrite (count_same s i TEnter), Hc.
  - apply (owner_update s _ i (TReturned err)); simpl; try done. by rewrite (count_same s i (TAccepting l)).
  - unfold close_enter in Hp. destruct (closed (owner s)) eqn:Hc; simplify_eq.
    apply (owner_update s _ i (TReturned None)); simpl; try done. by rewrite (count_same s i TClose), Hc.
  - unfold close_enter in Hp. destruct (closed (owner s)) eqn:Hc; simplify_eq.
    apply (owner_update s _ i (TReturned None)); simpl; try done. rewrite (count_same s i TClose) by done.
    match goal with H : listener _ = None |- _ => by rewrite H in * end.
  - unfold close_enter in Hp. destruct (closed (owner s)) eqn:Hc; simplify_eq.
    match goal with H : listener _ = Some l |- _ => rename H into Hl end.
    apply (owner_update s _ i (TClosing l)); simpl; try done. rewrite (msum_insert _ _ TClose) by done. simpl. rewrite Hl in *. lia.
  - pose proof (O4 _ _ Hi) as Hl. apply (owner_update s _ i (TReturned (close_result err))); simpl; try done.
    + intros l' [Hx|Hx%list_elem_of_singleton]%elem_of_app; [by apply O3|by subst].
    + rewrite (msum_insert _ _ (TClosing l)), zlen_app by done. simpl. lia.
Qed.

Lemma owner_inv s : reach s → owner_ok s.
Proof.
  revert s. apply (invariant_reachable init_sys step owner_ok).
  - intros s (n & a & l & ->). split; simpl; try done; set_solver.
  - eauto using owner_step.
Qed.

(** ** Theorems *)

(** The address is bound at most once, and only if no listener was given;
    the listener there is is closed by one call of [Close] at most, and has
    been closed when the [Close] that marked the owner returns; the channel of
    [Accepting] is closed once at most. *)
Theorem listener_closed_once s :
  reach s →
  (length (bound s) ≤ 1)%nat ∧ (length (shut s) ≤ 1)%nat ∧ (accepting (owner s) ≤ 1)%nat ∧
  (∀ l, l ∈ bound s ∨ l ∈ shut s → listener (owner s) = Some l) ∧
  (closed (owner s) = true → (∀ i l, thr s !! i ≠ Some (TClosing l)) → ∀ l, listener (owner s) = Some l → shut s = [l]) ∧
  (closed (owner s) = false → shut s = []).
Proof.
  intros Hr. destruct (owner_inv _ Hr) as [[O1 O1'] O2 O3 O4 O5 O6 O7].
  assert (Hn : 0 ≤ msum closing_thr (thr s)) by (apply msum_nonneg; by intros []).
  assert (Hlen : (length (shut s) ≤ 1)%nat) by (destruct (closed _), (listener _); lia).
  split_and!; auto.
  - rewrite O2. destruct (acceptOnce _); lia.
  - intros l [H|H]; auto.
  - intros Hc Hno l Hl. rewrite Hc, Hl in O7.
    assert (msum closing_thr (thr s) ≤ 0).
    { apply Z.nlt_ge. intros Hp. apply msum_pos_exists in Hp as (i & t & Hi & Ht). destruct t; simpl in Ht; try lia. by apply (Hno i l0). }
    destruct (shut s) as [|x [|]] eqn:E; simpl in *; [lia| |lia]. f_equal. specialize (O3 x ltac:(set_solver)). congruence.
  - intros Hc. rewrite Hc in O7. destruct (shut s); [done|]. simpl in O7. lia.
Qed.

(** A closed owner stays closed: nothing is bound, no caller is handed
    the listener, and [Prepare], [Accept] and a second [Close] say so. *)
Theorem listener_stays_closed s s' :
  step s s' → closed (owner s) = true →
  owner s' = owner s ∧ bound s' = bound s ∧
  (∀ i l, thr s' !! i = Some (TAccepting l) → thr s !! i = Some (TAccepting l)) ∧
  (∀ i l, thr s' !! i = Some (TClosing l) → thr s !! i = Some (TClosing l)) ∧
  ∀ answer, (Prepare answer (owner s)).2 = Some (ESentinel NetErrClosed) ∧
            (accept_enter (owner s)).2 = Err (ESentinel NetErrClosed) ∧ (close_enter (owner s)).2 = None.
Proof.
  intros Hst Hc. unfold Prepare, accept_enter, close_enter.
  destruct Hst as [i t Hi Ht|i answer o err Hi Hp|i answer o err Hi Hp|i o err Hi Hp|i o l Hi Hp|i l err Hi|i o Hi Hp|i o Hi Hp|i o l Hi Hp|i l err Hi];
    unfold Prepare, accept_enter, close_enter, newly in *; rewrite ?Hc in *; simplify_eq; simpl; rewrite ?app_nil_r; (split; [done|]); (split; [done|]);
    (split; [|split; [|done]]); intros j l' Hj; (destruct (decide (j = i)) as [->|Hne];
      [rewrite lookup_insert_eq in Hj; simplify_eq; try done; naive_solver|by rewrite lookup_insert_ne in Hj]).
Qed.

Module ListenerExample.
Ltac take H tac := change reach with (reachable init_sys step) in H; reach_by H tac.

(** A server accepts, the owner is closed, then closed again. *)
Ltac run_closed H :=
  assert (H : reachable init_sys step (mkSys (New EmptyString EmptyString None) ∅ [] [])) by (apply reach_init; by exists EmptyString, EmptyString, None);
  take H ltac:(apply (t_call _ 0 TAccept); [|by right; left]);
  take H ltac:(eapply (t_accept _ 0 (Ok 7%nat)));
  take H ltac:(eapply (t_enter _ 0));
  take H ltac:(apply (t_call _ 1 TClose); [|by right; right]);
  take H ltac:(eapply (t_close _ 1));
  take H ltac:(eapply (t_shut _ 1 7 None)).

Lemma reach_listener_closed : ∃ s, reach s ∧ closed (owner s) = true ∧ shut s = [7%nat] ∧ bound s = [7%nat] ∧ thr s !! 2%nat = None.
Proof. run_closed H. eexists. split; [exact H|]. repeat split. Qed.

Lemma listener_closed_once_witness : ∃ s, reach s ∧ shut s = [7%nat] ∧ (length (bound s) ≤ 1)%nat.
Proof.
  destruct reach_listener_closed as (s & H & _ & Hs & _). exists s. split; [exact H|]. split; [exact Hs|].
  apply (listener_closed_once s H).
Defined.

Lemma listener_stays_closed_witness : ∃ s s', reach s ∧ step s s' ∧ owner s' = owner s.
Proof.
  destruct reach_listener_closed as (s & H & Hc & _ & _ & Hn). exists s, (set_thr 2 TPrepare s).
  assert (Hst : step s (set_thr 2 TPrepare s)) by (apply t_call; auto).
  split; [exact H|]. split; [exact Hst|]. apply (listener_stays_closed s (set_thr 2 TPrepare s) Hst Hc).
Defined.
End ListenerExample.
