(* ===== verification/Registry.v ===== *)
(** * The service directory on etcd

    [registry/etcd/registry.go] and [registry/etcd/registrar.go].  The etcd
    server is not part of the repository: its operations are the fields of
    [Etcd], and [EtcdLaws] states their documented effect on keys and leases;
    [MapEtcd] is a server that satisfies them.  Several registries, each a
    [Registry] of its own, use one server; a call may lose its request or its
    reply, and a lost request may still be executed later.  Proved: a record
    is owned by the one registry whose lease it has, which can still revoke
    it; a record goes only because its lease ended at the server, because its
    own registry was told to deregister exactly it, or because the Register
    that created it failed; and a registered record is there for as long as
    its lease lives. *)

From Stdlib Require Import Strings.Ascii.
From S2P Require Import Prelude Errors Locate Endpoint ClientOptions Redis.

(** ** The server *)

(** [clientv3.Compare(clientv3.CreateRevision(k), "=", rev)] and
    [clientv3.OpPut(k, v, clientv3.WithLease(L))]. *)
Inductive compare := CreateRevisionIs (k : string) (rev : Z).
Inductive put_op := OpPut (k v : string) (L : Z).

Class Etcd := {
  edb : Type;
  get : string → edb → option (string * Z);         (* a value and its lease *)
  createRevision : string → edb → Z;
  alive : Z → edb → bool;
  issued : Z → edb → Prop;                          (* the lease was granted once *)
  grant : edb → edb * Z;
  put : string → string → Z → edb → option edb;     (* [None]: no such lease *)
  txn : list compare → list put_op → edb → edb * option bool;
                                                    (* [Succeeded], or the error of an operation *)
  revoke : Z → edb → edb * bool;                    (* whether the lease was found *)
}.

Section Transaction.
Context `{E : Etcd}.
Definition holds (d : edb) (c : compare) : bool := let 'CreateRevisionIs k rev := c in createRevision k d =? rev.
Fixpoint puts (ops : list put_op) (d : edb) : option edb :=
  match ops with [] => Some d | OpPut k v L :: ops => put k v L d ≫= puts ops end.
End Transaction.

(** A key that is not there has the create revision 0; a transaction whose
    comparisons hold executes its puts, all or none, and another changes
    nothing; a put needs its lease; the end of a lease removes its keys. *)
Class EtcdLaws (E : Etcd) := {
  createRevision_zero d k : createRevision k d = 0 ↔ get k d = None;
  grant_new d : (grant d).2 ≠ 0 ∧ ¬ issued (grant d).2 d;
  grant_alive d L : alive L (grant d).1 = alive L d || (L =? (grant d).2);
  grant_issued d L : issued L (grant d).1 ↔ issued L d ∨ L = (grant d).2;
  grant_get d k : get k (grant d).1 = get k d;
  alive_issued d L : alive L d = true → issued L d;
  put_answer d k v L : L ≠ 0 → is_Some (put k v L d) ↔ alive L d = true;
  put_get d k v L d' k' : put k v L d = Some d' → get k' d' = if bool_decide (k' = k) then Some (v, L) else get k' d;
  put_leases d k v L d' L' :
    put k v L d = Some d' → alive L' d' = alive L' d ∧ (issued L' d' ↔ issued L' d);
  txn_effect d cmps ops :
    txn cmps ops d = if forallb (holds d) cmps
                     then match puts ops d with Some d' => (d', Some true) | None => (d, None) end
                     else (d, Some false);
  revoke_get d L k :
    get k (revoke L d).1 = match get k d with Some (v, L') => if L' =? L then None else Some (v, L') | None => None end;
  revoke_leases d L L' :
    alive L' (revoke L d).1 = alive L' d && negb (L' =? L) ∧ (issued L' (revoke L d).1 ↔ issued L' d);
}.

Module MapEtcd.
Record store := mkStore { keys : gmap string (string * Z); live : gset Z; next : Z }.

Definition attach (k v : string) (L : Z) (d : store) : store := mkStore (<[k := (v, L)]> (keys d)) (live d) (next d).

(** Lease numbers count up from 1. *)
Definition last (d : store) : Z := Z.max 0 (next d).

Definition map_put (k v : string) (L : Z) (d : store) : option store :=
  if (L =? 0) || (bool_decide (L ∈ live d) && (L <=? last d)) then Some (attach k v L d) else None.
(** Every record is of revision 1. *)
Definition map_revision (k : string) (d : store) : Z := match keys d !! k with Some _ => 1 | None => 0 end.
Definition map_txn (cmps : list compare) (ops : list put_op) (d : store) : store * option bool :=
  if forallb (λ '(CreateRevisionIs k rev), map_revision k d =? rev) cmps
  then match foldl (λ x '(OpPut k v L), x ≫= map_put k v L) (Some d) ops with
       | Some d' => (d', Some true) | None => (d, None) end
  else (d, Some false).

#[export] Instance map_etcd : Etcd := {
  edb := store;
  get k d := keys d !! k;
  createRevision := map_revision;
  alive L d := bool_decide (L ∈ live d) && (L <=? last d);
  issued L d := L ≤ last d;
  grant d := (mkStore (keys d) ({[last d + 1]} ∪ live d) (last d + 1), last d + 1);
  put := map_put;
  txn := map_txn;
  revoke L d :=
    (mkStore (filter (λ p, p.2.2 ≠ L) (keys d)) (live d ∖ {[L]}) (next d), bool_decide (L ∈ live d) && (L <=? last d));
}.

Lemma map_puts ops x :
  foldl (λ x '(OpPut k v L), x ≫= map_put k v L) x ops = x ≫= puts (E := map_etcd) ops.
Proof.
  revert x. induction ops as [|[k v L] ops IH]; intros [d|]; simpl; try done; rewrite IH; done.
Qed.

Lemma last_grant d : last (mkStore (keys d) ({[last d + 1]} ∪ live d) (last d + 1)) = last d + 1.
Proof. unfold last. simpl. lia. Qed.

#[export, refine] Instance map_etcd_laws : EtcdLaws map_etcd := {}.
Proof.
  - intros d k. simpl. unfold map_revision. by destruct (keys d !! k).
  - intros d. simpl. unfold last. lia.
  - intros d L. simpl. rewrite last_grant. apply eq_true_iff_eq. rewrite !orb_true_iff, !andb_true_iff, !bool_decide_eq_true, !Z.leb_le, Z.eqb_eq.
    rewrite elem_of_union, elem_of_singleton. destruct (Z.le_gt_cases L (last d)), (decide (L = last d + 1)); intuition lia.
  - intros d L. simpl. rewrite last_grant. lia.
  - done.
  - intros d L. simpl. rewrite andb_true_iff, Z.leb_le. tauto.
  - intros d k v L HL. simpl. unfold map_put. apply Z.eqb_neq in HL. rewrite HL. simpl.
    destruct (bool_decide (L ∈ live d) && (L <=? last d)); by split.
  - intros d k v L d' k'. simpl. unfold map_put. destruct (_ || _); [|done]. intros [= <-]. simpl.
    case_bool_decide as Hk; [subst; by rewrite lookup_insert_eq|by rewrite lookup_insert_ne].
  - intros d k v L d' L'. simpl. unfold map_put. destruct (_ || _); [|done]. by intros [= <-].
  - intros d cmps ops. simpl. unfold map_txn. rewrite map_puts. simpl. f_equal.
  - intros d L k. simpl. rewrite map_lookup_filter. destruct (keys d !! k) as [[v L']|]; simpl; [|done].
    destruct (Z.eqb_spec L' L); [by rewrite option_guard_False by (simpl; tauto)|by rewrite option_guard_True].
  - intros d L L'. simpl. split; [|done]. apply eq_true_iff_eq. rewrite !andb_true_iff, negb_true_iff, Z.eqb_neq, !bool_decide_eq_true.
    unfold last. simpl. set_solver.
Defined.
End MapEtcd.

(** ** registry/etcd/registry.go: the options *)

Definition _defaultEndpoint : string := "127.0.0.1:2379".
Definition _defaultPrefix : string := "/etcd/prefix".
Definition _defaultDialTimeout : Z := 3 * Second.

Record config := mkConfig { endpoints : list string; prefix : string; dialTimeout : Z }.
#[export] Instance eta_config : Eta config := λ c, mkConfig (endpoints c) (prefix c) (dialTimeout c).

(** [strings.SplitSeq(s, ",")] *)
Fixpoint split_comma (s : string) : list string :=
  match s with
  | EmptyString => [EmptyString]
  | String c s =>
      if Ascii.eqb c ","%char then EmptyString :: split_comma s
      else match split_comma s with t :: ts => String c t :: ts | [] => [] end
  end.

(** [strings.TrimSpace]; [skip]: the bytes left of the rune being copied. *)
Fixpoint trim_left (skip : nat) (s : string) : string :=
  match s, skip with
  | EmptyString, _ => EmptyString
  | String _ s', S skip => trim_left skip s'
  | String c s', O => let '(r, n) := first_rune c s' in if IsSpace r then trim_left n s' else s
  end.

Fixpoint trim_right (skip : nat) (s : string) : string :=
  match s, skip with
  | EmptyString, _ => EmptyString
  | String c s', S skip => String c (trim_right skip s')
  | String c s', O =>
      if forallb IsSpace (runes 0 s) then EmptyString else String c (trim_right (first_rune c s').2 s')
  end.

Definition TrimSpace (s : string) : string := trim_right 0 (trim_left 0 s).

Definition WithEndpoints (values : list string) (c : config) : config :=
  c <| endpoints := filter (λ e, e ≠ EmptyString) (TrimSpace <$> (values ≫= split_comma)) |>.
Definition WithPrefix (v : string) (c : config) : config := c <| prefix := v |>.
Definition WithDialTimeout (v : Z) (c : config) : config := c <| dialTimeout := v |>.

Definition registry_defaults : config := mkConfig [_defaultEndpoint] _defaultPrefix _defaultDialTimeout.

(** [newClient]: the error of [clientv3.New]. *)
Definition New (newClient : option error) (opts : list (config → config)) : result config :=
  let c := apply_all opts registry_defaults in
  match guards [(bool_decide (endpoints c = []), EText "etcd: endpoints are empty");
                (bool_decide (prefix c = EmptyString) || negb (has_prefix "/" (prefix c)), EText "etcd: prefix must start with '/'");
                (dialTimeout c <=? 0, EText "etcd: dial timeout must be positive")] with
  | Some err => Err err
  | None => match newClient with Some err => Err (EWrap "etcd: create client: %w" [err]) | None => Ok c end
  end.

(** [strings.TrimRight(s, "/")] *)
Fixpoint trim_slashes (s : string) : string :=
  match s with
  | EmptyString => EmptyString
  | String c s' =>
      match trim_slashes s' with
      | EmptyString => if Ascii.eqb c "/"%char then EmptyString else String c EmptyString
      | t => String c t
      end
  end.

Definition node_prefix (c : config) : config :=
  if bool_decide (prefix c = EmptyString) then c else c <| prefix := (trim_slashes (prefix c) +:+ "/yola/nodes")%string |>.

Definition NewNodeRegistry (newClient : option error) (opts : list (config → config)) : result config :=
  New newClient (opts ++ [node_prefix]).

(** ** registry/etcd/registrar.go *)

(** Why a lease is revoked: [Register] failed after [Grant], or [Deregister]
    was called for this instance. *)
Inductive revocation := RegisterFailed (err : error) | Deregistered (name id : string).

(** The operation in progress: [Register] in front of [Grant], of the
    transaction, of [NewSession] and of its last check, or a [revoke], before
    or after its wait. *)
Inductive operation :=
| Idle
| RGrant
| RTxn
| RSession
| RCheck
| Revoking (why : revocation) (waited : bool).

Definition registering (o : operation) : bool :=
  match o with RGrant | RTxn | RSession | RCheck => true | _ => false end.

Definition leased (o : operation) : bool :=
  match o with RTxn | RSession | RCheck | Revoking _ _ => true | _ => false end.

(** [sessionDone]: the session's channel is closed; [clientClosed]: after [Close].
    What the proofs record: [granted], [value], the lease given to it and what
    it registers; [created], its transaction is known to have succeeded;
    [registered], its [Register] returned nil; [asked], the revocations begun;
    [returned], [closes], the results of [Register] and [Deregister] and those
    of [Close]. *)
Record Registry := mkRegistry {
  namespace : string;
  attempted : bool;
  key : string;
  leaseID : Z;
  cancel : bool;
  session : bool;
  sessionDone : bool;
  clientClosed : bool;
  op : operation;
  granted : option Z;
  value : string;
  created : bool;
  registered : bool;
  asked : list revocation;
  returned : list (option error);
  closes : list (option error);
}.
#[export] Instance eta_Registry : Eta Registry := λ r,
  mkRegistry (namespace r) (attempted r) (key r) (leaseID r) (cancel r) (session r) (sessionDone r) (clientClosed r) (op r)
    (granted r) (value r) (created r) (registered r) (asked r) (returned r) (closes r).

Definition newRegistry (ns : string) : Registry :=
  mkRegistry ns false EmptyString 0 false false false false Idle None EmptyString false false [] [] [].

(** [Done]: no channel before the registration, then the session's. *)
Definition Done (r : Registry) : option bool := if session r then Some (sessionDone r) else None.

Definition key_of (ns name id : string) : string := (ns +:+ "/" +:+ name +:+ "/" +:+ id)%string.

Definition return_ (err : option error) (r : Registry) : Registry := r <| returned := returned r ++ [err] |>.
Definition finish (err : option error) (r : Registry) : Registry := (return_ err r) <| op := Idle |>.

(** [revoke] is called: a session is canceled and waited for. *)
Definition begin_revoke (why : revocation) (r : Registry) : Registry :=
  r <| op := Revoking why (negb (cancel r)) |> <| asked := asked r ++ [why] |>.

(** [Register] failed after [Grant]: its deferred [revoke]. *)
Definition fail (err : error) (r : Registry) : Registry := begin_revoke (RegisterFailed err) r.

(** A [revoke] returned [err]. *)
Definition revoked (why : revocation) (err : option error) (r : Registry) : Registry :=
  finish (match why with RegisterFailed e => errors_Join [Some e; err] | Deregistered _ _ => err end) r.

(** The checks of [Register]; [service]: the name and ID of the instance,
    [encoded]: the result of [json.Marshal]. *)
Definition Register_enter (service : option (string * string)) (encoded : result string) (r : Registry) : Registry :=
  if attempted r then finish (Some (EText "etcd: registration already attempted")) r
  else match service with
  | None => finish (Some (EText "etcd: service identity is required")) r
  | Some (name, id) =>
      if bool_decide (name = EmptyString) || bool_decide (id = EmptyString)
      then finish (Some (EText "etcd: service identity is required")) r
      else match encoded with
           | Err err => finish (Some (EWrap "etcd: encode service: %w" [err])) r
           | Ok v => r <| attempted := true |> <| key := key_of (namespace r) name id |> <| value := v |> <| op := RGrant |>
           end
  end.

Definition Deregister_enter (service : option (string * string)) (r : Registry) : Registry :=
  if leaseID r =? 0 then finish None r
  else match service with
  | Some (name, id) =>
      if bool_decide (key r = key_of (namespace r) name id) then begin_revoke (Deregistered name id) r
      else finish (Some (EText "etcd: deregistration identity does not match")) r
  | None => finish (Some (EText "etcd: deregistration identity does not match")) r
  end.

Section Directory.
Context `{E : Etcd}.

(** The transaction [Register] commits. *)
Definition create (k v : string) (L : Z) (x : edb) : edb * option bool :=
  txn [CreateRevisionIs k 0] [OpPut k v L] x.

(** [flying]: the requests that were given up. *)
Inductive request := FCreate (k v : string) (L : Z) | FRevoke (L : Z).
Record sys := mkSys { d : edb; regs : gmap nat Registry; flying : list request }.
#[export] Instance eta_sys : Eta sys := λ s, mkSys (d s) (regs s) (flying s).

Definition set_reg (i : nat) (r : Registry) (s : sys) : sys := s <| regs := <[i := r]> (regs s) |>.
Definition set_db (x : edb) (s : sys) : sys := s <| d := x |>.

Definition grantErr (e : error) : error := EWrap "etcd: grant registration lease: %w" [e].
Definition txnErr (e : error) : error := EWrap "etcd: register service: %w" [e].
Definition sessionErr (e : error) : error := EWrap "etcd: keep registration alive: %w" [e].
Definition revokeErr (e : error) : error := EWrap "etcd: revoke registration lease: %w" [e].

Definition abandon (f : request) (s : sys) : sys := s <| flying := flying s ++ [f] |>.

(** One registry: the caller of an operation fails to [enter] or enters it
    when no other is in progress; each call of the client is answered, fails
    with its request given up, or loses its reply; the session ends; [Close]
    may come at any time, and no call is answered after it. *)
Inductive reg_step (s : sys) (i : nat) (r : Registry) : sys → Prop :=
| r_enter_failed err : reg_step s i r (set_reg i (return_ (Some err) r) s)
| r_register service encoded : op r = Idle → reg_step s i r (set_reg i (Register_enter service encoded r) s)
| r_granted d' L :
    op r = RGrant → clientClosed r = false → grant (d s) = (d', L) →
    reg_step s i r (set_db d' (set_reg i (r <| leaseID := L |> <| granted := Some L |> <| op := RTxn |>) s))
| r_grant_failed e : op r = RGrant → reg_step s i r (set_reg i (finish (Some (grantErr e)) r) s)
| r_grant_lost e :
    op r = RGrant → reg_step s i r (set_db (grant (d s)).1 (set_reg i (finish (Some (grantErr e)) r) s))
| r_txn d' ok e :
    op r = RTxn → clientClosed r = false → create (key r) (value r) (leaseID r) (d s) = (d', ok) →
    reg_step s i r (set_db d' (set_reg i (match ok with
                                          | Some true => r <| created := true |> <| op := RSession |>
                                          | Some false => fail (ESentinel ErrInstanceExists) r
                                          | None => fail (txnErr e) r
                                          end) s))
| r_txn_failed e :
    op r = RTxn →
    reg_step s i r (abandon (FCreate (key r) (value r) (leaseID r)) (set_reg i (fail (txnErr e) r) s))
| r_txn_lost d' ok e :
    op r = RTxn → create (key r) (value r) (leaseID r) (d s) = (d', ok) →
    reg_step s i r (set_db d' (set_reg i (fail (txnErr e) r) s))
| r_session : op r = RSession → reg_step s i r (set_reg i (r <| cancel := true |> <| session := true |> <| op := RCheck |>) s)
| r_no_session e : op r = RSession → reg_step s i r (set_reg i (fail (sessionErr e) r) s)
| r_nil_session : op r = RSession → reg_step s i r (set_reg i (fail (EText "etcd: registration lease is unavailable") r) s)
| r_registered : op r = RCheck → reg_step s i r (set_reg i ((finish None r) <| registered := true |>) s)
| r_canceled e : op r = RCheck → reg_step s i r (set_reg i (fail e r) s)
| r_deregister service : op r = Idle → reg_step s i r (set_reg i (Deregister_enter service r) s)
| r_done : session r = true → reg_step s i r (set_reg i (r <| sessionDone := true |>) s)
| v_waited why :
    op r = Revoking why false → Done r = Some true → reg_step s i r (set_reg i (r <| op := Revoking why true |>) s)
| v_not_waited why e : op r = Revoking why false → reg_step s i r (set_reg i (revoked why (Some e) r) s)
| v_revoked why d' found :
    op r = Revoking why true → clientClosed r = false → revoke (leaseID r) (d s) = (d', found) →
    reg_step s i r (set_db d' (set_reg i (revoked why None (r <| leaseID := 0 |>)) s))
| v_failed why e :
    op r = Revoking why true →
    reg_step s i r (abandon (FRevoke (leaseID r)) (set_reg i (revoked why (Some (revokeErr e)) r) s))
| v_lost why d' found e :
    op r = Revoking why true → revoke (leaseID r) (d s) = (d', found) →
    reg_step s i r (set_db d' (set_reg i (revoked why (Some (revokeErr e)) r) s))
| r_close err : reg_step s i r (set_reg i (r <| clientClosed := true |> <| closes := closes r ++ [err] |>) s).

(** The world: a new registry, a lease for another client, a lease that ends
    at the server, and a request that was given up and arrives late. *)
Inductive world_step (s : sys) : sys → Prop :=
| e_new i ns : regs s !! i = None → world_step s (set_reg i (newRegistry ns) s)
| e_grant : world_step s (set_db (grant (d s)).1 s)
| e_end L : world_step s (set_db (revoke L (d s)).1 s)
| e_late_create k v L l1 l2 :
    flying s = l1 ++ FCreate k v L :: l2 → world_step s ((set_db (create k v L (d s)).1 s) <| flying := l1 ++ l2 |>)
| e_late_revoke L l1 l2 :
    flying s = l1 ++ FRevoke L :: l2 → world_step s ((set_db (revoke L (d s)).1 s) <| flying := l1 ++ l2 |>).

Inductive step (s : sys) : sys → Prop :=
| s_reg i r s' : regs s !! i = Some r → reg_step s i r s' → step s s'
| s_world s' : world_step s s' → step s s'.

(** Whatever the directory holds at first: a key has no lease or one that was
    granted. *)
Definition attached (x : edb) : Prop := ∀ k v L, get k x = Some (v, L) → L = 0 ∨ issued L x.
Definition init_sys (s : sys) : Prop := ∃ d0, attached d0 ∧ s = mkSys d0 ∅ [].
Definition dir_reach : sys → Prop := reachable init_sys step.

(** ** The invariant *)

(** What entitles a registry to a revocation: [Deregister] named its own key,
    or its [Register] never returned nil. *)
Definition entitled (r : Registry) (why : revocation) : Prop :=
  match why with
  | Deregistered name id => key r = key_of (namespace r) name id
  | RegisterFailed _ => registered r = false
  end.

Record log_ok (r : Registry) : Prop := mkLogOk {
  lo_quiet : attempted r = false ∨ registering (op r) = true → asked r = [] ∧ registered r = false;
  lo_entitled : ∀ why, why ∈ asked r → entitled r why;
  lo_revoking : ∀ why w, op r = Revoking why w → why ∈ asked r;
}.

Record reg_ok (x : edb) (r : Registry) : Prop := mkRegOk {
  ro_lease : leaseID r ≠ 0 → granted r = Some (leaseID r);
  ro_granted : ∀ L, granted r = Some L → issued L x ∧ L ≠ 0 ∧ (leaseID r = L ∨ leaseID r = 0 ∧ alive L x = false);
  ro_fresh : attempted r = false ∨ op r = RGrant → granted r = None ∧ created r = false;
  ro_op : leased (op r) = true → leaseID r ≠ 0;
  ro_busy : op r ≠ Idle → attempted r = true;
  ro_created : ∀ L, created r = true → granted r = Some L → alive L x = true → get (key r) x = Some (value r, L);
  ro_log : log_ok r;
}.

Definition owns (r : Registry) (k v : string) (L : Z) : Prop := granted r = Some L ∧ key r = k ∧ value r = v.

Record dir_ok (s : sys) : Prop := mkDirOk {
  do_reg : ∀ i r, regs s !! i = Some r → reg_ok (d s) r;
  do_attached : attached (d s);
  do_owned : ∀ k v L i r, get k (d s) = Some (v, L) → regs s !! i = Some r → granted r = Some L → owns r k v L ∧ alive L (d s) = true;
  do_unique : ∀ i j r r' L, regs s !! i = Some r → regs s !! j = Some r' → granted r = Some L → granted r' = Some L → i = j;
  do_create : ∀ k v L, FCreate k v L ∈ flying s → ∃ i r, regs s !! i = Some r ∧ owns r k v L;
  do_revoke : ∀ L, FRevoke L ∈ flying s →
    ∃ i r why, regs s !! i = Some r ∧ granted r = Some L ∧ why ∈ asked r;
}.

Context `{!EtcdLaws E}.

(** The transaction creates the record when the key is free and the lease
    lives. *)
Lemma create_spec x k v L :
  L ≠ 0 →
  create k v L x =
  if bool_decide (get k x = None)
  then match put k v L x with Some x' => (x', Some true) | None => (x, None) end else (x, Some false).
Proof.
  intros HL. unfold create. rewrite txn_effect. simpl. rewrite andb_true_r.
  assert (createRevision k x =? 0 = bool_decide (get k x = None)) as ->.
  { apply eq_true_iff_eq. rewrite Z.eqb_eq, bool_decide_eq_true. apply createRevision_zero. }
  destruct (bool_decide _); [|done]. by destruct (put k v L x).
Qed.

Lemma put_alive x k v L : L ≠ 0 → match put k v L x with Some _ => alive L x = true | None => alive L x = false end.
Proof.
  intros HL. pose proof (put_answer x k v L HL) as H. destruct (put k v L x); [by apply H|].
  destruct (alive L x); [|done]. destruct H as [_ H]. by destruct (H eq_refl).
Qed.

Lemma create_effect x k v L k' :
  L ≠ 0 →
  get k' (create k v L x).1 =
    if bool_decide (get k x = None) && alive L x && bool_decide (k' = k) then Some (v, L) else get k' x.
Proof.
  intros HL. rewrite (create_spec _ _ _ _ HL). pose proof (put_alive x k v L HL) as Ha.
  destruct (bool_decide (get k x = None)); [|done]. destruct (put k v L x) as [x'|] eqn:Ep; rewrite Ha; simpl; [|done].
  by apply put_get.
Qed.

Lemma create_answer x k v L :
  L ≠ 0 →
  (create k v L x).2 = match get k x with Some _ => Some false | None => if alive L x then Some true else None end.
Proof.
  intros HL. rewrite (create_spec _ _ _ _ HL). pose proof (put_alive x k v L HL) as Ha.
  destruct (get k x); [by rewrite bool_decide_false|]. rewrite bool_decide_true by done.
  destruct (put k v L x); by rewrite Ha.
Qed.

Lemma create_leases x k v L L' :
  alive L' (create k v L x).1 = alive L' x ∧ (issued L' (create k v L x).1 ↔ issued L' x).
Proof.
  unfold create. rewrite txn_effect. destruct (forallb _ _); [|done]. simpl.
  destruct (put k v L x) as [x'|] eqn:Ep; simpl; [|done]. by eapply put_leases.
Qed.

Lemma ok_grant s : dir_ok s → dir_ok (set_db (grant (d s)).1 s).
Proof.
  intros [D1 D2 D3 D4 D5 D6]. destruct (grant_new (d s)) as [Hnz Hni]. split; simpl; auto.
  - intros i r Hi. destruct (D1 _ _ Hi) as [R1 R2 R3 R4 R6 R5 R7]. split; auto.
    + intros L HL. destruct (R2 _ HL) as (H1 & H2 & H3). split; [by apply grant_issued; left|]. split; [done|].
      destruct H3 as [H3|[H3 H4]]; [by left|right]. split; [done|]. rewrite grant_alive, H4. simpl. apply Z.eqb_neq. by intros ->.
    + intros L Hc HL Ha. rewrite grant_get. apply R5; [done..|]. rewrite grant_alive in Ha.
      apply orb_true_iff in Ha as [|Ha]; [done|]. apply Z.eqb_eq in Ha. destruct (R2 _ HL) as [H1 _]. by rewrite Ha in H1.
  - intros k v L. rewrite grant_get. intros Hk. destruct (D2 _ _ _ Hk); [by left|right]. apply grant_issued. by left.
  - intros k v L i r. rewrite grant_get. intros Hk Hi HL. destruct (D3 _ _ _ _ _ Hk Hi HL) as [H1 H2]. split; [done|].
    by rewrite grant_alive, H2.
Qed.

Lemma ok_revoke s L : dir_ok s → dir_ok (set_db (revoke L (d s)).1 s).
Proof.
  intros [D1 D2 D3 D4 D5 D6]. split; simpl; auto.
  - intros i r Hi. destruct (D1 _ _ Hi) as [R1 R2 R3 R4 R6 R5 R7]. split; auto.
    + intros L' HL. destruct (R2 _ HL) as (H1 & H2 & H3). split; [by apply revoke_leases|]. split; [done|].
      destruct H3 as [H3|[H3 H4]]; [by left|right]. split; [done|]. destruct (revoke_leases (d s) L L') as [-> _]. by rewrite H4.
    + intros L' Hc HL Ha. destruct (revoke_leases (d s) L L') as [E' _]. rewrite E' in Ha. apply andb_true_iff in Ha as [Ha Hne].
      rewrite revoke_get, (R5 _ Hc HL Ha). apply negb_true_iff in Hne. by rewrite Hne.
  - intros k v L'. rewrite revoke_get. destruct (get k (d s)) as [[v0 L0]|] eqn:Hk; [|done].
    destruct (L0 =? L); [done|]. intros [= <- <-]. destruct (D2 _ _ _ Hk); [by left|right]. by apply revoke_leases.
  - intros k v L' i r. rewrite revoke_get. destruct (get k (d s)) as [[v0 L0]|] eqn:Hk; [|done].
    destruct (L0 =? L) eqn:E0; [done|]. intros [= <- <-] Hi HL. destruct (D3 _ _ _ _ _ Hk Hi HL) as [H1 H2]. split; [done|].
    destruct (revoke_leases (d s) L L0) as [-> _]. by rewrite H2, E0.
Qed.

Lemma ok_create s i r :
  dir_ok s → regs s !! i = Some r → granted r ≠ None → ∀ L, granted r = Some L →
  dir_ok (set_db (create (key r) (value r) L (d s)).1 s).
Proof.
  intros [D1 D2 D3 D4 D5 D6] Hi _ L HL.
  assert (Hnz : L ≠ 0) by (by destruct (ro_granted _ _ (D1 _ _ Hi) _ HL) as (_ & ? & _)).
  assert (Hget : ∀ k v L', get k (create (key r) (value r) L (d s)).1 = Some (v, L') →
            get k (d s) = Some (v, L') ∨ k = key r ∧ v = value r ∧ L' = L ∧ alive L (d s) = true).
  { intros k v L'. rewrite create_effect by done. destruct (bool_decide (get (key r) (d s) = None) && alive L (d s) && bool_decide (k = key r)) eqn:Eb;
      [|by left]. to_prop. intros [= <- <-]. by right. }
  assert (Hal : ∀ L', alive L' (create (key r) (value r) L (d s)).1 = alive L' (d s)) by (intros; apply create_leases).
  assert (His : ∀ L', issued L' (create (key r) (value r) L (d s)).1 ↔ issued L' (d s)) by (intros; apply create_leases).
  split; simpl; auto.
  - intros j x Hj. destruct (D1 _ _ Hj) as [R1 R2 R3 R4 R6 R5 R7]. split; auto.
    + intros L' HL'. rewrite Hal, His. auto.
    + intros L' Hc HL' Ha. rewrite Hal in Ha. specialize (R5 _ Hc HL' Ha). rewrite create_effect by done.
      destruct (bool_decide (get (key r) (d s) = None) && alive L (d s) && bool_decide (key x = key r)) eqn:Eb; [|done].
      to_prop. congruence.
  - intros k v L' Hk. rewrite His. destruct (Hget _ _ _ Hk) as [Hk'|(_ & _ & -> & Ha)]; [eauto|]. right. by apply alive_issued.
  - intros k v L' j x Hk Hj HL'. rewrite Hal. destruct (Hget _ _ _ Hk) as [Hk'|(-> & -> & -> & Ha)]; [eauto|].
    assert (j = i) as -> by eauto. simplify_eq. done.
Qed.

(** A registry moves without a new lease. *)
Lemma ok_set s i r r' :
  dir_ok s → regs s !! i = Some r → reg_ok (d s) r' → granted r' = granted r →
  (granted r ≠ None → key r' = key r ∧ value r' = value r) → (∀ why, why ∈ asked r → why ∈ asked r') →
  dir_ok (set_reg i r' s).
Proof.
  intros [D1 D2 D3 D4 D5 D6] Hi Hok Hg Hk Hask. split; simpl; auto.
  - intros j x Hj. destruct (decide (j = i)) as [->|Hne].
    + rewrite lookup_insert_eq in Hj. by simplify_eq.
    + rewrite lookup_insert_ne in Hj by done. eauto.
  - intros k v L j x Hx Hj HL. destruct (decide (j = i)) as [->|Hne].
    + rewrite lookup_insert_eq in Hj. simplify_eq. rewrite Hg in HL. destruct (D3 _ _ _ _ _ Hx Hi HL) as [(H1 & H2 & H3) H4].
      destruct Hk as [Hk1 Hk2]; [by rewrite HL|]. split; [|done]. split_and!; congruence.
    + rewrite lookup_insert_ne in Hj by done. eauto.
  - intros j j' x x' L Hj Hj' HL HL'.
    assert (∀ j x, <[i:=r']> (regs s) !! j = Some x → granted x = Some L → ∃ y, regs s !! j = Some y ∧ granted y = Some L) as Hback.
    { intros a y Ha Hy. destruct (decide (a = i)) as [->|Hne].
      - rewrite lookup_insert_eq in Ha. simplify_eq. exists r. split; [done|]. congruence.
      - rewrite lookup_insert_ne in Ha by done. eauto. }
    destruct (Hback _ _ Hj HL) as (y & ? & ?). destruct (Hback _ _ Hj' HL') as (y' & ? & ?). eauto.
  - intros k v L Hin. destruct (D5 _ _ _ Hin) as (j & x & Hj & Hx). destruct (decide (j = i)) as [->|Hne].
    + simplify_eq. exists i, r'. rewrite lookup_insert_eq. split; [done|]. destruct Hx as (H1 & H2 & H3).
      destruct Hk as [Hk1 Hk2]; [by rewrite H1|]. split; [congruence|]. split; congruence.
    + exists j, x. by rewrite lookup_insert_ne.
  - intros L Hin. destruct (D6 _ Hin) as (j & x & why & Hj & HL & Hw).
    destruct (decide (j = i)) as [->|Hne].
    + simplify_eq. exists i, r', why. rewrite lookup_insert_eq, Hg. auto.
    + exists j, x, why. by rewrite lookup_insert_ne.
Qed.

(** The lease [Grant] returned goes to a registry that has none. *)
Lemma ok_granted s i r d' L :
  dir_ok s → regs s !! i = Some r → op r = RGrant → grant (d s) = (d', L) →
  dir_ok (set_db d' (set_reg i (r <| leaseID := L |> <| granted := Some L |> <| op := RTxn |>) s)).
Proof.
  intros Hs Hi Ho Hg. pose proof (ok_grant s Hs) as [D1 D2 D3 D4 D5 D6]. destruct (grant_new (d s)) as [Hnz Hni].
  rewrite Hg in *. simpl in *. pose proof (grant_alive (d s) L) as Ha. pose proof (grant_issued (d s) L) as His. pose proof (grant_get (d s)) as Hget.
  rewrite Hg in *. simpl in *.
  assert (Hold : ∀ j x, regs s !! j = Some x → granted x ≠ Some L).
  { intros j x Hj Hx. destruct (do_reg _ Hs _ _ Hj) as [_ R2 _ _ _ _ _]. by destruct (R2 _ Hx). }
  assert (Hkeys : ∀ k v, get k d' ≠ Some (v, L)).
  { intros k v Hk. rewrite Hget in Hk. by destruct (do_attached _ Hs _ _ _ Hk). }
  destruct (D1 _ _ Hi) as [R1 R2 R3 R4 R6 R5 R7]. destruct (R3 (or_intror Ho)) as [Hn Hc].
  split; simpl; auto.
  - intros j x Hj. destruct (decide (j = i)) as [->|Hne].
    + rewrite lookup_insert_eq in Hj. simplify_eq. split; simpl; try done.
      * intros L' [= <-]. split; [by apply His; right|]. split; [done|by left].
      * intros [Hatt|]; [|done]. assert (attempted r = true) by (apply R6; by rewrite Ho). congruence.
      * intros _. apply R6. by rewrite Ho.
      * intros L' Hc'. congruence.
      * destruct R7 as [G1 G2 G3]. split; simpl; auto; [|done]. intros _. apply G1. right. by rewrite Ho.
    + rewrite lookup_insert_ne in Hj by done. eauto.
  - intros k v L' j x Hk Hj HL'. destruct (decide (j = i)) as [->|Hne].
    + rewrite lookup_insert_eq in Hj. simplify_eq/=. by apply Hkeys in Hk.
    + rewrite lookup_insert_ne in Hj by done. eauto.
  - intros j j' x x' L' Hj Hj' HL HL'. destruct (decide (j = i)) as [->|Hne], (decide (j' = i)) as [->|Hne']; [done|..];
      rewrite ?lookup_insert_eq, ?lookup_insert_ne in Hj by done; rewrite ?lookup_insert_eq, ?lookup_insert_ne in Hj' by done; simplify_eq/=.
    + by eapply Hold in HL'.
    + by eapply Hold in HL.
    + eauto.
  - intros k v L' Hin. destruct (D5 _ _ _ Hin) as (j & x & Hj & Hx). destruct (decide (j = i)) as [->|Hne].
    + simplify_eq. destruct Hx as (H1 & _). congruence.
    + exists j, x. by rewrite lookup_insert_ne.
  - intros L' Hin. destruct (D6 _ Hin) as (j & x & why & Hj & HL & Hw).
    destruct (decide (j = i)) as [->|Hne]; [congruence|]. exists j, x, why. by rewrite lookup_insert_ne.
Qed.

(** What a registry keeps when it only goes on to its next statement. *)
Definition kept (r : Registry) :=
  (namespace r, granted r, leaseID r, attempted r, created r, key r, value r).

Lemma reg_move x r r' :
  reg_ok x r → kept r' = kept r → op r' ≠ RGrant ∨ op r' = op r → (leased (op r') = true → leaseID r ≠ 0) →
  (op r' ≠ Idle → attempted r = true) → log_ok r' → reg_ok x r'.
Proof.
  intros [R1 R2 R3 R4 R6 R5 R7] Eq Hg Ht Hb Hl. injection Eq as E0 E1 E2 E3 E4 E5 E6.
  split; rewrite ?E1, ?E2, ?E3, ?E4, ?E5, ?E6; auto. intros [H|H]; [auto|]. destruct Hg as [Hg|Hg]; [done|].
  apply R3. right. congruence.
Qed.

Lemma ok_move s i r r' :
  dir_ok s → regs s !! i = Some r → kept r' = kept r → op r' ≠ RGrant ∨ op r' = op r →
  (leased (op r') = true → leaseID r ≠ 0) → (op r' ≠ Idle → attempted r = true) → log_ok r' →
  (∀ why, why ∈ asked r → why ∈ asked r') → dir_ok (set_reg i r' s).
Proof.
  intros Hs Hi Eq Hg Ht Hb Hl Ha. pose proof (do_reg _ Hs _ _ Hi) as Hr. pose proof Eq as Eq'.
  injection Eq' as E0 E1 E2 E3 E4 E5 E6. apply (ok_set s i r); [done..| |done|done|done]. by apply (reg_move _ r).
Qed.

(** Between two statements, on a return, and into a [revoke]. *)
Lemma log_next r r' :
  log_ok r → (namespace r', attempted r', key r') = (namespace r, attempted r, key r) → asked r' = asked r → registered r' = registered r →
  (registering (op r') = true → registering (op r) = true) →
  (∀ why w, op r' = Revoking why w → ∃ w', op r = Revoking why w') → log_ok r'.
Proof.
  intros [G1 G2 G3] Eq Ea Er Hg Hv. injection Eq as E0 E3 E5. split.
  - rewrite E3, Ea, Er. intros [H|H]; auto.
  - intros why. rewrite Ea. intros Hw. specialize (G2 why Hw). destruct why; simpl in *; congruence.
  - intros why w Ho. rewrite Ea. destruct (Hv _ _ Ho) as [w' Ho']. eauto.
Qed.

Lemma dir_finish s i r err : dir_ok s → regs s !! i = Some r → dir_ok (set_reg i (finish err r) s).
Proof.
  intros Hs Hi. apply (ok_move s i r); simpl; auto; try done.
  apply (log_next r); try done. by apply (do_reg _ Hs i).
Qed.

Lemma dir_begin s i r why :
  dir_ok s → regs s !! i = Some r → attempted r = true → leaseID r ≠ 0 → entitled r why →
  dir_ok (set_reg i (begin_revoke why r) s).
Proof.
  intros Hs Hi Ha HL Hent. destruct (ro_log _ _ (do_reg _ Hs _ _ Hi)) as [G1 G2 G3].
  apply (ok_move s i r); simpl; [done..|by left|done|done| |set_solver]. split; simpl.
  - intros [|]; congruence.
  - intros w [Hw|Hw%list_elem_of_singleton]%elem_of_app; [by specialize (G2 w Hw); destruct w|]. subst. by destruct why.
  - intros w b [= <- _]. set_solver.
Qed.

Lemma ok_fail s i r err :
  dir_ok s → regs s !! i = Some r → registering (op r) && leased (op r) = true → dir_ok (set_reg i (fail err r) s).
Proof.
  intros Hs Hi [Ho Hl]%andb_true_iff. pose proof (do_reg _ Hs _ _ Hi) as Hr. apply dir_begin; [done..| | |].
  - apply (ro_busy _ _ Hr). by destruct (op r).
  - by apply (ro_op _ _ Hr).
  - simpl. apply (ro_log _ _ Hr). by right.
Qed.

(** A request that is given up. *)
Lemma dir_abandon s f :
  dir_ok s →
  match f with
  | FCreate k v L => ∃ i r, regs s !! i = Some r ∧ owns r k v L
  | FRevoke L => ∃ i r why, regs s !! i = Some r ∧ granted r = Some L ∧ why ∈ asked r
  end → dir_ok (abandon f s).
Proof.
  intros [D1 D2 D3 D4 D5 D6] Hf. split; simpl; auto.
  - intros k v L [Hin|Hin%list_elem_of_singleton]%elem_of_app; [eauto|]. by subst.
  - intros L [Hin|Hin%list_elem_of_singleton]%elem_of_app; [eauto|]. by subst.
Qed.

Lemma ok_register s i r service encoded :
  dir_ok s → regs s !! i = Some r → dir_ok (set_reg i (Register_enter service encoded r) s).
Proof.
  intros Hs Hi. pose proof (do_reg _ Hs _ _ Hi) as [R1 R2 R3 R4 R6 R5 R7].
  assert (Hfin : ∀ err, dir_ok (set_reg i (finish err r) s)) by (intros; by apply dir_finish).
  unfold Register_enter. destruct (attempted r) eqn:Ha; [apply Hfin|]. destruct service as [[name id]|]; [|apply Hfin].
  destruct (bool_decide (name = EmptyString) || bool_decide (id = EmptyString)); [apply Hfin|].
  destruct encoded as [v|err]; [|apply Hfin]. destruct (R3 (or_introl eq_refl)) as [Hn Hc].
  destruct R7 as [G1 G2 G3]. destruct (G1 (or_introl Ha)) as [Has Hrg].
  apply (ok_set s i r); [done..| |done|by rewrite Hn|done]. split; simpl; try done; rewrite ?Hn; try done.
  split; simpl; rewrite ?Has, ?Hrg; try done. set_solver.
Qed.

Lemma ok_deregister s i r service :
  dir_ok s → regs s !! i = Some r → dir_ok (set_reg i (Deregister_enter service r) s).
Proof.
  intros Hs Hi. pose proof (do_reg _ Hs _ _ Hi) as [R1 R2 R3 R4 R6 R5 R7]. unfold Deregister_enter.
  destruct (leaseID r =? 0) eqn:Ez; [by apply dir_finish|]. destruct service as [[name id]|]; [|by apply dir_finish].
  case_bool_decide as Hk; [|by apply dir_finish]. apply dir_begin; [done..| |by apply Z.eqb_neq|done].
  destruct (attempted r) eqn:Ha; [done|]. destruct (R3 (or_introl eq_refl)) as [Hn _].
  apply Z.eqb_neq, R1 in Ez. congruence.
Qed.

(** The transaction of [Register], answered or not. *)
Lemma ok_txn s i r d' ok :
  dir_ok s → regs s !! i = Some r → op r = RTxn → create (key r) (value r) (leaseID r) (d s) = (d', ok) →
  dir_ok (set_db d' s) ∧ (ok = Some true → dir_ok (set_db d' (set_reg i (r <| created := true |> <| op := RSession |>) s))).
Proof.
  intros Hs Hi Ho Hc. pose proof (do_reg _ Hs _ _ Hi) as [R1 R2 R3 R4 R6 R5 R7]. assert (Hnz : leaseID r ≠ 0) by (apply R4; by rewrite Ho). pose proof (R1 Hnz) as HL.
  pose proof (ok_create s i r Hs Hi ltac:(by rewrite HL) _ HL) as Hs'. rewrite Hc in Hs'. simpl in Hs'.
  split; [done|]. intros ->. pose proof (do_reg _ Hs' _ _ Hi) as [Q1 Q2 Q3 Q4 Q6 Q5 Q7].
  apply (ok_set (set_db d' s) i r); [done..| |done|done|done]. split; simpl; auto; try done.
  - intros [Hf|]; [|done]. assert (attempted r = true) by (apply R6; by rewrite Ho). congruence.
  - intros _. apply R6. by rewrite Ho.
  - intros L _ HL' _. simplify_eq. pose proof (create_answer (d s) (key r) (value r) (leaseID r) Hnz) as Hans.
    pose proof (create_effect (d s) (key r) (value r) (leaseID r) (key r) Hnz) as Heff. rewrite Hc in *. simpl in *.
    destruct (get (key r) (d s)) eqn:Eg; [done|]. destruct (alive (leaseID r) (d s)); [|done]. rewrite Heff.
    rewrite !bool_decide_true by done. simpl. by repeat f_equal.
  - apply (log_next r); [done..| |done]. intros _. by rewrite Ho.
Qed.

(** [Revoke] took effect and its reply arrived. *)
Lemma ok_revoked s i r why d' found :
  dir_ok s → regs s !! i = Some r → op r = Revoking why true → revoke (leaseID r) (d s) = (d', found) →
  dir_ok (set_db d' (set_reg i (revoked why None (r <| leaseID := 0 |>)) s)).
Proof.
  intros Hs Hi Ho Hv. pose proof (ok_revoke s (leaseID r) Hs) as Hs'. rewrite Hv in Hs'. simpl in Hs'.
  pose proof (do_reg _ Hs' _ _ Hi) as [Q1 Q2 Q3 Q4 Q6 Q5 Q7].
  apply (ok_set (set_db d' s) i r); [done..| |done|done|done]. split; simpl; auto; try done.
  - intros L HL. destruct (Q2 _ HL) as (H1 & H2 & H3). split; [done|]. split; [done|]. right. split; [done|].
    destruct H3 as [H3|[_ H3]]; [|done]. pose proof (revoke_leases (d s) (leaseID r) L) as [Ha _]. rewrite Hv in Ha. simpl in Ha.
    rewrite Ha, H3, Z.eqb_refl. by rewrite andb_false_r.
  - intros [H|H]; [auto|done].
  - destruct Q7 as [G1 G2 G3]. split; simpl; auto; try done. intros [H|H]; [auto|done].
Qed.

Lemma dir_reg s i r s' : dir_ok s → regs s !! i = Some r → reg_step s i r s' → dir_ok s'.
Proof.
  intros Hs Hi Hst. pose proof (do_reg _ Hs _ _ Hi) as Hr. pose proof Hr as [R1 R2 R3 R4 R6 R5 R7].
  assert (Hfin : ∀ err, dir_ok (set_reg i (finish err r) s)) by (intros; by apply dir_finish).
  destruct Hst as [err|service enc Ho|d' L Ho _ Hg|e Ho|e Ho|d' ok e Ho _ Hc|e Ho|d' ok e Ho Hc|Ho|e Ho|Ho|Ho|e Ho
    |service Ho|Hse|why Ho _|why e Ho|why d' found Ho _ Hv|why e Ho|why d' found e Ho Hv|err].
  - apply (ok_move s i r); simpl; auto. by apply (log_next r); simpl; eauto.
  - by apply ok_register.
  - by eapply ok_granted.
  - apply Hfin.
  - apply (ok_grant (set_reg i (finish (Some (grantErr e)) r) s)), Hfin.
  - destruct (ok_txn s i r d' ok Hs Hi Ho Hc) as [Hs' Ht]. destruct ok as [[]|]; [auto|..];
      apply (ok_fail (set_db d' s)); simpl; rewrite ?Ho; done.
  - apply dir_abandon; [apply ok_fail; by rewrite ?Ho|]. exists i, (fail (txnErr e) r). simpl.
    rewrite lookup_insert_eq. split; [done|]. split; [simpl; apply R1, R4; by rewrite Ho|done].
  - destruct (ok_txn s i r d' ok Hs Hi Ho Hc) as [Hs' _]. apply (ok_fail (set_db d' s)); simpl; rewrite ?Ho; done.
  - apply (ok_move s i r); simpl; auto; try done; [intros; apply R4; by rewrite Ho|intros; apply R6; congruence|].
    apply (log_next r); [done..| |done]. intros _. by rewrite Ho.
  - apply ok_fail; by rewrite ?Ho.
  - apply ok_fail; by rewrite ?Ho.
  - apply (ok_move s i r); simpl; auto; try done. destruct R7 as [G1 G2 G3].
    destruct G1 as [G1 _]; [right; by rewrite Ho|]. split; simpl; rewrite ?G1; try done; [|set_solver].
    intros [Hf|]; [|done]. assert (attempted r = true) by (apply R6; by rewrite Ho). congruence.
  - apply ok_fail; by rewrite ?Ho.
  - by apply ok_deregister.
  - apply (ok_move s i r); simpl; auto. by apply (log_next r); simpl; eauto.
  - apply (ok_move s i r); simpl; auto; try done; [intros; apply R4; by rewrite Ho|intros; apply R6; congruence|].
    apply (log_next r); [done..|]. intros w b [= <- _]. eauto.
  - apply Hfin.
  - by eapply ok_revoked.
  - apply dir_abandon; [apply Hfin|]. 
    exists i, (revoked why (Some (revokeErr e)) r), why. simpl. rewrite lookup_insert_eq. split; [done|].
    split; [apply R1, R4; by rewrite Ho|]. destruct R7 as [_ _ G3]. eauto.
  - pose proof (ok_revoke s (leaseID r) Hs) as Hs'. rewrite Hv in Hs'. by apply (dir_finish (set_db d' s)).
  - apply (ok_move s i r); simpl; auto. by apply (log_next r); simpl; eauto.
Qed.

Lemma ok_landed s f l1 l2 :
  dir_ok s → flying s = l1 ++ f :: l2 → dir_ok (s <| flying := l1 ++ l2 |>).
Proof.
  intros [D1 D2 D3 D4 D5 D6] Hf. rewrite Hf in *. split; simpl; auto; intros; [apply D5|apply D6]; set_solver.
Qed.

Lemma dir_world s s' : dir_ok s → world_step s s' → dir_ok s'.
Proof.
  intros Hs Hst. destruct Hst as [i ns Hi| |L|k v L l1 l2 Hf|L l1 l2 Hf].
  - destruct Hs as [D1 D2 D3 D4 D5 D6]. assert (Hnew : ∀ j x L, <[i:=newRegistry ns]> (regs s) !! j = Some x → granted x = Some L → regs s !! j = Some x).
    { intros j x L Hj HL. destruct (decide (j = i)) as [->|Hne]; [rewrite lookup_insert_eq in Hj; by simplify_eq/=|by rewrite lookup_insert_ne in Hj]. }
    split; simpl; auto.
    + intros j x Hj. destruct (decide (j = i)) as [->|Hne].
      * rewrite lookup_insert_eq in Hj. simplify_eq. split; try done. split; simpl; try done. set_solver.
      * rewrite lookup_insert_ne in Hj by done. eauto.
    + intros k v L j x Hk Hj HL. eauto.
    + intros j j' x x' L Hj Hj' HL HL'. eauto.
    + intros k v L Hin. destruct (D5 _ _ _ Hin) as (j & x & Hj & Hx). exists j, x. rewrite lookup_insert_ne; [done|]. congruence.
    + intros L Hin. destruct (D6 _ Hin) as (j & x & why & Hj & Hx). exists j, x, why.
      rewrite lookup_insert_ne; [done|]. congruence.
  - by apply ok_grant.
  - by apply ok_revoke.
  - apply (ok_landed _ (FCreate k v L)); [|done]. destruct (do_create _ Hs k v L) as (i & r & Hi & HL & <- & <-);
      [rewrite Hf; set_solver|]. eapply ok_create; [done..| |done]. by rewrite HL.
  - apply (ok_landed _ (FRevoke L)); [by apply ok_revoke|done].
Qed.

Lemma dir_inv s : dir_reach s → dir_ok s.
Proof.
  revert s. apply (invariant_reachable init_sys step dir_ok).
  - intros s (d0 & Hd & ->). split; simpl; try done; set_solver.
  - intros s s' _ Hs [i r t Hi Ht|t Ht]; [by eapply dir_reg|by eapply dir_world].
Qed.

(** ** Theorems *)

(** C26: a record under a lease of a registry is the one it registers, under
    its own key; the registry still holds that lease, so it can revoke it;
    and no other registry does. *)
Theorem registry_records_owned s k v L i r :
  dir_reach s → get k (d s) = Some (v, L) → regs s !! i = Some r → granted r = Some L →
  k = key r ∧ v = value r ∧ leaseID r = L ∧ L ≠ 0 ∧ ∀ j r', regs s !! j = Some r' → leaseID r' = L → j = i.
Proof.
  intros Hr Hk Hi HL. pose proof (dir_inv _ Hr) as Hs. destruct (do_owned _ Hs _ _ _ _ _ Hk Hi HL) as [(_ & <- & <-) Ha].
  destruct (do_reg _ Hs _ _ Hi) as [R1 R2 _ _ _ _ _]. destruct (R2 _ HL) as (_ & Hnz & [H3|[_ H3]]); [|congruence].
  split_and!; try done. intros j r' Hj Hr'. destruct (do_reg _ Hs _ _ Hj) as [Q1 _ _ _ _ _ _].
  eapply (do_unique _ Hs); [done..| |done]. rewrite <-Hr'. apply Q1. congruence.
Qed.

(** A transaction never touches a record that is there; a revocation removes
    it only with its own lease. *)
Lemma create_keeps x k v L k' v' L' :
  L' ≠ 0 → get k x = Some (v, L) → get k (create k' v' L' x).1 = Some (v, L).
Proof.
  intros HL Hk. rewrite create_effect by done.
  destruct (bool_decide (get k' x = None) && alive L' x && bool_decide (k = k')) eqn:Eb; [|done]. to_prop. congruence.
Qed.

Lemma revoke_keeps x k v L L' :
  get k x = Some (v, L) → get k (revoke L' x).1 = Some (v, L) ∨ get k (revoke L' x).1 = None ∧ L' = L.
Proof. intros Hk. rewrite revoke_get, Hk. destruct (Z.eqb_spec L L'); [by right|by left]. Qed.

(** The registry that has a lease and revokes it, or asked for it, owns what
    is under it. *)
Lemma revoker_owns s i r k v L why :
  dir_ok s → regs s !! i = Some r → get k (d s) = Some (v, L) → granted r = Some L → why ∈ asked r →
  owns r k v L ∧ entitled r why.
Proof.
  intros Hs Hi Hk HL Hw. destruct (do_owned _ Hs _ _ _ _ _ Hk Hi HL) as [Ho _]. split; [done|].
  apply (lo_entitled _ (ro_log _ _ (do_reg _ Hs _ _ Hi)) _ Hw).
Qed.

Lemma reg_respects s i r s' k v L :
  dir_ok s → regs s !! i = Some r → reg_step s i r s' → get k (d s) = Some (v, L) →
  get k (d s') = Some (v, L) ∨ get k (d s') = None ∧ ∃ why, granted r = Some L ∧ why ∈ asked r.
Proof.
  intros Hs Hi Ht Hk. destruct (do_reg _ Hs _ _ Hi) as [R1 _ _ R4 _ _ [_ _ G3]].
  assert (Hcr : ∀ d' ok, op r = RTxn → create (key r) (value r) (leaseID r) (d s) = (d', ok) → get k d' = Some (v, L)).
  { intros d' ok Ho Hc. pose proof (create_keeps _ _ _ _ (key r) (value r) (leaseID r) (R4 ltac:(by rewrite Ho)) Hk) as H.
    by rewrite Hc in H. }
  assert (Hrv : ∀ why d' found, op r = Revoking why true → revoke (leaseID r) (d s) = (d', found) →
            get k d' = Some (v, L) ∨ get k d' = None ∧ ∃ why, granted r = Some L ∧ why ∈ asked r).
  { intros why d' found Ho Hv. pose proof (revoke_keeps _ _ _ _ (leaseID r) Hk) as H. rewrite Hv in H.
    destruct H as [H|[H HL]]; [by left|right]. split; [done|]. exists why. split; [|eauto].
    rewrite <-HL. apply R1, R4. by rewrite Ho. }
  destruct Ht as [err|service enc Ho|d' L' Ho _ Hg|e Ho|e Ho|d' ok e Ho _ Hc|e Ho|d' ok e Ho Hc|Ho|e Ho|Ho|Ho|e Ho
    |service Ho|Hse|why Ho _|why e Ho|why d' found Ho _ Hv|why e Ho|why d' found e Ho Hv|err];
    simpl; try (by left); try (left; rewrite grant_get; done); try (left; by eapply Hcr); try (by eapply Hrv).
  left. rewrite <-Hk, <-(grant_get (d s)). by rewrite Hg.
Qed.

Lemma world_respects s s' k v L :
  dir_ok s → world_step s s' → get k (d s) = Some (v, L) →
  get k (d s') = Some (v, L) ∨
  get k (d s') = None ∧
  (s' = set_db (revoke L (d s)).1 s ∨
   ∃ i r why, regs s !! i = Some r ∧ owns r k v L ∧ why ∈ asked r ∧
     match why with
     | Deregistered name id => k = key_of (namespace r) name id
     | RegisterFailed _ => registered r = false
     end).
Proof.
  intros Hs Ht Hk. destruct Ht as [i ns Hi| |L'|k' v' L' l1 l2 Hf|L' l1 l2 Hf]; simpl.
  - by left.
  - left. by rewrite grant_get.
  - destruct (revoke_keeps _ _ _ _ L' Hk) as [H|[H ->]]; [by left|right]. auto.
  - left. apply create_keeps; [|done]. destruct (do_create _ Hs k' v' L') as (i & r & Hi & HL & _); [rewrite Hf; set_solver|].
    by destruct (ro_granted _ _ (do_reg _ Hs _ _ Hi) _ HL) as (_ & ? & _).
  - destruct (revoke_keeps _ _ _ _ L' Hk) as [H|[H ->]]; [by left|right]. split; [done|right].
    destruct (do_revoke _ Hs L) as (i & r & why & Hi & HL & Hw); [rewrite Hf; set_solver|].
    destruct (revoker_owns _ _ _ _ _ _ _ Hs Hi Hk HL Hw) as [Ho He]. exists i, r, why. split_and!; try done.
    destruct Ho as (_ & <- & _). by destruct why.
Qed.

(** C27: a step never changes a record, and one that removes it is the server
    ending its lease, which touches no registry, or a revocation, at once or late, that the
    registry owning the record asked for: because it was told to deregister
    the service and ID of exactly this key, or because its own Register, which
    has not returned nil and never will, failed. *)
Theorem registry_respects_others s s' k v L :
  dir_reach s → step s s' → get k (d s) = Some (v, L) →
  get k (d s') = Some (v, L) ∨
  get k (d s') = None ∧
  (s' = set_db (revoke L (d s)).1 s ∨
   ∃ i r why, regs s !! i = Some r ∧ owns r k v L ∧ why ∈ asked r ∧
     match why with
     | Deregistered name id => k = key_of (namespace r) name id
     | RegisterFailed _ => registered r = false
     end).
Proof.
  intros Hr Hst Hk. pose proof (dir_inv _ Hr) as Hs.
  destruct Hst as [i r t Hi Ht|t Ht]; [|by eapply world_respects].
  destruct (reg_respects _ _ _ _ _ _ _ Hs Hi Ht Hk) as [H|(H & why & HL & Hw)]; [by left|right].
  split; [done|right]. destruct (revoker_owns _ _ _ _ _ _ _ Hs Hi Hk HL Hw) as [Ho He].
  exists i, r, why. split_and!; try done. destruct Ho as (_ & <- & _). by destruct why.
Qed.

(** Once its transaction has succeeded, the record of a registry is in
    the directory for as long as its lease lives, and a registry that holds
    no lease has no record. *)
Theorem registry_record_lives s i r L :
  dir_reach s → regs s !! i = Some r → granted r = Some L →
  (created r = true → alive L (d s) = true → get (key r) (d s) = Some (value r, L)) ∧
  (leaseID r = 0 → ∀ k v, get k (d s) ≠ Some (v, L)).
Proof.
  intros Hr Hi HL. pose proof (dir_inv _ Hr) as Hs. destruct (do_reg _ Hs _ _ Hi) as [R1 R2 R3 R4 R6 R5 R7]. split; [eauto|].
  intros Hz k v Hk. destruct (do_owned _ Hs _ _ _ _ _ Hk Hi HL) as [_ Ha]. destruct (R2 _ HL) as (_ & Hnz & [H3|[_ H3]]); congruence.
Qed.
End Directory.

(** The options of a registry resolve exactly to settings with an
    address, a rooted prefix and a positive timeout; a node directory is one
    whose prefix was extended. *)
Theorem registry_options_exact opts c :
  New None opts = Ok c ↔
  c = apply_all opts registry_defaults ∧ endpoints c ≠ [] ∧ has_prefix "/" (prefix c) = true ∧ 0 < dialTimeout c.
Proof.
  unfold New. set (x := apply_all opts registry_defaults). clearbody x.
  destruct (guards _) as [err|] eqn:Hg.
  - split; [done|]. intros (-> & He & Hp & Ht). exfalso.
    assert (guards [(bool_decide (endpoints x = []), EText "etcd: endpoints are empty");
              (bool_decide (prefix x = EmptyString) || negb (has_prefix "/" (prefix x)), EText "etcd: prefix must start with '/'");
              (dialTimeout x <=? 0, EText "etcd: dial timeout must be positive")] = None) as Hn; [|congruence].
    apply guards_none. repeat constructor; cbn [fst].
    + by apply bool_decide_eq_false.
    + rewrite Hp, orb_false_r. apply bool_decide_eq_false. intros E. by rewrite E in Hp.
    + lia.
  - apply guards_none in Hg. rewrite !Forall_cons in Hg. cbn [fst] in Hg. destruct Hg as (He & Hp & Ht & _). to_prop.
    split; [intros [= <-]; split_and!; try done; lia|]. by intros (-> & _).
Qed.

Module RegistryExample.
Import MapEtcd.
Abbreviation Reach := (dir_reach (E := map_etcd)).

Ltac take H tac :=
  let H' := fresh in
  lazymatch type of H with
  | Reach ?s =>
      eassert (H' : step s _) by (tac; vm_compute; reflexivity);
      apply (reach_step _ _ _ _ H) in H'; clear H;
      lazymatch type of H' with
      | reachable _ _ ?t => let t' := eval vm_compute in t in assert (H : Reach t') by exact H'
      end; clear H'
  end.

(** A registry registers "a/1". *)
Ltac run_registered H :=
  assert (H : Reach (mkSys (E := map_etcd) (mkStore ∅ ∅ 0) ∅ []))
    by (apply reach_init; exists (mkStore ∅ ∅ 0); split; [intros k v L; done|reflexivity]);
  take H ltac:(apply s_world, (e_new _ 0 "/ns"));
  take H ltac:(eapply (s_reg _ 0); [|apply (r_register _ _ _ (Some ("a", "1")) (Ok "v"))]);
  take H ltac:(eapply (s_reg _ 0); [|eapply r_granted]);
  take H ltac:(eapply (s_reg _ 0); [|eapply (r_txn _ _ _ _ (Some true) (EText "e"))]);
  take H ltac:(eapply (s_reg _ 0); [|apply r_session]);
  take H ltac:(eapply (s_reg _ 0); [|apply r_registered]).

Lemma reach_registered :
  ∃ s r, Reach s ∧ regs s !! 0%nat = Some r ∧ granted r = Some 1 ∧ created r = true ∧ get "/ns/a/1" (d s) = Some ("v", 1) ∧ alive 1 (d s) = true.
Proof. run_registered H. eexists _, _. split; [exact H|]. split; [vm_compute; reflexivity|]. repeat split. Qed.

Lemma registry_records_owned_witness : ∃ s r, Reach s ∧ key r = "/ns/a/1" ∧ leaseID r = 1.
Proof.
  destruct reach_registered as (s & r & H & Hi & HL & _ & Hg & _). exists s, r. split; [exact H|].
  destruct (registry_records_owned s _ _ _ _ _ H Hg Hi HL) as (Hk & _ & Hl & _). by split.
Defined.

Lemma registry_record_lives_witness : ∃ s r, Reach s ∧ get (key r) (d s) = Some (value r, 1).
Proof.
  destruct reach_registered as (s & r & H & Hi & HL & Hc & _ & Ha). exists s, r. split; [exact H|].
  exact (proj1 (registry_record_lives s _ _ _ H Hi HL) Hc Ha).
Defined.

(** It is told to deregister "a/1", its session ends and it is about to send
    the revocation. *)
Lemma reach_revoking :
  ∃ s s', Reach s ∧ step s s' ∧ get "/ns/a/1" (d s) = Some ("v", 1) ∧ get "/ns/a/1" (d s') = None.
Proof.
  run_registered H.
  take H ltac:(eapply (s_reg _ 0); [|apply (r_deregister _ _ _ (Some ("a", "1")))]);
  take H ltac:(eapply (s_reg _ 0); [|apply r_done]);
  take H ltac:(eapply (s_reg _ 0); [|eapply v_waited]).
  eexists _, _. split; [exact H|]. split.
  - eapply (s_reg _ 0); [vm_compute; reflexivity|]. by eapply v_revoked; vm_compute.
  - by split.
Qed.

Lemma registry_respects_others_witness :
  ∃ s s', Reach s ∧ step s s' ∧ get "/ns/a/1" (d s') = None ∧
    (s' = set_db (revoke 1 (d s)).1 s ∨
     ∃ i r why, regs s !! i = Some r ∧ owns r "/ns/a/1" "v" 1 ∧ why ∈ asked r ∧
       match why with
       | Deregistered name id => "/ns/a/1" = key_of (namespace r) name id
       | RegisterFailed _ => registered r = false
       end).
Proof.
  destruct reach_revoking as (s & s' & H & Hst & Hk & Hn). exists s, s'. split; [exact H|]. split; [exact Hst|].
  destruct (registry_respects_others s s' _ _ _ H Hst Hk) as [Hx|Hx]; [congruence|exact Hx].
Defined.
End RegistryExample.
