(* ===== verification/Host.v ===== *)
(** * The address a server publishes

    [network/internal/host/host.go]: [Extract] takes the host it advertises
    from the setting, from the listening address or from the interfaces of
    the machine, and the port from the listener.  The interfaces and the
    address of the listener are arguments.  Proved: what is published names a
    host, never an unspecified address, and splits again into that host and
    that port; and the interface chosen is the usable one of least index. *)

From Stdlib Require Import Strings.Ascii Strings.String.
From stdpp Require Import pretty.
From S2P Require Import Prelude Errors Locate Endpoint ClientOptions Event.

Local Open Scope string_scope.
Local Open Scope list_scope.
Local Open Scope Z_scope.

(** ** net.IP, as the bytes of the slice *)

(** [ip.To4()] *)
Definition ip_to4 (ip : list Z) : option (list Z) :=
  if (length ip =? 4)%nat then Some ip else if (length ip =? 16)%nat then To4 ip else None.

Definition ip_equal (a b : list Z) : bool :=
  match ip_to4 a, ip_to4 b with
  | Some x, Some y => bool_decide (x = y)
  | None, None => bool_decide (a = b)
  | _, _ => false
  end.

Definition IPv4zero : list Z := [0; 0; 0; 0].
Definition IPv4bcast : list Z := [255; 255; 255; 255].
Definition IPv6unspecified : list Z := replicate 16 0.
Definition IPv6loopback : list Z := replicate 15 0 ++ [1].

Definition IsUnspecified (ip : list Z) : bool := ip_equal ip IPv4zero || ip_equal ip IPv6unspecified.

Definition nth0 (n : nat) (ip : list Z) : Z := default 0 (ip !! n).

Definition ip_loopback (ip : list Z) : bool :=
  match ip_to4 ip with Some ip4 => nth0 0 ip4 =? 127 | None => ip_equal ip IPv6loopback end.
Definition ip_multicast (ip : list Z) : bool :=
  match ip_to4 ip with
  | Some ip4 => Z.land (nth0 0 ip4) 240 =? 224
  | None => (length ip =? 16)%nat && (nth0 0 ip =? 255)
  end.
Definition ip_link_local (ip : list Z) : bool :=
  match ip_to4 ip with
  | Some ip4 => (nth0 0 ip4 =? 169) && (nth0 1 ip4 =? 254)
  | None => (length ip =? 16)%nat && (nth0 0 ip =? 254) && (Z.land (nth0 1 ip) 192 =? 128)
  end.

Definition IsGlobalUnicast (ip : list Z) : bool :=
  ((length ip =? 4) || (length ip =? 16))%nat && negb (ip_equal ip IPv4bcast) && negb (IsUnspecified ip) &&
  negb (ip_loopback ip) && negb (ip_multicast ip) && negb (ip_link_local ip).

(** [ip.String()] of four or sixteen bytes. *)
Definition hex_digit (n : Z) : ascii := ascii_of_N (Z.to_N (if n <? 10 then 48 + n else 87 + n)).

Definition hex_string (n : Z) : string :=
  let d k := Z.land (Z.shiftr n k) 15 in
  let digits := [d 12; d 8; d 4; d 0] in
  let fix go l := match l with
                  | [] => EmptyString
                  | [x] => String (hex_digit x) EmptyString
                  | x :: l => if x =? 0 then go l else String (hex_digit x) (String.string_of_list_ascii (hex_digit <$> l))
                  end in go digits.

Fixpoint groups (ip : list Z) : list Z :=
  match ip with a :: b :: ip => 256 * a + b :: groups ip | _ => [] end.

Fixpoint zeros (l : list Z) : nat := match l with 0 :: l => S (zeros l) | _ => O end.

(** The first longest run of at least two zero groups: its start and end. *)
Fixpoint zero_run (i : nat) (l : list Z) (best : nat * nat) : nat * nat :=
  match l with
  | [] => best
  | _ :: l' =>
      let n := zeros l in
      zero_run (S i) l' (if (2 <=? n)%nat && (best.2 - best.1 <? n)%nat then (i, (i + n)%nat) else best)
  end.

Fixpoint print_groups (i : nat) (run : nat * nat) (l : list Z) : string :=
  match l with
  | [] => EmptyString
  | g :: l =>
      if (run.1 <? run.2)%nat && (i =? run.1)%nat then "::" +:+ print_groups (S i) run l
      else if (run.1 <? i)%nat && (i <? run.2)%nat then print_groups (S i) run l
      else (if (0 <? i)%nat && negb ((run.1 <? run.2)%nat && (i =? run.2)%nat) then ":" else EmptyString) +:+
           hex_string g +:+ print_groups (S i) run l
  end.

Definition ip_string (ip : list Z) : string :=
  match ip_to4 ip with
  | Some [a; b; c; e] => pretty a +:+ "." +:+ pretty b +:+ "." +:+ pretty c +:+ "." +:+ pretty e
  | _ => let g := groups ip in print_groups 0 (zero_run 0 g (0%nat, 0%nat)) g
  end.

(** ** strings *)

Definition TrimPrefix (s p : string) : string := if has_prefix p s then sdrop (String.length p) s else s.
Definition TrimSuffix (s p : string) : string := if HasSuffix s p then stake (String.length s - String.length p) s else s.
Definition unbracket (s : string) : string := TrimSuffix (TrimPrefix s "[") "]".

(** ** host.go *)

(** [netip.Addr.IsUnspecified] *)
Definition addr_unspecified (a : Addr) : bool :=
  match a with
  | Addr4 f => bool_decide (f = IPv4zero)
  | Addr6 ip zone => bool_decide (ip = IPv6unspecified) && bool_decide (zone = EmptyString)
  end.

Definition invalidHost : error := EText "invalid advertise host".

Definition check_host (host : string) : result string :=
  if bool_decide (host = EmptyString) then Err (EText "advertise host is empty")
  else match ParseAddr host with
       | Some ip => if addr_unspecified ip then Err (EText "advertise host is unspecified") else Ok host
       | None =>
           if Contains host ":" then Err invalidHost
           else if ContainsAny host "/@?#[]\%" || existsb (λ r, IsSpace r || IsControl r) (runes 0 host) then Err invalidHost
           else Ok host
       end.

Definition normalizeAdvertiseHost (host : string) : result string :=
  if has_prefix "[" host && HasSuffix host "]"
  then match ParseAddr (unbracket host) with
       | None => Err invalidHost
       | Some _ => check_host (unbracket host)
       end
  else check_host host.

Definition isUnspecified (host : string) : bool :=
  if bool_decide (host = EmptyString) then true
  else match ParseIP (unbracket host) with Some ip => IsUnspecified ip | None => false end.

(** The IP addresses of an interface; nil for another type of address. *)
Fixpoint selectInterfaceIP (addrs : list (option (list Z))) (fallback : option (list Z)) : option (list Z) :=
  match addrs with
  | [] => fallback
  | rawAddr :: addrs =>
      match rawAddr with
      | Some ip =>
          if negb (IsGlobalUnicast ip) then selectInterfaceIP addrs fallback
          else if when (ip_to4 ip) then Some ip
          else selectInterfaceIP addrs (Some ip)
      | None => selectInterfaceIP addrs fallback
      end
  end.

(** [addrs]: the answer of [iface.Addrs()]. *)
Record Interface := mkInterface { Index : Z; Up : bool; addrs : result (list (option (list Z))) }.

Definition usable (i : Interface) : option (list Z) :=
  if Up i then match addrs i with Ok l => selectInterfaceIP l None | Err _ => None end else None.

(** The loop over the interfaces, with the index and the IP selected. *)
Fixpoint select_interface (ifaces : list Interface) (selected : option (Z * list Z)) : option (Z * list Z) :=
  match ifaces with
  | [] => selected
  | iface :: ifaces =>
      if negb (Up iface) || match selected with Some (index, _) => index <=? Index iface | None => false end
      then select_interface ifaces selected
      else match addrs iface with
           | Err _ => select_interface ifaces selected
           | Ok l =>
               match selectInterfaceIP l None with
               | None => select_interface ifaces selected
               | Some ip => select_interface ifaces (Some (Index iface, ip))
               end
           end
  end.

Definition extractInterfaceAddress (ifaces : result (list Interface)) (port : string) : result string :=
  match ifaces with
  | Err err => Err err
  | Ok l =>
      match select_interface l None with
      | None => Err (EText "no global-unicast interface address found")
      | Some (_, ip) => Ok (JoinHostPort (ip_string ip) port)
      end
  end.

(** [lis]: no listener, one whose address is not a TCP address, or the IP and
    the port of one. *)
Definition Extract (hostPort advertiseHost : string) (lis : option (option (list Z * Z))) (ifaces : result (list Interface))
  : result string :=
  let publish listenHost port :=
    if bool_decide (advertiseHost ≠ EmptyString)
    then match normalizeAdvertiseHost advertiseHost with Err err => Err err | Ok host => Ok (JoinHostPort host port) end
    else if negb (isUnspecified listenHost) then Ok (JoinHostPort listenHost port)
    else extractInterfaceAddress ifaces port in
  match lis with
  | None => match SplitHostPort hostPort with Err err => Err err | Ok (listenHost, port) => publish listenHost port end
  | Some None => Err (EText "failed to extract port")
  | Some (Some (ip, p)) =>
      let listenHost := match SplitHostPort hostPort with Ok (h, _) => h | Err _ => EmptyString end in
      let listenHost :=
        if bool_decide (advertiseHost = EmptyString) && isUnspecified listenHost && negb (bool_decide (ip = [])) && negb (IsUnspecified ip)
        then ip_string ip else listenHost in
      publish listenHost (pretty p)
  end.

(** ** Lemmas *)

Lemma has_pretty_N_go c x s : (∀ n, Ascii.eqb (pretty_N_char n) c = false) → has c s = false → has c (pretty_N_go x s) = false.
Proof.
  intros Hc. revert s. induction (N.lt_wf_0 x) as [x _ IH]. intros s Hs.
  destruct (decide (x = 0%N)) as [->|?]; [done|]. rewrite pretty_N_go_step by lia.
  apply IH; [apply N.div_lt; lia|]. by rewrite has_String, Hc.
Qed.

Lemma has_pretty_Z c (z : Z) : c = ":"%char ∨ c = "["%char ∨ c = "]"%char → has c (pretty z) = false.
Proof.
  intros Hc.
  assert (HN : ∀ n : N, has c (pretty n) = false).
  { intros n. unfold pretty, pretty_N. case_decide; [by destruct Hc as [->|[->| ->]]|].
    apply has_pretty_N_go; [|done]. intros k. unfold pretty_N_char. destruct Hc as [->|[->| ->]]; by repeat case_match. }
  destruct z as [|p|p]; cbn; [by destruct Hc as [->|[->| ->]]|apply HN|].
  change (has c (String "-" (pretty (N.pos p))) = false). rewrite has_String, HN. by destruct Hc as [->|[->| ->]].
Qed.

(** The interface chosen is usable, and none usable has a lesser index. *)
Definition least (l : list Interface) (index : Z) (ip : list Z) : Prop :=
  (∃ i, i ∈ l ∧ Index i = index ∧ usable i = Some ip) ∧ ∀ j, j ∈ l → when (usable j) → index ≤ Index j.

Lemma select_interface_least seen l sel :
  match sel with None => ∀ j, j ∈ seen → usable j = None | Some (index, ip) => least seen index ip end →
  match select_interface l sel with
  | None => ∀ j, j ∈ seen ++ l → usable j = None
  | Some (index, ip) => least (seen ++ l) index ip
  end.
Proof.
  revert seen sel. induction l as [|i l IH]; intros seen sel H; cbn; [by rewrite app_nil_r|].
  rewrite (assoc_L (++) seen [i] l : seen ++ i :: l = (seen ++ [i]) ++ l).
  assert (Hskip : usable i = None ∨ (∃ index ip, sel = Some (index, ip) ∧ index ≤ Index i) →
    match sel with None => ∀ j, j ∈ seen ++ [i] → usable j = None | Some (index, ip) => least (seen ++ [i]) index ip end).
  { intros Hi. destruct sel as [[index ip]|].
    - destruct H as [(k & Hk & Ek) H]. split; [exists k; rewrite elem_of_app; auto|].
      intros j [?| ->%list_elem_of_singleton]%elem_of_app Hj; [auto|].
      destruct Hi as [E|(? & ? & [= -> ->] & ?)]; [by rewrite E in Hj|done].
    - intros j [?| ->%list_elem_of_singleton]%elem_of_app; [auto|]. by destruct Hi as [?|(? & ? & ? & _)]. }
  destruct (Up i) eqn:EU; cbn; [|apply IH, Hskip; left; unfold usable; by rewrite EU].
  destruct (match sel with Some (index, _) => index <=? Index i | None => false end) eqn:El.
  { apply IH, Hskip. right. destruct sel as [[index ip]|]; [|done]. exists index, ip. split; [done|lia]. }
  destruct (addrs i) as [a|e] eqn:EA; [|apply IH, Hskip; left; unfold usable; by rewrite EU, EA].
  destruct (selectInterfaceIP a None) as [ip|] eqn:ES; [|apply IH, Hskip; left; unfold usable; by rewrite EU, EA].
  assert (Ei : usable i = Some ip) by (unfold usable; by rewrite EU, EA).
  apply IH. split; [exists i; set_solver|].
  intros j [Hj| ->%list_elem_of_singleton]%elem_of_app Hu; [|lia].
  destruct sel as [[index ip']|]; [|by rewrite (H j Hj) in Hu]. destruct H as [_ H]. specialize (H j Hj Hu). lia.
Qed.

(** An address of an interface that may be published: an IPv4 one first. *)
Lemma selectInterfaceIP_spec l fb ip :
  (∀ x, fb = Some x → IsGlobalUnicast x = true) → selectInterfaceIP l fb = Some ip → IsGlobalUnicast ip = true.
Proof.
  revert fb. induction l as [|[x|] l IH]; intros fb Hfb; cbn; [auto| |by apply IH].
  destruct (IsGlobalUnicast x) eqn:E; cbn; [|by apply IH].
  destruct (ip_to4 x); cbn; [by intros [= <-]|]. apply IH. by intros ? [= <-].
Qed.

Lemma usable_global i ip : usable i = Some ip → IsGlobalUnicast ip = true.
Proof.
  unfold usable. destruct (Up i), (addrs i); try done. by apply selectInterfaceIP_spec.
Qed.

Lemma print_groups_nonempty run g l : print_groups 0 run (g :: l) ≠ EmptyString.
Proof.
  cbn. destruct (_ && _); [done|].
  assert (H : ∀ r, hex_string g +:+ r ≠ EmptyString) by (intros r; unfold hex_string; cbn; by repeat case_match).
  destruct ((run.1 <? 0)%nat) eqn:E; [apply Nat.ltb_lt in E; lia|]. apply H.
Qed.

Lemma ip_string_nonempty ip : IsGlobalUnicast ip = true → ip_string ip ≠ EmptyString.
Proof.
  unfold IsGlobalUnicast. intros H. rewrite !andb_true_iff in H. destruct H as [[[[[Hlen _] _] _] _] _].
  assert (HP : ∀ g l run, print_groups 0 run (g :: l) ≠ EmptyString) by (intros; apply print_groups_nonempty).
  unfold ip_string. destruct (ip_to4 ip) as [[|a [|b [|c [|e [|? ?]]]]]|] eqn:E4;
    try (destruct ip as [|x [|y ip]]; [done|done|apply HP]).
  destruct (pretty a); done.
Qed.

(** Where the host that is published comes from. *)
Inductive published (advertiseHost listenHost : string) (ip : list Z) (ifaces : list Interface) : string → Prop :=
| pub_advertised host :
    advertiseHost = host ∨ host = unbracket advertiseHost →
    (if ParseAddr host is Some a then addr_unspecified a = false
     else has ":" host = false ∧ has "[" host = false ∧ has "]" host = false) →
    published advertiseHost listenHost ip ifaces host
| pub_listening :
    advertiseHost = EmptyString → isUnspecified listenHost = false →
    published advertiseHost listenHost ip ifaces listenHost
| pub_bound :
    advertiseHost = EmptyString → isUnspecified listenHost = true → IsUnspecified ip = false →
    isUnspecified (ip_string ip) = false →
    published advertiseHost listenHost ip ifaces (ip_string ip)
| pub_interface index found :
    advertiseHost = EmptyString → isUnspecified listenHost = true →
    least ifaces index found → IsGlobalUnicast found = true →
    published advertiseHost listenHost ip ifaces (ip_string found).

Lemma ContainsAny_has c s chars : has c chars = true → ContainsAny s chars = false → has c s = false.
Proof.
  intros Hc. induction s as [|d s IH]; [done|]. cbn [ContainsAny]. intros [Hd Hs]%orb_false_iff.
  rewrite has_String, IH by done. rewrite orb_false_r. apply Ascii.eqb_neq. intros ->. by rewrite Hc in Hd.
Qed.

Lemma Contains_has c s : Contains s (String c EmptyString) = has c s.
Proof.
  induction s as [|d s IH]; [done|]. rewrite has_String, <-IH. cbn. by rewrite Ascii.eqb_sym, andb_true_r.
Qed.

Lemma check_host_spec h host :
  check_host h = Ok host →
  host = h ∧ host ≠ EmptyString ∧
  (if ParseAddr host is Some a then addr_unspecified a = false
   else has ":" host = false ∧ has "[" host = false ∧ has "]" host = false).
Proof.
  unfold check_host. case_bool_decide as E; [done|]. destruct (ParseAddr h) as [a|] eqn:EP.
  { destruct (addr_unspecified a) eqn:Ea; [done|]. intros [= <-]. by rewrite EP. }
  destruct (Contains h ":") eqn:EC; [done|]. destruct (_ || _) eqn:EA; [done|]. intros [= <-].
  apply orb_false_iff in EA as [EA _]. rewrite EP.
  split_and!; [done|done|by rewrite <-Contains_has|by refine (ContainsAny_has _ _ _ _ EA)..].
Qed.

Lemma normalizeAdvertiseHost_spec h host :
  normalizeAdvertiseHost h = Ok host →
  (h = host ∨ host = unbracket h) ∧ host ≠ EmptyString ∧
  (if ParseAddr host is Some a then addr_unspecified a = false
   else has ":" host = false ∧ has "[" host = false ∧ has "]" host = false).
Proof.
  unfold normalizeAdvertiseHost. destruct (_ && _).
  - destruct (ParseAddr (unbracket h)); [|done]. intros (-> & ? & ?)%check_host_spec. auto.
  - intros (-> & ? & ?)%check_host_spec. auto.
Qed.

Lemma isUnspecified_nonempty h : isUnspecified h = false → h ≠ EmptyString.
Proof. by intros H ->. Qed.

(** The host of the listening address, when it splits. *)
Definition listening (hostPort : string) : string :=
  match SplitHostPort hostPort with Ok (h, _) => h | Err _ => EmptyString end.

(** ** Properties *)

(** What [Extract] publishes for a listening server is a host that is not
    empty, joined with the port of the listener: the advertised host, without
    its brackets and not an unspecified address; without one, the listening
    host, or the IP the listener is bound to, when it is specified; otherwise
    a global unicast IP of the usable interface of least index.  It splits
    again into that host and that port. *)
Theorem extract_published hostPort advertiseHost ip p ifaces a :
  Extract hostPort advertiseHost (Some (Some (ip, p))) (Ok ifaces) = Ok a →
  ∃ host, published advertiseHost (listening hostPort) ip ifaces host ∧ host ≠ EmptyString ∧
    a = JoinHostPort host (pretty p) ∧
    (has "[" host = false → has "]" host = false → SplitHostPort a = Ok (host, pretty p)).
Proof.
  intros H. cut (∃ host, published advertiseHost (listening hostPort) ip ifaces host ∧ host ≠ EmptyString ∧
    a = JoinHostPort host (pretty p)).
  { intros (host & HP & Hne & ->). exists host. split_and!; [done..|]. intros. apply split_join; auto using has_pretty_Z. }
  unfold Extract in H. cbv zeta in H. fold (listening hostPort) in H. generalize dependent (listening hostPort). intros lh H.
  destruct (bool_decide (advertiseHost ≠ EmptyString)) eqn:EA.
  { destruct (normalizeAdvertiseHost advertiseHost) as [host|] eqn:EN; [|done]. injection H as <-.
    apply normalizeAdvertiseHost_spec in EN as (? & ? & ?). exists host. split_and!; [by constructor|done..]. }
  apply bool_decide_eq_false in EA. apply dec_stable in EA. rewrite (bool_decide_eq_true_2 _ EA) in H. cbn [andb] in H.
  assert (HX : isUnspecified lh = true → extractInterfaceAddress (Ok ifaces) (pretty p) = Ok a →
    ∃ host, published advertiseHost lh ip ifaces host ∧ host ≠ EmptyString ∧ a = JoinHostPort host (pretty p)).
  { intros Hu HE. unfold extractInterfaceAddress in HE. pose proof (select_interface_least [] ifaces None) as HL.
    destruct (select_interface ifaces None) as [[index found]|]; [|done]. injection HE as <-.
    destruct HL as [(i & Hi & HI & HU) HL]; [by intros ? ?%elem_of_nil|]. pose proof (usable_global _ _ HU).
    exists (ip_string found). split_and!; [|by apply ip_string_nonempty|done].
    eapply pub_interface; [done..| |done]. split; [by exists i|done]. }
  destruct (isUnspecified lh) eqn:EU; cbn [andb negb] in H.
  - destruct (negb _ && negb _) eqn:EB in H.
    + apply andb_true_iff in EB as [_ EB%negb_true_iff].
      destruct (isUnspecified (ip_string ip)) eqn:ES; [by apply HX|]. injection H as <-.
      exists (ip_string ip). split_and!; [by apply pub_bound|by apply isUnspecified_nonempty|done].
    + rewrite EU in H. by apply HX.
  - rewrite EU in H. injection H as <-. exists lh. split_and!; [by apply pub_listening|by apply isUnspecified_nonempty|done].
Qed.

(** An address is published whenever the machine has a usable interface
    and no host is advertised. *)
Theorem extract_succeeds hostPort ip p ifaces i found :
  i ∈ ifaces → usable i = Some found →
  ∃ a, Extract hostPort EmptyString (Some (Some (ip, p))) (Ok ifaces) = Ok a.
Proof.
  intros Hi HU. unfold Extract. cbn. destruct (negb (isUnspecified _)); [by eexists|]. unfold extractInterfaceAddress.
  pose proof (select_interface_least [] ifaces None) as HL.
  destruct (select_interface ifaces None) as [[index x]|]; [by eexists|].
  rewrite HL in HU; [done|by intros ? ?%elem_of_nil|done].
Qed.

Module HostExample.

Definition lo : Interface := mkInterface 1 true (Ok [Some [127; 0; 0; 1]]).
Definition eth0 : Interface :=
  mkInterface 2 true (Ok [Some ([254; 128] ++ replicate 13 0 ++ [1]); Some ([32; 1; 13; 184] ++ replicate 11 0 ++ [7]); Some [10; 0; 0; 7]]).
Definition eth1 : Interface := mkInterface 3 true (Ok [Some [192; 168; 1; 4]]).

Lemma interface_chosen :
  Extract ":9000" EmptyString (Some (Some (replicate 16 0, 9000))) (Ok [eth1; lo; eth0]) = Ok "10.0.0.7:9000".
Proof. by vm_compute. Qed.

Lemma ipv6_printed : ip_string ([32; 1; 13; 184] ++ replicate 11 0 ++ [7]) = "2001:db8::7".
Proof. by vm_compute. Qed.

Lemma extract_published_witness :
  ∃ host, published EmptyString (listening ":9000") (replicate 16 0) [eth1; lo; eth0] host ∧ host ≠ EmptyString ∧
    "10.0.0.7:9000" = JoinHostPort host (pretty 9000) ∧
    (has "[" host = false → has "]" host = false → SplitHostPort "10.0.0.7:9000" = Ok (host, pretty 9000)).
Proof. exact (extract_published _ _ _ _ _ _ interface_chosen). Defined.

Lemma extract_succeeds_witness :
  ∃ a, Extract ":9000" EmptyString (Some (Some (replicate 16 0, 9000))) (Ok [lo; eth1]) = Ok a.
Proof. apply (extract_succeeds _ _ _ _ eth1 [192; 168; 1; 4]); [set_solver|by vm_compute]. Defined.

(** The mapped form of [0.0.0.0] is an address [netip] does not call
    unspecified, and [isUnspecified] does. *)
Lemma mapped_unspecified_published :
  isUnspecified "::ffff:0.0.0.0" = true ∧
  Extract ":9000" "::ffff:0.0.0.0" (Some (Some (replicate 16 0, 9000))) (Ok []) = Ok "[::ffff:0.0.0.0]:9000".
Proof. by vm_compute. Qed.

End HostExample.
