(* ===== verification/Serving.v ===== *)
(** * The read loops of the servers

    [readTCPMessages] of [network/tcp/server_connection.go],
    [readWebSocketMessages] of [network/websocket/server_connection.go] and
    [readFrame] of [network/websocket/channel.go]: messages are read off a
    connection, under a read deadline, and given to the dispatcher, or to the
    handler itself when it takes no heartbeats.  A [FrameSource] is what the
    loops read from; the stream of a TCP connection and the messages of a
    WebSocket are its two instances.  Proved: the handler is given what the
    peer wrote, in order; the loop ends; and which messages move the read
    deadline.  A panic of the handler in the read loop is not modelled. *)

From S2P Require Import Prelude Errors Proto Bufio Codec Inbound.
Import Dispatcher.

(** [carries src ps]: the peer wrote the messages [ps]. *)
Class FrameSource (F : Type) := {
  read_frame : F → F * result Proto;
  carries : F → list Proto → Prop;
  read_carried s p ps : carries s (p :: ps) → ∃ s', read_frame s = (s', Ok p) ∧ carries s' ps;
  read_end s : carries s [] → ∃ s' e, read_frame s = (s', Err e);
}.

(** TCP renews the deadline by heartbeats, WebSocket by every read. *)
Inductive kind := KTcp | KWs.

(** The loop, in front of [SetReadDeadline], of the read, inside
    [dispatcher.Handle], inside the handler or [reply], inside the deferred
    [Stop], or returned. *)
Inductive reading :=
| LArm
| LRead
| LHandle
| LInvoke (m : Proto)
| LReply (reply : Proto)
| LStop (err : option error)
| LReturned (err : option error).

(** The body of a heartbeat is dropped. *)
Definition clean (m : Proto) : Proto := if Op m =? OpHeartbeat then m <| Body := [] |> else m.
Definition business (m : Proto) : bool := negb (Op m =? OpHeartbeat).

Section Loop.
Context `{FS : FrameSource F} (k : kind) (timeout : Z).

(** [armed]: the read deadline of the socket; [seen]: the messages read;
    [invoked]: those the loop gave to the handler itself, in a call of the
    dispatcher or without one; [authAt]: how many were read when the reply of
    a successful authentication was sent; [beats]: when each heartbeat was
    read. *)
Record loop := mkLoop {
  src : F;
  now : Z;
  deadline : Z;
  armed : option Z;
  at_ : reading;
  disp : option Dispatcher;
  seen : list Proto;
  invoked : list Proto;
  authAt : option nat;
  beats : list Z;
}.
#[export] Instance eta_loop : Eta loop := λ l,
  mkLoop (src l) (now l) (deadline l) (armed l) (at_ l) (disp l) (seen l) (invoked l) (authAt l) (beats l).

Definition start (s : F) (t handshakeDeadline : Z) (heartbeats : bool) (requestQueueSize : nat) : loop :=
  mkLoop s t handshakeDeadline None LArm (if heartbeats then Some (New requestQueueSize) else None) [] [] None [].

Definition read_deadline (l : loop) : Z := match k with KTcp => deadline l | KWs => now l + timeout end.

(** The loop returns: its deferred call stops the dispatcher. *)
Definition leave (err : option error) (l : loop) : loop :=
  match disp l with
  | Some d => l <| disp := Some (Stop d) |> <| at_ := LStop err |>
  | None => l <| at_ := LReturned err |>
  end.

(** What the call of the dispatcher that begins gives to the handler. *)
Definition inline (d : Dispatcher) : list Proto :=
  match rd d with RInvoke m | RBeat m => [m] | _ => [] end.

(** A message was read; [ctxErr]: the error of the dispatcher's context. *)
Definition received (ctxErr : error) (p : Proto) (l : loop) : loop :=
  let m := clean p in
  let l := if business p then l
           else l <| deadline := match k with KTcp => now l + timeout | KWs => deadline l end |> <| beats := beats l ++ [now l] |> in
  let l := l <| seen := seen l ++ [m] |> in
  match disp l with
  | Some d =>
      let d := Handle ctxErr m d in
      l <| disp := Some d |> <| invoked := invoked l ++ inline d |> <| at_ := LHandle |>
  | None => l <| invoked := invoked l ++ [m] |> <| at_ := LInvoke m |>
  end.

(** What goes on inside the dispatcher while the loop is in one of its calls
    or in the socket. *)
Definition busy (d : Dispatcher) : bool :=
  match rd d with RInvoke _ | RReply _ | RBeat _ | RBeatReply _ | RStopping => true | _ => false end.

Inductive inside (d : Dispatcher) : Dispatcher → Prop :=
| i_call d' : busy d = true → reader_step d d' → inside d d'
| i_work d' : worker_step d d' → inside d d'
| i_cancel : inside d (d <| canceled := true |>).

Definition mark (d d' : Dispatcher) (l : loop) : option nat :=
  if negb (auth_sent d) && auth_sent d' then Some (length (seen l)) else authAt l.

Inductive loop_step (l : loop) : loop → Prop :=
| t_time t : now l ≤ t → loop_step l (l <| now := t |>)
| t_arm : at_ l = LArm → loop_step l (l <| armed := Some (read_deadline l) |> <| at_ := LRead |>)
| t_arm_err e : at_ l = LArm → loop_step l (leave (Some e) l)
| t_frame s' p e : at_ l = LRead → read_frame (src l) = (s', Ok p) → loop_step l (received e p (l <| src := s' |>))
| t_bad s' e : at_ l = LRead → read_frame (src l) = (s', Err e) → loop_step l (leave (Some e) (l <| src := s' |>))
| t_lost e : at_ l = LRead → loop_step l (leave (Some e) l)
| t_inside d d' : disp l = Some d → inside d d' → loop_step l (l <| disp := Some d' |> <| authAt := mark d d' l |>)
| t_handled d : at_ l = LHandle → disp l = Some d → rd d = RIdle → loop_step l (l <| at_ := LArm |>)
| t_handle_err d e : at_ l = LHandle → disp l = Some d → rd d = RFailed e → loop_step l (leave (Some e) l)
| t_invoked m reply : at_ l = LInvoke m → loop_step l (l <| at_ := LReply reply |>)
| t_invoke_err m : at_ l = LInvoke m → loop_step l (leave None l)
| t_replied reply : at_ l = LReply reply → loop_step l (l <| at_ := LArm |>)
| t_reply_err reply e : at_ l = LReply reply → loop_step l (leave (Some e) l)
| t_stopped d err : at_ l = LStop err → disp l = Some d → rd d = RStopped → loop_step l (l <| at_ := LReturned err |>).

Definition init_loop (ps : list Proto) (handshakeDeadline : Z) (cap : nat) (l : loop) : Prop :=
  ∃ s t b, carries s ps ∧ l = start s t handshakeDeadline b cap.
Definition loop_reach (ps : list Proto) (handshakeDeadline : Z) (cap : nat) : loop → Prop :=
  reachable (init_loop ps handshakeDeadline cap) loop_step.

(** ** Invariant *)

(** Between its calls the dispatcher is idle; the loop is in a call of it
    exactly when the dispatcher is, and the dispatcher only ever does what it
    can do. *)
Definition active (r : reader) : bool := match r with RFailed _ | RStopping | RStopped => false | _ => true end.

(** Where the messages read went: before the authentication the loop gave each
    to the handler; of those read since, it gave the heartbeats to the handler
    and the others to the queue.  The last one may be lost, and then the
    dispatcher takes no more. *)
Definition at_most_last (d : Dispatcher) (lost : list Proto) : Prop :=
  (length lost ≤ 1)%nat ∧ (active (rd d) = true → lost = []).

Definition deals (d : Dispatcher) (authAt : option nat) (seen invoked : list Proto) : Prop :=
  match authAt with
  | None =>
      auth_sent d = false ∧ match rd d with RInvoke _ | RReply _ => invoked ≠ [] | _ => True end ∧
      ∃ lost, seen = invoked ++ lost ∧ at_most_last d lost
  | Some n =>
      auth_sent d = true ∧ (1 ≤ n ≤ length seen)%nat ∧
      ∃ after lost, drop n seen = after ++ lost ∧ at_most_last d lost ∧
        invoked = take n seen ++ filter (λ m, business m = false) after ∧
        accepted d = filter (λ m, business m = true) after
  end.

Record loop_ok (ps : list Proto) (handshakeDeadline : Z) (cap : nat) (l : loop) : Prop := mkLoopOk {
  lo_reach : ∀ d, disp l = Some d → reach cap d;
  lo_deals : ∀ d, disp l = Some d → deals d (authAt l) (seen l) (invoked l);
  lo_idle : ∀ d, disp l = Some d → match at_ l with
                                   | LArm | LRead => rd d = RIdle
                                   | LHandle => rd d ≠ RStopping ∧ rd d ≠ RStopped
                                   | LStop _ => rd d = RStopping ∨ rd d = RStopped
                                   | LReturned _ => rd d = RStopped
                                   | LInvoke _ | LReply _ => False
                                   end;
  lo_seen : seen l `prefix_of` clean <$> ps;
  lo_carries : match at_ l with
               | LStop _ | LReturned _ => True
               | _ => ∃ rest, carries (src l) rest ∧ clean <$> ps = seen l ++ (clean <$> rest)
               end;
  lo_invoked : disp l = None → invoked l = seen l;
  lo_beats : length (beats l) = length (filter (λ m, business m = false) (seen l));
  lo_deadline : k = KTcp → deadline l = match last (beats l) with Some t => t + timeout | None => handshakeDeadline end;
  lo_call : match at_ l with LHandle | LStop _ => disp l ≠ None | _ => True end;
  lo_armed : k = KTcp → at_ l = LRead → armed l = Some (deadline l);
}.

Lemma business_clean p : business (clean p) = business p.
Proof. unfold business, clean. by destruct (Op p =? OpHeartbeat) eqn:E; simpl; rewrite ?E. Qed.

Lemma Handle_step cap e m d : reach cap d → rd d = RIdle → reach cap (Handle e m d).
Proof. intros Hd Hr. eapply reach_step; [done|]. left. by constructor. Qed.

Lemma Stop_step cap d : reach cap d → rd d = RIdle ∨ (∃ e, rd d = RFailed e) → reach cap (Stop d).
Proof. intros Hd Hr. eapply reach_step; [done|]. left. by constructor. Qed.

Lemma inside_step d d' : inside d d' → step d d'.
Proof. intros [d0 _ H|d0 H|]; [by left|by right; left|by right; right]. Qed.

(** The queue is there from the authentication until the end. *)
Lemma requests_auth cap d : reach cap d → rd d ≠ RStopped → auth_sent d = match requests d with Some _ => true | None => false end.
Proof.
  intros [_ _ _ H _ _ _]%disp_inv_reach Hr. destruct (wk d); destruct H as [-> H]; [by destruct H as [-> _]|..];
    destruct H as [[q ->]|]; done.
Qed.

Lemma lost_none d : at_most_last d [].
Proof. split; simpl; done || lia. Qed.
Lemma lost_last d m : active (rd d) = false → at_most_last d [m].
Proof. intros H. split; simpl; [lia|congruence]. Qed.
#[local] Hint Resolve lost_none lost_last : core.

(** The dispatcher takes a message, answers it itself, or refuses it. *)
Lemma Handle_deals cap e m d a seen invoked :
  reach cap d → rd d = RIdle → deals d a seen invoked →
  deals (Handle e m d) a (seen ++ [m]) (invoked ++ inline (Handle e m d)).
Proof.
  intros Hd Hr H. pose proof (requests_auth cap d Hd ltac:(by rewrite Hr)) as Hq. unfold deals in *. destruct a as [n|].
  - destruct H as (Ha & Hn & after & lost & Hs & [_ Hl] & Hi & Hacc). rewrite Hr in Hl. rewrite (Hl eq_refl), app_nil_r in Hs.
    rewrite drop_app_le, take_app_le, length_app, Hs by lia. unfold Handle, inline. rewrite Ha in Hq.
    destruct (canceled d); [|destruct (requests d) as [q|]; [|done]; destruct (Op m =? OpHeartbeat) eqn:Hb;
      [|destruct (length q <? capacity d)%nat]]; (split; [done|]; split; [simpl; lia|]).
    + exists after, [m]. simpl. rewrite app_nil_r. auto.
    + exists (after ++ [m]), []. rewrite !filter_app, filter_cons_True, filter_cons_False by (unfold business; by rewrite Hb).
      rewrite !filter_nil, !app_nil_r, app_assoc, <-Hi. auto.
    + exists (after ++ [m]), []. simpl. rewrite Hr, !filter_app, filter_cons_False, filter_cons_True by (unfold business; by rewrite Hb).
      rewrite !filter_nil, !app_nil_r, Hacc. auto.
    + exists after, [m]. simpl. rewrite app_nil_r. auto.
  - destruct H as (Ha & _ & lost & Hs & _ & Hl). rewrite Hr in Hl. rewrite (Hl eq_refl), app_nil_r in Hs. subst.
    rewrite Ha in Hq. unfold Handle, inline. destruct (canceled d); [|destruct (requests d); [done|]]; (split; [done|]); simpl.
    + split; [done|]. exists [m]. rewrite app_nil_r. auto.
    + split; [by destruct invoked|]. exists []. rewrite app_nil_r. auto.
Qed.

(** The steps inside the dispatcher move no message. *)
Lemma deals_same d d' a seen invoked :
  (auth_sent d', accepted d') = (auth_sent d, accepted d) → (active (rd d') = true → active (rd d) = true) →
  match rd d' with RInvoke _ | RReply _ => match rd d with RInvoke _ | RReply _ => True | _ => False end | _ => True end →
  deals d a seen invoked → deals d' a seen invoked.
Proof.
  intros [= Ea Eacc] Hact Hr H.
  assert (Hlost : ∀ lost, at_most_last d lost → at_most_last d' lost) by (intros lost [? ?]; split; auto).
  unfold deals in *. rewrite Ea, Eacc. destruct a as [n|].
  - destruct H as (? & ? & after & lost & ? & ? & ?). split; [done|]. split; [done|]. exists after, lost. auto.
  - destruct H as (? & Hi & lost & ? & ?). split; [done|]. split; [|by eauto]. destruct (rd d'); try done; by destruct (rd d).
Qed.

Lemma mark_same d d' l : auth_sent d' = auth_sent d → mark d d' l = authAt l.
Proof. unfold mark. intros ->. by destruct (auth_sent d). Qed.

(** The worker and the cancellation leave the read loop alone. *)
Lemma worker_same d d' :
  worker_step d d' → (auth_sent d', accepted d') = (auth_sent d, accepted d) ∧ rd d' = rd d.
Proof.
  intros [d0 E E'|d0 d1 E|d0 m E|d0 m reply E|d0 reply E|d0 E]; try done.
  - unfold run_receive in E. destruct (wk d0); try done. by destruct (requests d0) as [[|x q]|]; simplify_eq.
  - unfold run_check. by destruct (canceled d0).
Qed.

Lemma inside_deals cap d d' l :
  reach cap d → inside d d' → deals d (authAt l) (seen l) (invoked l) → deals d' (mark d d' l) (seen l) (invoked l).
Proof.
  intros Hd Hi H.
  assert (Hsame : ∀ x, (auth_sent x, accepted x) = (auth_sent d, accepted d) → (active (rd x) = true → active (rd d) = true) →
    match rd x with RInvoke _ | RReply _ => match rd d with RInvoke _ | RReply _ => True | _ => False end | _ => True end →
    deals x (mark d x l) (seen l) (invoked l)).
  { intros x E1 E2 E3. pose proof E1 as [= Ea _]. rewrite mark_same by done. by eapply deals_same. }
  destruct Hi as [d' Hb Hst|d' Hst|]; [|apply worker_same in Hst as [E1 E2]|].
  - destruct Hst as [d e m E|d m r E|d reply sent E|d m r E|d reply sent E|d E|d d' E E']; unfold busy in Hb;
      try (by rewrite E in Hb); try (destruct E as [E|[? E]]; by rewrite E in Hb).
    + destruct r; apply Hsame; simpl; rewrite ?E; done.
    + unfold Handle_sent. destruct sent; [apply Hsame; simpl; rewrite ?E; done|].
      destruct (authenticated reply); [|apply Hsame; simpl; rewrite ?E; done].
      pose proof (disp_inv_reach _ _ Hd) as [_ _ _ H4 H5 _ _]. rewrite E in H5.
      assert (Ha : auth_sent d = false) by (destruct (auth_sent d); naive_solver).
      assert (Hacc : accepted d = []) by (destruct (wk d); destruct H4 as [H4 ?]; [tauto|congruence..]).
      unfold mark; simpl. rewrite Ha; simpl. destruct (authAt l) as [n|]; [by destruct H as [? _]; congruence|].
      destruct H as (_ & Hne & lost & Hs & _ & Hl). rewrite E in Hne, Hl. rewrite (Hl eq_refl), app_nil_r in Hs. rewrite Hs.
      split; [done|]. split; [destruct (invoked l); simpl; done || lia|]. exists [], []. rewrite drop_ge, take_ge by lia. split_and!; auto. by rewrite app_nil_r.
    + destruct r; apply Hsame; simpl; rewrite ?E; done.
    + destruct sent; apply Hsame; simpl; rewrite ?E; done.
    + unfold Stop_waited in E'. destruct (wk d); simplify_eq; apply Hsame; simpl; rewrite ?E; done.
  - apply Hsame; [done|by rewrite E2|]. rewrite E2. by destruct (rd d).
  - apply Hsame; [done..|]. simpl. by destruct (rd d).
Qed.

Definition onward (a b : reader) : Prop :=
  match a with
  | RIdle | RFailed _ | RStopped => b = a
  | RStopping => b = RStopping ∨ b = RStopped
  | _ => b ≠ RStopping ∧ b ≠ RStopped
  end.

Lemma inside_rd d d' : inside d d' → onward (rd d) (rd d').
Proof.
  assert (Hk : ∀ a, onward a a) by (intros []; simpl; auto).
  intros [d0 Hb Hst|d0 Hst|]; [| |apply Hk].
  - unfold busy in Hb. destruct Hst as [d e m E|d m r E|d reply sent E|d m r E|d reply sent E|d E|d d0 E E'];
      try (by rewrite E in Hb); try (destruct E as [E|[? E]]; by rewrite E in Hb); rewrite E.
    + by destruct r.
    + unfold Handle_sent. destruct sent; [done|]. by destruct (authenticated reply).
    + by destruct r.
    + by destruct sent.
    + unfold Stop_waited in E'. destruct (wk d); simplify_eq; by right.
  - destruct Hst as [d E E'|d d0 E|d m E|d m reply E|d reply E|d E]; try apply Hk.
    + unfold run_receive in E. destruct (wk d); try done. destruct (requests d) as [[|x q]|]; simplify_eq. apply Hk.
    + unfold run_check. destruct (canceled d); apply Hk.
Qed.

Section Inv.
Context (ps : list Proto) (handshakeDeadline : Z) (cap : nat).
Abbreviation ok := (loop_ok ps handshakeDeadline cap).

Lemma ok_leave err l : ok l → (∀ d, disp l = Some d → rd d = RIdle ∨ ∃ e, rd d = RFailed e) → ok (leave err l).
Proof.
  intros [H1 H2 H3 H4 H5 H6 H7 H8 H9 H10] Hr. unfold leave. destruct (disp l) as [d|] eqn:Hd.
  - split; simpl; try done.
    + intros ? [= <-]. apply Stop_step; auto.
    + intros ? [= <-]. apply (deals_same d); [done..|by simpl|auto].
    + intros ? [= <-]. by left.
  - split; simpl; try done; by rewrite Hd.
Qed.

Lemma ok_received e p s' rest l :
  ok l → at_ l = LRead → carries s' rest → clean <$> ps = seen l ++ (clean <$> (p :: rest)) →
  ok (received e p (l <| src := s' |>)).
Proof.
  intros [H1 H2 H3 H4 H5 H6 H7 H8 H9 H10] Ha Hc Hp. rewrite Ha in H3.
  assert (Hp' : clean <$> ps = (seen l ++ [clean p]) ++ (clean <$> rest)) by (rewrite Hp, <-app_assoc; done).
  set (bs := if business p then beats l else beats l ++ [now l]).
  set (dl := if business p then deadline l else match k with KTcp => now l + timeout | KWs => deadline l end).
  assert (Hb : length bs = length (filter (λ m, business m = false) (seen l ++ [clean p]))).
  { unfold bs. rewrite filter_app, length_app, <-H7. destruct (business p) eqn:Eb.
    - rewrite filter_cons_False by (rewrite business_clean; congruence). simpl. lia.
    - rewrite filter_cons_True by (by rewrite business_clean). rewrite length_app. done. }
  assert (Hdl : k = KTcp → dl = match last bs with Some t => t + timeout | None => handshakeDeadline end).
  { intros Hk. unfold dl, bs. destruct (business p); [by apply H8|]. by rewrite last_snoc, Hk. }
  assert (Hpre : seen l ++ [clean p] `prefix_of` clean <$> ps) by (rewrite Hp'; by apply prefix_app_r).
  assert (E : received e p (l <| src := s' |>) =
    match disp l with
    | Some d => mkLoop s' (now l) dl (armed l) LHandle (Some (Handle e (clean p) d)) (seen l ++ [clean p])
                  (invoked l ++ inline (Handle e (clean p) d)) (authAt l) bs
    | None => mkLoop s' (now l) dl (armed l) (LInvoke (clean p)) None (seen l ++ [clean p])
                (invoked l ++ [clean p]) (authAt l) bs
    end).
  { unfold received, dl, bs. by destruct l as [? ? ? ? ? [d0|] ? ? ? ?], (business p). }
  rewrite E. destruct (disp l) as [d|] eqn:Hd.
  - specialize (H1 d eq_refl). specialize (H3 d eq_refl). split; simpl; try done.
    + intros ? [= <-]. by apply Handle_step.
    + intros ? [= <-]. apply (Handle_deals cap); auto.
    + intros ? [= <-]. unfold Handle. destruct (canceled d); [done|]. destruct (requests d); [|done].
      destruct (Op (clean p) =? OpHeartbeat); [done|]. destruct (_ <? _)%nat; simpl; [by rewrite H3|done].
    + by exists rest.
  - split; simpl; try done; [by exists rest|]. intros _. by rewrite H6.
Qed.

Lemma ok_inside d d' l :
  ok l → disp l = Some d → inside d d' → ok (l <| disp := Some d' |> <| authAt := mark d d' l |>).
Proof.
  intros [H1 H2 H3 H4 H5 H6 H7 H8 H9 H10] Hd Hi. specialize (H1 d Hd). specialize (H2 d Hd). specialize (H3 d Hd).
  split; simpl; try done.
  - intros ? [= <-]. eapply reach_step; [done|]. by apply inside_step.
  - intros ? [= <-]. by eapply inside_deals.
  - intros ? [= <-]. pose proof (inside_rd _ _ Hi) as Hrd. destruct (at_ l); try done.
    + by rewrite H3 in Hrd.
    + by rewrite H3 in Hrd.
    + destruct H3 as [Hx Hy]. destruct (rd d); simpl in Hrd; try done; by rewrite Hrd.
    + destruct H3 as [H3|H3]; rewrite H3 in Hrd; auto.
    + by rewrite H3 in Hrd.
  - by destruct (at_ l).
Qed.

Lemma loop_ok_step l l' : ok l → loop_step l l' → ok l'.
Proof.
  intros Hok Hst. pose proof Hok as [H1 H2 H3 H4 H5 H6 H7 H8 H9 H10].
  destruct Hst as [t Ht|Ha|e Ha|s' p e Ha Hf|s' e Ha Hf|e Ha|d d' Hd Hi|d Ha Hd Hr|d e Ha Hd Hr|m reply Ha|m Ha|reply Ha|reply e Ha|d err Ha Hd Hr].
  - by split.
  - rewrite Ha in *. split; simpl; try done. intros Hk _. unfold read_deadline. by rewrite Hk.
  - apply ok_leave; [done|]. rewrite Ha in H3. auto.
  - rewrite Ha in H5. destruct H5 as (rest & Hc & Hp). destruct rest as [|q rest].
    { destruct (read_end _ Hc) as (? & ? & Hx). by rewrite Hx in Hf. }
    destruct (read_carried _ _ _ Hc) as (s1 & Hx & Hc'). rewrite Hx in Hf. simplify_eq. by eapply ok_received.
  - rewrite Ha in H3. change (leave (Some e) (l <| src := s' |>)) with ((leave (Some e) (l <| src := s' |>))).
    assert (Hl : ok (leave (Some e) l)) by (apply ok_leave; auto).
    unfold leave in *. simpl. destruct (disp l); destruct Hl; by split.
  - apply ok_leave; [done|]. rewrite Ha in H3. auto.
  - by eapply ok_inside.
  - rewrite Ha in *. split; simpl; try done. intros ? Hx. simplify_eq. congruence.
  - apply ok_leave; [done|]. intros ? ?. simplify_eq. eauto.
  - rewrite Ha in *. by split.
  - apply ok_leave; [done|]. intros d Hd. specialize (H3 d Hd). by rewrite Ha in H3.
  - rewrite Ha in *. split; simpl; try done. intros d Hd. by destruct (H3 d Hd).
  - apply ok_leave; [done|]. intros d Hd. specialize (H3 d Hd). by rewrite Ha in H3.
  - rewrite Ha in *. split; simpl; try done. intros ? ?. simplify_eq. done.
Qed.

Lemma loop_inv l : loop_reach ps handshakeDeadline cap l → ok l.
Proof.
  apply invariant_reachable; [|intros s s' _; apply loop_ok_step].
  intros ? (s & t & b & Hc & ->). unfold start. destruct b; split; simpl; try done.
  - intros ? [= <-]. by apply reach_init.
  - intros ? [= <-]. split; [done|]. split; [done|]. exists []. auto.
  - by intros ? [= <-].
  - apply prefix_nil.
  - by exists ps.
  - apply prefix_nil.
  - by exists ps.
Qed.

(** ** The end of the loop *)

Lemma rtc_disp l d d' :
  disp l = Some d → rtc inside d d' → ∃ a, rtc loop_step l (l <| disp := Some d' |> <| authAt := a |>).
Proof.
  intros Hd Hr. revert l Hd. induction Hr as [d|d d1 d' Hs _ IH]; intros l Hd.
  - exists (authAt l). destruct l; simpl in *; subst. constructor.
  - edestruct (IH (l <| disp := Some d1 |> <| authAt := mark d d1 l |>)) as [a Ha]; [done|]. exists a.
    eapply rtc_l; [by apply (t_inside l d d1)|exact Ha].
Qed.

(** A call of the dispatcher returns once the handler and the connection do. *)
Lemma dispatch_returns d :
  rd d ≠ RStopping → rd d ≠ RStopped → ∃ d', rtc inside d d' ∧ (rd d' = RIdle ∨ ∃ e, rd d' = RFailed e).
Proof.
  intros H1 H2. destruct (rd d) as [|m|reply|m|reply|e| |] eqn:E; try done; [exists d; split; [constructor|auto]| | | | |].
  - exists (Handle_invoked (Err ErrRequestQueueFull) d). split; [|eauto]. apply rtc_once, i_call; [unfold busy; by rewrite E|by eapply s_invoked].
  - exists (Handle_sent reply (Some (ESentinel NetErrClosed)) d). split; [|eauto]. apply rtc_once, i_call; [unfold busy; by rewrite E|by eapply s_sent].
  - exists (deliver_invoked (Err ErrRequestQueueFull) d). split; [|eauto]. apply rtc_once, i_call; [unfold busy; by rewrite E|by eapply s_beat].
  - exists (deliver_sent None d). split; [|by left]. apply rtc_once, i_call; [unfold busy; by rewrite E|by eapply s_beat_sent].
  - exists d. split; [constructor|eauto].
Qed.

Lemma stop_inside d : reach cap d → rd d = RStopping ∨ rd d = RStopped → ∃ d', rtc inside d d' ∧ rd d' = RStopped.
Proof.
  intros Hd [Hr|Hr]; [|by exists d]. pose proof (disp_inv_reach _ _ Hd) as [_ _ _ _ _ _ H7]. specialize (H7 Hr).
  assert (Hend : ∀ x, rd x = RStopping → wk x = WNone ∨ wk x = WExited → ∃ d', rtc inside x d' ∧ rd d' = RStopped).
  { intros x Hx Hw. exists (x <| requests := None |> <| rd := RStopped |>). split; [|done].
    apply rtc_once, i_call; [unfold busy; by rewrite Hx|]. apply s_stop_waited; [done|]. unfold Stop_waited. by destruct Hw as [->| ->]. }
  assert (Hvia : ∀ x, worker_step d x → rd x = RStopping → wk x = WExited → ∃ d', rtc inside d d' ∧ rd d' = RStopped).
  { intros x Hs Hx Hw. destruct (Hend x) as (d' & ? & ?); auto. exists d'. split; [|done]. eapply rtc_l; [by apply i_work|done]. }
  destruct (wk d) eqn:Hw; try (by apply Hend; auto).
  - by eapply Hvia; [apply s_run_done|..].
  - eapply Hvia; [by eapply s_run_check|..]; unfold run_check; by rewrite H7.
  - by eapply Hvia; [apply s_run_failed; eauto|..].
  - by eapply Hvia; [apply s_run_failed; eauto|..].
Qed.

Definition ended (l : loop) : Prop :=
  ∃ l', rtc loop_step l l' ∧ (∃ err, at_ l' = LReturned err) ∧ ∀ d, disp l' = Some d → rd d = RStopped.

Lemma ended_by l l' : rtc loop_step l l' → ended l' → ended l.
Proof. intros H (x & Hx & ?). exists x. split; [by trans l'|done]. Qed.

Lemma stopping_ends l err : ok l → at_ l = LStop err ∨ at_ l = LReturned err → ended l.
Proof.
  intros [H1 _ H3 _ _ _ _ _ H9 _] [Ha|Ha]; rewrite Ha in H3, H9; [|exists l; split_and!; [constructor|eauto|done]].
  destruct (disp l) as [d|] eqn:Hd; [|done].
  destruct (stop_inside d) as (d' & Hr & Hd'); [auto..|].
  destruct (rtc_disp l d d' Hd Hr) as [a Hl].
  exists (l <| disp := Some d' |> <| authAt := a |> <| at_ := LReturned err |>). split_and!; [|by eexists|by intros ? [= <-]].
  eapply rtc_r; [exact Hl|]. by eapply (t_stopped _ d').
Qed.

Lemma leaving_ends l err : ok l → loop_step l (leave err l) → ended l.
Proof.
  intros Hok Hst. apply (ended_by l (leave err l)); [by apply rtc_once|].
  apply (stopping_ends _ err); [by eapply loop_ok_step|]. unfold leave. destruct (disp l); [by left|by right].
Qed.

Lemma loop_ends l : ok l → ended l.
Proof.
  intros Hok. pose proof Hok as [H1 _ H3 _ _ _ _ _ H9 _]. pose proof (ESentinel NetErrClosed) as e.
  destruct (at_ l) as [| | |m|reply|err|err] eqn:Ha.
  - apply (leaving_ends l (Some e) Hok). by apply t_arm_err.
  - apply (leaving_ends l (Some e) Hok). by apply t_lost.
  - destruct (disp l) as [d|] eqn:Hd; [|done]. destruct (H3 d eq_refl) as [Hx Hy].
    destruct (dispatch_returns d Hx Hy) as (d' & Hr & Hd').
    destruct (rtc_disp l d d' Hd Hr) as [a Hl]. set (l' := l <| disp := Some d' |> <| authAt := a |>) in Hl.
    assert (Hok' : ok l') by (clear -Hok Hl; induction Hl; eauto using loop_ok_step).
    apply (ended_by l l' Hl). destruct Hd' as [Hd'|[x Hd']].
    + set (l2 := l' <| at_ := LArm |>). assert (Hs : loop_step l' l2) by (by apply (t_handled l' d')).
      apply (ended_by l' l2); [by apply rtc_once|]. apply (leaving_ends l2 (Some e)); [by eapply loop_ok_step|by apply t_arm_err].
    + apply (leaving_ends l' (Some x) Hok'). by apply (t_handle_err l' d').
  - apply (leaving_ends l None Hok). by eapply t_invoke_err.
  - apply (leaving_ends l (Some e) Hok). by eapply t_reply_err.
  - apply (stopping_ends l err Hok). by left.
  - apply (stopping_ends l err Hok). by right.
Qed.
End Inv.

(** ** Properties *)

(** What became of the messages [ps] of the peer.  The loop reads a prefix of
    them, with the bodies of heartbeats dropped.  Without a dispatcher it gives
    each to the handler.  With one, until the authentication it gives each to
    the handler as it reads it and nothing is queued; of those read since
    ([drop n]), it gives the heartbeats to the handler, and the business
    messages are queued, without a gap and in order, and begun in that order;
    only the last one read can be lost, when the loop is ending. *)
Definition heard (ps : list Proto) (l : loop) : Prop :=
  seen l `prefix_of` clean <$> ps ∧ (disp l = None → invoked l = seen l) ∧
  ∀ d, disp l = Some d →
    match authAt l with
    | None =>
        auth_sent d = false ∧ accepted d = [] ∧ begun d = [] ∧
        ∃ lost, seen l = invoked l ++ lost ∧ at_most_last d lost
    | Some n =>
        auth_sent d = true ∧ (1 ≤ n ≤ length (seen l))%nat ∧
        begun d `prefix_of` accepted d ∧ (wk d ≠ WExited → accepted d = begun d ++ taken d ++ queue d) ∧
        ∃ after lost, drop n (seen l) = after ++ lost ∧ at_most_last d lost ∧
          invoked l = take n (seen l) ++ filter (λ m, business m = false) after ∧
          accepted d = filter (λ m, business m = true) after
    end.

Lemma read_loop_delivers ps handshakeDeadline cap l :
  loop_reach ps handshakeDeadline cap l → heard ps l.
Proof.
  intros [H1 H2 _ H4 _ H6 _ _ _ _]%loop_inv. split; [done|]. split; [done|]. intros d Hd.
  pose proof (disp_inv_reach _ _ (H1 d Hd)) as [_ _ (dr & H3 & Hdr) H7 _ _ _].
  specialize (H2 d Hd). unfold deals in H2. destruct (authAt l) as [n|].
  - destruct H2 as (Ha & Hn & Hrest). split_and!; try done; try lia.
    + rewrite H3. by apply prefix_app_r.
    + intros Hw. destruct Hdr as [->|]; done.
  - destruct H2 as (Ha & _ & Hrest). assert (Hacc : accepted d = []).
    { destruct (wk d); destruct H7 as [Ha' H7]; [by destruct H7|congruence..]. }
    rewrite Hacc in H3. symmetry in H3. by apply app_eq_nil in H3 as [? _].
Qed.

(** The loop always returns, and leaves the dispatcher stopped: from any
    state there are steps of the handler, the connection and the worker after
    which it has. *)
Theorem read_loop_ends ps handshakeDeadline cap l :
  loop_reach ps handshakeDeadline cap l →
  ∃ l', rtc loop_step l l' ∧ (∃ err, at_ l' = LReturned err) ∧ ∀ d, disp l' = Some d → rd d = RStopped.
Proof. intros Hl%loop_inv. by eapply loop_ends. Qed.

(** C21: over TCP the deadline of a read is the one of the handshake until a
    heartbeat is read, and then the time of the last heartbeat and the
    timeout: no other message moves it. *)
Theorem tcp_read_deadline ps handshakeDeadline cap l :
  loop_reach ps handshakeDeadline cap l → k = KTcp →
  length (beats l) = length (filter (λ m, business m = false) (seen l)) ∧
  deadline l = match last (beats l) with Some t => t + timeout | None => handshakeDeadline end ∧
  (at_ l = LRead → armed l = Some (deadline l)).
Proof. intros [_ _ _ _ _ _ H7 H8 _ H10]%loop_inv Hk. auto. Qed.
End Loop.

(** ** The stream of a TCP connection *)

Section TcpSource.
Context (pb : Protobuf) (codec : Codec) {laws : FramingLaws pb codec}.

Definition tcp_carries (rr : Reader) (ps : list Proto) : Prop :=
  reader_ok rr ∧ r_err rr = None ∧ (Z.to_nat MaxProtoSize ≤ r_size rr)%nat ∧ Forall Proto_ok ps ∧
  ∃ bs, Forall2 (λ p b, Marshal codec p = Ok b ∧ 1 ≤ zlen b ≤ MaxProtoSize) ps bs ∧ remaining rr = concat (frame <$> bs).

Lemma tcp_read_carried rr p ps :
  tcp_carries rr (p :: ps) → ∃ rr', Tcp.readFrame codec rr = (rr', Ok p) ∧ tcp_carries rr' ps.
Proof.
  intros (Hr & He & Hs & [Hp Hps]%Forall_cons & bs & Hb & Hrem). apply Forall2_cons_inv_l in Hb as (b & bs' & [Hm Hl] & Hb & ->).
  change (concat (frame <$> b :: bs')) with (frame b ++ concat (frame <$> bs')) in Hrem.
  destruct (readFrame_ok pb codec rr p b _ Hr He Hs Hp Hm Hl Hrem) as (rr' & -> & R & O & E & Hs' & _).
  exists rr'. split; [done|]. split_and!; [done|done|by rewrite Hs'|done|by exists bs'].
Qed.

Lemma tcp_read_end rr : tcp_carries rr [] → ∃ rr' e, Tcp.readFrame codec rr = (rr', Err e).
Proof.
  intros (Hr & He & Hs & _ & bs & ->%Forall2_nil_inv_l & Hrem). pose proof (readFrame_end codec rr Hr He) as H.
  destruct (Tcp.readFrame codec rr) as [rr' m]. exists rr', (r_fin rr). f_equal. apply H; [|done].
  change MaxProtoSize with 4096 in Hs. lia.
Qed.

#[export] Instance tcp_source : FrameSource Reader :=
  {| read_frame := Tcp.readFrame codec; carries := tcp_carries; read_carried := tcp_read_carried; read_end := tcp_read_end |}.

(** The stream of a peer that writes [ps], however the connection cuts it. *)
Lemma written_carried fail fin wsize rsize ps pieces :
  Forall (sendable codec) ps → (Z.to_nat MaxProtoSize ≤ rsize)%nat → Forall (λ piece, piece ≠ []) pieces →
  concat pieces = w_out (Flush (write_all pb codec (NewWriterSize None fail wsize) ps).1).1 →
  tcp_carries (NewReaderSize pieces fin rsize) ps.
Proof.
  intros Hps Hsz Hne Hout. assert (Hw : writer_ok (NewWriterSize None fail wsize)) by (split; simpl; done || lia).
  destruct (write_all_ok pb codec ps _ Hw Hps) as (w' & bs & Ew & [Hok Hwr Hs] & Hbs). rewrite Ew in Hout. cbn [fst] in Hout.
  destruct (Flush_ok w' Hok) as (w2 & Ef & _ & Hwr2 & Hn & _). rewrite Ef in Hout. cbn [fst] in Hout.
  unfold written in Hwr, Hwr2. rewrite Hn, app_nil_r in Hwr2. rewrite Hwr2, Hwr in Hout. simpl in Hout.
  split_and!; [split; simpl; done || lia|done|done| |by exists bs]. eapply Forall_impl; [exact Hps|]. by intros ? [].
Qed.
End TcpSource.

(** ** The messages of a WebSocket *)

(** The messages [NextReader] gives, each of a binary type or not and read in
    pieces up to its end, and the error after them. *)
Record websocket := mkWebsocket { incoming : list (bool * Ws.pieces); closing : error }.

(** [io.ReadAll] *)
Definition ReadAll (r : Ws.pieces) : result bytes :=
  let '(body, e) := drain r in if err_is (Some e) IoEOF then Ok body else Err e.

Section WsSource.
Context (pb : Protobuf) (codec : Codec) {laws : FramingLaws pb codec}.

(** [readFrame] after its [SetReadDeadline]; the fuel is enough for a message
    that ends ([readBoundedFrame_list]). *)
Definition readFrame (ws : websocket) : websocket * result Proto :=
  match incoming ws with
  | [] => (ws, Err (closing ws))
  | (binary, reader) :: rest =>
      (mkWebsocket rest (closing ws),
       if negb binary then Err (EText "websocket: binary message required")
       else let* body :=
              if negb (Ws.canOptimizeFrames codec) then ReadAll reader
              else default (ReadAll reader)
                     (Ws.readBoundedFrame (length reader + 2) (Z.to_nat MaxProtoSize) (Ws.list_reader reader)) in
            Ws.unmarshalFrame codec body)
  end.

(** A message a peer wrote with [marshalFrame]. *)
Definition ws_message (m : bool * Ws.pieces) (p : Proto) : Prop :=
  m.1 = true ∧ Proto_ok p ∧ ∃ body, Ws.marshalFrame codec (Some p) = (body, None) ∧ drain m.2 = (body, ESentinel IoEOF).

Lemma ws_body_ok p body :
  Proto_ok p → Ws.marshalFrame codec (Some p) = (body, None) →
  Ws.unmarshalFrame codec body = Ok p ∧ zlen body ≤ MaxProtoSize.
Proof.
  intros Hp. unfold Ws.marshalFrame, Ws.unmarshalFrame. destruct (Marshal codec p) as [b|] eqn:Hm; [|done].
  intros [= <- Hv]. rewrite Hv, (unmarshal_marshal p b Hp Hm). split; [done|].
  unfold Ws.validateFrameBody in Hv. destruct (zlen b =? 0); [done|]. destruct (Z.ltb_spec MaxProtoSize (zlen b)); [done|lia].
Qed.

Lemma ws_read_carried ws p ps :
  Forall2 ws_message (incoming ws) (p :: ps) → ∃ ws', readFrame ws = (ws', Ok p) ∧ Forall2 ws_message (incoming ws') ps.
Proof.
  intros ([binary r] & rest & (Hb & Hp & body & Hm & Hd) & Hrest & Hi)%Forall2_cons_inv_r. simpl in Hb, Hd. subst binary.
  destruct (ws_body_ok p body Hp Hm) as [Hu Hl]. unfold readFrame. rewrite Hi.
  exists (mkWebsocket rest (closing ws)). split; [|done]. f_equal. simpl.
  assert (HR : ReadAll r = Ok body) by (unfold ReadAll; by rewrite Hd).
  destruct (Ws.canOptimizeFrames codec); simpl; [|by rewrite HR].
  rewrite readBoundedFrame_list, Hd by done. simpl. unfold bounded_result. rewrite decide_False by lia. simpl.
  done.
Qed.

Lemma ws_read_end ws : Forall2 ws_message (incoming ws) [] → ∃ ws' e, readFrame ws = (ws', Err e).
Proof. intros Hi%Forall2_nil_inv_r. unfold readFrame. rewrite Hi. by eexists _, _. Qed.

#[export] Instance ws_source : FrameSource websocket :=
  {| read_frame := readFrame; carries ws := Forall2 ws_message (incoming ws);
     read_carried := ws_read_carried; read_end := ws_read_end |}.
End WsSource.

(** ** The servers *)

(** C19: a TCP server hears what its client says: of the messages the client
    wrote, however the connection cuts the stream, the loop reads a prefix,
    with the bodies of heartbeats dropped; without a dispatcher each goes to
    the handler as it is read; with one, so does each message up to the one
    whose reply authenticated the connection, and from exactly there on the
    heartbeats go to the handler and the business messages to the queue, all
    of them and in order, which the handler is given in that order; only the
    last message read may be lost, and then the loop ends. *)
Theorem tcp_server_hears pb codec (laws : FramingLaws pb codec) fail fin wsize rsize ps pieces timeout t handshakeDeadline b cap l :
  Forall (sendable codec) ps → (Z.to_nat MaxProtoSize ≤ rsize)%nat → Forall (λ piece, piece ≠ []) pieces →
  concat pieces = w_out (Flush (write_all pb codec (NewWriterSize None fail wsize) ps).1).1 →
  rtc (loop_step (FS := tcp_source pb codec) KTcp timeout) (start (NewReaderSize pieces fin rsize) t handshakeDeadline b cap) l →
  heard ps l.
Proof.
  intros Hps Hsz Hne Hout Hr. eapply read_loop_delivers, reachable_rtc; [|exact Hr].
  apply reach_init. eexists _, t, b. split; [by eapply written_carried|done].
Qed.

(** The same of a WebSocket server and the messages its client framed. *)
Theorem ws_server_hears pb codec (laws : FramingLaws pb codec) ms e ps timeout t handshakeDeadline b cap l :
  Forall2 (ws_message codec) ms ps →
  rtc (loop_step (FS := ws_source pb codec) KWs timeout) (start (mkWebsocket ms e) t handshakeDeadline b cap) l →
  heard ps l.
Proof.
  intros Hps Hr. eapply read_loop_delivers, reachable_rtc; [|exact Hr]. apply reach_init.
  exists (mkWebsocket ms e), t, b. split; [exact Hps|done].
Qed.

Module ServingExample.
Import CodecExample.

Definition beat : Proto := mkProto OpHeartbeat 0 0 0 [Byte.x01].
Definition said : list Proto := [beat; hello].
Definition wire : bytes :=
  w_out (Flush (write_all fixed_pb (fixed true) (NewWriterSize None NetErrClosed 8) said).1).1.
Definition conn : Reader := NewReaderSize (cut 100 wire) IoEOF Tcp.defaultIOBufferSize.

#[local] Instance tcp_conn : FrameSource Reader := tcp_source fixed_pb (fixed true).

Lemma sendable_said : Forall (sendable (fixed true)) said.
Proof. repeat constructor; try (by vm_compute); by (eexists; split; [reflexivity|by vm_compute]). Qed.

Lemma said_carried : carries conn said.
Proof.
  apply (written_carried fixed_pb (fixed true) NetErrClosed IoEOF 8 Tcp.defaultIOBufferSize said (cut 100 wire) sendable_said).
  - apply Nat.leb_le. by vm_compute.
  - vm_compute. repeat constructor; discriminate.
  - by vm_compute.
Qed.

(** Ten seconds in, the heartbeat is read; its body is dropped and the
    deadline moves. *)
Definition heard_beat : loop :=
  received KTcp 30 IoEOF beat
    ((start conn 10 5 false 4) <| armed := Some 5 |> <| at_ := LRead |> <| src := (Tcp.readFrame (fixed true) conn).1 |>).

Lemma heard_beat_run : rtc (loop_step KTcp 30) (start conn 10 5 false 4) heard_beat.
Proof.
  eapply rtc_l; [by apply t_arm|]. apply rtc_once.
  apply (t_frame KTcp 30 ((start conn 10 5 false 4) <| armed := Some 5 |> <| at_ := LRead |>)
    (Tcp.readFrame (fixed true) conn).1 beat IoEOF); [done|].
  change (read_frame ?x) with (Tcp.readFrame (fixed true) conn). 
  assert (E : (Tcp.readFrame (fixed true) conn).2 = Ok beat) by (by vm_compute).
  destruct (Tcp.readFrame (fixed true) conn). simpl in E. by rewrite E.
Qed.

Lemma heard_beat_reach : loop_reach KTcp 30 said 5 4 heard_beat.
Proof.
  eapply reachable_rtc; [|apply heard_beat_run]. apply reach_init. exists conn, 10, false. split; [apply said_carried|done].
Qed.

(** A client that logs in, sends a heartbeat and asks; the login succeeds. *)
Definition login : Proto := mkProto OpAuth 7 0 0 [Byte.x02].
Definition welcome : Proto := mkProto OpAuthReply 7 0 0 [].
Definition talk : list Proto := [login; beat; hello].
Definition talk_wire : bytes :=
  w_out (Flush (write_all fixed_pb (fixed true) (NewWriterSize None NetErrClosed 8) talk).1).1.
Definition talk_conn : Reader := NewReaderSize (cut 100 talk_wire) IoEOF Tcp.defaultIOBufferSize.

Ltac arm_and_read := eapply rtc_l; [by apply t_arm|]; eapply rtc_l; [by eapply (t_frame _ _ _ _ _ IoEOF); vm_compute|].
Ltac inside_by tac := eapply rtc_l; [eapply t_inside; [by vm_compute|tac; by vm_compute]|].
Ltac handled := eapply rtc_l; [by eapply t_handled; vm_compute|].

Lemma talk_run :
  ∃ l : loop (F := Reader), rtc (loop_step KTcp 30) (start talk_conn 10 5 true 4) l ∧
       ∃ d, disp l = Some d ∧ begun d = [hello] ∧ authAt l = Some 1%nat ∧ invoked l = [login; beat <| Body := [] |>].
Proof.
  eexists. split.
  - arm_and_read. inside_by ltac:(apply i_call; [|eapply (s_invoked _ _ (Ok welcome))]).
    inside_by ltac:(apply i_call; [|eapply (s_sent _ _ None)]). handled.
    arm_and_read. inside_by ltac:(apply i_call; [|eapply (s_beat _ _ (Ok beat))]).
    inside_by ltac:(apply i_call; [|eapply (s_beat_sent _ _ None)]). handled.
    arm_and_read. inside_by ltac:(apply i_work; eapply s_run_receive).
    inside_by ltac:(apply i_work; eapply s_run_check). apply rtc_refl.
  - eexists. split; [vm_compute; reflexivity|]. by vm_compute.
Qed.

Lemma tcp_server_hears_witness :
  ∃ (l : loop (F := Reader)) d, heard talk l ∧ disp l = Some d ∧ begun d = [hello] ∧ authAt l = Some 1%nat ∧
         invoked l = [login; beat <| Body := [] |>].
Proof.
  destruct talk_run as (l & Hr & d & Hd & Hb & Ha & Hi). exists l, d. split; [|done].
  apply (tcp_server_hears fixed_pb (fixed true) (fixed_laws true) NetErrClosed IoEOF 8 Tcp.defaultIOBufferSize talk
           (cut 100 talk_wire) 30 10 5 true 4).
  - repeat constructor; try (by vm_compute); by (eexists; split; [reflexivity|by vm_compute]).
  - apply Nat.leb_le. by vm_compute.
  - vm_compute. repeat constructor; discriminate.
  - by vm_compute.
  - exact Hr.
Defined.

Lemma tcp_read_deadline_witness : deadline heard_beat = 40 ∧ beats heard_beat = [10].
Proof. split; [|done]. apply (tcp_read_deadline KTcp 30 said 5 4 heard_beat heard_beat_reach eq_refl). Defined.

Lemma read_loop_ends_witness :
  ∃ l', rtc (loop_step KTcp 30) heard_beat l' ∧ (∃ err, at_ l' = LReturned err) ∧ ∀ d, disp l' = Some d → rd d = RStopped.
Proof. exact (read_loop_ends KTcp 30 said 5 4 heard_beat heard_beat_reach). Defined.

Definition framed : list (bool * Ws.pieces) := [(true, [(enc hello, None)])].

#[local] Instance ws_conn : FrameSource websocket := ws_source fixed_pb (fixed true).

Definition heard_hello : loop :=
  received KWs 30 IoEOF hello
    ((start (mkWebsocket framed IoEOF) 0 5 true 4) <| armed := Some 30 |> <| at_ := LRead |> <| src := mkWebsocket [] IoEOF |>).

Lemma heard_hello_run : rtc (loop_step KWs 30) (start (mkWebsocket framed IoEOF) 0 5 true 4) heard_hello.
Proof.
  eapply rtc_l; [by apply t_arm|]. apply rtc_once.
  apply (t_frame KWs 30 ((start (mkWebsocket framed IoEOF) 0 5 true 4) <| armed := Some 30 |> <| at_ := LRead |>)
    (mkWebsocket [] IoEOF) hello IoEOF); [done|by vm_compute].
Qed.

Lemma ws_server_hears_witness : heard [hello] heard_hello ∧ seen heard_hello = [hello].
Proof.
  split; [|done].
  apply (ws_server_hears fixed_pb (fixed true) (fixed_laws true) framed IoEOF [hello] 30 0 5 true 4); [|apply heard_hello_run].
  constructor; [|constructor]. split; [done|]. split; [apply Proto_ok_hello|]. exists (enc hello). by vm_compute.
Defined.
End ServingExample.
