(* ===== verification/ServerEdge.v ===== *)
(** * Server connections at their edges

    What the servers do with a socket besides the loops: the writes of
    [dispatchTCP] and the accepted connections of
    [network/tcp/server_connection.go], the origin check and the context of a
    connection of [network/websocket/server_connection.go], the send
    statistics of both and the close frame of [network/websocket/channel.go].
    The URL parser and the folding of letters outside ASCII are arguments. *)

From Stdlib Require Import Strings.Ascii.
From S2P Require Import Prelude Errors Proto Bufio Codec Locate Network TcpChannel WsChannel Endpoint.

Local Open Scope string_scope.
Local Open Scope list_scope.
Local Open Scope Z_scope.

(** ** Accepted connections *)

(** [net.Conn]: a TCP connection, TLS over one, or another type. *)
Inductive netConn := TCPConn | TLSConn (c : netConn) | OtherConn.

Definition underlyingTCPConn (c : netConn) : bool :=
  match c with TCPConn | TLSConn TCPConn => true | _ => false end.

(** The answers of the three socket options, in their order. *)
Definition configureTCPConnection (keepAlive readBuffer writeBuffer : option error) : option error :=
  match keepAlive with
  | Some err => Some (EWrap "disable keepalive: %w" [err])
  | None =>
      match readBuffer with
      | Some err => Some (EWrap "set read buffer: %w" [err])
      | None => match writeBuffer with Some err => Some (EWrap "set write buffer: %w" [err]) | None => None end
      end
  end.

(** A turn of the accept loop: [acceptTCP] returns, or the connection is
    closed, or served. *)
Inductive turn := TReturn (closed : bool) (err : error) | TClosed | TServed.

Definition acceptTCP_turn (accept : result netConn) (configured : option error) (tracked : bool) : turn :=
  match accept with
  | Err err => TReturn false err
  | Ok conn =>
      if negb (underlyingTCPConn conn) then TReturn true (EText "tcp: accepted connection is not TCP")
      else match configured with
           | Some _ => TClosed
           | None => if tracked then TServed else TClosed
           end
  end.

(** ** The writes of dispatchTCP *)

Section Writing.
Context (pb : Protobuf) (codec : Codec) {laws : FramingLaws pb codec}.

(** [deadline]: the answer of [SetWriteDeadline]. *)
Definition writeTCPEvent (deadline : option error) (wr : Writer) (message : Proto) : Writer * option error :=
  match deadline with
  | Some err => (wr, Some err)
  | None => match Tcp.writeFrame pb codec wr message with (wr, Some err) => (wr, Some err) | (wr, None) => Flush wr end
  end.

(** An event [ch.next] gives; [done]: it has a channel to report to, so it is
    the last. *)
Record event := mkEvent { proto : Proto; done : bool; setDeadline : option error }.

Fixpoint dispatchTCP (wr : Writer) (events : list event) : Writer * option error :=
  match events with
  | [] => (wr, None)
  | e :: events =>
      match writeTCPEvent (setDeadline e) wr (proto e) with
      | (wr, Some err) => (wr, Some err)
      | (wr, None) => if done e then (wr, None) else dispatchTCP wr events
      end
  end.

Fixpoint through_last (events : list event) : list Proto :=
  match events with [] => [] | e :: events => proto e :: if done e then [] else through_last events end.

(** When a write returns without an error its frame is on the connection. *)
Lemma writeTCPEvent_ok wr p b :
  writer_ok wr → w_buf wr = [] → Marshal codec p = Ok b → 1 ≤ zlen b ≤ MaxProtoSize →
  ∃ wr', writeTCPEvent None wr p = (wr', None) ∧ writer_ok wr' ∧ w_buf wr' = [] ∧ w_out wr' = w_out wr ++ frame b.
Proof.
  intros Hw Hn Hm Hb. unfold writeTCPEvent. destruct (writeFrame_ok pb codec wr p b Hw Hm Hb) as (w1 & -> & [H1 E1 _]).
  destruct (Flush_ok w1 H1) as (w2 & -> & H2 & E2 & N2 & _). exists w2. split_and!; [done..|].
  unfold Bufio.written in *. rewrite N2, E1, Hn, !app_nil_r in E2. done.
Qed.

Lemma dispatchTCP_ok wr events :
  writer_ok wr → w_buf wr = [] → Forall (λ e, setDeadline e = None) events → Forall (sendable codec) (through_last events) →
  ∃ wr' bs, dispatchTCP wr events = (wr', None) ∧ w_buf wr' = [] ∧ w_out wr' = w_out wr ++ concat (frame <$> bs) ∧
    Forall2 (λ p b, Marshal codec p = Ok b ∧ 1 ≤ zlen b ≤ MaxProtoSize) (through_last events) bs.
Proof.
  revert wr. induction events as [|e events IH]; intros wr Hw Hn Hd Hs; simpl.
  { exists wr, []. rewrite app_nil_r. by split_and!; try constructor. }
  apply Forall_cons in Hd as [He Hd]. simpl in Hs. apply Forall_cons in Hs as [(Hp & b & Hm & Hb) Hs].
  rewrite He. destruct (writeTCPEvent_ok wr (proto e) b Hw Hn Hm Hb) as (w1 & -> & H1 & N1 & E1).
  destruct (done e).
  - exists w1, [b]. simpl. rewrite app_nil_r. split_and!; [done..|]. by apply Forall2_cons.
  - destruct (IH w1 H1 N1 Hd Hs) as (w2 & bs & -> & N2 & E2 & Hbs). exists w2, (b :: bs).
    split_and!; [done..| |by constructor]. by rewrite E2, E1, <-app_assoc.
Qed.
End Writing.

(** ** Close frames *)

(** [strings.ToValidUTF8] with an empty replacement. *)
Fixpoint to_valid (skip : nat) (s : string) : string :=
  match s, skip with
  | EmptyString, _ => EmptyString
  | String c s, S skip => String c (to_valid skip s)
  | String c s, O =>
      let '(r, n) := first_rune c s in
      if (r =? RuneError) && (n =? 0)%nat then to_valid 0 s else String c (to_valid n s)
  end.
Definition ToValidUTF8 (s : string) : string := to_valid 0 s.

Definition _maxCloseReasonSize : nat := 123.
Definition CloseNormalClosure : Z := 1000.

(** [websocket.FormatCloseMessage] takes the code and the reason. *)
Definition formatCloseFrame (reason : string) : Z * string :=
  let reason := ToValidUTF8 reason in
  let reason := if (_maxCloseReasonSize <? String.length reason)%nat
                then ToValidUTF8 (stake _maxCloseReasonSize reason) else reason in
  (CloseNormalClosure, reason).

Fixpoint begins (expect : list (Z * Z)) (s : string) : bool :=
  match expect, s with
  | [], _ => true
  | (lo, hi) :: expect, String c s => within lo hi c && begins expect s
  | _, EmptyString => false
  end.

(** A rune that decodes is a first byte and the bytes it calls for. *)
Lemma first_rune_valid c s r n :
  first_rune c s = (r, n) → (r =? RuneError) && (n =? 0)%nat = false →
  ∃ expect, continuation c = Some expect ∧ length expect = n ∧ begins expect s = true.
Proof.
  unfold first_rune. intros H Hv.
  assert (Hbad : (RuneError, 0%nat) = (r, n) → False) by (intros [= <- <-]; done).
  destruct (continuation c) as [[|[lo1 hi1] [|[lo2 hi2] [|[lo3 hi3] [|? ?]]]]|]; try (by destruct s as [|? [|? [|? ?]]]; destruct Hbad).
  - injection H as <- <-. by exists [].
  - destruct s as [|a s]; [by destruct Hbad|]. destruct (within lo1 hi1 a) eqn:Ea; [|by destruct Hbad]. injection H as <- <-.
    exists [(lo1, hi1)]. simpl. by rewrite Ea.
  - destruct s as [|a [|b s]]; [by destruct Hbad..|]. destruct (within lo1 hi1 a) eqn:Ea; [|by destruct Hbad]. destruct (within lo2 hi2 b) eqn:Eb; [|by destruct Hbad].
    injection H as <- <-. exists [(lo1, hi1); (lo2, hi2)]. simpl. by rewrite Ea, Eb.
  - destruct s as [|a [|b [|d s]]]; [by destruct Hbad..|]. destruct (within lo1 hi1 a) eqn:Ea; [|by destruct Hbad].
    destruct (within lo2 hi2 b) eqn:Eb; [|by destruct Hbad]. destruct (within lo3 hi3 d) eqn:Ed; [|by destruct Hbad].
    injection H as <- <-. exists [(lo1, hi1); (lo2, hi2); (lo3, hi3)]. simpl. by rewrite Ea, Eb, Ed.
Qed.

Lemma to_valid_valid s expect :
  begins expect s = true → utf8_valid expect (to_valid (length expect) s) = true.
Proof.
  revert expect. induction s as [|c s IH]; intros [|[lo hi] expect] H; try done.
  - cbn [to_valid length]. destruct (first_rune c s) as [r n] eqn:Ef. destruct ((r =? RuneError) && (n =? 0)%nat) eqn:Ev.
    + apply (IH [] eq_refl).
    + destruct (first_rune_valid c s r n Ef Ev) as (expect & Hc & <- & Hb). cbn [utf8_valid]. rewrite Hc. by apply IH.
  - cbn [to_valid length utf8_valid]. cbn [begins] in H. apply andb_true_iff in H as [-> H]. simpl. by apply IH.
Qed.

Lemma to_valid_length k s : (String.length (to_valid k s) ≤ String.length s)%nat.
Proof.
  revert k. induction s as [|c s IH]; intros [|k]; cbn [to_valid String.length]; [lia..| |specialize (IH k); lia].
  destruct (first_rune c s) as [r n]. destruct (_ && _); [specialize (IH 0%nat)|specialize (IH n)]; cbn [String.length]; lia.
Qed.

Lemma valid_first c s expect :
  continuation c = Some expect → begins expect s = true → ∃ r, first_rune c s = (r, length expect) ∧ (expect = [] → r ≠ RuneError).
Proof.
  intros Hc Hb. unfold first_rune. rewrite Hc. destruct expect as [|[lo1 hi1] [|[lo2 hi2] [|[lo3 hi3] [|? ?]]]].
  - exists (char_Z c). split; [by destruct s|]. intros _. unfold continuation in Hc. destruct (within 0 127 c) eqn:E; [|by repeat case_match].
    unfold within in E. unfold RuneError. lia.
  - destruct s as [|a s]; [done|]. simpl in Hb. rewrite andb_true_r in Hb. rewrite Hb. by eexists.
  - destruct s as [|a [|b s]]; simpl in Hb; rewrite ?andb_false_r in Hb; try done. rewrite andb_true_r in Hb. rewrite Hb. by eexists.
  - destruct s as [|a [|b [|d s]]]; simpl in Hb; rewrite ?andb_false_r in Hb; try done. rewrite andb_true_r, andb_assoc in Hb. rewrite Hb. by eexists.
  - unfold continuation in Hc. by repeat case_match.
Qed.

Lemma utf8_begins s expect : utf8_valid expect s = true → begins expect s = true.
Proof.
  revert expect. induction s as [|c s IH]; intros [|[lo hi] expect] H; try done.
  cbn [utf8_valid begins] in *. apply andb_true_iff in H as [-> H]. by apply IH.
Qed.

Lemma to_valid_id s expect : utf8_valid expect s = true → to_valid (length expect) s = s.
Proof.
  revert expect. induction s as [|c s IH]; intros [|[lo hi] expect] H; try done; cbn [to_valid length utf8_valid] in *.
  - destruct (continuation c) as [expect|] eqn:Hc; [|done]. destruct (valid_first c s expect Hc (utf8_begins _ _ H)) as (r & -> & Hr).
    destruct ((r =? RuneError) && (length expect =? 0)%nat) eqn:E; [|by rewrite (IH expect H)].
    apply andb_true_iff in E as [E1 E2]. destruct expect; [|done]. apply Z.eqb_eq in E1. by destruct (Hr eq_refl).
  - apply andb_true_iff in H as [_ H]. by rewrite IH.
Qed.

Lemma stake_length n s : (String.length (stake n s) ≤ n)%nat.
Proof. revert n. induction s as [|c s IH]; intros [|n]; cbn; try lia. specialize (IH n). lia. Qed.

(** C39: the reason of a close frame always fits its 123 bytes and is valid
    UTF-8, so that the frame is within the 125 bytes of a control frame; a
    reason that is already both is sent as it is. *)
Theorem close_frame_fits reason :
  let '(code, r) := formatCloseFrame reason in
  code = CloseNormalClosure ∧ (String.length r ≤ _maxCloseReasonSize)%nat ∧ ValidString r = true ∧
  (ValidString reason = true → (String.length reason ≤ _maxCloseReasonSize)%nat → r = reason).
Proof.
  unfold formatCloseFrame. assert (HV : ∀ x, ValidString (ToValidUTF8 x) = true) by (intros x; by apply (to_valid_valid x [])).
  assert (HI : ∀ x, ValidString x = true → ToValidUTF8 x = x) by (intros x; apply (to_valid_id x [])).
  destruct (Nat.ltb_spec _maxCloseReasonSize (String.length (ToValidUTF8 reason))).
  - split_and!; [done| |apply HV|].
    + etrans; [apply to_valid_length|apply stake_length].
    + intros Hv Hl. rewrite (HI _ Hv) in *. lia.
  - split_and!; [done|done|apply HV|]. intros Hv _. by apply HI.
Qed.

(** ** The origin of a WebSocket request *)

Definition upper (c : ascii) : bool := within 65 90 c.
Definition lower_char (c : ascii) : ascii := if upper c then ascii_of_N (Z.to_N (char_Z c + 32)) else c.
Fixpoint to_lower (s : string) : string :=
  match s with EmptyString => EmptyString | String c s => String (lower_char c) (to_lower s) end.

(** The two bytes are equal or the upper and lower case of a letter. *)
Definition fold_byte (a b : ascii) : bool :=
  let '(lo, hi) := if char_Z b <? char_Z a then (b, a) else (a, b) in
  Ascii.eqb a b || (upper lo && (char_Z hi =? char_Z lo + 32)).

Section Origin.
Context (Parse : string → option Network.URL) (foldUnicode : string → string → bool).

(** [strings.EqualFold], which goes on with [foldUnicode] from the first byte
    outside ASCII. *)
Fixpoint EqualFold (s t : string) : bool :=
  match s, t with
  | String a s', String b t' =>
      if (128 <=? char_Z a) || (128 <=? char_Z b) then foldUnicode s t
      else if fold_byte a b then EqualFold s' t' else false
  | EmptyString, EmptyString => true
  | _, _ => false
  end.

(** [allowedOrigins]: the configured set, empty if there is none. *)
Definition checkOrigin (allowedOrigins : gset string) (origin host : string) : bool :=
  if bool_decide (origin = EmptyString) then true
  else if negb (bool_decide (allowedOrigins = ∅)) then bool_decide (origin ∈ allowedOrigins)
  else match Parse origin with
       | None => false
       | Some u =>
           if negb (bool_decide (Network.Scheme u = "http")) && negb (bool_decide (Network.Scheme u = "https")) ||
              negb (bool_decide (Network.Path u = EmptyString)) && negb (bool_decide (Network.Path u = "/"))
           then false else EqualFold (Network.Host u) host
       end.

Definition ascii_only (s : string) : bool := all_chars (λ c, char_Z c <? 128) s.

Lemma char_Z_byte c : 0 ≤ char_Z c < 256.
Proof. unfold char_Z. pose proof (N_ascii_bounded c). lia. Qed.

Lemma char_Z_inj a b : char_Z a = char_Z b → a = b.
Proof. unfold char_Z. intros H%N2Z.inj. by rewrite <-(ascii_N_embedding a), H, ascii_N_embedding. Qed.

Lemma lower_char_Z c : char_Z c < 128 → char_Z (lower_char c) = if upper c then char_Z c + 32 else char_Z c.
Proof.
  intros Hc. unfold lower_char. destruct (upper c) eqn:E; [|done]. unfold upper, within in E. unfold char_Z at 1.
  rewrite N_ascii_embedding by lia. lia.
Qed.

Lemma fold_byte_lower a b : char_Z a < 128 → char_Z b < 128 → fold_byte a b = true ↔ lower_char a = lower_char b.
Proof.
  intros Ha Hb. pose proof (lower_char_Z a Ha) as La. pose proof (lower_char_Z b Hb) as Lb.
  assert (E : lower_char a = lower_char b ↔ char_Z (lower_char a) = char_Z (lower_char b)) by (split; [by intros ->|apply char_Z_inj]).
  assert (Eab : Ascii.eqb a b = (char_Z a =? char_Z b)).
  { destruct (Ascii.eqb_spec a b) as [->|Hn]; [by rewrite Z.eqb_refl|]. symmetry. apply Z.eqb_neq. intros ?%char_Z_inj. done. }
  rewrite E, La, Lb. unfold fold_byte. rewrite Eab. pose proof (char_Z_byte a). pose proof (char_Z_byte b). clear E La Lb.
  destruct (Z.ltb_spec (char_Z b) (char_Z a)); unfold upper, within; rewrite orb_true_iff, andb_true_iff;
    repeat match goal with |- context [?x <=? ?y] => destruct (Z.leb_spec x y) end; simpl; lia.
Qed.

(** Without letters outside ASCII the comparison is the one of the lower cases. *)
Lemma EqualFold_ascii s t : ascii_only s = true → ascii_only t = true → EqualFold s t = true ↔ to_lower s = to_lower t.
Proof.
  revert t. induction s as [|a s IH]; intros [|b t]; try done. cbn [ascii_only all_chars EqualFold to_lower].
  intros [Ha Hs]%andb_true_iff [Hb Ht]%andb_true_iff.
  assert (E : (128 <=? char_Z a) || (128 <=? char_Z b) = false) by lia. rewrite E.
  pose proof (fold_byte_lower a b ltac:(lia) ltac:(lia)) as Hf. destruct (fold_byte a b).
  - rewrite (IH t Hs Ht). destruct Hf as [Hf _]. rewrite (Hf eq_refl). split; [by intros ->|by intros [= ->]].
  - split; [done|]. intros [= E1 _]. by apply Hf.
Qed.

(** C20: With no list of origins, a browser's request is upgraded only from a
    page of the server's own host over HTTP; with a list, only from a page on
    it; a request without an origin always. *)
Theorem origin_same_site allowed origin host :
  (∀ u, Parse origin = Some u → ascii_only (Network.Host u) = true) → ascii_only host = true →
  checkOrigin allowed origin host = true ↔
  origin = EmptyString ∨ origin ∈ allowed ∨
  allowed = ∅ ∧ ∃ u, Parse origin = Some u ∧ Network.Scheme u ∈ ["http"; "https"] ∧ Network.Path u ∈ [EmptyString; "/"] ∧
                     to_lower (Network.Host u) = to_lower host.
Proof.
  intros HP Hh. unfold checkOrigin. destruct (decide (origin = EmptyString)) as [->|Ho]; [rewrite bool_decide_eq_true_2 by done; tauto|].
  rewrite bool_decide_eq_false_2 by done. destruct (decide (allowed = ∅)) as [->|Ha].
  - rewrite bool_decide_eq_true_2 by done. simpl. split.
    + destruct (Parse origin) as [u|] eqn:E; [|done]. destruct (_ || _) eqn:Eb; [done|]. intros He. right. right. split; [done|].
      exists u. apply orb_false_iff in Eb as [E1 E2]. split; [done|]. split_and!.
      * repeat case_bool_decide; set_solver.
      * repeat case_bool_decide; set_solver.
      * by apply EqualFold_ascii; [apply HP|..].
    + intros [?|[?|(_ & u & Hu & Hs & Hp & Hl)]]; [done|set_solver|]. rewrite Hu.
      assert (E : negb (bool_decide (Network.Scheme u = "http")) && negb (bool_decide (Network.Scheme u = "https")) ||
                  negb (bool_decide (Network.Path u = EmptyString)) && negb (bool_decide (Network.Path u = "/")) = false).
      { apply orb_false_iff. split; repeat case_bool_decide; set_solver. }
      rewrite E. apply EqualFold_ascii; [by apply HP|done|done].
  - rewrite bool_decide_eq_false_2 by done. simpl. rewrite bool_decide_eq_true. tauto.
Qed.
End Origin.

(** ** The transport of a connection *)

(** [endpoint]: the text of the server's endpoint, if it has one. *)
Definition connectionContext (endpoint : option string) (remoteAddr connID : string) : Transport :=
  let remoteIP := match SplitHostPort remoteAddr with Ok (host, _) => host | Err _ => remoteAddr end in
  NewTransport KindWebSocket (default EmptyString endpoint) remoteIP connID.

(** In [serveTCP] an address that does not split gives no IP. *)
Definition tcp_transport (endpoint : option string) (remoteAddr connID : string) : Transport :=
  let remoteIP := match SplitHostPort remoteAddr with Ok (host, _) => host | Err _ => EmptyString end in
  NewTransport KindTCP (default EmptyString endpoint) remoteIP connID.

(** ** Send statistics *)

Record SendStats := mkSendStats {
  QueueDepth : Z;
  QueueCapacity : Z;
  PendingPayloadBytes : Z;
  QueueDropped : Z;
  Closed : bool;
}.

Definition tcp_SendStats (c : TcpChannel.channel) : SendStats :=
  mkSendStats (zlen (TcpChannel.outbound c)) (Z.of_nat (TcpChannel.capacity c)) (TcpChannel.pendingPayloadBytes c)
    (TcpChannel.queueDropped c) (TcpChannel.closed c).

Definition ws_SendStats (c : WsChannel.Channel) : SendStats :=
  mkSendStats (zlen (WsChannel.outbound c)) (Z.of_nat (WsChannel.capacity c)) (WsChannel.pendingPayloadBytes c)
    (WsChannel.queueDropped c) (WsChannel.closed c).

(** ** Properties of the writes *)

(** C35: a TCP client hears what its server says: the frames of the events up
    to the last one are on the connection, whole and in order, when the writer
    ends, and the client reads the messages back however the connection cuts
    them. *)
Theorem tcp_client_hears pb codec (laws : FramingLaws pb codec) fail fin wsize rsize events pieces :
  Forall (λ e, setDeadline e = None) events → Forall (sendable codec) (through_last events) →
  (Z.to_nat MaxProtoSize ≤ rsize)%nat → Forall (λ piece, piece ≠ []) pieces →
  let w := dispatchTCP pb codec (NewWriterSize None fail wsize) events in
  concat pieces = w_out w.1 →
  w.2 = None ∧ w_buf w.1 = [] ∧
  (read_all codec (length (through_last events)) (NewReaderSize pieces fin rsize)).2 = Ok <$> through_last events.
Proof.
  intros Hd Hs Hsz Hne w Hout. assert (Hw : writer_ok (NewWriterSize None fail wsize)) by (split; simpl; done || lia).
  destruct (dispatchTCP_ok pb codec _ events Hw eq_refl Hd Hs) as (w' & bs & Ew & Hn & Ho & Hbs).
  unfold w in *. rewrite Ew in *. cbn [fst snd] in *. split_and!; [done..|]. rewrite Ho in Hout. simpl in Hout.
  assert (Hr : reader_ok (NewReaderSize pieces fin rsize)) by (split; simpl; done || lia).
  assert (Hpo : Forall Proto_ok (through_last events)) by (eapply Forall_impl; [exact Hs|]; by intros ? []).
  destruct (read_all_ok pb codec (through_last events) bs _ [] Hr eq_refl Hsz Hpo Hbs) as (r1 & -> & _); [|done].
  unfold remaining; simpl. by rewrite app_nil_r.
Qed.

(** The statistics of a channel are within the bounds they publish. *)
Lemma tcp_stats_bounded ok n s :
  TcpChannel.reach ok n s →
  let st := tcp_SendStats (TcpChannel.ch s) in
  0 ≤ QueueDepth st ≤ QueueCapacity st ∧ 0 ≤ PendingPayloadBytes st.
Proof. intros (_ & Hp & Hb & _)%tcp_pending_exact. simpl. lia. Qed.

Lemma ws_stats_bounded codec n s :
  WsChannel.reach codec n s →
  let st := ws_SendStats (WsChannel.ch s) in 0 ≤ QueueDepth st ≤ QueueCapacity st.
Proof. intros (_ & Hb & _)%ws_pending_exact. simpl. lia. Qed.

Module ServerEdgeExample.
Import CodecExample.

Definition outgoing : list event := [mkEvent hello false None; mkEvent bye true None; mkEvent hello false None].
Definition sent_bytes : bytes := w_out (dispatchTCP fixed_pb (fixed true) (NewWriterSize None NetErrClosed 8) outgoing).1.

Lemma tcp_client_hears_witness :
  (read_all (fixed true) 2 (NewReaderSize (cut 100 sent_bytes) IoEOF Tcp.defaultIOBufferSize)).2 = [Ok hello; Ok bye].
Proof.
  apply (tcp_client_hears fixed_pb (fixed true) (fixed_laws true) NetErrClosed IoEOF 8 Tcp.defaultIOBufferSize outgoing
           (cut 100 sent_bytes)).
  - by repeat constructor.
  - apply sendable_both.
  - apply Nat.leb_le. by vm_compute.
  - vm_compute. repeat constructor; discriminate.
  - by vm_compute.
Defined.

Definition parse (s : string) : option Network.URL :=
  if bool_decide (s = "https://Game.example") then Some (Network.mkURL "https" "Game.example" EmptyString) else None.

Lemma origin_same_site_witness : checkOrigin parse (λ _ _, false) ∅ "https://Game.example" "game.example" = true.
Proof.
  apply (origin_same_site parse (λ _ _, false)); [|by vm_compute|].
  - intros u. unfold parse. rewrite bool_decide_eq_true_2 by done. by intros [= <-].
  - right. right. split; [done|]. exists (Network.mkURL "https" "Game.example" EmptyString). split; [by vm_compute|].
    split; [set_solver|]. split; [set_solver|by vm_compute].
Defined.

Lemma long_reason_cut : String.length (formatCloseFrame (String.concat EmptyString (replicate 50 "关闭"))).2 = 123%nat.
Proof. by vm_compute. Qed.
End ServerEdgeExample.
