(* ===== verification/Discovery.v ===== *)
(** * A node in the registry, as a gateway sees it

    The parts of [node/lifecycle.go] between a node and what it calls: the
    start of the gRPC server, the resolution of its endpoint, the record it
    registers and the deregistration.  Proved: of the nodes of a service that
    started with settings [resolveOptions] accepts and register the endpoint
    these publish, the resolver of a gateway takes the listing exactly when
    all speak its transport and agree on the sticky mode, and it then routes to
    every one of them by its id. *)

From S2P Require Import Prelude Errors Locate Endpoint Options Listener Resolver.

(** ** node/lifecycle.go *)

(** What the select of [startGRPC] receives first. *)
Inductive grpc_event := GAccepting | GServed (serveErr : option error) | GDone (ctxErr : error).

Definition startGRPC (ev : grpc_event) : option error :=
  match ev with
  | GAccepting => None
  | GServed serveErr => Some (default (EText "node: gRPC server stopped during startup") serveErr)
  | GDone ctxErr => Some ctxErr
  end.

(** [listen], [endpoint]: the answers of the listener and of the gRPC server. *)
Definition resolveGRPCEndpoint (listen : result nat) (endpoint : result URL) (o : Owner) : Owner * result URL :=
  match Prepare listen o with
  | (o, Some err) => (o, Err (EWrap "node: prepare gRPC listener: %w" [err]))
  | (o, None) =>
      (o, match endpoint with Err err => Err (EWrap "node: resolve gRPC endpoint: %w" [err]) | Ok u => Ok u end)
  end.

(** [stateful]: a locator is configured; [endpoint]: the text of the URL.  The
    version is not read by the gateways. *)
Definition registrationRecord (stateful : bool) (id name endpoint : string) : ServiceInstance :=
  mkInstance id name (if stateful then StickyMetadata else ∅) [endpoint].

(** What the select of [deregister] receives first: the result of the
    registrar or the end of the budget. *)
Definition deregister (record : option ServiceInstance) (result : option error + error) : option error :=
  match record with
  | None => None
  | Some _ => match result with inl err => err | inr ctxErr => Some ctxErr end
  end.

(** [closed]: [cleanupDone] is; nothing while it blocks. *)
Definition waitCleanup (closed : bool) (ctxErr cleanupErr : option error) : option (option error) :=
  match Done closed ctxErr with
  | None => None
  | Some (Some err) => Some (Some err)
  | Some None => Some cleanupErr
  end.

(** ** Registered nodes are resolved *)

Section Discovery.
Context (Parse : string → result URL) (name : string) (secure : bool).

(** A node: its id, the options it was built with and what they resolve to,
    the endpoint it publishes and the text it registers of it. *)
Record node := mkNode {
  nid : string;
  settings : list (Option_ NodeOptions.options);
  cfg : NodeOptions.options;
  published : URL;
  raw : string;
}.

Definition stateful (n : node) : bool := match NodeOptions.stateful (cfg n) with Some _ => true | None => false end.
Definition host (n : node) : string := Host_ (published n).
Definition record (n : node) : ServiceInstance := registrationRecord (stateful n) (nid n) name (raw n).

(** What the node's own code checked before it registers: [start] refuses an
    empty id, and [resolveOptions] took the settings, with the endpoint that
    the gRPC server is given and returns; the text is one that parses to it. *)
Record started (n : node) : Prop := mkStarted {
  st_id : nid n ≠ EmptyString;
  st_public : Forall NodeOptions.public (settings n);
  st_settings : NodeOptions.resolveOptions (settings n) = Ok (cfg n);
  st_endpoint : SEndpoint (published n) ∈ NodeOptions.grpcOptions (cfg n);
  st_text : Parse (raw n) = Ok (published n);
}.

Lemma started_valid n : started n → valid_endpoint (NodeOptions.serverTLS (cfg n)) (published n).
Proof.
  intros [_ Hp Hs He _]. destruct (NodeOptions.node_options_bounded _ _ Hp Hs) as [[_ _ _ _ B] _]. exact (B _ He).
Qed.

(** A gateway takes the endpoint of a node that speaks its transport, and
    only that. *)
Lemma started_host n :
  started n →
  if Bool.eqb (NodeOptions.serverTLS (cfg n)) secure then Host Parse (raw n) secure = Ok (host n)
  else ∃ err, Host Parse (raw n) secure = Err err ∧ errors_Is err ErrTransportSecurity = true.
Proof.
  intros Hn. pose proof (started_valid n Hn) as Hv. unfold Host. rewrite (st_text n Hn).
  destruct (Bool.eqb_spec (NodeOptions.serverTLS (cfg n)) secure) as [E|E].
  - rewrite E in Hv. apply Validate_spec in Hv. by rewrite Hv.
  - destruct Hv as [Hs _ _]. unfold Validate. rewrite Hs.
    destruct (NodeOptions.serverTLS (cfg n)), secure; try done; by eexists.
Qed.

Lemma record_sticky n : IsSticky (Metadata (record n)) = Ok (stateful n).
Proof. unfold record, registrationRecord. by destruct (stateful n). Qed.

Lemma nonempty_id n : nid n ≠ EmptyString → nonempty (nid n) = true.
Proof. by destruct (nid n). Qed.

Lemma record_resolved n :
  started n →
  if Bool.eqb (NodeOptions.serverTLS (cfg n)) secure
  then resolveBackendInstance Parse (record n) secure = Ok (stateful n, host n)
  else ∃ err, resolveBackendInstance Parse (record n) secure = Err err.
Proof.
  intros Hn. pose proof (started_host n Hn) as Hh. unfold resolveBackendInstance. rewrite record_sticky. simpl.
  destruct (Bool.eqb _ secure).
  - rewrite Hh, (nonempty_id n) by apply Hn. by rewrite andb_false_r.
  - destruct Hh as (err & -> & ->). by eexists.
Qed.

(** An accepted record is of the gateway's transport and of the mode of the
    records before it. *)
Lemma one_accepted n l l' :
  started n → one_instance Parse name secure (Some (record n)) l = Ok l' →
  NodeOptions.serverTLS (cfg n) = secure ∧ (found l = true → stickySoFar l = stateful n) ∧
  found l' = true ∧ stickySoFar l' = stateful n.
Proof.
  intros Hn. pose proof (record_resolved n Hn) as Hr. unfold one_instance. rewrite bool_decide_eq_true_2 by done.
  cbn [negb]. destruct (Bool.eqb_spec (NodeOptions.serverTLS (cfg n)) secure) as [E|E]; [|by destruct Hr as [err ->]].
  rewrite Hr. destruct (found l && negb (eqb (stickySoFar l) (stateful n))) eqn:Em; [done|].
  destruct (add _ _ _) as [ids|]; [|done]. intros Hl.
  assert (found l' = true ∧ stickySoFar l' = stateful n) as [H1 H2] by (by destruct (bool_decide _); simplify_eq).
  split_and!; try done. intros Hf. rewrite Hf in Em. simpl in Em. apply negb_false_iff in Em. by apply eqb_prop.
Qed.

Lemma all_accepted ms l l' :
  Forall started ms → instances_loop Parse name secure (Some ∘ record <$> ms) l = Ok l' →
  Forall (λ n, NodeOptions.serverTLS (cfg n) = secure ∧ (found l = true → stateful n = stickySoFar l) ∧
               stateful n = stickySoFar l') ms ∧ (found l = true → stickySoFar l' = stickySoFar l).
Proof.
  revert l. induction ms as [|n ms IH]; intros l Hst E; [injection E as <-; by split|].
  apply Forall_cons in Hst as [Hn Hst].
  change (Some ∘ record <$> n :: ms) with (Some (record n) :: (Some ∘ record <$> ms)) in E. cbn [instances_loop] in E.
  destruct (one_instance _ _ _ _ l) as [l1|] eqn:E1; [|done].
  destruct (one_accepted n l l1 Hn E1) as (Ht & Hm & Hf1 & Hs1). destruct (IH l1 Hst E) as [Hall Hl1].
  specialize (Hl1 Hf1). split; [constructor|].
  - split_and!; [done|intros; symmetry; auto|congruence].
  - eapply Forall_impl; [exact Hall|]. intros m (? & Hm1 & ?). split_and!; [done| |done].
    intros Hf. specialize (Hm Hf). specialize (Hm1 Hf1). congruence.
  - intros Hf. specialize (Hm Hf). congruence.
Qed.

Section Accepted.
Context (mode : bool).
Definition routable (n : node) : Prop := started n ∧ NodeOptions.serverTLS (cfg n) = secure ∧ stateful n = mode.

(** The loop after the records of [ns]. *)
Record resolved_ok (ns : list node) (l : loop) : Prop := mkResolvedOk {
  ro_addr : Resolver.Addr <$> addresses l = host <$> ns;
  ro_seen : ∀ h, h ∈ seen l → h ∈ host <$> ns;
  ro_byid : ∀ n, n ∈ ns → hostByNodeID_ (identities l) !! nid n = Some (host n);
  ro_ids : ∀ k, hostByNodeID_ (identities l) !! k ≠ None → k ∈ nid <$> ns;
  ro_hosts : ∀ h, nodeIDByHost (identities l) !! h ≠ None → h ∈ host <$> ns;
  ro_sticky : found l = true → stickySoFar l = mode;
  ro_last : ns ≠ [] → found l = true;
}.

Lemma differs_none m k v : m !! k = None → differs m k v = false.
Proof. unfold differs. by intros ->. Qed.

Lemma one_more ns n l :
  routable n → nid n ∉ nid <$> ns → host n ∉ host <$> ns → resolved_ok ns l →
  ∃ l', one_instance Parse name secure (Some (record n)) l = Ok l' ∧ resolved_ok (ns ++ [n]) l'.
Proof.
  intros Hr Hid Hhost [H1 H2 H3 H4 H5 H6 H7]. unfold one_instance. rewrite bool_decide_eq_true_2 by done.
  destruct Hr as (Hn & Ht & Hmode). pose proof (record_resolved n Hn) as Hres. rewrite Ht, eqb_reflx in Hres.
  cbn [negb]. rewrite Hres, Hmode.
  assert (E : found l && negb (eqb (stickySoFar l) mode) = false).
  { destruct (found l); [|done]. rewrite H6 by done. by rewrite eqb_reflx. }
  rewrite E. unfold add. assert (Hne : nonempty (ID (record n)) = true) by (by apply nonempty_id, Hn).
  rewrite Hne. cbn [negb ID record registrationRecord].
  assert (Hn1 : hostByNodeID_ (identities l) !! nid n = None).
  { destruct (hostByNodeID_ (identities l) !! nid n) eqn:Ex; [|done]. destruct Hid. apply H4. by rewrite Ex. }
  assert (Hn2 : nodeIDByHost (identities l) !! host n = None).
  { destruct (nodeIDByHost (identities l) !! host n) eqn:Ex; [|done]. destruct Hhost. apply H5. by rewrite Ex. }
  rewrite !differs_none by done. rewrite bool_decide_eq_false_2 by (intros Hs; by apply Hhost, H2).
  eexists. split; [done|]. split; simpl; try done.
  - by rewrite !fmap_app, H1.
  - intros h. rewrite fmap_app. specialize (H2 h). set_solver.
  - intros m [Hm| ->%list_elem_of_singleton]%elem_of_app; [|apply lookup_insert_eq].
    rewrite lookup_insert_ne; [by apply H3|]. intros Hx. apply Hid. rewrite Hx. by apply list_elem_of_fmap_2.
  - intros k. rewrite fmap_app, elem_of_app. destruct (decide (k = nid n)) as [->|Hk]; [set_solver|].
    rewrite lookup_insert_ne by done. auto.
  - intros h. rewrite fmap_app, elem_of_app. destruct (decide (h = host n)) as [->|Hk]; [set_solver|].
    rewrite lookup_insert_ne by done. auto.
Qed.

Lemma all_more ns ms l :
  Forall routable ms → NoDup (nid <$> ns ++ ms) → NoDup (host <$> ns ++ ms) → resolved_ok ns l →
  ∃ l', instances_loop Parse name secure (Some ∘ record <$> ms) l = Ok l' ∧ resolved_ok (ns ++ ms) l'.
Proof.
  revert ns l. induction ms as [|n ms IH]; intros ns l Hr Hi Hh Hl; [exists l; by rewrite app_nil_r|].
  apply Forall_cons in Hr as [Hn Hr].
  assert (Hfresh : ∀ (f : node → string), NoDup (f <$> ns ++ n :: ms) → f n ∉ f <$> ns).
  { intros f. rewrite fmap_app, NoDup_app. intros (_ & H & _) Hin. apply (H _ Hin). simpl. set_solver. }
  destruct (one_more ns n l Hn (Hfresh nid Hi) (Hfresh host Hh) Hl) as (l1 & E & Hl1). 
  change (Some ∘ record <$> n :: ms) with (Some (record n) :: (Some ∘ record <$> ms)). cbn [instances_loop]. rewrite E.
  rewrite (assoc_L (++) ns [n] ms : ns ++ n :: ms = (ns ++ [n]) ++ ms) in *. by apply IH.
Qed.

End Accepted.

(** C38: nodes that started and register with different ids and hosts: a
    gateway takes their listing when all serve with the transport security it
    dials with and all are stateful or none is; it then has that sticky mode,
    finds each node's host under its id, and lists their hosts in order.  If
    one has the other transport security, or two differ in being stateful, the
    listing is refused. *)
Theorem registered_nodes_discovered nodes :
  Forall started nodes → NoDup (nid <$> nodes) → NoDup (host <$> nodes) → nodes ≠ [] →
  (∀ mode, Forall (λ n, NodeOptions.serverTLS (cfg n) = secure ∧ stateful n = mode) nodes →
   ∃ snapshot addrs,
     resolveBackendInstances Parse name (Some ∘ record <$> nodes) secure = Ok (snapshot, addrs) ∧
     available snapshot = true ∧ sticky snapshot = mode ∧ Resolver.Addr <$> addrs = host <$> nodes ∧
     ∀ n, n ∈ nodes → hostByNodeID snapshot !! nid n = Some (host n)) ∧
  ((∃ n, n ∈ nodes ∧ NodeOptions.serverTLS (cfg n) ≠ secure) ∨
   (∃ n m, n ∈ nodes ∧ m ∈ nodes ∧ stateful n ≠ stateful m) →
   ∃ err, resolveBackendInstances Parse name (Some ∘ record <$> nodes) secure = Err err).
Proof.
  intros Hst Hi Hh Hne. split.
  - intros mode Hm. assert (Hr : Forall (routable mode) nodes).
    { apply Forall_forall. intros n Hn. rewrite Forall_forall in Hst, Hm. by split; auto. }
    destruct (all_more mode [] nodes (mkLoop ∅ [] (mkIdentities ∅ ∅) false false) Hr Hi Hh) as (l & E & [H1 H2 H3 H4 H5 H6 H7]).
    { split; simpl; try done; set_solver. }
    unfold resolveBackendInstances. rewrite E. eexists _, _. split; [done|]. simpl in *.
    split_and!; [|by apply H6, H7|done|done].
    rewrite bool_decide_eq_false_2; [done|]. intros Ha. rewrite Ha in H1. by destruct nodes.
  - intros Hbad. unfold resolveBackendInstances. destruct (instances_loop _ _ _ _ _) as [l|err] eqn:E; [|by eexists].
    destruct (all_accepted _ _ _ Hst E) as [Hall _]. rewrite Forall_forall in Hall.
    destruct Hbad as [(n & Hn & Ht)|(n & m & Hn & Hm & Hd)].
    + by destruct (Hall n Hn).
    + destruct Hd. destruct (Hall n Hn) as (_ & _ & ->). by destruct (Hall m Hm) as (_ & _ & ->).
Qed.
End Discovery.

Module DiscoveryExample.

Definition Parse (raw : string) : result URL :=
  if bool_decide (raw = "grpc://192.0.2.1:9010"%string) then Ok (url_of "grpc" "192.0.2.1:9010")
  else if bool_decide (raw = "grpc://192.0.2.2:9010"%string) then Ok (url_of "grpc" "192.0.2.2:9010")
  else Err (EText "missing").

(** Two nodes of "ludo" with a store, given their endpoints. *)
Definition given (host : string) : list (Option_ NodeOptions.options) :=
  [NodeOptions.Registration (Some 0%nat); NodeOptions.Stateful (Some (Some 1%nat)); NodeOptions.Endpoint (Some (url_of "grpc" host))].
Definition resolved (host : string) : NodeOptions.options :=
  match NodeOptions.resolveOptions (given host) with Ok o => o | Err _ => NodeOptions.defaults end.
Definition ludo (id raw host : string) : node := mkNode id (given host) (resolved host) (url_of "grpc" host) raw.
Definition two : list node :=
  [ludo "ludo-1" "grpc://192.0.2.1:9010" "192.0.2.1:9010"; ludo "ludo-2" "grpc://192.0.2.2:9010" "192.0.2.2:9010"].

Lemma two_started : Forall (started Parse) two.
Proof.
  repeat constructor; try (by vm_compute).
  all: by vm_compute; repeat constructor.
Qed.

Lemma registered_nodes_discovered_witness :
  (∃ snapshot addrs,
    resolveBackendInstances Parse "ludo" (Some ∘ record "ludo" <$> two) false = Ok (snapshot, addrs) ∧
    available snapshot = true ∧ sticky snapshot = true ∧ Resolver.Addr <$> addrs = host <$> two ∧
    ∀ n, n ∈ two → hostByNodeID snapshot !! nid n = Some (host n)) ∧
  ∃ err, resolveBackendInstances Parse "ludo" (Some ∘ record "ludo" <$> two) true = Err err.
Proof.
  split.
  - apply (registered_nodes_discovered Parse "ludo" false two); [apply two_started|by vm_compute; repeat constructor; set_solver..|done|].
    repeat constructor; by vm_compute.
  - apply (registered_nodes_discovered Parse "ludo" true two); [apply two_started|by vm_compute; repeat constructor; set_solver..|done|].
    left. eexists. split; [by left|by vm_compute].
Defined.
End DiscoveryExample.
