(* ===== verification/Samples.v ===== *)
(** * The sample gateway

    [examples/env/env.go], [examples/message/wire.go] and
    [examples/gateway/main.go]: the settings the sample takes from its
    environment, and the authenticator it gives the gateway.  Proved: the
    authenticator accepts exactly its tokens, and in every environment the
    settings of the sample are ones the event bus accepts, and the registry
    and the gateway with the defaults. *)

From S2P Require Import Prelude Errors Locate Endpoint ClientOptions Options Event Registry.

Local Open Scope string_scope.
Local Open Scope list_scope.
Local Open Scope Z_scope.

(** ** examples/message/wire.go *)

Definition AuthTokenPrefix : string := "example-token:".
Definition AnnouncementTopic : string := "topic.gateway.announcement.v1".

(** ** examples/env/env.go *)

Section Env.
Context (Getenv : string → string).

Definition envOr (name fallback : string) : string :=
  if bool_decide (Getenv name ≠ EmptyString) then Getenv name else fallback.

Definition EtcdAddr : string := envOr "YOLA_ETCD_ADDR" "127.0.0.1:2379".
Definition NATSURL : string := envOr "YOLA_NATS_URL" "nats://127.0.0.1:4222".
Definition Host : string := envOr "YOLA_ADVERTISE_HOST" "127.0.0.1".

Definition NewEventBus (now : Z) : result Event.options := New_options [Some (WithURL NATSURL)] now.

Definition NewRegistry (newClient : option error) : result Registry.config :=
  NewNodeRegistry newClient [WithEndpoints [EtcdAddr]; WithPrefix "/microservices"].

(** ** examples/gateway/main.go *)

(** The options of [gateway.NewServer]; the authenticator, the locator, the
    registry and the transports are numbers. *)
Definition gateway_options (grpcPort : string) : list (Option_ GatewayOptions.options) :=
  [GatewayOptions.Address (JoinHostPort Host grpcPort); GatewayOptions.AdvertiseHost Host; GatewayOptions.Auth (Some 0%nat);
   GatewayOptions.Locator (Some (Some 1%nat)); GatewayOptions.Discovery (Some 2%nat);
   GatewayOptions.Transport [Some 3%nat; Some 4%nat]].
End Env.

(** [subtle.ConstantTimeCompare] of slices of one length. *)
Definition Authenticate (serviceName token : string) : result string :=
  if negb (bool_decide (serviceName = "whot")) && negb (bool_decide (serviceName = "ludo")) then Err ErrInvalidCredentials
  else
    let prefix := AuthTokenPrefix in
    if (String.length token <=? String.length prefix)%nat || negb (bool_decide (stake (String.length prefix) token = prefix))
    then Err ErrInvalidCredentials
    else let uid := sdrop (String.length prefix) token in
         if negb (ValidUID uid) then Err ErrInvalidCredentials else Ok uid.

Lemma stake_sdrop n s : stake n s +:+ sdrop n s = s.
Proof.
  revert n. induction s as [|c s IH]; intros [|n]; try done.
  change (String c (stake n s +:+ sdrop n s) = String c s). by rewrite IH.
Qed.

Lemma length_app_string a b : String.length (a +:+ b) = (String.length a + String.length b)%nat.
Proof. induction a as [|c a IH]; [done|]. exact (f_equal S IH). Qed.

(** A token is accepted exactly for a service of the sample, when it is
    the prefix and a valid UID, which is the one it authenticates. *)
Theorem sample_tokens_exact serviceName token uid :
  Authenticate serviceName token = Ok uid ↔
  serviceName ∈ ["whot"; "ludo"] ∧ token = AuthTokenPrefix +:+ uid ∧ ValidUID uid = true.
Proof.
  unfold Authenticate. set (n := String.length AuthTokenPrefix). split.
  - destruct (negb _ && negb _) eqn:Es; [done|]. destruct (_ || _) eqn:Et; [done|].
    destruct (negb (ValidUID _)) eqn:Ev; [done|]. intros [= <-]. apply orb_false_iff in Et as [_ Et]. split_and!.
    + repeat case_bool_decide; set_solver.
    + apply negb_false_iff, bool_decide_eq_true in Et. rewrite <-Et at 1. by rewrite stake_sdrop.
    + by apply negb_false_iff in Ev.
  - intros (Hs & -> & Hv).
    assert (Es : negb (bool_decide (serviceName = "whot")) && negb (bool_decide (serviceName = "ludo")) = false).
    { repeat case_bool_decide; set_solver. }
    rewrite Es. unfold n. rewrite stake_app, sdrop_app, bool_decide_eq_true_2, Hv by done. simpl negb. rewrite orb_false_r.
    assert (El : (String.length (AuthTokenPrefix +:+ uid) <=? String.length AuthTokenPrefix)%nat = false); [|by rewrite El].
    apply Nat.leb_gt. rewrite length_app_string. unfold ValidUID in Hv. to_prop. lia.
Qed.

Lemma envOr_nonempty Getenv name fallback : fallback ≠ EmptyString → envOr Getenv name fallback ≠ EmptyString.
Proof. unfold envOr. by case_bool_decide. Qed.

(** In every environment the settings of the sample's event bus are
    accepted, and the topic it announces on is one the bus accepts; with an
    environment that sets nothing the registry is made under the prefix of the
    nodes, and the gateway's options resolve. *)
Theorem sample_configured Getenv now newClient :
  (∃ o, NewEventBus Getenv now = Ok o ∧ url o = NATSURL Getenv) ∧ ValidTopic AnnouncementTopic = true ∧
  ((∀ v, Getenv v = EmptyString) →
   (newClient = None → ∃ c, NewRegistry Getenv newClient = Ok c ∧ prefix c = "/microservices/yola/nodes") ∧
   ∃ o, GatewayOptions.resolveOptions 4 (gateway_options Getenv "9010") = Ok o ∧ GatewayOptions.transports o = [3; 4]%nat).
Proof.
  split_and!; [|by vm_compute|].
  - unfold NewEventBus, New_options, configure. cbn [fold_left]. set (o := WithURL _ _).
    assert (Ha : contextError (ctx o) now = None ∧ validateOptions o = None).
    { apply validateOptions_none. split; try done; [by exists Ctx.Background|]. apply envOr_nonempty. done. }
    destruct Ha as [-> ->]. simpl. by exists o.
  - intros Hn. assert (HE : ∀ n f, envOr Getenv n f = f) by (intros n f; unfold envOr; by rewrite Hn).
    unfold NewRegistry, gateway_options, EtcdAddr, Host. rewrite !HE. split.
    + intros ->. eexists. by vm_compute.
    + eexists. by vm_compute.
Qed.
